(* ===== verification/_CoqProject ===== *)
-Q . S2P
Prelude.v
MachineInt.v
Float32.v
ParseInt.v
NoiseGate.v
Bincode.v
LittleEndian.v
Event.v
Audio.v
AudioSink.v
AudioClient.v
DbTypes.v
Json.v
Schema.v
Store.v
MemStore.v
SqlStore.v
SqlTables.v
DbHandlers.v
DbThreads.v
AudioHandler.v
AudioFailures.v
Recording.v
EventHandler.v
Signal.v
EventServer.v
WsManager.v
EventProcessor.v
Sessions.v
AudioServer.v
AudioService.v
EventFlow.v
SoundFlow.v
Backend.v
Shutdown.v
ClientConfig.v
ClientMain.v
Http.v
HttpService.v
WebApp.v
Download.v
Site.v
Logger.v
Lifecycle.v
Startup.v
