(* ===== verification/Prelude.v ===== *)
(** * A verified model of the BUG backend

    BUG is a room guard: a sensor board ("bug") sends events over TCP, an audio
    client sends recordings over UDP, and a backend stores both, tells the
    browsers that watch over websockets, and serves a small HTTP interface. This
    library models the backend, all of the repository's Rust (src/backend),
    and proves what its parts and their composition do.

    ** The program and its parts

<<
    sensor board --TCP--> EventHandler --+                       +--> sessions (WsManager)
                                         +--> EventProcessor ----+
    audio client --UDP--> AudioServer    |         |             +--> database actor
     (NoiseGate,             |           |         +------------------^    ^
      AudioSink)        AudioHandler ----+                                 |
                             |                          browser --> Http --+
                          wav files
>>

    The audio client cuts the stream of the microphone at silences ([NoiseGate])
    and sends each transmission as numbered chunks of 512 samples
    ([AudioSink]). The server keeps one handler per client address
    ([AudioServer]); the handler writes one WAV file per recording and reports
    the finished file as an event ([AudioHandler]). A board's connection is
    authenticated by the secret of an event ([EventHandler]). Every event is
    inserted in the database and broadcast to the sessions ([EventProcessor],
    [DbHandlers], [WsManager]). Users create, list and delete devices, events
    and labels over HTTP ([Http]).

    ** The files, and the code they model (paths under src/backend)

    - [Prelude]: Rust's [Result] and its [?], lemmas on lists, strings, the
      [option] monad, and the tactics the other files share.
    - [MachineInt], [Float32]: integers of fixed width as [Z] with [as] casts,
      the two overflow behaviours of a build ([Profile]: debug panics, release
      wraps), bytes; [f32] as a bit pattern with an IEEE 754 value.
    - [NoiseGate]: audio-client/src/noise_gate.rs. [process], [next_state].
    - [Bincode]: interface of the crates bincode and uuid, and [Wire], the
      combinators for derived [Serialize]/[Deserialize] implementations.
      [LittleEndian]: bincode's default format and 16-byte uuids, an instance
      of the interface.
    - [ParseInt]: the standard library's texts of unsigned integers, read
      ([from_str_radix]) and printed ([decimal]).
    - [Event]: event/src. Messages of the boards and their codec.
    - [Audio]: audio/src. Messages of the audio stream, the hand-written array
      format, the codec.
    - [AudioSink]: audio-client/src/main.rs. The sink, the collector actor, the
      ring buffer between the audio callback and the collector, the gate's
      configuration. [ClientConfig]: [parse_hex] of the same file.
      [ClientMain]: its options and [main] up to [play]. [AudioClient]: its
      threads (callback, waker thread, executor) and the end of [main], as a
      transition system with one step per access to a shared object.
    - [DbTypes]: the rows and messages of src/actor/db, the errors of
      src/actor/db/mod.rs, the conversion of a board's event to a row.
    - [Store]: the tables of migrations/ and the interface [Postgres] of the
      statements the handlers execute, with [PostgresLaws]. [MemStore]: a store
      in memory that satisfies them.
    - [Schema]: src/schema.rs and migrations/ as data, with an interpreter for
      the statements of the migrations. [SqlStore]: rows of untyped values under
      the constraints of such tables, with their inserts and cascades.
      [SqlTables]: the rows of the program's structs; they refine [Store].
    - [DbHandlers]: src/actor/db. One definition per message handler, in a
      monad that threads the database and stops at the first error.
      [DbThreads]: the threads that run them, statement by statement.
    - [AudioHandler]: src/actor/audio_handler.rs, over the interface [Host] of
      hound, the files and the clock; [AudioFailures]: the same actor on a host
      that fails. [AudioServer]: src/actor/audio_server.rs; [AudioService]: all
      its clients together.
    - [EventHandler]: src/actor/event_handler.rs, one connection.
      [EventServer]: src/actor/event_server.rs, the listener and all
      connections.
      [WsManager]: src/actor/ws_manager.rs and src/http/ws.rs.
      [EventProcessor]: src/actor/event_processor.rs. [Sessions]: the actors of
      the websockets beside it, until they close.
    - [Json]: the derived JSON of the columns and of the bodies, as trees.
      [Http]: src/http. [HttpService]: its requests, from the path to the
      tables. [WebApp]: src/http/server.rs, the application with its
      middlewares, the static files and the websocket. [Logger]: src/logger.rs.
      [Signal]: src/signal.rs. [Lifecycle]: what the actors log as they start,
      fail to write and stop.
    - [Startup]: src/main.rs and the [Config] of every service: options,
      builders, sockets, the directory of the recordings.
    - [Recording] composes [AudioSink] with [AudioHandler]; [EventFlow]
      composes [Event], [EventHandler], [DbHandlers], [EventProcessor] and
      [WsManager]; [SoundFlow] composes [AudioHandler] with the latter three,
      and [Download] goes on to [WebApp]; [Backend] composes all services of
      src/main.rs over one database, in which turns of the processor stand for
      the requests of the HTTP server, and [Shutdown] is about the end of it;
      [Site] puts [WebApp] and [Sessions] in their place.

    ** State and operations

    Each actor is a record of the fields that its code changes or reads, and
    each handler a function from the state and the message to the new state
    with what it sends. A function that can panic returns [option], one that
    returns a [Result] returns [result]. Requests to another actor are
    arguments or effects: [Reply] is what [Addr::send] resolves to, a list of
    events is what [do_send] was called with. [async] code is cut where it
    awaits: [EventProcessor.Task] has one constructor per await, and
    [Happening] lists what may occur between two of them, so the theorems hold
    for every interleaving of the futures of several events with each other,
    with the registration of sessions and with the other requests.

    ** What the theorems show

    - The path of a recording: [Recording.recording_reaches_disk] from the
      client's sink to the bytes of the WAV file and the event;
      [AudioFailures.recordings_despite_failures] compares the handler with an
      abstract specification of recordings (open, stored, ended) for any bytes,
      on a host that may fail at any call
      ([AudioHandler.handler_refines_recordings] on one that fails by the rules
      of hound only);
      [Download.recording_can_be_downloaded] goes on, for one handler, to what
      sessions are told and to the file that a browser gets under that name;
      [AudioService.clients_are_served] lifts it to the server with any number
      of clients in one directory, of which no two use the same id, and [Shutdown.shutdown_finishes_recordings]
      to the end of the backend, in whatever order its parts end;
      [AudioSink.stream_lossless_wellformed] and [transmission_sends_packets]
      say what the client sends; [AudioSink.ring_fifo] that samples are handed
      over in order; [AudioServer.first_registration_wins] and
      [handshake_recovers] who is handled by whom.
    - The threads of the client: [AudioClient.recording_ignores_interleaving]
      (the schedule does not matter to what is recorded, nor to how the last
      transmission is closed), [payloads_are_delivered]
      (no wake-up is lost before the interrupt), [interrupt_ends_client] and
      [interrupt_can_hang] (when the shutdown ends, and when it does not).
      [ClientMain.client_main_starts]: what [main] sets them up with.
    - The gate: [NoiseGate.process_refines_gate_trace] compares the state
      machine with a declarative gate, for any cut of the stream into
      calls and any sink; [open_iff_recent_loud] says when it is open;
      [below_threshold_*] what "loud" means in each sample type.
    - The path of an event: [EventFlow.device_event_is_stored_and_broadcast]
      from the bytes to the row and the sessions;
      [EventServer.server_runs_sessions] all connections of the server, each
      of which is a [session] ([EventHandler.connection_session]);
      [EventProcessor.broadcast_events_are_stored] and [processing_terminates]
      the processor under every interleaving;
      [Sessions.session_socket_gets_events] what a browser sees until it leaves:
      the texts of the completed events, in the order of their completion.
    - The whole backend: [Backend.events_are_authenticated], no event is stored or
      broadcast under a device of which no secret was presented, whatever
      reaches the services in whatever order.
    - The whole backend as its browsers see it:
      [Site.browsers_hear_recordings], what a session's socket shows is an event
      that has its row in the database, of a board or of a recording of a client,
      and the recording can be downloaded under the name it shows; and
      [Site.browser_hears_every_event], a browser that has opened the websocket
      is sent every event that is completed from then on.
    - The database: [DbHandlers.device_secret_authenticates],
      [delete_device_revokes], [events_with_their_labels],
      [insert_event_reads_back], and [DbThreads.threads_keep_integrity] for the
      threads of the actor under every interleaving of their statements;
      [HttpService.device_lifecycle] follows a device through HTTP requests.
    - The schema: [Schema.migrations_build_schema] runs the migrations and
      compares the catalogue with schema.rs. What [Store] assumes of the
      statements follows from the SQL: [SqlTables.constraints_are_integrity],
      [cascades_are_deletes], [inserts_are_checked] and [selects_read_tables].
    - The web application: [WebApp.requests_are_logged], what the middlewares
      add to the answers of the routes.
    - Start-up: [Startup.startup_order] and [startup_succeeds_iff], exactly which
      services run after [main], by the first operation that fails, and when all
      do; [config_roundtrip].
    - Formats: [Event.decode_exact] and [Audio.decode_audio_exact] say what the
      decoders accept, exactly; round trips of events, audio messages, the
      array format, the rows with their JSONB columns and the secret shown to the
      user ([Http.shown_secret_authenticates], [ClientConfig.parse_hex_spec]).
    - Where the code's behaviour is a loss, the theorem says so: samples 0 to
      511 of every recording ([recording_reaches_disk]), the first recording
      ([AudioSink.first_recording_merged]), recordings of a multiple of 512
      samples ([transmission_sends_packets]), a late chunk
      ([AudioHandler.late_chunk_erases_recording]), loud unsigned samples
      ([loud_u16_chunk_is_cut]), 16-bit chunks of unknown clients
      ([AudioServer.unknown_16_bit_chunk_is_dropped]), coalesced or fragmented
      reads ([Event.decode_exact]), an interrupt that does not end the client
      ([AudioClient.interrupt_can_hang]), recordings whose samples do not fill
      the channels of their format ([AudioHandler.three_channels_are_lost]),
      what is below a microsecond in the times of an event, in its row but not in
      what the sessions are told ([SqlTables.selects_read_tables],
      [EventFlow.device_event_is_stored_and_broadcast]), recordings and events
      that the end of the backend cuts off
      ([Shutdown.shutdown_can_lose_events]).

    ** Interfaces

    Crates and services are classes with their documented behaviour as laws,
    and every class has a concrete instance that satisfies the laws, in which
    the witnesses of the theorems are evaluated:

    - [Bincode]/[BincodeLaws] (what is written is read back) with
      [BincodeCanonical] (nothing else is read), [UuidOps]/[UuidLaws]:
      [LittleEndian].
    - [Chrono]/[ChronoLaws], [Postgres]/[PostgresLaws]: [MemStore]. The laws
      allow every statement to fail without effect; a failed transaction
      leaves the tables as they were. A column of type TIMESTAMPTZ holds an
      [Instant] of [Chrono] (microseconds in [MemStore]); [DbTypes.stored_event]
      is an event with its times cut to that, which is what the row of an
      inserted event holds, while the insertion returns the times of the message,
      as the code does.
    - [Host]/[HostLaws] of hound, the files and the clock: a host in memory at
      the end of [AudioHandler]. [HoundRules] says which formats can be written,
      which samples fit a format and how many samples make a whole file (a
      multiple of the channels); [HostReliable] adds that the calls fail by these
      rules only, which the theorems that say what is in the files assume, but
      for those of [AudioFailures].
    - [HttpSignals]: the signals on which actix's HTTP server stops ([Backend]).
      A service sees a signal, and the HTTP server ends, only after the process
      has got it.
    - [Os]/[OsLaws] of sockets, directories and the connection pool, [OsTotal]
      where what is free can be had: a machine at the end of [Startup].
    - [StaticFiles]/[StaticFilesLaws] of actix_files and
      [CorsMiddleware]/[CorsLaws] of actix_cors: [WebApp]. [Download] and [Site] assume
      besides that a uuid is written in letters, digits and hyphens, and that a
      WAV file exists as a file.
    - [ArrayQueue]/[ArrayQueueLaws] of crossbeam's ring: [AudioSink].
    - [Sample] and [Sink] are the traits of the code; [AudioSink] is the sink
      the gate's theorems apply to.

    ** Bounds and fuel

    [WAV_CHUNK_PAYLOAD_SIZE] is the code's 512, kept opaque in proofs. The
    sequence number of a chunk is a [u32] and its increment may panic, so the
    theorems on the sink bound the samples sent by what a [u32] counts.
    [decimal] prints a number with fuel for its digits: 5 for a port ([u16]),
    20 for a count ([u64]), which are the most digits such a number has. The
    future of an event needs three resumptions ([EventProcessor.rank]), and a
    payload a bounded number of steps of the client's threads
    ([AudioClient.payloads_are_delivered]), which is proved. A DELETE follows
    references for as many generations as there are tables, which
    [SqlTables.cascades_are_deletes] proves enough: it deletes all rows that
    depend on the deleted one.

    ** Not modelled

    What the crates do inside: actix's mailboxes and websocket protocol, the
    responses of actix_files and the headers of actix_cors, cpal, hound, diesel
    and PostgreSQL, serde_json's text, structopt's help, slog's drain; they are
    interfaces or parameters. Log messages other than the access log and those of
    the actors' lives, and the time stamp of the log. The parts of the repository
    in other languages (the board's firmware and the web page). Linking events
    with labels automatically is a TODO of the code ([match_event_labels] returns
    nothing); composed events are tables that no code uses. A request of
    the HTTP server is one step of [Site] and [Backend]; what the statements of
    concurrent requests do to each other is the subject of [DbThreads]. *)
From stdpp Require Export base list strings gmap.
From Stdlib Require Export ZArith Lia.

(** ** Rust's [Result] *)

Inductive result (A E : Type) : Type :=
| Ok (a : A)
| Err (e : E).
Arguments Ok {A E} a.
Arguments Err {A E} e.

(** [r?] in a function that returns a [Result]: the error leaves the
    function, the value is bound. *)
Definition res_bind {A B E} (r : result A E) (k : A -> result B E) : result B E :=
  match r with
  | Ok a => k a
  | Err e => Err e
  end.

Definition res_map {A B E} (f : A -> B) (r : result A E) : result B E :=
  match r with
  | Ok a => Ok (f a)
  | Err e => Err e
  end.

(** [map_err(f)]. *)
Definition res_map_err {A E F} (f : E -> F) (r : result A E) : result A F :=
  match r with
  | Ok a => Ok a
  | Err e => Err (f e)
  end.

(** [.ok()]. *)
Definition res_ok {A E} (r : result A E) : option A :=
  match r with
  | Ok a => Some a
  | Err _ => None
  end.

Definition is_ok {A E} (r : result A E) : bool :=
  match r with
  | Ok _ => true
  | Err _ => false
  end.

Declare Scope rust_scope.
Delimit Scope rust_scope with rust.
Notation "'let?' x ':=' r 'in' k" := (res_bind r (fun x => k))
  (at level 10, x pattern, r at level 100, k at level 200) : rust_scope.
Open Scope rust_scope.

(** ** Tactics *)

(** Split a hypothesis of the form [e = Some _], [e = Ok _] or [e = None]
    whose left side binds an intermediate result. *)
Ltac split_bind :=
  repeat match goal with
  | H : context [res_bind ?r _] |- _ => let E := fresh "E" in destruct r eqn:E; cbn [res_bind] in H
  | |- context [res_bind ?r _] => let E := fresh "E" in destruct r eqn:E; cbn [res_bind]
  end; simplify_eq/=.

(** Decide the boolean and propositional tests left in the goal. *)
Ltac split_if :=
  repeat match goal with
  | |- context [if ?b then _ else _] => let E := fresh "E" in destruct b eqn:E
  | H : context [if ?b then _ else _] |- _ => let E := fresh "E" in destruct b eqn:E
  end; simplify_eq/=.

(** Turn boolean comparisons on [Z] and [nat] in the context into
    propositions, then call [lia]. *)
Ltac b2p :=
  repeat match goal with
  | H : andb _ _ = true |- _ => apply andb_prop in H as [? ?]
  | H : andb _ _ = false |- _ => apply andb_false_iff in H
  | H : orb _ _ = true |- _ => apply orb_true_iff in H
  | H : orb _ _ = false |- _ => apply orb_false_iff in H as [? ?]
  | H : negb _ = true |- _ => apply negb_true_iff in H
  | H : negb _ = false |- _ => apply negb_false_iff in H
  | H : (_ <? _)%Z = true |- _ => apply Z.ltb_lt in H
  | H : (_ <? _)%Z = false |- _ => apply Z.ltb_ge in H
  | H : (_ <=? _)%Z = true |- _ => apply Z.leb_le in H
  | H : (_ <=? _)%Z = false |- _ => apply Z.leb_gt in H
  | H : (_ =? _)%Z = true |- _ => apply Z.eqb_eq in H
  | H : (_ =? _)%Z = false |- _ => apply Z.eqb_neq in H
  | H : (_ <? _)%nat = true |- _ => apply Nat.ltb_lt in H
  | H : (_ <? _)%nat = false |- _ => apply Nat.ltb_ge in H
  | H : (_ <=? _)%nat = true |- _ => apply Nat.leb_le in H
  | H : (_ <=? _)%nat = false |- _ => apply Nat.leb_gt in H
  | H : (_ =? _)%nat = true |- _ => apply Nat.eqb_eq in H
  | H : (_ =? _)%nat = false |- _ => apply Nat.eqb_neq in H
  end.

Ltac blia := b2p; lia.

(** ** Hint databases: [rust] for the resolution lemmas and the rewriting
    rules the components share. *)
Create HintDb rust.
Create Rewrite HintDb rust.

(** ** Lemmas on results *)

Lemma res_bind_ok {A B E} (r : result A E) (k : A -> result B E) (b : B) :
  res_bind r k = Ok b <-> exists a, r = Ok a /\ k a = Ok b.
Proof. destruct r; cbn; split; [eauto|by intros (?&[= ->]&?)|done|by intros (?&?&?)]. Qed.

Lemma res_map_ok {A B E} (f : A -> B) (r : result A E) (b : B) :
  res_map f r = Ok b <-> exists a, r = Ok a /\ f a = b.
Proof. destruct r; cbn; split; [intros [= <-]; eauto|by intros (?&[= ->]&<-)|done|by intros (?&?&?)]. Qed.

(** ** Lemmas on lists *)

Lemma take_app_exact {A} (l k : list A) (n : nat) :
  n = length l -> take n (l ++ k) = l.
Proof. intros ->. apply take_app_length. Qed.

Lemma drop_app_exact {A} (l k : list A) (n : nat) :
  n = length l -> drop n (l ++ k) = k.
Proof. intros ->. apply drop_app_length. Qed.

Lemma foldl_snoc {A B} (f : A -> B -> A) (a : A) (l : list B) (b : B) :
  foldl f a (l ++ [b]) = f (foldl f a l) b.
Proof. by rewrite foldl_app. Qed.

Lemma filter_all {A} (P : A -> Prop) `{forall x, Decision (P x)} (l : list A) :
  (forall x, x ∈ l -> P x) -> filter P l = l.
Proof.
  induction l as [|x l IH]; intros HP; [done|]. rewrite filter_cons_True by (apply HP; left).
  f_equal. apply IH. intros y Hy. apply HP. by right.
Qed.

(** Replacing one element under [omap]. *)
Lemma omap_insert_same {A B} (f : A -> option B) (l : list A) (i : nat) (x y : A) :
  l !! i = Some x -> f y = f x -> omap f (<[i := y]> l) = omap f l.
Proof.
  intros Hi Hf. rewrite <- (take_drop_middle l i x Hi) at 2. rewrite insert_take_drop by (by eapply lookup_lt_Some).
  rewrite !omap_app. cbn. by rewrite Hf.
Qed.

Lemma omap_insert_new {A B} (f : A -> option B) (l : list A) (i : nat) (x y : A) (b : B) :
  l !! i = Some x -> f x = None -> f y = Some b -> omap f (<[i := y]> l) ≡ₚ omap f l ++ [b].
Proof.
  intros Hi Hx Hy. rewrite <- (take_drop_middle l i x Hi) at 2. rewrite insert_take_drop by (by eapply lookup_lt_Some).
  rewrite !omap_app. cbn. rewrite Hx, Hy, <- app_assoc. apply Permutation_app_head. apply Permutation_cons_append.
Qed.

Lemma omap_insert_gone {A B} (f : A -> option B) (l : list A) (i : nat) (x y : A) (b : B) :
  l !! i = Some x -> f x = Some b -> f y = None -> omap f l ≡ₚ omap f (<[i := y]> l) ++ [b].
Proof.
  intros Hi Hx Hy. rewrite <- (list_insert_id l i x Hi) at 1. rewrite <- (list_insert_insert_eq l i x y).
  apply (omap_insert_new f (<[i := y]> l) i y x); [|done..]. rewrite list_lookup_insert_eq; [done|]. by eapply lookup_lt_Some.
Qed.

Lemma string_app_assoc (s t u : string) : ((s +:+ t) +:+ u = s +:+ (t +:+ u))%stdpp.
Proof. induction s as [|c s IH]; [done|]. change (String c ((s +:+ t) +:+ u) = String c (s +:+ (t +:+ u)))%stdpp. by rewrite IH. Qed.

Lemma string_length_app (s t : string) : (String.length (s +:+ t) = String.length s + String.length t)%stdpp.
Proof. induction s as [|c s IH]; [done|]. change (S (String.length (s +:+ t)) = S (String.length s) + String.length t)%stdpp. rewrite IH. done. Qed.

Lemma string_app_inj_r (s t u : string) : (s +:+ u = t +:+ u -> s = t)%stdpp.
Proof.
  revert t. induction s as [|c s IH]; intros [|d t] Heq; [done| | |].
  - apply (f_equal String.length) in Heq. change (String.length u = S (String.length (t +:+ u)))%stdpp in Heq.
    rewrite string_length_app in Heq. lia.
  - apply (f_equal String.length) in Heq. change (S (String.length (s +:+ u)) = String.length u)%stdpp in Heq.
    rewrite string_length_app in Heq. lia.
  - change (String c (s +:+ u) = String d (t +:+ u))%stdpp in Heq. injection Heq as -> Heq. f_equal. by apply IH.
Qed.

Lemma string_app_inj_l (s t u : string) : (u +:+ s = u +:+ t -> s = t)%stdpp.
Proof.
  induction u as [|c u IH]; [done|]. intros Heq. change (String c (u +:+ s) = String c (u +:+ t))%stdpp in Heq.
  injection Heq as Heq. auto.
Qed.

(** Monadic left fold in the panic monad [option]: the shape of a Rust
    [for] loop whose body may panic. *)
Fixpoint foldM {A B} (f : A -> B -> option A) (a : A) (l : list B) : option A :=
  match l with
  | [] => Some a
  | b :: l => a' ← f a b; foldM f a' l
  end.

Lemma foldM_app {A B} (f : A -> B -> option A) (a : A) (l k : list B) :
  foldM f a (l ++ k) = (a' ← foldM f a l; foldM f a' k).
Proof.
  revert a. induction l as [|b l IH]; intros a; cbn; [done|].
  destruct (f a b); cbn; auto.
Qed.

Lemma foldM_snoc_Some {A B} (f : A -> B -> option A) (a a' : A) (l : list B) (b : B) :
  foldM f a l = Some a' -> foldM f a (l ++ [b]) = f a' b.
Proof. intros Hl. rewrite foldM_app, Hl. cbn. by destruct (f a' b). Qed.

#[export] Hint Rewrite @foldM_app : rust.
