(* ===== verification/MachineInt.v ===== *)
(** * Rust's machine integers: ranges, wrap-around, [as] casts, the two
    overflow behaviours of a build, and byte representations. *)
From S2P Require Import Prelude.
From Stdlib Require Export Strings.Byte.
Open Scope Z_scope.

(** ** Ranges *)

(** [in_u w z]: [z] is a value of the [w]-bit unsigned type. *)
Definition in_u (w z : Z) : bool := (0 <=? z) && (z <? 2 ^ w).
(** [in_s w z]: [z] is a value of the [w]-bit signed type. *)
Definition in_s (w z : Z) : bool := (- 2 ^ (w - 1) <=? z) && (z <? 2 ^ (w - 1)).

(** Reduction modulo [2^w] to the unsigned and to the signed range: what [as]
    does between integer types, and what an overflowing operation returns in
    a release build. *)
Definition wrap_u (w z : Z) : Z := z mod 2 ^ w.
Definition wrap_s (w z : Z) : Z := (z + 2 ^ (w - 1)) mod 2 ^ w - 2 ^ (w - 1).

Definition i16_MIN : Z := -32768.
Definition i16_MAX : Z := 32767.

(** ** Overflow behaviour *)

(** [overflow_checks] is on in a debug build (an overflow panics) and off in
    a release build (it wraps). *)
Class Profile := overflow_checks : bool.

(** The result [z] of an arithmetic operation at an unsigned (signed) type of
    width [w]; [None] is the panic. *)
Definition arith_u `{Profile} (w z : Z) : option Z :=
  if in_u w z then Some z else if overflow_checks then None else Some (wrap_u w z).
Definition arith_s `{Profile} (w z : Z) : option Z :=
  if in_s w z then Some z else if overflow_checks then None else Some (wrap_s w z).

(** ** Bytes *)

#[export] Instance byte_eq_dec : EqDecision byte := Byte.byte_eq_dec.

Definition byte_to_Z (b : byte) : Z := Z.of_N (Byte.to_N b).
Definition byte_of_Z (z : Z) : byte := default x00 (Byte.of_N (Z.to_N (z mod 256))).

(** [to_le_bytes] of the [n]-byte unsigned value [z], and its inverse. *)
Fixpoint le_bytes (n : nat) (z : Z) : list byte :=
  match n with
  | O => []
  | S n => byte_of_Z z :: le_bytes n (z / 256)
  end.
Fixpoint le_value (bs : list byte) : Z :=
  match bs with
  | [] => 0
  | b :: bs => byte_to_Z b + 256 * le_value bs
  end.

(** [u64::to_be_bytes]. *)
Definition u64_to_be_bytes (z : Z) : list byte := rev (le_bytes 8 z).

(** ** Lemmas *)

Lemma in_u_iff w z : in_u w z = true <-> 0 <= z < 2 ^ w.
Proof. unfold in_u. rewrite andb_true_iff. split; intros; b2p; try split; blia. Qed.

Lemma in_s_iff w z : in_s w z = true <-> - 2 ^ (w - 1) <= z < 2 ^ (w - 1).
Proof. unfold in_s. rewrite andb_true_iff, Z.leb_le, Z.ltb_lt. lia. Qed.

Lemma arith_u_fits `{Profile} w z : 0 <= z < 2 ^ w -> arith_u w z = Some z.
Proof. intros Hz. unfold arith_u. apply in_u_iff in Hz. by rewrite Hz. Qed.

Lemma arith_s_fits `{Profile} w z :
  - 2 ^ (w - 1) <= z < 2 ^ (w - 1) -> arith_s w z = Some z.
Proof. intros Hz. unfold arith_s. apply in_s_iff in Hz. by rewrite Hz. Qed.

Lemma wrap_u_range w z : 0 <= w -> 0 <= wrap_u w z < 2 ^ w.
Proof. intros. apply Z.mod_pos_bound. lia. Qed.

Lemma wrap_u_small w z : 0 <= z < 2 ^ w -> wrap_u w z = z.
Proof. apply Z.mod_small. Qed.

Lemma wrap_s_range w z : 0 < w -> - 2 ^ (w - 1) <= wrap_s w z < 2 ^ (w - 1).
Proof.
  intros. unfold wrap_s.
  pose proof (Z.mod_pos_bound (z + 2 ^ (w - 1)) (2 ^ w)) as Hm.
  assert (2 ^ w = 2 * 2 ^ (w - 1)) as Hw.
  { rewrite <- Z.pow_succ_r by lia. f_equal. lia. }
  lia.
Qed.

Lemma wrap_s_small w z :
  0 < w -> - 2 ^ (w - 1) <= z < 2 ^ (w - 1) -> wrap_s w z = z.
Proof.
  intros Hpos Hz. unfold wrap_s.
  assert (2 ^ w = 2 * 2 ^ (w - 1)) as Hw.
  { rewrite <- Z.pow_succ_r by lia. f_equal. lia. }
  rewrite Z.mod_small; lia.
Qed.

Lemma wrap_u_wrap_s w z : 0 <= z < 2 ^ w -> wrap_u w (wrap_s w z) = z.
Proof.
  intros Hz. unfold wrap_u, wrap_s. rewrite Zminus_mod_idemp_l, Z.add_simpl_r. by apply Z.mod_small.
Qed.

Lemma wrap_s_wrap_u w z :
  0 < w -> - 2 ^ (w - 1) <= z < 2 ^ (w - 1) -> wrap_s w (wrap_u w z) = z.
Proof.
  intros Hpos Hz. rewrite <- (wrap_s_small w z) at 2 by done.
  unfold wrap_s, wrap_u. by rewrite Zplus_mod_idemp_l.
Qed.

Lemma byte_to_Z_range b : 0 <= byte_to_Z b < 256.
Proof.
  unfold byte_to_Z. pose proof (Byte.to_N_bounded b).
  lia.
Qed.

Lemma byte_to_of_Z z : byte_to_Z (byte_of_Z z) = z mod 256.
Proof.
  unfold byte_to_Z, byte_of_Z.
  pose proof (Z.mod_pos_bound z 256 eq_refl) as Hm.
  destruct (Byte.of_N (Z.to_N (z mod 256))) as [b|] eqn:E; cbn.
  - apply Byte.to_of_N in E. rewrite E. lia.
  - apply Byte.of_N_None_iff in E. lia.
Qed.

Lemma byte_to_Z_inj b c : byte_to_Z b = byte_to_Z c -> b = c.
Proof.
  unfold byte_to_Z. intros Heq%N2Z.inj.
  pose proof (Byte.of_to_N b). pose proof (Byte.of_to_N c). congruence.
Qed.

Lemma length_le_bytes n z : length (le_bytes n z) = n.
Proof. revert z. induction n; intros; cbn; auto. Qed.

Lemma le_value_bytes n z :
  0 <= z < 256 ^ Z.of_nat n -> le_value (le_bytes n z) = z.
Proof.
  revert z. induction n as [|n IH]; intros z Hz.
  - cbn in *. lia.
  - rewrite Nat2Z.inj_succ, Z.pow_succ_r in Hz by lia.
    cbn [le_bytes le_value]. rewrite byte_to_of_Z, IH.
    + pose proof (Z.div_mod z 256). lia.
    + split; [apply Z.div_pos; lia|]. apply Z.div_lt_upper_bound; lia.
Qed.

Lemma le_value_range bs : 0 <= le_value bs < 256 ^ Z.of_nat (length bs).
Proof.
  induction bs as [|b bs IH]; cbn [le_value length]; [lia|].
  rewrite Nat2Z.inj_succ, Z.pow_succ_r by lia.
  pose proof (byte_to_Z_range b). lia.
Qed.

Lemma le_bytes_value bs : le_bytes (length bs) (le_value bs) = bs.
Proof.
  induction bs as [|b bs IH]; [done|]. cbn [length le_bytes le_value].
  pose proof (byte_to_Z_range b) as Hb.
  f_equal.
  - apply byte_to_Z_inj. rewrite byte_to_of_Z, Z.mul_comm, Z.mod_add by lia.
    by apply Z.mod_small.
  - rewrite Z.mul_comm, Z.div_add, Z.div_small by lia. apply IH.
Qed.

Lemma u64_to_be_bytes_length z : length (u64_to_be_bytes z) = 8%nat.
Proof. unfold u64_to_be_bytes. by rewrite length_rev, length_le_bytes. Qed.

(** The big-endian image of a 64-bit secret determines the secret. *)
Lemma u64_to_be_bytes_inj a b :
  0 <= a < 2 ^ 64 -> 0 <= b < 2 ^ 64 ->
  u64_to_be_bytes a = u64_to_be_bytes b -> a = b.
Proof.
  unfold u64_to_be_bytes. intros Ha Hb Heq%(f_equal (@rev byte)).
  rewrite !rev_involutive in Heq.
  rewrite <- (le_value_bytes 8 a), <- (le_value_bytes 8 b) by done. congruence.
Qed.

#[export] Hint Rewrite length_le_bytes u64_to_be_bytes_length : rust.
#[export] Hint Resolve le_value_range byte_to_Z_range wrap_u_range : rust.
