(* ===== verification/Float32.v ===== *)
(** * The type [f32]: a bit pattern, read as an IEEE 754 binary32 value, with
    the operations of the language the program uses (comparison, negation,
    subtraction, product, [round], [as] casts). *)
From S2P Require Import Prelude MachineInt.
From Stdlib Require Export SpecFloat.
Open Scope Z_scope.

(** The 32 bits of an [f32]. *)
Definition f32 : Type := Z.

(** The value a bit pattern denotes (all NaN patterns denote [S754_nan]). *)
Definition f32_value (b : f32) : spec_float :=
  let s := Z.testbit b 31 in
  let e := (b / 2 ^ 23) mod 256 in
  let m := b mod 2 ^ 23 in
  if e =? 255 then (if m =? 0 then S754_infinity s else S754_nan)
  else if e =? 0 then
    match m with Zpos p => S754_finite s p (-149) | _ => S754_zero s end
  else
    match 2 ^ 23 + m with Zpos p => S754_finite s p (e - 150) | _ => S754_nan end.

Definition f32_sub (x y : spec_float) : spec_float := SFsub 24 128 x y.
Definition f32_mul (x y : spec_float) : spec_float := SFmul 24 128 x y.
(** [x as f32] for an integer. *)
Definition f32_of_Z (z : Z) : spec_float := binary_normalize 24 128 z 0 false.

(** [f32::round]: to the nearest integer, halves away from zero. *)
Definition f32_round (x : spec_float) : spec_float :=
  match x with
  | S754_finite s m e =>
      if 0 <=? e then x
      else
        let d := 2 ^ (- e) in
        let q := (2 * Zpos m + d) / (2 * d) in
        binary_normalize 24 128 (if s then - q else q) 0 s
  | _ => x
  end.

(** Truncation towards zero of a finite value. *)
Definition f32_trunc (s : bool) (m : positive) (e : Z) : Z :=
  let q := if 0 <=? e then Zpos m * 2 ^ e else Zpos m / 2 ^ (- e) in
  if s then - q else q.

Definition clamp (lo hi z : Z) : Z := Z.max lo (Z.min hi z).

(** [x as iN] and [x as uN]: truncation, saturating at the bounds [lo] and
    [hi] of the target type; NaN gives [0]. *)
Definition f32_as_int (lo hi : Z) (x : spec_float) : Z :=
  match x with
  | S754_nan => 0
  | S754_zero _ => 0
  | S754_infinity s => if s then lo else hi
  | S754_finite s m e => clamp lo hi (f32_trunc s m e)
  end.
Definition f32_as_i16 (x : spec_float) : Z := f32_as_int i16_MIN i16_MAX x.
Definition f32_as_u16 (x : spec_float) : Z := f32_as_int 0 65535 x.
Definition f32_as_usize (x : spec_float) : Z := f32_as_int 0 (2 ^ 64 - 1) x.

(** ** Lemmas *)

Lemma f32_as_int_range lo hi x : lo <= 0 <= hi -> lo <= f32_as_int lo hi x <= hi.
Proof. intros. unfold f32_as_int, clamp. destruct x as [s|[]| |s m e]; lia. Qed.

(** A value of magnitude below one truncates to zero. *)
Lemma f32_trunc_below_one s m e :
  e < 0 -> Zpos m < 2 ^ (- e) -> f32_trunc s m e = 0.
Proof.
  intros He Hm. unfold f32_trunc.
  destruct (Z.leb_spec 0 e); [lia|].
  rewrite Z.div_small by lia. by destruct s.
Qed.

Lemma f32_as_int_below_one lo hi s m e :
  lo <= 0 <= hi -> e < 0 -> Zpos m < 2 ^ (- e) ->
  f32_as_int lo hi (S754_finite s m e) = 0.
Proof. intros. cbn. rewrite f32_trunc_below_one by done. unfold clamp. lia. Qed.
