(* ===== verification/ParseInt.v ===== *)
(** * The text of unsigned integers, as the standard library reads and prints it

    [from_str_radix] of the unsigned types, which [u16::from_str] calls for the
    ports (the Config of each server) and [parse_hex] of the audio client for
    the secret; and their [Display]. *)
From S2P Require Import Prelude MachineInt.
From Stdlib Require Import Ascii.
Open Scope Z_scope.

Inductive IntErrorKind : Type := Empty | InvalidDigit | PosOverflow.

(** [char::to_digit(radix)]. *)
Definition digit_of (c : Ascii.ascii) : option Z :=
  let n := Z.of_nat (Ascii.nat_of_ascii c) in
  if (48 <=? n) && (n <=? 57) then Some (n - 48)
  else if (97 <=? n) && (n <=? 122) then Some (n - 87)
  else if (65 <=? n) && (n <=? 90) then Some (n - 55)
  else None.
Definition to_digit (radix : Z) (c : Ascii.ascii) : option Z :=
  match digit_of c with Some x => if x <? radix then Some x else None | None => None end.

Section Radix.
(** The radix and the width of the type. *)
Context (radix w : Z) (Hradix : 1 < radix) (Hw : 0 < w).

(** The digits after [result_], with checked arithmetic. *)
Fixpoint from_digits (result_ : Z) (s : string) : result Z IntErrorKind :=
  match s with
  | EmptyString => Ok result_
  | String c s =>
      match to_digit radix c with
      | None => Err InvalidDigit
      | Some x =>
          if in_u w (result_ * radix) then
            if in_u w (result_ * radix + x) then from_digits (result_ * radix + x) s else Err PosOverflow
          else Err PosOverflow
      end
  end.

(** A leading plus sign is skipped, except when it is all there is; a minus
    sign is no digit of an unsigned type. *)
Definition from_str_radix (src : string) : result Z IntErrorKind :=
  match src with
  | EmptyString => Err Empty
  | String c EmptyString => from_digits 0 src
  | String c s => if String.eqb (String c EmptyString) "+" then from_digits 0 s else from_digits 0 src
  end.

(** ** Specification *)

Fixpoint all_digits (s : string) : bool :=
  match s with
  | EmptyString => true
  | String c s => match to_digit radix c with Some _ => all_digits s | None => false end
  end.
(** The value of the digits [s] after [acc]. *)
Fixpoint digits_value (acc : Z) (s : string) : Z :=
  match s with
  | EmptyString => acc
  | String c s => digits_value (acc * radix + default 0 (to_digit radix c)) s
  end.

(** A number: digits, at least one, after an optional plus sign. *)
Definition number (s : string) (v : Z) : Prop :=
  exists ds, (s = ds \/ s = String "+"%char ds) /\ ds <> EmptyString /\ all_digits ds = true /\
    digits_value 0 ds = v /\ v < 2 ^ w.

(** ** Lemmas *)

Lemma to_digit_range c x : to_digit radix c = Some x -> 0 <= x < radix.
Proof using Type. unfold to_digit, digit_of. intros Hd. repeat case_match; simplify_eq; b2p; lia. Qed.

Lemma digits_value_ge acc s : all_digits s = true -> 0 <= acc -> acc <= digits_value acc s.
Proof using Hradix.
  revert acc. induction s as [|c s IH]; intros acc Hd Ha; cbn in *; [lia|].
  destruct (to_digit radix c) as [x|] eqn:E; [|done]. apply to_digit_range in E. cbn.
  specialize (IH (acc * radix + x) Hd ltac:(nia)). nia.
Qed.

Lemma from_digits_ok acc s v :
  0 <= acc < 2 ^ w ->
  from_digits acc s = Ok v <-> all_digits s = true /\ digits_value acc s = v /\ v < 2 ^ w.
Proof using Hradix Hw.
  revert acc. induction s as [|c s IH]; intros acc Ha; cbn [from_digits all_digits digits_value].
  { split; [intros [= <-]; split_and!; [done..|lia]|by intros (_ & -> & _)]. }
  destruct (to_digit radix c) as [x|] eqn:E; [|by split; [|intros (? & _)]]. apply to_digit_range in E.
  change (default 0 (Some x)) with x.
  destruct (in_u w (acc * radix)) eqn:E1; [destruct (in_u w (acc * radix + x)) eqn:E2|].
  - apply in_u_iff in E2. by apply IH.
  - split; [done|]. intros (Hd & <- & Hv). pose proof (digits_value_ge (acc * radix + x) s Hd ltac:(nia)).
    apply not_true_iff_false in E2. destruct E2. apply in_u_iff. nia.
  - split; [done|]. intros (Hd & <- & Hv). pose proof (digits_value_ge (acc * radix + x) s Hd ltac:(nia)).
    apply not_true_iff_false in E1. destruct E1. apply in_u_iff. nia.
Qed.

Lemma plus_digits c s : String.eqb (String c EmptyString) "+" = true -> all_digits (String c s) = false.
Proof using Type. intros [= ->]%String.eqb_eq. done. Qed.

Lemma from_str_radix_ok s v : from_str_radix s = Ok v <-> number s v.
Proof using Hradix Hw.
  assert (0 <= 0 < 2 ^ w) as H0 by (split; [lia|apply Z.pow_pos_nonneg; lia]).
  unfold number. destruct s as [|c [|d s]]; cbn [from_str_radix].
  - split; [done|]. intros (ds & [<-|[=]] & ? & _). done.
  - rewrite from_digits_ok by done. split.
    + intros (Hd & Hv & Hb). exists (String c EmptyString). eauto 10.
    + intros (ds & [<-|[= -> <-]] & Hne & Hd & Hv & Hb); done.
  - destruct (String.eqb (String c EmptyString) "+") eqn:Ec.
    + rewrite from_digits_ok by done. split.
      * intros (Hd & Hv & Hb). exists (String d s). apply String.eqb_eq in Ec as [= ->]. split_and!; [by right|done..].
      * intros (ds & [<-|[= -> <-]] & Hne & Hd & Hv & Hb); [|done]. rewrite (plus_digits c) in Hd; done.
    + rewrite from_digits_ok by done. split.
      * intros (Hd & Hv & Hb). exists (String c (String d s)). eauto 10.
      * intros (ds & [<-|[= -> <-]] & Hne & Hd & Hv & Hb); [done|]. done.
Qed.
End Radix.

(** ** [Display] *)

(** [Display] of an unsigned integer. *)
Definition digit (n : Z) : string :=
  match String.get (Z.to_nat n) "0123456789" with
  | Some c => String c EmptyString
  | None => EmptyString
  end.
Fixpoint decimal (fuel : nat) (z : Z) : string :=
  match fuel with
  | O => EmptyString
  | S fuel => ((if z <? 10 then EmptyString else decimal fuel (z / 10)) +:+ digit (z mod 10))%stdpp
  end.

Lemma all_digits_app radix s t : all_digits radix (s +:+ t)%stdpp = all_digits radix s && all_digits radix t.
Proof. induction s as [|c s IH]; [done|]. change (String c s +:+ t)%stdpp with (String c (s +:+ t)%stdpp). cbn [all_digits]. by destruct (to_digit radix c). Qed.

Lemma digits_value_app radix acc s t :
  digits_value radix acc (s +:+ t)%stdpp = digits_value radix (digits_value radix acc s) t.
Proof. revert acc. induction s as [|c s IH]; intros acc; [done|]. apply IH. Qed.

Lemma digit_char n : 0 <= n < 10 -> exists c, digit n = String c EmptyString /\ to_digit 10 c = Some n.
Proof.
  intros Hn. rewrite <- (Z2Nat.id n) by lia. assert (Z.to_nat n < 10)%nat as Hlt by lia. revert Hlt.
  generalize (Z.to_nat n). intros k Hk. do 10 (destruct k as [|k]; [by eexists|]). lia.
Qed.

(** Enough fuel prints all digits. *)
Lemma decimal_value fuel z :
  0 <= z < 10 ^ Z.of_nat fuel -> all_digits 10 (decimal fuel z) = true /\ digits_value 10 0 (decimal fuel z) = z.
Proof.
  revert z. induction fuel as [|fuel IH]; intros z Hz; [cbn in *; split; [done|lia]|].
  rewrite Nat2Z.inj_succ, Z.pow_succ_r in Hz by lia.
  destruct (digit_char (z mod 10) ltac:(apply Z.mod_pos_bound; lia)) as (c & Hc & Hd).
  pose proof (Z.div_mod z 10 ltac:(lia)) as Hdm. cbn [decimal]. rewrite Hc, all_digits_app, digits_value_app.
  cbn [all_digits digits_value]. rewrite Hd. cbn [default from_option]. destruct (z <? 10) eqn:E; b2p.
  - cbn. rewrite Z.mod_small by lia. split; [done|unfold id; lia].
  - destruct (IH (z / 10)) as [-> ->]; [split; [apply Z.div_pos; lia|apply Z.div_lt_upper_bound; lia]|].
    split; [done|unfold id; lia].
Qed.

Lemma decimal_not_empty fuel z : (0 < fuel)%nat -> 0 <= z -> decimal fuel z <> EmptyString.
Proof.
  intros Hf Hz. destruct fuel as [|fuel]; [lia|]. cbn [decimal].
  destruct (digit_char (z mod 10) ltac:(apply Z.mod_pos_bound; lia)) as (c & -> & _).
  by destruct (if _ <? _ then _ else _).
Qed.

(** What is printed in decimal is read back. *)
Lemma parse_decimal (fuel : nat) (w z : Z) :
  (0 < fuel)%nat -> 0 < w -> 0 <= z < 10 ^ Z.of_nat fuel -> z < 2 ^ w ->
  from_str_radix 10 w (decimal fuel z) = Ok z.
Proof.
  intros Hf Hw Hz Hlt. apply from_str_radix_ok; [lia..|]. destruct (decimal_value fuel z Hz) as [Hd Hv].
  exists (decimal fuel z). split_and!; [by left|apply decimal_not_empty; lia|done..].
Qed.
