(* ===== verification/NoiseGate.v ===== *)
(** * The noise gate (backend/audio-client/src/noise_gate.rs)

    The three-state gate that decides which samples of the microphone are
    recorded, over an abstract sample type and an abstract sink, as in the
    code. *)
From S2P Require Import Prelude MachineInt Float32.
Open Scope Z_scope.

(** ** The interfaces *)

(** What the gate uses of the [dasp] crate's [Sample] and [SignedSample]
    traits. The signed arithmetic is that of the primitive type behind
    [Signed], so it may panic ([None]). *)
Class Sample (T : Type) := {
  Signed : Type;
  to_signed_sample : T -> Signed;
  EQUILIBRIUM : T;
  signed_EQUILIBRIUM : Signed;
  signed_sub : Signed -> Signed -> option Signed;
  signed_neg : Signed -> option Signed;
  signed_ltb : Signed -> Signed -> bool;
  signed_geb : Signed -> Signed -> bool;
}.

(** [trait Sink<S>]: where the gate sends what it lets through. [None] is a
    panic of the sink. *)
Class Sink (T D : Type) := {
  record : D -> T -> option D;
  end_of_transmission : D -> option D;
}.

(** ** The gate *)

Inductive State : Type :=
| Open
| Closing (remaining_sample_count : nat)
| Closed.

Record NoiseGate (T : Type) : Type := mkNoiseGate {
  open_threshold : T;
  release_sample_count : nat;
  state : State;
}.
Arguments mkNoiseGate {T} _ _ _.
Arguments open_threshold {T} _.
Arguments release_sample_count {T} _.
Arguments state {T} _.

Definition new {T} (open_threshold : T) (release_sample_count : nat) : NoiseGate T :=
  mkNoiseGate open_threshold release_sample_count Closed.

Definition is_open {T} (g : NoiseGate T) : bool :=
  match state g with
  | Open | Closing _ => true
  | Closed => false
  end.

Definition is_closed {T} (g : NoiseGate T) : bool := negb (is_open g).

Definition abs `{Sample T} (sample : Signed) : option Signed :=
  let zero := signed_EQUILIBRIUM in
  if signed_geb sample zero then Some sample else signed_neg sample.

Definition below_threshold `{Sample T} (sample threshold : T) : option bool :=
  let sample := to_signed_sample sample in
  threshold ← abs (to_signed_sample threshold);
  negated_threshold ← signed_sub (to_signed_sample EQUILIBRIUM) threshold;
  Some (signed_ltb negated_threshold sample && signed_ltb sample threshold).

Definition with_state {T} (g : NoiseGate T) (st : State) : NoiseGate T :=
  mkNoiseGate (open_threshold g) (release_sample_count g) st.

Definition next_state `{Sample T} (g : NoiseGate T) (sample : T) : option (NoiseGate T) :=
  match state g with
  | Open =>
      below ← below_threshold sample (open_threshold g);
      Some (with_state g (if below : bool then Closing (release_sample_count g) else Open))
  | Closing remaining_sample_count =>
      below ← below_threshold sample (open_threshold g);
      Some (with_state g
        (if below : bool then
           if (remaining_sample_count =? 0)%nat then Closed
           else Closing (remaining_sample_count - 1)
         else Open))
  | Closed =>
      below ← below_threshold sample (open_threshold g);
      Some (with_state g (if below : bool then Closed else Open))
  end.

Fixpoint process `{Sample T} `{Sink T D} (g : NoiseGate T) (samples : list T) (sink : D)
    : option (NoiseGate T * D) :=
  match samples with
  | [] => Some (g, sink)
  | sample :: samples =>
      let was_open := is_open g in
      g ← next_state g sample;
      sink ← (if is_open g then record sink sample
              else if was_open then end_of_transmission sink
              else Some sink);
      process g samples sink
  end.

(** ** Sample types

    [i16], [u16] and [f32] as [dasp] documents them: the signed type of [u16]
    is [i16] with the equilibrium 32768 moved to 0, [i16] and [f32] are their
    own signed type. *)
Definition i16_sample_with `{Profile} (S_to_signed : Z -> Z) (equilibrium : Z) : Sample Z := {|
  Signed := Z;
  to_signed_sample := S_to_signed;
  EQUILIBRIUM := equilibrium;
  signed_EQUILIBRIUM := 0;
  signed_sub x y := arith_s 16 (x - y);
  signed_neg x := arith_s 16 (- x);
  signed_ltb := Z.ltb;
  signed_geb := Z.geb;
|}.
Definition sample_i16 `{Profile} : Sample Z := i16_sample_with (fun s => s) 0.
Definition sample_u16 `{Profile} : Sample Z := i16_sample_with (fun s => s - 32768) 32768.
Definition sample_f32 : Sample f32 := {|
  Signed := spec_float;
  to_signed_sample := f32_value;
  EQUILIBRIUM := 0;
  signed_EQUILIBRIUM := S754_zero false;
  signed_sub x y := Some (f32_sub x y);
  signed_neg x := Some (SFopp x);
  signed_ltb := SFltb;
  signed_geb x y := SFleb y x;
|}.

(** ** Specification: the trace of a sample stream

    The sink that only remembers what it was told. *)
Inductive sink_op (T : Type) : Type :=
| Record_ (sample : T)
| EndOfTransmission.
Arguments Record_ {T} sample.
Arguments EndOfTransmission {T}.

#[export] Instance trace_sink {T} : Sink T (list (sink_op T)) := {|
  record tr s := Some (tr ++ [Record_ s]);
  end_of_transmission tr := Some (tr ++ [EndOfTransmission]);
|}.

(** Replay of a trace on any sink. *)
Definition apply_op `{Sink T D} (sink : D) (op : sink_op T) : option D :=
  match op with
  | Record_ s => record sink s
  | EndOfTransmission => end_of_transmission sink
  end.
Definition replay `{Sink T D} (sink : D) (ops : list (sink_op T)) : option D :=
  foldM apply_op sink ops.

Section Spec.
Context {T : Type} (loud : T -> bool) (release : nat).

(** The window of the last [release + 2] samples that end at position [i]. *)
Definition window (xs : list T) (i : nat) : list T :=
  drop (i + 1 - (release + 2)) (take (i + 1) xs).

(** Sample [i] passes: one of the samples [i - release - 1 .. i] is loud. *)
Definition passes (xs : list T) (i : nat) : bool := existsb loud (window xs i).

(** What the gate does at position [i]: record the sample if it passes, end
    the transmission if only its predecessor passed, and nothing otherwise. *)
Definition gate_at (xs : list T) (i : nat) (x : T) : list (sink_op T) :=
  if passes xs i then [Record_ x]
  else if (0 <? i)%nat && passes xs (i - 1) then [EndOfTransmission]
  else [].

Definition gate_trace (xs : list T) : list (sink_op T) := concat (imap (gate_at xs) xs).

(** The number of samples since the last loud one ([None]: never loud). *)
Fixpoint since_loud (acc : option nat) (xs : list T) : option nat :=
  match xs with
  | [] => acc
  | x :: xs => since_loud (if loud x then Some 0%nat else S <$> acc) xs
  end.

(** The gate state that remembers exactly that distance. *)
Definition state_of (d : option nat) : State :=
  match d with
  | None => Closed
  | Some 0%nat => Open
  | Some (S k) => if (k <=? release)%nat then Closing (release - k) else Closed
  end.
End Spec.

(** ** Lemmas *)

Section Generic.
Context {T : Type} `{HS : Sample T}.

Lemma process_app `{Sink T D} (g : NoiseGate T) (xs ys : list T) (d : D) :
  process g (xs ++ ys) d = ('(g, d) ← process g xs d; process g ys d).
Proof.
  revert g d. induction xs as [|x xs IH]; intros g d; [done|]. cbn.
  destruct (next_state g x) as [g'|]; cbn; [|done].
  destruct (if is_open g' then _ else _); cbn; auto.
Qed.

(** Calls of [process] on slices are one call on all of them. *)
Lemma process_slices `{Sink T D} (slices : list (list T)) (g : NoiseGate T) (d : D) :
  foldM (fun '(g, d) xs => process g xs d) (g, d) slices = process g (concat slices) d.
Proof.
  revert g d. induction slices as [|xs slices IH]; intros g d; [done|]. cbn.
  rewrite process_app. destruct (process g xs d) as [[g1 d1]|]; cbn; auto.
Qed.

(** What one sample does, for any sink: a step of the state machine and at
    most one operation on the sink. *)
Definition step_ops (g g' : NoiseGate T) (x : T) : list (sink_op T) :=
  if is_open g' then [Record_ x]
  else if is_open g then [EndOfTransmission] else [].

Lemma process_cons `{Sink T D} (g : NoiseGate T) (x : T) (xs : list T) (d : D) :
  process g (x :: xs) d =
    (g' ← next_state g x; d ← replay d (step_ops g g' x); process g' xs d).
Proof.
  cbn. destruct (next_state g x) as [g'|]; cbn; [|done].
  unfold step_ops, replay.
  destruct (is_open g'), (is_open g); cbn; try done.
  - by destruct (record d x).
  - by destruct (record d x).
  - by destruct (end_of_transmission d).
Qed.

(** The gate on any sink is the gate on the trace sink, replayed. *)
Lemma process_factor `{Sink T D} (xs : list T) (g g' : NoiseGate T) (tr tr' : list (sink_op T)) (d : D) :
  process g xs tr = Some (g', tr') ->
  exists ops, tr' = tr ++ ops /\ process g xs d = (d ← replay d ops; Some (g', d)).
Proof.
  revert g tr d. induction xs as [|x xs IH]; intros g tr d Hp.
  { cbn in Hp. simplify_eq. exists []. by rewrite app_nil_r. }
  rewrite (@process_cons (list (sink_op T)) _) in Hp. rewrite (@process_cons D _).
  destruct (next_state g x) as [g1|]; [|done]. cbn in Hp |- *.
  assert (replay tr (step_ops g g1 x) = Some (tr ++ step_ops g g1 x)) as Htr.
  { unfold step_ops, replay. destruct (is_open g1), (is_open g); cbn; by rewrite ?app_nil_r. }
  rewrite Htr in Hp. cbn in Hp.
  destruct (IH g1 _ d Hp) as (ops & -> & _).
  exists (step_ops g g1 x ++ ops). rewrite app_assoc. split; [done|].
  unfold replay at 2. rewrite foldM_app. fold (replay d (step_ops g g1 x)).
  destruct (replay d (step_ops g g1 x)) as [d1|]; cbn; [|done].
  destruct (IH g1 _ d1 Hp) as (ops' & Heq & ->).
  by apply app_inv_head in Heq as <-.
Qed.
End Generic.

(** ** The gate against its specification *)

#[local] Arguments Nat.leb : simpl never.
#[local] Arguments Nat.sub : simpl never.

Section Refinement.
Context {T : Type} `{HS : Sample T} (loud : T -> bool).
Variable thr : T.
Variable release : nat.
(** The threshold comparison does not panic and decides [loud]. *)
Hypothesis below_loud : forall x, below_threshold x thr = Some (negb (loud x)).

Abbreviation gate st := (mkNoiseGate thr release st).

Lemma next_state_spec (d : option nat) (x : T) :
  next_state (gate (state_of release d)) x =
    Some (gate (state_of release (since_loud loud d [x]))).
Proof.
  unfold next_state. cbn [state open_threshold].
  destruct d as [[|k]|]; cbn [state_of since_loud].
  - rewrite below_loud. cbn. destruct (loud x); cbn; [done|]. unfold with_state. do 3 f_equal. lia.
  - destruct (Nat.leb_spec k release) as [Hk|Hk]; rewrite below_loud; cbn.
    + destruct (loud x); cbn; [done|].
      destruct (Nat.eqb_spec (release - k) 0), (Nat.leb_spec (S k) release); try lia; [done|].
      unfold with_state. cbn. do 3 f_equal. lia.
    + destruct (loud x); cbn; [done|].
      destruct (Nat.leb_spec (S k) release); [lia|done].
  - rewrite below_loud. cbn. by destruct (loud x).
Qed.

Lemma since_loud_app (acc : option nat) (xs ys : list T) :
  since_loud loud acc (xs ++ ys) = since_loud loud (since_loud loud acc xs) ys.
Proof. revert acc. induction xs; intros; cbn; auto. Qed.

Lemma is_open_state_of (d : option nat) :
  is_open (gate (state_of release d)) =
    match d with Some k => (k <=? release + 1)%nat | None => false end.
Proof.
  destruct d as [[|k]|]; cbn; try done.
  destruct (Nat.leb_spec k release); cbn; symmetry;
    [apply Nat.leb_le|apply Nat.leb_gt]; lia.
Qed.

(** [since_loud] computes the position of the last loud sample. *)
Lemma since_loud_window (xs : list T) (k : nat) :
  match since_loud loud None xs with
  | Some d => (d <? k)%nat
  | None => false
  end = existsb loud (drop (length xs - k) xs).
Proof.
  revert k. induction xs as [|x xs IH] using rev_ind; intros k; [by rewrite drop_nil|].
  rewrite since_loud_app, length_app. cbn [since_loud length].
  destruct k as [|k].
  { rewrite drop_ge by (rewrite length_app; cbn; lia).
    destruct (loud x), (since_loud loud None xs); done. }
  rewrite drop_app_le by lia. rewrite existsb_app. cbn [existsb].
  replace (length xs + 1 - S k)%nat with (length xs - k)%nat by lia.
  rewrite <- IH. destruct (loud x); cbn.
  { by rewrite orb_true_r. }
  rewrite orb_false_r. by destruct (since_loud loud None xs).
Qed.

Lemma passes_since (xs : list T) (x : T) :
  passes loud release (xs ++ [x]) (length xs) =
    is_open (gate (state_of release (since_loud loud None (xs ++ [x])))).
Proof.
  rewrite is_open_state_of. unfold passes, window.
  rewrite take_ge by (rewrite length_app; cbn; lia).
  pose proof (since_loud_window (xs ++ [x]) (release + 2)) as Hw.
  rewrite length_app in Hw. cbn [length] in Hw. rewrite <- Hw.
  destruct (since_loud loud None (xs ++ [x])) as [d|]; [|done].
  apply eq_true_iff_eq. rewrite Nat.ltb_lt, Nat.leb_le. lia.
Qed.

Lemma passes_prefix (xs ys : list T) (i : nat) :
  (i < length xs)%nat -> passes loud release (xs ++ ys) i = passes loud release xs i.
Proof.
  intros Hi. unfold passes, window. rewrite take_app_le by lia. done.
Qed.

Lemma gate_trace_snoc (xs : list T) (x : T) :
  gate_trace loud release (xs ++ [x]) =
    gate_trace loud release xs ++ gate_at loud release (xs ++ [x]) (length xs) x.
Proof.
  unfold gate_trace. rewrite imap_app, concat_app. cbn.
  rewrite Nat.add_0_r, app_nil_r. f_equal. f_equal.
  apply imap_ext. intros i y Hi%lookup_lt_Some. unfold gate_at.
  rewrite passes_prefix by lia.
  destruct (passes loud release xs i); [done|].
  destruct (Nat.ltb_spec 0 i); cbn; [|done].
  by rewrite passes_prefix by lia.
Qed.

Lemma process_spec_aux (xs : list T) :
  process (gate Closed) xs [] =
    Some (gate (state_of release (since_loud loud None xs)), gate_trace loud release xs).
Proof.
  induction xs as [|x xs IH] using rev_ind; [done|].
  rewrite process_app, IH. cbn [mbind option_bind].
  rewrite process_cons, next_state_spec. cbn [mbind option_bind].
  rewrite <- since_loud_app, gate_trace_snoc. unfold step_ops, gate_at, replay.
  rewrite passes_since.
  destruct (is_open (gate (state_of release (since_loud loud None (xs ++ [x])))));
    cbn; [done|].
  assert (((0 <? length xs)%nat && passes loud release (xs ++ [x]) (length xs - 1))
          = is_open (gate (state_of release (since_loud loud None xs)))) as ->.
  { destruct xs as [|y xs _] using rev_ind; [done|].
    rewrite length_app. cbn [length]. replace (length xs + 1 - 1)%nat with (length xs) by lia.
    rewrite passes_prefix by (rewrite length_app; cbn; lia).
    rewrite passes_since. by replace (0 <? length xs + 1)%nat with true by (symmetry; apply Nat.ltb_lt; lia). }
  destruct (is_open (gate (state_of release (since_loud loud None xs)))); cbn; by rewrite ?app_nil_r.
Qed.
End Refinement.

(** The positions of a window. *)
Lemma existsb_window {A} (f : A -> bool) (xs : list A) (k : nat) :
  existsb f (drop (length xs - k) xs) = true <->
  exists j y, xs !! j = Some y /\ f y = true /\ (length xs <= j + k)%nat.
Proof.
  rewrite existsb_exists. split.
  - intros (y & Hy & Hf). apply list_elem_of_In, list_elem_of_lookup in Hy as [j Hj].
    rewrite lookup_drop in Hj. exists (length xs - k + j)%nat, y. repeat split; [done..|lia].
  - intros (j & y & Hj & Hf & Hk). exists y. split; [|done].
    apply list_elem_of_In, list_elem_of_lookup. exists (j - (length xs - k))%nat.
    rewrite lookup_drop. rewrite <- Hj. f_equal. lia.
Qed.

(** ** Properties *)

(** C18: the three-state gate refines the declarative one. Whatever the sample
    type, if the threshold comparison decides [loud] without panicking, then
    processing a stream from a new gate, in any split into calls of [process],
    never panics of the gate's own, and the operations on the sink are exactly
    those of [gate_trace] on the whole stream: sample [i] is recorded iff one of
    the samples [i - release - 1 .. i] is loud, the transmission ends at the
    first position where that stops to hold, nothing else happens. On the sink
    that only remembers, these are what it remembers; on any other one, the
    result is that of these operations in this order, its panics included. *)
Theorem process_refines_gate_trace {T} `{HS : Sample T} (loud : T -> bool) (thr : T)
    (release : nat)
    (Hloud : forall x, below_threshold x thr = Some (negb (loud x))) (slices : list (list T)) :
  exists st,
    foldM (fun '(g, tr) xs => process g xs tr) (new thr release, []) slices =
      Some (mkNoiseGate thr release st, gate_trace loud release (concat slices)) /\
    forall D (sink : Sink T D) (d : D),
      foldM (fun '(g, d) xs => process g xs d) (new thr release, d) slices =
        (d' ← replay d (gate_trace loud release (concat slices)); Some (mkNoiseGate thr release st, d')).
Proof.
  pose proof (process_spec_aux loud thr release Hloud (concat slices)) as Hspec.
  eexists. split; [by rewrite process_slices; apply Hspec|]. intros D sink d. rewrite process_slices. unfold new.
  by destruct (process_factor _ _ _ _ _ d Hspec) as (ops & -> & ->).
Qed.

(** C36: the gate is open after a sample iff a loud sample occurred among the
    last [release + 2] samples, this one included; this holds for every sink,
    however the stream was cut into calls of [process]. *)
Theorem open_iff_recent_loud {T D} `{HS : Sample T} `{Sink T D} (loud : T -> bool) (thr : T)
    (release : nat) (d d' : D) (g : NoiseGate T) (slices : list (list T))
    (Hloud : forall x, below_threshold x thr = Some (negb (loud x)))
    (Hrun : foldM (fun '(g, d) xs => process g xs d) (new thr release, d) slices = Some (g, d')) :
  is_open g = true <->
  exists j y, concat slices !! j = Some y /\ loud y = true /\
    (length (concat slices) <= j + release + 2)%nat.
Proof.
  rewrite process_slices in Hrun. set (xs := concat slices) in *.
  pose proof (process_spec_aux loud thr release Hloud xs) as Hspec.
  destruct (process_factor xs _ _ _ _ d Hspec) as (ops & _ & Hd).
  unfold new in Hrun. rewrite Hd in Hrun.
  destruct (replay d ops) as [d1|]; cbn in Hrun; simplify_eq.
  rewrite (is_open_state_of thr release).
  setoid_rewrite <- Nat.add_assoc. rewrite <- (existsb_window loud xs (release + 2)).
  rewrite <- since_loud_window.
  destruct (since_loud loud None xs) as [k|]; [|done].
  rewrite Nat.leb_le, Nat.ltb_lt. lia.
Qed.

(** At 16 bits, for every threshold but [i16::MIN] and in debug and
    release builds alike, the comparison never panics and says that the
    sample's magnitude is below the threshold's. *)
Lemma below_threshold_i16 `{P : Profile} (s t : Z)
    (Hs : i16_MIN <= s <= i16_MAX) (Ht : i16_MIN < t <= i16_MAX) :
  @below_threshold Z sample_i16 s t = Some (Z.abs s <? Z.abs t).
Proof.
  unfold i16_MIN, i16_MAX in *. unfold below_threshold, abs.
  assert (exists t', (if t >=? 0 then Some t else arith_s 16 (- t)) = Some t' /\ t' = Z.abs t)
    as (t' & Habs & ->).
  { destruct (Z.geb_spec t 0); [exists t; split; [done|lia]|].
    exists (- t). split; [apply arith_s_fits; lia|lia]. }
  cbn. rewrite Habs. cbn. rewrite arith_s_fits by lia. cbn. f_equal.
  apply eq_true_iff_eq. rewrite andb_true_iff, !Z.ltb_lt. lia.
Qed.

(** C40: the excluded threshold: [i16::MIN] has no magnitude at 16 bits. With
    this open threshold a debug build panics in the comparison of every sample,
    whatever the sample; in a release build the negation wraps around and no
    sample is below the threshold, so every one counts as loud, silence too. *)
Theorem below_threshold_i16_MIN (s : Z) (Hs : i16_MIN <= s <= i16_MAX) :
  @below_threshold Z (sample_i16 (H := true)) s i16_MIN = None /\
  @below_threshold Z (sample_i16 (H := false)) s i16_MIN = Some false.
Proof.
  unfold i16_MIN, i16_MAX in *. split; [done|].
  transitivity (Some ((-32768 <? s) && (s <? -32768))); [done|]. f_equal.
  destruct (Z.ltb_spec (-32768) s), (Z.ltb_spec s (-32768)); done || lia.
Qed.

(** At [f32] the comparison never panics and compares magnitudes, for every
    pair of bit patterns, zeros, infinities and NaN included; in particular a
    NaN sample and a NaN threshold are never below. *)
Lemma below_threshold_f32 (s t : f32) :
  @below_threshold f32 sample_f32 s t =
    Some (SFltb (SFabs (f32_value s)) (SFabs (f32_value t))).
Proof.
  unfold below_threshold, abs. cbn [to_signed_sample signed_EQUILIBRIUM signed_geb signed_neg
    signed_sub signed_ltb sample_f32 EQUILIBRIUM].
  change (f32_value 0) with (S754_zero false).
  generalize (f32_value s) (f32_value t). clear. intros x y.
  destruct y as [[]|[]| |[] my ey]; destruct x as [[]|[]| |[] mx ex]; try done; cbn;
    unfold SFltb; cbn; rewrite (Z.compare_antisym ex ey);
    destruct (ex ?= ey) eqn:E; cbn; try done.
  all: rewrite ?Pos.compare_cont_spec, (Pos.compare_antisym mx my); by destruct (mx ?= my)%positive.
Qed.

(** The gate of the unit tests: threshold 100, release count 5, debug build. *)
Definition test_loud (s : Z) : bool := negb ((-100 <? s) && (s <? 100)).

(** The loud sample and its tail are in different calls. *)
Lemma process_refines_gate_trace_witness :
  exists st, foldM (fun '(g, tr) xs => @process Z (@sample_i16 true) _ trace_sink g xs tr) (new 100 5, [])
      [[40; 101; 40]; []; [40; 40; 40; 40; 40]; [40; 7]] =
    Some (mkNoiseGate 100 5 st, [Record_ 101; Record_ 40; Record_ 40; Record_ 40; Record_ 40; Record_ 40; Record_ 40;
      EndOfTransmission]).
Proof.
  destruct (@process_refines_gate_trace Z (@sample_i16 true) test_loud 100 5 (fun _ => eq_sym (f_equal Some (negb_involutive _)))
    [[40; 101; 40]; []; [40; 40; 40; 40; 40]; [40; 7]]) as (st & H & _).
  exists st. exact H.
Defined.

Lemma open_iff_recent_loud_witness :
  is_open (mkNoiseGate 100 1 (Closing 1)) = true <->
  exists j y, concat [[40; 101]; [40]] !! j = Some y /\ test_loud y = true /\
    (length (concat [[40; 101]; [40]]) <= j + 1 + 2)%nat.
Proof.
  exact (@open_iff_recent_loud Z _ (@sample_i16 true) trace_sink test_loud 100 1 []
    [Record_ 101; Record_ 40] (mkNoiseGate 100 1 (Closing 1)) [[40; 101]; [40]]
    (fun _ => eq_sym (f_equal Some (negb_involutive _))) eq_refl).
Defined.

Lemma below_threshold_i16_witness :
  @below_threshold Z (@sample_i16 true) (-32768) (-100) = Some false.
Proof. apply (@below_threshold_i16 true (-32768) (-100)); done. Defined.

Lemma below_threshold_i16_MIN_witness :
  @below_threshold Z (@sample_i16 true) 0 i16_MIN = None /\
  @below_threshold Z (@sample_i16 false) 0 i16_MIN = Some false.
Proof. apply (below_threshold_i16_MIN 0); done. Defined.

(** The unit tests. *)
Definition test_state_transition (from : State) (sample : Z) (expected : State) : Prop :=
  let noise_gate := mkNoiseGate 100 5 from in
  state <$> @next_state Z (@sample_i16 true) noise_gate sample = Some expected.
Definition transition_tests : list (State * Z * State) :=
  [(Open, 101, Open); (Open, 40, Closing 5); (Closing 0, 40, Closed); (Closing 1, 40, Closing 0);
   (Closing 1, 101, Open); (Closed, 40, Closed); (Closed, 101, Open)].
Example state_transition_tests :
  Forall (fun '(from, sample, expected) => test_state_transition from sample expected) transition_tests.
Proof. by repeat constructor. Qed.

(** A sample equal to the threshold counts as over it, unlike in the pseudo
    code of the README, whose test is strict. *)
Lemma threshold_itself_is_over `{Profile} :
  @below_threshold Z sample_i16 100 100 = Some false.
Proof. done. Qed.

(** With a threshold of 0 nothing is below it. *)
Lemma below_threshold_zero_i16 `{P : Profile} (x : Z) : @below_threshold Z sample_i16 x 0 = Some false.
Proof.
  transitivity (Some ((0 <? x) && (x <? 0))); [done|]. f_equal.
  destruct (Z.ltb_spec 0 x), (Z.ltb_spec x 0); done || lia.
Qed.

Lemma below_threshold_zero_u16 (x : Z) : @below_threshold Z (@sample_u16 false) x 0 = Some false.
Proof.
  transitivity (Some ((-32768 <? x - 32768) && (x - 32768 <? -32768))); [done|]. f_equal.
  destruct (Z.ltb_spec (-32768) (x - 32768)), (Z.ltb_spec (x - 32768) (-32768)); done || lia.
Qed.
