(* ===== verification/Bincode.v ===== *)
(** * What the program uses of [bincode], [serde] and [uuid]

    These crates are not part of the repository: the classes below are the
    interface the development is parameterised by, with their documented
    behaviour as laws; [Wire] combines the primitives the way the derived
    [Serialize] and [Deserialize] implementations do. [LittleEndian] is one
    concrete format that satisfies the laws. *)
From S2P Require Import Prelude MachineInt Float32.
Open Scope Z_scope.

(** ** [uuid] *)

Class UuidOps := {
  Uuid : Type;
  #[global] Uuid_eq_dec :: EqDecision Uuid;
  #[global] Uuid_countable :: Countable Uuid;
  (** [Display]. *)
  uuid_to_string : Uuid -> string;
}.

(** The text of a uuid determines it. *)
Class UuidLaws `{UuidOps} : Prop := {
  #[global] uuid_to_string_inj :: Inj (=) (=) uuid_to_string;
}.

(** ** [bincode] *)

(** Rust's [str] holds valid UTF-8. *)
Definition utf8_cont (b : byte) : bool := (128 <=? byte_to_Z b) && (byte_to_Z b <=? 191).
Fixpoint utf8_valid (bs : list byte) : bool :=
  match bs with
  | [] => true
  | b0 :: t0 =>
      let z := byte_to_Z b0 in
      if z <? 128 then utf8_valid t0
      else match t0 with
      | [] => false
      | b1 :: t1 =>
          let y := byte_to_Z b1 in
          if (194 <=? z) && (z <=? 223) then utf8_cont b1 && utf8_valid t1
          else match t1 with
          | [] => false
          | b2 :: t2 =>
              if (224 <=? z) && (z <=? 239) then
                utf8_cont b1 && utf8_cont b2 &&
                negb ((z =? 224) && (y <? 160)) && negb ((z =? 237) && (160 <=? y)) && utf8_valid t2
              else match t2 with
              | [] => false
              | b3 :: t3 =>
                  (240 <=? z) && (z <=? 244) && utf8_cont b1 && utf8_cont b2 && utf8_cont b3 &&
                  negb ((z =? 240) && (y <? 144)) && negb ((z =? 244) && (144 <=? y)) && utf8_valid t3
              end
          end
      end
  end.

Definition string_bytes (s : string) : list byte := String.list_byte_of_string s.

(** The primitive types that occur in the messages. *)
Inductive prim `{UuidOps} : Type -> Type :=
| PU8 : prim Z
| PU16 : prim Z
| PU32 : prim Z
| PU64 : prim Z
| PI16 : prim Z
| PI32 : prim Z
| PI64 : prim Z
| PF32 : prim f32
| PString : prim string
| PUuid : prim Uuid.

(** The values of a primitive type. *)
Definition in_range `{UuidOps} {A} (p : prim A) : A -> bool :=
  match p in prim A return A -> bool with
  | PU8 => in_u 8
  | PU16 => in_u 16
  | PU32 => in_u 32
  | PU64 => in_u 64
  | PI16 => in_s 16
  | PI32 => in_s 32
  | PI64 => in_s 64
  | PF32 => in_u 32
  | PString => fun s =>
      utf8_valid (string_bytes s) && (Z.of_nat (length (string_bytes s)) <? 2 ^ 64)
  | PUuid => fun _ => true
  end.

Class Bincode `{UuidOps} := {
  bincode_error : Type;
  (** [serde::de::Error::invalid_length(i, _)], and the error of a derived
      enum for a variant index it does not know. *)
  invalid_length : nat -> bincode_error;
  unknown_variant : Z -> bincode_error;
  put_prim {A} : prim A -> A -> list byte;
  get_prim {A} : prim A -> list byte -> result (A * list byte) bincode_error;
  (** [serialize_tuple(len)]: what is written before the elements. *)
  put_tuple : nat -> list byte;
  (** [SeqAccess::next_element] of [deserialize_tuple]: the state is the number
      of elements left and the rest of the input. *)
  next_element {A} : (list byte -> result (A * list byte) bincode_error) ->
    nat * list byte -> result (option A * (nat * list byte)) bincode_error;
  (** The check of [bincode::deserialize] on the input left over. *)
  finish : list byte -> result unit bincode_error;
}.

(** The documented behaviour: a primitive is read back, whatever follows it; a
    strict prefix of an encoding is an unexpected end of input; a tuple is the
    concatenation of its elements and yields as many as were asked for; and
    [bincode::deserialize] allows trailing bytes. *)
Class BincodeLaws `{Bincode} : Prop := {
  get_put_prim : forall {A} (p : prim A) (a : A) (rest : list byte),
    in_range p a = true -> get_prim p (put_prim p a ++ rest) = Ok (a, rest);
  get_prefix_prim : forall {A} (p : prim A) (a : A) (k : nat),
    in_range p a = true -> (k < length (put_prim p a))%nat ->
    is_ok (get_prim p (take k (put_prim p a))) = false;
  put_tuple_nil : forall n, put_tuple n = [];
  next_element_more : forall {A} (g : list byte -> result (A * list byte) bincode_error) n bs,
    next_element g (S n, bs) = (let? (a, bs) := g bs in Ok (Some a, (n, bs)));
  finish_trailing : forall bs, finish bs = Ok tt;
}.

(** Also documented: with integers of fixed width a value has one encoding, so
    what is read is a value of its type, and was written as it would be
    written. *)
Class BincodeCanonical `{Bincode} : Prop := {
  get_prim_sound : forall {A} (p : prim A) (bs : list byte) (a : A) (rest : list byte),
    get_prim p bs = Ok (a, rest) -> in_range p a = true /\ bs = put_prim p a ++ rest;
}.

(** ** Formats of compound types *)

Record Wire `{Bincode} (A : Type) := mkWire {
  put : A -> list byte;
  get : list byte -> result (A * list byte) bincode_error;
  wf : A -> bool;
}.
Arguments mkWire {_ _ _} _ _ _.
Arguments put {_ _ _} _ _.
Arguments get {_ _ _} _ _.
Arguments wf {_ _ _} _ _.

Section Combinators.
Context `{Bincode}.

Definition w_prim {A} (p : prim A) : Wire A := mkWire (put_prim p) (get_prim p) (in_range p).

Definition w_unit : Wire unit := mkWire (fun _ => []) (fun bs => Ok (tt, bs)) (fun _ => true).

(** Two fields in the order of their declaration. *)
Definition w_pair {A B} (wa : Wire A) (wb : Wire B) : Wire (A * B) := mkWire
  (fun '(a, b) => put wa a ++ put wb b)
  (fun bs => let? (a, bs) := get wa bs in let? (b, bs) := get wb bs in Ok ((a, b), bs))
  (fun '(a, b) => wf wa a && wf wb b).

(** The constructor [inj] over the fields [B], with its inverse on the
    values it builds. *)
Definition w_case {A B} (inj : B -> A) (proj : A -> option B) (w : Wire B) : Wire A := mkWire
  (fun a => match proj a with Some b => put w b | None => [] end)
  (fun bs => let? (b, bs) := get w bs in Ok (inj b, bs))
  (fun a => match proj a with Some b => wf w b | None => false end).

(** An enum: the variant index as a [u32], then the variant's fields. *)
Definition w_enum {A} (index : A -> Z) (variants : Z -> option (Wire A)) : Wire A := mkWire
  (fun a => put_prim PU32 (index a) ++
    match variants (index a) with Some w => put w a | None => [] end)
  (fun bs =>
    let? (i, bs) := get_prim PU32 bs in
    match variants i with Some w => get w bs | None => Err (unknown_variant i) end)
  (fun a => in_u 32 (index a) && match variants (index a) with Some w => wf w a | None => false end).

(** [bincode::serialize] and [bincode::deserialize]. *)
Definition serialize {A} (w : Wire A) (a : A) : list byte := put w a.
Definition deserialize {A} (w : Wire A) (bs : list byte) : result A bincode_error :=
  let? (a, rest) := get w bs in let? _ := finish rest in Ok a.

(** The contract of a format: what is written is read back, whatever
    follows, and no strict prefix of it is accepted. *)
Definition wire_ok {A} (w : Wire A) : Prop :=
  forall a, wf w a = true ->
    (forall rest, get w (put w a ++ rest) = Ok (a, rest)) /\
    (forall k, (k < length (put w a))%nat -> is_ok (get w (take k (put w a))) = false).

(** The other direction: what is read is well-formed, and its encoding is what
    was there. *)
Definition wire_sound {A} (w : Wire A) : Prop :=
  forall bs a rest, get w bs = Ok (a, rest) -> wf w a = true /\ bs = put w a ++ rest.
End Combinators.

#[global] Arguments serialize : simpl never.
#[global] Arguments deserialize : simpl never.

(** ** The contract is compositional *)

Section Laws.
Context `{BincodeLaws}.

Lemma w_prim_ok {A} (p : prim A) : wire_ok (w_prim p).
Proof. split; intros; cbn; [by apply get_put_prim|by apply get_prefix_prim]. Qed.

Lemma w_unit_ok : wire_ok w_unit.
Proof. intros [] _. split; [done|]. cbn. lia. Qed.

Lemma bind_prefix {A B} (w : Wire A) (g : A -> list byte -> result B bincode_error)
    (a : A) (tl : list byte) (k : nat) :
  wire_ok w -> wf w a = true ->
  (forall j, (j < length tl)%nat -> is_ok (g a (take j tl)) = false) ->
  (k < length (put w a ++ tl))%nat ->
  is_ok (let? (a, bs) := get w (take k (put w a ++ tl)) in g a bs) = false.
Proof.
  intros Hw Ha Hg Hk. destruct (Hw a Ha) as [Hget Hpre].
  destruct (decide (k < length (put w a))%nat) as [Hlt|Hge].
  - rewrite take_app_le by lia. specialize (Hpre k Hlt).
    by destruct (get w _) as [[]|].
  - rewrite take_app_ge, Hget by lia. cbn. apply Hg. rewrite length_app in Hk. lia.
Qed.

Lemma w_pair_ok {A B} (wa : Wire A) (wb : Wire B) :
  wire_ok wa -> wire_ok wb -> wire_ok (w_pair wa wb).
Proof.
  intros Ha Hb [a b] [Hwa Hwb]%andb_prop. destruct (Hb b Hwb) as [Hget Hpre]. split.
  - intros rest. cbn. rewrite <- app_assoc, (proj1 (Ha a Hwa)). cbn. by rewrite Hget.
  - intros k Hk. cbn. apply bind_prefix; [done..| |done].
    intros j Hj. specialize (Hpre j Hj). by destruct (get wb _) as [[]|].
Qed.

Lemma w_case_ok {A B} (inj : B -> A) (proj : A -> option B) (w : Wire B) :
  (forall a b, proj a = Some b -> inj b = a) -> wire_ok w -> wire_ok (w_case inj proj w).
Proof.
  intros Hinj Hw a Ha. cbn in *. destruct (proj a) as [b|] eqn:E; [|done].
  destruct (Hw b Ha) as [Hget Hpre]. split.
  - intros rest. rewrite Hget. cbn. by rewrite (Hinj a b).
  - intros k Hk. specialize (Hpre k Hk). by destruct (get w _) as [[]|].
Qed.

Lemma w_enum_ok {A} (index : A -> Z) (variants : Z -> option (Wire A)) :
  (forall i w, variants i = Some w -> wire_ok w) -> wire_ok (w_enum index variants).
Proof.
  intros Hv a [Hi Hwf]%andb_prop. unfold w_enum; cbn [put get].
  destruct (variants (index a)) as [w|] eqn:E; [|done].
  destruct (Hv _ _ E a Hwf) as [Hget Hpre]. split.
  - intros rest. rewrite <- app_assoc, get_put_prim by done. cbn. by rewrite E.
  - intros k Hk. apply (bind_prefix (w_prim PU32) (fun i bs => match variants i with Some w => get w bs | None => Err (unknown_variant i) end));
      [apply w_prim_ok|done| |done].
    intros j Hj. by rewrite E; apply Hpre.
Qed.

(** An accepted format of two different values writes at least one byte. *)
Lemma put_not_nil {A} (w : Wire A) (a b : A) :
  wire_ok w -> wf w a = true -> wf w b = true -> a <> b -> put w a <> [].
Proof.
  intros Hw Ha Hb Hne Hnil.
  pose proof (proj1 (Hw a Ha) (put w b)) as Ha1. rewrite Hnil in Ha1. cbn in Ha1.
  pose proof (proj1 (Hw b Hb) []) as Hb1. rewrite app_nil_r in Hb1. congruence.
Qed.

Lemma deserialize_serialize {A} (w : Wire A) (a : A) (rest : list byte) :
  wire_ok w -> wf w a = true -> deserialize w (serialize w a ++ rest) = Ok a.
Proof.
  intros Hw Ha. unfold deserialize, serialize.
  rewrite (proj1 (Hw a Ha)). cbn. by rewrite finish_trailing.
Qed.

Lemma deserialize_prefix {A} (w : Wire A) (a : A) (k : nat) :
  wire_ok w -> wf w a = true -> (k < length (serialize w a))%nat ->
  is_ok (deserialize w (take k (serialize w a))) = false.
Proof.
  intros Hw Ha Hk. unfold deserialize, serialize in *.
  pose proof (proj2 (Hw a Ha) k Hk). by destruct (get w _) as [[]|].
Qed.
End Laws.

(** ** What is read is well-formed *)

Section Sound.
Context `{BincodeCanonical}.

Lemma w_prim_sound {A} (p : prim A) : wire_sound (w_prim p).
Proof. intros bs a rest. apply get_prim_sound. Qed.

Lemma w_unit_sound : wire_sound w_unit.
Proof. by intros bs [] rest [= ->]. Qed.

Lemma w_pair_sound {A B} (wa : Wire A) (wb : Wire B) : wire_sound wa -> wire_sound wb -> wire_sound (w_pair wa wb).
Proof.
  intros Ha Hb bs [a b] rest Hget. cbn in Hget. apply res_bind_ok in Hget as ([a' bs1] & G1 & Hget).
  apply res_bind_ok in Hget as ([b' bs2] & G2 & [= -> -> ->]).
  destruct (Ha _ _ _ G1) as [Hwa ->]. destruct (Hb _ _ _ G2) as [Hwb ->]. cbn. by rewrite Hwa, Hwb, <- app_assoc.
Qed.

Lemma w_case_sound {A B} (inj : B -> A) (proj : A -> option B) (w : Wire B) :
  (forall b, proj (inj b) = Some b) -> wire_sound w -> wire_sound (w_case inj proj w).
Proof.
  intros Hinj Hw bs a rest Hget. cbn in Hget. apply res_bind_ok in Hget as ([b bs1] & G1 & [= <- ->]).
  cbn. rewrite Hinj. by apply Hw.
Qed.

Lemma w_enum_sound {A} (index : A -> Z) (variants : Z -> option (Wire A)) :
  (forall i w, variants i = Some w -> wire_sound w /\ forall a, wf w a = true -> index a = i) ->
  wire_sound (w_enum index variants).
Proof.
  intros Hv bs a rest Hget. cbn in Hget. apply res_bind_ok in Hget as ([i bs1] & G1 & Hget).
  destruct (variants i) as [w|] eqn:Hi; [|done]. destruct (Hv i w Hi) as [Hw Hidx].
  destruct (get_prim_sound PU32 _ _ _ G1) as [Hr ->]. destruct (Hw _ _ _ Hget) as [Hwf ->].
  cbn. rewrite (Hidx a Hwf), Hi, Hwf. by rewrite <- app_assoc, andb_true_r.
Qed.

Lemma deserialize_sound {A} (w : Wire A) (bs : list byte) (a : A) :
  wire_sound w -> deserialize w bs = Ok a -> wf w a = true /\ exists rest, bs = serialize w a ++ rest.
Proof.
  intros Hw Hd. unfold deserialize in Hd. apply res_bind_ok in Hd as ([a' rest] & G1 & Hd).
  apply res_bind_ok in Hd as (u & _ & [= ->]). destruct (Hw _ _ _ G1) as [Hwf ->]. by eauto.
Qed.

(** A format that is sound in both directions accepts exactly the encodings. *)
Lemma deserialize_iff `{BL : !BincodeLaws} {A} (w : Wire A) (bs : list byte) (a : A) :
  wire_ok w -> wire_sound w ->
  deserialize w bs = Ok a <-> wf w a = true /\ exists rest, bs = serialize w a ++ rest.
Proof.
  intros Hok Hs. split; [by apply deserialize_sound|]. intros (Hwf & rest & ->). by apply deserialize_serialize.
Qed.
End Sound.

(** Prove [wire_sound] likewise. *)
Ltac solve_sound :=
  repeat first
    [ assumption
    | apply w_prim_sound | apply w_unit_sound | apply w_pair_sound
    | apply w_case_sound; [let b := fresh in intros b; repeat destruct b as [? b]; done|]
    | solve [auto 2 with rust nocore] ].

(** Prove [wire_ok] of a compound format from its parts, and the inverse
    condition of a constructor by cases. *)
Ltac solve_wire :=
  repeat first
    [ assumption
    | apply w_prim_ok | apply w_unit_ok | apply w_pair_ok
    | apply w_case_ok; [let a := fresh in intros a; destruct a; intros; by simplify_eq/=|]
    | solve [auto 2 with rust nocore] ].

