(* ===== verification/Event.v ===== *)
(** * The event crate (backend/event/src): the messages a device sends over
    TCP and the codec of the stream *)
From S2P Require Import Prelude MachineInt Float32 Bincode LittleEndian.
Open Scope Z_scope.

(** ** event.rs *)

Definition triple : Type := Z * Z * Z.

Inductive EventPayload : Type :=
| Sound (wav_file : string)
| Position (from to : triple)
| Luminosity (from to : Z).

Record Event : Type := mkEvent {
  secret : Z;
  started_at_secs : Z;
  started_at_nsecs : Z;
  ended_at_secs : Z;
  ended_at_nsecs : Z;
  payload : EventPayload;
}.

#[export] Instance EventPayload_eq_dec : EqDecision EventPayload.
Proof. solve_decision. Defined.
#[export] Instance Event_eq_dec : EqDecision Event.
Proof. solve_decision. Defined.

(** ** lib.rs *)

(** [std::io::Error], by its message. *)
Definition io_error : Type := string.

Inductive Error `{Bincode} : Type :=
| Io (e : io_error)
| Codec (e : bincode_error)
| Unhandled (e : string).

Section Format.
Context `{Bincode}.

(** The derived format of [EventPayload]: the variants in the order of their
    declaration. *)
Definition payload_index (p : EventPayload) : Z :=
  match p with Sound _ => 0 | Position _ _ => 1 | Luminosity _ _ => 2 end.

Definition w_triple : Wire triple := w_pair (w_pair (w_prim PI32) (w_prim PI32)) (w_prim PI32).

Definition w_Sound : Wire EventPayload :=
  w_case Sound (fun p => match p with Sound f => Some f | _ => None end) (w_prim PString).
Definition w_Position : Wire EventPayload :=
  w_case (fun '(f, t) => Position f t)
    (fun p => match p with Position f t => Some (f, t) | _ => None end)
    (w_pair w_triple w_triple).
Definition w_Luminosity : Wire EventPayload :=
  w_case (fun '(f, t) => Luminosity f t)
    (fun p => match p with Luminosity f t => Some (f, t) | _ => None end)
    (w_pair (w_prim PI32) (w_prim PI32)).

Definition payload_variants (i : Z) : option (Wire EventPayload) :=
  match i with
  | 0 => Some w_Sound
  | 1 => Some w_Position
  | 2 => Some w_Luminosity
  | _ => None
  end.
Definition w_EventPayload : Wire EventPayload := w_enum payload_index payload_variants.

Definition w_Event : Wire Event :=
  w_case
    (fun '(s, (ss, (sn, (es, (en, p))))) => mkEvent s ss sn es en p)
    (fun e => Some (secret e, (started_at_secs e, (started_at_nsecs e,
                   (ended_at_secs e, (ended_at_nsecs e, payload e))))))
    (w_pair (w_prim PU64) (w_pair (w_prim PI64) (w_pair (w_prim PU32)
      (w_pair (w_prim PI64) (w_pair (w_prim PU32) w_EventPayload))))).

(** ** codec.rs *)

Definition from_bincode (e : bincode_error) : Error := Codec e.
Definition from_io (e : io_error) : Error := Io e.

(** [EventCodec::decode]: the result and the buffer left behind. *)
Definition decode (buf : list byte) : result (option Event) Error * list byte :=
  match buf with
  | [] => (Ok None, [])
  | _ =>
      let event := res_map_err from_bincode (res_map Some (deserialize w_Event buf)) in
      (event, [])
  end.

(** [EventCodec::encode] appends to the buffer. *)
Definition encode (data : Event) (buf : list byte) : result unit Error * list byte :=
  (Ok tt, buf ++ serialize w_Event data).

(** The events a decoder yields when the stream arrives in the pieces
    [reads]: each piece is appended to what the previous call left. *)
Fixpoint decode_reads (buf : list byte) (reads : list (list byte))
    : list (result (option Event) Error) :=
  match reads with
  | [] => []
  | r :: reads =>
      let (res, buf) := decode (buf ++ r) in res :: decode_reads buf reads
  end.
End Format.

(** ** The byte vectors of the unit tests *)

Definition test_event (p : EventPayload) : Event :=
  mkEvent 12345678 1608119495 142000000 1608123495 532000000 p.
Definition test_header : list Z :=
  [78; 97; 188; 0; 0; 0; 0; 0;
   199; 244; 217; 95; 0; 0; 0; 0;
   128; 191; 118; 8;
   103; 4; 218; 95; 0; 0; 0; 0;
   0; 173; 181; 31].
Definition test_sound : Event * list Z :=
  (test_event (Sound "3eeea9d6-3672-435c-9927-9463e72330cc.wav"),
   test_header ++ [0; 0; 0; 0] ++
   [40; 0; 0; 0; 0; 0; 0; 0; 51; 101; 101; 101; 97; 57; 100; 54; 45; 51; 54; 55; 50; 45;
    52; 51; 53; 99; 45; 57; 57; 50; 55; 45; 57; 52; 54; 51; 101; 55; 50; 51; 51; 48; 99;
    99; 46; 119; 97; 118]).
Definition test_position : Event * list Z :=
  (test_event (Position (0, 3, 12) (400, 600, 11)),
   test_header ++ [1; 0; 0; 0] ++
   [0; 0; 0; 0; 3; 0; 0; 0; 12; 0; 0; 0; 144; 1; 0; 0; 88; 2; 0; 0; 11; 0; 0; 0]).
Definition test_luminosity : Event * list Z :=
  (test_event (Luminosity 10 800), test_header ++ [2; 0; 0; 0] ++ [10; 0; 0; 0; 32; 3; 0; 0]).

(** ** Lemmas *)

Section FormatLaws.
Context `{BincodeLaws}.

Lemma w_EventPayload_ok : wire_ok w_EventPayload.
Proof.
  apply w_enum_ok. intros i w Hi. unfold payload_variants in Hi.
  destruct i as [|[[]|[]|]|]; simplify_eq;
    unfold w_Sound, w_Position, w_Luminosity, w_triple; solve_wire.
Qed.

Lemma w_Event_ok : wire_ok w_Event.
Proof.
  pose proof w_EventPayload_ok. unfold w_Event. solve_wire.
Qed.

(** Every encoding is non-empty. *)
Lemma serialize_event_not_nil (e : Event) :
  wf w_Event e = true -> serialize w_Event e <> [].
Proof.
  intros Hwf. pose (e0 s := mkEvent s 0 0 0 0 (Luminosity 0 0)).
  destruct (decide (e = e0 0)) as [->|Hne].
  - apply (put_not_nil _ _ (e0 1)); [apply w_Event_ok|done..].
  - apply (put_not_nil _ _ (e0 0)); [apply w_Event_ok|done..].
Qed.

Lemma decode_event (e : Event) (rest : list byte) :
  wf w_Event e = true -> decode (serialize w_Event e ++ rest) = (Ok (Some e), []).
Proof.
  intros Hwf. unfold decode.
  destruct (serialize w_Event e ++ rest) eqn:E.
  { apply app_eq_nil in E as [E _]. by apply serialize_event_not_nil in E. }
  rewrite <- E, deserialize_serialize by auto using w_Event_ok. done.
Qed.

Lemma decode_clears (buf : list byte) : snd (decode buf) = [].
Proof. by destruct buf. Qed.

Lemma decode_reads_map (reads : list (list byte)) :
  decode_reads [] reads = map (fun r => fst (decode r)) reads.
Proof.
  induction reads as [|r reads IH]; [done|]. cbn.
  pose proof (decode_clears r) as Hc. destruct (decode r) as [res buf]. cbn in *. subst buf.
  by rewrite IH.
Qed.
End FormatLaws.

Section FormatSound.
Context `{BincodeCanonical}.

Lemma w_EventPayload_sound : wire_sound w_EventPayload.
Proof.
  apply w_enum_sound. intros i w Hi. unfold payload_variants in Hi.
  destruct i as [|[[]|[]|]|]; simplify_eq; unfold w_Sound, w_Position, w_Luminosity, w_triple;
    (split; [solve_sound|by intros []]).
Qed.

Lemma w_Event_sound : wire_sound w_Event.
Proof. pose proof w_EventPayload_sound. unfold w_Event. solve_sound. Qed.
End FormatSound.

#[export] Hint Resolve w_EventPayload_ok w_Event_ok w_EventPayload_sound w_Event_sound : rust.

(** ** Properties *)

(** An event that is encoded onto an empty buffer is decoded to the same
    event, and the buffer is empty again, for every event whose fields are in
    the range of their types and whatever format satisfies the laws. *)
Lemma encode_decode `{BincodeLaws} (e : Event) (Hwf : wf w_Event e = true) :
  fst (encode e []) = Ok tt /\ decode (snd (encode e [])) = (Ok (Some e), []).
Proof.
  split; [done|]. cbn. rewrite <- (app_nil_r (serialize w_Event e)). by apply decode_event.
Qed.

Lemma decode_iff `{BincodeLaws} `{!BincodeCanonical} (buf : list byte) (e : Event) :
  fst (decode buf) = Ok (Some e) <-> wf w_Event e = true /\ exists rest, buf = serialize w_Event e ++ rest.
Proof.
  split.
  - unfold decode. destruct buf as [|b buf]; [done|]. cbn [fst]. intros Hd.
    destruct (deserialize w_Event (b :: buf)) as [e'|err] eqn:He; [|done]. injection Hd as ->.
    by apply deserialize_sound in He; [|apply w_Event_sound].
  - intros (Hwf & rest & ->). by rewrite decode_event.
Qed.

(** C34: what the decoder makes of a connection. Each read from the socket is
    decoded on its own, and yields an event exactly when it begins with the
    encoding of that event and the fields of the event are in the range of
    their types, its file name valid UTF-8. What follows the event in the read
    is discarded, so of events that arrive in one read only the first is
    delivered; and an event that arrives in two reads is not delivered by the
    first, nor as itself by the second. *)
Theorem decode_exact `{BincodeLaws} `{!BincodeCanonical} (reads : list (list byte)) (k : nat) (e : Event) :
  decode_reads [] reads !! k = Some (Ok (Some e)) <->
  wf w_Event e = true /\ exists rest, reads !! k = Some (serialize w_Event e ++ rest).
Proof.
  rewrite decode_reads_map, list_lookup_fmap. destruct (reads !! k) as [buf|]; cbn.
  - split.
    + intros [= (Hwf & rest & ->)%decode_iff]. eauto.
    + intros (Hwf & rest & [= ->]). f_equal. apply decode_iff. eauto.
  - split; [done|]. by intros (_ & rest & ?).
Qed.

(** Framing is by reads, not by events. When the pieces of the stream are
    the concatenations of the groups [gs] of events, the decoder yields the
    first event of each non-empty group and no other: events that the
    transport coalesces into one read are lost, without an error. *)
Lemma decode_coalesced `{BincodeLaws} (gs : list (list Event))
    (Hwf : Forall (Forall (fun e => wf w_Event e = true)) gs) :
  decode_reads [] (map (fun g => concat (map (serialize w_Event) g)) gs) =
  map (fun g => Ok (head g)) gs.
Proof.
  rewrite decode_reads_map, map_map. apply map_ext_Forall, (Forall_impl _ _ _ Hwf).
  intros [|e g] Hg; [done|]. cbn. by rewrite decode_event by (by inversion Hg).
Qed.

(** An event that arrives in two pieces is lost, the second piece being
    decoded as if it began an event: the first piece is rejected, and nothing
    of it is left in the buffer. *)
Lemma decode_fragmented `{BincodeLaws} (e : Event) (k : nat)
    (Hwf : wf w_Event e = true) (Hk : (0 < k < length (serialize w_Event e))%nat) :
  let bs := serialize w_Event e in
  exists err, decode_reads [] [take k bs; drop k bs] =
    [Err (Codec err); fst (decode (drop k bs))].
Proof.
  cbv zeta. rewrite decode_reads_map. cbn [map].
  pose proof (deserialize_prefix w_Event e k w_Event_ok Hwf (proj2 Hk)) as Hpre.
  assert (take k (serialize w_Event e) <> []) as Hne.
  { intros Hnil%(f_equal length). rewrite length_take in Hnil. cbn in Hnil. lia. }
  unfold decode at 1. destruct (take k (serialize w_Event e)) as [|b l]; [done|].
  destruct (deserialize w_Event (b :: l)) as [|err]; [done|]. by exists err.
Qed.

Import Instances.

(** In bincode's default format, the encoder writes the bytes the unit tests
    expect for a sound, a position and a luminosity event. *)
Lemma encode_test_vectors :
  Forall (fun '(e, bytes) => encode e [] = (Ok tt, map byte_of_Z bytes))
    [test_sound; test_position; test_luminosity].
Proof. repeat constructor; vm_compute; reflexivity. Qed.

Lemma encode_decode_witness :
  fst (encode (fst test_sound) []) = Ok tt /\
  decode (snd (encode (fst test_sound) [])) = (Ok (Some (fst test_sound)), []).
Proof. apply encode_decode. vm_compute. reflexivity. Defined.

Lemma decode_exact_witness :
  let reads := [map byte_of_Z (snd test_sound ++ [1; 2])] in
  decode_reads [] reads !! 0%nat = Some (Ok (Some (fst test_sound))) <->
  wf w_Event (fst test_sound) = true /\ exists rest, reads !! 0%nat = Some (serialize w_Event (fst test_sound) ++ rest).
Proof. apply decode_exact. Defined.

Lemma decode_coalesced_witness :
  decode_reads [] (map (fun g => concat (map (serialize w_Event) g))
    [[fst test_position; fst test_luminosity]; [fst test_luminosity]])
  = [Ok (Some (fst test_position)); Ok (Some (fst test_luminosity))].
Proof.
  apply (decode_coalesced [[fst test_position; fst test_luminosity]; [fst test_luminosity]]).
  repeat constructor; vm_compute; reflexivity.
Defined.

Lemma decode_fragmented_witness :
  let bs := serialize w_Event (fst test_position) in
  exists err, decode_reads [] [take 20 bs; drop 20 bs] = [Err (Codec err); fst (decode (drop 20 bs))].
Proof.
  apply (decode_fragmented (fst test_position) 20); [vm_compute; reflexivity|].
  split; apply Nat.ltb_lt; vm_compute; reflexivity.
Defined.
