(* ===== verification/Audio.v ===== *)
(** * The audio crate (backend/audio/src): the messages of the audio stream,
    their format, and the codec *)
From S2P Require Import Prelude MachineInt Float32 Bincode.
From S2P Require LittleEndian.
Open Scope Z_scope.

(** ** audio.rs: data *)

Definition WAV_CHUNK_PAYLOAD_SIZE : nat := 512.

Inductive SampleFormat : Type := U16 | I16 | F32.

Record Spec : Type := mkSpec {
  channels : Z;
  sample_rate : Z;
  bits_per_sample : Z;
  sample_format : SampleFormat;
}.

(** The array [[S; WAV_CHUNK_PAYLOAD_SIZE]]: a list of that length. *)
Definition WavChunkPayload (T : Type) : Type := list T.

Record WavChunk `{UuidOps} (T : Type) : Type := mkWavChunk {
  id : Uuid;
  seq : Z;
  size : Z;
  payload : WavChunkPayload T;
}.
Arguments mkWavChunk {_ _} _ _ _ _.
Arguments id {_ _} _.
Arguments seq {_ _} _.
Arguments size {_ _} _.
Arguments payload {_ _} _.

Inductive Audio `{UuidOps} (T : Type) : Type :=
| Handshake
| SpecMsg (secret : Z) (spec : Spec)
| WavChunkMsg (wav_chunk : WavChunk T)
| WavEnd (id : Uuid).
Arguments Handshake {_ _}.
Arguments SpecMsg {_ _} _ _.
Arguments WavChunkMsg {_ _} _.
Arguments WavEnd {_ _} _.

(** [S: Default]. *)
Class Default (T : Type) := default_value : T.

(** The primitive types of samples are numbers, with default 0 ([0.0] is the
    zero pattern). *)
#[export] Instance Z_default : Default Z := 0.

#[export] Instance SampleFormat_eq_dec : EqDecision SampleFormat.
Proof. solve_decision. Defined.
#[export] Instance Spec_eq_dec : EqDecision Spec.
Proof. solve_decision. Defined.

Section Messages.
Context `{U : UuidOps}.

#[global] Instance WavChunk_eq_dec {T} `{EqDecision T} : EqDecision (WavChunk T).
Proof. solve_decision. Defined.
#[global] Instance Audio_eq_dec {T} `{EqDecision T} : EqDecision (Audio T).
Proof. solve_decision. Defined.

(** [WavChunkPayload::default]. *)
Definition payload_default {T} `{Default T} : WavChunkPayload T :=
  replicate WAV_CHUNK_PAYLOAD_SIZE default_value.

(** ** audio.rs: conversions from [cpal] and to [hound]

    The constructors of the two foreign enums are those the code matches on;
    the size in bytes of a sample and the configuration's accessors are
    parameters. *)
Inductive CpalFormat : Type := CpalU16 | CpalI16 | CpalF32.
Inductive HoundFormat : Type := Int | Float.

Record SupportedStreamConfig : Type := mkConfig {
  cfg_channels : Z;
  cfg_sample_rate : Z;
  cfg_sample_format : CpalFormat;
}.

Record WavSpec : Type := mkWavSpec {
  wav_channels : Z;
  wav_sample_rate : Z;
  wav_bits_per_sample : Z;
  wav_sample_format : HoundFormat;
}.

Definition format_from_cpal (f : CpalFormat) : SampleFormat :=
  match f with
  | CpalU16 => U16
  | CpalI16 => I16
  | CpalF32 => F32
  end.

Definition format_to_hound (f : SampleFormat) : HoundFormat :=
  match f with
  | U16 => Int
  | I16 => Int
  | F32 => Float
  end.

Definition spec_from_config (sample_size : CpalFormat -> Z) (config : SupportedStreamConfig) : Spec :=
  mkSpec (cfg_channels config) (cfg_sample_rate config)
    (wrap_u 16 (sample_size (cfg_sample_format config) * 8))
    (format_from_cpal (cfg_sample_format config)).

Definition spec_to_wav (spec : Spec) : WavSpec :=
  mkWavSpec (channels spec) (sample_rate spec) (bits_per_sample spec)
    (format_to_hound (sample_format spec)).

(** ** audio.rs: the format *)

Section Format.
Context `{B : Bincode}.

Section Payload.
Context {T : Type} `{Default T} (w : Wire T).

(** [WavChunkPayload::serialize]: the loop of [serialize_element]. *)
Definition payload_serialize (p : WavChunkPayload T) : list byte :=
  foldl (fun seq e => seq ++ put w e) (put_tuple (length p)) p.

(** [ArrayVisitor::visit_seq]: the loop at index [i], [n] turns before the
    end. *)
Fixpoint visit_loop (n i : nat) (p : WavChunkPayload T) (sq : nat * list byte)
    : result (WavChunkPayload T * (nat * list byte)) bincode_error :=
  match n with
  | O => Ok (p, sq)
  | S n =>
      let? (next, sq) := next_element (get w) sq in
      match next with
      | Some e => visit_loop n (i + 1) (<[i := e]> p) sq
      | None => Err (invalid_length i)
      end
  end.
Definition visit_seq (sq : nat * list byte)
    : result (WavChunkPayload T * (nat * list byte)) bincode_error :=
  visit_loop WAV_CHUNK_PAYLOAD_SIZE 0 payload_default sq.

(** [WavChunkPayload::deserialize]. *)
Definition payload_deserialize (bs : list byte) : result (WavChunkPayload T * list byte) bincode_error :=
  let? (p, sq) := visit_seq (WAV_CHUNK_PAYLOAD_SIZE, bs) in Ok (p, snd sq).

Definition payload_wf (p : WavChunkPayload T) : bool :=
  (length p =? WAV_CHUNK_PAYLOAD_SIZE)%nat && forallb (wf w) p.

Definition w_payload : Wire (WavChunkPayload T) :=
  mkWire payload_serialize payload_deserialize payload_wf.

(** The derived formats. *)
Definition w_WavChunk : Wire (WavChunk T) :=
  w_case (fun '(i, (sq, (sz, p))) => mkWavChunk i sq sz p)
    (fun c => Some (id c, (seq c, (size c, payload c))))
    (w_pair (w_prim PUuid) (w_pair (w_prim PU32) (w_pair (w_prim PU8) w_payload))).
End Payload.

Definition format_index (f : SampleFormat) : Z := match f with U16 => 0 | I16 => 1 | F32 => 2 end.
Definition w_unit_variant {A} (a : A) (is_a : A -> bool) : Wire A :=
  w_case (fun _ : unit => a) (fun a' => if is_a a' then Some tt else None) w_unit.
Definition format_variants (i : Z) : option (Wire SampleFormat) :=
  match i with
  | 0 => Some (w_unit_variant U16 (fun f => bool_decide (f = U16)))
  | 1 => Some (w_unit_variant I16 (fun f => bool_decide (f = I16)))
  | 2 => Some (w_unit_variant F32 (fun f => bool_decide (f = F32)))
  | _ => None
  end.
Definition w_SampleFormat : Wire SampleFormat := w_enum format_index format_variants.

Definition w_Spec : Wire Spec :=
  w_case (fun '(c, (r, (b, f))) => mkSpec c r b f)
    (fun s => Some (channels s, (sample_rate s, (bits_per_sample s, sample_format s))))
    (w_pair (w_prim PU16) (w_pair (w_prim PU32) (w_pair (w_prim PU16) w_SampleFormat))).

Definition audio_index {T} (a : Audio T) : Z :=
  match a with Handshake => 0 | SpecMsg _ _ => 1 | WavChunkMsg _ => 2 | WavEnd _ => 3 end.
Definition audio_variants {T} `{Default T} (w : Wire T) (i : Z) : option (Wire (Audio T)) :=
  match i with
  | 0 => Some (w_case (fun _ : unit => Handshake)
                 (fun a => match a with Handshake => Some tt | _ => None end) w_unit)
  | 1 => Some (w_case (fun '(s, sp) => SpecMsg s sp)
                 (fun a => match a with SpecMsg s sp => Some (s, sp) | _ => None end)
                 (w_pair (w_prim PU64) w_Spec))
  | 2 => Some (w_case WavChunkMsg
                 (fun a => match a with WavChunkMsg c => Some c | _ => None end) (w_WavChunk w))
  | 3 => Some (w_case WavEnd
                 (fun a => match a with WavEnd i => Some i | _ => None end) (w_prim PUuid))
  | _ => None
  end.
Definition w_Audio {T} `{Default T} (w : Wire T) : Wire (Audio T) := w_enum audio_index (audio_variants w).

(** The sample types. *)
Definition w_i16 : Wire Z := w_prim PI16.
Definition w_u16 : Wire Z := w_prim PU16.
Definition w_f32 : Wire Z := w_prim PF32.

(** ** lib.rs *)

Inductive Error : Type :=
| Io (e : string)
| Codec (e : bincode_error)
| Unhandled (e : string).

Definition from_bincode (e : bincode_error) : Error := Codec e.
Definition from_io (e : string) : Error := Io e.

(** ** codec.rs *)

(** [AudioCodec::decode]: the result and the buffer left behind. *)
Definition decode {T} `{Default T} (w : Wire T) (buf : list byte)
    : result (option (Audio T)) Error * list byte :=
  match buf with
  | [] => (Ok None, buf)
  | _ => (let? a := res_map_err from_bincode (deserialize (w_Audio w) buf) in Ok (Some a), buf)
  end.

(** [AudioCodec::encode]. *)
Definition encode {T} `{Default T} (w : Wire T) (data : Audio T) (buf : list byte)
    : result unit Error * list byte :=
  (Ok tt, buf ++ serialize (w_Audio w) data).
End Format.
End Messages.

(** Conversion leaves the array size alone as long as it can. *)
#[global] Strategy 1000 [WAV_CHUNK_PAYLOAD_SIZE payload_default].

(** ** Lemmas *)

Section Laws.
Context `{L : BincodeLaws}.

Section PayloadLaws.
Context {T : Type} `{Default T} (w : Wire T) (Hw : wire_ok w).

Lemma payload_serialize_concat (p : WavChunkPayload T) :
  payload_serialize w p = concat (map (put w) p).
Proof.
  unfold payload_serialize. rewrite put_tuple_nil.
  assert (forall acc, foldl (fun seq e => seq ++ put w e) acc p = acc ++ concat (map (put w) p)) as Hf.
  { induction p as [|e p IH]; intros acc; cbn; [by rewrite app_nil_r|].
    by rewrite IH, app_assoc. }
  apply Hf.
Qed.

(** The visitor stores the [n] elements it reads at the positions from [i]
    on. *)
Lemma visit_loop_ok (xs : list T) (i : nat) (p : WavChunkPayload T) (rest : list byte) :
  forallb (wf w) xs = true -> (i + length xs <= length p)%nat ->
  visit_loop w (length xs) i p (length xs, concat (map (put w) xs) ++ rest) =
    Ok (take i p ++ xs ++ drop (i + length xs) p, (0%nat, rest)).
Proof.
  revert i p. induction xs as [|x xs IH]; intros i p Hwf Hlen.
  { cbn. rewrite Nat.add_0_r, take_drop. done. }
  cbn [forallb] in Hwf. apply andb_prop in Hwf as [Hx Hxs]. cbn [length] in Hlen.
  cbn [length visit_loop map concat]. rewrite next_element_more, <- app_assoc.
  rewrite (proj1 (Hw x Hx)). cbn [res_bind].
  rewrite IH by (rewrite ?length_insert; done || lia). f_equal. f_equal.
  replace (i + 1)%nat with (S i) by lia.
  rewrite (take_S_r _ i x) by (apply list_lookup_insert_eq; lia).
  rewrite take_insert_ge by lia. rewrite drop_insert_lt by lia.
  rewrite <- !app_assoc. cbn. do 4 f_equal. lia.
Qed.

Lemma visit_loop_prefix (xs : list T) (i k : nat) (p : WavChunkPayload T) :
  forallb (wf w) xs = true -> (k < length (concat (map (put w) xs)))%nat ->
  is_ok (visit_loop w (length xs) i p (length xs, take k (concat (map (put w) xs)))) = false.
Proof.
  revert i p k. induction xs as [|x xs IH]; intros i p k Hwf Hk; [cbn in Hk; lia|].
  cbn [forallb] in Hwf. apply andb_prop in Hwf as [Hx Hxs].
  cbn [length visit_loop map concat] in *. rewrite next_element_more.
  pose proof (bind_prefix w (fun a bs => visit_loop w (length xs) (i + 1) (<[i:=a]> p) (length xs, bs))
    x (concat (map (put w) xs)) k Hw Hx (fun j Hj => IH _ _ j Hxs Hj) Hk) as Hb.
  by destruct (get w _) as [[a bs]|].
Qed.

Lemma length_payload_default : length (payload_default (T := T)) = WAV_CHUNK_PAYLOAD_SIZE.
Proof. apply length_replicate. Qed.

Lemma w_payload_ok : wire_ok (w_payload w).
Proof.
  intros p [Hlen%Nat.eqb_eq Hwf]%andb_prop. unfold w_payload; cbn [put get].
  unfold payload_deserialize, visit_seq. rewrite payload_serialize_concat. pose proof length_payload_default as Hd. rewrite <- Hlen in Hd |- *. split.
  - intros rest. rewrite visit_loop_ok by (done || lia). cbn [res_bind snd take].
    by rewrite drop_ge, app_nil_r by lia.
  - intros k Hk. pose proof (visit_loop_prefix p 0 k payload_default Hwf Hk) as Hb.
    by destruct (visit_loop w _ _ _ _).
Qed.

Lemma w_WavChunk_ok : wire_ok (w_WavChunk w).
Proof. pose proof w_payload_ok. unfold w_WavChunk. solve_wire. Qed.
End PayloadLaws.

Lemma w_SampleFormat_ok : wire_ok w_SampleFormat.
Proof.
  apply w_enum_ok. intros i w Hi. unfold format_variants in Hi.
  destruct i as [|[[]|[]|]|]; simplify_eq; unfold w_unit_variant; apply w_case_ok;
    try apply w_unit_ok; intros a b Hb; case_bool_decide; by simplify_eq.
Qed.

Lemma w_Spec_ok : wire_ok w_Spec.
Proof. pose proof w_SampleFormat_ok. unfold w_Spec. solve_wire. Qed.

Lemma w_Audio_ok {T} `{Default T} (w : Wire T) : wire_ok w -> wire_ok (w_Audio w).
Proof.
  intros Hw. apply w_enum_ok. intros i w' Hi. unfold audio_variants in Hi.
  pose proof w_Spec_ok. pose proof (w_WavChunk_ok w Hw).
  destruct i as [|[[]|[[]|[]|]|]|]; simplify_eq; solve_wire.
Qed.

Lemma serialize_audio_not_nil {T} `{Default T} (w : Wire T) (a : Audio T) :
  wire_ok w -> wf (w_Audio w) a = true -> serialize (w_Audio w) a <> [].
Proof.
  intros Hw Ha. destruct a eqn:E.
  1: apply (put_not_nil _ _ (SpecMsg 0 (mkSpec 0 0 0 U16))); auto using w_Audio_ok.
  all: apply (put_not_nil _ _ Handshake); auto using w_Audio_ok.
Qed.

Lemma decode_audio {T} `{Default T} (w : Wire T) (a : Audio T) (rest : list byte) :
  wire_ok w -> wf (w_Audio w) a = true ->
  decode w (serialize (w_Audio w) a ++ rest) = (Ok (Some a), serialize (w_Audio w) a ++ rest).
Proof.
  intros Hw Ha. unfold decode. destruct (serialize (w_Audio w) a ++ rest) eqn:E.
  { apply app_eq_nil in E as [E _]. by apply serialize_audio_not_nil in E. }
  rewrite <- E, deserialize_serialize by auto using w_Audio_ok. done.
Qed.

(** A chunk read at another sample type: the header is understood, the payload
    is read by the other format. *)
Lemma deserialize_chunk_at {T T'} `{Default T, Default T'} (w : Wire T) (w' : Wire T')
    (i : Uuid) (sq sz : Z) (p : WavChunkPayload T) :
  in_u 32 sq = true -> in_u 8 sz = true ->
  deserialize (w_Audio w') (serialize (w_Audio w) (WavChunkMsg (mkWavChunk i sq sz p))) =
    (let? (q, r) := payload_deserialize w' (payload_serialize w p) in
     let? _ := finish r in Ok (WavChunkMsg (mkWavChunk i sq sz q))).
Proof.
  intros Hsq Hsz. unfold deserialize, serialize, w_Audio, w_enum, w_WavChunk, w_pair.
  cbn [put get audio_index audio_variants w_case w_prim w_pair w_WavChunk id seq size payload w_payload].
  repeat (rewrite get_put_prim by done;
    cbn [res_bind audio_variants w_case w_WavChunk w_pair w_prim w_payload put get]).
  by destruct (payload_deserialize w' _) as [[q r]|].
Qed.

(** Messages with the same bytes at two sample types. *)
Lemma deserialize_same_bytes {T T'} `{Default T, Default T'} (w : Wire T) (w' : Wire T') (a : Audio T) (a' : Audio T') :
  wire_ok w' -> serialize (w_Audio w) a = serialize (w_Audio w') a' -> wf (w_Audio w') a' = true ->
  deserialize (w_Audio w') (serialize (w_Audio w) a) = Ok a'.
Proof.
  intros Hw' -> Ha'. rewrite <- (app_nil_r (serialize _ a')).
  by apply deserialize_serialize; [apply w_Audio_ok|].
Qed.
End Laws.

Section Sound.
Context `{L : BincodeLaws} `{BC : !BincodeCanonical}.

(** What the visitor stored is what was there. *)
Lemma visit_loop_sound {T} (w : Wire T) (n i : nat) (p q : WavChunkPayload T) bs (m : nat) rest :
  wire_sound w -> (i + n <= length p)%nat -> visit_loop w n i p (n, bs) = Ok (q, (m, rest)) ->
  exists xs, length xs = n /\ forallb (wf w) xs = true /\ q = take i p ++ xs ++ drop (i + n) p /\
    bs = concat (map (put w) xs) ++ rest.
Proof.
  intros Hw. revert i p bs. induction n as [|n IH]; intros i p bs Hlen Hv.
  { cbn in Hv. injection Hv as <- <- <-. exists []. cbn. by rewrite Nat.add_0_r, take_drop. }
  cbn [visit_loop] in Hv. rewrite next_element_more in Hv. destruct (get w bs) as [[x bs1]|] eqn:Hg; [|done]. cbn [res_bind] in Hv.
  destruct (Hw _ _ _ Hg) as [Hx ->].
  apply IH in Hv as (xs & Hn & Hxs & -> & ->); [|rewrite length_insert; lia].
  exists (x :: xs). cbn [length forallb map concat]. rewrite Hx, Hxs, Hn, <- app_assoc. split_and!; try done.
  replace (i + 1)%nat with (S i) by lia. rewrite (take_S_r _ i x) by (apply list_lookup_insert_eq; lia).
  rewrite take_insert_ge by lia. rewrite drop_insert_lt by lia. rewrite <- !app_assoc. cbn. do 4 f_equal. lia.
Qed.

Lemma w_payload_sound {T} `{Default T} (w : Wire T) : wire_sound w -> wire_sound (w_payload w).
Proof.
  intros Hw bs p rest Hg. cbn in Hg. unfold payload_deserialize, visit_seq in Hg.
  apply res_bind_ok in Hg as ([q [m r]] & Hv & [= -> ->]). cbn [snd].
  apply visit_loop_sound in Hv as (xs & Hn & Hxs & -> & ->); [|done|by rewrite length_payload_default].
  cbn [take Nat.add app]. rewrite drop_ge, app_nil_r by (by rewrite length_payload_default).
  assert (payload_wf w xs = true) as Hp by (unfold payload_wf; by rewrite Hn, Nat.eqb_refl, Hxs).
  split; [done|]. f_equal. symmetry. apply payload_serialize_concat.
Qed.

Lemma w_SampleFormat_sound : wire_sound w_SampleFormat.
Proof.
  apply w_enum_sound. intros i w Hi. unfold format_variants in Hi.
  destruct i as [|[[]|[]|]|]; simplify_eq; unfold w_unit_variant;
    (split; [apply w_case_sound; [by intros []|apply w_unit_sound]|by intros []]).
Qed.

Lemma w_Spec_sound : wire_sound w_Spec.
Proof. pose proof w_SampleFormat_sound. unfold w_Spec. solve_sound. Qed.

Lemma w_WavChunk_sound {T} `{Default T} (w : Wire T) : wire_sound w -> wire_sound (w_WavChunk w).
Proof. intros Hw. pose proof (w_payload_sound w Hw). unfold w_WavChunk. solve_sound. Qed.

Lemma w_Audio_sound {T} `{Default T} (w : Wire T) : wire_sound w -> wire_sound (w_Audio w).
Proof.
  intros Hw. apply w_enum_sound. intros i w' Hi. unfold audio_variants in Hi.
  pose proof w_Spec_sound. pose proof (w_WavChunk_sound w Hw).
  destruct i as [|[[]|[[]|[]|]|]|]; simplify_eq; (split; [solve_sound|by intros []]).
Qed.
End Sound.

(** ** Properties *)

(** The hand-written array format is a round trip for every element
    format: a payload of 512 samples is written as the concatenation of its
    samples, read back whatever follows it, and no strict prefix of it is
    accepted. *)
Lemma payload_roundtrip `{L : BincodeLaws} {T} `{Default T} (w : Wire T)
    (Hw : wire_ok w) (p : WavChunkPayload T) (rest : list byte) (k : nat)
    (Hlen : length p = WAV_CHUNK_PAYLOAD_SIZE) (Hp : forallb (wf w) p = true)
    (Hk : (k < length (payload_serialize w p))%nat) :
  payload_serialize w p = concat (map (put w) p) /\
  payload_deserialize w (payload_serialize w p ++ rest) = Ok (p, rest) /\
  is_ok (payload_deserialize w (take k (payload_serialize w p))) = false.
Proof.
  assert (wf (w_payload w) p = true) as Hwf.
  { cbn. unfold payload_wf. by rewrite Hlen, Nat.eqb_refl, Hp. }
  split; [by apply payload_serialize_concat|].
  destruct (w_payload_ok w Hw p Hwf) as [Hget Hpre]. split; [apply Hget|by apply Hpre].
Qed.

(** A message that is encoded onto an empty buffer is decoded to the same
    message, for every sample format; but the decoder, unlike that of events,
    leaves the buffer as it was, so decoding again gives the same message
    again. *)
Lemma encode_decode_audio `{L : BincodeLaws} {T} `{Default T} (w : Wire T)
    (Hw : wire_ok w) (a : Audio T) (Ha : wf (w_Audio w) a = true) :
  let buf := snd (encode w a []) in
  decode w buf = (Ok (Some a), buf) /\ decode w (snd (decode w buf)) = decode w buf.
Proof.
  cbv zeta. unfold encode. cbn [snd app].
  pose proof (decode_audio w a [] Hw Ha) as Hd. rewrite app_nil_r in Hd. by rewrite Hd.
Qed.

(** C35: what the decoder accepts, at every sample format. It yields a message
    exactly when the buffer begins with the encoding of that message and the
    message is well-formed: fields in the range of their types and, in a chunk,
    512 samples in the range of theirs. The buffer is left as it was. *)
Theorem decode_audio_exact `{L : BincodeLaws} `{BC : !BincodeCanonical} {T} `{Default T} (w : Wire T)
    (Hw : wire_ok w) (Hs : wire_sound w) (buf : list byte) (a : Audio T) :
  (fst (decode w buf) = Ok (Some a) <-> wf (w_Audio w) a = true /\ exists rest, buf = serialize (w_Audio w) a ++ rest) /\
  snd (decode w buf) = buf.
Proof.
  split; [|by destruct buf]. split.
  - unfold decode. destruct buf as [|b buf]; [done|]. cbn [fst]. intros Hd.
    destruct (deserialize (w_Audio w) (b :: buf)) as [a'|err] eqn:Ha; [|done]. injection Hd as ->.
    by apply deserialize_sound in Ha; [|apply w_Audio_sound].
  - intros (Hwf & rest & ->). by rewrite decode_audio.
Qed.

Import LittleEndian.Instances.


Lemma visit_loop_short (n i : nat) (p : list Z) (bs : list byte) :
  (length bs < 4 * n)%nat -> is_ok (visit_loop w_f32 n i p (n, bs)) = false.
Proof.
  revert i p bs. induction n as [|n IH]; intros i p bs Hlen; [lia|].
  cbn [visit_loop]. rewrite next_element_more. unfold w_f32 at 1.
  cbn [w_prim get get_prim LittleEndian.le_bincode LittleEndian.le_get].
  unfold LittleEndian.get_le, LittleEndian.read.
  destruct (Nat.ltb_spec (length bs) 4); cbn [res_bind]; [done|].
  apply IH. rewrite length_drop. lia.
Qed.

Lemma length_payload_i16 (p : list Z) : length (payload_serialize w_i16 p) = (2 * length p)%nat.
Proof.
  rewrite payload_serialize_concat. induction p as [|x p IH]; [done|].
  cbn [map concat length]. rewrite length_app, IH.
  change (put w_i16 x) with (le_bytes 2 (wrap_u 16 x)). rewrite length_le_bytes. lia.
Qed.

(** A chunk of a 16-bit client, read as [Audio::<f32>], is rejected as
    truncated, never misread. *)
Lemma chunk16_is_not_f32 (c : WavChunk Z) (Hc : wf (w_Audio w_i16) (WavChunkMsg c) = true) :
  is_ok (deserialize (w_Audio w_f32) (serialize (w_Audio w_i16) (WavChunkMsg c))) = false.
Proof.
  destruct c as [i sq sz p]. cbn in Hc.
  apply andb_prop in Hc as [_ Hc]. apply andb_prop in Hc as [Hsq Hc]. apply andb_prop in Hc as [Hsz Hc].
  apply andb_prop in Hc as [Hlen%Nat.eqb_eq _].
  rewrite deserialize_chunk_at by done. unfold payload_deserialize, visit_seq.
  pose proof (visit_loop_short WAV_CHUNK_PAYLOAD_SIZE 0 payload_default (payload_serialize w_i16 p)) as Hv.
  rewrite length_payload_i16, Hlen in Hv. specialize (Hv ltac:(by apply Nat.ltb_lt)).
  by destruct (visit_loop w_f32 _ _ _ _).
Qed.

(** ** Witnesses *)

Definition uuid0 : Uuid :=
  ((x00, x01, x02, x03), (x04, x05, x06, x07), (x08, x09, x0a, x0b), (x0c, x0d, x0e, x0f)).
Definition spec0 : Spec := mkSpec 1 44100 16 I16.
Definition chunk0 : WavChunk Z := mkWavChunk uuid0 3 0 (replicate WAV_CHUNK_PAYLOAD_SIZE (-7)).

Lemma payload_roundtrip_witness :
  let p := replicate WAV_CHUNK_PAYLOAD_SIZE (-7) in
  payload_serialize w_i16 p = concat (map (put w_i16) p) /\
  payload_deserialize w_i16 (payload_serialize w_i16 p ++ [x01]) = Ok (p, [x01]) /\
  is_ok (payload_deserialize w_i16 (take 3 (payload_serialize w_i16 p))) = false.
Proof.
  apply payload_roundtrip; [apply w_prim_ok|reflexivity|vm_compute; reflexivity|].
  apply Nat.ltb_lt. vm_compute. reflexivity.
Defined.

Lemma encode_decode_audio_witness :
  let buf := snd (encode w_i16 (WavChunkMsg chunk0) []) in
  decode w_i16 buf = (Ok (Some (WavChunkMsg chunk0)), buf) /\
  decode w_i16 (snd (decode w_i16 buf)) = decode w_i16 buf.
Proof. apply encode_decode_audio; [apply w_prim_ok|vm_compute; reflexivity]. Defined.

Lemma decode_audio_exact_witness :
  (fst (decode w_i16 [x02]) = Ok (Some Handshake) <->
    wf (w_Audio w_i16) Handshake = true /\ exists rest, [x02] = serialize (w_Audio w_i16) Handshake ++ rest) /\
  snd (decode w_i16 [x02]) = [x02].
Proof. apply decode_audio_exact; [apply w_prim_ok|apply w_prim_sound]. Defined.
