(* ===== verification/AudioSink.v ===== *)
(** * The audio client (backend/audio-client/src/main.rs)

    The sink that cuts recorded samples into chunks, the UDP sink below it, the
    collector actor above it, the ring buffer that feeds the collector, and
    the configuration the threshold and the release count come from. *)
From S2P Require Import Prelude MachineInt Float32 NoiseGate Bincode Audio.
From S2P Require LittleEndian.
Open Scope Z_scope.

(** [std::net::SocketAddr]. *)
Inductive SocketAddr : Type :=
| V4 (ip port : Z)
| V6 (ip port flowinfo scope_id : Z).
#[export] Instance SocketAddr_eq_dec : EqDecision SocketAddr.
Proof. solve_decision. Defined.
#[export] Instance SocketAddr_countable : Countable SocketAddr.
Proof.
  apply (inj_countable'
    (fun a => match a with V4 i p => inl (i, p) | V6 i p f s => inr (i, p, f, s) end)
    (fun s => match s with inl (i, p) => V4 i p | inr (i, p, f, s) => V6 i p f s end)).
  by intros [].
Defined.

Section Client.
Context `{U : UuidOps} {P : Profile}.

(** The successive results of [Uuid::new_v4] in the process. *)
Context (new_v4 : nat -> Uuid).

(** ** The sinks *)

(** [trait AudioSinkWrite]: the item is given back when the buffer is full. *)
Class AudioSinkWrite (T D : Type) := audio_write : D -> Audio T -> option (Audio T) * D.

(** [actix::io::SinkWrite::write], with the same convention. *)
Class SinkWrite (Item D : Type) := sink_write : D -> Item -> option Item * D.

Record UdpSink (D : Type) : Type := mkUdpSink {
  udp_server_address : SocketAddr;
  udp_sink : D;
}.

#[global] Instance udp_audio_sink_write {T D} `{SinkWrite (Audio T * SocketAddr) D} :
    AudioSinkWrite T (UdpSink D) := fun s item =>
  let (back, d) := sink_write (udp_sink _ s) (item, udp_server_address _ s) in
  (fst <$> back, mkUdpSink _ (udp_server_address _ s) d).

(** [uuids] counts the calls of [Uuid::new_v4] made so far. *)
Record AudioSink (T D : Type) : Type := mkAudioSink {
  inner : D;
  secret : Z;
  spec : Spec;
  buf : WavChunkPayload T;
  buf_pos : nat;
  buf_id_seq : Uuid * Z;
  first_payload_ignored : bool;
  uuids : nat;
}.
#[global] Arguments mkAudioSink {_ _}.
#[global] Arguments inner {_ _}.
#[global] Arguments secret {_ _}.
#[global] Arguments spec {_ _}.
#[global] Arguments buf {_ _}.
#[global] Arguments buf_pos {_ _}.
#[global] Arguments buf_id_seq {_ _}.
#[global] Arguments first_payload_ignored {_ _}.
#[global] Arguments uuids {_ _}.

Section Sink.
Context {T D : Type} `{Default T} `{AudioSinkWrite T D}.

Definition sink_new (d : D) (sec : Z) (sp : Spec) (n : nat) : AudioSink T D :=
  mkAudioSink d sec sp payload_default 0 (new_v4 n, 0) false (S n).

(** The result of the write is only logged. *)
Definition write_spec (s : AudioSink T D) : AudioSink T D :=
  let (_, d) := audio_write (inner s) (SpecMsg (secret s) (spec s)) in
  mkAudioSink d (secret s) (spec s) (buf s) (buf_pos s) (buf_id_seq s)
    (first_payload_ignored s) (uuids s).

Definition write_payload (s : AudioSink T D) : option (AudioSink T D) :=
  let (_, d) := audio_write (inner s)
    (WavChunkMsg (mkWavChunk (fst (buf_id_seq s)) (snd (buf_id_seq s))
       (wrap_u 8 (Z.of_nat (buf_pos s))) (buf s))) in
  sq ← arith_u 32 (snd (buf_id_seq s) + 1);
  Some (mkAudioSink d (secret s) (spec s) payload_default 0 (fst (buf_id_seq s), sq)
    (first_payload_ignored s) (uuids s)).

Definition write_eof (s : AudioSink T D) : AudioSink T D :=
  let (_, d) := audio_write (inner s) (WavEnd (fst (buf_id_seq s))) in
  mkAudioSink d (secret s) (spec s) (buf s) (buf_pos s) (new_v4 (uuids s), 0)
    (first_payload_ignored s) (S (uuids s)).

(** Storing outside the array panics. *)
Definition sink_record (s : AudioSink T D) (sample : T) : option (AudioSink T D) :=
  if (buf_pos s <? length (buf s))%nat then
    let s := mkAudioSink (inner s) (secret s) (spec s) (<[buf_pos s := sample]> (buf s))
      (buf_pos s + 1) (buf_id_seq s) (first_payload_ignored s) (uuids s) in
    if (buf_pos s =? WAV_CHUNK_PAYLOAD_SIZE)%nat then write_payload s else Some s
  else None.

Definition sink_end_of_transmission (s : AudioSink T D) : option (AudioSink T D) :=
  if negb (first_payload_ignored s) then
    Some (mkAudioSink (inner s) (secret s) (spec s) (buf s) (buf_pos s) (buf_id_seq s)
      true (uuids s))
  else if negb (buf_pos s =? 0)%nat then
    s ← write_payload s; Some (write_eof s)
  else Some s.

#[global] Instance audio_sink : Sink T (AudioSink T D) := {|
  record := sink_record;
  end_of_transmission := sink_end_of_transmission;
|}.

(** ** The collector actor *)

Record AudioCollector : Type := mkCollector {
  server_address : SocketAddr;
  noise_gate : NoiseGate T;
  sink : AudioSink T D;
}.

(** [Actor::started]. *)
Definition collector_started (c : AudioCollector) : AudioCollector :=
  mkCollector (server_address c) (noise_gate c) (write_spec (sink c)).

(** [StreamHandler<WavChunkPayload<S>>::handle]. *)
Definition collector_handle_payload `{Sample T} (c : AudioCollector) (p : WavChunkPayload T)
    : option AudioCollector :=
  '(g, s) ← process (noise_gate c) p (sink c);
  Some (mkCollector (server_address c) g s).

(** [StreamHandler<WavChunkPayload<S>>::finished]; the actor then stops. *)
Definition collector_finished (c : AudioCollector) : option AudioCollector :=
  s ← sink_end_of_transmission (sink c);
  Some (mkCollector (server_address c) (noise_gate c) s).

(** [StreamHandler<Result<(Audio<S>, SocketAddr), audio::Error>>::handle]. *)
Definition collector_handle_audio {E} (c : AudioCollector)
    (audio : result (Audio T * SocketAddr) E) : AudioCollector :=
  match audio with
  | Ok (audio, req_address) =>
      if bool_decide (req_address <> server_address c) then c
      else match audio with
      | Handshake => mkCollector (server_address c) (noise_gate c) (write_spec (sink c))
      | _ => c
      end
  | Err _ => c
  end.
End Sink.
End Client.

(** ** The ring buffer *)

(** What the client uses of [crossbeam_queue::ArrayQueue], with the queue's
    contents and capacity as the view its documentation is stated in. *)
Class ArrayQueue (T Q : Type) := {
  q_push : Q -> T -> result unit T * Q;
  q_pop : Q -> option T * Q;
  q_len : Q -> nat;
  q_contents : Q -> list T;
  q_capacity : Q -> nat;
}.
Class ArrayQueueLaws (T Q : Type) `{ArrayQueue T Q} : Prop := {
  q_push_ok : forall q x, (length (q_contents q) < q_capacity q)%nat ->
    fst (q_push q x) = Ok tt /\ q_contents (snd (q_push q x)) = q_contents q ++ [x];
  q_push_full : forall q x, (q_capacity q <= length (q_contents q))%nat ->
    fst (q_push q x) = Err x /\ q_contents (snd (q_push q x)) = q_contents q;
  q_push_capacity : forall q x, q_capacity (snd (q_push q x)) = q_capacity q;
  q_pop_spec : forall q,
    fst (q_pop q) = head (q_contents q) /\ q_contents (snd (q_pop q)) = tail (q_contents q);
  q_pop_capacity : forall q, q_capacity (snd (q_pop q)) = q_capacity q;
  q_len_spec : forall q, q_len q = length (q_contents q);
}.

Section Ring.
Context {T Q : Type} `{ArrayQueue T Q} `{Default T}.

(** [write_input_data]: a sample that does not fit is dropped (and logged). *)
Definition write_input_data (samples : list T) (writer : Q) : Q :=
  foldl (fun writer sample =>
    match q_push writer sample with
    | (Ok _, writer) => writer
    | (Err _, writer) => writer
    end) writer samples.

Inductive Poll (A : Type) : Type :=
| Ready (a : A)
| Pending.
Arguments Ready {A} _.
Arguments Pending {A}.

(** The loop that fills the payload at the indices from [i] on; [unwrap] panics
    on an empty queue. *)
Fixpoint fill (n i : nat) (p : WavChunkPayload T) (rx : Q) : option (WavChunkPayload T * Q) :=
  match n with
  | O => Some (p, rx)
  | S n =>
      let (o, rx) := q_pop rx in
      x ← o;
      fill n (i + 1) (<[i := x]> p) rx
  end.

(** The closure of [poll_fn] (the same at the three sample types);
    [waker_alive] is the result of sending the waker to the thread that wakes
    the task up. *)
Definition poll_payload (waker_alive : bool) (rx : Q)
    : option (Poll (option (WavChunkPayload T)) * Q) :=
  if (q_len rx <? WAV_CHUNK_PAYLOAD_SIZE)%nat then
    Some (if waker_alive then Pending else Ready None, rx)
  else
    '(p, rx) ← fill WAV_CHUNK_PAYLOAD_SIZE 0 payload_default rx;
    Some (Ready (Some p), rx).
End Ring.
Arguments Ready {A} _.
Arguments Pending {A}.

(** ** Configuration (main) *)

(** [(sample_rate as f32 * release_time).round() as usize]. *)
Definition config_release_sample_count (sample_rate : Z) (release_time : f32) : Z :=
  f32_as_usize (f32_round (f32_mul (f32_of_Z sample_rate) (f32_value release_time))).

(** [open_threshold as S] at the sample type of the input device. *)
Definition config_threshold (f : CpalFormat) (open_threshold : f32) : Z :=
  match f with
  | CpalF32 => open_threshold
  | CpalI16 => f32_as_i16 (f32_value open_threshold)
  | CpalU16 => f32_as_u16 (f32_value open_threshold)
  end.

(** The default values ["0.1"] and ["0.5"], as [f32] patterns. *)
Definition default_threshold : f32 := 0x3DCCCCCD.
Definition default_release_time : f32 := 0x3F000000.

(** The gate [main] builds. *)
Definition main_gate (f : CpalFormat) (sample_rate : Z) (open_threshold release_time : f32)
    : NoiseGate Z :=
  NoiseGate.new (config_threshold f open_threshold)
    (Z.to_nat (config_release_sample_count sample_rate release_time)).

(** ** Specification: the messages of a transmission *)

(** The sink that keeps every message, in order. *)
#[export] Instance log_write `{UuidOps} {T} : AudioSinkWrite T (list (Audio T)) :=
  fun log a => (None, log ++ [a]).

Section Spec.
Context `{U : UuidOps} {T : Type} `{Default T}.

(** Samples in an array of 512, the rest default values. *)
Definition pad (xs : list T) : WavChunkPayload T :=
  xs ++ replicate (WAV_CHUNK_PAYLOAD_SIZE - length xs) default_value.

(** The [k]-th group of 512 samples, and the number of groups. *)
Definition group (xs : list T) (k : nat) : list T :=
  take WAV_CHUNK_PAYLOAD_SIZE (drop (WAV_CHUNK_PAYLOAD_SIZE * k) xs).
Definition full_groups (xs : list T) : nat := (length xs / WAV_CHUNK_PAYLOAD_SIZE)%nat.
Definition aligned (xs : list T) : bool := (length xs mod WAV_CHUNK_PAYLOAD_SIZE =? 0)%nat.
Definition groups (xs : list T) : nat := (full_groups xs + if aligned xs then 0 else 1)%nat.

(** The chunk of the [k]-th group of the transmission [i] that starts at the
    sequence number [sq]. *)
Definition chunk_of (i : Uuid) (sq : Z) (xs : list T) (k : nat) : Audio T :=
  WavChunkMsg (mkWavChunk i (sq + Z.of_nat k) (wrap_u 8 (Z.of_nat (length (group xs k)))) (pad (group xs k))).

(** The messages a transmission of [xs] sends: its groups in order and then,
    unless the last group is full, the end. *)
Definition packets (i : Uuid) (sq : Z) (xs : list T) : list (Audio T) :=
  map (chunk_of i sq xs) (List.seq 0 (groups xs)) ++ if aligned xs then [] else [WavEnd i].

(** The samples a trace records. *)
Definition recorded (ops : list (sink_op T)) : list T :=
  omap (fun op => match op with Record_ x => Some x | EndOfTransmission => None end) ops.

(** The automaton of a well-formed message stream: the state is the index of
    the current id and the next sequence number. *)
Definition protocol_step (new_v4 : nat -> Uuid) (st : nat * Z) (a : Audio T) : option (nat * Z) :=
  let (n, sq) := st in
  match a with
  | WavChunkMsg c =>
      if bool_decide (id c = new_v4 n) && (Audio.seq c =? sq) then Some (n, sq + 1) else None
  | WavEnd i => if bool_decide (i = new_v4 n) && (0 <? sq) then Some (S n, 0) else None
  | SpecMsg _ _ => Some st
  | Handshake => None
  end.

(** The samples of the chunks of a stream, groups [gs] of at most 512, each
    padded. *)
Definition carries (log : list (Audio T)) (gs : list (list T)) : Prop :=
  omap (fun a => match a with WavChunkMsg c => Some (payload c) | _ => None end) log = map pad gs /\
  Forall (fun g => 0 < length g <= WAV_CHUNK_PAYLOAD_SIZE)%nat gs.
End Spec.

(** ** Lemmas *)

#[local] Arguments WAV_CHUNK_PAYLOAD_SIZE : simpl never.
#[local] Opaque WAV_CHUNK_PAYLOAD_SIZE.

Lemma wav_size_pos : (0 < WAV_CHUNK_PAYLOAD_SIZE)%nat.
Proof. apply Nat.ltb_lt. reflexivity. Qed.

Section SinkLemmas.
Context `{U : UuidOps} {P : Profile} (new_v4 : nat -> Uuid) {T : Type} `{Default T}.
Abbreviation sink_t := (AudioSink T (list (Audio T))).

Lemma length_pad (xs : list T) :
  (length xs <= WAV_CHUNK_PAYLOAD_SIZE)%nat -> length (pad xs) = WAV_CHUNK_PAYLOAD_SIZE.
Proof. intros. unfold pad. rewrite length_app, length_replicate. lia. Qed.

Lemma pad_nil : pad [] = payload_default (T := T).
Proof. unfold pad, payload_default. cbn. by rewrite Nat.sub_0_r. Qed.

Lemma pad_insert (xs : list T) (x : T) :
  (length xs < WAV_CHUNK_PAYLOAD_SIZE)%nat -> <[length xs := x]> (pad xs) = pad (xs ++ [x]).
Proof.
  intros Hlt. unfold pad. rewrite insert_app_r_alt by lia. rewrite Nat.sub_diag, length_app. cbn.
  destruct (WAV_CHUNK_PAYLOAD_SIZE - length xs)%nat as [|m] eqn:E; [lia|].
  cbn. rewrite <- app_assoc. cbn. do 3 f_equal. lia.
Qed.

(** The buffer holds the samples [pend], fewer than 512 of them. *)
Definition holds {D} (s : AudioSink T D) (pend : list T) : Prop :=
  buf s = pad pend /\ buf_pos s = length pend /\ (length pend < WAV_CHUNK_PAYLOAD_SIZE)%nat.

(** The state after the chunk of [pend] is sent. *)
Definition sent (s : sink_t) (pend : list T) : sink_t :=
  mkAudioSink (inner s ++ [WavChunkMsg (mkWavChunk (fst (buf_id_seq s)) (snd (buf_id_seq s))
      (wrap_u 8 (Z.of_nat (length pend))) (pad pend))])
    (secret s) (spec s) payload_default 0 (fst (buf_id_seq s), snd (buf_id_seq s) + 1)
    (first_payload_ignored s) (uuids s).

(** The state with the samples [pend] in the buffer. *)
Definition buffered (s : sink_t) (pend : list T) : sink_t :=
  mkAudioSink (inner s) (secret s) (spec s) (pad pend) (length pend)
    (buf_id_seq s) (first_payload_ignored s) (uuids s).

Lemma write_payload_spec (s : sink_t) (pend : list T) :
  buf s = pad pend -> buf_pos s = length pend -> 0 <= snd (buf_id_seq s) < 2 ^ 32 - 1 ->
  write_payload s = Some (sent s pend).
Proof.
  intros Hbuf Hpos Hsq. unfold write_payload, sent. rewrite Hbuf, Hpos. cbn.
  by rewrite arith_u_fits by lia.
Qed.

Lemma holds_sent (s : sink_t) (pend : list T) : holds (sent s pend) [].
Proof. unfold holds. split_and!; [by rewrite pad_nil|done|apply wav_size_pos]. Qed.

Lemma record_spec (s : sink_t) (pend : list T) (x : T) :
  holds s pend -> 0 <= snd (buf_id_seq s) ->
  (length (pend ++ [x]) = WAV_CHUNK_PAYLOAD_SIZE -> snd (buf_id_seq s) < 2 ^ 32 - 1) ->
  sink_record s x = Some (
    if (length (pend ++ [x]) =? WAV_CHUNK_PAYLOAD_SIZE)%nat
    then sent (buffered s (pend ++ [x])) (pend ++ [x]) else buffered s (pend ++ [x])).
Proof.
  intros (Hbuf & Hpos & Hlt) Hsq0 Hsq. unfold sink_record.
  rewrite Hbuf, Hpos, length_pad by lia.
  destruct (Nat.ltb_spec (length pend) WAV_CHUNK_PAYLOAD_SIZE); [|lia].
  rewrite pad_insert by done. cbv zeta. cbn [buf_pos].
  replace (length pend + 1)%nat with (length (pend ++ [x])) by (rewrite length_app; cbn; lia).
  destruct (Nat.eqb_spec (length (pend ++ [x])) WAV_CHUNK_PAYLOAD_SIZE) as [Heq|Hne]; [|done].
  specialize (Hsq Heq). by rewrite (write_payload_spec _ (pend ++ [x])).
Qed.

Lemma end_spec (s : sink_t) (pend : list T) :
  holds s pend -> 0 <= snd (buf_id_seq s) ->
  (length pend <> 0%nat -> snd (buf_id_seq s) < 2 ^ 32 - 1) -> first_payload_ignored s = true ->
  sink_end_of_transmission new_v4 s = Some (
    if (length pend =? 0)%nat then s else write_eof new_v4 (sent s pend)).
Proof.
  intros (Hbuf & Hpos & Hlt) Hsq0 Hsq Hflag. unfold sink_end_of_transmission.
  rewrite Hflag, Hpos. cbn [negb].
  destruct (Nat.eqb_spec (length pend) 0) as [Heq|Hne]; cbn [negb]; [done|]. specialize (Hsq Hne).
  by rewrite (write_payload_spec s pend).
Qed.

(** *** Groups *)

Lemma group_snoc (xs : list T) (x : T) (k : nat) :
  (k < full_groups xs)%nat -> group (xs ++ [x]) k = group xs k.
Proof.
  unfold full_groups, group. intros Hk. pose proof wav_size_pos as Hp.
  pose proof (Nat.div_mod_eq (length xs) WAV_CHUNK_PAYLOAD_SIZE).
  assert (WAV_CHUNK_PAYLOAD_SIZE * k + WAV_CHUNK_PAYLOAD_SIZE <= length xs)%nat by nia.
  rewrite drop_app_le by lia. rewrite take_app_le by (rewrite length_drop; lia). done.
Qed.

(** The samples after the full groups. *)
Definition rest_of (xs : list T) : list T := drop (WAV_CHUNK_PAYLOAD_SIZE * full_groups xs) xs.

Lemma length_rest_of (xs : list T) : length (rest_of xs) = (length xs mod WAV_CHUNK_PAYLOAD_SIZE)%nat.
Proof.
  unfold rest_of, full_groups. rewrite length_drop.
  pose proof (Nat.div_mod_eq (length xs) WAV_CHUNK_PAYLOAD_SIZE). lia.
Qed.

Lemma rest_of_lt (xs : list T) : (length (rest_of xs) < WAV_CHUNK_PAYLOAD_SIZE)%nat.
Proof. rewrite length_rest_of. apply Nat.mod_upper_bound. pose proof wav_size_pos. lia. Qed.

Lemma rest_of_group (xs : list T) : group xs (full_groups xs) = rest_of xs.
Proof. unfold group. fold (rest_of xs). apply take_ge. pose proof (rest_of_lt xs). lia. Qed.

Lemma chunk_of_rest (i : Uuid) (sq : Z) (xs : list T) :
  chunk_of i sq xs (full_groups xs) =
    WavChunkMsg (mkWavChunk i (sq + Z.of_nat (full_groups xs))
      (wrap_u 8 (Z.of_nat (length (rest_of xs)))) (pad (rest_of xs))).
Proof. unfold chunk_of. by rewrite rest_of_group. Qed.

Lemma rest_of_snoc (xs : list T) (x : T) :
  if (length (rest_of xs ++ [x]) =? WAV_CHUNK_PAYLOAD_SIZE)%nat
  then full_groups (xs ++ [x]) = S (full_groups xs) /\ rest_of (xs ++ [x]) = [] /\
       group (xs ++ [x]) (full_groups xs) = rest_of xs ++ [x]
  else full_groups (xs ++ [x]) = full_groups xs /\ rest_of (xs ++ [x]) = rest_of xs ++ [x].
Proof.
  pose proof wav_size_pos as Hp. pose proof (rest_of_lt xs) as Hlt.
  pose proof (length_rest_of xs) as Hlen.
  pose proof (Nat.div_mod_eq (length xs) WAV_CHUNK_PAYLOAD_SIZE) as Hdm.
  fold (full_groups xs) in Hdm. rewrite <- Hlen in Hdm.
  assert (drop (WAV_CHUNK_PAYLOAD_SIZE * full_groups xs) (xs ++ [x]) = rest_of xs ++ [x]) as Hdrop.
  { unfold rest_of. rewrite drop_app_le by lia. done. }
  rewrite length_app. cbn [length].
  destruct (Nat.eqb_spec (length (rest_of xs) + 1) WAV_CHUNK_PAYLOAD_SIZE) as [Heq|Hne].
  - assert (full_groups (xs ++ [x]) = S (full_groups xs)) as Hf.
    { unfold full_groups at 1. rewrite length_app. cbn [length].
      symmetry. apply (Nat.div_unique _ _ _ 0); lia. }
    split; [done|]. split.
    + unfold rest_of. rewrite Hf. apply drop_ge. rewrite length_app. cbn [length]. lia.
    + unfold group. rewrite Hdrop. apply take_ge. rewrite length_app. cbn. lia.
  - assert (full_groups (xs ++ [x]) = full_groups xs) as Hf.
    { unfold full_groups at 1. rewrite length_app. cbn [length].
      symmetry. apply (Nat.div_unique _ _ _ (length (rest_of xs) + 1)); lia. }
    split; [done|]. unfold rest_of at 1. by rewrite Hf.
Qed.

(** *** Recording a stretch of samples *)

Lemma replay_record_app {D} `{Sink T D} (d : D) (xs : list T) (ops : list (sink_op T)) :
  replay d (map Record_ xs ++ ops) = (d ← foldM record d xs; replay d ops).
Proof.
  revert d. induction xs as [|x xs IH]; intros d; [done|]. cbn.
  destruct (record d x); cbn; [apply IH|done].
Qed.

Lemma full_groups_snoc_le (xs : list T) (x : T) : (full_groups xs <= full_groups (xs ++ [x]))%nat.
Proof.
  pose proof (rest_of_snoc xs x). destruct (_ =? _)%nat; lia.
Qed.

Lemma full_groups_nil : full_groups ([] : list T) = 0%nat.
Proof. apply Nat.Div0.div_0_l. Qed.

Lemma rest_of_nil : rest_of ([] : list T) = [].
Proof. apply drop_nil. Qed.

(** From an empty buffer, recording sends the full groups and keeps the
    rest. *)
Definition after_record (s : sink_t) (xs : list T) (i : Uuid) (sq : Z) : sink_t :=
  mkAudioSink
    (inner s ++ map (chunk_of i sq xs) (List.seq 0 (full_groups xs)))
    (secret s) (spec s) (pad (rest_of xs)) (length (rest_of xs))
    (i, sq + Z.of_nat (full_groups xs)) (first_payload_ignored s) (uuids s).

Lemma holds_after_record (s : sink_t) (xs : list T) (i : Uuid) (sq : Z) :
  holds (after_record s xs i sq) (rest_of xs).
Proof. split; [done|split; [done|apply rest_of_lt]]. Qed.

Lemma chunks_snoc (xs : list T) (x : T) (i : Uuid) (sq : Z) :
  map (chunk_of i sq (xs ++ [x])) (List.seq 0 (full_groups xs)) =
  map (chunk_of i sq xs) (List.seq 0 (full_groups xs)).
Proof.
  apply map_ext_in. intros k [_ Hk]%in_seq. unfold chunk_of. rewrite !group_snoc by lia. done.
Qed.

Lemma after_record_snoc (s : sink_t) (xs : list T) (x : T) (i : Uuid) (sq : Z) :
  after_record s (xs ++ [x]) i sq =
    let s1 := buffered (after_record s xs i sq) (rest_of xs ++ [x]) in
    if (length (rest_of xs ++ [x]) =? WAV_CHUNK_PAYLOAD_SIZE)%nat
    then sent s1 (rest_of xs ++ [x]) else s1.
Proof.
  pose proof (rest_of_snoc xs x) as Hr. cbv zeta. unfold after_record at 1.
  destruct (length (rest_of xs ++ [x]) =? WAV_CHUNK_PAYLOAD_SIZE)%nat.
  - destruct Hr as (Hf & Hrest & Hg).
    rewrite Hf, Hrest, List.seq_S, map_app, chunks_snoc, app_assoc, pad_nil, Nat2Z.inj_succ, Z.add_succ_r.
    cbn [map Nat.add length]. unfold chunk_of at 2. by rewrite Hg.
  - destruct Hr as (Hf & Hrest). by rewrite Hf, Hrest, chunks_snoc.
Qed.

Lemma record_all (s : sink_t) (xs : list T) (i : Uuid) (sq : Z) :
  holds s [] -> buf_id_seq s = (i, sq) -> 0 <= sq ->
  sq + Z.of_nat (full_groups xs) < 2 ^ 32 ->
  foldM sink_record s xs = Some (after_record s xs i sq).
Proof.
  intros Hs Hid Hsq. induction xs as [|x xs IH] using rev_ind; intros Hb.
  - cbn [foldM]. unfold after_record. rewrite full_groups_nil, rest_of_nil.
    destruct s, Hs as (Hbuf & Hpos & _). cbn [buf buf_pos buf_id_seq] in *. subst.
    cbn [List.seq map inner]. by rewrite app_nil_r, Z.add_0_r.
  - pose proof (full_groups_snoc_le xs x). pose proof (rest_of_snoc xs x) as Hr.
    rewrite (foldM_snoc_Some _ _ _ _ _ (IH ltac:(lia))), after_record_snoc.
    apply (record_spec _ (rest_of xs) x (holds_after_record s xs i sq));
      cbn [after_record buf_id_seq snd]; [lia|].
    intros Heq. rewrite Heq, Nat.eqb_refl in Hr. lia.
Qed.

(** *** Any trace of operations *)

(** After the operations [ops] from a new sink whose first id is [new_v4 n0]:
    the messages carry all recorded samples but those in the buffer, and are
    accepted by the protocol automaton. *)
Definition stream_inv (n0 : nat) (ops : list (sink_op T)) (s : sink_t) : Prop :=
  exists gs pend n sq,
    recorded ops = concat gs ++ pend /\ carries (inner s) gs /\ holds s pend /\
    foldM (protocol_step new_v4) (n0, 0) (inner s) = Some (n, sq) /\
    buf_id_seq s = (new_v4 n, sq) /\ uuids s = S n /\ 0 <= sq <= Z.of_nat (length ops).

(** The seven parts of the invariant. *)
Ltac inv_parts := refine (conj _ (conj _ (conj _ (conj _ (conj _ (conj _ _)))))).

Lemma stream_inv_sent (n0 n : nat) (s : sink_t) (gs : list (list T)) (pend : list T) (sq : Z) :
  carries (inner s) gs -> (0 < length pend <= WAV_CHUNK_PAYLOAD_SIZE)%nat ->
  foldM (protocol_step new_v4) (n0, 0) (inner s) = Some (n, sq) ->
  buf_id_seq s = (new_v4 n, sq) ->
  carries (inner (sent s pend)) (gs ++ [pend]) /\
  foldM (protocol_step new_v4) (n0, 0) (inner (sent s pend)) = Some (n, sq + 1) /\
  buf_id_seq (sent s pend) = (new_v4 n, sq + 1).
Proof.
  intros [Hpl Hsz] Hlen Hrun Hid. unfold sent. rewrite Hid. cbn [inner buf_id_seq fst snd].
  split_and!; [split| |done].
  - by rewrite omap_app, Hpl, map_app.
  - apply Forall_app. auto.
  - rewrite foldM_app, Hrun. cbn. rewrite Z.eqb_refl. by case_bool_decide.
Qed.

Lemma recorded_snoc (ops : list (sink_op T)) (op : sink_op T) :
  recorded (ops ++ [op]) = recorded ops ++ match op with Record_ x => [x] | EndOfTransmission => [] end.
Proof. unfold recorded. rewrite omap_app. by destruct op. Qed.

Lemma stream_inv_record (n0 : nat) (ops : list (sink_op T)) (s : sink_t) (x : T) :
  stream_inv n0 ops s -> Z.of_nat (length ops) < 2 ^ 32 - 1 ->
  exists s', sink_record s x = Some s' /\ stream_inv n0 (ops ++ [Record_ x]) s'.
Proof.
  intros (gs & pend & n & sq & Hrec & Hc & Hh & Hrun & Hid & Hu & Hsq) Hb.
  rewrite (record_spec s pend x Hh) by (rewrite Hid; cbn; lia).
  eexists. split; [done|].
  set (s1 := buffered s (pend ++ [x])).
  unfold stream_inv. rewrite recorded_snoc, (length_app ops), Hrec. cbn [length].
  destruct (Nat.eqb_spec (length (pend ++ [x])) WAV_CHUNK_PAYLOAD_SIZE) as [He|Hne].
  - destruct (stream_inv_sent n0 n s1 gs (pend ++ [x]) sq) as (Hc' & Hrun' & Hid'); try done.
    { rewrite He. pose proof wav_size_pos. lia. }
    exists (gs ++ [pend ++ [x]]), [], n, (sq + 1). inv_parts; try done; [|apply holds_sent|lia].
    rewrite concat_app. cbn. by rewrite !app_nil_r, app_assoc.
  - exists gs, (pend ++ [x]), n, sq. destruct Hh as (_ & _ & Hlt).
    rewrite length_app in Hne. cbn in Hne.
    inv_parts; try done; [by rewrite app_assoc| |lia].
    split; [done|split; [done|rewrite length_app; cbn; lia]].
Qed.

Lemma stream_inv_end (n0 : nat) (ops : list (sink_op T)) (s : sink_t) :
  stream_inv n0 ops s -> Z.of_nat (length ops) < 2 ^ 32 - 1 ->
  exists s', sink_end_of_transmission new_v4 s = Some s' /\
    stream_inv n0 (ops ++ [EndOfTransmission]) s'.
Proof.
  intros (gs & pend & n & sq & Hrec & Hc & Hh & Hrun & Hid & Hu & Hsq) Hb.
  unfold stream_inv. rewrite recorded_snoc, length_app, Hrec, app_nil_r. cbn [length].
  destruct (first_payload_ignored s) eqn:Hflag.
  - rewrite (end_spec s pend Hh) by (rewrite ?Hid; cbn; done || lia).
    destruct (Nat.eqb_spec (length pend) 0) as [He|Hne].
    + exists s. split; [done|]. exists gs, pend, n, sq. inv_parts; try done; lia.
    + destruct Hh as (_ & _ & Hlt).
      destruct (stream_inv_sent n0 n s gs pend sq) as ((Hpl & Hsz) & Hrun' & Hid'); try done; [lia|].
      eexists. split; [done|]. exists (gs ++ [pend]), [], (S n), 0.
      unfold write_eof. rewrite Hid'. cbn [fst]. unfold audio_write, log_write. cbn [inner uuids].
      change (uuids (sent s pend)) with (uuids s). rewrite Hu.
      inv_parts; try done; [| | | |lia].
      * rewrite concat_app. cbn. by rewrite !app_nil_r.
      * split; [|done]. by rewrite omap_app, Hpl, app_nil_r.
      * apply (holds_sent s pend).
      * rewrite foldM_app, Hrun'. cbn. rewrite bool_decide_true by done.
        destruct (Z.ltb_spec 0 (sq + 1)); [done|lia].
  - unfold sink_end_of_transmission. rewrite Hflag. cbn [negb]. eexists. split; [done|].
    exists gs, pend, n, sq. inv_parts; try done; lia.
Qed.

Lemma stream_inv_all (n0 : nat) (ops : list (sink_op T)) (sec : Z) (sp : Spec) :
  Z.of_nat (length ops) < 2 ^ 32 - 1 ->
  exists s, @replay T _ (audio_sink new_v4) (sink_new new_v4 [] sec sp n0) ops = Some s /\
    stream_inv n0 ops s.
Proof.
  induction ops as [|op ops IH] using rev_ind; intros Hb.
  - eexists. split; [done|]. exists [], [], n0, 0. cbn.
    inv_parts; try done.
    split; [by rewrite pad_nil|split; [done|apply wav_size_pos]].
  - rewrite length_app in Hb. cbn in Hb. destruct IH as (s & Hrun & Hinv); [lia|].
    unfold replay. rewrite foldM_app. unfold replay in Hrun. rewrite Hrun. cbn [mbind option_bind foldM].
    destruct op as [x|]; cbn [apply_op record end_of_transmission audio_sink].
    + destruct (stream_inv_record n0 ops s x Hinv) as (s' & -> & Hinv'); [lia|]. by exists s'.
    + destruct (stream_inv_end n0 ops s Hinv) as (s' & -> & Hinv'); [lia|]. by exists s'.
Qed.
End SinkLemmas.

Section RingLemmas.
Context {T Q : Type} `{QL : ArrayQueueLaws T Q} `{Default T}.

Lemma fill_ok (n i : nat) (p : WavChunkPayload T) (rx : Q) :
  (n <= length (q_contents rx))%nat -> (i + n <= length p)%nat ->
  exists rx', fill n i p rx =
    Some (take i p ++ take n (q_contents rx) ++ drop (i + n) p, rx') /\
    q_contents rx' = drop n (q_contents rx) /\ q_capacity rx' = q_capacity rx.
Proof.
  revert i p rx. induction n as [|n IH]; intros i p rx Hn Hi.
  { exists rx. rewrite Nat.add_0_r, take_0, drop_0, app_nil_l, take_drop. done. }
  cbn [fill]. destruct (q_pop_spec rx) as [Ho Hrest]. pose proof (q_pop_capacity rx) as Hcap.
  destruct (q_pop rx) as [o rx1]. cbn [fst snd] in *. subst o.
  destruct (q_contents rx) as [|x xs] eqn:E; [cbn in Hn; lia|]. cbn [head tail] in *.
  cbn [mbind option_bind]. cbn [length] in Hn.
  destruct (IH (i + 1)%nat (<[i:=x]> p) rx1) as (rx' & Hfill & Hc & Hcap');
    [rewrite Hrest; lia|rewrite length_insert; lia|].
  exists rx'. rewrite Hfill, Hc, Hcap', Hrest. split; [|by split; [|congruence]].
  f_equal. f_equal. replace (i + 1)%nat with (S i) by lia.
  rewrite (take_S_r _ i x) by (apply list_lookup_insert_eq; lia).
  rewrite take_insert_ge, drop_insert_lt by lia. cbn [take].
  rewrite <- app_assoc. cbn. do 4 f_equal. lia.
Qed.

Lemma write_input_data_spec (samples : list T) (q : Q) :
  (length (q_contents q) <= q_capacity q)%nat ->
  q_contents (write_input_data samples q) =
    q_contents q ++ take (q_capacity q - length (q_contents q)) samples.
Proof.
  revert q. induction samples as [|x xs IH]; intros q Hq; cbn [write_input_data foldl].
  { by rewrite take_nil, app_nil_r. }
  pose proof (q_push_capacity q x) as Hcap.
  destruct (decide (length (q_contents q) < q_capacity q)%nat) as [Hlt|Hge].
  - destruct (q_push_ok q x Hlt) as [Hok Hc]. destruct (q_push q x) as [r q1]. cbn [fst snd] in *.
    subst r. fold (write_input_data xs q1). rewrite IH; rewrite ?Hc, ?Hcap, ?length_app; cbn [length]; [|lia].
    destruct (q_capacity q - length (q_contents q))%nat as [|m] eqn:E; [lia|].
    rewrite <- app_assoc. cbn. do 3 f_equal. lia.
  - destruct (q_push_full q x ltac:(lia)) as [Herr Hc]. destruct (q_push q x) as [r q1]. cbn [fst snd] in *.
    subst r. fold (write_input_data xs q1). rewrite IH; rewrite ?Hc, ?Hcap; [|lia].
    by replace (q_capacity q - length (q_contents q))%nat with 0%nat by lia.
Qed.
End RingLemmas.

(** A gate whose threshold nothing is below records everything. *)
Lemma process_never_below {T} `{HS : Sample T} (thr : T) (release : nat) (xs : list T) :
  (forall x, below_threshold x thr = Some false) ->
  forall tr st, exists st', process (mkNoiseGate thr release st) xs tr =
    Some (mkNoiseGate thr release st', tr ++ map Record_ xs).
Proof.
  intros Hb. induction xs as [|x xs IH]; intros tr st.
  { exists st. cbn. by rewrite app_nil_r. }
  assert (next_state (mkNoiseGate thr release st) x = Some (mkNoiseGate thr release Open)) as Hn.
  { unfold next_state. cbn. destruct st; by rewrite Hb. }
  cbn [process]. rewrite Hn. cbn. destruct (IH (tr ++ [Record_ x]) Open) as (st' & Hp).
  exists st'. rewrite Hp. by rewrite <- app_assoc.
Qed.

Lemma config_threshold_below_one (open_threshold : f32) (s : bool) (m : positive) (e : Z) :
  f32_value open_threshold = S754_finite s m e -> e < 0 -> Zpos m < 2 ^ (- e) ->
  config_threshold CpalI16 open_threshold = 0 /\ config_threshold CpalU16 open_threshold = 0.
Proof.
  intros Hv He Hm. cbn. unfold f32_as_i16, f32_as_u16. rewrite Hv.
  rewrite !f32_as_int_below_one by (done || unfold i16_MIN, i16_MAX; lia). done.
Qed.

(** ** One transmission *)

Lemma replay_transmission `{U : UuidOps} `{P : Profile} (new_v4 : nat -> Uuid)
    {T} `{Default T} (s : AudioSink T (list (Audio T))) (xs : list T) (i : Uuid) (sq : Z)
    (Hs : holds s []) (Hfirst : first_payload_ignored s = true)
    (Hid : buf_id_seq s = (i, sq)) (Hsq : 0 <= sq) (Hb : sq + Z.of_nat (groups xs) < 2 ^ 32) :
  @replay T _ (audio_sink new_v4) s (map Record_ xs ++ [EndOfTransmission]) =
  Some (mkAudioSink (inner s ++ packets i sq xs) (secret s) (spec s) payload_default 0
    (if aligned xs then (i, sq + Z.of_nat (groups xs)) else (new_v4 (uuids s), 0)) true
    (if aligned xs then uuids s else S (uuids s))).
Proof.
  rewrite (@replay_record_app T _ (audio_sink new_v4)). cbn [record audio_sink].
  unfold groups in Hb. rewrite (record_all s xs i sq) by (done || lia).
  cbn [mbind option_bind]. unfold replay. cbn [foldM apply_op end_of_transmission audio_sink].
  set (s1 := after_record s xs i sq). pose proof (holds_after_record s xs i sq) as Hh. fold s1 in Hh.
  pose proof (length_rest_of xs) as Hr. unfold packets, groups, aligned in *. rewrite <- Hr in *.
  rewrite (end_spec new_v4 s1 (rest_of xs) Hh); [|cbn; lia| |done].
  2:{ intros Hne. apply Nat.eqb_neq in Hne. rewrite Hne in Hb. cbn. lia. }
  cbn [mbind option_bind]. f_equal.
  destruct (length (rest_of xs) =? 0)%nat eqn:E.
  - apply Nat.eqb_eq in E. unfold s1, after_record. rewrite E, (nil_length_inv _ E), Hfirst, pad_nil, !app_nil_r, !Nat.add_0_r.
    done.
  - unfold write_eof, sent, audio_write, log_write, s1, after_record.
    cbn [inner secret spec buf buf_pos buf_id_seq first_payload_ignored uuids fst snd].
    rewrite Nat.add_1_r, List.seq_S, map_app, Hfirst, <- !app_assoc. cbn [map app Nat.add].
    by rewrite chunk_of_rest.
Qed.

(** ** Properties *)

(** C19: what one transmission sends. From a sink with an empty buffer, whose
    first end of transmission has passed, recording [xs] and ending the
    transmission writes exactly the packets of [xs]: its groups of 512 in order
    under one id with consecutive sequence numbers, the last one padded, and
    the end of that id, after which a fresh id starts at sequence number 0. When
    the number of samples is a multiple of 512 the end is not written, and the
    id and the sequence number go on to the next transmission. *)
Theorem transmission_sends_packets `{U : UuidOps} `{P : Profile} (new_v4 : nat -> Uuid)
    {T} `{Default T} (s : AudioSink T (list (Audio T))) (xs : list T) (i : Uuid) (sq : Z)
    (Hs : holds s []) (Hfirst : first_payload_ignored s = true)
    (Hid : buf_id_seq s = (i, sq)) (Hsq : 0 <= sq) (Hb : sq + Z.of_nat (groups xs) < 2 ^ 32) :
  @replay T _ (audio_sink new_v4) s (map Record_ xs ++ [EndOfTransmission]) =
  Some (mkAudioSink (inner s ++ packets i sq xs) (secret s) (spec s) payload_default 0
    (if aligned xs then (i, sq + Z.of_nat (groups xs)) else (new_v4 (uuids s), 0)) true
    (if aligned xs then uuids s else S (uuids s))).
Proof. by apply replay_transmission. Qed.

(** C7: whatever is recorded and wherever transmissions end, a new sink never
    panics before the sequence number could overflow, loses no sample and
    reorders none: the groups its chunks carry, followed by the samples still
    in the buffer, are the recorded samples; and the messages are accepted by
    the protocol automaton (consecutive sequence numbers under the current id,
    an end only after a chunk, then the next fresh id). *)
Theorem stream_lossless_wellformed `{U : UuidOps} `{P : Profile} (new_v4 : nat -> Uuid)
    {T} `{Default T} (ops : list (sink_op T)) (sec : Z) (sp : Spec) (n0 : nat)
    (Hb : Z.of_nat (length ops) < 2 ^ 32 - 1) :
  exists s gs pend n sq,
    @replay T _ (audio_sink new_v4) (sink_new new_v4 [] sec sp n0) ops = Some s /\
    recorded ops = concat gs ++ pend /\ carries (inner s) gs /\ holds s pend /\
    foldM (protocol_step new_v4) (n0, 0) (inner s) = Some (n, sq) /\
    buf_id_seq s = (new_v4 n, sq).
Proof.
  destruct (stream_inv_all new_v4 n0 ops sec sp Hb) as (s & Hrun & gs & pend & n & sq & Hinv).
  exists s, gs, pend, n, sq. split; [done|]. tauto.
Qed.

(** The first recording is not ignored but merged into the second. The
    first end of transmission of a new sink writes nothing and leaves the
    buffer, the id and the sequence number as they are, so the first two
    recordings [xs] and [ys] are sent as the one transmission [xs ++ ys]. *)
Lemma first_recording_merged `{U : UuidOps} `{P : Profile} (new_v4 : nat -> Uuid)
    {T} `{Default T} (sec : Z) (sp : Spec) (n0 : nat) (xs ys : list T)
    (Hb : Z.of_nat (groups (xs ++ ys)) < 2 ^ 32) :
  inner <$> @replay T _ (audio_sink new_v4) (sink_new new_v4 [] sec sp n0)
    ((map Record_ xs ++ [EndOfTransmission]) ++ map Record_ ys ++ [EndOfTransmission]) =
  Some (packets (new_v4 n0) 0 (xs ++ ys)).
Proof.
  set (s0 := sink_new new_v4 [] sec sp n0).
  set (s0' := mkAudioSink (inner s0) (secret s0) (spec s0) (buf s0) (buf_pos s0) (buf_id_seq s0) true (uuids s0)).
  assert (full_groups xs <= groups (xs ++ ys))%nat as Hle.
  { unfold groups, full_groups. rewrite length_app.
    pose proof (Nat.Div0.div_le_mono (length xs) (length xs + length ys) WAV_CHUNK_PAYLOAD_SIZE). lia. }
  assert (holds s0 []) as Hh by (split; [by rewrite pad_nil|split; [done|apply wav_size_pos]]).
  pose proof (transmission_sends_packets new_v4 s0' (xs ++ ys) (new_v4 n0) 0 Hh eq_refl eq_refl) as Ht.
  specialize (Ht ltac:(lia) ltac:(lia)).
  rewrite map_app, <- app_assoc, (@replay_record_app T _ (audio_sink new_v4)) in Ht.
  cbn [record audio_sink] in Ht.
  rewrite (record_all s0' xs (new_v4 n0) 0 Hh eq_refl) in Ht by lia. cbn [mbind option_bind] in Ht.
  rewrite <- app_assoc, (@replay_record_app T _ (audio_sink new_v4)). cbn [record audio_sink].
  rewrite (record_all s0 xs (new_v4 n0) 0 Hh eq_refl) by lia. cbn [mbind option_bind].
  unfold replay at 1. cbn [app foldM apply_op end_of_transmission audio_sink].
  unfold sink_end_of_transmission at 1, after_record.
  cbn [first_payload_ignored negb mbind option_bind s0 sink_new inner secret spec buf buf_pos buf_id_seq uuids].
  unfold replay in Ht. unfold s0', s0, sink_new, after_record in Ht.
  cbn [inner secret spec buf buf_pos buf_id_seq uuids first_payload_ignored] in Ht.
  by rewrite Ht.
Qed.

(** The ring buffer hands samples over in order. A call of the audio
    callback appends the samples that fit and drops the rest; a poll with at
    least 512 samples in the queue never panics, and returns exactly the first
    512 and leaves the others; with fewer it takes nothing. *)
Lemma ring_fifo {T Q} `{QL : ArrayQueueLaws T Q} `{Default T} (samples : list T) (q : Q)
    (alive : bool) (Hcap : (length (q_contents q) <= q_capacity q)%nat) :
  let q1 := write_input_data samples q in
  q_contents q1 = q_contents q ++ take (q_capacity q - length (q_contents q)) samples /\
  if (length (q_contents q1) <? WAV_CHUNK_PAYLOAD_SIZE)%nat
  then poll_payload alive q1 = Some (if alive then Pending else Ready None, q1)
  else exists p q2, poll_payload alive q1 = Some (Ready (Some p), q2) /\
    length p = WAV_CHUNK_PAYLOAD_SIZE /\ p ++ q_contents q2 = q_contents q1.
Proof.
  cbv zeta. split; [by apply write_input_data_spec|].
  set (q1 := write_input_data samples q). unfold poll_payload. rewrite q_len_spec.
  destruct (Nat.ltb_spec (length (q_contents q1)) WAV_CHUNK_PAYLOAD_SIZE) as [|Hge]; [done|].
  destruct (fill_ok WAV_CHUNK_PAYLOAD_SIZE 0 payload_default q1 Hge) as (q2 & Hfill & Hc & _).
  { by rewrite length_payload_default. }
  rewrite Hfill. cbn [mbind option_bind]. exists (take WAV_CHUNK_PAYLOAD_SIZE (q_contents q1)), q2.
  rewrite Hc, take_drop, length_take. split; [|split; [lia|done]].
  rewrite (drop_ge payload_default) by (rewrite length_payload_default; lia).
  by rewrite take_0, app_nil_r.
Qed.

(** On a 16-bit input device every threshold of magnitude below one, the
    default 0.1 among them, is truncated to 0, and a threshold of 0 lets every
    sample pass: the gate [main] builds records the whole stream and never ends
    a transmission. (At [u16] this is the release build: a debug build panics at
    the first sample.) *)
Lemma threshold_below_one_always_open (sample_rate : Z) (open_threshold release_time : f32)
    (s : bool) (m : positive) (e : Z) (xs : list Z)
    (Hv : f32_value open_threshold = S754_finite s m e) (He : e < 0) (Hm : Zpos m < 2 ^ (- e)) :
  let gate f := main_gate f sample_rate open_threshold release_time in
  (forall checks, snd <$> @process Z (@sample_i16 checks) _ _ (gate CpalI16) xs [] = Some (map Record_ xs)) /\
  snd <$> @process Z (@sample_u16 false) _ _ (gate CpalU16) xs [] = Some (map Record_ xs) /\
  (xs <> [] -> @process Z (@sample_u16 true) _ _ (gate CpalU16) xs [] = None).
Proof.
  destruct (config_threshold_below_one _ _ _ _ Hv He Hm) as [Hi Hu].
  cbv zeta. unfold main_gate, NoiseGate.new. rewrite Hi, Hu. split_and!.
  - intros checks. edestruct (@process_never_below Z (@sample_i16 checks)) as (st & ->); [|done].
    intros x. rewrite below_threshold_zero_i16. done.
  - edestruct (@process_never_below Z (@sample_u16 false)) as (st & ->); [|done].
    intros x. rewrite below_threshold_zero_u16. done.
  - by destruct xs.
Qed.

(** ** Witnesses *)

Import LittleEndian.Instances.

(** A queue of the documented kind: its contents and its capacity. *)
Definition list_queue : Type := list Z * nat.
#[local] Instance list_queue_ops : ArrayQueue Z list_queue := {|
  q_push q x := if (length (fst q) <? snd q)%nat then (Ok tt, (fst q ++ [x], snd q)) else (Err x, q);
  q_pop q := (head (fst q), (tail (fst q), snd q));
  q_len q := length (fst q);
  q_contents := fst;
  q_capacity := snd;
|}.
#[local] Instance list_queue_laws : ArrayQueueLaws Z list_queue.
Proof.
  split; try done.
  all: intros [l c] x; cbn [q_push q_contents q_capacity list_queue_ops fst snd];
    destruct (Nat.ltb_spec (length l) c); done || lia.
Qed.

Abbreviation uuid_nth := LittleEndian.uuid_nth.
Definition ramp (n : nat) : list Z := map Z.of_nat (List.seq 0 n).

Lemma transmission_sends_packets_witness :
  inner <$> @replay Z _ (@audio_sink LittleEndian.uuid16_ops true uuid_nth Z _ _ log_write)
    (mkAudioSink [] 5 spec0 payload_default 0 (uuid_nth 1, 0) true 2)
    (map Record_ (ramp 600) ++ [EndOfTransmission])
  = Some (packets (uuid_nth 1) 0 (ramp 600)).
Proof.
  refine (f_equal (fmap inner) (@transmission_sends_packets LittleEndian.uuid16_ops true uuid_nth Z _
    (mkAudioSink [] 5 spec0 payload_default 0 (uuid_nth 1, 0) true 2) (ramp 600) (uuid_nth 1) 0
    _ eq_refl eq_refl _ _)); [|lia|reflexivity].
  split; [reflexivity|split; [reflexivity|]]. apply wav_size_pos.
Defined.

Lemma stream_lossless_wellformed_witness :
  exists s gs pend n sq,
    @replay Z _ (@audio_sink LittleEndian.uuid16_ops true uuid_nth Z _ _ log_write)
      (sink_new uuid_nth [] 5 spec0 0) [Record_ 7; EndOfTransmission; Record_ 8; EndOfTransmission; Record_ 9]
      = Some s /\
    recorded [Record_ 7; EndOfTransmission; Record_ 8; EndOfTransmission; Record_ 9] = concat gs ++ pend /\
    carries (inner s) gs /\ holds s pend /\
    foldM (protocol_step uuid_nth) (0%nat, 0) (inner s) = Some (n, sq) /\
    buf_id_seq s = (uuid_nth n, sq).
Proof. apply (@stream_lossless_wellformed LittleEndian.uuid16_ops true uuid_nth Z). reflexivity. Defined.

Lemma first_recording_merged_witness :
  inner <$> @replay Z _ (@audio_sink LittleEndian.uuid16_ops true uuid_nth Z _ _ log_write)
    (sink_new uuid_nth [] 5 spec0 0)
    ((map Record_ [1; 2] ++ [EndOfTransmission]) ++ map Record_ [3] ++ [EndOfTransmission])
  = Some (packets (uuid_nth 0) 0 ([1; 2] ++ [3])).
Proof. apply (@first_recording_merged LittleEndian.uuid16_ops true uuid_nth Z). reflexivity. Defined.

Definition queue0 : list_queue := ([5; 6], 700%nat).
Lemma ring_fifo_witness :
  let q1 := write_input_data (ramp 600) queue0 in
  q_contents q1 = q_contents queue0 ++ take (q_capacity queue0 - length (q_contents queue0)) (ramp 600) /\
  if (length (q_contents q1) <? WAV_CHUNK_PAYLOAD_SIZE)%nat
  then poll_payload true q1 = Some (if true then Pending else Ready None, q1)
  else exists p q2, poll_payload true q1 = Some (Ready (Some p), q2) /\
    length p = WAV_CHUNK_PAYLOAD_SIZE /\ p ++ q_contents q2 = q_contents q1.
Proof. apply (ring_fifo (ramp 600) queue0 true). cbn. lia. Defined.

Lemma threshold_below_one_always_open_witness :
  let gate f := main_gate f 44100 default_threshold default_release_time in
  (forall checks, snd <$> @process Z (@sample_i16 checks) _ _ (gate CpalI16) [0; 3] [] = Some (map Record_ [0; 3])) /\
  snd <$> @process Z (@sample_u16 false) _ _ (gate CpalU16) [0; 3] [] = Some (map Record_ [0; 3]) /\
  ([0; 3] <> [] -> @process Z (@sample_u16 true) _ _ (gate CpalU16) [0; 3] [] = None).
Proof.
  apply (threshold_below_one_always_open 44100 default_threshold default_release_time false 13421773 (-27)
    [0; 3]); reflexivity.
Defined.
