(* ===== verification/AudioClient.v ===== *)
(** * The threads of the audio client (backend/audio-client/src/main.rs, main)

    Three threads share the ring buffer and two channels: the audio callback
    pushes samples; the waker thread takes the waker a poll left in a channel of
    capacity one, sleeps and wakes the collector's task; the executor polls the
    collector and runs [main], which ends them all on an interrupt. The system
    below takes the steps of the threads in any order, one access to a shared
    object at a time. *)
From stdpp Require Import relations.
From S2P Require Import Prelude MachineInt Float32 NoiseGate Bincode Audio AudioSink.
From S2P Require LittleEndian.

(** The waker thread: in [select!], between the receipt of a waker and its
    [wake_by_ref], after [break]. *)
Inductive Thread : Type := Selecting | Sleeping | Ended.

(** [main] after [play]: awaiting the interrupt, after [pause], in
    [waker_thread.join()], in [local_join().await], returned. *)
Inductive Main : Type := Listening | Paused | Joining | LocalJoin | Returned.

Section Client.
Context `{U : UuidOps} {P : Profile} (new_v4 : nat -> Uuid) {T D Q E : Type}
  `{Default T} `{!Sample T} `{!AudioSinkWrite T D} `{!ArrayQueue T Q}.

Abbreviation payload_t := (WavChunkPayload T).
Abbreviation collector_t := (AudioCollector (T := T) (D := D)).

(** The collector's task: not running; in the closure of [poll_fn] before the
    test of the length, with [i] samples of a payload popped, blocked in
    [waker_tx.send]; ended, or panicked. *)
Inductive TaskState : Type :=
| Waiting
| Polling
| Filling (i : nat) (p : payload_t)
| Sending
| Finished
| Panicked.

(** An item of one of the collector's streams. *)
Definition item : Type := payload_t + result (Audio T * SocketAddr) E.

(** [channel] counts the wakers in the channel (they are all the task's),
    [terminate] says that a message is in the other channel, [notified] that
    the task is due to be polled. For the statements, [heard] keeps the samples
    the queue accepted and [handled] the items the collector handled. *)
Record Client : Type := mkClient {
  thread : Thread;
  channel : nat;
  terminate : bool;
  task : TaskState;
  notified : bool;
  main : Main;
  queue : Q;
  collector : collector_t;
  heard : list T;
  handled : list item;
}.

Definition with_thread (s : Client) (th : Thread) (ch : nat) : Client :=
  mkClient th ch (terminate s) (task s) (notified s) (main s) (queue s) (collector s) (heard s) (handled s).
Definition with_task (s : Client) (tk : TaskState) : Client :=
  mkClient (thread s) (channel s) (terminate s) tk (notified s) (main s) (queue s) (collector s) (heard s) (handled s).
Definition with_notified (s : Client) (b : bool) : Client :=
  mkClient (thread s) (channel s) (terminate s) (task s) b (main s) (queue s) (collector s) (heard s) (handled s).
Definition with_main (s : Client) (m : Main) (t : bool) : Client :=
  mkClient (thread s) (channel s) t (task s) (notified s) m (queue s) (collector s) (heard s) (handled s).
Definition with_queue (s : Client) (q : Q) (xs : list T) : Client :=
  mkClient (thread s) (channel s) (terminate s) (task s) (notified s) (main s) q (collector s) xs (handled s).
Definition with_collector (s : Client) (c : collector_t) (i : list item) : Client :=
  mkClient (thread s) (channel s) (terminate s) (task s) (notified s) (main s) (queue s) c (heard s) (handled s ++ i).

(** ** The audio callback *)

(** [write_input_data] pushes sample by sample; [pause] stops the callback. *)
Definition callback_push (x : T) (s : Client) : option Client :=
  match main s with
  | Listening =>
      match q_push (queue s) x with
      | (Ok _, q) => Some (with_queue s q (heard s ++ [x]))
      | (Err _, q) => Some (with_queue s q (heard s))
      end
  | _ => None
  end.

(** ** The waker thread *)

(** [recv(waker_rx)]. *)
Definition thread_receive (s : Client) : option Client :=
  match thread s, channel s with
  | Selecting, S n => Some (with_thread s Sleeping n)
  | _, _ => None
  end.

(** The end of the sleep, [wake_by_ref]. *)
Definition thread_wake (s : Client) : option Client :=
  match thread s with
  | Sleeping => Some (with_notified (with_thread s Selecting (channel s)) true)
  | _ => None
  end.

(** [recv(terminate_rx)]; [drop(waker_rx)] drops the wakers in the channel.
    When both channels are ready, [select!] takes either. *)
Definition thread_terminate (s : Client) : option Client :=
  match thread s, terminate s with
  | Selecting, true => Some (with_main (with_thread s Ended 0) (main s) false)
  | _, _ => None
  end.

(** ** The executor *)

(** The executor is busy while the closure runs, and while [main] blocks in
    [join]. *)
Definition task_at_rest (s : Client) : bool :=
  match task s with Waiting | Finished | Panicked => true | _ => false end.
Definition main_at_await (s : Client) : bool :=
  match main s with Listening | LocalJoin => true | _ => false end.

(** The task is polled because it was woken. *)
Definition poll_start (s : Client) : option Client :=
  match task s with
  | Waiting => if notified s && main_at_await s then Some (with_task (with_notified s false) Polling) else None
  | _ => None
  end.

(** The task is polled because a packet arrived; its stream comes first. *)
Definition poll_packet (a : result (Audio T * SocketAddr) E) (s : Client) : option Client :=
  match task s with
  | Waiting =>
      if main_at_await s then
        Some (with_task (with_notified (with_collector s (collector_handle_audio (collector s) a) [inr a]) false) Polling)
      else None
  | _ => None
  end.

(** The stream ended ([Poll::Ready(None)]): [finished]. *)
Definition stream_end (s : Client) : Client :=
  match collector_finished new_v4 (collector s) with
  | Some c => with_task (with_collector s c []) Finished
  | None => with_task s Panicked
  end.

(** [waker_tx.send(..)]: an error when the receiver was dropped, blocking when
    the channel is full. *)
Definition send_waker (s : Client) : Client :=
  match thread s with
  | Ended => stream_end s
  | _ =>
      match channel s with
      | O => with_task (with_thread s (thread s) 1) Waiting
      | S _ => with_task s Sending
      end
  end.

(** The next step of the closure, or the return from a blocked [send]. A
    payload goes to the collector, and the stream is polled again. *)
Definition poll_step (s : Client) : option Client :=
  match task s with
  | Polling =>
      if (q_len (queue s) <? WAV_CHUNK_PAYLOAD_SIZE)%nat then Some (send_waker s)
      else Some (with_task s (Filling 0 payload_default))
  | Filling i p =>
      if (i <? WAV_CHUNK_PAYLOAD_SIZE)%nat then
        match q_pop (queue s) with
        | (Some x, q) => Some (with_task (with_queue s q (heard s)) (Filling (i + 1) (<[i := x]> p)))
        | (None, _) => Some (with_task s Panicked)
        end
      else
        match collector_handle_payload new_v4 (collector s) p with
        | Some c => Some (with_task (with_collector s c [inl p]) Polling)
        | None => Some (with_task s Panicked)
        end
  | Sending =>
      match thread s, channel s with
      | Ended, _ => Some (stream_end s)
      | _, O => Some (send_waker s)
      | _, S _ => None
      end
  | _ => None
  end.

(** [main] runs on the executor, so not while the task is polled. *)
Definition main_pause (s : Client) : option Client :=
  match main s with
  | Listening => if task_at_rest s then Some (with_main s Paused (terminate s)) else None
  | _ => None
  end.
Definition main_terminate (s : Client) : option Client :=
  match main s with Paused => Some (with_main s Joining true) | _ => None end.
Definition main_join (s : Client) : option Client :=
  match main s, thread s with Joining, Ended => Some (with_main s LocalJoin (terminate s)) | _, _ => None end.

(** [local_join] waits for the collector: its task ends 10 ms after
    [finished]. *)
Definition main_return (s : Client) : option Client :=
  match main s, task s with
  | LocalJoin, Finished => Some (with_main s Returned (terminate s))
  | _, _ => None
  end.

(** ** The system *)

Inductive Label : Type :=
| Push (x : T)
| Packet (a : result (Audio T * SocketAddr) E)
| Receive | Wake | Terminate
| Start | Step
| Pause | SendTerminate | Join | Return.

Definition act (l : Label) (s : Client) : option Client :=
  match l with
  | Push x => callback_push x s
  | Packet a => poll_packet a s
  | Receive => thread_receive s
  | Wake => thread_wake s
  | Terminate => thread_terminate s
  | Start => poll_start s
  | Step => poll_step s
  | Pause => main_pause s
  | SendTerminate => main_terminate s
  | Join => main_join s
  | Return => main_return s
  end.

Definition acts (ls : list Label) (s : Client) : option Client := foldM (fun s l => act l s) s ls.

(** [main] when the stream starts to play: the collector was created and its
    task is due. *)
Definition client_start (q : Q) (c : collector_t) : Client :=
  mkClient Selecting 0 false Waiting true Listening q c [] [].

Definition reachable (q : Q) (c : collector_t) (s : Client) : Prop := exists ls, acts ls (client_start q c) = Some s.

(** The steps of the waker thread and of the polled task alone. *)
Definition internal (l : Label) : bool :=
  match l with Receive | Wake | Terminate | Start | Step => true | _ => false end.
Definition internal_step (s s' : Client) : Prop := exists l, internal l = true /\ act l s = Some s'.
End Client.

(** ** Specification: what the collector was given *)

Section Spec.
Context `{U : UuidOps} {P : Profile} (new_v4 : nat -> Uuid) {T D E : Type}
  `{Default T} `{!Sample T} `{!AudioSinkWrite T D}.

Definition payloads (is_ : list (item (T := T) (E := E))) : list (WavChunkPayload T) :=
  omap (fun i => match i with inl p => Some p | inr _ => None end) is_.

(** The collector over a sequence of items. *)
Definition handle_item (c : AudioCollector (T := T) (D := D)) (i : item (T := T) (E := E)) : option AudioCollector :=
  match i with
  | inl p => collector_handle_payload new_v4 c p
  | inr a => Some (collector_handle_audio c a)
  end.
Definition collector_run (c : AudioCollector (T := T) (D := D)) (is_ : list (item (T := T) (E := E))) : option AudioCollector :=
  foldM handle_item c is_.

(** The samples popped for a payload that is not complete. *)
Definition partial (tk : TaskState (T := T)) : list T :=
  match tk with Filling i p => take i p | _ => [] end.
End Spec.

(** ** Invariants *)

Section Invariants.
Context `{U : UuidOps} {P : Profile} (new_v4 : nat -> Uuid) {T D Q E : Type}
  `{Default T} `{!Sample T} `{!AudioSinkWrite T D} `{QL : ArrayQueueLaws T Q}.
#[local] Opaque WAV_CHUNK_PAYLOAD_SIZE.
Abbreviation client_t := (Client (T := T) (D := D) (Q := Q) (E := E)).

Lemma payloads_app (xs ys : list (item (T := T) (E := E))) : payloads (xs ++ ys) = payloads xs ++ payloads ys.
Proof. apply omap_app. Qed.

(** Rule induction over the runs of the system. *)
Lemma reachable_ind (Pr : client_t -> Prop) q c :
  Pr (client_start q c) -> (forall l s s', Pr s -> act new_v4 l s = Some s' -> Pr s') ->
  forall s, reachable new_v4 q c s -> Pr s.
Proof.
  intros Hstart Hs s (ls & Hls). revert s Hls. induction ls as [|l ls IH] using rev_ind; intros s.
  { by intros [= <-]. }
  unfold acts. rewrite foldM_app. intros Hs'. apply bind_Some in Hs' as (s1 & Hs1 & Hs').
  apply bind_Some in Hs' as (s2 & Hl & [= <-]). eauto.
Qed.

(** The threads: what is true of the channels and of who is blocked. *)
Record sync (s : client_t) : Prop := {
  sync_channel : (channel s <= 1)%nat;
  sync_wake : task s = Waiting -> thread s <> Ended -> notified s = true \/ channel s = 1%nat \/ thread s = Sleeping;
  sync_ended : thread s = Ended -> channel s = 0%nat /\ (main s = Joining \/ main s = LocalJoin \/ main s = Returned);
  sync_joined : main s = LocalJoin \/ main s = Returned -> thread s = Ended;
  sync_terminate : terminate s = true -> main s = Joining /\ thread s <> Ended;
  sync_joining : main s = Joining -> thread s = Ended \/ terminate s = true;
  sync_rest : main s = Paused \/ main s = Joining -> task s = Waiting \/ task s = Finished \/ task s = Panicked;
  sync_sending : task s = Sending -> thread s <> Ended;
  sync_finished : task s = Finished -> thread s = Ended;
}.

(** The data: nothing is lost or reordered, and only the gate and the sink can
    panic. *)
Record data (c0 : AudioCollector) (tk : TaskState) (q : Q) (c : AudioCollector) (hd : list T)
    (is_ : list (item (T := T) (E := E))) : Prop := {
  data_order : tk <> Panicked -> concat (payloads is_) ++ partial tk ++ q_contents q = hd;
  data_length : Forall (fun p => length p = WAV_CHUNK_PAYLOAD_SIZE) (payloads is_);
  data_filling : forall i p, tk = Filling i p -> length p = WAV_CHUNK_PAYLOAD_SIZE /\
    (i <= WAV_CHUNK_PAYLOAD_SIZE)%nat /\ (WAV_CHUNK_PAYLOAD_SIZE <= i + length (q_contents q))%nat;
  data_collector : exists c', collector_run new_v4 c0 is_ = Some c' /\
    match tk with
    | Finished => collector_finished new_v4 c' = Some c
    | Panicked => c = c' /\
        (collector_finished new_v4 c' = None \/
         exists p, length p = WAV_CHUNK_PAYLOAD_SIZE /\ collector_handle_payload new_v4 c' p = None)
    | _ => c = c'
    end;
}.
Definition data_of c0 (s : client_t) : Prop :=
  data c0 (task s) (queue s) (collector s) (heard s) (handled s).

(** The cases of a step. *)
Ltac act_cases :=
  repeat match goal with
  | H : context [match thread ?s with _ => _ end] |- _ => destruct (thread s) eqn:?
  | H : context [match task ?s with _ => _ end] |- _ => destruct (task s) eqn:?
  | H : context [match main ?s with _ => _ end] |- _ => destruct (main s) eqn:?
  | H : context [match channel ?s with _ => _ end] |- _ => destruct (channel s) eqn:?
  | H : context [if terminate ?s then _ else _] |- _ => destruct (terminate s) eqn:?
  | H : context [if notified ?s && _ then _ else _] |- _ => destruct (notified s) eqn:?
  | H : context [match q_push ?q ?x with _ => _ end] |- _ => destruct (q_push q x) as [[[]|] ?] eqn:?
  | H : context [match q_pop ?q with _ => _ end] |- _ => destruct (q_pop q) as [[?|] ?] eqn:?
  | H : context [match collector_handle_payload ?n ?c ?p with _ => _ end] |- _ =>
      destruct (collector_handle_payload n c p) eqn:?
  | H : context [match collector_finished ?n ?c with _ => _ end] |- _ => destruct (collector_finished n c) eqn:?
  | H : context [if (?x <? ?y)%nat then _ else _] |- _ => destruct (Nat.ltb_spec x y)
  end; simplify_eq; cbn in *; simplify_eq.

(** Use the implications whose premise is at hand, drop those whose premise is
    absurd. *)
Ltac prune :=
  repeat match goal with
  | H : ?a = ?a -> _ |- _ => specialize (H eq_refl)
  | H : ?a = ?b -> _, E : ?a = ?b |- _ => specialize (H E)
  | H : ?a = ?b -> _ |- _ => assert (a <> b) by congruence; clear H
  | H : ?a = ?b -> _ |- ?a = ?b -> _ => intros; specialize (H ltac:(assumption))
  | H : ?a = ?b \/ ?a = ?c -> _ |- _ => assert (a <> b /\ a <> c) by (split; congruence); clear H
  end.

Ltac unfold_act :=
  unfold callback_push, thread_receive, thread_wake, thread_terminate, poll_start, poll_packet, poll_step,
    send_waker, stream_end, main_pause, main_terminate, main_join, main_return, task_at_rest, main_at_await in *.

Lemma sync_start q c : sync (client_start q c).
Proof. split; cbn; try done; try lia; by (left || intros [|]). Qed.

Lemma sync_act l (s s' : client_t) : sync s -> act new_v4 l s = Some s' -> sync s'.
Proof.
  intros [H1 H2 H3 H4 H5 H6 H7 H8 H9] Hact. destruct l; cbn [act] in Hact; unfold_act; act_cases.
  all: split; cbn; unfold_act; cbn.
  all: try assumption; try congruence; try lia.
  all: prune.
  all: try solve [intuition congruence].
  all: intuition lia.
Qed.

Lemma data_start (q : Q) c : q_contents q = [] -> data_of c (client_start q c).
Proof. intros Hq. split; cbn; [done|constructor|done|by exists c]. Qed.

(** A sample popped joins the incomplete payload. *)
Lemma take_insert_next (p : list T) i x :
  (i < length p)%nat -> take (i + 1) (<[i := x]> p) = take i p ++ [x].
Proof.
  intros Hi. rewrite Nat.add_1_r. rewrite (take_S_r _ _ x) by (by apply list_lookup_insert_eq).
  by rewrite take_insert_ge.
Qed.

(** Between payloads the task does not matter. *)
Lemma data_task c0 tk tk' q c hd is_ :
  data c0 tk q c hd is_ -> match tk with Waiting | Polling | Sending => True | _ => False end ->
  match tk' with Waiting | Polling | Sending => True | _ => False end -> data c0 tk' q c hd is_.
Proof.
  intros [H1 H2 H3 (c' & H4 & H5)] Htk Htk'.
  split; [intros _; rewrite <- H1 by (by destruct tk); by destruct tk, tk'|done|by destruct tk'|]. exists c'. split; [done|]. by destruct tk, tk'.
Qed.

Lemma data_end c0 tk q c hd is_ :
  data c0 tk q c hd is_ -> match tk with Waiting | Polling | Sending => True | _ => False end ->
  match collector_finished new_v4 c with
  | Some c2 => data c0 Finished q c2 hd is_
  | None => data c0 Panicked q c hd is_
  end.
Proof.
  intros [H1 H2 H3 (c' & H4 & H5)] Htk. assert (c = c') as <- by (by destruct tk).
  destruct (collector_finished new_v4 c) as [c2|] eqn:Hf;
    (split; [try done; intros _; rewrite <- H1 by (by destruct tk); by destruct tk|done|done|]; exists c; split; [done|]); [done|auto].
Qed.

Lemma data_push c0 tk q c hd is_ x q' r :
  data c0 tk q c hd is_ -> q_push q x = (r, q') ->
  data c0 tk q' c (match r with Ok _ => hd ++ [x] | Err _ => hd end) is_.
Proof.
  intros [H1 H2 H3 H4] Hq. assert (q_contents q' = match r with Ok _ => q_contents q ++ [x] | Err _ => q_contents q end) as Hc.
  { destruct (decide (length (q_contents q) < q_capacity q)%nat) as [Hlt|Hge].
    - pose proof (q_push_ok q x Hlt) as [Hr Hc]. rewrite Hq in Hr, Hc. cbn in *. by subst r.
    - pose proof (q_push_full q x ltac:(lia)) as [Hr Hc]. rewrite Hq in Hr, Hc. cbn in *. by subst r. }
  split; [|done| |done]; rewrite Hc.
  - intros Htk. specialize (H1 Htk). destruct r; [|done]. by rewrite <- H1, <- !app_assoc.
  - intros i p Hi. destruct (H3 i p Hi) as (? & ? & ?). destruct r; [rewrite length_app; cbn|]; lia.
Qed.

Lemma data_fill c0 q c hd is_ :
  data c0 Polling q c hd is_ -> (WAV_CHUNK_PAYLOAD_SIZE <= q_len q)%nat ->
  data c0 (Filling 0 payload_default) q c hd is_.
Proof.
  rewrite q_len_spec. intros [H1 H2 H3 H4] Hq. split; [intros _; by apply H1|done| |done]. intros i p [= <- <-].
  rewrite length_payload_default. lia.
Qed.

Lemma data_pop c0 q c hd is_ i p :
  data c0 (Filling i p) q c hd is_ -> (i < WAV_CHUNK_PAYLOAD_SIZE)%nat ->
  exists x, fst (q_pop q) = Some x /\ data c0 (Filling (i + 1) (<[i := x]> p)) (snd (q_pop q)) c hd is_.
Proof.
  intros [H1 H2 H3 H4] Hi. destruct (H3 i p eq_refl) as (Hp & _ & Hq).
  destruct (q_pop_spec q) as [-> Hc]. destruct (q_contents q) as [|x xs] eqn:Hx; [cbn in Hq; lia|].
  exists x. cbn in *. split; [done|]. split; [intros _; rewrite <- H1 by done|done| |done]; rewrite Hc.
  - cbn. rewrite take_insert_next, <- app_assoc by lia. done.
  - intros j p' [= <- <-]. rewrite length_insert. cbn. lia.
Qed.

Lemma data_payload c0 q c hd is_ i p :
  data c0 (Filling i p) q c hd is_ -> (WAV_CHUNK_PAYLOAD_SIZE <= i)%nat ->
  match collector_handle_payload new_v4 c p with
  | Some c2 => data c0 Polling q c2 hd (is_ ++ [inl p])
  | None => data c0 Panicked q c hd is_
  end.
Proof.
  intros [H1 H2 H3 (c' & H4 & ->)] Hi. destruct (H3 i p eq_refl) as (Hp & Hi' & Hq).
  destruct (collector_handle_payload new_v4 c' p) as [c2|] eqn:Hc2.
  - split; [| |done|].
    + intros _. rewrite <- H1, payloads_app, concat_app by done. cbn. rewrite take_ge by lia. by rewrite app_nil_r, <- app_assoc.
    + rewrite payloads_app. apply Forall_app. by repeat constructor.
    + exists c2. split; [|done]. unfold collector_run in *. rewrite foldM_app, H4. cbn. by rewrite Hc2.
  - split; [done|done|done|]. exists c'. split; [done|]. split; [done|]. right. by exists p.
Qed.

Lemma data_act l c0 (s s' : client_t) : data_of c0 s -> act new_v4 l s = Some s' -> data_of c0 s'.
Proof.
  unfold data_of. intros Hd Hact. destruct l; cbn [act] in Hact.
  - unfold callback_push in Hact. destruct (main s); try done.
    destruct (q_push (queue s) x) as [r q'] eqn:Hq. pose proof (data_push _ _ _ _ _ _ _ _ _ Hd Hq) as Hd'.
    by destruct r; simplify_eq.
  - unfold poll_packet in Hact. destruct (task s) eqn:Htk; try done. destruct (main_at_await s); simplify_eq. cbn.
    destruct Hd as [H1 H2 H3 (c' & H4 & ->)]. split; cbn; [|by rewrite payloads_app, app_nil_r|done|].
    + rewrite payloads_app, app_nil_r. intros _. by apply H1.
    + eexists. split; [|done]. unfold collector_run in *. by rewrite foldM_app, H4.
  - unfold thread_receive in Hact. destruct (thread s), (channel s); by simplify_eq.
  - unfold thread_wake in Hact. destruct (thread s); by simplify_eq.
  - unfold thread_terminate in Hact. destruct (thread s), (terminate s); by simplify_eq.
  - unfold poll_start in Hact. destruct (task s) eqn:Htk; try done. destruct (_ && _); simplify_eq.
    by apply data_task with Waiting.
  - assert (forall tk, task s = tk -> match tk with Polling | Sending => True | _ => False end ->
      data c0 (task (stream_end new_v4 s)) (queue (stream_end new_v4 s)) (collector (stream_end new_v4 s))
        (heard (stream_end new_v4 s)) (handled (stream_end new_v4 s))) as Hend.
    { intros tk <- Htk. unfold stream_end. pose proof (data_end _ _ _ _ _ _ Hd ltac:(by destruct (task s))) as He.
      destruct (collector_finished new_v4 (collector s)); [|done]. cbn. by rewrite app_nil_r. }
    assert (forall tk, task s = tk -> match tk with Polling | Sending => True | _ => False end ->
      data c0 (task (send_waker new_v4 s)) (queue (send_waker new_v4 s)) (collector (send_waker new_v4 s))
        (heard (send_waker new_v4 s)) (handled (send_waker new_v4 s))) as Hsend.
    { intros tk Htk Hp. unfold send_waker. destruct (thread s), (channel s); try (by eapply Hend);
        (apply data_task with (task s); [done|by rewrite Htk; destruct tk|done]). }
    unfold poll_step in Hact. destruct (task s) as [| |i p| | |] eqn:Htk; try done.
    + destruct (Nat.ltb_spec (q_len (queue s)) WAV_CHUNK_PAYLOAD_SIZE); simplify_eq; [exact (Hsend _ eq_refl I)|].
      unfold with_task; cbn. by apply data_fill.
    + destruct (Nat.ltb_spec i WAV_CHUNK_PAYLOAD_SIZE).
      * destruct (data_pop _ _ _ _ _ _ _ Hd) as (x & Hx & Hd'); [done|]. destruct (q_pop (queue s)) as [o q']. cbn in *.
        by simplify_eq.
      * pose proof (data_payload _ _ _ _ _ _ _ Hd ltac:(done)) as Hd'. destruct (collector_handle_payload _ _ _); by simplify_eq.
    + destruct (thread s), (channel s); simplify_eq; exact (Hsend _ eq_refl I) || exact (Hend _ eq_refl I).
  - unfold main_pause in Hact. destruct (main s); try done. by destruct (task_at_rest s); simplify_eq.
  - unfold main_terminate in Hact. destruct (main s); by simplify_eq.
  - unfold main_join in Hact. destruct (main s), (thread s); by simplify_eq.
  - unfold main_return in Hact. destruct (main s); try done. destruct (task s) eqn:Htk; simplify_eq. cbn. by rewrite Htk.
Qed.

Lemma reachable_inv (q : Q) c s : q_contents q = [] -> reachable new_v4 q c s -> sync s /\ data_of c s.
Proof.
  intros Hq. apply (reachable_ind (fun s => sync s /\ data_of c s)); [by auto using sync_start, data_start|].
  intros l s1 s2 [Hs Hd] Hl. split; [by eapply sync_act|by eapply data_act].
Qed.

(** ** Steps of the waker thread and of the task *)

(** An upper bound of the internal steps before the next payload, or before
    the end when there is no more input. *)
Definition task_rank (tk : TaskState (T := T)) : nat :=
  match tk with
  | Sending => WAV_CHUNK_PAYLOAD_SIZE + 7
  | Waiting => WAV_CHUNK_PAYLOAD_SIZE + 4
  | Polling => WAV_CHUNK_PAYLOAD_SIZE + 3
  | Filling i _ => WAV_CHUNK_PAYLOAD_SIZE - i + 1
  | Finished | Panicked => 0
  end.
Definition thread_rank (th : Thread) : nat := match th with Sleeping => 2 | Selecting => 1 | Ended => 0 end.
Definition delivery_rank (s : client_t) : nat := task_rank (task s) + 2 * channel s + thread_rank (thread s).

(** The queue and the incomplete payload hold a whole payload. *)
Definition enough (s : client_t) : Prop :=
  (WAV_CHUNK_PAYLOAD_SIZE <= length (partial (task s)) + length (q_contents (queue s)))%nat.

Definition delivered (s : client_t) : nat := length (payloads (handled s)).

Definition going (tk : TaskState (T := T)) : Prop := match tk with Finished | Panicked => False | _ => True end.

Lemma delivery_step c0 l (s s' : client_t) :
  sync s -> data_of c0 s -> main s = Listening -> enough s -> going (task s) ->
  internal l = true -> act new_v4 l s = Some s' ->
  task s' = Panicked \/ (delivered s < delivered s')%nat \/
  (delivered s' = delivered s /\ main s' = Listening /\ enough s' /\ going (task s') /\
   (delivery_rank s' < delivery_rank s)%nat).
Proof.
  intros Hs Hd Hm Hen Hg Hl Hact. pose proof (sync_ended _ Hs) as He.
  assert (thread s <> Ended) as Hth by (intros Ht; destruct (He Ht) as [_ [|[|]]]; congruence).
  destruct l; try done; cbn [act] in Hact.
  - unfold thread_receive in Hact. destruct (thread s) eqn:Ht; try done. destruct (channel s) eqn:Hc; simplify_eq.
    right; right. unfold delivery_rank. cbn. rewrite Ht, Hc. cbn. split_and!; try done. lia.
  - unfold thread_wake in Hact. destruct (thread s) eqn:Ht; simplify_eq.
    right; right. unfold delivery_rank. cbn. rewrite Ht. cbn. split_and!; try done. lia.
  - unfold thread_terminate in Hact. destruct (thread s); try done. destruct (terminate s) eqn:Ht; simplify_eq.
    destruct (sync_terminate _ Hs Ht). congruence.
  - unfold poll_start in Hact. destruct (task s) eqn:Htk; try done. destruct (_ && _); simplify_eq.
    right; right. unfold delivery_rank, enough, delivered in *. cbn. rewrite Htk in *. cbn in *. split_and!; try done. lia.
  - unfold poll_step in Hact. destruct (task s) as [| |i p| | |] eqn:Htk; try done.
    + destruct (Nat.ltb_spec (q_len (queue s)) WAV_CHUNK_PAYLOAD_SIZE) as [Hlt|Hge].
      { unfold enough in Hen. rewrite Htk in Hen. rewrite q_len_spec in Hlt. cbn in Hen. lia. }
      simplify_eq. right; right. unfold delivery_rank, enough, delivered in *. cbn. rewrite Htk in *. cbn in *.
      split_and!; try done. lia.
    + destruct (Nat.ltb_spec i WAV_CHUNK_PAYLOAD_SIZE) as [Hlt|Hge].
      * unfold data_of in Hd. rewrite Htk in Hd. destruct (data_pop _ _ _ _ _ _ _ Hd Hlt) as (x & Hx & Hd').
        destruct (q_pop_spec (queue s)) as [Hhd Htl]. destruct (q_pop (queue s)) as [o q']. cbn in Hx, Hhd, Htl, Hd'. subst o.
        simplify_eq. right; right. pose proof (data_filling _ _ _ _ _ _ Hd' _ _ eq_refl) as (? & ? & ?).
        unfold delivery_rank, enough, delivered in *. cbn. rewrite Htk in *. cbn in *. rewrite length_take.
        split_and!; try done; lia.
      * destruct (collector_handle_payload _ _ _); simplify_eq; [|by left]. right; left.
        unfold delivered. cbn [handled with_task with_collector]. rewrite payloads_app, length_app. cbn. lia.
    + right; right. unfold delivery_rank, enough, delivered in *. unfold send_waker in Hact. rewrite Htk in *.
      destruct (thread s) eqn:Ht, (channel s) eqn:Hc; simplify_eq; cbn in *; rewrite ?Ht; cbn; split_and!; try done; lia.
Qed.

(** Something can always happen while the task is neither ended nor stuck. *)
Lemma internal_progress (s : client_t) :
  sync s -> (thread s = Ended -> task s = Waiting -> notified s = true) -> main_at_await s = true -> going (task s) ->
  exists l s', internal l = true /\ act new_v4 l s = Some s'.
Proof.
  intros [H1 H2 H3 H4 H5 H6 H7 H8 H9] Hn Hm Hg.
  assert (forall l, internal l = true -> is_Some (act new_v4 l s) -> exists l s', internal l = true /\ act new_v4 l s = Some s') as Hex.
  { intros l Hl [s' Hs']. by exists l, s'. }
  destruct (task s) as [| |i p| | |] eqn:Htk; try done.
  - destruct (thread s) eqn:Ht.
    + destruct (notified s) eqn:Hnt; [apply (Hex Start); [done|]; cbn; unfold poll_start; rewrite Htk, Hnt, Hm; by eexists|].
      apply (Hex Receive); [done|]. cbn. unfold thread_receive. rewrite Ht.
      destruct (H2 eq_refl ltac:(done)) as [|[->|]]; [done|by eexists|done].
    + apply (Hex Wake); [done|]. cbn. unfold thread_wake. rewrite Ht. by eexists.
    + apply (Hex Start); [done|]. cbn. unfold poll_start. rewrite Htk, Hn, Hm by done. by eexists.
  - apply (Hex Step); [done|]. cbn. unfold poll_step. rewrite Htk. destruct (_ <? _)%nat; by eexists.
  - apply (Hex Step); [done|]. cbn. unfold poll_step. rewrite Htk. destruct (_ <? _)%nat.
    + destruct (q_pop (queue s)) as [[|] ?]; by eexists.
    + destruct (collector_handle_payload _ _ _); by eexists.
  - destruct (thread s) eqn:Ht; [|apply (Hex Wake); [done|]; cbn; unfold thread_wake; rewrite Ht; by eexists|by destruct H8].
    destruct (channel s) eqn:Hc.
    + apply (Hex Step); [done|]. cbn. unfold poll_step. rewrite Htk, Ht, Hc. by eexists.
    + apply (Hex Receive); [done|]. cbn. unfold thread_receive. rewrite Ht, Hc. by eexists.
Qed.

(** After the interrupt: the bound on the steps to the end. *)
Definition closing_rank (s : client_t) : nat :=
  3 * length (q_contents (queue s)) +
  match task s with
  | Waiting => 3 | Polling => 2 | Sending => 2 | Filling i _ => 2 * i + 1 | Finished | Panicked => 0
  end.

Lemma closing_step c0 l (s s' : client_t) :
  sync s -> data_of c0 s -> main s = LocalJoin -> internal l = true -> act new_v4 l s = Some s' ->
  main s' = LocalJoin /\ task s' <> Waiting /\ heard s' = heard s /\ (closing_rank s' < closing_rank s)%nat /\
  (task s' = Finished -> (length (q_contents (queue s')) < WAV_CHUNK_PAYLOAD_SIZE)%nat).
Proof.
  intros Hs Hd Hm Hl Hact. pose proof (sync_joined _ Hs (or_introl Hm)) as Hth. pose proof (sync_sending _ Hs) as Hsend.
  assert (task s = Polling -> (length (q_contents (queue s)) < WAV_CHUNK_PAYLOAD_SIZE)%nat -> s' = stream_end new_v4 s ->
    main s' = LocalJoin /\ task s' <> Waiting /\ heard s' = heard s /\ (closing_rank s' < closing_rank s)%nat /\
    (task s' = Finished -> (length (q_contents (queue s')) < WAV_CHUNK_PAYLOAD_SIZE)%nat)) as Hend.
  { intros Htk Hq ->. unfold stream_end, closing_rank. rewrite Htk. destruct (collector_finished _ _); cbn; split_and!; try done; lia. }
  destruct l; try done; cbn [act] in Hact.
  - unfold thread_receive in Hact. by rewrite Hth in Hact.
  - unfold thread_wake in Hact. by rewrite Hth in Hact.
  - unfold thread_terminate in Hact. by rewrite Hth in Hact.
  - unfold poll_start in Hact. destruct (task s) eqn:Htk; try done. destruct (_ && _); simplify_eq.
    unfold closing_rank. rewrite Htk. cbn. split_and!; try done. lia.
  - unfold poll_step in Hact. destruct (task s) as [| |i p| | |] eqn:Htk; try done; [| |by destruct Hsend].
    + destruct (Nat.ltb_spec (q_len (queue s)) WAV_CHUNK_PAYLOAD_SIZE) as [Hlt|Hge].
      * rewrite q_len_spec in Hlt. apply Hend; [done|done|]. unfold send_waker in Hact. rewrite Hth in Hact. by simplify_eq.
      * simplify_eq. unfold closing_rank. rewrite Htk. cbn. split_and!; try done. lia.
    + destruct (Nat.ltb_spec i WAV_CHUNK_PAYLOAD_SIZE) as [Hlt|Hge].
      * unfold data_of in Hd. rewrite Htk in Hd. destruct (data_pop _ _ _ _ _ _ _ Hd Hlt) as (x & Hx & Hd').
        pose proof (data_filling _ _ _ _ _ _ Hd _ _ eq_refl) as (? & ? & ?).
        destruct (q_pop_spec (queue s)) as [Hhd Htl]. destruct (q_pop (queue s)) as [o q']. cbn in Hx, Hhd, Htl. subst o.
        simplify_eq. unfold closing_rank. rewrite Htk. cbn. rewrite Htl. destruct (q_contents (queue s)); [done|].
        cbn. split_and!; try done. lia.
      * pose proof wav_size_pos. unfold closing_rank. rewrite Htk.
        destruct (collector_handle_payload _ _ _); simplify_eq; cbn; split_and!; try done; lia.
Qed.

(** Sequences of internal steps. *)
Lemma internal_inv c0 n (s s' : client_t) :
  sync s -> data_of c0 s -> nsteps (internal_step new_v4) n s s' -> sync s' /\ data_of c0 s'.
Proof. intros Hs Hd. induction 1 as [|n s1 s2 s3 (l & Hl & H12) H23 IH]; [done|]. apply IH; [by eapply sync_act|by eapply data_act]. Qed.

Lemma delivered_mono l (s s' : client_t) :
  internal l = true -> act new_v4 l s = Some s' -> (delivered s <= delivered s')%nat.
Proof.
  intros Hl Hact. unfold delivered, payloads. destruct l; try done; cbn [act] in Hact; unfold_act; act_cases; try lia.
  all: cbn; rewrite ?omap_app, ?length_app; lia.
Qed.

Lemma panicked_internal l (s s' : client_t) :
  internal l = true -> act new_v4 l s = Some s' -> task s = Panicked -> task s' = Panicked.
Proof. intros Hl Hact Htk. destruct l; try done; cbn [act] in Hact; unfold_act; rewrite ?Htk in Hact; act_cases; congruence. Qed.

Lemma delivery_bound c0 n (s s' : client_t) :
  sync s -> data_of c0 s -> main s = Listening -> enough s -> going (task s) ->
  nsteps (internal_step new_v4) n s s' ->
  task s' = Panicked \/ (delivered s < delivered s')%nat \/
  (main s' = Listening /\ enough s' /\ going (task s') /\ (n + delivery_rank s' <= delivery_rank s)%nat).
Proof.
  intros Hs Hd Hm Hen Hg Hn. remember (delivered s) as k eqn:Hk. assert (k <= delivered s)%nat as Hle by lia. clear Hk.
  induction Hn as [|n s1 s2 s3 (l & Hl & H12) H23 IH]; [right; right; split_and!; try done; lia|].
  assert (forall m a b, nsteps (internal_step new_v4) m a b -> (delivered a <= delivered b)%nat /\
    (task a = Panicked -> task b = Panicked)) as Hmono.
  { clear. induction 1 as [|m a b c (l & Hl & Hab) _ [IH1 IH2]]; [done|].
    pose proof (delivered_mono _ _ _ Hl Hab). split; [lia|]. intros Ha. by eapply IH2, panicked_internal. }
  destruct (Hmono _ _ _ H23) as [Hm23 Hp23].
  destruct (delivery_step c0 l s1 s2) as [Hp|[Hlt|(Hd2 & Hm2 & Hen2 & Hg2 & Hr)]]; try done; [left; auto|right; left; lia|].
  destruct IH as [|[|(? & ? & ? & ?)]]; try done; [by eapply sync_act|by eapply data_act|lia|auto|auto|].
  right; right. split_and!; try done. lia.
Qed.

Lemma closing_bound c0 n (s s' : client_t) :
  sync s -> data_of c0 s -> main s = LocalJoin -> nsteps (internal_step new_v4) n s s' ->
  main s' = LocalJoin /\ (n + closing_rank s' <= closing_rank s)%nat /\ heard s' = heard s /\
  (task s <> Waiting \/ notified s = true -> task s' <> Waiting \/ notified s' = true) /\
  ((task s = Finished -> (length (q_contents (queue s)) < WAV_CHUNK_PAYLOAD_SIZE)%nat) ->
   task s' = Finished -> (length (q_contents (queue s')) < WAV_CHUNK_PAYLOAD_SIZE)%nat).
Proof.
  intros Hs Hd Hm Hn. induction Hn as [|n s1 s2 s3 (l & Hl & H12) H23 IH]; [split_and!; [done|lia|done..]|].
  destruct (closing_step c0 l s1 s2) as (Hm2 & Hw2 & Hh2 & Hr & Hf2); try done.
  destruct IH as (? & ? & Hh & Hw & Hf); [by eapply sync_act|by eapply data_act|done|].
  split_and!; [done|lia|congruence|intros _; apply Hw; by left|]. intros _. by apply Hf.
Qed.

(** The collector over payloads is the gate over their samples. *)
Lemma collector_run_payloads (c : AudioCollector (T := T) (D := D)) (ps : list (WavChunkPayload T)) :
  collector_run (E := E) new_v4 c (map inl ps) =
    '(g, s) ← @process T _ _ (audio_sink new_v4) (noise_gate c) (concat ps) (sink c);
    Some (mkCollector (server_address c) g s).
Proof.
  unfold collector_run. revert c. induction ps as [|p ps IH]; intros c; [by destruct c|]. cbn [map foldM handle_item concat].
  rewrite process_app. unfold collector_handle_payload.
  destruct (@process T _ _ (audio_sink new_v4) (noise_gate c) p (sink c)) as [[g s]|]; [|done]. cbn. by rewrite IH.
Qed.
End Invariants.

(** ** Properties *)

Section Properties.
Context `{U : UuidOps} {P : Profile} (new_v4 : nat -> Uuid) {T D Q E : Type}
  `{Default T} `{!Sample T} `{!AudioSinkWrite T D} `{QL : ArrayQueueLaws T Q}.
Context (q : Q) (c : AudioCollector (T := T) (D := D)) (Hq : q_contents q = []).
#[local] Opaque WAV_CHUNK_PAYLOAD_SIZE.

(** C10: the interleaving of the threads does not matter to what is recorded.
    In any run in which the collector handled no packet from the server, the
    gate and the sink are in the state that one call of [process] on the samples
    of the handled payloads leaves, and these are the first that the ring buffer
    accepted; the rest of them is in the payload that is being filled and in the
    buffer, in order. When the task has ended, this state has gone through
    [end_of_transmission] once more, and nothing else. Only the gate and the sink
    can panic, not the [unwrap] of a sample. *)
Theorem recording_ignores_interleaving (s : Client (E := E)) (Hr : reachable new_v4 q c s)
    (Hpackets : Forall (fun i => exists p, i = inl p) (handled s)) :
  let n := (length (handled s) * WAV_CHUNK_PAYLOAD_SIZE)%nat in
  match task s with
  | Panicked => collector_finished new_v4 (collector s) = None \/
      exists p, length p = WAV_CHUNK_PAYLOAD_SIZE /\ collector_handle_payload new_v4 (collector s) p = None
  | tk => drop n (heard s) = partial tk ++ q_contents (queue s) /\
      exists g sk, @process T _ _ (audio_sink new_v4) (noise_gate c) (take n (heard s)) (sink c) = Some (g, sk) /\
        match tk with
        | Finished => exists sk', sink_end_of_transmission new_v4 sk = Some sk' /\
            collector s = mkCollector (server_address c) g sk'
        | _ => collector s = mkCollector (server_address c) g sk
        end
  end.
Proof.
  destruct (reachable_inv _ _ _ _ Hq Hr) as [_ [H1 H2 _ (c' & H4 & H5)]].
  assert (exists ps, handled s = map inl ps) as [ps Hps].
  { clear -Hpackets. induction Hpackets as [|i is_ [p ->] _ [ps ->]]; [by exists []|by exists (p :: ps)]. }
  rewrite Hps in *. assert (payloads (E := E) (map inl ps) = ps) as Hpay.
  { clear. induction ps as [|p ps IH]; [done|]. cbn. by f_equal. }
  rewrite Hpay in *. rewrite collector_run_payloads in H4.
  assert (length (concat ps) = length ps * WAV_CHUNK_PAYLOAD_SIZE)%nat as Hlen.
  { clear -H2. induction H2 as [|p ps Hp _ IH]; [done|]. cbn in *. rewrite length_app, Hp, IH. done. }
  cbv zeta. destruct (@process T _ _ (audio_sink new_v4) (noise_gate c) (concat ps) (sink c)) as [[g sk]|] eqn:Hproc; simplify_eq/=.
  destruct (task s) eqn:Htk; [| | | | |by destruct H5 as [-> ?]].
  all: rewrite <- H1, length_map, <- Hlen, take_app_length, drop_app_length by done; split; [done|]; exists g, sk; split; [done|].
  all: try done.
  unfold collector_finished in H5. apply bind_Some in H5 as (sk' & Hsk & [= <-]). by exists sk'.
Qed.

(** C9: no wake-up is lost before the interrupt. Once 512 samples are in the
    buffer, the waker thread and the task alone hand the next payload to the
    collector within 523 steps, whichever of them goes first: until then, one
    of them can always go on. *)
Theorem payloads_are_delivered (s s' : Client (E := E)) (n : nat) (Hr : reachable new_v4 q c s)
    (Hm : main s = Listening) (Hg : going (task s)) (Hen : enough s)
    (Hn : nsteps (internal_step new_v4) n s s') :
  task s' = Panicked \/ (delivered s < delivered s')%nat \/
  ((n <= WAV_CHUNK_PAYLOAD_SIZE + 11)%nat /\ exists s'', internal_step new_v4 s' s'').
Proof.
  destruct (reachable_inv _ _ _ _ Hq Hr) as [Hs Hd].
  destruct (delivery_bound _ _ _ _ _ Hs Hd Hm Hen Hg Hn) as [|[|(Hm' & _ & Hg' & Hle)]]; [by left|by right; left|].
  right; right. destruct (internal_inv _ _ _ _ _ Hs Hd Hn) as [Hs' _]. split.
  - pose proof (sync_channel _ Hs). assert (task_rank (task s) <= WAV_CHUNK_PAYLOAD_SIZE + 7)%nat by (destruct (task s); cbn; lia).
    assert (thread_rank (thread s) <= 2)%nat by (destruct (thread s); cbn; lia). unfold delivery_rank in *. lia.
  - destruct (internal_progress new_v4 s') as (l & s'' & Hl & Hact); [done| |by unfold main_at_await; rewrite Hm'|done|].
    + intros Ht. destruct (sync_ended _ Hs' Ht) as [_ [|[|]]]; congruence.
    + by exists s'', l.
Qed.

(** C28: the client ends after the interrupt, when the waker thread finds the
    channel of wakers empty as it takes the message to terminate. After the
    [join], the task alone ends within three steps for each sample in the
    buffer and three more, handing on all whole payloads, and [main] returns. *)
Theorem interrupt_ends_client (s s1 s2 s' : Client (E := E)) (n : nat) (Hr : reachable new_v4 q c s)
    (Hch : channel s = 0%nat) (Ht : act new_v4 Terminate s = Some s1) (Hj : act new_v4 Join s1 = Some s2)
    (Hn : nsteps (internal_step new_v4) n s2 s') :
  (n <= 3 * length (q_contents (queue s)) + 3)%nat /\
  match task s' with
  | Finished => (length (q_contents (queue s')) < WAV_CHUNK_PAYLOAD_SIZE)%nat /\ is_Some (act new_v4 Return s')
  | Panicked => True
  | _ => exists s'', internal_step new_v4 s' s''
  end.
Proof.
  destruct (reachable_inv _ _ _ _ Hq Hr) as [Hs Hd].
  assert (sync s2 /\ data_of new_v4 c s2) as [Hs2 Hd2].
  { split; [apply (sync_act new_v4 Join s1), Hj; by apply (sync_act new_v4 Terminate s)|].
    apply (data_act new_v4 Join c s1), Hj. by apply (data_act new_v4 Terminate c s). }
  cbn [act] in Ht, Hj. unfold thread_terminate in Ht. destruct (thread s) eqn:Hth; try done.
  destruct (terminate s) eqn:Hte; try done. destruct (sync_terminate _ Hs Hte) as [Hm _]. simplify_eq.
  unfold main_join in Hj. cbn in Hj. rewrite Hm in Hj. simplify_eq.
  destruct (closing_bound new_v4 c n _ _ Hs2 Hd2 eq_refl Hn) as (Hm' & Hle & _ & Hw & Hf).
  assert (task s = Waiting -> notified s = true) as Hnt.
  { intros Htk. destruct (sync_wake _ Hs Htk) as [|[|]]; congruence. }
  destruct (internal_inv _ _ _ _ _ Hs2 Hd2 Hn) as [Hs' _]. split.
  - unfold closing_rank in Hle. cbn in Hle. destruct (sync_rest _ Hs (or_intror Hm)) as [Htk|[Htk|Htk]]; rewrite Htk in Hle; lia.
  - assert (task s' <> Waiting \/ notified s' = true) as Hw'.
    { apply Hw. cbn. destruct (task s); try (by left). right. by apply Hnt. }
    assert (going (task s') -> exists s'', internal_step new_v4 s' s'') as Hgo.
    { intros Hg. destruct (internal_progress new_v4 s') as (l & s'' & Hl & Hact); [done| |by unfold main_at_await; rewrite Hm'|done|].
      - intros _ Htk. by destruct Hw'.
      - by exists s'', l. }
    destruct (task s') eqn:Htk; try (by apply Hgo); [|done]. split.
    + apply Hf; [|done]. cbn. intros Hfin. pose proof (sync_finished _ Hs Hfin). congruence.
    + cbn. unfold main_return. rewrite Hm', Htk. by eexists.
Qed.

(** C29: the interrupt may never end the client. The message to terminate can
    arrive while a waker is in the channel; [select!] may take it first, the
    waker is dropped with the channel, and the collector's task, which ends the
    stream when it is polled, is never polled again: nothing but a packet from
    the network can happen any more. *)
Theorem interrupt_can_hang :
  exists s : Client (E := E), reachable new_v4 q c s /\ main s = LocalJoin /\ task s = Waiting /\
    forall l s', act new_v4 l s = Some s' -> exists a, l = Packet a.
Proof.
  exists (mkClient Ended 0 false Waiting false LocalJoin q c [] []). split_and!; [|done|done|].
  - exists [Start; Step; Pause; SendTerminate; Terminate; Join]. unfold acts. cbn.
    unfold poll_step. cbn. rewrite q_len_spec, Hq. pose proof wav_size_pos.
    destruct (Nat.ltb_spec (length (@nil T)) WAV_CHUNK_PAYLOAD_SIZE); [done|cbn in *; lia].
  - intros l s'. destruct l; try done. by eexists.
Qed.
End Properties.

(** ** Witnesses *)

Section Run.
Context `{U : UuidOps} {P : Profile} (new_v4 : nat -> Uuid) {T D Q E : Type}
  `{Default T} `{!Sample T} `{!AudioSinkWrite T D} `{!ArrayQueue T Q}.

(** The state after a run. *)
Definition after_run (ls : list Label) (q : Q) (c : AudioCollector (T := T) (D := D)) : Client (E := E) :=
  default (client_start q c) (acts new_v4 ls (client_start q c)).

Lemma after_run_reachable ls q c :
  bool_decide (is_Some (acts (E := E) new_v4 ls (client_start q c))) = true -> reachable new_v4 q c (after_run ls q c).
Proof.
  intros [s Hs]%bool_decide_eq_true. exists ls. unfold after_run. by rewrite Hs.
Qed.
End Run.

Import LittleEndian.Instances.
#[local] Existing Instance AudioSink.list_queue_ops.
#[local] Existing Instance AudioSink.list_queue_laws.
#[local] Existing Instance sample_i16.
#[local] Instance debug_build : Profile := true.

Lemma empty_at_start : q_contents ([] : list Z, 700%nat) = [].
Proof. reflexivity. Qed.
Definition uuids0 : nat -> Uuid := uuid_nth.
Definition empty_queue : list_queue := ([], 700%nat).
Definition collector0 : AudioCollector (T := Z) (D := list (Audio Z)) :=
  mkCollector (V4 2130706433 3003) (NoiseGate.new 0 10%nat) (sink_new uuids0 [] 42 spec0 0).

(** 600 samples arrive before the first poll, which hands 512 of them on. *)
Definition busy_run : list (Label (T := Z) (E := Error)) :=
  map Push (ramp 600) ++ [Start] ++ replicate 514 Step.
Definition busy : Client (Q := list_queue) (E := Error) := after_run uuids0 busy_run empty_queue collector0.

(** The same, ended by an interrupt: the last payload is completed, and the
    transmission is closed. *)
Definition ended_run : list (Label (T := Z) (E := Error)) :=
  busy_run ++ [Step; Receive; Pause; SendTerminate; Wake; Terminate; Join; Start; Step].
Definition ended : Client (Q := list_queue) (E := Error) := after_run uuids0 ended_run empty_queue collector0.

Lemma no_packets_check (is_ : list (item (T := Z) (E := Error))) :
  forallb (fun i => match i with inl _ => true | inr _ => false end) is_ = true -> Forall (fun i => exists p, i = inl p) is_.
Proof.
  intros Hf. apply Forall_forall. intros i Hi. destruct i as [p|a]; [by exists p|]. exfalso.
  rewrite forallb_forall in Hf. by specialize (Hf (inr a) (proj1 (list_elem_of_In _ _) Hi)).
Qed.

Lemma recording_ignores_interleaving_witness :
  length (handled ended) = 1%nat /\ drop 512 (heard ended) = q_contents (queue ended) /\
  exists g sk sk', @process Z _ _ (audio_sink uuids0) (noise_gate collector0) (take 512 (heard ended)) (sink collector0) = Some (g, sk) /\
    sink_end_of_transmission uuids0 sk = Some sk' /\ collector ended = mkCollector (server_address collector0) g sk'.
Proof.
  assert (length (handled ended) = 1%nat) as Hl by (vm_compute; reflexivity). split; [exact Hl|].
  assert (task ended = Finished) as Ht by (vm_compute; reflexivity).
  assert (reachable uuids0 empty_queue collector0 ended) as Hr by (apply after_run_reachable; vm_compute; reflexivity).
  assert (Forall (fun i => exists p, i = inl p) (handled ended)) as Hp by (apply no_packets_check; vm_compute; reflexivity).
  pose proof (recording_ignores_interleaving uuids0 empty_queue collector0 empty_at_start ended Hr Hp) as H.
  assert ((1 * WAV_CHUNK_PAYLOAD_SIZE)%nat = 512%nat) as Hn by (vm_compute; reflexivity).
  cbv zeta in H. rewrite Ht, Hl, Hn in H. destruct H as (Hd & g & sk & H1 & sk' & H2 & H3).
  cbn [partial] in Hd. rewrite app_nil_l in Hd. split; [exact Hd|]. exists g, sk, sk'. split; [exact H1|]. split; [exact H2|exact H3].
Defined.

(** 600 samples wait, and the waker of the first poll is in the channel. *)
Definition waiting : Client (Q := list_queue) (E := Error) :=
  after_run uuids0 ([Start; Step] ++ map Push (ramp 600)) empty_queue collector0.
Definition woken : Client (Q := list_queue) (E := Error) :=
  default waiting (acts uuids0 [Receive; Wake; Start] waiting).

Lemma payloads_are_delivered_witness :
  task woken = Panicked \/ (delivered waiting < delivered woken)%nat \/
  ((3 <= WAV_CHUNK_PAYLOAD_SIZE + 11)%nat /\ exists s'', internal_step uuids0 woken s'').
Proof.
  apply (payloads_are_delivered uuids0 empty_queue collector0 empty_at_start waiting woken 3).
  - apply after_run_reachable. vm_compute. reflexivity.
  - reflexivity.
  - exact I.
  - unfold enough. apply Nat.leb_le. vm_compute. reflexivity.
  - apply (nsteps_l _ _ _ (default waiting (acts uuids0 [Receive] waiting))); [by exists Receive|].
    apply (nsteps_l _ _ _ (default waiting (acts uuids0 [Receive; Wake] waiting))); [by exists Wake|].
    apply (nsteps_l _ _ _ woken); [by exists Start|]. constructor.
Defined.

(** The interrupt comes after the waker thread took the waker. *)
Definition interrupted : Client (Q := list_queue) (E := Error) :=
  after_run uuids0 [Start; Step; Receive; Pause; SendTerminate; Wake] empty_queue collector0.
Definition terminated : Client (Q := list_queue) (E := Error) := default interrupted (act uuids0 Terminate interrupted).
Definition joined : Client (Q := list_queue) (E := Error) := default terminated (act uuids0 Join terminated).
Definition finished : Client (Q := list_queue) (E := Error) := default joined (acts uuids0 [Start; Step] joined).

Lemma interrupt_ends_client_witness :
  (2 <= 3 * length (q_contents (queue interrupted)) + 3)%nat /\
  match task finished with
  | Finished => (length (q_contents (queue finished)) < WAV_CHUNK_PAYLOAD_SIZE)%nat /\ is_Some (act uuids0 Return finished)
  | Panicked => True
  | _ => exists s'', internal_step uuids0 finished s''
  end.
Proof.
  apply (interrupt_ends_client uuids0 empty_queue collector0 empty_at_start interrupted terminated joined finished 2);
    [apply after_run_reachable; vm_compute; reflexivity|reflexivity..|].
  apply (nsteps_l _ _ _ (default joined (act uuids0 Start joined))); [by exists Start|].
  apply (nsteps_l _ _ _ finished); [by exists Step|]. constructor.
Defined.

Lemma interrupt_can_hang_witness :
  exists s : Client (E := Error), reachable uuids0 empty_queue collector0 s /\ main s = LocalJoin /\ task s = Waiting /\
    forall l s', act uuids0 l s = Some s' -> exists a, l = Packet a.
Proof. apply (interrupt_can_hang uuids0 empty_queue collector0 empty_at_start). Defined.
