(* ===== verification/Json.v ===== *)
(** * The JSON forms of the rows (backend/src/actor/db, schema.rs)

    What the derived [Serialize] and [Deserialize] of the payload of an event
    and of the rule of a label do: the two columns of type JSONB are written
    and read through them ([ToSql], [FromSql]). A value is a tree; its text is
    the business of serde_json and PostgreSQL. *)
From S2P Require Import Prelude MachineInt Bincode DbTypes.
From S2P Require Event.
Open Scope Z_scope.

(** ** [serde_json::Value] *)

Inductive json : Type :=
| JNum (n : Z)
| JStr (s : string)
| JBool (b : bool)
| JArr (l : list json)
| JObj (l : list (string * json)).

Definition json_eq : forall x y : json, {x = y} + {x <> y}.
Proof.
  fix go 1. intros x y. decide equality; [apply Z.eq_dec|apply String.string_dec|apply Bool.bool_dec|apply (List.list_eq_dec go)|].
  apply List.list_eq_dec. intros [k v] [k' v']. destruct (String.string_dec k k'), (go v v'); (by left; congruence) || (right; congruence).
Defined.
#[export] Instance json_eq_dec : EqDecision json := json_eq.

(** A member of an object. *)
Fixpoint member (key : string) (l : list (string * json)) : option json :=
  match l with
  | [] => None
  | (k, v) :: l => if String.eqb k key then Some v else member key l
  end.
Definition get (key : string) (j : json) : option json :=
  match j with JObj l => member key l | _ => None end.
Definition field {A} (key : string) (f : json -> option A) (j : json) : option A := v ← get key j; f v.
Definition as_str (j : json) : option string := match j with JStr s => Some s | _ => None end.
(** A number of the integer type whose range is [in_type]. *)
Definition as_int (in_type : Z -> bool) (j : json) : option Z :=
  match j with JNum n => if in_type n then Some n else None | _ => None end.

(** ** schema.rs and db/event.rs *)

Definition kind_name (k : EventKind) : string :=
  match k with KSound => "sound" | KPosition => "position" | KLuminosity => "luminosity" end.
Definition kind_of_name (s : string) : option EventKind :=
  if String.eqb s "sound" then Some KSound
  else if String.eqb s "position" then Some KPosition
  else if String.eqb s "luminosity" then Some KLuminosity
  else None.
Definition kind_to_json (k : EventKind) : json := JStr (kind_name k).
Definition kind_of_json (j : json) : option EventKind := s ← as_str j; kind_of_name s.

(** A tuple is an array of its length. *)
Definition triple_to_json (t : Event.triple) : json :=
  let '(a, b, c) := t in JArr [JNum a; JNum b; JNum c].
Definition triple_of_json (j : json) : option Event.triple :=
  match j with
  | JArr [a; b; c] =>
      a ← as_int (in_s 32) a; b ← as_int (in_s 32) b; c ← as_int (in_s 32) c; Some (a, b, c)
  | _ => None
  end.

(** [tag = "kind"]: the tag is a member beside the fields. *)
Definition payload_to_json (p : EventPayload) : json :=
  match p with
  | Sound wav_file => JObj [("kind", JStr "sound"); ("wav_file", JStr wav_file)]
  | Position from to =>
      JObj [("kind", JStr "position"); ("from", triple_to_json from); ("to", triple_to_json to)]
  | Luminosity from to => JObj [("kind", JStr "luminosity"); ("from", JNum from); ("to", JNum to)]
  end.
Definition payload_of_json (j : json) : option EventPayload :=
  kind ← field "kind" kind_of_json j;
  match kind with
  | KSound => wav_file ← field "wav_file" as_str j; Some (Sound wav_file)
  | KPosition =>
      from ← field "from" triple_of_json j; to ← field "to" triple_of_json j; Some (Position from to)
  | KLuminosity =>
      from ← field "from" (as_int (in_s 32)) j; to ← field "to" (as_int (in_s 32)) j; Some (Luminosity from to)
  end.

(** ** db/label.rs *)

(** The only member of an externally tagged enum names the variant. *)
Definition operator_to_json (o : NumberOperator) : json :=
  match o with
  | Eq n => JObj [("eq", JNum n)]
  | Gt n => JObj [("gt", JNum n)]
  | Lt n => JObj [("lt", JNum n)]
  | Gte n => JObj [("gte", JNum n)]
  | Lte n => JObj [("lte", JNum n)]
  end.
Definition operator_of_json (in_type : Z -> bool) (j : json) : option NumberOperator :=
  match j with
  | JObj [(tag, v)] =>
      n ← as_int in_type v;
      if String.eqb tag "eq" then Some (Eq n)
      else if String.eqb tag "gt" then Some (Gt n)
      else if String.eqb tag "lt" then Some (Lt n)
      else if String.eqb tag "gte" then Some (Gte n)
      else if String.eqb tag "lte" then Some (Lte n)
      else None
  | _ => None
  end.

(** [skip_serializing_if = "Option::is_none"]; a missing member is [None]. *)
Definition optional (key : string) (o : option NumberOperator) : list (string * json) :=
  match o with Some o => [(key, operator_to_json o)] | None => [] end.
Definition optional_of (key : string) (j : json) : option (option NumberOperator) :=
  match get key j with
  | Some v => Some <$> operator_of_json (in_s 64) v
  | None => Some None
  end.

(** [tag = "kind", content = "payload"]. *)
Definition rule_to_json (r : LabelRule) : json :=
  let tagged kind payload := JObj [("kind", JStr kind); ("payload", JObj payload)] in
  match r with
  | SoundSimilarity wav_file operator =>
      tagged "sound_similarity" [("wav_file", JStr wav_file); ("operator", operator_to_json operator)]
  | PositionDifference x y z =>
      tagged "position_difference" (optional "x" x ++ optional "y" y ++ optional "z" z)
  | LuminosityDifference operator =>
      tagged "luminosity_difference" [("operator", operator_to_json operator)]
  end.
Definition rule_of_json (j : json) : option LabelRule :=
  kind ← field "kind" as_str j;
  payload ← get "payload" j;
  if String.eqb kind "sound_similarity" then
    wav_file ← field "wav_file" as_str payload;
    operator ← field "operator" (operator_of_json (in_u 16)) payload;
    Some (SoundSimilarity wav_file operator)
  else if String.eqb kind "position_difference" then
    match payload with
    | JObj _ =>
        x ← optional_of "x" payload; y ← optional_of "y" payload; z ← optional_of "z" payload;
        Some (PositionDifference x y z)
    | _ => None
    end
  else if String.eqb kind "luminosity_difference" then
    operator ← field "operator" (operator_of_json (in_s 64)) payload;
    Some (LuminosityDifference operator)
  else None.

(** The unit tests: rules and what they are serialised to. *)
Definition label_rule_tests : list (LabelRule * json) :=
  [(SoundSimilarity "e15f9c78-595d-4654-b0a0-8d745acc997b.wav" (Gt 75),
    JObj [("kind", JStr "sound_similarity");
      ("payload", JObj [("wav_file", JStr "e15f9c78-595d-4654-b0a0-8d745acc997b.wav"); ("operator", JObj [("gt", JNum 75)])])]);
   (PositionDifference (Some (Gt 20)) (Some (Gt 50)) None,
    JObj [("kind", JStr "position_difference"); ("payload", JObj [("x", JObj [("gt", JNum 20)]); ("y", JObj [("gt", JNum 50)])])]);
   (LuminosityDifference (Gt 100),
    JObj [("kind", JStr "luminosity_difference"); ("payload", JObj [("operator", JObj [("gt", JNum 100)])])])].
Example test_label_rule_serialize : Forall (fun '(rule, expected) => rule_to_json rule = expected) label_rule_tests.
Proof. by repeat constructor. Qed.

(** ** The values of the Rust types *)

Definition operand (o : NumberOperator) : Z :=
  match o with Eq n | Gt n | Lt n | Gte n | Lte n => n end.
Definition optional_wf (o : option NumberOperator) : bool :=
  match o with Some o => in_s 64 (operand o) | None => true end.
Definition rule_wf (r : LabelRule) : bool :=
  match r with
  | SoundSimilarity _ o => in_u 16 (operand o)
  | PositionDifference x y z => optional_wf x && optional_wf y && optional_wf z
  | LuminosityDifference o => in_s 64 (operand o)
  end.
Definition triple_wf (t : Event.triple) : bool := let '(a, b, c) := t in in_s 32 a && in_s 32 b && in_s 32 c.
Definition payload_wf (p : EventPayload) : bool :=
  match p with
  | Sound _ => true
  | Position from to => triple_wf from && triple_wf to
  | Luminosity from to => in_s 32 from && in_s 32 to
  end.

Lemma operator_roundtrip in_type o :
  in_type (operand o) = true -> operator_of_json in_type (operator_to_json o) = Some o.
Proof. destruct o; cbn; by intros ->. Qed.

Lemma triple_roundtrip t : triple_wf t = true -> triple_of_json (triple_to_json t) = Some t.
Proof. destruct t as [[a b] c]. cbn. intros [[-> ->]%andb_prop ->]%andb_prop. done. Qed.

Lemma optionals_roundtrip x y z :
  optional_wf x = true -> optional_wf y = true -> optional_wf z = true ->
  let j := JObj (optional "x" x ++ optional "y" y ++ optional "z" z) in
  optional_of "x" j = Some x /\ optional_of "y" j = Some y /\ optional_of "z" j = Some z.
Proof.
  intros Hx Hy Hz. destruct x as [x|], y as [y|], z as [z|]; cbn in *; unfold optional_of; cbn;
    rewrite ?operator_roundtrip by done; done.
Qed.

(** The JSONB columns lose nothing: the payload of an event and the rule of a
    label, with operands in the range of their Rust types, are read back as they
    were written. *)
Lemma payload_read_back p : payload_wf p = true -> payload_of_json (payload_to_json p) = Some p.
Proof.
  intros Hp. destruct p as [f|a b|a b]; cbn in *; [done| |].
  - apply andb_prop in Hp as [Ha Hb]. unfold payload_of_json. cbn. by rewrite !triple_roundtrip.
  - apply andb_prop in Hp as [Ha Hb]. unfold payload_of_json; cbn. by rewrite Ha, Hb.
Qed.

Lemma rule_read_back r : rule_wf r = true -> rule_of_json (rule_to_json r) = Some r.
Proof.
  intros Hr. destruct r as [f o|x y z|o]; cbn in Hr; unfold rule_of_json; cbn.
  - by rewrite operator_roundtrip.
  - apply andb_prop in Hr as [[Hx Hy]%andb_prop Hz]. destruct (optionals_roundtrip x y z Hx Hy Hz) as (-> & -> & ->). done.
  - by rewrite operator_roundtrip.
Qed.
