(* ===== verification/Schema.v ===== *)
(** * The schema of the database (backend/src/schema.rs, backend/migrations)

    The declarations of schema.rs as data, the migrations as lists of SQL
    statements, and an interpreter for these statements on a catalogue of
    PostgreSQL. The theorems: the migrations build the schema that the program
    is compiled against, every statement keeps the catalogue well-formed, and
    each migration is undone by its down.sql. [SqlStore] takes the constraints
    of the tables from here. *)
From S2P Require Import Prelude DbTypes Json.

(** ** schema.rs *)

Inductive SqlType : Type := Uuid_ | Timestamptz | Text_ | Jsonb | Bytea | EventKindMapping.
#[export] Instance SqlType_eq_dec : EqDecision SqlType.
Proof. solve_decision. Defined.

(** [table! { name (key) { column -> type } }]. *)
Record TableDecl : Type := mkTableDecl {
  td_name : string;
  td_key : string;
  td_columns : list (string * SqlType);
}.

Definition base (columns : list (string * SqlType)) : list (string * SqlType) :=
  ("id", Uuid_) :: ("created_at", Timestamptz) :: ("updated_at", Timestamptz) :: columns.

Definition composed_events : TableDecl := mkTableDecl "composed_events" "id"
  (base [("name", Text_); ("description", Text_); ("rule", Jsonb)]).
Definition composed_events_events : TableDecl := mkTableDecl "composed_events_events" "id"
  (base [("judgement_id", Uuid_); ("composed_event_id", Uuid_); ("event_id", Uuid_)]).
Definition device_credentials : TableDecl := mkTableDecl "device_credentials" "id"
  (base [("secret", Bytea); ("device_id", Uuid_)]).
Definition devices : TableDecl := mkTableDecl "devices" "id" (base [("name", Text_); ("description", Text_)]).
Definition events : TableDecl := mkTableDecl "events" "id"
  (base [("kind", EventKindMapping); ("payload", Jsonb); ("started_at", Timestamptz); ("ended_at", Timestamptz);
         ("device_id", Uuid_)]).
Definition events_labels : TableDecl := mkTableDecl "events_labels" "id"
  (base [("event_id", Uuid_); ("label_id", Uuid_)]).
Definition labels : TableDecl := mkTableDecl "labels" "id"
  (base [("event_kind", EventKindMapping); ("name", Text_); ("description", Text_); ("rule", Jsonb);
         ("device_id", Uuid_)]).
Definition schema : list TableDecl :=
  [composed_events; composed_events_events; device_credentials; devices; events; events_labels; labels].

(** [joinable!(child -> parent (column))]. *)
Definition joinable : list (string * string * string) :=
  [("composed_events_events", "composed_events", "composed_event_id");
   ("composed_events_events", "events", "event_id");
   ("device_credentials", "devices", "device_id");
   ("events", "devices", "device_id");
   ("events_labels", "events", "event_id");
   ("events_labels", "labels", "label_id");
   ("labels", "devices", "device_id")].

Definition allow_tables_to_appear_in_same_query : list string :=
  ["composed_events"; "composed_events_events"; "device_credentials"; "devices"; "events"; "events_labels"; "labels"].

(** ** The statements of the migrations *)

Inductive ColumnType : Type :=
| Builtin (t : SqlType)
| Enum (name : string).
#[export] Instance ColumnType_eq_dec : EqDecision ColumnType.
Proof. solve_decision. Defined.

Inductive Default : Type := Generated | Now | Literal (text : string).

(** Every column is NOT NULL or the primary key; every reference is to the
    primary key of its table, ON DELETE CASCADE ON UPDATE CASCADE. *)
Record Column : Type := mkColumn {
  c_name : string;
  c_type : ColumnType;
  c_default : option Default;
  c_references : option string;
}.
Record Table : Type := mkTable {
  tb_name : string;
  tb_key : string;
  tb_columns : list Column;
  tb_unique : list (list string);
}.

Inductive Statement : Type :=
| CreateFunction (name : string)
| DropFunctionIfExists (name : string)
| CreateExtensionIfNotExists (name : string)
| DropExtensionIfExists (name : string)
| CreateType (name : string) (values : list string)
| DropTypeIfExists (name : string)
| CreateTableIfNotExists (t : Table)
| DropTableIfExists (name : string).

Record Migration : Type := mkMigration {
  version : string;
  up : list Statement;
  down : list Statement;
}.

Definition column (name : string) (t : ColumnType) : Column := mkColumn name t None None.
Definition fk (name parent : string) : Column := mkColumn name (Builtin Uuid_) None (Some parent).
Definition create (name : string) (columns : list Column) (unique : list (list string)) : Table :=
  mkTable name "id"
    (mkColumn "id" (Builtin Uuid_) (Some Generated) None ::
     mkColumn "created_at" (Builtin Timestamptz) (Some Now) None ::
     mkColumn "updated_at" (Builtin Timestamptz) (Some Now) None :: columns) unique.

Definition devices_sql : Table := create "devices"
  [column "name" (Builtin Text_); column "description" (Builtin Text_)] [].
Definition events_sql : Table := create "events"
  [column "kind" (Enum "event_kind"); column "payload" (Builtin Jsonb); column "started_at" (Builtin Timestamptz);
   column "ended_at" (Builtin Timestamptz); fk "device_id" "devices"] [].
Definition device_credentials_sql : Table := create "device_credentials"
  [column "secret" (Builtin Bytea); fk "device_id" "devices"] [].
Definition labels_sql : Table := create "labels"
  [column "event_kind" (Enum "event_kind"); column "name" (Builtin Text_);
   mkColumn "description" (Builtin Text_) (Some (Literal "")) None; column "rule" (Builtin Jsonb);
   fk "device_id" "devices"] [["event_kind"; "name"; "device_id"]].
Definition events_labels_sql : Table := create "events_labels"
  [fk "event_id" "events"; fk "label_id" "labels"] [["event_id"; "label_id"]].
Definition composed_events_sql : Table := create "composed_events"
  [column "name" (Builtin Text_); mkColumn "description" (Builtin Text_) (Some (Literal "")) None;
   column "rule" (Builtin Jsonb)] [["name"]].
Definition composed_events_events_sql : Table := create "composed_events_events"
  [column "judgement_id" (Builtin Uuid_); fk "composed_event_id" "composed_events"; fk "event_id" "events"]
  [["composed_event_id"; "event_id"]].

Definition table_migration (version : string) (t : Table) : Migration :=
  mkMigration version [CreateTableIfNotExists t] [DropTableIfExists (tb_name t)].

(** The directories of backend/migrations, in the order of their names. *)
Definition migrations : list Migration := [
  mkMigration "00000000000000"
    [CreateFunction "diesel_manage_updated_at"; CreateFunction "diesel_set_updated_at"]
    [DropFunctionIfExists "diesel_manage_updated_at"; DropFunctionIfExists "diesel_set_updated_at"];
  mkMigration "2020-12-26-054700" [CreateExtensionIfNotExists "uuid-ossp"] [DropExtensionIfExists "uuid-ossp"];
  mkMigration "2020-12-26-054900" [CreateType "event_kind" ["sound"; "position"; "luminosity"]]
    [DropTypeIfExists "event_kind"];
  table_migration "2020-12-26-055317" devices_sql;
  table_migration "2020-12-26-075109" events_sql;
  table_migration "2020-12-28-064704" device_credentials_sql;
  table_migration "2020-12-31-053236" labels_sql;
  table_migration "2020-12-31-053240" events_labels_sql;
  table_migration "2020-12-31-060401" composed_events_sql;
  table_migration "2020-12-31-060554" composed_events_events_sql].

(** ** A catalogue of PostgreSQL *)

Record Catalogue : Type := mkCatalogue {
  cat_functions : list string;
  cat_extensions : list string;
  cat_types : list (string * list string);
  cat_tables : list Table;
}.
Definition empty_catalogue : Catalogue := mkCatalogue [] [] [] [].

Inductive SqlError : Type :=
| Duplicate (name : string)
| Undefined (name : string)
| StillReferenced (name : string).

Definition table_of (name : string) (ts : list Table) : option Table := find (fun t => String.eqb (tb_name t) name) ts.
Definition has_table (name : string) (ts : list Table) : bool := existsb (fun t => String.eqb (tb_name t) name) ts.
Definition names_enum (name : string) (t : Table) : bool :=
  existsb (fun c => bool_decide (c_type c = Enum name)) (tb_columns t).
Definition generates (t : Table) : bool :=
  existsb (fun c => match c_default c with Some Generated => true | _ => false end) (tb_columns t).
Definition refers_to (name : string) (t : Table) : bool :=
  existsb (fun c => bool_decide (c_references c = Some name)) (tb_columns t).
Definition remove_named (name : string) (l : list string) : list string := filter (fun n => n <> name) l.

(** What a column of a new table needs: its enum; [uuid_generate_v4] of the
    extension for its default; the table it refers to. *)
Definition column_ok (cat : Catalogue) (c : Column) : result unit SqlError :=
  res_bind match c_type c with
    | Enum name => if bool_decide (name ∈ (cat_types cat).*1) then Ok tt else Err (Undefined name)
    | Builtin _ => Ok tt
    end (fun _ =>
  res_bind match c_default c with
    | Some Generated => if bool_decide ("uuid-ossp" ∈ cat_extensions cat) then Ok tt else Err (Undefined "uuid_generate_v4")
    | _ => Ok tt
    end (fun _ =>
  match c_references c with
  | Some parent => if has_table parent (cat_tables cat) then Ok tt else Err (Undefined parent)
  | None => Ok tt
  end)).
Fixpoint columns_ok (cat : Catalogue) (cs : list Column) : result unit SqlError :=
  match cs with
  | [] => Ok tt
  | c :: cs => res_bind (column_ok cat c) (fun _ => columns_ok cat cs)
  end.

Definition exec (s : Statement) (cat : Catalogue) : result Catalogue SqlError :=
  let '(mkCatalogue fs es tys ts) := cat in
  match s with
  | CreateFunction name => Ok (mkCatalogue (remove_named name fs ++ [name]) es tys ts)
  | DropFunctionIfExists name => Ok (mkCatalogue (remove_named name fs) es tys ts)
  | CreateExtensionIfNotExists name =>
      Ok (mkCatalogue fs (if bool_decide (name ∈ es) then es else es ++ [name]) tys ts)
  | DropExtensionIfExists name =>
      if String.eqb name "uuid-ossp" && existsb generates ts then Err (StillReferenced name)
      else Ok (mkCatalogue fs (remove_named name es) tys ts)
  | CreateType name values =>
      if bool_decide (name ∈ tys.*1) then Err (Duplicate name) else Ok (mkCatalogue fs es (tys ++ [(name, values)]) ts)
  | DropTypeIfExists name =>
      if existsb (names_enum name) ts then Err (StillReferenced name)
      else Ok (mkCatalogue fs es (filter (fun t => fst t <> name) tys) ts)
  | CreateTableIfNotExists t =>
      if has_table (tb_name t) ts then Ok cat
      else res_bind (columns_ok cat (tb_columns t)) (fun _ => Ok (mkCatalogue fs es tys (ts ++ [t])))
  | DropTableIfExists name =>
      if existsb (fun t => refers_to name t && negb (String.eqb (tb_name t) name)) ts then Err (StillReferenced name)
      else Ok (mkCatalogue fs es tys (filter (fun t => tb_name t <> name) ts))
  end.
Fixpoint execs (ss : list Statement) (cat : Catalogue) : result Catalogue SqlError :=
  match ss with
  | [] => Ok cat
  | s :: ss => res_bind (exec s cat) (execs ss)
  end.

(** [diesel migration run]: the migrations in the order of their versions.
    [diesel migration revert]: the last one. *)
Fixpoint run_migrations (ms : list Migration) (cat : Catalogue) : result Catalogue SqlError :=
  match ms with
  | [] => Ok cat
  | m :: ms => res_bind (execs (up m) cat) (run_migrations ms)
  end.

(** ** [diesel print-schema]: tables and joins in alphabetical order *)

Definition insert_by {A} (key : A -> string) (a : A) : list A -> list A :=
  fix go l := match l with
  | [] => [a]
  | b :: l => if String.leb (key a) (key b) then a :: b :: l else b :: go l
  end.
Definition sort_by {A} (key : A -> string) (l : list A) : list A := foldr (insert_by key) [] l.

Definition rust_type (t : ColumnType) : SqlType := match t with Builtin t => t | Enum _ => EventKindMapping end.
Definition print_table (t : Table) : TableDecl :=
  mkTableDecl (tb_name t) (tb_key t) (map (fun c => (c_name c, rust_type (c_type c))) (tb_columns t)).
Definition print_schema (cat : Catalogue) : list TableDecl := sort_by td_name (map print_table (cat_tables cat)).
Definition table_joins (t : Table) : list (string * string * string) :=
  omap (fun c => parent ← c_references c; Some (tb_name t, parent, c_name c)) (tb_columns t).
Definition print_joinable (cat : Catalogue) : list (string * string * string) :=
  concat (map table_joins (sort_by tb_name (cat_tables cat))).

(** ** Well-formed catalogues *)

(** Names are unique; the columns of a table have what they need; references
    go to earlier tables. *)
Fixpoint in_order (seen : list string) (ts : list Table) : Prop :=
  match ts with
  | [] => True
  | t :: ts => (forall c parent, c ∈ tb_columns t -> c_references c = Some parent -> parent ∈ seen) /\
      in_order (tb_name t :: seen) ts
  end.
Record catalogue_ok (cat : Catalogue) : Prop := {
  ok_names : NoDup (map tb_name (cat_tables cat));
  ok_types : NoDup (cat_types cat).*1;
  ok_enums : forall t c name, t ∈ cat_tables cat -> c ∈ tb_columns t -> c_type c = Enum name -> name ∈ (cat_types cat).*1;
  ok_generated : forall t c, t ∈ cat_tables cat -> c ∈ tb_columns t -> c_default c = Some Generated ->
    "uuid-ossp" ∈ cat_extensions cat;
  ok_references : in_order [] (cat_tables cat);
}.

(** ** Lemmas *)

Lemma has_table_spec name ts : has_table name ts = true <-> exists t, t ∈ ts /\ tb_name t = name.
Proof.
  unfold has_table. rewrite existsb_exists. split; intros (t & Ht & Hn); exists t;
    rewrite list_elem_of_In, String.eqb_eq in *; done.
Qed.

Lemma refers_to_spec name t : refers_to name t = true <-> exists c, c ∈ tb_columns t /\ c_references c = Some name.
Proof.
  unfold refers_to. rewrite existsb_exists. split; intros (c & Hc & Hn); exists c;
    rewrite list_elem_of_In, bool_decide_eq_true in *; done.
Qed.

Lemma columns_ok_spec cat cs :
  columns_ok cat cs = Ok tt -> forall c, c ∈ cs -> column_ok cat c = Ok tt.
Proof.
  induction cs as [|d cs IH]; cbn; [by intros _ c ?%not_elem_of_nil|].
  destruct (column_ok cat d) as [[]|e] eqn:Ed; cbn; [|done]. intros Hcs c [->|Hc]%elem_of_cons; auto.
Qed.

Lemma column_ok_spec cat c :
  column_ok cat c = Ok tt ->
  (forall name, c_type c = Enum name -> name ∈ (cat_types cat).*1) /\
  (c_default c = Some Generated -> "uuid-ossp" ∈ cat_extensions cat) /\
  (forall parent, c_references c = Some parent -> has_table parent (cat_tables cat) = true).
Proof.
  unfold column_ok, res_bind. intros H. repeat (case_match; simplify_eq/=); split_and!; intros; simplify_eq/=;
    try done; by eapply bool_decide_eq_true.
Qed.

Lemma existsb_none {A} (f : A -> bool) (l : list A) : existsb f l = false <-> forall a, a ∈ l -> f a = false.
Proof.
  rewrite <- not_true_iff_false, existsb_exists. split.
  - intros H a Ha. apply not_true_iff_false. intros Hf. apply H. exists a. by rewrite <- list_elem_of_In.
  - intros H (a & Ha%list_elem_of_In & Hf). by rewrite H in Hf.
Qed.

Lemma in_order_mono seen seen' ts : seen ⊆ seen' -> in_order seen ts -> in_order seen' ts.
Proof.
  revert seen seen'. induction ts as [|t ts IH]; intros seen seen' Hs; cbn; [done|]. intros [Ht Hts].
  split; [eauto|]. eapply IH; [|done]. by apply list_subseteq_skip.
Qed.

Lemma in_order_snoc seen ts t :
  in_order seen ts -> (forall c parent, c ∈ tb_columns t -> c_references c = Some parent -> parent ∈ seen ++ map tb_name ts) ->
  in_order seen (ts ++ [t]).
Proof.
  revert seen. induction ts as [|u ts IH]; intros seen; cbn; [rewrite app_nil_r; auto|]. intros [Hu Hts] Ht.
  split; [done|]. apply IH; [done|]. intros c parent Hc Hp. specialize (Ht c parent Hc Hp).
  rewrite elem_of_app, elem_of_cons in *. tauto.
Qed.

Lemma in_order_filter name seen ts :
  in_order seen ts -> (forall t, t ∈ ts -> refers_to name t = true -> tb_name t = name) ->
  in_order (filter (fun n => n <> name) seen) (filter (fun t => tb_name t <> name) ts).
Proof.
  revert seen. induction ts as [|t ts IH]; intros seen; cbn [in_order]; [done|]. intros [Ht Hts] Hname.
  specialize (IH _ Hts (fun u Hu => Hname u (list_elem_of_further _ _ _ Hu))).
  destruct (decide (tb_name t = name)) as [Heq|Hne].
  - rewrite !filter_cons_False in * by auto. done.
  - rewrite !filter_cons_True in * by auto. cbn [in_order]. split; [|done].
    intros c parent Hc Hp. apply list_elem_of_filter. split; [|by eapply Ht].
    intros ->. apply Hne, Hname; [apply list_elem_of_here|]. apply refers_to_spec. eauto.
Qed.

Lemma in_order_names seen ts t c parent :
  in_order seen ts -> t ∈ ts -> c ∈ tb_columns t -> c_references c = Some parent -> parent ∈ seen ++ map tb_name ts.
Proof.
  revert seen. induction ts as [|u ts IH]; intros seen; cbn; [by intros _ ?%not_elem_of_nil|].
  intros [Hu Hts] [->|Ht]%elem_of_cons Hc Hp; [apply elem_of_app; left; by eapply Hu|].
  specialize (IH _ Hts Ht Hc Hp).
  rewrite elem_of_app, elem_of_cons in *. tauto.
Qed.

Lemma has_table_names name ts : has_table name ts = true <-> name ∈ map tb_name ts.
Proof.
  rewrite has_table_spec, list_elem_of_fmap. split; intros (t & H1 & H2); exists t; done.
Qed.

Lemma create_table_ok cat t :
  catalogue_ok cat -> has_table (tb_name t) (cat_tables cat) = false -> columns_ok cat (tb_columns t) = Ok tt ->
  catalogue_ok (mkCatalogue (cat_functions cat) (cat_extensions cat) (cat_types cat) (cat_tables cat ++ [t])).
Proof.
  intros [Hn Hty He Hg Hr] Hnew Hcs. pose proof (fun c Hc => column_ok_spec cat c (columns_ok_spec _ _ Hcs c Hc)) as Hok.
  split; cbn [cat_tables cat_types cat_extensions].
  - rewrite map_app. apply NoDup_app. split_and!; [done| |apply NoDup_singleton].
    intros n Hin ->%list_elem_of_singleton. by rewrite <- has_table_names, Hnew in Hin.
  - done.
  - intros u c name [Hu| ->%list_elem_of_singleton]%elem_of_app Hc Hname; [by eapply He|by apply (Hok c Hc)].
  - intros u c [Hu| ->%list_elem_of_singleton]%elem_of_app Hc Hd; [by eapply Hg|by apply (Hok c Hc)].
  - apply in_order_snoc; [done|]. intros c parent Hc Hp. cbn. apply has_table_names.
    destruct (Hok c Hc) as (_ & _ & Hpar). by apply Hpar.
Qed.

Lemma drop_table_ok cat name :
  catalogue_ok cat -> (forall t, t ∈ cat_tables cat -> refers_to name t = true -> tb_name t = name) ->
  catalogue_ok (mkCatalogue (cat_functions cat) (cat_extensions cat) (cat_types cat) (filter (fun t => tb_name t <> name) (cat_tables cat))).
Proof.
  intros [Hn Hty He Hg Hr] Href. split; cbn [cat_tables cat_types cat_extensions].
  - eapply sublist_NoDup; [exact Hn|]. apply (fmap_sublist tb_name), sublist_filter.
  - done.
  - intros t c n [_ Ht]%list_elem_of_filter. by apply He.
  - intros t c [_ Ht]%list_elem_of_filter. by apply Hg.
  - by apply (in_order_filter name []).
Qed.

Lemma remove_named_spec n name l : n ∈ remove_named name l <-> n <> name /\ n ∈ l.
Proof. unfold remove_named. by rewrite list_elem_of_filter. Qed.

(** Every statement that succeeds keeps the catalogue well-formed. *)
Lemma exec_ok s cat cat' : catalogue_ok cat -> exec s cat = Ok cat' -> catalogue_ok cat'.
Proof.
  intros Hok Hs. pose proof Hok as [Hn Hty He Hg Hr]. destruct cat as [fs es tys ts]. cbn in *.
  destruct s as [name|name|name|name|name values|name|t|name]; cbn in Hs; repeat case_match; simplify_eq; try done;
    try (split; cbn; done).
  - split; cbn; try done. intros t c Ht Hc Hd. apply elem_of_app. left. by eapply Hg.
  - split; cbn; try done. intros t c Ht Hc Hd. apply remove_named_spec. split; [|by eapply Hg].
    intros <-. apply andb_false_iff in H as [H|H]; [done|]. rewrite existsb_none in H. specialize (H t Ht).
    apply not_true_iff_false in H. apply H, existsb_exists. exists c. by rewrite <- list_elem_of_In, Hd.
  - split; cbn; try done.
    + rewrite fmap_app. apply NoDup_app. split_and!; [done| |apply NoDup_singleton].
      intros n Hin ->%list_elem_of_singleton. by apply bool_decide_eq_false in H.
    + intros t c n Ht Hc Hname. rewrite fmap_app. apply elem_of_app. left. by eapply He.
  - split; cbn; try done.
    + eapply sublist_NoDup; [exact Hty|]. apply fmap_sublist, sublist_filter.
    + intros t c n Ht Hc Hname. destruct (proj1 (list_elem_of_fmap _ _ _) (He t c n Ht Hc Hname)) as (ty & -> & Hty').
      apply list_elem_of_fmap. exists ty. split; [done|]. apply list_elem_of_filter. split; [|done].
      intros <-. rewrite existsb_none in H. specialize (H t Ht). apply not_true_iff_false in H.
      apply H, existsb_exists. exists c. rewrite <- list_elem_of_In, Hname. by rewrite bool_decide_eq_true_2.
  - unfold res_bind in Hs. case_match; simplify_eq. destruct a.
    by apply (create_table_ok (mkCatalogue fs es tys ts)).
  - apply (drop_table_ok (mkCatalogue fs es tys ts)); [done|]. intros t Ht Href. rewrite existsb_none in H.
    specialize (H t Ht). rewrite Href in H. apply negb_false_iff, String.eqb_eq in H. done.
Qed.

Lemma execs_ok ss cat cat' : catalogue_ok cat -> execs ss cat = Ok cat' -> catalogue_ok cat'.
Proof.
  revert cat. induction ss as [|s ss IH]; intros cat Hok; cbn; [by intros [= ->]|].
  destruct (exec s cat) as [cat1|e] eqn:Es; [|done]. apply IH. by eapply exec_ok.
Qed.

Lemma run_migrations_ok ms cat cat' : catalogue_ok cat -> run_migrations ms cat = Ok cat' -> catalogue_ok cat'.
Proof.
  revert cat. induction ms as [|m ms IH]; intros cat Hok; cbn; [by intros [= ->]|].
  destruct (execs (up m) cat) as [cat1|e] eqn:Es; [|done]. apply IH. by eapply execs_ok.
Qed.

Lemma empty_catalogue_ok : catalogue_ok empty_catalogue.
Proof. split; cbn; try done; try apply NoDup_nil_2; by intros * ?%not_elem_of_nil. Qed.

(** What a statement of an up.sql adds is new to the catalogue. *)
Definition adds (s : Statement) (cat : Catalogue) : Prop :=
  match s with
  | CreateFunction name => name ∉ cat_functions cat
  | CreateExtensionIfNotExists name => name ∉ cat_extensions cat
  | CreateType name _ => name ∉ (cat_types cat).*1
  | CreateTableIfNotExists t => has_table (tb_name t) (cat_tables cat) = false
  | _ => False
  end.
Definition inverse (s : Statement) : list Statement :=
  match s with
  | CreateFunction name => [DropFunctionIfExists name]
  | CreateExtensionIfNotExists name => [DropExtensionIfExists name]
  | CreateType name _ => [DropTypeIfExists name]
  | CreateTableIfNotExists t => [DropTableIfExists (tb_name t)]
  | _ => []
  end.

Lemma remove_named_app name l : name ∉ l -> remove_named name (l ++ [name]) = l.
Proof.
  intros Hn. unfold remove_named. rewrite filter_app, (filter_cons_False _ name), filter_nil, app_nil_r by auto.
  apply filter_all. by intros a Ha ->.
Qed.

Lemma exec_inverse s cat cat' :
  catalogue_ok cat -> adds s cat -> exec s cat = Ok cat' -> execs (inverse s) cat' = Ok cat.
Proof.
  intros [Hn Hty He Hg Hr] Ha Hs. destruct cat as [fs es tys ts].
  destruct s as [name|name|name|name|name values|name|t|name]; cbn in *; try done.
  - injection Hs as <-. cbn. unfold remove_named at 2. rewrite filter_all by (by intros a Hin ->).
    by rewrite remove_named_app.
  - injection Hs as <-. rewrite bool_decide_false by done. cbn. rewrite remove_named_app by done.
    case_match; [|done]. apply andb_true_iff in H as [->%String.eqb_eq (t & Ht & Hgen)%existsb_exists].
    destruct Ha. apply existsb_exists in Hgen as (c & Hc & Hd). rewrite <- !list_elem_of_In in *.
    apply (Hg t c); [done..|]. by repeat case_match.
  - rewrite bool_decide_false in Hs by done. injection Hs as <-. cbn. rewrite (proj2 (existsb_none _ _)).
    + cbn. rewrite filter_app, filter_cons_False, filter_nil, app_nil_r by auto. rewrite filter_all; [done|].
      intros ty Hin Heq. apply Ha. rewrite <- Heq. by apply list_elem_of_fmap_2.
    + intros t Ht. apply not_true_iff_false. intros (c & Hc & Heq%bool_decide_eq_true)%existsb_exists.
      apply Ha. apply list_elem_of_In in Hc. by eapply He.
  - change (has_table (tb_name t) ts = false) in Ha. rewrite Ha in Hs. destruct (columns_ok _ _) as [[]|e] eqn:Hcs; [|done]. injection Hs as <-. cbn.
    rewrite (proj2 (existsb_none _ _)).
    + cbn. rewrite filter_app, filter_cons_False, filter_nil, app_nil_r by auto. rewrite filter_all; [done|].
      intros u Hu Heq. apply not_true_iff_false in Ha. apply Ha, has_table_spec. eauto.
    + intros u [Hu| ->%list_elem_of_singleton]%elem_of_app; [|by rewrite String.eqb_refl, andb_false_r].
      apply andb_false_iff. left. apply not_true_iff_false. intros (c & Hc & Hp)%refers_to_spec.
      apply not_true_iff_false in Ha. apply Ha, has_table_names. by apply (in_order_names [] ts u c).
Qed.

Lemma drop_functions fs f g :
  f <> g -> f ∉ fs -> g ∉ fs ->
  remove_named g (remove_named f (remove_named g (remove_named f fs ++ [f]) ++ [g])) = fs.
Proof.
  intros Hne Hf Hg. assert (Hid : forall n l, n ∉ l -> remove_named n l = l) by (intros n l Hn; apply filter_all; by intros a Ha ->).
  rewrite (Hid f fs Hf), (Hid g (fs ++ [f])) by (rewrite elem_of_app, list_elem_of_singleton; by intros [?|?]).
  unfold remove_named at 2. rewrite filter_app. fold (remove_named f (fs ++ [f])). fold (remove_named f [g]).
  rewrite remove_named_app, (Hid f [g]) by (rewrite ?list_elem_of_singleton; done). by apply remove_named_app.
Qed.

(** ** Properties *)

(** C26: the migrations, run on an empty catalogue, build the schema that the
    program is compiled against: diesel's print-schema gives the tables and the
    joins that schema.rs declares, every table may be joined, and the values of
    the enum are the variants of [EventKind], in their order. *)
Theorem migrations_build_schema :
  exists cat, run_migrations migrations empty_catalogue = Ok cat /\ catalogue_ok cat /\
    print_schema cat = schema /\ print_joinable cat = joinable /\
    map td_name (print_schema cat) = allow_tables_to_appear_in_same_query /\
    cat_types cat = [("event_kind", map kind_name [KSound; KPosition; KLuminosity])].
Proof.
  destruct (run_migrations migrations empty_catalogue) as [cat|e] eqn:Hm; [|discriminate Hm].
  exists cat. split; [done|]. split; [by eapply run_migrations_ok, Hm; apply empty_catalogue_ok|].
  vm_compute in Hm. injection Hm as <-. repeat split; vm_compute; reflexivity.
Qed.

(** Each migration is undone by its down.sql: on any well-formed catalogue
    that has none of what its up.sql adds, if the latter succeeds, the result is
    well-formed and the former leads back to where it started. *)
Lemma migrations_revert (m : Migration) (cat cat' : Catalogue) :
  m ∈ migrations -> catalogue_ok cat -> Forall (fun s => adds s cat) (up m) -> execs (up m) cat = Ok cat' ->
  catalogue_ok cat' /\ execs (down m) cat' = Ok cat.
Proof.
  intros Hm Hok Ha Hup. split; [by eapply execs_ok|].
  assert (forall s, up m = [s] -> down m = inverse s -> execs (down m) cat' = Ok cat) as Hone.
  { intros s Hu ->. rewrite Hu in Hup, Ha. apply Forall_cons in Ha as [Ha _]. cbn in Hup.
    destruct (exec s cat) as [cat1|] eqn:Es; [|done]. injection Hup as <-. by apply exec_inverse. }
  unfold migrations in Hm. apply elem_of_cons in Hm as [->|Hm].
  - clear Hone. destruct cat as [fs es tys ts]. cbn in Hup. injection Hup as <-. cbn. do 2 f_equal.
    apply Forall_cons in Ha as [Hf [Hg _]%Forall_cons]. by apply drop_functions.
  - rewrite !elem_of_cons in Hm. repeat destruct Hm as [->|Hm]; try (eapply Hone; reflexivity).
    by apply not_elem_of_nil in Hm.
Qed.

Lemma migrations_revert_witness :
  exists cat, execs (up (table_migration "2020-12-26-055317" devices_sql))
      (mkCatalogue [] ["uuid-ossp"] [] []) = Ok cat /\
    execs (down (table_migration "2020-12-26-055317" devices_sql)) cat = Ok (mkCatalogue [] ["uuid-ossp"] [] []).
Proof.
  eexists. split; [vm_compute; reflexivity|]. apply (migrations_revert _ (mkCatalogue [] ["uuid-ossp"] [] [])).
  - apply list_elem_of_lookup. exists 3%nat. reflexivity.
  - split; cbn; try done; try apply NoDup_nil_2; by intros * ?%not_elem_of_nil.
  - apply Forall_singleton. reflexivity.
  - vm_compute. reflexivity.
Defined.
