(* ===== verification/Store.v ===== *)
(** * The database behind the actor

    PostgreSQL and [diesel] are not part of the repository: [Postgres] is the
    interface of the statements the handlers execute, [PostgresLaws] their
    documented effect on the tables of backend/migrations (primary keys, unique
    constraints, foreign keys with ON DELETE CASCADE, the resolution of
    TIMESTAMPTZ). [Tables] holds what the
    laws are stated in; [MemStore.v] is a store that satisfies them. *)
From S2P Require Import Prelude MachineInt Bincode DbTypes.
Open Scope Z_scope.

Section Tables.
Context `{U : UuidOps} `{C : Chrono}.

(** ** Tables *)

Record tables : Type := mkTables {
  t_devices : gmap Uuid Device;
  t_credentials : list (list byte * Uuid);
  t_events : gmap Uuid Event;
  t_labels : gmap Uuid Label;
  t_events_labels : gmap Uuid EventLabel;
}.

Definition empty_tables : tables := mkTables ∅ [] ∅ ∅ ∅.

Definition ins_device (d : Device) (t : tables) : tables :=
  mkTables (<[device_id d := d]> (t_devices t)) (t_credentials t) (t_events t) (t_labels t) (t_events_labels t).
Definition ins_credential (c : NewDeviceCredential) (t : tables) : tables :=
  mkTables (t_devices t) ((ndc_secret c, ndc_device_id c) :: t_credentials t) (t_events t) (t_labels t)
    (t_events_labels t).
Definition ins_event (e : Event) (t : tables) : tables :=
  mkTables (t_devices t) (t_credentials t) (<[event_id e := e]> (t_events t)) (t_labels t) (t_events_labels t).
Definition ins_label (l : Label) (t : tables) : tables :=
  mkTables (t_devices t) (t_credentials t) (t_events t) (<[label_id l := l]> (t_labels t)) (t_events_labels t).
Definition ins_event_label (r : EventLabel) (t : tables) : tables :=
  mkTables (t_devices t) (t_credentials t) (t_events t) (t_labels t) (<[el_id r := r]> (t_events_labels t)).

(** Deleting a label deletes its links to events; deleting a device deletes
    its credentials, its events and labels, and their links. *)
Definition keeps_labels (f : Label -> Prop) `{forall l, Decision (f l)} (t : tables) (r : EventLabel) : Prop :=
  match t_labels t !! el_label_id r with Some l => f l | None => True end.
#[global] Instance keeps_labels_dec f `{forall l, Decision (f l)} t r : Decision (keeps_labels f t r).
Proof. unfold keeps_labels. destruct (_ !! _); apply _. Defined.
Definition keeps_events (f : Event -> Prop) `{forall e, Decision (f e)} (t : tables) (r : EventLabel) : Prop :=
  match t_events t !! el_event_id r with Some e => f e | None => True end.
#[global] Instance keeps_events_dec f `{forall l, Decision (f l)} t r : Decision (keeps_events f t r).
Proof. unfold keeps_events. destruct (_ !! _); apply _. Defined.

Definition del_label (i : Uuid) (t : tables) : tables :=
  mkTables (t_devices t) (t_credentials t) (t_events t) (delete i (t_labels t))
    (filter (fun '(_, r) => el_label_id r <> i) (t_events_labels t)).

Definition del_device (i : Uuid) (t : tables) : tables :=
  mkTables (delete i (t_devices t))
    (filter (fun c => snd c <> i) (t_credentials t))
    (filter (fun '(_, e) => event_device_id e <> i) (t_events t))
    (filter (fun '(_, l) => label_device_id l <> i) (t_labels t))
    (filter (fun '(_, r) => keeps_events (fun e => event_device_id e <> i) t r /\
                            keeps_labels (fun l => label_device_id l <> i) t r) (t_events_labels t)).

(** The rows of the join of events_labels and labels for a set of events. *)
Definition linked (t : tables) (r : EventLabel) (l : Label) : Prop :=
  t_events_labels t !! el_id r = Some r /\ t_labels t !! el_label_id r = Some l.

(** The constraints of the migrations. *)
Record integrity (t : tables) : Prop := {
  pk_devices : forall i d, t_devices t !! i = Some d -> device_id d = i;
  pk_events : forall i e, t_events t !! i = Some e -> event_id e = i;
  pk_labels : forall i l, t_labels t !! i = Some l -> label_id l = i;
  pk_events_labels : forall i r, t_events_labels t !! i = Some r -> el_id r = i;
  fk_credentials : forall s i, (s, i) ∈ t_credentials t -> is_Some (t_devices t !! i);
  fk_events : forall i e, t_events t !! i = Some e -> is_Some (t_devices t !! event_device_id e);
  fk_labels : forall i l, t_labels t !! i = Some l -> is_Some (t_devices t !! label_device_id l);
  fk_links_events : forall i r, t_events_labels t !! i = Some r -> is_Some (t_events t !! el_event_id r);
  fk_links_labels : forall i r, t_events_labels t !! i = Some r -> is_Some (t_labels t !! el_label_id r);
  unique_labels : forall i j l m, t_labels t !! i = Some l -> t_labels t !! j = Some m ->
    label_event_kind l = label_event_kind m -> label_name l = label_name m ->
    label_device_id l = label_device_id m -> i = j;
  unique_links : forall i j r q, t_events_labels t !! i = Some r -> t_events_labels t !! j = Some q ->
    el_event_id r = el_event_id q -> el_label_id r = el_label_id q -> i = j;
}.
End Tables.

(** ** The statements *)

Class Postgres `{UuidOps} `{Chrono} (DB : Type) := {
  tables_of : DB -> tables;
  (** [Pool::get]. *)
  pool_get : DB -> result unit PoolErr;
  (** [Connection::transaction]. *)
  transaction {A} : (DB -> result A Error * DB) -> DB -> result A Error * DB;
  (** INSERT ... RETURNING, and the number of rows of the others. *)
  q_insert_device : NewDevice -> DB -> result Device DieselError * DB;
  q_insert_credential : NewDeviceCredential -> DB -> result nat DieselError * DB;
  q_insert_event : NewEvent -> DB -> result Uuid DieselError * DB;
  q_insert_label : NewLabel -> DB -> result Uuid DieselError * DB;
  q_insert_event_labels : list NewEventLabel -> DB -> result nat DieselError * DB;
  q_delete_device : Uuid -> DB -> result nat DieselError * DB;
  q_delete_label : Uuid -> DB -> result nat DieselError * DB;
  (** SELECT. *)
  q_devices : DB -> result (list Device) DieselError;
  q_device_by_secret : list byte -> DB -> result Device DieselError;
  q_events : DB -> result (list Event) DieselError;
  q_event : Uuid -> DB -> result Event DieselError;
  q_labels : DB -> result (list Label) DieselError;
  q_links : list Event -> DB -> result (list (EventLabel * Label)) DieselError;
  (** [GroupedBy::grouped_by], for children that belong to events. *)
  grouped_by : list (EventLabel * Label) -> list Event -> list (list (EventLabel * Label));
}.

Section Laws.
Context `{U : UuidOps} `{C : Chrono} (DB : Type) `{PG : !Postgres DB}.

(** The effect of a modifying statement on the tables: [ok] relates the tables
    before, the result and the tables after; an error changes nothing, and is
    not [NotFound], which diesel keeps for a query that returns no row. *)
Definition modifies {A} (stmt : DB -> result A DieselError * DB)
    (ok : tables -> A -> tables -> Prop) : Prop :=
  forall db, match stmt db with
    | (Ok a, db') => ok (tables_of db) a (tables_of db')
    | (Err e, db') => e <> NotFound /\ tables_of db' = tables_of db
    end.

Class PostgresLaws : Prop := {
  transaction_spec : forall A (body : DB -> result A Error * DB) db,
    match transaction body db with
    | (Ok a, db') => exists db1 db2, tables_of db1 = tables_of db /\ body db1 = (Ok a, db2) /\
        tables_of db' = tables_of db2
    | (Err e, db') => tables_of db' = tables_of db
    end;
  insert_device_spec : forall nd, modifies (q_insert_device nd) (fun t d t' =>
    t_devices t !! device_id d = None /\ device_name d = nd_name nd /\
    device_description d = nd_description nd /\ t' = ins_device d t);
  insert_credential_spec : forall c, modifies (q_insert_credential c) (fun t _ t' =>
    is_Some (t_devices t !! ndc_device_id c) /\ t' = ins_credential c t);
  insert_event_spec : forall ne, modifies (q_insert_event ne) (fun t i t' =>
    t_events t !! i = None /\ is_Some (t_devices t !! ne_device_id ne) /\
    t' = ins_event (stored_event (mkEvent i (ne_kind ne) (ne_payload ne) (ne_started_at ne) (ne_ended_at ne)
      (ne_device_id ne))) t);
  insert_label_spec : forall nl, modifies (q_insert_label nl) (fun t i t' =>
    t_labels t !! i = None /\ is_Some (t_devices t !! nl_device_id nl) /\
    (forall j m, t_labels t !! j = Some m -> label_event_kind m = nl_event_kind nl ->
       label_name m = nl_name nl -> label_device_id m = nl_device_id nl -> False) /\
    t' = ins_label (mkLabel i (nl_event_kind nl) (nl_name nl) (nl_description nl) (nl_rule nl)
      (nl_device_id nl)) t);
  insert_event_labels_spec : forall nels, modifies (q_insert_event_labels nels) (fun t n t' =>
    n = length nels /\ exists rows,
      map (fun r => mkNewEventLabel (el_event_id r) (el_label_id r)) rows = nels /\
      t' = foldl (fun t r => ins_event_label r t) t rows /\
      forall pre r post, rows = pre ++ r :: post ->
        let t1 := foldl (fun t r => ins_event_label r t) t pre in
        t_events_labels t1 !! el_id r = None /\ is_Some (t_events t !! el_event_id r) /\
        is_Some (t_labels t !! el_label_id r) /\
        forall j q, t_events_labels t1 !! j = Some q -> el_event_id q = el_event_id r ->
          el_label_id q = el_label_id r -> False);
  delete_device_spec : forall i, modifies (q_delete_device i) (fun t n t' =>
    n = (if decide (is_Some (t_devices t !! i)) then 1%nat else 0%nat) /\ t' = del_device i t);
  delete_label_spec : forall i, modifies (q_delete_label i) (fun t n t' =>
    n = (if decide (is_Some (t_labels t !! i)) then 1%nat else 0%nat) /\ t' = del_label i t);
  devices_spec : forall db l, q_devices db = Ok l ->
    l ≡ₚ (map_to_list (t_devices (tables_of db))).*2;
  device_by_secret_ok : forall s db d, q_device_by_secret s db = Ok d ->
    exists i, (s, i) ∈ t_credentials (tables_of db) /\ t_devices (tables_of db) !! i = Some d;
  device_by_secret_none : forall s db, q_device_by_secret s db = Err NotFound ->
    forall i d, (s, i) ∈ t_credentials (tables_of db) -> t_devices (tables_of db) !! i = Some d -> False;
  events_spec : forall db l, q_events db = Ok l ->
    l ≡ₚ (map_to_list (t_events (tables_of db))).*2;
  event_ok : forall i db e, q_event i db = Ok e -> t_events (tables_of db) !! i = Some e;
  event_none : forall i db, q_event i db = Err NotFound -> t_events (tables_of db) !! i = None;
  labels_spec : forall db l, q_labels db = Ok l ->
    l ≡ₚ (map_to_list (t_labels (tables_of db))).*2;
  links_spec : forall es db l, q_links es db = Ok l -> NoDup l /\ forall r lb,
    (r, lb) ∈ l <-> linked (tables_of db) r lb /\ el_event_id r ∈ map event_id es;
  (** [load] answers an empty vector rather than [NotFound]. *)
  links_load : forall es db e, q_links es db = Err e -> e <> NotFound;
  grouped_by_spec : forall children parents,
    grouped_by children parents =
      map (fun p => filter (fun c => el_event_id (fst c) = event_id p) children) parents;
}.
End Laws.

(** ** Lemmas: the statements preserve the constraints *)

Section Integrity.
Context `{U : UuidOps} `{C : Chrono}.

Lemma empty_integrity : integrity empty_tables.
Proof. split; cbn; intros *; rewrite ?lookup_empty; try done. by intros []%not_elem_of_nil. Qed.

(** A row that a statement adds, or an old one. *)
Ltac insert_cases := repeat match goal with
  | H : <[?i := _]> _ !! ?j = Some _ |- _ =>
      apply lookup_insert_Some in H as [[??]|[??]]; simplify_eq/=
  end.

Lemma is_Some_insert {A} (m : gmap Uuid A) (i j : Uuid) (x : A) :
  is_Some (m !! j) -> is_Some (<[i:=x]> m !! j).
Proof. intros. rewrite lookup_insert. case_decide; eauto. Qed.

Lemma ins_device_integrity (d : Device) (t : tables) :
  integrity t -> t_devices t !! device_id d = None -> integrity (ins_device d t).
Proof.
  intros [] Hnew. split; cbn; intros; insert_cases; eauto using is_Some_insert.
Qed.

Lemma ins_credential_integrity (c : NewDeviceCredential) (t : tables) :
  integrity t -> is_Some (t_devices t !! ndc_device_id c) -> integrity (ins_credential c t).
Proof.
  intros [] Hfk. split; cbn; intros; eauto.
  match goal with H : _ ∈ _ :: _ |- _ => apply elem_of_cons in H as [?|?] end; simplify_eq; eauto.
Qed.

Lemma ins_event_integrity (e : Event) (t : tables) :
  integrity t -> is_Some (t_devices t !! event_device_id e) -> integrity (ins_event e t).
Proof.
  intros [] Hfk. split; cbn; intros; insert_cases; eauto using is_Some_insert.
Qed.

Lemma ins_label_integrity (l : Label) (t : tables) :
  integrity t -> t_labels t !! label_id l = None -> is_Some (t_devices t !! label_device_id l) ->
  (forall j m, t_labels t !! j = Some m -> label_event_kind m = label_event_kind l ->
     label_name m = label_name l -> label_device_id m = label_device_id l -> False) ->
  integrity (ins_label l t).
Proof.
  intros [] Hnew Hfk Huniq. split; cbn; intros; insert_cases; eauto using is_Some_insert; exfalso; eauto.
Qed.

Lemma ins_event_label_integrity (r : EventLabel) (t : tables) :
  integrity t -> t_events_labels t !! el_id r = None -> is_Some (t_events t !! el_event_id r) ->
  is_Some (t_labels t !! el_label_id r) ->
  (forall j q, t_events_labels t !! j = Some q -> el_event_id q = el_event_id r ->
     el_label_id q = el_label_id r -> False) ->
  integrity (ins_event_label r t).
Proof.
  intros [] Hnew He Hl Huniq. split; cbn; intros; insert_cases; eauto; exfalso; eauto.
Qed.

Ltac filter_cases := repeat match goal with
  | H : filter _ _ !! _ = Some _ |- _ => apply map_lookup_filter_Some in H as [??]
  | H : delete _ _ !! _ = Some _ |- _ => apply lookup_delete_Some in H as [??]
  | H : _ ∈ filter _ _ |- _ => apply list_elem_of_filter in H as [??]
  end.

Lemma del_label_integrity (i : Uuid) (t : tables) : integrity t -> integrity (del_label i t).
Proof.
  intros []. split; cbn; intros; filter_cases; eauto.
  rewrite lookup_delete_ne by done. eauto.
Qed.

Lemma del_device_integrity (i : Uuid) (t : tables) : integrity t -> integrity (del_device i t).
Proof.
  intros []. split; cbn; intros; filter_cases; eauto.
  - rewrite lookup_delete_ne by done. eauto.
  - rewrite lookup_delete_ne by done. eauto.
  - rewrite lookup_delete_ne by done. eauto.
  - destruct (fk_links_events0 _ _ ltac:(eassumption)) as [e He].
    exists e. apply map_lookup_filter_Some. split; [done|].
    match goal with H : _ /\ _ |- _ => destruct H as [Hk _] end. unfold keeps_events in Hk. by rewrite He in Hk.
  - destruct (fk_links_labels0 _ _ ltac:(eassumption)) as [l Hl].
    exists l. apply map_lookup_filter_Some. split; [done|].
    match goal with H : _ /\ _ |- _ => destruct H as [_ Hk] end. unfold keeps_labels in Hk. by rewrite Hl in Hk.
Qed.

(** Deleting a row that does not exist changes nothing. *)
Lemma del_device_absent (i : Uuid) (t : tables) :
  integrity t -> t_devices t !! i = None -> del_device i t = t.
Proof.
  intros [] Hi. assert (forall j, is_Some (t_devices t !! j) -> j <> i) as Hne by (intros j [? ?] ->; congruence).
  destruct t as [ds cs es ls rs]; unfold del_device; cbn in *. f_equal.
  - by apply delete_id.
  - apply filter_all. intros [s j] Hs. eauto.
  - apply map_filter_id. eauto.
  - apply map_filter_id. eauto.
  - apply map_filter_id. intros j r Hr. unfold keeps_events, keeps_labels; cbn.
    destruct (fk_links_events0 _ _ Hr) as [e He]. destruct (fk_links_labels0 _ _ Hr) as [l Hl]. rewrite He, Hl. split; apply Hne; eauto.
Qed.

Lemma del_label_absent (i : Uuid) (t : tables) :
  integrity t -> t_labels t !! i = None -> del_label i t = t.
Proof.
  intros [] Hi. destruct t as [ds cs es ls rs]; unfold del_label; cbn in *. f_equal.
  - by apply delete_id.
  - apply map_filter_id. intros j r Hr Hri. destruct (fk_links_labels0 _ _ Hr). congruence.
Qed.
End Integrity.
