(* ===== verification/MemStore.v ===== *)
(** * A store in memory that satisfies [PostgresLaws], and a clock that
    satisfies [ChronoLaws]: the interfaces of the database are consistent, and
    the theorems on its handlers can be evaluated on concrete requests. *)
From S2P Require Import Prelude MachineInt Bincode DbTypes Store.
Open Scope Z_scope.

(** ** The clock: seconds and nanoseconds. A column holds the microseconds since
    the year 2000, rounded towards that instant. *)

Definition year_2000 : Z := 946684800.

Definition chrono_pair : Chrono := {|
  DateTime := Z * Z;
  from_timestamp secs nsecs :=
    if (- 8000000000000 <=? secs) && (secs <=? 8000000000000) && (nsecs <? 2000000000)
    then Some (secs, nsecs) else None;
  Instant := Z;
  to_instant '(secs, nsecs) := Z.quot ((secs - year_2000) * 1000000000 + nsecs) 1000;
  of_instant i := (i / 1000000 + year_2000, i mod 1000000 * 1000);
|}.

Lemma chrono_pair_laws : @ChronoLaws chrono_pair.
Proof.
  constructor.
  - intros secs nsecs Hn. cbn. destruct (nsecs <? 2000000000) eqn:E; [blia|]. by rewrite andb_false_r.
  - intros i. cbn. replace (_ + _) with (i * 1000); [by apply Z.quot_mul|]. pose proof (Z.div_mod i 1000000). lia.
Qed.

Example nanoseconds_are_lost : @as_stored chrono_pair (60, 1234567) = (60, 1235000).
Proof. reflexivity. Qed.

(** ** The store: the tables and the number of identifiers given out; [gen] is
    the generator of identifiers. *)

Section Mem.
Context `{U : UuidOps} `{C : Chrono} (gen : nat -> Uuid).

Record mem : Type := mkMem { m_tables : tables; m_next : nat }.

Definition duplicate {A} (m : mem) : result A DieselError * mem := (Err (DieselOther "duplicate key"), m).
Definition violation {A} (m : mem) : result A DieselError * mem := (Err (DieselOther "foreign key"), m).

Definition mem_insert_device (nd : NewDevice) (m : mem) : result Device DieselError * mem :=
  let d := mkDevice (gen (m_next m)) (nd_name nd) (nd_description nd) in
  if decide (t_devices (m_tables m) !! device_id d = None)
  then (Ok d, mkMem (ins_device d (m_tables m)) (S (m_next m))) else duplicate m.

Definition mem_insert_credential (c : NewDeviceCredential) (m : mem) : result nat DieselError * mem :=
  if decide (is_Some (t_devices (m_tables m) !! ndc_device_id c))
  then (Ok 1%nat, mkMem (ins_credential c (m_tables m)) (m_next m)) else violation m.

Definition mem_insert_event (ne : NewEvent) (m : mem) : result Uuid DieselError * mem :=
  let i := gen (m_next m) in
  if decide (t_events (m_tables m) !! i = None) then
    if decide (is_Some (t_devices (m_tables m) !! ne_device_id ne))
    then (Ok i, mkMem (ins_event (stored_event (mkEvent i (ne_kind ne) (ne_payload ne) (ne_started_at ne) (ne_ended_at ne)
                 (ne_device_id ne))) (m_tables m)) (S (m_next m)))
    else violation m
  else duplicate m.

Definition same_label (nl : NewLabel) (l : Label) : Prop :=
  label_event_kind l = nl_event_kind nl /\ label_name l = nl_name nl /\ label_device_id l = nl_device_id nl.
#[local] Instance same_label_dec nl l : Decision (same_label nl l).
Proof. unfold same_label. apply _. Defined.

Definition mem_insert_label (nl : NewLabel) (m : mem) : result Uuid DieselError * mem :=
  let i := gen (m_next m) in
  if decide (t_labels (m_tables m) !! i = None /\
             map_Forall (fun _ l => ~ same_label nl l) (t_labels (m_tables m))) then
    if decide (is_Some (t_devices (m_tables m) !! nl_device_id nl))
    then (Ok i, mkMem (ins_label (mkLabel i (nl_event_kind nl) (nl_name nl) (nl_description nl) (nl_rule nl)
                 (nl_device_id nl)) (m_tables m)) (S (m_next m)))
    else violation m
  else duplicate m.

Definition same_link (r q : EventLabel) : Prop :=
  el_event_id q = el_event_id r /\ el_label_id q = el_label_id r.
#[local] Instance same_link_dec r q : Decision (same_link r q).
Proof. unfold same_link. apply _. Defined.

(** The rows are checked and added one by one. *)
Fixpoint mem_insert_links (nels : list NewEventLabel) (next : nat) (t : tables) : option (list EventLabel * tables * nat) :=
  match nels with
  | [] => Some ([], t, next)
  | nel :: nels =>
      let r := mkEventLabel (gen next) (nel_event_id nel) (nel_label_id nel) in
      if decide (t_events_labels t !! el_id r = None /\ is_Some (t_events t !! el_event_id r) /\
                 is_Some (t_labels t !! el_label_id r) /\
                 map_Forall (fun _ q => ~ same_link r q) (t_events_labels t))
      then '(rows, t', next') ← mem_insert_links nels (S next) (ins_event_label r t); Some (r :: rows, t', next')
      else None
  end.

Definition mem_insert_event_labels (nels : list NewEventLabel) (m : mem) : result nat DieselError * mem :=
  match mem_insert_links nels (m_next m) (m_tables m) with
  | Some (_, t, next) => (Ok (length nels), mkMem t next)
  | None => violation m
  end.

Definition mem_delete_device (i : Uuid) (m : mem) : result nat DieselError * mem :=
  (Ok (if decide (is_Some (t_devices (m_tables m) !! i)) then 1%nat else 0%nat),
   mkMem (del_device i (m_tables m)) (m_next m)).
Definition mem_delete_label (i : Uuid) (m : mem) : result nat DieselError * mem :=
  (Ok (if decide (is_Some (t_labels (m_tables m) !! i)) then 1%nat else 0%nat),
   mkMem (del_label i (m_tables m)) (m_next m)).

Definition found {A} (o : option A) : result A DieselError :=
  match o with
  | Some a => Ok a
  | None => Err NotFound
  end.

(** The first credential of the secret whose device exists. *)
Definition mem_device_by_secret (s : list byte) (m : mem) : result Device DieselError :=
  found (head (omap (fun '(s', i) => if decide (s' = s) then t_devices (m_tables m) !! i else None)
    (t_credentials (m_tables m)))).

Definition mem_links (es : list Event) (m : mem) : list (EventLabel * Label) :=
  omap (fun '(i, r) => if decide (i = el_id r /\ el_event_id r ∈ map event_id es)
                       then l ← t_labels (m_tables m) !! el_label_id r; Some (r, l) else None)
    (map_to_list (t_events_labels (m_tables m))).

#[local] Instance mem_postgres : Postgres mem := {|
  tables_of := m_tables;
  pool_get _ := Ok tt;
  transaction A body m := match body m with
    | (Ok a, m') => (Ok a, m')
    | (Err e, _) => (Err e, m)
    end;
  q_insert_device := mem_insert_device;
  q_insert_credential := mem_insert_credential;
  q_insert_event := mem_insert_event;
  q_insert_label := mem_insert_label;
  q_insert_event_labels := mem_insert_event_labels;
  q_delete_device := mem_delete_device;
  q_delete_label := mem_delete_label;
  q_devices m := Ok (map_to_list (t_devices (m_tables m))).*2;
  q_device_by_secret := mem_device_by_secret;
  q_events m := Ok (map_to_list (t_events (m_tables m))).*2;
  q_event i m := found (t_events (m_tables m) !! i);
  q_labels m := Ok (map_to_list (t_labels (m_tables m))).*2;
  q_links es m := Ok (mem_links es m);
  grouped_by children parents :=
    map (fun p => filter (fun c => el_event_id (fst c) = event_id p) children) parents;
|}.

(** ** The laws *)

Lemma mem_insert_links_spec nels next t rows t' next' :
  mem_insert_links nels next t = Some (rows, t', next') ->
  map (fun r => mkNewEventLabel (el_event_id r) (el_label_id r)) rows = nels /\
  t' = foldl (fun t r => ins_event_label r t) t rows /\
  forall pre r post, rows = pre ++ r :: post ->
    let t1 := foldl (fun t r => ins_event_label r t) t pre in
    t_events_labels t1 !! el_id r = None /\ is_Some (t_events t !! el_event_id r) /\
    is_Some (t_labels t !! el_label_id r) /\
    forall j q, t_events_labels t1 !! j = Some q -> el_event_id q = el_event_id r ->
      el_label_id q = el_label_id r -> False.
Proof.
  revert next t rows t' next'. induction nels as [|nel nels IH]; intros next t rows t' next'; cbn.
  { intros [= <- <- <-]. split_and!; [done..|]. by intros [|??] ? ?. }
  case_decide as Hc; [|done]. intros ([[rows1 t1] next1] & H1 & [= <- <- <-])%bind_Some.
  apply IH in H1 as (Hrows & -> & Hl). split_and!.
  - cbn. by destruct nel; f_equal.
  - done.
  - intros [|r0 pre] r post; cbn; intros [= <- Hp].
    + destruct Hc as (? & ? & ? & Hf). split_and!; [done..|]. intros j q Hq He Hlb.
      by apply (Hf j q Hq).
    + by apply (Hl pre r post).
Qed.

Lemma mem_links_spec es m : NoDup (mem_links es m) /\ forall r lb,
  (r, lb) ∈ mem_links es m <-> linked (m_tables m) r lb /\ el_event_id r ∈ map event_id es.
Proof.
  unfold mem_links. split.
  - pose proof (NoDup_fst_map_to_list (t_events_labels (m_tables m))) as Hnd. revert Hnd.
    generalize (map_to_list (t_events_labels (m_tables m))). intros l.
    induction l as [|[i r] l IH]; cbn; [constructor|]. intros [Hi Hnd]%NoDup_cons.
    case_decide as Hc; [|auto]. destruct (t_labels _ !! _) as [lb|]; cbn; [|auto]. constructor; [|auto].
    intros ([j q] & Hjq & Hq)%list_elem_of_omap. apply Hi.
    case_decide as Hd; [|done]. destruct (t_labels _ !! el_label_id q); [|done]. simplify_eq/=.
    destruct Hc as [-> _], Hd as [-> _]. by apply (list_elem_of_fmap_2 fst _ (el_id r, r)).
  - intros r lb. rewrite list_elem_of_omap. unfold linked. split.
    + intros ([i q] & Hi & Hq). case_decide as Hc; [|done].
      destruct (t_labels _ !! el_label_id q) eqn:El; [|done]. simplify_eq/=.
      destruct Hc as [-> ?]. by apply elem_of_map_to_list in Hi.
    + intros [[Hr Hl] He]. exists (el_id r, r). rewrite elem_of_map_to_list. split; [done|].
      rewrite decide_True by done. by rewrite Hl.
Qed.

Lemma found_ok {A} (o : option A) a : found o = Ok a <-> o = Some a.
Proof. destruct o; cbn; naive_solver. Qed.
Lemma found_none {A} (o : option A) : found o = Err NotFound <-> o = None.
Proof. destruct o; cbn; naive_solver. Qed.

Lemma mem_postgres_laws : PostgresLaws mem.
Proof.
  constructor.
  - intros A body m. cbn. destruct (body m) as [[a|e] m'] eqn:E; cbn; [|done]. by exists m, m'.
  - intros nd m. cbn. unfold mem_insert_device. by case_decide.
  - intros c m. cbn. unfold mem_insert_credential. by case_decide.
  - intros ne m. cbn. unfold mem_insert_event. by repeat case_decide.
  - intros nl m. cbn. unfold mem_insert_label. case_decide as Hc; [|done]. case_decide; [|done]. cbn.
    destruct Hc as [? Hf]. split_and!; [done..| |done]. intros j l Hl ? ? ?. by apply (Hf j l Hl).
  - intros nels m. cbn. unfold mem_insert_event_labels.
    destruct (mem_insert_links _ _ _) as [[[rows t'] next']|] eqn:E; [|done]. cbn. split; [done|].
    exists rows. by apply mem_insert_links_spec in E.
  - intros i m. cbn. done.
  - intros i m. cbn. done.
  - intros m l. cbn. by intros [= <-].
  - intros s m d. cbn. unfold mem_device_by_secret. rewrite found_ok. intros Hd%head_Some_elem_of.
    apply list_elem_of_omap in Hd as ([s' i] & Hi & Hd). case_decide; [|done]. subst. eauto.
  - intros s m. cbn. unfold mem_device_by_secret. rewrite found_none, head_None. intros Hnil i d Hi Hd.
    assert (d ∈ ([] : list Device)) as []%not_elem_of_nil. rewrite <- Hnil. apply list_elem_of_omap.
    exists (s, i). by rewrite decide_True.
  - intros m l. cbn. by intros [= <-].
  - intros i m e. cbn. by rewrite found_ok.
  - intros i m. cbn. by rewrite found_none.
  - intros m l. cbn. by intros [= <-].
  - intros es m l. cbn. intros [= <-]. apply mem_links_spec.
  - done.
  - done.
Qed.
End Mem.
