(* ===== verification/SqlStore.v ===== *)
(** * Tables of rows, and the constraints of SQL

    The tables as PostgreSQL holds them, rows of named columns, with the meaning
    of PRIMARY KEY, UNIQUE, REFERENCES and ON DELETE CASCADE for any tables of
    [Schema]. Inserts check the constraints and deletes follow the references;
    both keep the constraints. [SqlTables] is about the program's tables. *)
From S2P Require Import Prelude MachineInt Bincode DbTypes Json Schema.
Open Scope Z_scope.

Section SqlStore.
Context `{U : UuidOps} `{C : Chrono}.

(** ** Values, rows, tables *)

Inductive Value : Type :=
| VUuid (u : Uuid)
| VTime (d : Instant)
| VText (s : string)
| VJson (j : json)
| VBytes (b : list byte)
| VKind (k : EventKind).
#[export] Instance Value_eq_dec : EqDecision Value.
Proof. solve_decision. Defined.

Definition value_type (v : Value) : SqlType :=
  match v with
  | VUuid _ => Uuid_
  | VTime _ => Timestamptz
  | VText _ => Text_
  | VJson _ => Jsonb
  | VBytes _ => Bytea
  | VKind _ => EventKindMapping
  end.

Definition Row : Type := list (string * Value).
Fixpoint cell (name : string) (r : Row) : option Value :=
  match r with
  | [] => None
  | (n, v) :: r => if String.eqb n name then Some v else cell name r
  end.
Definition cells (names : list string) (r : Row) : list (option Value) := map (fun n => cell n r) names.

(** The rows of each table, by primary key. *)
Definition Rel : Type := string -> gmap Uuid Row.

(** ** The constraints of a list of tables *)

Definition row_typed (t : Table) (r : Row) : Prop :=
  map (fun x => (fst x, value_type (snd x))) r = td_columns (print_table t).
#[export] Instance row_typed_dec t r : Decision (row_typed t r).
Proof. unfold row_typed. apply _. Defined.

Definition named (name : string) (ts : list Table) : list Table := filter (fun t => tb_name t = name) ts.
(** REFERENCES: the columns of a table, with the table each refers to. *)
Definition references (name : string) (ts : list Table) : list (string * string) :=
  concat (map (fun t => omap (fun c => parent ← c_references c; Some (c_name c, parent)) (tb_columns t)) (named name ts)).
(** UNIQUE. *)
Definition uniques (name : string) (ts : list Table) : list (list string) := concat (map tb_unique (named name ts)).

Record satisfies (ts : list Table) (rel : Rel) : Prop := {
  sat_types : forall t i r, t ∈ ts -> rel (tb_name t) !! i = Some r -> row_typed t r;
  sat_key : forall t i r, t ∈ ts -> rel (tb_name t) !! i = Some r -> cell (tb_key t) r = Some (VUuid i);
  sat_unique : forall name cs i j r q, cs ∈ uniques name ts -> rel name !! i = Some r -> rel name !! j = Some q ->
    cells cs r = cells cs q -> i = j;
  sat_references : forall name c p i r, (c, p) ∈ references name ts -> rel name !! i = Some r ->
    exists j, cell c r = Some (VUuid j) /\ is_Some (rel p !! j);
}.

(** ** DELETE *)

(** The rows that go with the row [id] of the table [root]: ON DELETE CASCADE. *)
Inductive doomed (ts : list Table) (rel : Rel) (root : string) (id : Uuid) : string -> Uuid -> Prop :=
| doomed_root r : rel root !! id = Some r -> doomed ts rel root id root id
| doomed_cascade name i r c p j : rel name !! i = Some r -> (c, p) ∈ references name ts ->
    cell c r = Some (VUuid j) -> doomed ts rel root id p j -> doomed ts rel root id name i.

(** The same, for [n] generations of references. *)
Fixpoint doomed_within (n : nat) (ts : list Table) (rel : Rel) (root : string) (id : Uuid) (name : string) (i : Uuid) : bool :=
  match rel name !! i with
  | None => false
  | Some r =>
      bool_decide (name = root /\ i = id) ||
      match n with
      | O => false
      | S n => existsb (fun x => match cell (fst x) r with
          | Some (VUuid j) => doomed_within n ts rel root id (snd x) j
          | _ => false
          end) (references name ts)
      end
  end.

Definition delete_from (ts : list Table) (root : string) (id : Uuid) (rel : Rel) : Rel := fun name =>
  filter (fun x => doomed_within (length ts) ts rel root id name (fst x) = false) (rel name).

(** ** INSERT *)

Inductive Violation : Type :=
| BadRow
| KeyTaken
| NotUnique (columns : list string)
| NoParent (parent : string).

Definition taken (cs : list string) (r : Row) (rows : gmap Uuid Row) : bool :=
  bool_decide (Exists (fun q => cells cs r = cells cs q) (map_to_list rows).*2).
Definition orphan (rel : Rel) (r : Row) (x : string * string) : bool :=
  match cell (fst x) r with
  | Some (VUuid j) => bool_decide (rel (snd x) !! j = None)
  | _ => true
  end.
Definition insert_into (ts : list Table) (t : Table) (r : Row) (rel : Rel) : result Rel Violation :=
  let name := tb_name t in
  if bool_decide (row_typed t r) then
    match cell (tb_key t) r with
    | Some (VUuid i) =>
        if bool_decide (is_Some (rel name !! i)) then Err KeyTaken
        else match find (fun cs => taken cs r (rel name)) (uniques name ts) with
        | Some cs => Err (NotUnique cs)
        | None => match find (orphan rel r) (references name ts) with
            | Some x => Err (NoParent (snd x))
            | None => Ok (fun n => if String.eqb n name then <[i := r]> (rel n) else rel n)
            end
        end
    | _ => Err BadRow
    end
  else Err BadRow.

(** ** Lemmas: inserts *)

(** What an accepted row satisfies. *)
Record accepted (ts : list Table) (t : Table) (i : Uuid) (r : Row) (rel : Rel) : Prop := {
  acc_typed : row_typed t r;
  acc_key : cell (tb_key t) r = Some (VUuid i);
  acc_new : rel (tb_name t) !! i = None;
  acc_unique : forall cs j q, cs ∈ uniques (tb_name t) ts -> rel (tb_name t) !! j = Some q -> cells cs r <> cells cs q;
  acc_references : forall c p, (c, p) ∈ references (tb_name t) ts -> exists j, cell c r = Some (VUuid j) /\ is_Some (rel p !! j);
}.
Definition inserted (t : Table) (i : Uuid) (r : Row) (rel : Rel) : Rel :=
  fun n => if String.eqb n (tb_name t) then <[i := r]> (rel n) else rel n.

Lemma find_none {A} (f : A -> bool) (l : list A) : find f l = None <-> forall a, a ∈ l -> f a = false.
Proof.
  split.
  - intros H a Ha. by eapply find_none; [|apply list_elem_of_In].
  - induction l as [|a l IH]; intros H; cbn; [done|]. rewrite (H a) by apply list_elem_of_here.
    apply IH. intros b Hb. apply H. by right.
Qed.

Lemma taken_false cs r rows : taken cs r rows = false <-> forall j q, rows !! j = Some q -> cells cs r <> cells cs q.
Proof.
  unfold taken. rewrite bool_decide_eq_false, Exists_exists. split.
  - intros H j q Hq Heq. apply H. exists q. split; [|done]. apply list_elem_of_fmap. exists (j, q).
    by rewrite elem_of_map_to_list.
  - intros H (q & ([j q'] & -> & Hj%elem_of_map_to_list)%list_elem_of_fmap & Heq). by apply (H j q').
Qed.

Lemma orphan_false rel r c p :
  orphan rel r (c, p) = false <-> exists j, cell c r = Some (VUuid j) /\ is_Some (rel p !! j).
Proof.
  unfold orphan. cbn. split.
  - destruct (cell c r) as [[j| | | | |]|]; try done. rewrite bool_decide_eq_false. intros H. exists j.
    by rewrite <- not_eq_None_Some.
  - intros (j & -> & [q Hq]). by rewrite Hq.
Qed.

Lemma insert_into_spec ts t r rel rel' :
  insert_into ts t r rel = Ok rel' <-> exists i, accepted ts t i r rel /\ rel' = inserted t i r rel.
Proof.
  unfold insert_into. split.
  - case_bool_decide as Hty; [|done]. destruct (cell (tb_key t) r) as [[i| | | | |]|] eqn:Hk; try done.
    case_bool_decide as Hnew; [done|]. destruct (find _ (uniques _ _)) eqn:Hu; [done|].
    destruct (find _ (references _ _)) eqn:Hr; [done|]. intros [= <-]. exists i. split; [|done].
    rewrite find_none in Hu. rewrite find_none in Hr. split; [done|done|by apply eq_None_not_Some| |].
    + intros cs j q Hcs. apply (proj1 (taken_false cs r _) (Hu cs Hcs)).
    + intros c p Hcp. by apply orphan_false, Hr.
  - intros (i & [Hty Hk Hnew Hu Hr] & ->). rewrite bool_decide_true by done. rewrite Hk, Hnew.
    rewrite bool_decide_false by (by intros [? ?]).
    rewrite (proj2 (find_none _ _)) by (intros cs Hcs; apply taken_false; eauto).
    by rewrite (proj2 (find_none _ _)) by (intros [c p] Hcp; apply orphan_false; eauto).
Qed.

Lemma inserted_lookup t i r rel n j q :
  inserted t i r rel n !! j = Some q <-> (n = tb_name t /\ j = i /\ q = r) \/ (~ (n = tb_name t /\ j = i) /\ rel n !! j = Some q).
Proof.
  unfold inserted. destruct (String.eqb_spec n (tb_name t)) as [->|Hne].
  - rewrite lookup_insert_Some. split.
    + intros [[-> ->]|[? ?]]; [by left|right; split; [by intros [_ ->]|done]].
    + intros [(_ & -> & ->)|[Hn ?]]; [by left|right; split; [by intros ->; apply Hn|done]].
  - split; [intros Hq; right; split; [by intros [? _]|done]|by intros [(? & _)|[_ ?]]].
Qed.

(** An insert keeps the constraints. *)
Lemma insert_into_satisfies ts t r rel rel' :
  NoDup (map tb_name ts) -> t ∈ ts -> satisfies ts rel -> insert_into ts t r rel = Ok rel' -> satisfies ts rel'.
Proof.
  intros Hnd Ht [Hty Hk Hu Hr] (i & [Aty Ak An Au Ar] & ->)%insert_into_spec.
  assert (Hsame : forall t', t' ∈ ts -> tb_name t' = tb_name t -> t' = t).
  { intros t' [k' Hk']%list_elem_of_lookup Hn. apply list_elem_of_lookup in Ht as [k Hk0].
    assert (k' = k) as ->; [|congruence].
    apply (NoDup_lookup (map tb_name ts) k' k (tb_name t) Hnd); rewrite list_lookup_fmap; [rewrite Hk'|rewrite Hk0]; cbn; congruence. }
  assert (Hgrow : forall n j, is_Some (rel n !! j) -> is_Some (inserted t i r rel n !! j)).
  { intros n j [q Hq]. unfold inserted. destruct (String.eqb n (tb_name t)); [|eauto]. rewrite lookup_insert. case_decide; eauto. }
  split.
  - intros t' j q Ht' [(Hn & -> & ->)|[_ Hq]]%inserted_lookup; [|by eauto]. by rewrite (Hsame t').
  - intros t' j q Ht' [(Hn & -> & ->)|[_ Hq]]%inserted_lookup; [|by eauto]. by rewrite (Hsame t').
  - intros n cs j1 j2 q1 q2 Hcs [(-> & -> & ->)|[Hn1 Hq1]]%inserted_lookup [(Hn2 & -> & ->)|[_ Hq2]]%inserted_lookup Heq;
      [done| |by subst; destruct (Au cs j1 q1 Hcs Hq1)|by eapply Hu]. by destruct (Au cs j2 q2 Hcs Hq2).
  - intros n c p j q Hcp [(-> & -> & ->)|[_ Hq]]%inserted_lookup.
    + destruct (Ar c p Hcp) as (j & ? & ?). eauto.
    + destruct (Hr n c p j q Hcp Hq) as (j' & ? & ?). eauto.
Qed.

(** ** Lemmas: deletes *)

Lemma references_spec name ts c p :
  (c, p) ∈ references name ts <->
  exists t col, t ∈ ts /\ tb_name t = name /\ col ∈ tb_columns t /\ c_name col = c /\ c_references col = Some p.
Proof.
  unfold references, named. rewrite list_elem_of_In, in_concat. split.
  - intros (l & Hl & Hin). apply in_map_iff in Hl as (t & <- & Ht%list_elem_of_In). apply list_elem_of_In in Hin.
    apply list_elem_of_filter in Ht as [Hn Ht]. apply list_elem_of_omap in Hin as (col & Hc & Heq).
    destruct (c_references col) eqn:Er; simplify_eq/=. exists t, col. done.
  - intros (t & col & Ht & Hn & Hc & <- & Hp). eexists. rewrite in_map_iff, <- list_elem_of_In. split.
    + exists t. rewrite <- list_elem_of_In. split; [done|]. by apply list_elem_of_filter.
    + apply list_elem_of_omap. exists col. by rewrite Hp.
Qed.

Lemma doomed_exists ts rel root id name i : doomed ts rel root id name i -> is_Some (rel name !! i).
Proof. by destruct 1. Qed.

Lemma doomed_within_sound ts rel root id n name i :
  doomed_within n ts rel root id name i = true -> doomed ts rel root id name i.
Proof.
  revert name i. induction n as [|n IH]; intros name i; cbn; destruct (rel name !! i) as [r|] eqn:Hr; try done;
    rewrite orb_true_iff, bool_decide_eq_true; (intros [[-> ->]|H]; [by eapply doomed_root|]); [done|].
  apply existsb_exists in H as ([c p] & Hin & H). rewrite <- list_elem_of_In in Hin. cbn in H.
  destruct (cell c r) as [[j| | | | |]|] eqn:Hc; try done. eapply doomed_cascade; eauto.
Qed.

Lemma doomed_within_S ts rel root id n name i :
  doomed_within n ts rel root id name i = true -> doomed_within (S n) ts rel root id name i = true.
Proof.
  revert name i. induction n as [|n IH]; intros name i; cbn [doomed_within]; destruct (rel name !! i) as [r|]; try done.
  - rewrite !orb_true_iff. by intros [?|]; [left|].
  - rewrite !orb_true_iff. intros [?|H]; [by left|right]. apply existsb_exists in H as (x & Hin & H).
    apply existsb_exists. exists x. split; [done|]. destruct (cell _ _) as [[j| | | | |]|]; try done. by apply IH.
Qed.

Lemma doomed_within_le ts rel root id n m name i :
  (n <= m)%nat -> doomed_within n ts rel root id name i = true -> doomed_within m ts rel root id name i = true.
Proof. induction 1; auto using doomed_within_S. Qed.

(** A table refers to earlier ones, so as many generations as there are tables
    before it are enough. *)
Lemma in_order_before seen ts k t col p :
  in_order seen ts -> ts !! k = Some t -> col ∈ tb_columns t -> c_references col = Some p ->
  p ∈ seen \/ exists k' t', (k' < k)%nat /\ ts !! k' = Some t' /\ tb_name t' = p.
Proof.
  revert seen k. induction ts as [|u ts IH]; intros seen k; [done|]. intros [Hu Hts] Hk Hc Hp.
  destruct k as [|k]; [injection Hk as ->; left; by eapply Hu|].
  destruct (IH _ k Hts Hk Hc Hp) as [[->|?]%elem_of_cons|(k' & t' & ? & ? & ?)].
  - right. exists 0%nat, u. split_and!; [lia|done..].
  - by left.
  - right. exists (S k'), t'. split_and!; [lia|done..].
Qed.

Context (ts : list Table) (ts_order : in_order [] ts) (ts_names : NoDup (map tb_name ts)).

Lemma doomed_within_complete rel root id name i k t :
  doomed ts rel root id name i -> ts !! k = Some t -> tb_name t = name ->
  doomed_within k ts rel root id name i = true.
Proof using ts_order ts_names.
  intros Hd. revert k t. induction Hd as [r Hr|name i r c p j Hr Href Hc Hd IH]; intros k t Hk Hn.
  - destruct k; cbn; rewrite Hr; by rewrite bool_decide_true.
  - pose proof Href as (t' & col & Ht' & Hn' & Hcol & Hcn & Hp)%references_spec.
    apply list_elem_of_lookup in Ht' as [k0 Hk0].
    assert (k0 = k) as ->.
    { apply (NoDup_lookup (map tb_name ts) k0 k name ts_names); rewrite list_lookup_fmap; [rewrite Hk0|rewrite Hk]; cbn; congruence. }
    destruct (in_order_before [] ts k t' col p ts_order Hk0 Hcol Hp) as [?%not_elem_of_nil|(k' & t2 & Hlt & Hk' & Hn2)]; [done|].
    destruct k as [|k]; [lia|]. cbn [doomed_within]. rewrite Hr. apply orb_true_iff. right.
    apply existsb_exists. exists (c, p). rewrite <- list_elem_of_In. split; [done|]. cbn [fst snd]. rewrite Hc.
    apply (doomed_within_le _ _ _ _ k'); [lia|]. by eapply IH.
Qed.

(** The fuel of [delete_from] is enough. *)
Lemma delete_from_doomed root id rel name i t :
  t ∈ ts -> tb_name t = name -> (doomed_within (length ts) ts rel root id name i = true <-> doomed ts rel root id name i).
Proof using ts_order ts_names.
  intros [k Hk]%list_elem_of_lookup Hn. split; [apply doomed_within_sound|]. intros Hd.
  apply (doomed_within_le _ _ _ _ k); [apply lookup_lt_Some in Hk; lia|]. by eapply doomed_within_complete.
Qed.

Lemma delete_from_lookup root id rel t i r :
  t ∈ ts ->
  delete_from ts root id rel (tb_name t) !! i = Some r <-> rel (tb_name t) !! i = Some r /\ ~ doomed ts rel root id (tb_name t) i.
Proof using ts_order ts_names.
  intros Ht. unfold delete_from. rewrite map_lookup_filter_Some. cbn.
  rewrite <- (delete_from_doomed root id rel _ i t Ht eq_refl), not_true_iff_false. done.
Qed.

(** A delete keeps the constraints. *)
Lemma delete_from_satisfies root id rel : satisfies ts rel -> satisfies ts (delete_from ts root id rel).
Proof using ts_order ts_names.
  intros [Hty Hk Hu Hr].
  assert (Hsub : forall name i r, delete_from ts root id rel name !! i = Some r -> rel name !! i = Some r).
  { intros name i r. unfold delete_from. by intros [? _]%map_lookup_filter_Some. }
  split; [by eauto..|]. intros name c p i r Href Hi. destruct (Hr name c p i r Href (Hsub _ _ _ Hi)) as (j & Hc & [q Hq]).
  exists j. split; [done|]. exists q. pose proof Href as (t & col & Ht & <- & Hcol & Hcn & Hp)%references_spec.
  assert (exists t', t' ∈ ts /\ tb_name t' = p) as (t' & Ht' & <-).
  { apply list_elem_of_lookup in Ht as [k Hk']. destruct (in_order_before [] ts k t col p ts_order Hk' Hcol Hp)
      as [?%not_elem_of_nil|(k' & t2 & _ & Hk2 & Hn2)]; [done|]. exists t2. split; [by eapply list_elem_of_lookup_2|done]. }
  apply delete_from_lookup; [done|]. split; [done|]. intros Hd.
  apply (delete_from_lookup _ _ _ t i r Ht) in Hi as [Hi Hnd]. apply Hnd. by eapply doomed_cascade.
Qed.
End SqlStore.

Arguments Value {U C}.
Arguments Row {U C}.
Arguments Rel {U C}.
