(* ===== verification/SqlTables.v ===== *)
(** * The tables of the program as rows of SQL

    [Store] states the laws of PostgreSQL on tables of Rust values; the rows of
    [SqlStore] under the constraints of the migrations ([Schema]) represent
    them. The theorems: the constraints are the [integrity] of [Store]; a
    deleted row takes with it what [del_device] and [del_label] delete; a row is
    accepted when the laws say so; and every row is read back as the struct it
    was written from, the times of an event as a column keeps them. *)
From S2P Require Import Prelude MachineInt Bincode DbTypes Json Store Schema SqlStore.
From S2P Require LittleEndian MemStore.
Open Scope Z_scope.

(** ** The tables of the program *)

(** The tables that the migrations create. *)
Definition migrated : list Table :=
  match run_migrations migrations empty_catalogue with Ok cat => cat_tables cat | Err _ => [] end.

Lemma migrated_eq :
  migrated = [devices_sql; events_sql; device_credentials_sql; labels_sql; events_labels_sql; composed_events_sql;
    composed_events_events_sql].
Proof. vm_compute. reflexivity. Qed.

Lemma migrated_ok : exists cat, migrated = cat_tables cat /\ catalogue_ok cat.
Proof.
  unfold migrated. destruct (run_migrations migrations empty_catalogue) as [cat|e] eqn:Hm.
  - exists cat. split; [done|]. by eapply run_migrations_ok, Hm; apply empty_catalogue_ok.
  - exists empty_catalogue. split; [done|apply empty_catalogue_ok].
Qed.

Lemma migrated_order : in_order [] migrated.
Proof. destruct migrated_ok as (cat & -> & Hok). apply Hok. Qed.

Lemma migrated_names : NoDup (map tb_name migrated).
Proof. destruct migrated_ok as (cat & -> & Hok). apply Hok. Qed.

Section Represents.
Context `{U : UuidOps} `{C : Chrono} `{CL : !ChronoLaws}.

(** A value of Rust as a row; [c] and [u] are the columns created_at and
    updated_at, which the program does not read, [i] the id. *)
Definition row_of (columns : Row) (i : Uuid) (c u : Instant) : Row :=
  ("id", VUuid i) :: ("created_at", VTime c) :: ("updated_at", VTime u) :: columns.
Definition device_row (d : Device) : Row :=
  [("name", VText (device_name d)); ("description", VText (device_description d))].
Definition credential_row (c : list byte * Uuid) : Row := [("secret", VBytes (fst c)); ("device_id", VUuid (snd c))].
Definition event_row (e : Event) : Row :=
  [("kind", VKind (event_kind e)); ("payload", VJson (payload_to_json (event_payload e)));
   ("started_at", VTime (to_instant (event_started_at e))); ("ended_at", VTime (to_instant (event_ended_at e)));
   ("device_id", VUuid (event_device_id e))].
Definition label_row (l : Label) : Row :=
  [("event_kind", VKind (label_event_kind l)); ("name", VText (label_name l));
   ("description", VText (label_description l)); ("rule", VJson (rule_to_json (label_rule l)));
   ("device_id", VUuid (label_device_id l))].
Definition link_row (r : EventLabel) : Row := [("event_id", VUuid (el_event_id r)); ("label_id", VUuid (el_label_id r))].

(** The rows of a table are those of the values [m], with their [id]. *)
Definition holds {A} (id : Uuid -> A -> Uuid) (columns : A -> Row) (m : gmap Uuid A) (rows : gmap Uuid Row) : Prop :=
  forall i, option_Forall2 (fun a r => exists c u, r = row_of (columns a) (id i a) c u) (m !! i) (rows !! i).

Record represents (rel : Rel) (t : Store.tables) : Prop := {
  rep_devices : holds (fun _ => device_id) device_row (t_devices t) (rel "devices");
  rep_credentials : exists cs, holds (fun i _ => i) credential_row cs (rel "device_credentials") /\
    t_credentials t ≡ₚ (map_to_list cs).*2;
  rep_events : holds (fun _ => event_id) event_row (t_events t) (rel "events");
  rep_labels : holds (fun _ => label_id) label_row (t_labels t) (rel "labels");
  rep_events_labels : holds (fun _ => el_id) link_row (t_events_labels t) (rel "events_labels");
  (** No code writes these. *)
  rep_composed : rel "composed_events" = ∅ /\ rel "composed_events_events" = ∅;
}.

Lemma holds_value {A} id (columns : A -> Row) m rows i a :
  holds id columns m rows -> m !! i = Some a -> exists c u, rows !! i = Some (row_of (columns a) (id i a) c u).
Proof. intros H Hi. specialize (H i). rewrite Hi in H. inversion H as [? r (c & u & ->)|]; eauto. Qed.

Lemma holds_row {A} id (columns : A -> Row) m rows i r :
  holds id columns m rows -> rows !! i = Some r -> exists a c u, m !! i = Some a /\ r = row_of (columns a) (id i a) c u.
Proof. intros H Hi. specialize (H i). rewrite Hi in H. inversion H as [a ? (c & u & ->)|]; eauto 6. Qed.

Lemma holds_is_Some {A} id (columns : A -> Row) m rows i :
  holds id columns m rows -> is_Some (m !! i) <-> is_Some (rows !! i).
Proof. intros H. specialize (H i). inversion H; split; eauto; by intros [? ?]. Qed.

(** ** Lemmas: constraints *)

Lemma uniques_spec name ts cs : cs ∈ uniques name ts <-> exists t, t ∈ ts /\ tb_name t = name /\ cs ∈ tb_unique t.
Proof.
  unfold uniques, named. rewrite list_elem_of_In, in_concat. split.
  - intros (l & Hl & Hin%list_elem_of_In). apply in_map_iff in Hl as (t & <- & Ht%list_elem_of_In).
    apply list_elem_of_filter in Ht as [Hn Ht]. eauto.
  - intros (t & Ht & Hn & Hcs). exists (tb_unique t). rewrite in_map_iff, <- list_elem_of_In. split; [|done].
    exists t. rewrite <- list_elem_of_In. split; [done|]. by apply list_elem_of_filter.
Qed.

(** Membership in a concrete list. *)
Ltac here_or_further := repeat (apply list_elem_of_here || apply list_elem_of_further).
Ltac in_migrated := rewrite migrated_eq; here_or_further.
(** One case for each element. *)
Ltac cases_of H := repeat first
  [ apply elem_of_cons in H as [H|H] | apply not_elem_of_nil in H; destruct H ].

Section Constraints.
Context (rel : Rel) (t : Store.tables) (Hrep : represents rel t).

Lemma sat_row_key {A} id (columns : A -> Row) m (tb : Table) i a :
  satisfies migrated rel -> tb ∈ migrated -> tb_key tb = "id" -> holds id columns m (rel (tb_name tb)) ->
  m !! i = Some a -> id i a = i.
Proof using Type.
  intros Hs Htb Hkey Hm Hi. destruct (holds_value _ _ _ _ _ _ Hm Hi) as (c & u & Hr).
  pose proof (sat_key _ _ Hs tb i _ Htb Hr) as Hk. rewrite Hkey in Hk. by injection Hk as ->.
Qed.

Lemma sat_row_parent {A} id (columns : A -> Row) m name col p (fkey : A -> Uuid) i a :
  satisfies migrated rel -> (col, p) ∈ references name migrated -> holds id columns m (rel name) ->
  (forall a x c u, cell col (row_of (columns a) x c u) = Some (VUuid (fkey a))) ->
  m !! i = Some a -> is_Some (rel p !! fkey a).
Proof using Type.
  intros Hs Href Hm Hcell Hi. destruct (holds_value _ _ _ _ _ _ Hm Hi) as (c & u & Hr).
  destruct (sat_references _ _ Hs name col p i _ Href Hr) as (j & Hj & Hp). rewrite Hcell in Hj. by injection Hj as ->.
Qed.

Lemma sat_row_unique {A} id (columns : A -> Row) m name cs i j a b :
  satisfies migrated rel -> cs ∈ uniques name migrated -> holds id columns m (rel name) ->
  m !! i = Some a -> m !! j = Some b ->
  (forall x y c u d v, cells cs (row_of (columns a) x c u) = cells cs (row_of (columns b) y d v)) -> i = j.
Proof using Type.
  intros Hs Hcs Hm Hi Hj Heq. destruct (holds_value _ _ _ _ _ _ Hm Hi) as (c & u & Hr).
  destruct (holds_value _ _ _ _ _ _ Hm Hj) as (d & v & Hq). by eapply (sat_unique _ _ Hs name cs).
Qed.

Lemma credentials_row s i : (s, i) ∈ t_credentials t ->
  exists cs k, holds (fun i _ => i) credential_row cs (rel "device_credentials") /\ cs !! k = Some (s, i).
Proof using Hrep.
  intros Hin. destruct (rep_credentials _ _ Hrep) as (cs & Hcs & Hp). rewrite Hp in Hin.
  apply list_elem_of_fmap in Hin as ([k x] & -> & Hk%elem_of_map_to_list). eauto.
Qed.

Lemma satisfies_integrity : satisfies migrated rel -> integrity t.
Proof using Hrep.
  intros Hs. destruct Hrep as [Hd _ He Hl Hr _]. split.
  - intros i a Hi. refine (sat_row_key (fun _ => device_id) device_row _ devices_sql i a Hs _ eq_refl Hd Hi). in_migrated.
  - intros i a Hi. refine (sat_row_key (fun _ => event_id) event_row _ events_sql i a Hs _ eq_refl He Hi). in_migrated.
  - intros i a Hi. refine (sat_row_key (fun _ => label_id) label_row _ labels_sql i a Hs _ eq_refl Hl Hi). in_migrated.
  - intros i a Hi. refine (sat_row_key (fun _ => el_id) link_row _ events_labels_sql i a Hs _ eq_refl Hr Hi). in_migrated.
  - intros s i (cs & k & Hcs & Hk)%credentials_row. apply (holds_is_Some _ _ _ _ _ Hd).
    refine (sat_row_parent _ _ _ "device_credentials" "device_id" "devices" snd k _ Hs _ Hcs (fun _ _ _ _ => eq_refl) Hk).
    vm_compute. here_or_further.
  - intros i e Hi. apply (holds_is_Some _ _ _ _ _ Hd).
    refine (sat_row_parent _ _ _ "events" "device_id" "devices" event_device_id i _ Hs _ He (fun _ _ _ _ => eq_refl) Hi).
    vm_compute. here_or_further.
  - intros i l Hi. apply (holds_is_Some _ _ _ _ _ Hd).
    refine (sat_row_parent _ _ _ "labels" "device_id" "devices" label_device_id i _ Hs _ Hl (fun _ _ _ _ => eq_refl) Hi).
    vm_compute. here_or_further.
  - intros i r Hi. apply (holds_is_Some _ _ _ _ _ He).
    refine (sat_row_parent _ _ _ "events_labels" "event_id" "events" el_event_id i _ Hs _ Hr (fun _ _ _ _ => eq_refl) Hi).
    vm_compute. here_or_further.
  - intros i r Hi. apply (holds_is_Some _ _ _ _ _ Hl).
    refine (sat_row_parent _ _ _ "events_labels" "label_id" "labels" el_label_id i _ Hs _ Hr (fun _ _ _ _ => eq_refl) Hi).
    vm_compute. here_or_further.
  - intros i j l m Hi Hj Hk Hn Hdev.
    refine (sat_row_unique _ _ _ "labels" ["event_kind"; "name"; "device_id"] i j l m Hs _ Hl Hi Hj _).
    + vm_compute. here_or_further.
    + intros. cbn. by rewrite Hk, Hn, Hdev.
  - intros i j r q Hi Hj Hev Hlb.
    refine (sat_row_unique _ _ _ "events_labels" ["event_id"; "label_id"] i j r q Hs _ Hr Hi Hj _).
    + vm_compute. here_or_further.
    + intros. cbn. by rewrite Hev, Hlb.
Qed.

(** The rows of the tables of the program. *)
Inductive row_view : Table -> Uuid -> Row -> Prop :=
| view_device d i c u : t_devices t !! i = Some d -> row_view devices_sql i (row_of (device_row d) (device_id d) c u)
| view_credential x i c u : x ∈ t_credentials t -> row_view device_credentials_sql i (row_of (credential_row x) i c u)
| view_event e i c u : t_events t !! i = Some e -> row_view events_sql i (row_of (event_row e) (event_id e) c u)
| view_label l i c u : t_labels t !! i = Some l -> row_view labels_sql i (row_of (label_row l) (label_id l) c u)
| view_link r i c u : t_events_labels t !! i = Some r -> row_view events_labels_sql i (row_of (link_row r) (el_id r) c u).

Lemma row_viewed tb i r : tb ∈ migrated -> rel (tb_name tb) !! i = Some r -> row_view tb i r.
Proof using Hrep.
  intros Htb Hi. destruct Hrep as [Hd (cs & Hc & Hp) He Hl Hr [H1 H2]]. rewrite migrated_eq in Htb. cases_of Htb; subst tb; cbn in Hi.
  - apply (holds_row _ _ _ _ _ _ Hd) in Hi as (a & c & u & ? & ->). by constructor.
  - apply (holds_row _ _ _ _ _ _ He) in Hi as (a & c & u & ? & ->). by constructor.
  - apply (holds_row _ _ _ _ _ _ Hc) in Hi as (a & c & u & Ha & ->). constructor. rewrite Hp.
    apply list_elem_of_fmap. exists (i, a). split; [done|]. by apply elem_of_map_to_list.
  - apply (holds_row _ _ _ _ _ _ Hl) in Hi as (a & c & u & ? & ->). by constructor.
  - apply (holds_row _ _ _ _ _ _ Hr) in Hi as (a & c & u & ? & ->). by constructor.
  - by rewrite H1, lookup_empty in Hi.
  - by rewrite H2, lookup_empty in Hi.
Qed.

Lemma integrity_satisfies : integrity t -> satisfies migrated rel.
Proof using Hrep.
  intros Ht. split.
  - intros tb i r Htb Hi%row_viewed; [|done]. by destruct Hi.
  - intros tb i r Htb Hi%row_viewed; [|done]. destruct Hi; cbn; do 2 f_equal; by apply Ht.
  - intros name cs i j r q (tb & Htb & <- & Hcs)%uniques_spec Hi%row_viewed Hj%row_viewed Heq; [|done..].
    destruct Hi as [d i c u Hd|x i c u Hx|e i c u He|l i c u Hl|k i c u Hk]; cbn in Hcs; cases_of Hcs; subst cs.
    + inversion Hj; subst. cbn in Heq. injection Heq as ? ? ?. by eapply (unique_labels _ Ht).
    + inversion Hj; subst. cbn in Heq. injection Heq as ? ?. by eapply (unique_links _ Ht).
  - intros name col p i r (tb & cl & Htb & <- & Hcl & <- & Hp)%references_spec Hi%row_viewed; [|done].
    destruct Hrep as [Hd _ He Hl _ _].
    destruct Hi as [d i c u Hi|[s k] i c u Hi|e i c u Hi|l i c u Hi|k i c u Hi]; cbn in Hcl; cases_of Hcl; subst cl;
      cbn in Hp; try discriminate Hp; injection Hp as <-; eexists; (split; [reflexivity|]).
    + apply (holds_is_Some _ _ _ _ _ Hd). by eapply (fk_credentials _ Ht).
    + apply (holds_is_Some _ _ _ _ _ Hd). by eapply (Store.fk_events _ Ht).
    + apply (holds_is_Some _ _ _ _ _ Hd). by eapply (fk_labels _ Ht).
    + apply (holds_is_Some _ _ _ _ _ He). by eapply (fk_links_events _ Ht).
    + apply (holds_is_Some _ _ _ _ _ Hl). by eapply (fk_links_labels _ Ht).
Qed.

(** ** Lemmas: the rows that go with a deleted row *)

Lemma doomed_iff ts root id name i r :
  rel name !! i = Some r ->
  doomed ts rel root id name i <->
  (name = root /\ i = id) \/ exists c p j, (c, p) ∈ references name ts /\ cell c r = Some (VUuid j) /\ doomed ts rel root id p j.
Proof using Type.
  intros Hr. split.
  - intros Hd. inversion Hd as [r' Hr'|? ? r' c p j Hr' Href Hc Hp]; subst; [by left|right]. exists c, p, j. by simplify_eq.
  - intros [[-> ->]|(c & p & j & Href & Hc & Hd)]; [by eapply doomed_root|by eapply doomed_cascade].
Qed.

(** The rows left, as values. *)
Lemma holds_delete {A} id (columns : A -> Row) m m' (tb : Table) root x :
  tb ∈ migrated -> holds id columns m (rel (tb_name tb)) ->
  (forall k a, m' !! k = Some a <-> m !! k = Some a /\ ~ doomed migrated rel root x (tb_name tb) k) ->
  holds id columns m' (delete_from migrated root x rel (tb_name tb)).
Proof using Type.
  intros Htb Hm Hm' k.
  destruct (delete_from migrated root x rel (tb_name tb) !! k) as [r|] eqn:Hr.
  - apply (delete_from_lookup migrated migrated_order migrated_names) in Hr as [Hr Hd]; [|done].
    destruct (holds_row _ _ _ _ _ _ Hm Hr) as (a & c & u & Ha & ->). rewrite (proj2 (Hm' k a) (conj Ha Hd)). constructor; eauto.
  - destruct (m' !! k) as [a|] eqn:Ha; [|constructor]. apply Hm' in Ha as [Ha Hd].
    destruct (holds_value _ _ _ _ _ _ Hm Ha) as (c & u & Hrow).
    assert (delete_from migrated root x rel (tb_name tb) !! k = Some (row_of (columns a) (id k a) c u)); [|congruence].
    by apply (delete_from_lookup migrated migrated_order migrated_names).
Qed.

(** A row whose only reference is [col]. *)
Lemma doomed_child {A} id (columns : A -> Row) m name root x col p (fkey : A -> Uuid) k a :
  references name migrated = [(col, p)] -> name <> root -> holds id columns m (rel name) ->
  (forall a x c u, cell col (row_of (columns a) x c u) = Some (VUuid (fkey a))) -> m !! k = Some a ->
  doomed migrated rel root x name k <-> doomed migrated rel root x p (fkey a).
Proof using Type.
  intros Href Hne Hm Hcell Ha. destruct (holds_value _ _ _ _ _ _ Hm Ha) as (c & u & Hr).
  rewrite (doomed_iff _ _ _ _ _ _ Hr), Href. split.
  - intros [[? _]|(c' & p' & j & Hin%list_elem_of_singleton & Hj & Hd)]; [done|]. injection Hin as -> ->.
    rewrite Hcell in Hj. by injection Hj as <-.
  - intros Hd. right. exists col, p, (fkey a). by rewrite list_elem_of_singleton, Hcell.
Qed.

Lemma doomed_no_parent name root x k :
  references name migrated = [] -> doomed migrated rel root x name k <-> name = root /\ k = x /\ is_Some (rel name !! k).
Proof using Type.
  intros Href. split.
  - intros Hd. pose proof (doomed_exists _ _ _ _ _ _ Hd) as [r Hr]. apply (doomed_iff _ _ _ _ _ _ Hr) in Hd.
    rewrite Href in Hd. destruct Hd as [[-> ->]|(? & ? & ? & ?%not_elem_of_nil & _)]; [|done]. eauto.
  - intros (-> & -> & r & Hr). by eapply doomed_root.
Qed.

Lemma references_devices : references "devices" migrated = [].
Proof using Type. vm_compute. reflexivity. Qed.
Lemma references_events : references "events" migrated = [("device_id", "devices")].
Proof using Type. vm_compute. reflexivity. Qed.
Lemma references_credentials : references "device_credentials" migrated = [("device_id", "devices")].
Proof using Type. vm_compute. reflexivity. Qed.
Lemma references_labels : references "labels" migrated = [("device_id", "devices")].
Proof using Type. vm_compute. reflexivity. Qed.
Lemma references_links : references "events_labels" migrated = [("event_id", "events"); ("label_id", "labels")].
Proof using Type. vm_compute. reflexivity. Qed.

(** A link goes with its event or its label. *)
Lemma doomed_link root x k r :
  root <> "events_labels" -> t_events_labels t !! k = Some r ->
  doomed migrated rel root x "events_labels" k <->
  doomed migrated rel root x "events" (el_event_id r) \/ doomed migrated rel root x "labels" (el_label_id r).
Proof using Hrep.
  intros Hroot Hk. destruct (holds_value _ _ _ _ _ _ (rep_events_labels _ _ Hrep) Hk) as (c & u & Hr).
  rewrite (doomed_iff _ _ _ _ _ _ Hr), references_links. split.
  - intros [[? _]|(c' & p' & j & Hin & Hj & Hd)]; [congruence|]. cases_of Hin; injection Hin as -> ->; cbn in Hj; injection Hj as <-; auto.
  - intros [Hd|Hd]; right; [exists "event_id", "events", (el_event_id r)|exists "label_id", "labels", (el_label_id r)];
      (split_and!; [here_or_further|done|done]).
Qed.

Lemma credentials_delete (cs : gmap Uuid (list byte * Uuid)) (i : Uuid) :
  (map_to_list (filter (fun x => snd (snd x) <> i) cs)).*2 ≡ₚ filter (fun c => snd c <> i) (map_to_list cs).*2.
Proof using Type.
  assert (map_to_list (filter (fun x => snd (snd x) <> i) cs) ≡ₚ filter (fun x => snd (snd x) <> i) (map_to_list cs)) as ->.
  { apply NoDup_Permutation; [apply NoDup_map_to_list|apply NoDup_filter, NoDup_map_to_list|].
    intros [k x]. rewrite list_elem_of_filter, !elem_of_map_to_list, map_lookup_filter_Some. cbn. tauto. }
  induction (map_to_list cs) as [|[k x] l IH]; [done|]. rewrite fmap_cons, !filter_cons. cbn [fst snd].
  destruct (decide (snd x <> i)); [by rewrite fmap_cons, IH|done].
Qed.

Lemma delete_device_represents (i : Uuid) :
  integrity t -> represents (delete_from migrated "devices" i rel) (del_device i t).
Proof using Hrep.
  intros Ht. pose proof Hrep as [Hd (cs & Hc & Hp) He Hl Hr [H1 H2]].
  assert (Hdev : forall k, is_Some (t_devices t !! k) -> doomed migrated rel "devices" i "devices" k <-> k = i).
  { intros k Hk. rewrite (doomed_no_parent _ _ _ _ references_devices), <- (holds_is_Some _ _ _ _ k Hd). tauto. }
  assert (Hev : forall k e, t_events t !! k = Some e -> doomed migrated rel "devices" i "events" k <-> event_device_id e = i).
  { intros k e Hk. rewrite (doomed_child (fun _ => event_id) event_row _ "events" "devices" _ _ _ event_device_id _ _ references_events ltac:(discriminate) He (fun _ _ _ _ => eq_refl) Hk).
    apply Hdev. by eapply (Store.fk_events _ Ht). }
  assert (Hlb : forall k l, t_labels t !! k = Some l -> doomed migrated rel "devices" i "labels" k <-> label_device_id l = i).
  { intros k l Hk. rewrite (doomed_child (fun _ => label_id) label_row _ "labels" "devices" _ _ _ label_device_id _ _ references_labels ltac:(discriminate) Hl (fun _ _ _ _ => eq_refl) Hk).
    apply Hdev. by eapply (fk_labels _ Ht). }
  split.
  - apply (holds_delete _ _ _ _ devices_sql _ _ ltac:(in_migrated) Hd). intros k a. cbn. rewrite lookup_delete_Some. split.
    + intros [Hne Hk]. split; [done|]. rewrite Hdev by eauto. congruence.
    + intros [Hk Hnd]. rewrite Hdev in Hnd by eauto. split; [congruence|done].
  - exists (filter (fun x => snd (snd x) <> i) cs). split.
    + apply (holds_delete _ _ _ _ device_credentials_sql _ _ ltac:(in_migrated) Hc). intros k a. rewrite map_lookup_filter_Some. cbn.
      split; intros [Hk Hx]; (split; [done|]);
        rewrite (doomed_child (fun i _ => i) credential_row _ "device_credentials" "devices" _ _ _ snd _ _ references_credentials ltac:(discriminate) Hc (fun _ _ _ _ => eq_refl) Hk) in *;
        rewrite Hdev in *; try done; eapply (fk_credentials _ Ht (fst a)); rewrite Hp; apply list_elem_of_fmap; exists (k, a);
        (split; [by destruct a|by apply elem_of_map_to_list]).
    + cbn. rewrite credentials_delete. by apply filter_Permutation.
  - apply (holds_delete _ _ _ _ events_sql _ _ ltac:(in_migrated) He). intros k a. cbn. rewrite map_lookup_filter_Some.
    split; intros [Hk Hx]; (split; [done|]); by rewrite (Hev k a Hk) in *.
  - apply (holds_delete _ _ _ _ labels_sql _ _ ltac:(in_migrated) Hl). intros k a. cbn. rewrite map_lookup_filter_Some.
    split; intros [Hk Hx]; (split; [done|]); by rewrite (Hlb k a Hk) in *.
  - apply (holds_delete _ _ _ _ events_labels_sql _ _ ltac:(in_migrated) Hr). intros k r. cbn. rewrite map_lookup_filter_Some.
    cut (t_events_labels t !! k = Some r -> keeps_events (fun e => event_device_id e <> i) t r /\
      keeps_labels (fun l => label_device_id l <> i) t r <-> ~ doomed migrated rel "devices" i "events_labels" k); [tauto|].
    intros Hk. rewrite (doomed_link "devices" i k r ltac:(discriminate) Hk).
    destruct (fk_links_events _ Ht _ _ Hk) as [e Hke], (fk_links_labels _ Ht _ _ Hk) as [l Hkl].
    rewrite (Hev _ _ Hke), (Hlb _ _ Hkl). unfold keeps_events, keeps_labels. rewrite Hke, Hkl. tauto.
  - unfold delete_from. by rewrite H1, H2.
Qed.

(** A table whose rows stay. *)
Lemma holds_stay {A} id (columns : A -> Row) m (tb : Table) root x :
  tb ∈ migrated -> holds id columns m (rel (tb_name tb)) -> (forall k, ~ doomed migrated rel root x (tb_name tb) k) ->
  holds id columns m (delete_from migrated root x rel (tb_name tb)).
Proof using Type. intros Htb Hm Hd. apply (holds_delete _ _ m); [done..|]. intros k a. split; [auto|by intros [? _]]. Qed.

Lemma delete_label_represents (i : Uuid) :
  integrity t -> represents (delete_from migrated "labels" i rel) (del_label i t).
Proof using Hrep.
  intros Ht. pose proof Hrep as [Hd (cs & Hc & Hp) He Hl Hr [H1 H2]].
  assert (Hdev : forall k, ~ doomed migrated rel "labels" i "devices" k).
  { intros k. rewrite (doomed_no_parent _ _ _ _ references_devices). by intros (? & _). }
  assert (Hev : forall k, ~ doomed migrated rel "labels" i "events" k).
  { intros k Hx. pose proof (doomed_exists _ _ _ _ _ _ Hx) as [r Hk]. apply (holds_row _ _ _ _ _ _ He) in Hk as (e & c & u & Hk & _).
    rewrite (doomed_child (fun _ => event_id) event_row _ "events" "labels" i _ _ event_device_id k e references_events
      ltac:(discriminate) He (fun _ _ _ _ => eq_refl) Hk) in Hx. by apply Hdev in Hx. }
  assert (Hcr : forall k, ~ doomed migrated rel "labels" i "device_credentials" k).
  { intros k Hx. pose proof (doomed_exists _ _ _ _ _ _ Hx) as [r Hk]. apply (holds_row _ _ _ _ _ _ Hc) in Hk as (e & c & u & Hk & _).
    rewrite (doomed_child (fun i _ => i) credential_row _ "device_credentials" "labels" i _ _ snd k e references_credentials
      ltac:(discriminate) Hc (fun _ _ _ _ => eq_refl) Hk) in Hx. by apply Hdev in Hx. }
  assert (Hlb : forall k l, t_labels t !! k = Some l -> doomed migrated rel "labels" i "labels" k <-> k = i).
  { intros k l Hk. destruct (holds_value _ _ _ _ _ _ Hl Hk) as (c & u & Hrow). rewrite (doomed_iff _ _ _ _ _ _ Hrow), references_labels. split.
    - intros [[_ ->]|(c' & p' & j & Hin%list_elem_of_singleton & _ & Hx)]; [done|]. injection Hin as -> ->. by apply Hdev in Hx.
    - intros ->. by left. }
  split.
  - by apply (holds_stay _ _ _ devices_sql _ _ ltac:(in_migrated) Hd).
  - exists cs. split; [|done]. by apply (holds_stay _ _ _ device_credentials_sql _ _ ltac:(in_migrated) Hc).
  - by apply (holds_stay _ _ _ events_sql _ _ ltac:(in_migrated) He).
  - apply (holds_delete _ _ _ _ labels_sql _ _ ltac:(in_migrated) Hl). intros k a. cbn. rewrite lookup_delete_Some. split.
    + intros [Hne Hk]. split; [done|]. rewrite (Hlb _ _ Hk). congruence.
    + intros [Hk Hnd]. rewrite (Hlb _ _ Hk) in Hnd. split; [congruence|done].
  - apply (holds_delete _ _ _ _ events_labels_sql _ _ ltac:(in_migrated) Hr). intros k r. cbn. rewrite map_lookup_filter_Some.
    cut (t_events_labels t !! k = Some r -> el_label_id r <> i <-> ~ doomed migrated rel "labels" i "events_labels" k); [tauto|].
    intros Hk. rewrite (doomed_link "labels" i k r ltac:(discriminate) Hk).
    destruct (fk_links_labels _ Ht _ _ Hk) as [l Hkl]. rewrite (Hlb _ _ Hkl). specialize (Hev (el_event_id r)). tauto.
  - unfold delete_from. by rewrite H1, H2.
Qed.
End Constraints.

(** ** The inserts of the program *)

(** A row that a handler inserts, with the id it gets. *)
Inductive Insertion : Type :=
| InsDevice (d : Device)
| InsCredential (k : Uuid) (c : NewDeviceCredential)
| InsEvent (e : Event)
| InsLabel (l : Label)
| InsEventLabel (r : EventLabel).

Definition insertion_table (ins : Insertion) : Table :=
  match ins with
  | InsDevice _ => devices_sql
  | InsCredential _ _ => device_credentials_sql
  | InsEvent _ => events_sql
  | InsLabel _ => labels_sql
  | InsEventLabel _ => events_labels_sql
  end.
Definition insertion_row (ins : Insertion) : Instant -> Instant -> Row :=
  match ins with
  | InsDevice d => row_of (device_row d) (device_id d)
  | InsCredential k c => row_of (credential_row (ndc_secret c, ndc_device_id c)) k
  | InsEvent e => row_of (event_row e) (event_id e)
  | InsLabel l => row_of (label_row l) (label_id l)
  | InsEventLabel r => row_of (link_row r) (el_id r)
  end.
Definition insertion_apply (ins : Insertion) : Store.tables -> Store.tables :=
  match ins with
  | InsDevice d => ins_device d
  | InsCredential _ c => ins_credential c
  | InsEvent e => ins_event (stored_event e)
  | InsLabel l => ins_label l
  | InsEventLabel r => ins_event_label r
  end.

(** What [PostgresLaws] says of an insert that succeeds; the id of a
    credential, which [Store.tables] leaves out, is new in the rows. *)
Definition insertion_allowed (ins : Insertion) (rel : Rel) (t : Store.tables) : Prop :=
  match ins with
  | InsDevice d => t_devices t !! device_id d = None
  | InsCredential k c => rel "device_credentials" !! k = None /\ is_Some (t_devices t !! ndc_device_id c)
  | InsEvent e => t_events t !! event_id e = None /\ is_Some (t_devices t !! event_device_id e)
  | InsLabel l => t_labels t !! label_id l = None /\ is_Some (t_devices t !! label_device_id l) /\
      (forall j m, t_labels t !! j = Some m -> label_event_kind m = label_event_kind l -> label_name m = label_name l ->
         label_device_id m = label_device_id l -> False)
  | InsEventLabel r => t_events_labels t !! el_id r = None /\ is_Some (t_events t !! el_event_id r) /\
      is_Some (t_labels t !! el_label_id r) /\
      (forall j q, t_events_labels t !! j = Some q -> el_event_id q = el_event_id r -> el_label_id q = el_label_id r -> False)
  end.

Lemma holds_none {A} id (columns : A -> Row) m rows i : holds id columns m rows -> m !! i = None <-> rows !! i = None.
Proof. intros H. rewrite !eq_None_not_Some. by rewrite (holds_is_Some _ _ _ _ i H). Qed.

Lemma holds_insert {A} id (columns : A -> Row) m rows i a c u :
  holds id columns m rows -> id i a = i -> holds id columns (<[i := a]> m) (<[i := row_of (columns a) i c u]> rows).
Proof.
  intros H Hi k. rewrite !lookup_insert. case_decide; [|apply H]. subst. constructor. rewrite Hi. eauto.
Qed.

(** Rows of a table that agree on some columns. *)
Lemma unique_rows {A} id (columns : A -> Row) m rows cs r (same : A -> Prop) :
  holds id columns m rows -> (forall a x c u, cells cs r = cells cs (row_of (columns a) x c u) <-> same a) ->
  (forall j q, rows !! j = Some q -> cells cs r <> cells cs q) <-> (forall j a, m !! j = Some a -> ~ same a).
Proof.
  intros Hm Hsame. split.
  - intros H j a Ha. destruct (holds_value _ _ _ _ _ _ Hm Ha) as (c & u & Hr). rewrite <- (Hsame a (id j a) c u). by apply (H j).
  - intros H j q Hq. destruct (holds_row _ _ _ _ _ _ Hm Hq) as (a & c & u & Ha & ->). rewrite Hsame. by apply (H j).
Qed.

Definition insertion_key (ins : Insertion) : Uuid :=
  match ins with
  | InsDevice d => device_id d
  | InsCredential k _ => k
  | InsEvent e => event_id e
  | InsLabel l => label_id l
  | InsEventLabel r => el_id r
  end.

Lemma insertion_table_migrated ins : insertion_table ins ∈ migrated.
Proof. destruct ins; cbn; in_migrated. Qed.

Lemma no_uniques name cs : uniques name migrated = [] -> cs ∉ uniques name migrated.
Proof. intros ->. apply not_elem_of_nil. Qed.

(** The checks of PostgreSQL, for each insert, are the conditions of the laws. *)
Lemma insertion_checks rel t ins c u :
  represents rel t ->
  accepted migrated (insertion_table ins) (insertion_key ins) (insertion_row ins c u) rel <-> insertion_allowed ins rel t.
Proof.
  intros Hrep. pose proof Hrep as [Hd _ He Hl Hr _]. split.
  - intros [_ _ Hn Hu Hf]. destruct ins as [d|k x|e|l|r]; cbn in *.
    + by apply (holds_none _ _ _ _ _ Hd).
    + split; [done|]. rewrite references_credentials in Hf. destruct (Hf _ _ (list_elem_of_here _ _)) as (j & [= <-] & Hj).
      by apply (holds_is_Some _ _ _ _ _ Hd).
    + split; [by apply (holds_none _ _ _ _ _ He)|]. rewrite references_events in Hf.
      destruct (Hf _ _ (list_elem_of_here _ _)) as (j & [= <-] & Hj). by apply (holds_is_Some _ _ _ _ _ Hd).
    + split_and!; [by apply (holds_none _ _ _ _ _ Hl)| |].
      * rewrite references_labels in Hf. destruct (Hf _ _ (list_elem_of_here _ _)) as (j & [= <-] & Hj).
        by apply (holds_is_Some _ _ _ _ _ Hd).
      * intros j m Hj Hk Hname Hdev. destruct (holds_value _ _ _ _ _ _ Hl Hj) as (c' & u' & Hq).
        apply (Hu ["event_kind"; "name"; "device_id"] j _ ltac:(vm_compute; here_or_further) Hq). cbn. by rewrite Hk, Hname, Hdev.
    + rewrite references_links in Hf. split_and!; [by apply (holds_none _ _ _ _ _ Hr)| | |].
      * destruct (Hf _ _ (list_elem_of_here _ _)) as (j & [= <-] & Hj). by apply (holds_is_Some _ _ _ _ _ He).
      * destruct (Hf "label_id" "labels" ltac:(here_or_further)) as (j & [= <-] & Hj). by apply (holds_is_Some _ _ _ _ _ Hl).
      * intros j q Hj Hev Hlb. destruct (holds_value _ _ _ _ _ _ Hr Hj) as (c' & u' & Hq).
        apply (Hu ["event_id"; "label_id"] j _ ltac:(vm_compute; here_or_further) Hq). cbn. by rewrite Hev, Hlb.
  - intros Ha. split; [by destruct ins|by destruct ins|..]; destruct ins as [d|k x|e|l|r]; cbn in *.
    + by apply (holds_none _ _ _ _ _ Hd).
    + apply Ha.
    + apply (holds_none _ _ _ _ _ He), Ha.
    + apply (holds_none _ _ _ _ _ Hl), Ha.
    + apply (holds_none _ _ _ _ _ Hr), Ha.
    + by intros cs j q Hcs%no_uniques; [|vm_compute].
    + by intros cs j q Hcs%no_uniques; [|vm_compute].
    + by intros cs j q Hcs%no_uniques; [|vm_compute].
    + intros cs j q (tb & Htb & Hn & Hcs)%uniques_spec Hq Heq. rewrite migrated_eq in Htb.
      cases_of Htb; subst tb; try discriminate Hn. cbn in Hcs. cases_of Hcs; subst cs.
      apply (holds_row _ _ _ _ _ _ Hl) in Hq as (m & c' & u' & Hm & ->). injection Heq as ? ? ?. by eapply Ha.
    + intros cs j q (tb & Htb & Hn & Hcs)%uniques_spec Hq Heq. rewrite migrated_eq in Htb.
      cases_of Htb; subst tb; try discriminate Hn. cbn in Hcs. cases_of Hcs; subst cs.
      apply (holds_row _ _ _ _ _ _ Hr) in Hq as (m & c' & u' & Hm & ->). injection Heq as ? ?. by eapply Ha.
    + rewrite references_devices. by intros col p ?%not_elem_of_nil.
    + rewrite references_credentials. intros col p [= -> ->]%list_elem_of_singleton. eexists. split; [reflexivity|].
      apply (holds_is_Some _ _ _ _ _ Hd), Ha.
    + rewrite references_events. intros col p [= -> ->]%list_elem_of_singleton. eexists. split; [reflexivity|].
      apply (holds_is_Some _ _ _ _ _ Hd), Ha.
    + rewrite references_labels. intros col p [= -> ->]%list_elem_of_singleton. eexists. split; [reflexivity|].
      apply (holds_is_Some _ _ _ _ _ Hd), Ha.
    + rewrite references_links. intros col p Hin. cases_of Hin; injection Hin as -> ->; eexists; (split; [reflexivity|]).
      * apply (holds_is_Some _ _ _ _ _ He), Ha.
      * apply (holds_is_Some _ _ _ _ _ Hl), Ha.
Qed.

Lemma event_row_stored e : event_row (stored_event e) = event_row e.
Proof. unfold event_row, stored_event, as_stored; cbn. by rewrite !instant_exact. Qed.

Lemma insertion_represents rel t ins c u :
  represents rel t -> insertion_allowed ins rel t ->
  represents (inserted (insertion_table ins) (insertion_key ins) (insertion_row ins c u) rel) (insertion_apply ins t).
Proof.
  intros [Hd (cs & Hc & Hp) He Hl Hr Hcomp] Ha. destruct ins as [d|k x|e|l|r]; split; try done; try (by exists cs);
    try (by apply holds_insert); try (cbn; rewrite <- event_row_stored; by apply holds_insert).
  cbn in *. exists (<[k := (ndc_secret x, ndc_device_id x)]> cs). split.
  - apply (holds_insert (fun i _ => i) credential_row cs (rel "device_credentials") k (ndc_secret x, ndc_device_id x) c u Hc eq_refl).
  - destruct Ha as [Hk _]. rewrite Hp, map_to_list_insert by (by apply (holds_none _ _ _ _ _ Hc)). done.
Qed.

(** ** SELECT *)

(** The [ALL_COLUMNS] of the modules of backend/src/actor/db, and the derived
    [Queryable]: the columns fill the fields of the struct in order. *)
Definition device_columns : list string := ["id"; "name"; "description"].
Definition device_from_row (r : list (option Value)) : option Device :=
  match r with
  | [Some (VUuid id); Some (VText name); Some (VText description)] => Some (mkDevice id name description)
  | _ => None
  end.
Definition event_columns : list string := ["id"; "kind"; "payload"; "started_at"; "ended_at"; "device_id"].
Definition event_from_row (r : list (option Value)) : option Event :=
  match r with
  | [Some (VUuid id); Some (VKind kind); Some (VJson payload); Some (VTime started_at); Some (VTime ended_at);
     Some (VUuid device_id)] =>
      payload ← payload_of_json payload; Some (mkEvent id kind payload (of_instant started_at) (of_instant ended_at) device_id)
  | _ => None
  end.
Definition label_columns : list string := ["id"; "event_kind"; "name"; "description"; "rule"; "device_id"].
Definition label_from_row (r : list (option Value)) : option Label :=
  match r with
  | [Some (VUuid id); Some (VKind event_kind); Some (VText name); Some (VText description); Some (VJson rule);
     Some (VUuid device_id)] =>
      rule ← rule_of_json rule; Some (mkLabel id event_kind name description rule device_id)
  | _ => None
  end.
Definition event_label_columns : list string := ["id"; "event_id"; "label_id"].
Definition event_label_from_row (r : list (option Value)) : option EventLabel :=
  match r with
  | [Some (VUuid id); Some (VUuid event_id); Some (VUuid label_id)] => Some (mkEventLabel id event_id label_id)
  | _ => None
  end.

(** [table.select(ALL_COLUMNS).load()]; [None] where a row is not of the type. *)
Definition select {A} (columns : list string) (from_row : list (option Value) -> option A) (rows : gmap Uuid Row) : option (list A) :=
  mapM (fun r => from_row (cells columns r)) (map_to_list rows).*2.

Lemma mapM_pairs {K A B} (f : A -> option B) (l : list (K * A)) (k : list (K * B)) :
  prod_map (fun x => x) f <$> l = prod_map (fun x => x) Some <$> k -> mapM f l.*2 = Some k.*2.
Proof.
  revert k. induction l as [|[i a] l IH]; intros [|[j b] k]; cbn; try done. intros [= -> Hb Hl]. rewrite Hb. cbn.
  by rewrite (IH k Hl).
Qed.

(** [g a] is what is read back where [a] was written. *)
Lemma select_holds_as {A} (g : A -> A) id (columns : A -> Row) m rows cols (from_row : list (option Value) -> option A) :
  holds id columns m rows ->
  (forall i a c u, m !! i = Some a -> from_row (cells cols (row_of (columns a) (id i a) c u)) = Some (g a)) ->
  exists l, select cols from_row rows = Some l /\ l ≡ₚ (map_to_list (g <$> m)).*2.
Proof.
  intros Hm Hback.
  assert ((fun r => from_row (cells cols r)) <$> rows = Some <$> (g <$> m)) as Heq.
  { apply map_eq. intros i. rewrite !lookup_fmap. specialize (Hm i). destruct (m !! i) as [a|] eqn:Ha; inversion Hm as [? r (c & u & ->)|]; cbn; [|done].
    by rewrite (Hback i a c u Ha). }
  exists (map_to_list (g <$> m)).*2. split; [|done]. unfold select. apply mapM_pairs.
  rewrite <- (map_to_list_fmap (fun r => from_row (cells cols r)) rows), Heq. apply map_to_list_fmap.
Qed.

Lemma select_holds {A} id (columns : A -> Row) m rows cols (from_row : list (option Value) -> option A) :
  holds id columns m rows ->
  (forall i a c u, m !! i = Some a -> from_row (cells cols (row_of (columns a) (id i a) c u)) = Some a) ->
  exists l, select cols from_row rows = Some l /\ l ≡ₚ (map_to_list m).*2.
Proof.
  intros Hm Hback. destruct (select_holds_as (fun a => a) id columns m rows cols from_row Hm Hback) as (l & Hl & Hp).
  exists l. split; [done|]. by rewrite map_fmap_id in Hp.
Qed.

Lemma empty_represents : represents (fun _ => ∅) empty_tables.
Proof.
  assert (forall A id (columns : A -> Row), holds id columns ∅ ∅) as He by (intros A id columns i; rewrite !lookup_empty; constructor).
  split; try done. exists ∅. split; [done|]. by rewrite map_to_list_empty.
Qed.

(** ** Properties *)

(** C22: the constraints that the migrations put on the tables (types, NOT NULL,
    PRIMARY KEY, UNIQUE, REFERENCES) hold of the rows exactly when the tables
    they represent have the [integrity] that the theorems on the handlers keep. *)
Theorem constraints_are_integrity (rel : Rel) (t : Store.tables) :
  represents rel t -> (satisfies migrated rel <-> integrity t).
Proof. intros Hrep. split; [by apply satisfies_integrity|by apply integrity_satisfies]. Qed.

(** C23: ON DELETE CASCADE deletes what [del_device] and [del_label] delete: the
    rows left by DELETE of a device or a label, with all rows that refer to one
    that goes, over any number of references, are those of the tables after the
    operation of [Store], and satisfy the constraints; the generations of
    references that are followed are enough. *)
Theorem cascades_are_deletes (rel : Rel) (t : Store.tables) (i : Uuid) :
  represents rel t -> satisfies migrated rel ->
  represents (delete_from migrated "devices" i rel) (del_device i t) /\
  represents (delete_from migrated "labels" i rel) (del_label i t) /\
  forall root, satisfies migrated (delete_from migrated root i rel) /\
    forall tb k r, tb ∈ migrated ->
      delete_from migrated root i rel (tb_name tb) !! k = Some r <->
        rel (tb_name tb) !! k = Some r /\ ~ doomed migrated rel root i (tb_name tb) k.
Proof.
  intros Hrep Hs. pose proof (satisfies_integrity rel t Hrep Hs) as Ht.
  split_and!; [by apply delete_device_represents|by apply delete_label_represents|].
  intros root. split; [by apply (delete_from_satisfies _ migrated_order migrated_names)|].
  intros tb k r. by apply (delete_from_lookup _ migrated_order migrated_names).
Qed.

(** C24: PostgreSQL accepts a row that a handler inserts exactly when the laws
    of [Store] allow it: the id is new, the rows it refers to are there, and no
    row has the same unique columns. Then the rows are those of the tables after
    the operation of [Store], and satisfy the constraints. *)
Theorem inserts_are_checked (rel : Rel) (t : Store.tables) (ins : Insertion) (created updated : Instant) :
  represents rel t -> satisfies migrated rel ->
  match insert_into migrated (insertion_table ins) (insertion_row ins created updated) rel with
  | Ok rel' => insertion_allowed ins rel t /\ represents rel' (insertion_apply ins t) /\ satisfies migrated rel'
  | Err _ => ~ insertion_allowed ins rel t
  end.
Proof.
  intros Hrep Hs. destruct (insert_into _ _ _ _) as [rel'|e] eqn:Hi.
  - split_and!; [| |by eapply insert_into_satisfies, Hi; auto using migrated_names, insertion_table_migrated].
    all: apply insert_into_spec in Hi as (k & Ha & ->); assert (k = insertion_key ins) as -> by
      (pose proof (acc_key _ _ _ _ _ Ha) as Hk; destruct ins; cbn in Hk; by injection Hk as <-).
    all: apply (insertion_checks _ _ _ _ _ Hrep) in Ha; [done || by apply insertion_represents].
  - intros Ha. apply (insertion_checks _ _ _ created updated Hrep) in Ha.
    pose proof (proj2 (insert_into_spec migrated _ _ rel _) (ex_intro _ _ (conj Ha eq_refl))) as Hok.
    by rewrite Hi in Hok.
Qed.

(** The values of the Rust types fit in their columns. *)
Definition values_wf (t : Store.tables) : Prop :=
  (forall i e, t_events t !! i = Some e -> payload_wf (event_payload e) = true) /\
  (forall i l, t_labels t !! i = Some l -> rule_wf (label_rule l) = true).

(** C25: selecting the columns [ALL_COLUMNS] of a module and filling the fields
    of the struct in order succeeds on every row of its table, and gives each
    value of the table once, with its payload or rule parsed from JSONB: a
    device, a label or a link as the struct it was written from, an event with
    its two times cut to what a column keeps of them. An event that has been read
    is written and read again without a change. *)
Theorem selects_read_tables (rel : Rel) (t : Store.tables) :
  represents rel t -> values_wf t ->
  (exists l, select device_columns device_from_row (rel "devices") = Some l /\ l ≡ₚ (map_to_list (t_devices t)).*2) /\
  (exists l, select event_columns event_from_row (rel "events") = Some l /\
     l ≡ₚ (map_to_list (stored_event <$> t_events t)).*2 /\ Forall (fun e => stored_event e = e) l) /\
  (exists l, select label_columns label_from_row (rel "labels") = Some l /\ l ≡ₚ (map_to_list (t_labels t)).*2) /\
  (exists l, select event_label_columns event_label_from_row (rel "events_labels") = Some l /\
     l ≡ₚ (map_to_list (t_events_labels t)).*2).
Proof.
  intros [Hd _ He Hl Hr _] [Hp Hrule]. split_and!.
  - apply (select_holds _ _ _ _ _ _ Hd). by intros i [] c u _.
  - destruct (select_holds_as stored_event _ _ _ _ event_columns event_from_row He) as (l & Hl' & Hl'').
    { intros i e c u Hi. cbn. by rewrite payload_read_back by (by eapply Hp). }
    exists l. split_and!; [done..|]. rewrite Hl'', Forall_forall.
    intros e ([i e'] & -> & Hin)%list_elem_of_fmap_1. apply elem_of_map_to_list, lookup_fmap_Some in Hin as (e0 & <- & _).
    apply stored_event_idemp.
  - apply (select_holds _ _ _ _ _ _ Hl). intros i l c u Hi. cbn. rewrite rule_read_back by (by eapply Hrule). by destruct l.
  - apply (select_holds _ _ _ _ _ _ Hr). by intros i [] c u _.
Qed.
End Represents.

(** ** Witnesses: a device with one event *)

#[local] Existing Instances LittleEndian.uuid16_ops MemStore.chrono_pair MemStore.chrono_pair_laws.

Definition device1 : Device := mkDevice (LittleEndian.uuid_nth 0) "kitchen" "by the window".
Definition event1 : Event :=
  mkEvent (LittleEndian.uuid_nth 1) KLuminosity (Luminosity 1 2) (60, 1234567) (61, 0) (LittleEndian.uuid_nth 0).
Definition tables1 : Store.tables := ins_event (stored_event event1) (ins_device device1 empty_tables).
Definition rel1 : Rel :=
  inserted events_sql (event_id event1) (insertion_row (InsEvent event1) 60000000 60000000)
    (inserted devices_sql (device_id device1) (insertion_row (InsDevice device1) 59000000 59000000) (fun _ => ∅)).

Lemma rel1_represents : represents rel1 tables1.
Proof.
  apply (insertion_represents _ (ins_device device1 empty_tables) (InsEvent event1)).
  - apply (insertion_represents _ empty_tables (InsDevice device1)); [apply empty_represents|reflexivity].
  - split; [reflexivity|]. exists device1. reflexivity.
Qed.

Lemma tables1_integrity : integrity tables1.
Proof.
  apply ins_event_integrity; [|by exists device1]. by apply ins_device_integrity; [apply empty_integrity|].
Qed.

Lemma rel1_satisfies : satisfies migrated rel1.
Proof. apply (integrity_satisfies rel1 tables1 rel1_represents tables1_integrity). Qed.

Lemma constraints_are_integrity_witness : satisfies migrated rel1 <-> integrity tables1.
Proof. apply (constraints_are_integrity rel1 tables1 rel1_represents). Defined.

Lemma cascades_are_deletes_witness :
  represents (delete_from migrated "devices" (device_id device1) rel1) (del_device (device_id device1) tables1) /\
  size (delete_from migrated "devices" (device_id device1) rel1 "events") = 0%nat.
Proof.
  split; [apply (cascades_are_deletes rel1 tables1 (device_id device1) rel1_represents rel1_satisfies)|].
  vm_compute. reflexivity.
Defined.

(** An event of a device that does not exist is refused. *)
Lemma inserts_are_checked_witness :
  let orphaned := InsEvent (mkEvent (LittleEndian.uuid_nth 2) KLuminosity (Luminosity 1 2) (60, 0) (61, 0) (LittleEndian.uuid_nth 9)) in
  ~ insertion_allowed orphaned rel1 tables1.
Proof.
  intros orphaned. pose proof (inserts_are_checked rel1 tables1 orphaned 62000000 62000000 rel1_represents rel1_satisfies) as H.
  assert (is_ok (insert_into migrated (insertion_table orphaned) (insertion_row orphaned 62000000 62000000) rel1) = false) as Hno
    by (vm_compute; reflexivity).
  destruct (insert_into _ _ _ _) as [rel'|e]; [discriminate Hno|exact H].
Defined.

Lemma selects_read_tables_witness :
  exists l, select event_columns event_from_row (rel1 "events") = Some l /\
    l ≡ₚ (map_to_list (stored_event <$> t_events tables1)).*2 /\ Forall (fun e => stored_event e = e) l.
Proof.
  apply (selects_read_tables rel1 tables1 rel1_represents). split.
  - intros i e He. cbn [tables1 ins_event ins_device empty_tables t_events] in He. apply lookup_insert_Some in He as [[_ <-]|[_ He]]; [reflexivity|]. by rewrite lookup_empty in He.
  - intros i l Hl. cbn [tables1 ins_event ins_device empty_tables t_labels] in Hl. by rewrite lookup_empty in Hl.
Defined.
