(* ===== verification/DbHandlers.v ===== *)
(** * The handlers of the database actor (backend/src/actor/db)

    One definition per [Handler] implementation, in a monad that threads the
    database and stops at the first error, and the theorems on what each
    leaves in the tables, proved against the interface of [Store.v]. *)
From S2P Require Import Prelude MachineInt Bincode ParseInt DbTypes Store.
From S2P Require LittleEndian MemStore.
Open Scope Z_scope.

(** ** The monad of a handler *)

Section Handlers.
Context `{U : UuidOps} `{C : Chrono} {DB : Type} `{PG : !Postgres DB}.

Definition handler (A : Type) : Type := DB -> result A Error * DB.

Definition ret {A} (a : A) : handler A := fun db => (Ok a, db).
Definition throw {A} (e : Error) : handler A := fun db => (Err e, db).
Definition bind {A B} (m : handler A) (k : A -> handler B) : handler B := fun db =>
  match m db with
  | (Ok a, db) => k a db
  | (Err e, db) => (Err e, db)
  end.
(** [self.0.get()?], a modifying statement followed by [?], a query followed
    by [?]: the foreign error goes through the [From] of the module. *)
Definition connection : handler () := fun db => (res_map_err error_from_pool (pool_get db), db).
Definition execute {A} (stmt : DB -> result A DieselError * DB) : handler A := fun db =>
  let '(r, db) := stmt db in (res_map_err error_from_diesel r, db).
Definition load {A} (query : DB -> result A DieselError) : handler A := fun db =>
  (res_map_err error_from_diesel (query db), db).

#[local] Notation "'let!' x ':=' m 'in' k" := (bind m (fun x => k))
  (at level 10, x pattern, m at level 100, k at level 200).

(** ** db/device.rs *)

(** [InsertMsg<NewDevice, (Device, u64)>]; [secret] is [thread_rng().gen()]. *)
Definition handle_insert_device (secret : Z) (value : NewDevice) : handler (Device * Z) :=
  let! _ := connection in
  transaction (
    let! device := execute (q_insert_device value) in
    let! _ := execute (q_insert_credential (mkNewDeviceCredential (u64_to_be_bytes secret) (device_id device))) in
    ret (device, secret)).

(** [SelectMsg<(), Vec<Device>>]. *)
Definition handle_select_devices : handler (list Device) :=
  let! _ := connection in
  load q_devices.

(** [SelectMsg<u64, Device>]. *)
Definition handle_select_device (param : Z) : handler Device :=
  let! _ := connection in
  load (q_device_by_secret (u64_to_be_bytes param)).

(** [expect 1 device to be deleted, but got {}]. *)
Definition deleted_message (num : nat) : string :=
  ("expect 1 device to be deleted, but got " +:+ decimal 20 (Z.of_nat num))%stdpp.

(** [DeleteMsg<Uuid, Device>]. *)
Definition handle_delete_device (param : Uuid) : handler () :=
  let! _ := connection in
  let! n := execute (q_delete_device param) in
  match n with
  | 0%nat => throw not_found
  | 1%nat => ret ()
  | num => throw (unexpected (deleted_message num))
  end.

(** ** db/event.rs *)

(** [InsertMsg<NewEvent, Event>]. *)
Definition handle_insert_event (value : NewEvent) : handler Event :=
  let! _ := connection in
  let! id := execute (q_insert_event value) in
  ret (mkEvent id (ne_kind value) (ne_payload value) (ne_started_at value) (ne_ended_at value)
    (ne_device_id value)).

(** [SelectMsg<(), Vec<(Event, Vec<Label>)>>]. *)
Definition handle_select_events : handler (list (Event * list Label)) :=
  let! _ := connection in
  let! events := load q_events in
  let! links := load (q_links events) in
  let labels := grouped_by links events in
  ret (map (fun '(labels, events) => (events, map snd labels)) (zip labels events)).

(** [SelectMsg<Uuid, (Event, Vec<Label>)>]. *)
Definition handle_select_event (param : Uuid) : handler (Event * list Label) :=
  let! _ := connection in
  let! event := load (q_event param) in
  let! label := load (q_links [event]) in
  ret (event, map snd label).

(** ** db/event_label.rs: [InsertMsg<(Event, &[Label]), ()>]. *)
Definition handle_insert_event_labels (value : Event * list Label) : handler () :=
  let! _ := connection in
  let! _ := execute (q_insert_event_labels
    (map (fun label => mkNewEventLabel (event_id (fst value)) (label_id label)) (snd value))) in
  ret ().

(** ** db/label.rs *)

(** [SelectMsg<(), Vec<Label>>]. *)
Definition handle_select_labels : handler (list Label) :=
  let! _ := connection in
  load q_labels.

(** [InsertMsg<NewLabel, Label>]. *)
Definition handle_insert_label (value : NewLabel) : handler Label :=
  let! _ := connection in
  let! id := execute (q_insert_label value) in
  ret (mkLabel id (nl_event_kind value) (nl_name value) (nl_description value) (nl_rule value)
    (nl_device_id value)).

(** [DeleteMsg<Uuid, Label>]. *)
Definition handle_delete_label (param : Uuid) : handler () :=
  let! _ := connection in
  let! n := execute (q_delete_label param) in
  match n with
  | 0%nat => throw not_found
  | 1%nat => ret ()
  | num => throw (unexpected (deleted_message num))
  end.

(** ** The mailbox of the actor: the messages, and the database after one *)

Inductive Msg : Type :=
| InsertDevice (secret : Z) (value : NewDevice)
| SelectDevices
| SelectDevice (param : Z)
| DeleteDevice (param : Uuid)
| InsertEvent (value : NewEvent)
| SelectEvents
| SelectEvent (param : Uuid)
| InsertEventLabels (value : Event * list Label)
| SelectLabels
| InsertLabel (value : NewLabel)
| DeleteLabel (param : Uuid).

Definition after (m : Msg) (db : DB) : DB :=
  match m with
  | InsertDevice secret value => snd (handle_insert_device secret value db)
  | SelectDevices => snd (handle_select_devices db)
  | SelectDevice param => snd (handle_select_device param db)
  | DeleteDevice param => snd (handle_delete_device param db)
  | InsertEvent value => snd (handle_insert_event value db)
  | SelectEvents => snd (handle_select_events db)
  | SelectEvent param => snd (handle_select_event param db)
  | InsertEventLabels value => snd (handle_insert_event_labels value db)
  | SelectLabels => snd (handle_select_labels db)
  | InsertLabel value => snd (handle_insert_label value db)
  | DeleteLabel param => snd (handle_delete_label param db)
  end.
End Handlers.

Arguments Msg {U C}.

(** ** Specifications of handlers, over the tables *)

Section Spec.
Context `{U : UuidOps} `{C : Chrono} {DB : Type} `{PG : !Postgres DB} `{L : !PostgresLaws DB}.
#[local] Notation "'let!' x ':=' m 'in' k" := (bind m (fun x => k))
  (at level 10, x pattern, m at level 100, k at level 200).

(** From tables [t] the handler ends in a result and tables in [ok], or in an
    error and tables in [err]. *)
Definition spec {A} (m : handler A) (t : tables) (ok : A -> tables -> Prop) (err : Error -> tables -> Prop) :=
  forall db, tables_of db = t ->
    match m db with
    | (Ok a, db') => ok a (tables_of db')
    | (Err e, db') => err e (tables_of db')
    end.

Lemma spec_ret {A} (a : A) t (ok : A -> tables -> Prop) err : ok a t -> spec (ret a) t ok err.
Proof. by intros Hok db <-. Qed.

Lemma spec_throw {A} e t (ok : A -> tables -> Prop) (err : Error -> tables -> Prop) :
  err e t -> spec (throw e) t ok err.
Proof. by intros Herr db <-. Qed.

Lemma spec_bind {A B} (m : handler A) (k : A -> handler B) t ok err :
  spec m t (fun a t1 => spec (k a) t1 ok err) err -> spec (bind m k) t ok err.
Proof.
  intros Hm db Hdb. specialize (Hm db Hdb). unfold bind.
  destruct (m db) as [[a|e] db1]; [by apply Hm|done].
Qed.

Lemma spec_connection t (ok : () -> tables -> Prop) (err : Error -> tables -> Prop) :
  ok () t -> (forall e, err (PoolError e) t) -> spec connection t ok err.
Proof. intros Hok Herr db <-. unfold connection. by destruct (pool_get db) as [[]|e]; cbn. Qed.

Lemma spec_execute {A} (stmt : DB -> result A DieselError * DB) R t (ok : A -> tables -> Prop) (err : Error -> tables -> Prop) :
  modifies DB stmt R -> (forall a t', R t a t' -> ok a t') ->
  (forall e, e <> NotFound -> err (Diesel e) t) -> spec (execute stmt) t ok err.
Proof.
  intros Hstmt Hok Herr db <-. specialize (Hstmt db). unfold execute.
  destruct (stmt db) as [[a|e] db']; cbn; [auto|]. destruct Hstmt as [? ->]. by apply Herr.
Qed.

Lemma spec_load {A} (query : DB -> result A DieselError) t (ok : A -> tables -> Prop) (err : Error -> tables -> Prop) :
  (forall db a, tables_of db = t -> query db = Ok a -> ok a t) ->
  (forall db e, tables_of db = t -> query db = Err e -> err (Diesel e) t) -> spec (load query) t ok err.
Proof. intros Hok Herr db <-. unfold load. destruct (query db) eqn:E; cbn; eauto. Qed.

Lemma spec_transaction {A} (body : handler A) t (ok : A -> tables -> Prop) (err : Error -> tables -> Prop) :
  spec body t ok (fun _ _ => True) -> (forall e, err e t) -> spec (transaction body) t ok err.
Proof.
  intros Hbody Herr db Hdb. pose proof (transaction_spec DB A body db) as Ht.
  destruct (transaction body db) as [[a|e] db']; [|by rewrite Ht, Hdb].
  destruct Ht as (db1 & db2 & Hdb1 & Heq & ->). specialize (Hbody db1 ltac:(congruence)). by rewrite Heq in Hbody.
Qed.

Lemma spec_weaken {A} (m : handler A) t (ok ok' : A -> tables -> Prop) (err err' : Error -> tables -> Prop) :
  spec m t ok err -> (forall a t', ok a t' -> ok' a t') -> (forall e t', err e t' -> err' e t') ->
  spec m t ok' err'.
Proof. intros Hm Hok Herr db Hdb. specialize (Hm db Hdb). destruct (m db) as [[a|e] db']; auto. Qed.

(** Walk through a handler. *)
Ltac hstep :=
  match goal with
  | |- spec (bind _ _) _ _ _ => apply spec_bind
  | |- spec connection _ _ _ => apply spec_connection; [|by repeat split]
  | |- spec (ret _) _ _ _ => apply spec_ret
  | |- spec (throw _) _ _ _ => apply spec_throw
  end.

(** Apply the law of a modifying statement. *)
Ltac hexec law := eapply spec_execute; [apply law; exact _| |done].

(** Nothing but the tables [t] matters to an error. *)
Definition unchanged (t : tables) (_ : Error) (t' : tables) : Prop := t' = t.

Lemma insert_device_handler secret nd t :
  spec (handle_insert_device secret nd) t (fun '(d, s) t' =>
    s = secret /\ t_devices t !! device_id d = None /\ device_name d = nd_name nd /\
    device_description d = nd_description nd /\
    t' = ins_credential (mkNewDeviceCredential (u64_to_be_bytes secret) (device_id d)) (ins_device d t))
    (unchanged t).
Proof.
  unfold handle_insert_device. hstep. hstep. apply spec_transaction; [|done]. hstep.
  hexec insert_device_spec. intros d t1 (Hnew & Hn & Hd & ->). hstep.
  hexec insert_credential_spec. intros n t2 (_ & ->). by hstep.
Qed.

(** What deleting a row does, [found] when the row exists; an error changes
    nothing, is [NotFound] only for a row that does not exist, and is never the
    unexpected count. *)
Definition deleted (found : Prop) (del : tables) (_ : ()) (t' : tables) : Prop := found /\ t' = del.
Definition not_deleted (found : Prop) (t : tables) (e : Error) (t' : tables) : Prop :=
  t' = t /\ (is_not_found e = true -> ~ found) /\ forall msg, e <> Unexpected msg.

(** The [match] on the number of rows that both deletions end in. *)
Lemma delete_handler stmt t (found : Prop) `{Decision found} del :
  modifies DB stmt (fun t0 n t' => t0 = t -> n = (if decide found then 1%nat else 0%nat) /\ t' = del) ->
  (~ found -> del = t) ->
  spec (let! _ := connection in
        let! n := execute stmt in
        match n with
        | 0%nat => throw not_found
        | 1%nat => ret ()
        | num => throw (unexpected (deleted_message num))
        end) t (deleted found del) (not_deleted found t).
Proof.
  intros Hstmt Habsent. hstep. hstep. hstep.
  eapply spec_execute; [apply Hstmt| |].
  - intros n t' Hn. destruct (Hn eq_refl) as [-> ->]. case_decide; hstep; [done|].
    split_and!; [by apply Habsent|done|done].
  - intros e He. split_and!; [done|by destruct e|done].
Qed.

Lemma delete_device_handler i t :
  integrity t ->
  spec (handle_delete_device i) t (deleted (is_Some (t_devices t !! i)) (del_device i t))
    (not_deleted (is_Some (t_devices t !! i)) t).
Proof.
  intros Ht. apply (delete_handler (q_delete_device i) t (is_Some (t_devices t !! i))).
  - intros db. pose proof (delete_device_spec DB i db) as Hs. destruct (q_delete_device i db) as [[n|e] db']; [|done].
    by intros <-.
  - intros Hi. apply del_device_absent; [done|]. by apply eq_None_not_Some.
Qed.

Lemma delete_label_handler i t :
  integrity t ->
  spec (handle_delete_label i) t (deleted (is_Some (t_labels t !! i)) (del_label i t))
    (not_deleted (is_Some (t_labels t !! i)) t).
Proof.
  intros Ht. apply (delete_handler (q_delete_label i) t (is_Some (t_labels t !! i))).
  - intros db. pose proof (delete_label_spec DB i db) as Hs. destruct (q_delete_label i db) as [[n|e] db']; [|done].
    by intros <-.
  - intros Hi. apply del_label_absent; [done|]. by apply eq_None_not_Some.
Qed.

Lemma insert_event_handler ne t :
  spec (handle_insert_event ne) t (fun e t' =>
    e = mkEvent (event_id e) (ne_kind ne) (ne_payload ne) (ne_started_at ne) (ne_ended_at ne) (ne_device_id ne) /\
    t_events t !! event_id e = None /\ is_Some (t_devices t !! ne_device_id ne) /\ t' = ins_event (stored_event e) t)
    (unchanged t).
Proof.
  unfold handle_insert_event. hstep. hstep. hstep. hexec insert_event_spec.
  intros i t' (Hnew & Hfk & ->). by hstep.
Qed.

Lemma insert_label_handler nl t :
  spec (handle_insert_label nl) t (fun l t' =>
    l = mkLabel (label_id l) (nl_event_kind nl) (nl_name nl) (nl_description nl) (nl_rule nl) (nl_device_id nl) /\
    t_labels t !! label_id l = None /\ is_Some (t_devices t !! nl_device_id nl) /\
    (forall j m, t_labels t !! j = Some m -> label_event_kind m = nl_event_kind nl ->
       label_name m = nl_name nl -> label_device_id m = nl_device_id nl -> False) /\ t' = ins_label l t)
    (unchanged t).
Proof.
  unfold handle_insert_label. hstep. hstep. hstep. hexec insert_label_spec.
  intros i t' (Hnew & Hfk & Hu & ->). by hstep.
Qed.

Lemma select_device_handler s t :
  integrity t ->
  spec (handle_select_device s) t (fun d t' => t' = t /\
      (u64_to_be_bytes s, device_id d) ∈ t_credentials t /\ t_devices t !! device_id d = Some d)
    (fun e t' => t' = t /\ (is_not_found e = true -> forall i, (u64_to_be_bytes s, i) ∉ t_credentials t)).
Proof.
  intros Ht. unfold handle_select_device. hstep. hstep. apply spec_load.
  - intros db d <- Hq. split; [done|]. apply (device_by_secret_ok DB) in Hq as (i & Hc & Hd).
    by rewrite (pk_devices _ Ht _ _ Hd).
  - intros db e <- Hq. split; [done|]. intros Hnf i Hi. destruct e; [|done].
    destruct (fk_credentials _ Ht _ _ Hi) as [d Hd]. eapply (device_by_secret_none DB); eauto.
Qed.

(** The conditions on the rows that an INSERT of links adds, one by one. *)
Definition linkable (t : tables) (rows : list EventLabel) : Prop :=
  forall pre r post, rows = pre ++ r :: post ->
    let t1 := foldl (fun t r => ins_event_label r t) t pre in
    t_events_labels t1 !! el_id r = None /\ is_Some (t_events t !! el_event_id r) /\
    is_Some (t_labels t !! el_label_id r) /\
    forall j q, t_events_labels t1 !! j = Some q -> el_event_id q = el_event_id r ->
      el_label_id q = el_label_id r -> False.

Lemma insert_event_labels_handler e ls t :
  spec (handle_insert_event_labels (e, ls)) t (fun _ t' => exists rows,
      t' = foldl (fun t r => ins_event_label r t) t rows /\ linkable t rows /\
      map (fun r => (el_event_id r, el_label_id r)) rows = map (fun l => (event_id e, label_id l)) ls)
    (unchanged t).
Proof.
  unfold handle_insert_event_labels. hstep. hstep. hstep. hexec insert_event_labels_spec.
  intros n t' (_ & rows & Hrows & -> & Hl). hstep. exists rows. split_and!; [done..|].
  apply (f_equal (map (fun n => (nel_event_id n, nel_label_id n)))) in Hrows. by rewrite !map_map in Hrows.
Qed.

(** The labels of event [e] in tables [t]: each label once, exactly those a
    row of events_labels links to [e]. *)
Definition labels_of (t : tables) (e : Event) (ls : list Label) : Prop :=
  NoDup ls /\ forall l, l ∈ ls <-> exists r, el_event_id r = event_id e /\ linked t r l.

Lemma labels_of_links t e (links : list (EventLabel * Label)) :
  integrity t -> NoDup links ->
  (forall r l, (r, l) ∈ links <-> linked t r l /\ el_event_id r = event_id e) ->
  labels_of t e (map snd links).
Proof.
  intros Ht Hnd Hin. split.
  - apply (NoDup_fmap_2_strong snd); [|done].
    intros [r l] [q m] [[Hr Hl] He]%Hin [[Hq Hm] Hf]%Hin [= ->].
    apply (pk_labels _ Ht) in Hl as Hl'. apply (pk_labels _ Ht) in Hm as Hm'. f_equal.
    assert (el_id r = el_id q) as Hid by (eapply (unique_links _ Ht); eauto; congruence). congruence.
  - intros l. rewrite list_elem_of_In, in_map_iff. split.
    + intros ([r l'] & [= ->] & Hi%list_elem_of_In). apply Hin in Hi as [??]. eauto.
    + intros (r & He & Hl). exists (r, l). split; [done|]. apply list_elem_of_In, Hin. done.
Qed.

Lemma zip_groups {A B D} (f : A -> D) (g : B -> A) (l : list B) :
  map (fun '(a, b) => (b, f a)) (zip (map g l) l) = map (fun b => (b, f (g b))) l.
Proof. induction l; cbn; f_equal; auto. Qed.

Lemma map_fst_pair {A B} (f : A -> B) (l : list A) : (map (fun a => (a, f a)) l).*1 = l.
Proof. induction l; cbn; f_equal; auto. Qed.

Lemma select_events_handler t :
  integrity t ->
  spec handle_select_events t (fun l t' => t' = t /\ l.*1 ≡ₚ (map_to_list (t_events t)).*2 /\
      Forall (fun '(e, ls) => labels_of t e ls) l) (unchanged t).
Proof.
  intros Ht. unfold handle_select_events. hstep. hstep. hstep. apply spec_load; [|done].
  intros db1 es Hdb1 Hes%(events_spec DB). hstep. apply spec_load; [|done].
  intros db2 ls Hdb2 [Hnd Hls]%(links_spec DB). hstep. rewrite (grouped_by_spec DB), zip_groups, Hdb1, Hdb2 in *.
  split_and!; [done| |].
  - by rewrite (map_fst_pair _ es).
  - apply Forall_map, Forall_forall. intros e He. cbn. apply labels_of_links; [done|by apply NoDup_filter|].
    intros r l. rewrite list_elem_of_filter, Hls. cbn. split; [by intros (?&?&?)|]. intros [? Hr]. split_and!; [done..|].
    rewrite Hr. by apply list_elem_of_fmap_2.
Qed.

Lemma select_event_handler i t :
  integrity t ->
  spec (handle_select_event i) t (fun '(e, ls) t' => t' = t /\ t_events t !! i = Some e /\ labels_of t e ls)
    (fun e t' => t' = t /\ (is_not_found e = true -> t_events t !! i = None)).
Proof.
  intros Ht. unfold handle_select_event. hstep. hstep. hstep. apply spec_load.
  2: { intros db e <- He. split; [done|]. intros Hnf. destruct e; [|done]. by apply (event_none DB) in He. }
  intros db1 e Hdb1 He%(event_ok DB). hstep. apply spec_load.
  2: { intros db2 [|] _ Hl; [|done]. by apply (links_load DB) in Hl. }
  intros db2 ls Hdb2 [Hnd Hls]%(links_spec DB). hstep. rewrite Hdb1, Hdb2 in *.
  split_and!; [done..|]. apply labels_of_links; [done..|]. intros r l. rewrite Hls. cbn.
  by rewrite list_elem_of_singleton.
Qed.

Lemma insert_event_labels_fold rows t :
  integrity t -> linkable t rows ->
  integrity (foldl (fun t r => ins_event_label r t) t rows) /\
  t_events (foldl (fun t r => ins_event_label r t) t rows) = t_events t /\
  t_labels (foldl (fun t r => ins_event_label r t) t rows) = t_labels t.
Proof.
  intros Ht. induction rows as [|r rows IH] using rev_ind; intros Hrows; [done|].
  destruct IH as (Hi & He & Hl).
  { intros pre r' post ->. apply (Hrows pre r' (post ++ [r])). by rewrite <- app_assoc. }
  destruct (Hrows rows r [] eq_refl) as (H1 & H2 & H3 & H4). rewrite foldl_snoc. split_and!; [|done..].
  apply ins_event_label_integrity; rewrite ?He, ?Hl; done.
Qed.

Lemma spec_after {A} (m : handler A) t ok err (P : tables -> Prop) db :
  spec m t ok err -> tables_of db = t ->
  (forall a t', ok a t' -> P t') -> (forall e t', err e t' -> P t') -> P (tables_of (snd (m db))).
Proof. intros Hm Hdb Hok Herr. specialize (Hm db Hdb). destruct (m db) as [[a|e] db']; cbn; eauto. Qed.

Lemma spec_load_after {A} (q : DB -> result A DieselError) db :
  tables_of (snd ((let! _ := connection in load q) db)) = tables_of db.
Proof. unfold bind, connection, load. destruct (pool_get db); cbn; [|done]. by destruct (q db). Qed.

Lemma labels_of_unique t e ls ls' : labels_of t e ls -> labels_of t e ls' -> ls' ≡ₚ ls.
Proof. intros [? H1] [? H2]. apply NoDup_Permutation; [done..|]. intros lb. by rewrite H1, H2. Qed.

(** No row links an event that is new. *)
Lemma labels_of_new t e : integrity t -> t_events t !! event_id e = None -> labels_of (ins_event (stored_event e) t) (stored_event e) [].
Proof.
  intros Ht Hnew. split; [constructor|]. intros lb. rewrite elem_of_nil. split; [done|].
  intros (r & Hr & [Hl _]). cbn in Hl, Hr. destruct (fk_links_events _ Ht _ _ Hl). congruence.
Qed.

(** The rows an INSERT of links adds. *)
Lemma linkable_rows rows t :
  linkable t rows -> forall j q,
  t_events_labels (foldl (fun t r => ins_event_label r t) t rows) !! j = Some q <->
  t_events_labels t !! j = Some q \/ (q ∈ rows /\ j = el_id q).
Proof.
  induction rows as [|r rows IH] using rev_ind; intros Hrows j q; cbn.
  { rewrite elem_of_nil. tauto. }
  assert (linkable t rows) as Hrows'.
  { intros pre r' post ->. apply (Hrows pre r' (post ++ [r])). by rewrite <- app_assoc. }
  destruct (Hrows rows r [] eq_refl) as (Hnew & _). rewrite foldl_snoc, elem_of_app, list_elem_of_singleton. cbn.
  rewrite lookup_insert_Some, IH by done. split.
  - intros [[<- <-]|[_ [?|[? ?]]]]; auto.
  - assert (forall q', q' ∈ rows -> el_id q' <> el_id r) as Hne.
    { intros q' Hq' Heq. cut (Some q' = None); [done|]. rewrite <- Hnew. symmetry. apply (IH Hrows'). eauto. }
    intros [Hq|[[Hq| ->] ->]]; [right|right|by left]; split; eauto using not_eq_sym.
    intros <-. cut (Some q = None); [done|]. rewrite <- Hnew. symmetry. apply (IH Hrows'). by left.
Qed.

Lemma linkable_labels rows t (i : Uuid) :
  linkable t rows -> Forall (fun r => el_event_id r = i) rows -> NoDup (map el_label_id rows).
Proof.
  induction rows as [|r rows IH] using rev_ind; intros Hrows Hi; [constructor|].
  assert (linkable t rows) as Hrows'.
  { intros pre r' post ->. apply (Hrows pre r' (post ++ [r])). by rewrite <- app_assoc. }
  apply Forall_app in Hi as [Hi [Hr _]%Forall_cons]. destruct (Hrows rows r [] eq_refl) as (_ & _ & _ & Hu).
  rewrite map_app. apply NoDup_app. split_and!; [auto| |apply NoDup_singleton].
  intros l (q & -> & Hq)%list_elem_of_fmap_1 Hl%list_elem_of_singleton.
  apply (Hu (el_id q) q); [apply linkable_rows; auto| |done]. rewrite Forall_forall in Hi. by rewrite (Hi q Hq).
Qed.

(** ** Every message keeps the constraints of the migrations. *)
Lemma after_integrity m db : integrity (tables_of db) -> integrity (tables_of (after m db)).
Proof.
  intros Ht. destruct m; cbn [after].
  - eapply spec_after; [apply insert_device_handler|done| |by intros ? ? ->].
    intros [d s] t' (-> & Hnew & _ & _ & ->). apply ins_credential_integrity; cbn.
    + by apply ins_device_integrity.
    + rewrite lookup_insert, decide_True by done. eauto.
  - unfold handle_select_devices. by rewrite spec_load_after.
  - unfold handle_select_device. by rewrite spec_load_after.
  - eapply spec_after; [by apply delete_device_handler|done|intros ? ? [_ ->]|by intros ? ? [-> _]].
    by apply del_device_integrity.
  - eapply spec_after; [apply insert_event_handler|done| |by intros ? ? ->].
    intros e t' (He & Hnew & Hfk & ->). apply ins_event_integrity; [done|]. by rewrite He.
  - eapply spec_after; [by apply select_events_handler|done|by intros ? ? [-> _]|by intros ? ? ->].
  - eapply spec_after; [by apply select_event_handler|done|by intros [??] ? [-> _]|by intros ? ? [-> _]].
  - destruct value. eapply spec_after; [apply insert_event_labels_handler|done| |by intros ? ? ->].
    intros ? t' (rows & -> & Hrows & _). by apply insert_event_labels_fold.
  - unfold handle_select_labels. by rewrite spec_load_after.
  - eapply spec_after; [apply insert_label_handler|done| |by intros ? ? ->].
    intros l t' (Hl & Hnew & Hfk & Hu & ->). rewrite Hl in Hnew |- *. by apply ins_label_integrity.
  - eapply spec_after; [by apply delete_label_handler|done|intros ? ? [_ ->]|by intros ? ? [-> _]].
    by apply del_label_integrity.
Qed.

Definition afters (msgs : list Msg) (db : DB) : DB := foldl (fun db m => after m db) db msgs.

Lemma afters_integrity msgs db :
  integrity (tables_of db) -> integrity (tables_of (afters msgs db)).
Proof. unfold afters. revert db. induction msgs as [|m msgs IH]; intros db Ht; cbn; [done|]. by apply IH, after_integrity. Qed.

(** Only deleting a device and inserting an event change the events. *)
Lemma after_events_same m db :
  match m with DeleteDevice _ | InsertEvent _ => False | _ => True end -> integrity (tables_of db) ->
  t_events (tables_of (after m db)) = t_events (tables_of db).
Proof.
  intros Hm Ht. destruct m; cbn [after]; try done.
  - eapply spec_after; [apply insert_device_handler|done|by intros [??] ? (_&_&_&_&->)|by intros ? ? ->].
  - unfold handle_select_devices. by rewrite spec_load_after.
  - unfold handle_select_device. by rewrite spec_load_after.
  - eapply spec_after; [by apply select_events_handler|done|by intros ? ? [-> _]|by intros ? ? ->].
  - eapply spec_after; [by apply select_event_handler|done|by intros [??] ? [-> _]|by intros ? ? [-> _]].
  - destruct value. eapply spec_after; [apply insert_event_labels_handler|done| |by intros ? ? ->].
    intros ? t' (rows & -> & Hrows & _). by rewrite (proj1 (proj2 (insert_event_labels_fold rows _ Ht Hrows))).
  - unfold handle_select_labels. by rewrite spec_load_after.
  - eapply spec_after; [apply insert_label_handler|done|by intros ? ? (_&_&_&_&->)|by intros ? ? ->].
  - eapply spec_after; [by apply delete_label_handler|done|by intros ? ? [_ ->]|by intros ? ? [-> _]].
Qed.

(** Only deleting a device takes an event away. *)
Lemma after_events m db i e :
  match m with DeleteDevice _ => False | _ => True end -> integrity (tables_of db) ->
  t_events (tables_of db) !! i = Some e -> t_events (tables_of (after m db)) !! i = Some e.
Proof.
  intros Hm Ht He. destruct m as [| | | |ne| | | | | |]; try (by rewrite after_events_same).
  cbn [after]. eapply spec_after; [apply insert_event_handler|done| |by intros ? ? ->].
  intros e' t' (_ & Hnew & _ & ->). cbn. rewrite lookup_insert_ne; [done|]. congruence.
Qed.

(** ** Properties *)

(** What a message must not be for the credential [secret] of the device [d]
    to stay as it is: it deletes that device, or draws the same secret. *)
Definition spares (secret : Z) (d : Device) (m : Msg) : Prop :=
  match m with
  | InsertDevice s _ => in_u 64 s = true /\ s <> secret
  | DeleteDevice i => i <> device_id d
  | _ => True
  end.

(** The credential [secret] belongs to [d] alone. *)
Record credential (secret : Z) (d : Device) (t : tables) : Prop := {
  cred_integrity : integrity t;
  cred_device : t_devices t !! device_id d = Some d;
  cred_row : (u64_to_be_bytes secret, device_id d) ∈ t_credentials t;
  cred_only : forall i, (u64_to_be_bytes secret, i) ∈ t_credentials t -> i = device_id d;
}.

Lemma credential_ext secret d t t' :
  credential secret d t -> integrity t' -> t_devices t' = t_devices t -> t_credentials t' = t_credentials t ->
  credential secret d t'.
Proof. intros [] Ht' Hd Hc. by split; rewrite ?Hd, ?Hc. Qed.

(** The messages other than those on devices leave the two tables alone. *)
Lemma after_devices m db :
  match m with InsertDevice _ _ | DeleteDevice _ => False | _ => True end ->
  integrity (tables_of db) ->
  t_devices (tables_of (after m db)) = t_devices (tables_of db) /\
  t_credentials (tables_of (after m db)) = t_credentials (tables_of db).
Proof.
  intros Hm Ht. destruct m; cbn [after]; try done.
  - unfold handle_select_devices. by rewrite spec_load_after.
  - unfold handle_select_device. by rewrite spec_load_after.
  - eapply spec_after; [apply insert_event_handler|done|by intros ? ? (_&_&_&->)|by intros ? ? ->].
  - eapply spec_after; [by apply select_events_handler|done|by intros ? ? [-> _]|by intros ? ? ->].
  - eapply spec_after; [by apply select_event_handler|done|by intros [??] ? [-> _]|by intros ? ? [-> _]].
  - destruct value. eapply spec_after; [apply insert_event_labels_handler|done| |by intros ? ? ->].
    intros ? t' (rows & -> & _). generalize (tables_of db). clear.
    induction rows as [|r rows IH]; intros t; cbn; [done|]. apply (IH (ins_event_label r t)).
  - unfold handle_select_labels. by rewrite spec_load_after.
  - eapply spec_after; [apply insert_label_handler|done|by intros ? ? (_&_&_&_&->)|by intros ? ? ->].
  - eapply spec_after; [by apply delete_label_handler|done|by intros ? ? [_ ->]|by intros ? ? [-> _]].
Qed.

(** Only deleting a device takes a credential away. *)
Lemma after_rows m db c :
  match m with DeleteDevice _ => False | _ => True end -> integrity (tables_of db) ->
  c ∈ t_credentials (tables_of db) -> c ∈ t_credentials (tables_of (after m db)).
Proof.
  intros Hm Ht Hc. assert (match m with InsertDevice _ _ | DeleteDevice _ => True | _ => t_credentials (tables_of (after m db)) = t_credentials (tables_of db) end) as Hrest.
  { destruct m; try done; by apply after_devices. }
  destruct m; try (by rewrite Hrest); [|done]. cbn [after].
  eapply spec_after; [apply insert_device_handler|done| |by intros ? ? ->].
  intros [d s] t' (_ & _ & _ & _ & ->). by right.
Qed.

Lemma after_credential secret d m db :
  in_u 64 secret = true -> spares secret d m ->
  credential secret d (tables_of db) -> credential secret d (tables_of (after m db)).
Proof.
  intros Hs Hm Hc. pose proof (after_integrity m db (cred_integrity _ _ _ Hc)) as Hi.
  assert (match m with InsertDevice _ _ | DeleteDevice _ => False | _ => True end -> credential secret d (tables_of (after m db))) as Hrest.
  { intros Hm'. destruct (after_devices m db Hm' (cred_integrity _ _ _ Hc)). by eapply credential_ext. }
  destruct m; try (by apply Hrest); clear Hrest; cbn [after spares] in *.
  - revert Hi. eapply spec_after; [apply insert_device_handler|done| |by intros ? ? ->].
    intros [d' s'] t' (-> & Hnew & _ & _ & ->) Hi. destruct Hc as [_ Hd Hr Ho], Hm as [Hs0 Hne]. split; cbn; [done| | |].
    + rewrite lookup_insert_ne; [done|]. congruence.
    + by right.
    + intros i [[Heq _]%pair_equal_spec|?]%elem_of_cons; [|auto]. destruct Hne.
      by apply in_u_iff in Hs, Hs0; apply u64_to_be_bytes_inj.
  - revert Hi. eapply spec_after; [apply delete_device_handler, Hc|done| |by intros ? ? [-> _]].
    intros ? t' [_ ->] Hi. destruct Hc as [_ Hd Hr Ho]. split; cbn; [done| | |].
    + by rewrite lookup_delete_ne.
    + apply list_elem_of_filter. done.
    + intros i [_ ?]%list_elem_of_filter. auto.
Qed.

Lemma afters_credential secret d msgs db :
  in_u 64 secret = true -> Forall (spares secret d) msgs ->
  credential secret d (tables_of db) -> credential secret d (tables_of (afters msgs db)).
Proof.
  intros Hs Hm. revert db. induction Hm as [|m msgs Hm _ IH]; intros db Hc; cbn; [done|].
  by apply IH, after_credential.
Qed.

Lemma select_device_credential secret d db :
  credential secret d (tables_of db) ->
  match fst (handle_select_device secret db) with
  | Ok d' => d' = d
  | Err e => is_not_found e = false
  end.
Proof.
  intros []. pose proof (select_device_handler secret _ cred_integrity0 db eq_refl) as Hs.
  destruct (handle_select_device secret db) as [[d'|e] db']; cbn.
  - destruct Hs as (_ & Hr & Hd). apply cred_only0 in Hr. rewrite Hr, cred_device0 in Hd. by simplify_eq.
  - destruct Hs as [_ Hnf]. destruct (is_not_found e); [|done]. by destruct (Hnf eq_refl (device_id d)).
Qed.

(** A created device holds its credential. *)
Lemma created_credential secret nd db :
  integrity (tables_of db) -> (forall i, (u64_to_be_bytes secret, i) ∉ t_credentials (tables_of db)) ->
  match handle_insert_device secret nd db with
  | (Ok (d, s), db1) => s = secret /\ credential secret d (tables_of db1)
  | _ => True
  end.
Proof.
  intros Ht Hfresh. pose proof (insert_device_handler secret nd _ db eq_refl) as Hi.
  pose proof (after_integrity (InsertDevice secret nd) db Ht) as Ht1. cbn [after] in Ht1.
  destruct (handle_insert_device secret nd db) as [[[d s]|e] db1]; [|done]. cbn in Ht1.
  destruct Hi as (-> & Hnew & ? & ? & Heq). split; [done|]. split; [done| | |]; rewrite Heq; cbn.
  - rewrite lookup_insert. by apply decide_True.
  - left.
  - intros i [[_ Hi]%pair_equal_spec|Hi]%elem_of_cons; [done|]. by apply Hfresh in Hi.
Qed.

(** C11: creating a device is atomic (an error leaves the tables as they
    were), and on success the secret it answers authenticates exactly that
    device, after any later requests that neither delete the device nor draw
    the same secret: looking the secret up never answers another device, nor
    "not found". The drawn secret is a 64-bit number no other device has. *)
Theorem device_secret_authenticates (secret : Z) (nd : NewDevice) (db : DB) (msgs : list Msg) :
  integrity (tables_of db) -> in_u 64 secret = true ->
  (forall i, (u64_to_be_bytes secret, i) ∉ t_credentials (tables_of db)) ->
  match handle_insert_device secret nd db with
  | (Ok (d, s), db1) =>
      s = secret /\ device_name d = nd_name nd /\ device_description d = nd_description nd /\
      (Forall (spares secret d) msgs ->
       match fst (handle_select_device secret (afters msgs db1)) with
       | Ok d' => d' = d
       | Err e => is_not_found e = false
       end)
  | (Err e, db1) => tables_of db1 = tables_of db
  end.
Proof.
  intros Ht Hs Hfresh. pose proof (insert_device_handler secret nd _ db eq_refl) as Hi.
  pose proof (created_credential secret nd db Ht Hfresh) as Hc.
  destruct (handle_insert_device secret nd db) as [[[d s]|e] db1]; [|done].
  destruct Hi as (_ & _ & ? & ? & _), Hc as [-> Hc]. split_and!; [done..|]. intros Hm.
  by apply select_device_credential, afters_credential.
Qed.

(** C20: deleting a device succeeds only for a device that exists, and takes
    with it its credentials, events and labels and the links of those, and
    nothing else: the credentials, events, labels and links of the other devices
    are left as they were, and no secret authenticates the deleted device any
    more. An error changes nothing;
    "not found" is answered for a missing device only, and the error for an
    unexpected number of deleted rows never. *)
Theorem delete_device_revokes (i : Uuid) (db : DB) :
  integrity (tables_of db) ->
  let t := tables_of db in
  match handle_delete_device i db with
  | (Ok _, db') =>
      let t' := tables_of db' in
      is_Some (t_devices t !! i) /\ t_devices t' = delete i (t_devices t) /\
      t_credentials t' = filter (fun c => snd c <> i) (t_credentials t) /\
      (forall s d, fst (handle_select_device s db') = Ok d -> device_id d <> i) /\
      (forall j e, t_events t' !! j = Some e <-> t_events t !! j = Some e /\ event_device_id e <> i) /\
      (forall j l, t_labels t' !! j = Some l <-> t_labels t !! j = Some l /\ label_device_id l <> i) /\
      (forall j r, t_events_labels t' !! j = Some r <-> t_events_labels t !! j = Some r /\
         is_Some (t_events t' !! el_event_id r) /\ is_Some (t_labels t' !! el_label_id r))
  | (Err e, db') =>
      tables_of db' = t /\ (is_not_found e = true -> t_devices t !! i = None) /\
      forall msg, e <> Unexpected msg
  end.
Proof.
  intros Ht t. pose proof (delete_device_handler i _ Ht db eq_refl) as Hd.
  destruct (handle_delete_device i db) as [[[]|e] db'].
  2: { destruct Hd as (? & Hnf & ?). split_and!; [done| |done]. intros He. by apply eq_None_not_Some, Hnf. }
  destruct Hd as [Hfound Heq]. assert (integrity (tables_of db')) as Ht' by (rewrite Heq; by apply del_device_integrity).
  fold t in Hfound, Heq. cbn zeta. split_and!; [done|by rewrite Heq|by rewrite Heq| |rewrite Heq; cbn..].
  - intros s d Hd Hi. pose proof (select_device_handler s _ Ht' db' eq_refl) as Hsel.
    destruct (handle_select_device s db') as [[d'|?] db2]; cbn in Hd; [|done]. injection Hd as [= ->].
    destruct Hsel as (_ & _ & Hl). by rewrite Heq in Hl; cbn in Hl; rewrite Hi, lookup_delete_eq in Hl.
  - intros j e. by rewrite map_lookup_filter_Some.
  - intros j l. by rewrite map_lookup_filter_Some.
  - intros j r. rewrite map_lookup_filter_Some. fold t in Ht. split; intros [Hr Hk]; split; try done.
    + pose proof (fk_links_events _ Ht' j r) as He. pose proof (fk_links_labels _ Ht' j r) as Hl.
      rewrite Heq in He, Hl. cbn in He, Hl. rewrite map_lookup_filter_Some in He, Hl. split; auto.
    + unfold keeps_events, keeps_labels. destruct Hk as [[e He] [l Hl]].
      apply map_lookup_filter_Some in He as [-> ?], Hl as [-> ?]. done.
Qed.

(** C33: the list of events answers every event once, each with the labels
    that rows of events_labels link to it, each label once; and asking for one
    event gives the same event and the same labels. *)
Theorem events_with_their_labels (db : DB) (l : list (Event * list Label)) :
  integrity (tables_of db) -> fst (handle_select_events db) = Ok l ->
  l.*1 ≡ₚ (map_to_list (t_events (tables_of db))).*2 /\
  forall e ls, (e, ls) ∈ l ->
    (NoDup ls /\ forall lb, lb ∈ ls <-> exists r, el_event_id r = event_id e /\ linked (tables_of db) r lb) /\
    match fst (handle_select_event (event_id e) db) with
    | Ok (e', ls') => e' = e /\ ls' ≡ₚ ls
    | Err err => is_not_found err = false
    end.
Proof.
  intros Ht Hl. pose proof (select_events_handler _ Ht db eq_refl) as Hs.
  destruct (handle_select_events db) as [[l'|?] db']; cbn in Hl; [|done]. injection Hl as [= ->].
  destruct Hs as (_ & Hp & Hf). split; [done|]. intros e ls Hin. assert (labels_of (tables_of db) e ls) as Hls.
  { rewrite Forall_forall in Hf. by apply (Hf (e, ls)). }
  split; [done|]. pose proof (select_event_handler (event_id e) _ Ht db eq_refl) as He.
    assert (t_events (tables_of db) !! event_id e = Some e) as Hget.
  { assert (e ∈ (map_to_list (t_events (tables_of db))).*2) as Hie.
    { rewrite <- Hp. apply (list_elem_of_fmap_2 fst _ _ Hin). }
    apply list_elem_of_fmap_1 in Hie as ([i e0] & -> & Hi). cbn in *.
    apply elem_of_map_to_list in Hi. by rewrite (pk_events _ Ht _ _ Hi). }
  destruct (handle_select_event (event_id e) db) as [[[e' ls']|err] db2]; cbn.
  2: { destruct He as [_ Hnf]. apply not_true_is_false. intros H%Hnf. congruence. }
  destruct He as (_ & He' & Hls'). rewrite Hget in He'. simplify_eq.
  split; [done|]. by eapply labels_of_unique.
Qed.

(** The labels of an event whose only links are [rows]. *)
Lemma linked_labels t t' e rows ls ls' :
  integrity t' -> t' = foldl (fun t r => ins_event_label r t) t rows -> linkable t rows ->
  (forall j r, t_events_labels t !! j = Some r -> el_event_id r <> event_id e) ->
  map (fun r => (el_event_id r, el_label_id r)) rows = map (fun l => (event_id e, label_id l)) ls ->
  labels_of t' e ls' -> map label_id ls' ≡ₚ map label_id ls.
Proof.
  intros Ht' Heq Hrows Hnone Hmap [Hnd Hls].
  assert (map el_label_id rows = map label_id ls) as Hids.
  { apply (f_equal (map snd)) in Hmap. by rewrite !map_map in Hmap. }
  assert (Forall (fun r => el_event_id r = event_id e) rows) as Hev.
  { apply (f_equal (map fst)) in Hmap. rewrite !map_map in Hmap. apply Forall_forall. intros r Hr.
    apply (list_elem_of_fmap_2 el_event_id) in Hr. change (el_event_id r ∈ map (fun r => el_event_id r) rows) in Hr.
    cbn in Hmap. rewrite Hmap in Hr. by apply list_elem_of_fmap_1 in Hr as (? & ? & _). }
  apply NoDup_Permutation.
  - apply (NoDup_fmap_2_strong label_id); [|done]. intros l m (r & _ & [_ Hr])%Hls (q & _ & [_ Hq])%Hls Hlm.
    pose proof (pk_labels _ Ht' _ _ Hr). pose proof (pk_labels _ Ht' _ _ Hq). congruence.
  - rewrite <- Hids. by eapply linkable_labels.
  - subst t'. intros i. rewrite <- Hids. split.
    + intros (l & -> & (r & Hr & [Hlk Hlb])%Hls)%list_elem_of_fmap_1. rewrite (pk_labels _ Ht' _ _ Hlb).
      apply list_elem_of_fmap_2. by apply (linkable_rows _ _ Hrows) in Hlk as [?%Hnone|[? _]].
    + intros (r & -> & Hr)%list_elem_of_fmap_1.
      assert (linked' : t_events_labels (foldl (fun t r => ins_event_label r t) t rows) !! el_id r = Some r).
      { apply linkable_rows; auto. }
      destruct (fk_links_labels _ Ht' _ _ linked') as [l Hl]. rewrite <- (pk_labels _ Ht' _ _ Hl).
      apply list_elem_of_fmap_2, Hls. exists r. rewrite Forall_forall in Hev. split; [by apply Hev|done].
Qed.

(** An inserted event is answered as it was asked for, under a new identifier;
    what is read back by it has its times as a column keeps them, and no label
    yet; labelling it with labels of the database links exactly those. *)
Lemma insert_event_reads_back (ne : NewEvent) (db : DB) :
  integrity (tables_of db) ->
  match handle_insert_event ne db with
  | (Ok e, db1) =>
      event_kind e = ne_kind ne /\ event_payload e = ne_payload ne /\ event_started_at e = ne_started_at ne /\
      event_ended_at e = ne_ended_at ne /\ event_device_id e = ne_device_id ne /\
      is_Some (t_devices (tables_of db) !! ne_device_id ne) /\
      match fst (handle_select_event (event_id e) db1) with
      | Ok (e', ls) => e' = stored_event e /\ ls = []
      | Err err => is_not_found err = false
      end /\
      forall ls, match handle_insert_event_labels (e, ls) db1 with
        | (Ok _, db2) =>
            match fst (handle_select_event (event_id e) db2) with
            | Ok (e', ls') => e' = stored_event e /\ map label_id ls' ≡ₚ map label_id ls
            | Err err => is_not_found err = false
            end
        | (Err _, db2) => tables_of db2 = tables_of db1
        end
  | (Err _, db1) => tables_of db1 = tables_of db
  end.
Proof.
  intros Ht. pose proof (insert_event_handler ne _ db eq_refl) as Hi.
  destruct (handle_insert_event ne db) as [[e|?] db1]; [|done]. destruct Hi as (He & Hnew & Hfk & Heq).
  assert (integrity (tables_of db1)) as Ht1.
  { rewrite Heq. apply ins_event_integrity; [done|]. by rewrite He. }
  assert (t_events (tables_of db1) !! event_id e = Some (stored_event e)) as Hget.
  { rewrite Heq. cbn. rewrite lookup_insert. by apply decide_True. }
  split_and!; [by rewrite He..|done| |].
  - pose proof (select_event_handler (event_id e) _ Ht1 db1 eq_refl) as Hs.
    destruct (handle_select_event (event_id e) db1) as [[[e' ls]|?] db2]; cbn.
    2: { destruct Hs as [_ Hnf]. apply not_true_is_false. intros H%Hnf. congruence. }
    destruct Hs as (_ & He' & Hls). simplify_eq. split; [done|]. apply Permutation_nil_r.
    eapply labels_of_unique; [|done]. rewrite Heq. by apply labels_of_new.
  - intros ls. pose proof (insert_event_labels_handler e ls _ db1 eq_refl) as Hl.
    destruct (handle_insert_event_labels (e, ls) db1) as [[[]|?] db2]; [|done].
    destruct Hl as (rows & Heq2 & Hrows & Hmap). destruct (insert_event_labels_fold rows _ Ht1 Hrows) as (Ht2 & Hev & Hlb).
    rewrite <- Heq2 in Ht2, Hev, Hlb. pose proof (select_event_handler (event_id e) _ Ht2 db2 eq_refl) as Hs.
    destruct (handle_select_event (event_id e) db2) as [[[e' ls']|?] db3]; cbn.
    2: { destruct Hs as [_ Hnf]. apply not_true_is_false. intros H%Hnf. congruence. }
    destruct Hs as (_ & He' & Hls). rewrite Hev, Hget in He'. simplify_eq. split; [done|].
    eapply linked_labels; [exact Ht2|exact Heq2|exact Hrows| |exact Hmap|exact Hls].
    rewrite Heq. cbn. intros j r Hr Heid. destruct (fk_links_events _ Ht _ _ Hr). congruence.
Qed.
End Spec.

(** ** Witnesses, in the store in memory *)

#[local] Existing Instances LittleEndian.uuid16_ops MemStore.chrono_pair.
#[local] Instance store_postgres : Postgres MemStore.mem := MemStore.mem_postgres LittleEndian.uuid_nth.
#[local] Instance store_laws : PostgresLaws MemStore.mem := MemStore.mem_postgres_laws LittleEndian.uuid_nth.

Definition dev0 : Uuid := LittleEndian.uuid_nth 0.
Definition db0 : MemStore.mem := MemStore.mkMem empty_tables 0.
Definition nd0 : NewDevice := mkNewDevice "kitchen" "".
Definition ne0 : NewEvent := mkNewEvent KLuminosity (Luminosity 1 2) (60, 0) (61, 0) dev0.
Definition db1 : MemStore.mem :=
  snd (handle_insert_event ne0 (snd (handle_insert_device 42 nd0 db0))).

Lemma device_secret_authenticates_witness :
  match handle_insert_device 42 nd0 db0 with
  | (Ok (d, s), db1) =>
      s = 42 /\ device_name d = "kitchen" /\ device_description d = "" /\
      (Forall (spares 42 d) [InsertDevice 7 nd0; SelectDevices] ->
       match fst (handle_select_device 42 (afters [InsertDevice 7 nd0; SelectDevices] db1)) with
       | Ok d' => d' = d
       | Err e => is_not_found e = false
       end)
  | (Err e, db1) => tables_of db1 = tables_of db0
  end.
Proof.
  apply (device_secret_authenticates 42 nd0 db0 [InsertDevice 7 nd0; SelectDevices]).
  - apply empty_integrity.
  - reflexivity.
  - intros i []%not_elem_of_nil.
Defined.

Lemma db1_integrity : integrity (tables_of db1).
Proof. apply (afters_integrity [InsertDevice 42 nd0; InsertEvent ne0] db0), empty_integrity. Qed.

Lemma delete_device_revokes_witness :
  exists db', handle_delete_device dev0 db1 = (Ok tt, db') /\
    forall s d, fst (handle_select_device s db') = Ok d -> device_id d <> dev0.
Proof.
  pose proof (delete_device_revokes dev0 db1 db1_integrity) as H.
  assert (is_ok (fst (handle_delete_device dev0 db1)) = true) as Hok by (vm_compute; reflexivity).
  destruct (handle_delete_device dev0 db1) as [[[]|e] db'] eqn:E.
  - exists db'. split; [done|apply H].
  - discriminate.
Defined.

Lemma events_with_their_labels_witness :
  exists l, fst (handle_select_events db1) = Ok l /\ l.*1 ≡ₚ (map_to_list (t_events (tables_of db1))).*2.
Proof.
  assert (is_ok (fst (handle_select_events db1)) = true) as Hok by (vm_compute; reflexivity).
  destruct (fst (handle_select_events db1)) as [l|err] eqn:E.
  - exists l. split; [done|]. apply (events_with_their_labels db1 l db1_integrity E).
  - discriminate.
Defined.

Lemma insert_event_reads_back_witness :
  exists e db2, handle_insert_event ne0 db1 = (Ok e, db2) /\ event_payload e = Luminosity 1 2.
Proof.
  pose proof (insert_event_reads_back ne0 db1 db1_integrity) as H.
  assert (is_ok (fst (handle_insert_event ne0 db1)) = true) as Hok by (vm_compute; reflexivity).
  destruct (handle_insert_event ne0 db1) as [[e|err] db2] eqn:E.
  - exists e, db2. split; [done|apply H].
  - discriminate.
Defined.
