(* ===== verification/DbThreads.v ===== *)
(** * The threads of the database actor (backend/src/actor/db/mod.rs, Config::build)

    [SyncArbiter] runs the actor on a thread for each processor: a thread takes
    the next message of the mailbox, gets a connection of the pool and executes
    the handler's statements. The statements of different threads interleave;
    each is atomic, and so is a transaction. [DbHandlers] takes a handler as
    one step; here it is one step per statement. *)
From S2P Require Import Prelude MachineInt Bincode ParseInt DbTypes Store DbHandlers.
From S2P Require LittleEndian MemStore.
Open Scope Z_scope.

Section Threads.
Context `{U : UuidOps} `{C : Chrono} {DB : Type} `{PG : !Postgres DB}.

#[local] Notation "'let!' x ':=' m 'in' k" := (bind m (fun x => k))
  (at level 10, x pattern, m at level 100, k at level 200).

Abbreviation handler := (DbHandlers.handler (DB := DB)).

(** The results of the handlers, in one type. *)
Inductive Answer : Type :=
| NewDeviceAnswer (d : Device) (secret : Z)
| DevicesAnswer (l : list Device)
| DeviceAnswer (d : Device)
| UnitAnswer
| EventAnswer (e : Event)
| EventsAnswer (l : list (Event * list Label))
| EventLabelsAnswer (e : Event) (ls : list Label)
| LabelsAnswer (l : list Label)
| LabelAnswer (l : Label).

Definition hmap {A B} (f : A -> B) (m : handler A) : handler B := let! a := m in ret (f a).

(** The match on the number of deleted rows. *)
Definition expect_one (n : nat) : handler Answer :=
  match n with
  | 0%nat => throw not_found
  | 1%nat => ret UnitAnswer
  | num => throw (unexpected (deleted_message num))
  end.

Definition pair_labels (events : list Event) (links : list (EventLabel * Label)) : list (Event * list Label) :=
  let labels := grouped_by links events in
  map (fun '(labels, events) => (events, map snd labels)) (zip labels events).

(** A handler after [self.0.get()?]. *)
Definition core (m : Msg) : handler Answer :=
  match m with
  | InsertDevice secret value =>
      hmap (fun '(d, s) => NewDeviceAnswer d s) (transaction (
        let! device := execute (q_insert_device value) in
        let! _ := execute (q_insert_credential (mkNewDeviceCredential (u64_to_be_bytes secret) (device_id device))) in
        ret (device, secret)))
  | SelectDevices => hmap DevicesAnswer (load q_devices)
  | SelectDevice param => hmap DeviceAnswer (load (q_device_by_secret (u64_to_be_bytes param)))
  | DeleteDevice param => let! n := execute (q_delete_device param) in expect_one n
  | InsertEvent value =>
      let! id := execute (q_insert_event value) in
      ret (EventAnswer (mkEvent id (ne_kind value) (ne_payload value) (ne_started_at value) (ne_ended_at value)
        (ne_device_id value)))
  | SelectEvents =>
      let! events := load q_events in
      let! links := load (q_links events) in
      ret (EventsAnswer (pair_labels events links))
  | SelectEvent param =>
      let! event := load (q_event param) in
      let! label := load (q_links [event]) in
      ret (EventLabelsAnswer event (map snd label))
  | InsertEventLabels value =>
      let! _ := execute (q_insert_event_labels
        (map (fun label => mkNewEventLabel (event_id (fst value)) (label_id label)) (snd value))) in
      ret UnitAnswer
  | SelectLabels => hmap LabelsAnswer (load q_labels)
  | InsertLabel value =>
      let! id := execute (q_insert_label value) in
      ret (LabelAnswer (mkLabel id (nl_event_kind value) (nl_name value) (nl_description value) (nl_rule value)
        (nl_device_id value)))
  | DeleteLabel param => let! n := execute (q_delete_label param) in expect_one n
  end.
Definition answer (m : Msg) : handler Answer := let! _ := connection in core m.

(** Where a thread stands: before the pool is asked, with a connection, after
    the first of two queries, at the end. *)
Inductive Task : Type :=
| Start (m : Msg)
| Connected (m : Msg)
| LoadedEvents (events : list Event)
| LoadedEvent (param : Uuid) (event : Event)
| Answered (m : Msg) (r : result Answer Error).

(** The next statement of a thread. *)
Definition advance (t : Task) (db : DB) : Task * DB :=
  let continue {A} (m : Msg) (k : A -> Task) (p : result A Error * DB) : Task * DB :=
    match p with
    | (Ok a, db) => (k a, db)
    | (Err e, db) => (Answered m (Err e), db)
    end in
  match t with
  | Start m => continue m (fun _ => Connected m) (connection db)
  | Connected SelectEvents => continue SelectEvents LoadedEvents (load q_events db)
  | Connected (SelectEvent param) => continue (SelectEvent param) (LoadedEvent param) (load (q_event param) db)
  | Connected m => let (r, db) := core m db in (Answered m r, db)
  | LoadedEvents events =>
      continue SelectEvents (fun links => Answered SelectEvents (Ok (EventsAnswer (pair_labels events links))))
        (load (q_links events) db)
  | LoadedEvent param event =>
      continue (SelectEvent param)
        (fun label => Answered (SelectEvent param) (Ok (EventLabelsAnswer event (map snd label))))
        (load (q_links [event]) db)
  | Answered m r => (Answered m r, db)
  end.

(** ** The pool: the database, the mailbox, the threads, the answers so far *)

Record Pool : Type := mkPool {
  pool_db : DB;
  mailbox : list Msg;
  threads : list (option Task);
  answers : list (Msg * result Answer Error);
}.

Inductive Action : Type :=
| Send (m : Msg)
| Take (i : nat)
| Run (i : nat).

(** A message arrives; an idle thread takes the next one; a thread executes a
    statement, or hands in its answer. *)
Definition act (l : Action) (p : Pool) : Pool :=
  match l with
  | Send m => mkPool (pool_db p) (mailbox p ++ [m]) (threads p) (answers p)
  | Take i =>
      match threads p !! i, mailbox p with
      | Some None, m :: rest => mkPool (pool_db p) rest (<[i := Some (Start m)]> (threads p)) (answers p)
      | _, _ => p
      end
  | Run i =>
      match threads p !! i with
      | Some (Some (Answered m r)) =>
          mkPool (pool_db p) (mailbox p) (<[i := None]> (threads p)) (answers p ++ [(m, r)])
      | Some (Some t) =>
          let (t, db) := advance t (pool_db p) in
          mkPool db (mailbox p) (<[i := Some t]> (threads p)) (answers p)
      | _ => p
      end
  end.
Definition acts (ls : list Action) (p : Pool) : Pool := foldl (fun p l => act l p) p ls.

(** [SyncArbiter::start(num_cpus::get(), ..)]. *)
Definition pool_start (num_cpus : nat) (db : DB) : Pool := mkPool db [] (replicate num_cpus None) [].

(** ** A thread on its own executes the handler *)

(** The handlers of [DbHandlers], with their results in one type. *)
Definition handle (m : Msg) : handler Answer :=
  match m with
  | InsertDevice secret value => hmap (fun '(d, s) => NewDeviceAnswer d s) (handle_insert_device secret value)
  | SelectDevices => hmap DevicesAnswer handle_select_devices
  | SelectDevice param => hmap DeviceAnswer (handle_select_device param)
  | DeleteDevice param => hmap (fun _ => UnitAnswer) (handle_delete_device param)
  | InsertEvent value => hmap EventAnswer (handle_insert_event value)
  | SelectEvents => hmap EventsAnswer handle_select_events
  | SelectEvent param => hmap (fun '(e, ls) => EventLabelsAnswer e ls) (handle_select_event param)
  | InsertEventLabels value => hmap (fun _ => UnitAnswer) (handle_insert_event_labels value)
  | SelectLabels => hmap LabelsAnswer handle_select_labels
  | InsertLabel value => hmap LabelAnswer (handle_insert_label value)
  | DeleteLabel param => hmap (fun _ => UnitAnswer) (handle_delete_label param)
  end.

Lemma snd_hmap {A B} (f : A -> B) (m : handler A) db : snd (hmap f m db) = snd (m db).
Proof using Type. unfold hmap, bind. by destruct (m db) as [[?|?] ?]. Qed.

Lemma handle_after (m : Msg) (db : DB) : snd (handle m db) = after m db.
Proof using Type. destruct m; apply snd_hmap. Qed.

(** [core] is the handler without the request for a connection. *)
Lemma answer_handle (m : Msg) (db : DB) : answer m db = handle m db.
Proof using Type.
  unfold answer. destruct m; cbn [handle core]; unfold hmap, handle_insert_device, handle_select_devices, handle_select_device,
    handle_delete_device, handle_insert_event, handle_select_events, handle_select_event, handle_insert_event_labels,
    handle_select_labels, handle_insert_label, handle_delete_label, expect_one, bind, ret, throw;
    repeat (case_match; simplify_eq/=; try done).
Qed.

Fixpoint advances (n : nat) (x : Task * DB) : Task * DB :=
  match n with
  | O => x
  | S n => advances n (advance (fst x) (snd x))
  end.

Lemma advances_handle (m : Msg) (db : DB) :
  advances 3 (Start m, db) = (Answered m (fst (handle m db)), snd (handle m db)).
Proof using Type.
  rewrite <- answer_handle. unfold answer, bind at 1 2. cbn [advances advance fst snd].
  destruct (connection db) as [[[]|e] db1]; [|done]. cbn [fst snd].
  destruct m; cbn [advance]; try by (destruct (core _ db1)).
  - cbn [core]. unfold bind. destruct (load q_events db1) as [[es|e] db2]; cbn [fst snd advance]; [|done].
    by destruct (load (q_links es) db2) as [[ls|e] db3].
  - cbn [core]. unfold bind. destruct (load (q_event param) db1) as [[ev|e] db2]; cbn [fst snd advance]; [|done].
    by destruct (load (q_links [ev]) db2) as [[ls|e] db3].
Qed.

(** ** Moments of a run *)

Context (num_cpus : nat) (db0 : DB).
Definition run (ls : list Action) : Pool := acts ls (pool_start num_cpus db0).
Definition db_at (ls : list Action) : DB := pool_db (run ls).

(** How the answer [r] to [m] came about in a run [ls]: there was no connection;
    or the handler was executed in one step, at one moment; or its two queries
    were executed at two moments, one after the other. *)
Inductive explained (ls : list Action) : Msg -> result Answer Error -> Prop :=
| NoConnection m ls1 e : ls1 `prefix_of` ls -> pool_get (db_at ls1) = Err e -> explained ls m (Err (PoolError e))
| AtOnce m ls1 l : ls1 ++ [l] `prefix_of` ls -> db_at (ls1 ++ [l]) = snd (core m (db_at ls1)) ->
    explained ls m (fst (core m (db_at ls1)))
| EventsThenLinks ls1 ls2 events : ls1 `prefix_of` ls2 -> ls2 `prefix_of` ls -> q_events (db_at ls1) = Ok events ->
    explained ls SelectEvents
      (res_map (fun links => EventsAnswer (pair_labels events links)) (fst (load (q_links events) (db_at ls2))))
| EventThenLinks param ls1 ls2 event : ls1 `prefix_of` ls2 -> ls2 `prefix_of` ls -> q_event param (db_at ls1) = Ok event ->
    explained ls (SelectEvent param)
      (res_map (fun label => EventLabelsAnswer event (map snd label)) (fst (load (q_links [event]) (db_at ls2)))).

Definition task_explained (ls : list Action) (t : Task) : Prop :=
  match t with
  | Start _ | Connected _ => True
  | LoadedEvents events => exists ls1, ls1 `prefix_of` ls /\ q_events (db_at ls1) = Ok events
  | LoadedEvent param event => exists ls1, ls1 `prefix_of` ls /\ q_event param (db_at ls1) = Ok event
  | Answered m r => explained ls m r
  end.

(** The message of a thread. *)
Definition task_msg (t : Task) : Msg :=
  match t with
  | Start m | Connected m | Answered m _ => m
  | LoadedEvents _ => SelectEvents
  | LoadedEvent param _ => SelectEvent param
  end.
Definition sends (ls : list Action) : list Msg := omap (fun l => match l with Send m => Some m | _ => None end) ls.

(** ** Lemmas *)

Lemma run_snoc ls l : run (ls ++ [l]) = act l (run ls).
Proof using Type. unfold run, acts. by rewrite foldl_snoc. Qed.

Lemma prefix_snoc (ls1 ls : list Action) l : ls1 `prefix_of` ls -> ls1 `prefix_of` ls ++ [l].
Proof using Type. apply prefix_app_r. Qed.
#[local] Hint Resolve prefix_snoc : core.

Lemma explained_snoc ls l m r : explained ls m r -> explained (ls ++ [l]) m r.
Proof using Type.
  destruct 1 as [m ls1 e|m ls1 l1|ls1 ls2 es|param ls1 ls2 e];
    [apply (NoConnection _ m ls1)|apply (AtOnce _ m ls1 l1)|apply (EventsThenLinks _ ls1 ls2)|apply (EventThenLinks _ param ls1 ls2)];
    auto.
Qed.

Lemma task_explained_snoc ls l t : task_explained ls t -> task_explained (ls ++ [l]) t.
Proof using Type.
  destruct t; cbn; [done..| | |apply explained_snoc]; intros (ls1 & ? & ?); exists ls1; eauto.
Qed.

Lemma fst_load {A} (q : DB -> result A DieselError) db a : fst (load q db) = Ok a -> q db = Ok a.
Proof using Type. unfold load. cbn. destruct (q db); cbn; congruence. Qed.

Lemma core_explained ls l m :
  db_at (ls ++ [l]) = snd (core m (db_at ls)) -> explained (ls ++ [l]) m (fst (core m (db_at ls))).
Proof using Type. intros Hdb. by apply (AtOnce _ m ls l). Qed.

(** One statement. *)
Lemma advance_explained ls l t :
  task_explained ls t -> db_at (ls ++ [l]) = snd (advance t (db_at ls)) ->
  task_explained (ls ++ [l]) (fst (advance t (db_at ls))) /\ task_msg (fst (advance t (db_at ls))) = task_msg t.
Proof using Type.
  intros Ht Hdb. destruct t as [m|m|es|param e|m r].
  - cbn [advance] in *. unfold connection in *. destruct (pool_get (db_at ls)) as [[]|e] eqn:Hg; cbn in *; [done|].
    split; [|done]. apply (NoConnection _ m ls); auto.
  - pose proof (core_explained ls l m) as Hc.
    destruct m; cbn [advance] in *; try by (destruct (core _ (db_at ls)) as [r db]; cbn in *; auto).
    + cbn [core] in Hc. unfold bind in Hc. pose proof (fst_load q_events (db_at ls)) as Hl.
      unfold load in *. destruct (q_events (db_at ls)) as [es|e] eqn:Hq; cbn in *; [|by auto].
      split; [|done]. exists ls. auto.
    + cbn [core] in Hc. unfold bind in Hc.
      unfold load in *. destruct (q_event param (db_at ls)) as [es|e] eqn:Hq; cbn in *; [|by auto].
      split; [|done]. exists ls. auto.
  - destruct Ht as (ls1 & Hls1 & Hq). pose proof (EventsThenLinks (ls ++ [l]) ls1 ls es Hls1) as He.
    cbn [advance] in *. unfold load in *. destruct (q_links es (db_at ls)) as [links|e]; cbn in *; split; auto.
  - destruct Ht as (ls1 & Hls1 & Hq). pose proof (EventThenLinks (ls ++ [l]) param ls1 ls e Hls1) as He.
    cbn [advance] in *. unfold load in *. destruct (q_links [e] (db_at ls)) as [links|err]; cbn in *; split; auto.
  - split; [|done]. by apply explained_snoc.
Qed.

(** The threads and the answers of a run; no message is lost or taken twice. *)
Record pool_ok (ls : list Action) (p : Pool) : Prop := {
  ok_threads : forall i t, threads p !! i = Some (Some t) -> task_explained ls t;
  ok_answers : forall m r, (m, r) ∈ answers p -> explained ls m r;
  ok_messages : sends ls ≡ₚ mailbox p ++ omap (fmap task_msg) (threads p) ++ (answers p).*1;
}.

Lemma pool_ok_set ls l p p' i t t' :
  pool_ok ls p -> threads p !! i = Some (Some t) -> mailbox p' = mailbox p -> answers p' = answers p ->
  threads p' = <[i := Some t']> (threads p) -> sends (ls ++ [l]) = sends ls ->
  task_explained (ls ++ [l]) t' -> task_msg t' = task_msg t -> pool_ok (ls ++ [l]) p'.
Proof using Type.
  intros [Hth Han Hms] Hi Hmb Hans Hthr Hs Ht' Hm. split.
  - rewrite Hthr. intros j u Hj. destruct (decide (j = i)) as [->|Hne].
    + rewrite list_lookup_insert_eq in Hj by (by eapply lookup_lt_Some). by injection Hj as <-.
    + rewrite list_lookup_insert_ne in Hj by done. by apply task_explained_snoc, (Hth j).
  - rewrite Hans. intros m r Hin. by apply explained_snoc, Han.
  - rewrite Hs, Hmb, Hans, Hthr, (omap_insert_same _ _ i (Some t)); [done|done|]. cbn. by rewrite Hm.
Qed.

Lemma sends_snoc ls l : sends (ls ++ [l]) = sends ls ++ match l with Send m => [m] | _ => [] end.
Proof using Type. unfold sends. rewrite omap_app. by destruct l. Qed.

Lemma pool_ok_same ls l p : pool_ok ls p -> (forall m, l <> Send m) -> pool_ok (ls ++ [l]) p.
Proof using Type.
  intros [Hth Han Hms] Hl. split.
  - intros i t Hi. by apply task_explained_snoc, (Hth i).
  - intros m r Hin. by apply explained_snoc, Han.
  - rewrite sends_snoc. destruct l as [m| |]; [by destruct (Hl m)|by rewrite app_nil_r..].
Qed.

Lemma run_ok ls : pool_ok ls (run ls).
Proof using Type.
  induction ls as [|l ls IH] using rev_ind.
  { split; cbn.
    - intros i t Hi. apply lookup_replicate in Hi as [Hi _]. done.
    - intros m r []%not_elem_of_nil.
    - rewrite app_nil_r. by induction num_cpus. }
  pose proof (run_snoc ls l) as Hrun. rewrite Hrun. assert (pool_db (act l (run ls)) = db_at (ls ++ [l])) as Hdb by (unfold db_at; by rewrite Hrun).
  destruct l as [m|i|i]; cbn [act] in *.
  - destruct IH as [Hth Han Hms]. split; cbn.
    + intros i t Hi. by apply task_explained_snoc, (Hth i).
    + intros m' r Hin. by apply explained_snoc, Han.
    + rewrite sends_snoc, Hms, <- !app_assoc. apply Permutation_app_head. rewrite app_assoc. apply Permutation_app_comm.
  - destruct (threads (run ls) !! i) as [[t|]|] eqn:Ei; [by apply pool_ok_same| |by apply pool_ok_same].
    destruct (mailbox (run ls)) as [|m rest] eqn:Em; [by apply pool_ok_same|]. destruct IH as [Hth Han Hms]. split; cbn.
    + intros j u Hj. destruct (decide (j = i)) as [->|Hne].
      * rewrite list_lookup_insert_eq in Hj by (by eapply lookup_lt_Some). by injection Hj as <-.
      * rewrite list_lookup_insert_ne in Hj by done. by apply task_explained_snoc, (Hth j).
    + intros m' r Hin. by apply explained_snoc, Han.
    + rewrite sends_snoc, app_nil_r, Hms, Em, (omap_insert_new _ _ i None (Some (Start m)) m Ei); [|done..]. cbn.
      rewrite (Permutation_app_comm _ [m]), <- !app_assoc. cbn. by apply Permutation_middle.
  - destruct (threads (run ls) !! i) as [[t|]|] eqn:Ei; [|by apply pool_ok_same..].
    pose proof (advance_explained ls (Run i) t (ok_threads _ _ IH i t Ei)) as Hadv.
    destruct t as [m|m|es|param e|m r];
      try by (cbn beta iota in Hdb |- *; destruct (advance _ (pool_db (run ls))) as [t' db'] eqn:Et;
        unfold db_at in Hadv; rewrite Et in Hadv; destruct Hadv as [Ht' Hm]; [by rewrite Hrun|];
        eapply pool_ok_set; [exact IH|exact Ei|done..|by rewrite sends_snoc, app_nil_r|done|done]).
    clear Hadv. destruct IH as [Hth Han Hms]. split; cbn.
    + intros j u Hj. destruct (decide (j = i)) as [->|Hne].
      * by rewrite list_lookup_insert_eq in Hj by (by eapply lookup_lt_Some).
      * rewrite list_lookup_insert_ne in Hj by done. by apply task_explained_snoc, (Hth j).
    + intros m' r' [Hin|[= -> ->]%list_elem_of_singleton]%elem_of_app; apply explained_snoc; [by apply Han|].
      exact (Hth _ _ Ei).
    + rewrite sends_snoc, app_nil_r, Hms, (omap_insert_gone _ _ i (Some (Answered m r)) None m Ei) by done.
      rewrite fmap_app, <- !app_assoc. cbn. do 2 apply Permutation_app_head. apply Permutation_cons_append.
Qed.

(** The labels of a list of events may be younger than the list. *)
Lemma events_answer ls r :
  explained ls SelectEvents r ->
  match r with
  | Ok (EventsAnswer l) => exists ls1 ls2 events links, ls1 `prefix_of` ls2 /\ ls2 `prefix_of` ls /\
      q_events (db_at ls1) = Ok events /\ q_links events (db_at ls2) = Ok links /\ l = pair_labels events links
  | Ok _ => False
  | Err _ => True
  end.
Proof using Type.
  intros H. inversion H as [|? ls1 l Hls Hdb|ls1 ls2 es H12 H2 Hes|]; subst; [done| |].
  - cbn [core]. unfold bind, load. destruct (q_events (db_at ls1)) as [es|e] eqn:Hes; [|done]. cbn.
    destruct (q_links es (db_at ls1)) as [links|e] eqn:Hl; [|done]. cbn.
    exists ls1, ls1, es, links. split_and!; try done. by etrans; [apply prefix_app_r|].
  - unfold load. cbn. destruct (q_links es (db_at ls2)) as [links|e] eqn:Hl; [|done]. cbn. by exists ls1, ls2, es, links.
Qed.
End Threads.

(** ** The constraints of the migrations, at every moment *)

Section Integrity.
Context `{U : UuidOps} `{C : Chrono} {DB : Type} `{PG : !Postgres DB} `{L : !PostgresLaws DB}.

(** The same statements, with a pool that has a connection. *)
Definition connected : Postgres DB := {|
  tables_of := tables_of;
  pool_get _ := Ok tt;
  transaction A := transaction (A := A);
  q_insert_device := q_insert_device;
  q_insert_credential := q_insert_credential;
  q_insert_event := q_insert_event;
  q_insert_label := q_insert_label;
  q_insert_event_labels := q_insert_event_labels;
  q_delete_device := q_delete_device;
  q_delete_label := q_delete_label;
  q_devices := q_devices;
  q_device_by_secret := q_device_by_secret;
  q_events := q_events;
  q_event := q_event;
  q_labels := q_labels;
  q_links := q_links;
  grouped_by := grouped_by;
|}.

Lemma connected_laws : PostgresLaws DB (PG := connected).
Proof using L. split; apply L. Qed.

Lemma core_integrity (m : Msg) (db : DB) :
  integrity (tables_of db) -> integrity (tables_of (snd (core m db))).
Proof using L.
  intros Ht. change (core m db) with (core (PG := connected) m db).
  change (core (PG := connected) m db) with (answer (PG := connected) m db). rewrite answer_handle, handle_after.
  apply (after_integrity (PG := connected) (L := connected_laws)). exact Ht.
Qed.

Lemma advance_integrity (t : Task) (db : DB) :
  integrity (tables_of db) -> integrity (tables_of (snd (advance t db))).
Proof using L.
  intros Ht. destruct t as [m|m|es|param e|m r]; cbn [advance]; [|pose proof (core_integrity m db Ht) as Hc; destruct m|..]; try done;
    try by (destruct (core _ db)).
  - unfold connection. by destruct (pool_get db).
  - unfold load. by destruct (q_events db).
  - unfold load. by destruct (q_event param db).
  - unfold load. by destruct (q_links es db).
  - unfold load. by destruct (q_links [e] db).
Qed.

Lemma run_integrity (num_cpus : nat) (db0 : DB) (ls : list Action) :
  integrity (tables_of db0) -> integrity (tables_of (db_at num_cpus db0 ls)).
Proof using L.
  intros H0. induction ls as [|l ls IH] using rev_ind; [done|]. unfold db_at in *. rewrite run_snoc.
  destruct l as [m|i|i]; cbn [act]; [done| |].
  - by repeat case_match.
  - destruct (threads _ !! i) as [[t|]|]; [|done..].
    pose proof (advance_integrity t _ IH) as Hadv. destruct t as [m|m|es|param e|m r];
      [destruct (advance _ _) as [t' db']; exact Hadv..|done].
Qed.

(** C21: however the threads of the database actor interleave, statement by
    statement, the constraints of the migrations (primary keys, foreign keys,
    unique labels, unique links) hold at every moment; every message is
    waiting, with one thread, or answered once; and every answer is an error
    of the pool, or the result of the handler executed in one step at one
    moment of the run, or that of a list of events (an event) read at one
    moment with its labels read at a later one. *)
Theorem threads_keep_integrity (num_cpus : nat) (db0 : DB) (ls : list Action) :
  integrity (tables_of db0) ->
  let p := run num_cpus db0 ls in
  integrity (tables_of (pool_db p)) /\
  sends ls ≡ₚ mailbox p ++ omap (fmap task_msg) (threads p) ++ (answers p).*1 /\
  forall m r, (m, r) ∈ answers p -> explained num_cpus db0 ls m r.
Proof using L.
  intros H0 p. split_and!; [by apply run_integrity|apply run_ok..].
Qed.
End Integrity.

(** ** A run of two threads, in the store in memory *)

#[local] Existing Instances LittleEndian.uuid16_ops MemStore.chrono_pair.
#[local] Instance store_postgres : Postgres MemStore.mem := MemStore.mem_postgres LittleEndian.uuid_nth.
#[local] Instance store_laws : PostgresLaws MemStore.mem := MemStore.mem_postgres_laws LittleEndian.uuid_nth.

(** The device is deleted between the two queries of the list of events. *)
Definition interleaved : list Action :=
  [Send SelectEvents; Send (DeleteDevice dev0); Take 0; Take 1; Run 0; Run 0; Run 1; Run 1; Run 1; Run 0; Run 0].

(** The list still has the event that is gone. *)
Example interleaved_answers :
  map (fun a => match snd a with
    | Ok (EventsAnswer l) => map (fun x => length (snd x)) l
    | Ok UnitAnswer => [7%nat]
    | _ => []
    end) (answers (run 2 db1 interleaved)) = [[7%nat]; [0%nat]].
Proof. vm_compute. reflexivity. Qed.

Lemma threads_keep_integrity_witness :
  integrity (tables_of (pool_db (run 2 db1 interleaved))) /\
  length (answers (run 2 db1 interleaved)) = 2%nat /\
  forall m r, (m, r) ∈ answers (run 2 db1 interleaved) -> explained 2 db1 interleaved m r.
Proof.
  destruct (threads_keep_integrity 2 db1 interleaved db1_integrity) as (Ht & _ & Ha).
  split; [exact Ht|split; [vm_compute; reflexivity|exact Ha]].
Defined.
