(* ===== verification/AudioHandler.v ===== *)
(** * The audio handler (backend/src/actor/audio_handler.rs)

    One actor per audio client: it writes the chunks of each recording to a WAV
    file and reports the finished file as a sound event. [hound], the file
    system and the clock are the interface [Host]; the theorems compare the
    handler with a specification of recordings, for any bytes it is sent. *)
From S2P Require Import Prelude MachineInt Float32 Bincode Audio.
From S2P Require DbTypes LittleEndian MemStore.
Import DbTypes(Chrono, DateTime, NewEvent, mkNewEvent).
Open Scope Z_scope.

(** ** [hound], files and the clock *)

(** A sample of a type with [hound::Sample] the code writes. *)
Inductive HSample : Type :=
| HI16 (z : Z)
| HF32 (x : f32).

(** [W] is the outside world and [Wr] the type [WavWriter<BufWriter<File>>].
    [wav_file] is what a reader of the file at a path finds, [wav_pending] the
    path, format and samples a writer was given: the views the laws use. *)
Class Host `{Chrono} (W Wr : Type) := {
  hound_error : Type;
  utc_now : W -> DateTime * W;
  wav_create : string -> WavSpec -> W -> result Wr hound_error * W;
  wav_write_sample : HSample -> Wr -> W -> result () hound_error * Wr * W;
  wav_finalize : Wr -> W -> result () hound_error * W;
  wav_file : W -> string -> option (WavSpec * list HSample);
  wav_pending : Wr -> string * WavSpec * list HSample;
}.

(** A reader finds no samples at [p]. *)
Definition blank `{Host W Wr} (p : string) (w : W) : Prop :=
  forall s xs, wav_file w p = Some (s, xs) -> xs = [].

(** The file at [p] is the only one that may differ. *)
Definition only `{Host W Wr} (p : string) (w w' : W) : Prop :=
  forall q, q <> p -> wav_file w' q = wav_file w q.

(** [create] empties the file. A writer stays with its file, and appends unless
    it fails; a reader finds no samples before [finalize], which makes the file
    readable with its format and samples. Each touches its own file only. *)
Class HostLaws `{C : Chrono} (W Wr : Type) `{!Host W Wr} : Prop := {
  now_spec : forall w p, wav_file (snd (utc_now w)) p = wav_file w p;
  create_spec : forall p s w, let '(r, w') := wav_create p s w in
    only p w w' /\ forall wr, r = Ok wr -> wav_pending wr = (p, s, []) /\ blank p w';
  write_spec : forall x wr w, let '(r, wr', w') := wav_write_sample x wr w in
    let '(p, s, xs) := wav_pending wr in
    only p w w' /\ fst (wav_pending wr') = (p, s) /\ (r = Ok () -> wav_pending wr' = (p, s, xs ++ [x])) /\
    (blank p w -> blank p w');
  finalize_spec : forall wr w, let '(r, w') := wav_finalize wr w in
    let '(p, s, xs) := wav_pending wr in
    only p w w' /\ (r = Ok () -> wav_file w' p = Some (s, xs));
}.

(** What [hound] refuses whatever the file system does: a format that it can not
    write ([creates]); a sample that the format, or a file that has so many samples
    already, does not take ([accepts]: [Unsupported], [TooWide]); a file of so
    many samples that are not a multiple of the channels ([whole]:
    [UnfinishedSample]). *)
Class HoundRules := {
  creates : WavSpec -> bool;
  accepts : WavSpec -> nat -> HSample -> bool;
  whole : WavSpec -> nat -> bool;
}.

(** Nothing but these rules makes a call fail; a sample that is refused is not
    written. *)
Class HostReliable `{C : Chrono} (W Wr : Type) `{!Host W Wr} `{HR : HoundRules} : Prop := {
  create_rule : forall p s w, is_ok (fst (wav_create p s w)) = creates s;
  write_rule : forall x wr w, let '(r, wr', _) := wav_write_sample x wr w in
    let '(p, s, xs) := wav_pending wr in
    is_ok r = accepts s (length xs) x /\ (is_ok r = false -> wav_pending wr' = wav_pending wr);
  finalize_rule : forall wr w, let '(p, s, xs) := wav_pending wr in
    is_ok (fst (wav_finalize wr w)) = whole s (length xs);
}.

(** ** The writers *)

Section Handler.
Context `{U : UuidOps} `{C : Chrono} {W Wr : Type} `{Ho : !Host W Wr} `{B : !Bincode}.

(** [anyhow::Error]. *)
Inductive AnyError : Type :=
| HoundError (e : hound_error)
| BincodeError (e : bincode_error)
| Anyhow (msg : string).

Record AudioWriter : Type := mkWriter {
  aw_inner : option Wr;
  aw_id : Uuid;
  aw_seq : Z;
  aw_started_at : DateTime;
  aw_device_id : Uuid;
}.

Definition writer_new (id : Uuid) (filepath : string) (spec : WavSpec) (device_id : Uuid) (w : W)
    : result AudioWriter AnyError * W :=
  match wav_create filepath spec w with
  | (Ok wr, w) => let (now, w) := utc_now w in (Ok (mkWriter (Some wr) id 0 now device_id), w)
  | (Err e, w) => (Err (HoundError e), w)
  end.

Section Write.
Context {T : Type} (try_into : T -> option HSample).

(** The loop over the payload: it ends at the first sample that does not
    convert or is not written. *)
Fixpoint write_samples (samples : list T) (wr : Wr) (w : W) : result () AnyError * Wr * W :=
  match samples with
  | [] => (Ok (), wr, w)
  | sample :: samples =>
      match try_into sample with
      | None => (Err (Anyhow "unexpected try_into error"), wr, w)
      | Some x =>
          match wav_write_sample x wr w with
          | (Ok _, wr, w) => write_samples samples wr w
          | (Err e, wr, w) => (Err (HoundError e), wr, w)
          end
      end
  end.

Definition writer_write (aw : AudioWriter) (wav_chunk : WavChunk T) (w : W)
    : result () AnyError * AudioWriter * W :=
  match aw_inner aw with
  | Some wr =>
      if aw_seq aw <? seq wav_chunk then
        let '(r, wr, w) := write_samples (payload wav_chunk) wr w in
        let sq := match r with Ok _ => seq wav_chunk | Err _ => aw_seq aw end in
        (r, mkWriter (Some wr) (aw_id aw) sq (aw_started_at aw) (aw_device_id aw), w)
      else (Ok (), aw, w)
  | None => (Err (Anyhow "unexpected write after finalized"), aw, w)
  end.
End Write.

Definition wav_name (id : Uuid) : string := (uuid_to_string id +:+ ".wav")%stdpp.

Definition finalize_as_new_event (aw : AudioWriter) (w : W) : result NewEvent AnyError * W :=
  match aw_inner aw with
  | Some wr =>
      match wav_finalize wr w with
      | (Ok _, w) =>
          let (now, w) := utc_now w in
          (Ok (mkNewEvent DbTypes.KSound (DbTypes.Sound (wav_name (aw_id aw))) (aw_started_at aw) now
             (aw_device_id aw)), w)
      | (Err e, w) => (Err (HoundError e), w)
      end
  | None => (Err (Anyhow "unexpected write after finalized"), w)
  end.

(** ** The actor *)

Record AudioHandler : Type := mkHandler {
  writers : gmap Uuid AudioWriter;
  wav_directory : string;
  h_spec : Spec;
  h_device_id : Uuid;
}.

Definition handler_new (wav_directory : string) (spec : Spec) (device_id : Uuid) : AudioHandler :=
  mkHandler ∅ wav_directory spec device_id.

Definition with_writers (h : AudioHandler) (ws : gmap Uuid AudioWriter) : AudioHandler :=
  mkHandler ws (wav_directory h) (h_spec h) (h_device_id h).

(** [PathBuf::push] of a relative path: a separator is added unless the path
    is empty or ends in one. *)
Fixpoint ends_in_separator (s : string) : bool :=
  match s with
  | EmptyString => true
  | String _ EmptyString => String.eqb s "/"
  | String _ s => ends_in_separator s
  end.
Definition path_push (p s : string) : string :=
  if ends_in_separator p then (p +:+ s)%stdpp else (p +:+ "/" +:+ s)%stdpp.
(** [set_extension("wav")] of a file name without a dot appends. *)
Definition wav_path (h : AudioHandler) (id : Uuid) : string :=
  (path_push (wav_directory h) (uuid_to_string id) +:+ ".wav")%stdpp.

(** The handler, the world, and the messages sent to the event processor. *)
Definition finalize_writer (aw : AudioWriter) (w : W) : result () AnyError * W * list NewEvent :=
  match finalize_as_new_event aw w with
  | (Ok new_event, w) => (Ok (), w, [new_event])
  | (Err e, w) => (Err e, w, [])
  end.

(** The writer of a chunk's id, created when there is none. *)
Definition ensure_writer (h : AudioHandler) (id : Uuid) (w : W) : result AudioWriter AnyError * AudioHandler * W :=
  match writers h !! id with
  | Some aw => (Ok aw, h, w)
  | None =>
      match writer_new id (wav_path h id) (spec_to_wav (h_spec h)) (h_device_id h) w with
      | (Ok aw, w) => (Ok aw, with_writers h (<[id := aw]> (writers h)), w)
      | (Err e, w) => (Err e, h, w)
      end
  end.

Definition handler_write {T} `{Default T} (wt : Wire T) (try_into : T -> option HSample)
    (h : AudioHandler) (buf : list byte) (w : W) : result () AnyError * AudioHandler * W * list NewEvent :=
  match deserialize (w_Audio wt) buf with
  | Err e => (Err (BincodeError e), h, w, [])
  | Ok (WavChunkMsg wav_chunk) =>
      match ensure_writer h (id wav_chunk) w with
      | (Err e, h, w) => (Err e, h, w, [])
      | (Ok aw, h, w) =>
          let '(r, aw, w) := writer_write try_into aw wav_chunk w in
          (r, with_writers h (<[id wav_chunk := aw]> (writers h)), w, [])
      end
  | Ok (WavEnd id) =>
      match writers h !! id with
      | Some aw =>
          let h := with_writers h (delete id (writers h)) in
          let '(r, w, sent) := finalize_writer aw w in (r, h, w, sent)
      | None => (Ok (), h, w, [])
      end
  | Ok _ => (Ok (), h, w, [])
  end.

(** [TryInto] from the sample types of the stream to those of the file. *)
Definition u16_to_i16 (z : Z) : option HSample := if z <=? i16_MAX then Some (HI16 z) else None.
Definition i16_to_i16 (z : Z) : option HSample := Some (HI16 z).
Definition f32_to_f32 (x : f32) : option HSample := Some (HF32 x).

(** [Handler<AudioBytes>::handle]: an error is logged. *)
Definition handle (h : AudioHandler) (buf : list byte) (w : W) : AudioHandler * W * list NewEvent :=
  let '(_, h, w, sent) :=
    match sample_format (h_spec h) with
    | U16 => handler_write w_u16 u16_to_i16 h buf w
    | I16 => handler_write w_i16 i16_to_i16 h buf w
    | F32 => handler_write w_f32 f32_to_f32 h buf w
    end in
  (h, w, sent).

(** [finalize_all]; [drain] yields the entries in an order of its own. *)
Definition finalize_all (h : AudioHandler) (w : W) : AudioHandler * W * list NewEvent :=
  let '(w, sent) := foldl (fun '(w, sent) '(_, aw) =>
    match finalize_as_new_event aw w with
    | (Ok new_event, w) => (w, sent ++ [new_event])
    | (Err _, w) => (w, sent)
    end) (w, []) (map_to_list (writers h)) in
  (with_writers h ∅, w, sent).

(** [Actor::stopping]. *)
Definition stopping (h : AudioHandler) (w : W) : AudioHandler * W * list NewEvent := finalize_all h w.

(** The handler over the buffers of a client, in the order of arrival. *)
Definition handle_all (h : AudioHandler) (bufs : list (list byte)) (w : W) : AudioHandler * W * list NewEvent :=
  foldl (fun '(h, w, sent) buf => let '(h, w, sent') := handle h buf w in (h, w, sent ++ sent')) (h, w, []) bufs.
End Handler.

(** ** Specification: recordings *)

Section Recordings.
Context `{U : UuidOps} `{B : !Bincode}.

(** The samples up to the first one that does not convert, and whether all
    did. *)
Fixpoint converted {T} (try_into : T -> option HSample) (xs : list T) : list HSample * bool :=
  match xs with
  | [] => ([], true)
  | x :: xs =>
      match try_into x with
      | Some y => let (ys, ok) := converted try_into xs in (y :: ys, ok)
      | None => ([], false)
      end
  end.

Context `{HR : HoundRules}.

(** The samples up to the first one that does not convert, or that a file of the
    format [s] with [n] samples before does not take, and whether all did. *)
Fixpoint taken {T} (try_into : T -> option HSample) (s : WavSpec) (n : nat) (xs : list T) : list HSample * bool :=
  match xs with
  | [] => ([], true)
  | x :: xs =>
      match try_into x with
      | Some y =>
          if accepts s n y then let (ys, ok) := taken try_into s (S n) xs in (y :: ys, ok) else ([], false)
      | None => ([], false)
      end
  end.

(** A file of the format [s] takes all of [xs]. *)
Definition fits (s : WavSpec) (xs : list HSample) : Prop :=
  creates s = true /\ forall k x, xs !! k = Some x -> accepts s k x = true.

(** The recordings in progress, with the last sequence number accepted and the
    samples so far; the recordings that are readable on disk; the ids of the
    finished ones in the order of the events. *)
Record recordings : Type := mkRecordings {
  r_open : gmap Uuid (Z * list HSample);
  r_stored : gmap Uuid (list HSample);
  r_ended : list Uuid;
}.
Definition no_recordings : recordings := mkRecordings ∅ ∅ [].

(** A chunk adds its payload if its sequence number is new. *)
Definition rec_entry {T} (try_into : T -> option HSample) (s : WavSpec) (c : WavChunk T) (e : Z * list HSample)
    : Z * list HSample :=
  let '(sq, xs) := e in
  if sq <? seq c then
    let (ys, ok) := taken try_into s (length xs) (payload c) in (if ok then seq c else sq, xs ++ ys)
  else (sq, xs).

(** The first chunk of a recording discards what was stored under its id, and
    opens the recording, if the format of the stream can be written. *)
Definition rec_chunk {T} (try_into : T -> option HSample) (s : WavSpec) (c : WavChunk T) (r : recordings) : recordings :=
  match r_open r !! id c with
  | Some e => mkRecordings (<[id c := rec_entry try_into s c e]> (r_open r)) (r_stored r) (r_ended r)
  | None =>
      mkRecordings (if creates s then <[id c := rec_entry try_into s c (0, [])]> (r_open r) else r_open r)
        (delete (id c) (r_stored r)) (r_ended r)
  end.

(** A recording whose samples do not fill the channels is lost at its end. *)
Definition rec_end (s : WavSpec) (i : Uuid) (r : recordings) : recordings :=
  match r_open r !! i with
  | Some (_, xs) =>
      if whole s (length xs) then mkRecordings (delete i (r_open r)) (<[i := xs]> (r_stored r)) (r_ended r ++ [i])
      else mkRecordings (delete i (r_open r)) (r_stored r) (r_ended r)
  | None => r
  end.

Definition rec_step {T} (try_into : T -> option HSample) (s : WavSpec) (r : recordings) (a : Audio T) : recordings :=
  match a with
  | WavChunkMsg c => rec_chunk try_into s c r
  | WavEnd i => rec_end s i r
  | _ => r
  end.

(** The recordings in progress that can be finished as they are. *)
Definition finishable (s : WavSpec) (x : Uuid * (Z * list HSample)) : Prop := whole s (length (snd (snd x))) = true.
#[export] Instance finishable_dec s x : Decision (finishable s x).
Proof. unfold finishable. apply _. Defined.

(** The wire format and the conversion of a stream's sample format. *)
Definition sample_wire (f : SampleFormat) : Wire Z :=
  match f with U16 => w_u16 | I16 => w_i16 | F32 => w_f32 end.
Definition sample_into (f : SampleFormat) : Z -> option HSample :=
  match f with U16 => u16_to_i16 | I16 => i16_to_i16 | F32 => f32_to_f32 end.

(** The recording a message is about. *)
Definition message_id {T} (a : Audio T) : option Uuid :=
  match a with
  | WavChunkMsg c => Some (id c)
  | WavEnd i => Some i
  | _ => None
  end.
Definition bytes_id (f : SampleFormat) (bs : list byte) : option Uuid :=
  match deserialize (w_Audio (sample_wire f)) bs with Ok a => message_id a | Err _ => None end.

(** Bytes that are no message change nothing. *)
Definition rec_bytes (sp : Spec) (r : recordings) (bs : list byte) : recordings :=
  match deserialize (w_Audio (sample_wire (sample_format sp))) bs with
  | Ok a => rec_step (sample_into (sample_format sp)) (spec_to_wav sp) r a
  | Err _ => r
  end.
End Recordings.

(** ** The handler refines the recordings *)

Section Refinement.
Context `{U : UuidOps} `{UL : !UuidLaws} `{C : Chrono} {W Wr : Type} `{Ho : !Host W Wr}
  `{HL : !HostLaws W Wr} `{HR : HoundRules} `{HT : !HostReliable W Wr} `{B : !Bincode}.

#[local] Arguments AudioWriter {U C} Wr.
#[local] Arguments AudioHandler {U C} Wr.

(** The writer of recording [i] of handler [h]. *)
Definition writing (h : AudioHandler Wr) (i : Uuid) (aw : AudioWriter Wr) (e : Z * list HSample) : Prop :=
  exists wr, aw_inner aw = Some wr /\ aw_id aw = i /\ aw_device_id aw = h_device_id h /\ aw_seq aw = fst e /\
    wav_pending wr = (wav_path h i, spec_to_wav (h_spec h), snd e).

(** The event of a finished recording, without its times. *)
Definition event_of (h : AudioHandler Wr) (i : Uuid) : DbTypes.EventKind * DbTypes.EventPayload * Uuid :=
  (DbTypes.KSound, DbTypes.Sound (wav_name i), h_device_id h).
Definition untimed (ne : NewEvent) : DbTypes.EventKind * DbTypes.EventPayload * Uuid :=
  (DbTypes.ne_kind ne, DbTypes.ne_payload ne, DbTypes.ne_device_id ne).

(** Handling a message changes the writers only. *)
Definition same_config (h h' : AudioHandler Wr) : Prop := h' = with_writers h (writers h').

Lemma same_config_path h h' i : same_config h h' -> wav_path h' i = wav_path h i.
Proof. by intros ->. Qed.
Lemma same_config_event h h' i : same_config h h' -> event_of h' i = event_of h i.
Proof. by intros ->. Qed.
Lemma same_config_spec h h' : same_config h h' -> h_spec h' = h_spec h.
Proof. by intros ->. Qed.
Lemma same_config_trans h1 h2 h3 : same_config h1 h2 -> same_config h2 h3 -> same_config h1 h3.
Proof. intros H1 H2. unfold same_config in *. rewrite H2. by rewrite H1. Qed.
Lemma same_config_refl h : same_config h h.
Proof. by destruct h. Qed.

Record refines (h : AudioHandler Wr) (w : W) (sent : list NewEvent) (r : recordings) : Prop := {
  ref_open : forall i, option_Forall2 (writing h i) (writers h !! i) (r_open r !! i);
  ref_stored : forall i xs, r_stored r !! i = Some xs -> r_open r !! i = None /\
    wav_file w (wav_path h i) = Some (spec_to_wav (h_spec h), xs);
  ref_sent : map untimed sent = map (event_of h) (r_ended r);
}.

Lemma wav_path_inj (h : AudioHandler Wr) i j : wav_path h i = wav_path h j -> i = j.
Proof.
  unfold wav_path, path_push. intros Heq%string_app_inj_r.
  destruct (ends_in_separator _); repeat apply string_app_inj_l in Heq; by apply (inj uuid_to_string).
Qed.

Lemma create_ok p s w :
  let '(r, w') := wav_create p s w in
  only p w w' /\ match r with
    | Ok wr => creates s = true /\ wav_pending wr = (p, s, []) /\ blank p w'
    | Err _ => creates s = false
    end.
Proof.
  pose proof (create_rule p s w) as Ht. pose proof (create_spec p s w) as Hs.
  destruct (wav_create p s w) as [[wr|] w']; cbn in Ht; destruct Hs as [? Hs]; (split; [done|]); [|done].
  destruct (Hs wr eq_refl). by split_and!.
Qed.

Lemma finalize_ok wr w p s xs :
  wav_pending wr = (p, s, xs) ->
  let '(r, w') := wav_finalize wr w in
  only p w w' /\ match r with
    | Ok _ => whole s (length xs) = true /\ wav_file w' p = Some (s, xs)
    | Err _ => whole s (length xs) = false
    end.
Proof.
  intros Hp. pose proof (finalize_rule wr w) as Ht. pose proof (finalize_spec wr w) as Hs. rewrite Hp in Ht, Hs.
  destruct (wav_finalize wr w) as [[[]|] w']; cbn in Ht; destruct Hs as [? Hs]; (split; [done|]); auto.
Qed.

(** No file but those of the recordings [P] differs. *)
Definition only_ids (h : AudioHandler Wr) (P : Uuid -> Prop) (w w' : W) : Prop :=
  forall q, (forall i, P i -> q <> wav_path h i) -> wav_file w' q = wav_file w q.

Lemma only_refl p w : only p w w.
Proof. by intros q Hq. Qed.
Lemma only_trans p w1 w2 w3 : only p w1 w2 -> only p w2 w3 -> only p w1 w3.
Proof. intros H1 H2 q Hq. by rewrite H2, H1. Qed.

(** Writing a payload appends the samples that convert. *)
Lemma write_samples_ok {T} (into : T -> option HSample) samples wr w p s xs :
  wav_pending wr = (p, s, xs) ->
  let '(r, wr', w') := write_samples into samples wr w in
  only p w w' /\ wav_pending wr' = (p, s, xs ++ fst (taken into s (length xs) samples)) /\
  is_ok r = snd (taken into s (length xs) samples) /\ (blank p w -> blank p w').
Proof.
  revert wr w xs. induction samples as [|x samples IH]; intros wr w xs Hp; cbn [write_samples taken].
  { rewrite app_nil_r. split_and!; [apply only_refl|done..]. }
  destruct (into x) as [y|]; [|cbn; rewrite app_nil_r; split_and!; [apply only_refl|done..]].
  pose proof (write_rule y wr w) as Ht. pose proof (write_spec y wr w) as Hs.
  destruct (wav_write_sample y wr w) as [[[[]|] wr1] w1]; rewrite Hp in Hs, Ht;
    destruct Hs as (Ho1 & _ & Hp1 & Hb1), Ht as [<- Hrefused]; cbn [is_ok] in *.
  2: { cbn. rewrite app_nil_r. split_and!; [done|by apply Hrefused|done|done]. }
  specialize (IH wr1 w1 _ (Hp1 eq_refl)). rewrite length_app, Nat.add_1_r in IH.
  destruct (write_samples into samples wr1 w1) as [[r wr2] w2].
  destruct IH as (Ho2 & Hp2 & Hr & Hb2), (taken into s (S (length xs)) samples) as [ys ok]. cbn in *.
  split_and!; [by eapply only_trans|by rewrite Hp2, <- app_assoc|done|auto].
Qed.

Lemma writer_write_ok {T} (into : T -> option HSample) (h : AudioHandler Wr) i aw (c : WavChunk T) e w :
  writing h i aw e ->
  let '(_, aw', w') := writer_write into aw c w in
  only (wav_path h i) w w' /\ writing h i aw' (rec_entry into (spec_to_wav (h_spec h)) c e) /\
  (blank (wav_path h i) w -> blank (wav_path h i) w').
Proof.
  intros (wr & Hin & Hid & Hdev & Hseq & Hp). destruct e as [sq xs]. unfold writer_write, rec_entry. rewrite Hin, Hseq.
  cbn [fst snd] in *. destruct (sq <? seq c).
  2: { split_and!; [apply only_refl|by exists wr|done]. }
  pose proof (write_samples_ok into (payload c) wr w _ _ _ Hp) as Hs.
  destruct (write_samples into (payload c) wr w) as [[r wr'] w'], (taken into _ (length xs) (payload c)) as [ys ok].
  destruct Hs as (Ho' & Hp' & Hr & Hb). split_and!; [done| |done]. exists wr'. cbn in *. split_and!; try done.
  by destruct r, ok.
Qed.

Lemma ensure_writer_ok (h : AudioHandler Wr) i w o :
  option_Forall2 (writing h i) (writers h !! i) o ->
  let '(r, h', w') := ensure_writer h i w in
  only (wav_path h i) w w' /\
  match r with
  | Ok aw => (o = None -> creates (spec_to_wav (h_spec h)) = true /\ blank (wav_path h i) w') /\
      writing h i aw (default (0, []) o) /\
      forall aw', with_writers h' (<[i := aw']> (writers h')) = with_writers h (<[i := aw']> (writers h))
  | Err _ => o = None /\ creates (spec_to_wav (h_spec h)) = false /\ h' = h
  end.
Proof.
  unfold ensure_writer. inversion 1 as [aw e He|]; cbn; [by auto using only_refl|].
  unfold writer_new. pose proof (create_ok (wav_path h i) (spec_to_wav (h_spec h)) w) as Hc.
  destruct (wav_create _ _ w) as [[wr|e] w']; [|by destruct Hc]. destruct Hc as (Hw & Hcr & Hp & Hb).
  destruct (utc_now w') as [now w2] eqn:En.
  assert (forall q, wav_file w2 q = wav_file w' q) as Hnow.
  { intros q. replace w2 with (snd (utc_now w')) by (by rewrite En). apply now_spec. }
  split_and!; [intros q Hq; rewrite Hnow; by apply Hw| |by exists wr|].
  - intros _. split; [done|]. intros s0 xs. rewrite Hnow. apply Hb.
  - intros aw'. unfold with_writers; cbn. by rewrite insert_insert_eq.
Qed.

(** The file of a recording is untouched by work on another. *)
Lemma only_other (h : AudioHandler Wr) i j w w' :
  only (wav_path h i) w w' -> j <> i -> wav_file w' (wav_path h j) = wav_file w (wav_path h j).
Proof. intros Hw Hne. apply Hw. intros Heq%wav_path_inj. done. Qed.

Lemma refines_chunk {T} (into : T -> option HSample) (h : AudioHandler Wr) w sent r (c : WavChunk T) aw w' :
  refines h w sent r -> only (wav_path h (id c)) w w' ->
  (r_open r !! id c = None -> creates (spec_to_wav (h_spec h)) = true) ->
  writing h (id c) aw (rec_entry into (spec_to_wav (h_spec h)) c (default (0, []) (r_open r !! id c))) ->
  refines (with_writers h (<[id c := aw]> (writers h))) w' sent (rec_chunk into (spec_to_wav (h_spec h)) c r).
Proof.
  intros [Hopen Hst Hsent] Hw Hcr Haw.
  assert (rec_chunk into (spec_to_wav (h_spec h)) c r = mkRecordings
    (<[id c := rec_entry into (spec_to_wav (h_spec h)) c (default (0, []) (r_open r !! id c))]> (r_open r))
    (match r_open r !! id c with Some _ => r_stored r | None => delete (id c) (r_stored r) end) (r_ended r)) as ->.
  { unfold rec_chunk. destruct (r_open r !! id c) as [e|]; [done|]. by rewrite Hcr. }
  split; cbn; [| |done].
  - intros j. destruct (decide (j = id c)) as [->|Hne].
    + rewrite !lookup_insert, !decide_True by done. by constructor.
    + rewrite !lookup_insert_ne by done. apply Hopen.
  - intros j xs Hj. assert (j <> id c /\ r_stored r !! j = Some xs) as [Hne Hj'].
    { destruct (r_open r !! id c) eqn:E.
      - split; [|done]. intros ->. apply Hst in Hj as [? _]. congruence.
      - by apply lookup_delete_Some in Hj as [??]. }
    apply Hst in Hj' as [Ho' Hf]. rewrite lookup_insert_ne by done. split; [done|].
    change (wav_file w' (wav_path h j) = Some (spec_to_wav (h_spec h), xs)). by rewrite (only_other h (id c) j w w').
Qed.

Lemma finalize_writer_ok (h : AudioHandler Wr) i aw e w :
  writing h i aw e ->
  let '(r, w') := finalize_as_new_event aw w in
  only (wav_path h i) w w' /\
  match r with
  | Ok ne => whole (spec_to_wav (h_spec h)) (length (snd e)) = true /\
      wav_file w' (wav_path h i) = Some (spec_to_wav (h_spec h), snd e) /\ untimed ne = event_of h i
  | Err _ => whole (spec_to_wav (h_spec h)) (length (snd e)) = false
  end.
Proof.
  intros (wr & Hin & Hid & Hdev & Hseq & Hp). unfold finalize_as_new_event. rewrite Hin.
  pose proof (finalize_ok wr w _ _ _ Hp) as Hf. destruct (wav_finalize wr w) as [[[]|err] w']; [|done].
  destruct Hf as (Hw & Hwh & Hf). destruct (utc_now w') as [now w2] eqn:En.
  assert (forall q, wav_file w2 q = wav_file w' q) as Hnow.
  { intros q. replace w2 with (snd (utc_now w')) by (by rewrite En). apply now_spec. }
  split_and!; [|done|by rewrite Hnow|].
  - intros q Hq. rewrite Hnow. by apply Hw.
  - unfold untimed, event_of; cbn. by rewrite Hid, Hdev.
Qed.

Lemma refines_end (h : AudioHandler Wr) w sent r i :
  refines h w sent r ->
  match writers h !! i with
  | Some aw =>
      let '(_, w', sent') := finalize_writer aw w in
      refines (with_writers h (delete i (writers h))) w' (sent ++ sent') (rec_end (spec_to_wav (h_spec h)) i r) /\
      only (wav_path h i) w w'
  | None => rec_end (spec_to_wav (h_spec h)) i r = r
  end.
Proof.
  intros [Hopen Hst Hsent]. pose proof (Hopen i) as Hi. unfold rec_end. inversion Hi as [aw [sq xs] He Ha Hr|]; [|done].
  symmetry in Hr. pose proof (finalize_writer_ok h i aw _ w He) as Hfin. unfold finalize_writer.
  assert (forall j, option_Forall2 (writing h j) (delete i (writers h) !! j) (delete i (r_open r) !! j)) as Hdel.
  { intros j. destruct (decide (j = i)) as [->|Hji]; [rewrite !lookup_delete_eq; constructor|].
    rewrite !lookup_delete_ne by done. apply Hopen. }
  assert (forall w', only (wav_path h i) w w' -> forall j ys, j <> i -> r_stored r !! j = Some ys ->
    delete i (r_open r) !! j = None /\ wav_file w' (wav_path h j) = Some (spec_to_wav (h_spec h), ys)) as Hoth.
  { intros w' Hw j ys Hji [? Hj]%Hst. rewrite lookup_delete_ne by done. split; [done|].
    rewrite <- Hj. by apply (only_other h i). }
  destruct (finalize_as_new_event aw w) as [[ne|err] w']; destruct Hfin as [Hw Hfin]; cbn [snd] in Hfin; (split; [|done]).
  - destruct Hfin as (-> & Hf & Hne). split; cbn; [done| |by rewrite !map_app, Hsent; cbn; rewrite Hne].
    intros j ys. destruct (decide (j = i)) as [->|Hji].
    + rewrite lookup_insert, decide_True, lookup_delete_eq by done. by intros [= <-].
    + rewrite lookup_insert_ne by done. by apply Hoth.
  - rewrite Hfin, app_nil_r. split; cbn; [done| |done]. intros j ys Hj. apply Hoth; [done| |done].
    intros ->. apply Hst in Hj as [? _]. congruence.
Qed.

Lemma handler_write_refines (wt : Wire Z) into (h : AudioHandler Wr) buf w sent r :
  refines h w sent r ->
  let '(_, h', w', sent') := handler_write wt into h buf w in
  refines h' w' (sent ++ sent')
    (match deserialize (w_Audio wt) buf with Ok a => rec_step into (spec_to_wav (h_spec h)) r a | Err _ => r end) /\
  same_config h h' /\
  only_ids h (fun i => match deserialize (w_Audio wt) buf with Ok a => message_id a = Some i | Err _ => False end) w w'.
Proof.
  intros Hr. unfold handler_write. assert (forall P, only_ids h P w w) as Hrefl by done.
  destruct (deserialize (w_Audio wt) buf) as [a|e]; [|rewrite app_nil_r; auto using same_config_refl].
  destruct a as [|sec sp|c|i]; cbn [rec_step message_id]; try (rewrite app_nil_r; auto using same_config_refl).
  - pose proof (ensure_writer_ok h (id c) w _ (ref_open _ _ _ _ Hr (id c))) as He.
    destruct (ensure_writer h (id c) w) as [[[aw|err] h1] w1]; destruct He as [Hw1 He].
    + destruct He as (Hcr & Haw & Hc). pose proof (writer_write_ok into h (id c) aw c _ w1 Haw) as Hww.
      destruct (writer_write into aw c w1) as [[res aw'] w2]. destruct Hww as (Hw2 & Haw' & _). rewrite app_nil_r, Hc.
      assert (only (wav_path h (id c)) w w2) as Hw by (by eapply only_trans).
      split_and!; [apply refines_chunk with w; [done..|apply Hcr|done]|done|]. intros q Hq. apply Hw, Hq. done.
    + destruct He as (Hn & Hcr & ->). rewrite app_nil_r. split_and!; [|apply same_config_refl|intros q Hq; by apply Hw1, Hq].
      destruct Hr as [Hopen Hst Hsent]. unfold rec_chunk. rewrite Hn, Hcr. split; cbn; [done| |done].
      intros j xs [Hne Hj]%lookup_delete_Some. apply Hst in Hj as [? <-]. split; [done|]. by apply (only_other h (id c)).
  - pose proof (refines_end h w sent r i Hr) as He. destruct (writers h !! i) as [aw|].
    + destruct (finalize_writer aw w) as [[res w'] sent']. destruct He as [He Hw]. split_and!; [done|done|].
      intros q Hq. apply Hw, Hq. done.
    + rewrite He, app_nil_r. auto using same_config_refl.
Qed.

Lemma handle_refines (h : AudioHandler Wr) buf w sent r :
  refines h w sent r ->
  let '(h', w', sent') := handle h buf w in
  refines h' w' (sent ++ sent') (rec_bytes (h_spec h) r buf) /\
  same_config h h' /\ only_ids h (fun i => bytes_id (sample_format (h_spec h)) buf = Some i) w w'.
Proof.
  intros Hr. unfold handle, rec_bytes, bytes_id, sample_wire, sample_into.
  assert (forall wt into, let '(_, h', w', sent') := handler_write wt into h buf w in
    refines h' w' (sent ++ sent')
      (match deserialize (w_Audio wt) buf with Ok a => rec_step into (spec_to_wav (h_spec h)) r a | Err _ => r end) /\
    same_config h h' /\
    only_ids h (fun i => match deserialize (w_Audio wt) buf with Ok a => message_id a | Err _ => None end = Some i) w w') as Hw.
  { intros wt into. pose proof (handler_write_refines wt into h buf w sent r Hr) as H.
    destruct (handler_write wt into h buf w) as [[[? ?] ?] ?]. destruct H as (? & ? & Hw). split_and!; [done..|].
    intros q Hq. apply Hw. intros i. destruct (deserialize (w_Audio wt) buf); [apply Hq|done]. }
  destruct (sample_format (h_spec h)).
  - specialize (Hw w_u16 u16_to_i16). by destruct (handler_write w_u16 u16_to_i16 h buf w) as [[[? ?] ?] ?].
  - specialize (Hw w_i16 i16_to_i16). by destruct (handler_write w_i16 i16_to_i16 h buf w) as [[[? ?] ?] ?].
  - specialize (Hw w_f32 f32_to_f32). by destruct (handler_write w_f32 f32_to_f32 h buf w) as [[[? ?] ?] ?].
Qed.

Lemma refines_new dir spec dev w : refines (handler_new dir spec dev) w [] no_recordings.
Proof. split; cbn; [|by intros *; rewrite lookup_empty|done]. intros i. rewrite !lookup_empty. constructor. Qed.

Lemma handle_all_refines bufs (h : AudioHandler Wr) w r :
  refines h w [] r ->
  let '(h', w', sent) := handle_all h bufs w in
  refines h' w' sent (foldl (rec_bytes (h_spec h)) r bufs) /\
  same_config h h'.
Proof.
  intros Hr. unfold handle_all. induction bufs as [|buf bufs IH] using rev_ind.
  { split; [done|apply same_config_refl]. }
  rewrite !foldl_snoc. destruct (foldl _ _ bufs) as [[h1 w1] sent1]. destruct IH as (Hr1 & Hc).
  pose proof (handle_refines h1 buf w1 sent1 _ Hr1) as H. destruct (handle h1 buf w1) as [[h2 w2] sent2].
  destruct H as (Hr2 & Hc2 & _). rewrite (same_config_spec _ _ Hc) in Hr2. split; [done|].
  by eapply same_config_trans.
Qed.

(** The recording [i] in progress ends in an event if it is finished. *)
Definition ends_well (s : WavSpec) (r : recordings) (i : Uuid) : Prop :=
  match r_open r !! i with Some e => finishable s (i, e) | None => False end.
#[export] Instance ends_well_dec s r i : Decision (ends_well s r i).
Proof. unfold ends_well. destruct (r_open r !! i); apply _. Defined.

(** Draining finishes the recordings one by one, in any order. *)
Lemma drain_refines (h : AudioHandler Wr) (l : list (Uuid * AudioWriter Wr)) r w :
  NoDup l.*1 -> (forall i aw, (i, aw) ∈ l -> exists e, r_open r !! i = Some e /\ writing h i aw e) ->
  let s := spec_to_wav (h_spec h) in
  let '(w', sent) := foldl (fun '(w, sent) '(_, aw) =>
    match finalize_as_new_event aw w with
    | (Ok new_event, w) => (w, sent ++ [new_event])
    | (Err _, w) => (w, sent)
    end) (w, []) l in
  map untimed sent = map (event_of h) (filter (ends_well s r) l.*1) /\
  (forall i e, i ∈ l.*1 -> r_open r !! i = Some e -> finishable s (i, e) -> wav_file w' (wav_path h i) = Some (s, snd e)) /\
  only_ids h (fun i => i ∈ l.*1) w w'.
Proof.
  intros Hnd Hl s. induction l as [|[i aw] l IH] using rev_ind; [by split_and!; [|intros i e []%not_elem_of_nil|]|].
  rewrite fmap_app in Hnd |- *. apply NoDup_app in Hnd as (Hnd & Hni & _).
  assert (forall j aj, (j, aj) ∈ l -> exists e, r_open r !! j = Some e /\ writing h j aj e) as Hl'
    by (intros j aj Hj; apply Hl, elem_of_app; by left).
  specialize (IH Hnd Hl'). rewrite foldl_snoc. destruct (foldl _ (w, []) l) as [w1 sent]. destruct IH as (Hs & Hfs & Hrest).
  destruct (Hl i aw) as (e & He & Hw); [apply elem_of_app; right; by apply list_elem_of_singleton|].
  pose proof (finalize_writer_ok h i aw e w1 Hw) as Hfin. rewrite filter_app, map_app. change (([(i, aw)] : list _).*1) with [i].
  assert (i ∉ l.*1) as Hil. { intros Hi. apply (Hni i Hi). cbn. left. }
  assert (ends_well s r i <-> whole s (length (snd e)) = true) as Hend by (unfold ends_well; by rewrite He).
  assert (forall w2, only (wav_path h i) w1 w2 ->
    (forall j ej, j ∈ l.*1 -> r_open r !! j = Some ej -> finishable s (j, ej) -> wav_file w2 (wav_path h j) = Some (s, snd ej)) /\
    only_ids h (fun j => j ∈ l.*1 ++ [i]) w w2) as Hoth.
  { intros w2 Hw2. split.
    - intros j ej Hj Hoj Hfj. rewrite <- (Hfs j ej Hj Hoj Hfj). apply (only_other h i); [done|]. by intros ->.
    - intros q Hq. rewrite Hw2 by (apply Hq; rewrite elem_of_app; right; by apply list_elem_of_singleton).
      apply Hrest. intros j Hj. apply Hq. rewrite elem_of_app. by left. }
  destruct (finalize_as_new_event aw w1) as [[ne|err] w2]; destruct Hfin as [Hw2 Hfin]; destruct (Hoth w2 Hw2) as [Hfs2 Hrest2].
  - destruct Hfin as (Hwh & Hf & Hne). split_and!; [|intros j ej [Hj| ->%list_elem_of_singleton]%elem_of_app|done].
    + rewrite filter_cons_True, map_app, Hs by (by apply Hend). cbn. by rewrite Hne.
    + by apply Hfs2.
    + rewrite He. intros [= <-] _. exact Hf.
  - assert (~ ends_well s r i) as Hno by (rewrite Hend; fold s in Hfin; congruence).
    split_and!; [|intros j ej [Hj| ->%list_elem_of_singleton]%elem_of_app|done].
    + by rewrite filter_cons_False, filter_nil, app_nil_r, Hs.
    + by apply Hfs2.
    + rewrite He. intros [= <-] Hfj. by destruct Hno; apply Hend.
Qed.

Lemma elem_of_keys {A} (m : gmap Uuid A) i : i ∈ (map_to_list m).*1 <-> is_Some (m !! i).
Proof.
  rewrite list_elem_of_fmap. split.
  - intros ([j a] & -> & Hj%elem_of_map_to_list). by exists a.
  - intros [a Ha]. exists (i, a). by rewrite elem_of_map_to_list.
Qed.

Lemma Forall2_is_Some {X Y} (P : X -> Y -> Prop) (a : option X) (b : option Y) :
  option_Forall2 P a b -> is_Some a <-> is_Some b.
Proof. destruct 1; split; first [by intros [? ?] | intros _; by eexists]. Qed.

(** Stopping from any state that refines the recordings. *)
Lemma stopping_refines (h : AudioHandler Wr) w sent r :
  refines h w sent r ->
  let s := spec_to_wav (h_spec h) in
  let '(h2, w2, sent2) := stopping h w in
  h2 = with_writers h ∅ /\
  (forall i e, r_open r !! i = Some e -> finishable s (i, e) -> wav_file w2 (wav_path h i) = Some (s, snd e)) /\
  map untimed sent2 ≡ₚ map (event_of h) (map_to_list (filter (finishable s) (r_open r))).*1 /\
  only_ids h (fun i => is_Some (r_open r !! i)) w w2.
Proof.
  intros [Hop _ _] s. unfold stopping, finalize_all.
  pose proof (drain_refines h (map_to_list (writers h)) r w (NoDup_fst_map_to_list _)) as Hd. cbv zeta in Hd. fold s in Hd.
  assert (forall i, i ∈ (map_to_list (writers h)).*1 <-> is_Some (r_open r !! i)) as Hkeys.
  { intros i. rewrite elem_of_keys. apply (Forall2_is_Some _ _ _ (Hop i)). }
  destruct (foldl _ (w, []) _) as [w2 sent2]. destruct Hd as (Hs2 & Hf & Hrest).
  { intros i aw Hi%elem_of_map_to_list. pose proof (Hop i) as Hi'. rewrite Hi in Hi'. inversion Hi'; eauto. }
  split_and!; [done| | |].
  - intros i e Hi. apply Hf; [|done]. apply Hkeys. by exists e.
  - rewrite Hs2. apply (fmap_Permutation (event_of h)).
    apply NoDup_Permutation; [apply NoDup_filter, NoDup_fst_map_to_list|apply NoDup_fst_map_to_list|].
    intros i. rewrite list_elem_of_filter, Hkeys, elem_of_keys. unfold ends_well. split.
    + intros [He [e Hi]]. rewrite Hi in He. exists e. by apply map_lookup_filter_Some.
    + intros [e [Hi He]%map_lookup_filter_Some]. rewrite Hi. by split; [|exists e].
  - intros q Hq. apply Hrest. intros i Hi. by apply Hq, Hkeys.
Qed.

(** ** Properties *)

(** The handler implements the recordings, whatever bytes arrive: it has
    a writer for each recording in progress; the file of each finished
    recording, at <directory>/<id>.wav in the format of the stream, holds the
    payloads of its chunks of increasing sequence number, in order; and the
    event processor was sent one sound event per finished recording, in the
    order of the ends. *)
Lemma handler_refines_recordings (dir : string) (spec : Spec) (dev : Uuid) (bufs : list (list byte)) (w : W) :
  let h := handler_new dir spec dev in
  let '(h', w', sent) := handle_all h bufs w in
  let r := foldl (rec_bytes spec) no_recordings bufs in
  (forall i, is_Some (writers h' !! i) <-> is_Some (r_open r !! i)) /\
  (forall i xs, r_stored r !! i = Some xs -> wav_file w' (wav_path h i) = Some (spec_to_wav spec, xs)) /\
  map untimed sent = map (event_of h) (r_ended r).
Proof.
  intros h. pose proof (handle_all_refines bufs h w _ (refines_new dir spec dev w)) as H.
  change (h_spec h) with spec in H.
  destruct (handle_all h bufs w) as [[h' w'] sent]. destruct H as ([Hop Hst Hs] & Hc). split_and!.
  - intros i. apply (Forall2_is_Some _ _ _ (Hop i)).
  - intros i xs Hi. apply Hst in Hi as [_ Hi]. by rewrite (same_config_spec _ _ Hc), (same_config_path _ _ _ Hc) in Hi.
  - rewrite Hs. apply map_ext. intros i. by apply same_config_event.
Qed.

Section Wire.
Context `{BL : !BincodeLaws}.

Lemma sample_wire_ok f : wire_ok (sample_wire f).
Proof. destruct f; apply w_prim_ok. Qed.

Lemma deserialize_message f a :
  wf (w_Audio (sample_wire f)) a = true ->
  deserialize (w_Audio (sample_wire f)) (serialize (w_Audio (sample_wire f)) a) = Ok a.
Proof.
  intros Ha. rewrite <- (app_nil_r (serialize _ a)).
  rewrite deserialize_serialize; [done|apply w_Audio_ok, sample_wire_ok|done].
Qed.

Lemma rec_bytes_serialize sp r a :
  let f := sample_format sp in
  wf (w_Audio (sample_wire f)) a = true ->
  rec_bytes sp r (serialize (w_Audio (sample_wire f)) a) = rec_step (sample_into f) (spec_to_wav sp) r a.
Proof. intros f Ha. unfold rec_bytes. by rewrite deserialize_message. Qed.

Lemma converted_cut {T} (into : T -> option HSample) pre x post ys :
  Forall2 (fun x y => into x = Some y) pre ys -> into x = None ->
  converted into (pre ++ x :: post) = (ys, false).
Proof.
  intros Hpre Hx. induction Hpre as [|x' y pre ys Hxy _ IH]; cbn; [by rewrite Hx|]. by rewrite Hxy, IH.
Qed.

(** A file that takes the samples takes all that convert. *)
Lemma taken_converted {T} (into : T -> option HSample) s n xs :
  (forall k y, fst (converted into xs) !! k = Some y -> accepts s (n + k) y = true) ->
  taken into s n xs = converted into xs.
Proof.
  revert n. induction xs as [|x xs IH]; intros n Ha; [done|]. cbn in *. destruct (into x) as [y|]; [|done].
  destruct (converted into xs) as [ys ok] eqn:Hc. cbn in *.
  rewrite <- (Nat.add_0_r n), (Ha 0%nat y eq_refl), Nat.add_0_r, IH; [done|].
  intros k z Hk. rewrite <- (Ha (S k) z Hk). f_equal. lia.
Qed.

Lemma fits_app s xs ys :
  fits s (xs ++ ys) -> fits s xs /\ forall k y, ys !! k = Some y -> accepts s (length xs + k) y = true.
Proof.
  intros [Hc Ha]. split; [split; [done|]|].
  - intros k x Hk. apply Ha. by apply lookup_app_l_Some.
  - intros k y Hk. apply Ha. rewrite lookup_app_r by lia. by replace (length xs + k - length xs)%nat with k by lia.
Qed.

(** An accepted or refused chunk of a recording that has [xs]. *)
Lemma rec_entry_fits {T} (into : T -> option HSample) s (c : WavChunk T) sq xs ys ok :
  sq < seq c -> converted into (payload c) = (ys, ok) -> fits s (xs ++ ys) ->
  rec_entry into s c (sq, xs) = (if ok then seq c else sq, xs ++ ys).
Proof.
  intros Hs Hc [_ Ha]%fits_app. unfold rec_entry. replace (sq <? seq c) with true by (symmetry; by apply Z.ltb_lt).
  rewrite taken_converted; [by rewrite Hc|]. rewrite Hc. exact Ha.
Qed.

Lemma rec_chunk_cut {T} (into : T -> option HSample) s (c : WavChunk T) ys n :
  0 < seq c -> converted into (payload c) = (ys, false) -> fits s (concat (replicate (S n) ys)) ->
  r_open (foldl (rec_step into s) no_recordings (replicate (S n) (WavChunkMsg c))) !! id c =
    Some (0, concat (replicate (S n) ys)).
Proof.
  intros Hs Hc. induction n as [|n IH]; intros Hf.
  - cbn [replicate foldl rec_step concat] in *. unfold rec_chunk, no_recordings. cbn [r_open]. rewrite lookup_empty, (proj1 Hf).
    cbn [r_open]. rewrite lookup_insert_eq. f_equal. rewrite app_nil_r in *. by apply (rec_entry_fits into s c 0 [] ys false).
  - rewrite replicate_S_end, foldl_snoc. rewrite (replicate_S_end (S n) ys), concat_app in Hf |- *. cbn [concat] in *. rewrite app_nil_r in *.
    cbn [rec_step]. unfold rec_chunk. rewrite IH by (by apply fits_app in Hf as [? _]). cbn [r_open].
    rewrite lookup_insert_eq. f_equal. by apply (rec_entry_fits into s c 0 _ ys false).
Qed.

Lemma rec_chunks_ended {T} (into : T -> option HSample) s (c : WavChunk T) r n :
  r_ended (foldl (rec_step into s) r (replicate n (WavChunkMsg c))) = r_ended r.
Proof.
  revert r. induction n as [|n IH]; intros r; cbn; [done|]. rewrite IH. unfold rec_chunk. by destruct (r_open r !! id c).
Qed.

Lemma foldl_rec_bytes sp r msgs :
  let f := sample_format sp in
  Forall (fun a => wf (w_Audio (sample_wire f)) a = true) msgs ->
  foldl (rec_bytes sp) r (map (serialize (w_Audio (sample_wire f))) msgs) = foldl (rec_step (sample_into f) (spec_to_wav sp)) r msgs.
Proof.
  intros f Hm. revert r. induction Hm as [|a msgs Ha _ IH]; intros r; cbn; [done|].
  by rewrite rec_bytes_serialize, IH.
Qed.

(** The first chunk of a recording empties its file. *)
Lemma handle_opens (h : AudioHandler Wr) w sent r buf (c : WavChunk Z) :
  refines h w sent r -> r_open r !! id c = None -> creates (spec_to_wav (h_spec h)) = true ->
  deserialize (w_Audio (sample_wire (sample_format (h_spec h)))) buf = Ok (WavChunkMsg c) ->
  let '(_, w', sent') := handle h buf w in blank (wav_path h (id c)) w' /\ sent' = [].
Proof.
  intros Hr Hn Hcr. unfold handle, sample_wire.
  assert (forall (wt : Wire Z) into, deserialize (w_Audio wt) buf = Ok (WavChunkMsg c) ->
    let '(_, _, w', sent') := handler_write wt into h buf w in blank (wav_path h (id c)) w' /\ sent' = []) as Hw.
  { intros wt into Hd. unfold handler_write. rewrite Hd.
    pose proof (ensure_writer_ok h (id c) w _ (ref_open _ _ _ _ Hr (id c))) as He.
    destruct (ensure_writer h (id c) w) as [[[aw|err] h1] w1]; destruct He as [_ He]; [|destruct He as (_ & ? & _); congruence].
    destruct He as (Hb & Haw & _). destruct (Hb Hn) as [_ Hb1]. pose proof (writer_write_ok into h (id c) aw c _ w1 Haw) as Hww.
    destruct (writer_write into aw c w1) as [[res aw'] w2]. destruct Hww as (_ & _ & Hb2). auto. }
  destruct (sample_format (h_spec h)); intros Hd.
  - specialize (Hw w_u16 u16_to_i16 Hd). by destruct (handler_write w_u16 u16_to_i16 h buf w) as [[[? ?] ?] ?].
  - specialize (Hw w_i16 i16_to_i16 Hd). by destruct (handler_write w_i16 i16_to_i16 h buf w) as [[[? ?] ?] ?].
  - specialize (Hw w_f32 f32_to_f32 Hd). by destruct (handler_write w_f32 f32_to_f32 h buf w) as [[[? ?] ?] ?].
Qed.

(** C38: on a stream of 16-bit unsigned samples, a chunk with a sample above
    32767 is never accepted: the file gets its samples up to the first such
    one and no more, no event is sent, and as the sequence number stays
    behind, each retransmission writes the same samples once more. *)
Theorem loud_u16_chunk_is_cut (dir : string) (spec : Spec) (dev : Uuid) (w : W) (c : WavChunk Z)
    (pre post : list Z) (x : Z) (n : nat) :
  sample_format spec = U16 -> wf (w_Audio w_u16) (WavChunkMsg c) = true -> 0 < seq c ->
  payload c = pre ++ x :: post -> Forall (fun y => y <= i16_MAX) pre -> i16_MAX < x ->
  fits (spec_to_wav spec) (concat (replicate (S n) (map HI16 pre))) ->
  let h := handler_new dir spec dev in
  let '(h', w', sent) := handle_all h (replicate (S n) (serialize (w_Audio w_u16) (WavChunkMsg c))) w in
  sent = [] /\ exists aw wr, writers h' !! id c = Some aw /\ aw_inner aw = Some wr /\ aw_seq aw = 0 /\
    wav_pending wr = (wav_path h (id c), spec_to_wav spec, concat (replicate (S n) (map HI16 pre))).
Proof.
  intros Hf Hwf Hs Hp Hpre Hx Hfit h. rewrite <- fmap_replicate. fold (map (A := Audio Z) (B := list byte)).
  pose proof (handle_all_refines (map (serialize (w_Audio w_u16)) (replicate (S n) (WavChunkMsg c))) h w _
    (refines_new dir spec dev w)) as H.
  destruct (handle_all h _ w) as [[h' w'] sent]. destruct H as ([Hop Hst Hsent] & Hc).
  change (h_spec h) with spec in *.
  change w_u16 with (sample_wire U16) in *. rewrite <- Hf in *. rewrite foldl_rec_bytes in * by (by apply Forall_replicate).
  assert (converted (sample_into (sample_format spec)) (payload c) = (map HI16 pre, false)) as Hcut.
  { rewrite Hp, Hf. apply converted_cut.
    - apply Forall2_fmap_r. apply Forall_Forall2_diag. eapply Forall_impl; [done|]. intros y Hy; cbn.
      unfold u16_to_i16. replace (y <=? i16_MAX) with true by (symmetry; by apply Z.leb_le). done.
    - cbn. unfold u16_to_i16. by replace (x <=? i16_MAX) with false by (symmetry; by apply Z.leb_gt). }
  rewrite rec_chunks_ended in Hsent. apply map_eq_nil in Hsent. split; [done|].
  pose proof (Hop (id c)) as Hi. rewrite (rec_chunk_cut _ _ _ _ _ Hs Hcut Hfit) in Hi.
  inversion Hi as [aw e (wr & Hin & Hid & _ & Hq & Hpend) Haw|]. subst. exists aw, wr. split_and!; try done.
  by rewrite (same_config_spec _ _ Hc), (same_config_path _ _ _ Hc) in Hpend.
Qed.

(** C37: a chunk that arrives after the end of its recording destroys the file.
    A recording was finished: its file holds the samples [xs]. The handling of
    one more chunk of it opens a new writer on the same path, sends nothing, and
    leaves no samples in the file; at the next end of the recording the file
    holds the samples of the late chunk alone (none, if its sequence number is
    0), and a second event names it, unless they do not fill the channels. What
    was recorded before is lost. *)
Theorem late_chunk_erases_recording (dir : string) (spec : Spec) (dev : Uuid) (w : W) (bufs : list (list byte))
    (c : WavChunk Z) (xs : list HSample) :
  let wire := w_Audio (sample_wire (sample_format spec)) in
  let h := handler_new dir spec dev in
  r_stored (foldl (rec_bytes spec) no_recordings bufs) !! id c = Some xs ->
  wf wire (WavChunkMsg c) = true -> creates (spec_to_wav spec) = true ->
  let '(h0, w0, _) := handle_all h bufs w in
  let '(h1, w1, sent1) := handle h0 (serialize wire (WavChunkMsg c)) w0 in
  let '(h2, w2, sent2) := handle h1 (serialize wire (WavEnd (id c))) w1 in
  let ys := if 0 <? seq c then fst (taken (sample_into (sample_format spec)) (spec_to_wav spec) 0 (payload c)) else [] in
  writers h0 !! id c = None /\ wav_file w0 (wav_path h (id c)) = Some (spec_to_wav spec, xs) /\
  is_Some (writers h1 !! id c) /\ sent1 = [] /\ blank (wav_path h (id c)) w1 /\
  writers h2 !! id c = None /\
  (whole (spec_to_wav spec) (length ys) = true ->
     wav_file w2 (wav_path h (id c)) = Some (spec_to_wav spec, ys) /\ map untimed sent2 = [event_of h (id c)]) /\
  (whole (spec_to_wav spec) (length ys) = false -> sent2 = []).
Proof.
  intros wire h Hxs Hwf Hcr. pose proof (handle_all_refines bufs h w _ (refines_new dir spec dev w)) as H0.
  change (h_spec h) with spec in H0. set (r0 := foldl (rec_bytes spec) no_recordings bufs) in *.
  destruct (handle_all h bufs w) as [[h0 w0] sent0]. destruct H0 as [Hr0 Hc0].
  pose proof (same_config_spec _ _ Hc0) as Hsp0. change (h_spec h) with spec in Hsp0.
  destruct (ref_stored _ _ _ _ Hr0 _ _ Hxs) as [Hn0 Hf0].
  pose proof (handle_refines h0 (serialize wire (WavChunkMsg c)) w0 sent0 r0 Hr0) as H1.
  pose proof (handle_opens h0 w0 sent0 r0 (serialize wire (WavChunkMsg c)) c Hr0 Hn0) as Hopens.
  rewrite Hsp0 in H1, Hopens, Hf0. specialize (Hopens Hcr (deserialize_message _ _ Hwf)). unfold wire in H1 at 2. rewrite rec_bytes_serialize in H1 by done.
  destruct (handle h0 (serialize wire (WavChunkMsg c)) w0) as [[h1 w1] sent1]. destruct H1 as (Hr1 & Hc1 & _), Hopens as [Hb ->].
  pose proof (same_config_trans _ _ _ Hc0 Hc1) as Hc1'. pose proof (same_config_spec _ _ Hc1') as Hsp1. change (h_spec h) with spec in Hsp1.
  rewrite app_nil_r in Hr1. cbn [rec_step] in Hr1. unfold rec_chunk in Hr1. rewrite Hn0, Hcr in Hr1.
  pose proof (handle_refines h1 (serialize wire (WavEnd (id c))) w1 _ _ Hr1) as H2. rewrite Hsp1 in H2. unfold wire in H2 at 2.
  rewrite rec_bytes_serialize in H2 by done. cbn [rec_step] in H2. unfold rec_end in H2. cbn [r_open r_stored r_ended] in H2.
  rewrite lookup_insert_eq in H2. destruct (handle h1 (serialize wire (WavEnd (id c))) w1) as [[h2 w2] sent2].
  destruct H2 as (Hr2 & Hc2 & _). pose proof (same_config_trans _ _ _ Hc1' Hc2) as Hc2'.
  rewrite !(same_config_path _ _ _ Hc0) in *. cbv zeta.
  set (ys := if 0 <? seq c then _ else []).
  assert (exists sq, rec_entry (sample_into (sample_format spec)) (spec_to_wav spec) c (0, []) = (sq, ys)) as [sq Hys].
  { unfold rec_entry, ys. destruct (0 <? seq c); [|by eexists]. by destruct (taken _ _ _ _); eexists. }
  rewrite Hys in Hr2. split_and!; [|done| |done|done| | |].
  - pose proof (ref_open _ _ _ _ Hr0 (id c)) as Hi. rewrite Hn0 in Hi. by inversion Hi.
  - pose proof (ref_open _ _ _ _ Hr1 (id c)) as Hi. cbn in Hi. rewrite lookup_insert_eq in Hi. apply (Forall2_is_Some _ _ _ Hi). eauto.
  - pose proof (ref_open _ _ _ _ Hr2 (id c)) as Hi. destruct (whole _ _); cbn in Hi; rewrite lookup_delete_eq in Hi; by inversion Hi.
  - intros Hw. rewrite Hw in Hr2. split.
    + destruct (ref_stored _ _ _ _ Hr2 (id c) ys) as [_ Hfile]; [by cbn; rewrite lookup_insert_eq|].
      by rewrite (same_config_path _ _ _ Hc2'), (same_config_spec _ _ Hc2') in Hfile.
    + pose proof (ref_sent _ _ _ _ Hr2) as Hs2. pose proof (ref_sent _ _ _ _ Hr1) as Hs1. cbn in Hs1, Hs2.
      rewrite !map_app, Hs1 in Hs2. erewrite (map_ext (event_of h2) (event_of h1)) in Hs2 by (intros; by apply same_config_event).
      apply app_inv_head in Hs2. rewrite Hs2. cbn. by rewrite (same_config_event _ _ _ Hc2').
  - intros Hw. rewrite Hw in Hr2. pose proof (ref_sent _ _ _ _ Hr2) as Hs2. pose proof (ref_sent _ _ _ _ Hr1) as Hs1. cbn in Hs1, Hs2.
    rewrite map_app, Hs1 in Hs2. erewrite (map_ext (event_of h2) (event_of h1)) in Hs2 by (intros; by apply same_config_event).
    rewrite <- (app_nil_r (map (event_of h1) _)) in Hs2 at 2. apply app_inv_head in Hs2. by apply map_eq_nil in Hs2.
Qed.
End Wire.
End Refinement.

(** ** A host in memory

    The rules are those that [hound] documents for the formats of [Spec]: whole
    samples of 8 to 32 bits for integers and of 32 bits for floats, and files
    whose samples fill the channels. *)

#[local] Instance hound_rules : HoundRules := {|
  creates s := (0 <? wav_channels s) &&
    match wav_sample_format s with
    | Int => existsb (Z.eqb (wav_bits_per_sample s)) [8; 16; 24; 32]
    | Float => wav_bits_per_sample s =? 32
    end;
  accepts s _ x :=
    match x, wav_sample_format s with
    | HI16 z, Int => negb (wav_bits_per_sample s =? 8) || ((-128 <=? z) && (z <=? 127))
    | HF32 _, Float => true
    | _, _ => false
    end;
  whole s n := Z.of_nat n mod wav_channels s =? 0;
|}.

Section MemHost.
Context `{C : Chrono} (now : DateTime).

Definition files : Type := gmap string (WavSpec * list HSample).
Definition mem_writer : Type := string * WavSpec * list HSample.

#[local] Instance mem_host : Host files mem_writer := {|
  hound_error := unit;
  utc_now w := (now, w);
  wav_create p s w := (if creates s then Ok (p, s, []) else Err (), delete p w);
  wav_write_sample x wr w :=
    let '(p, s, xs) := wr in
    if accepts s (length xs) x then (Ok (), (p, s, xs ++ [x]), w) else (Err (), wr, w);
  wav_finalize wr w :=
    let '(p, s, xs) := wr in
    if whole s (length xs) then (Ok (), <[p := (s, xs)]> w) else (Err (), w);
  wav_file w p := w !! p;
  wav_pending wr := wr;
|}.

Lemma mem_host_laws : HostLaws files mem_writer.
Proof.
  split.
  - done.
  - intros p s w. cbn [wav_create mem_host]. split.
    + intros q Hq. apply lookup_delete_ne. congruence.
    + destruct (creates s); intros wr [= <-]. split; [done|]. intros s0 xs Hx.
      assert (None = Some (s0, xs)) as [=]. rewrite <- Hx. symmetry. apply lookup_delete_eq.
  - intros x [[p s] xs] w. cbn [wav_write_sample mem_host]. by destruct (accepts s (length xs) x).
  - intros [[p s] xs] w. cbn [wav_finalize mem_host]. destruct (whole s (length xs)); [|done]. split.
    + intros q Hq. apply lookup_insert_ne. congruence.
    + intros _. apply lookup_insert_eq.
Qed.

Lemma mem_host_reliable : HostReliable files mem_writer.
Proof.
  split.
  - intros p s w. cbn [wav_create mem_host fst]. by destruct (creates s).
  - intros x [[p s] xs] w. cbn [wav_write_sample wav_pending mem_host]. by destruct (accepts s (length xs) x).
  - intros [[p s] xs] w. cbn [wav_finalize wav_pending mem_host]. by destruct (whole s (length xs)).
Qed.
End MemHost.

(** ** Witnesses *)

Import LittleEndian.Instances.
#[local] Existing Instance MemStore.chrono_pair.
#[local] Instance files_host : Host files mem_writer := mem_host (0, 0).
#[local] Instance files_laws : HostLaws files mem_writer := mem_host_laws (0, 0).
#[local] Instance files_reliable : HostReliable files mem_writer := mem_host_reliable (0, 0).

Definition u16_spec : Spec := mkSpec 1 44100 16 U16.
Definition dev1 : Uuid := LittleEndian.uuid_nth 9.
Definition rec1 : Uuid := LittleEndian.uuid_nth 1.
Definition loud_chunk : WavChunk Z := mkWavChunk rec1 1 0 ([7; 8] ++ 40000 :: replicate 509 0).
Definition no_files : files := ∅.

Lemma handler_refines_recordings_witness :
  let h := handler_new "wav" u16_spec dev1 in
  let '(h', w', sent) := handle_all h [[]; serialize (w_Audio w_u16) (WavChunkMsg loud_chunk)] no_files in
  let r := foldl (rec_bytes u16_spec) no_recordings [[]; serialize (w_Audio w_u16) (WavChunkMsg loud_chunk)] in
  (forall i, is_Some (writers h' !! i) <-> is_Some (r_open r !! i)) /\
  (forall i xs, r_stored r !! i = Some xs -> wav_file w' (wav_path h i) = Some (spec_to_wav u16_spec, xs)) /\
  map untimed sent = map (event_of h) (r_ended r).
Proof. apply (handler_refines_recordings "wav" u16_spec dev1 [[]; serialize (w_Audio w_u16) (WavChunkMsg loud_chunk)] no_files). Defined.

(** The chunk of 512 samples of a stream with three channels: the end of the
    recording is an error of [hound], and neither a file nor an event comes of
    it. *)
Definition three_channels : Spec := mkSpec 3 44100 16 U16.
Definition full_chunk (i : Uuid) : WavChunk Z := mkWavChunk i 1 0 (payload_default (T := Z)).
Definition one_chunk (i : Uuid) : list (list byte) :=
  [serialize (w_Audio w_u16) (WavChunkMsg (full_chunk i)); serialize (w_Audio w_u16) (WavEnd i)].

Example three_channels_are_lost :
  let '(h', w', sent) := handle_all (handler_new "wav" three_channels dev1) (one_chunk rec1) no_files in
  (base.size (writers h'), base.size w', length sent) = (0, 0, 0)%nat.
Proof. vm_compute. reflexivity. Qed.

Lemma loud_u16_chunk_is_cut_witness :
  let h := handler_new "wav" u16_spec dev1 in
  let '(h', w', sent) := handle_all h (replicate 2 (serialize (w_Audio w_u16) (WavChunkMsg loud_chunk))) no_files in
  sent = [] /\ exists aw wr, writers h' !! rec1 = Some aw /\ aw_inner aw = Some wr /\ aw_seq aw = 0 /\
    wav_pending wr = (wav_path h rec1, spec_to_wav u16_spec, concat (replicate 2 (map HI16 [7; 8]))).
Proof.
  apply (loud_u16_chunk_is_cut "wav" u16_spec dev1 no_files loud_chunk [7; 8] (replicate 509 0) 40000 1).
  - reflexivity.
  - reflexivity.
  - reflexivity.
  - reflexivity.
  - repeat constructor; discriminate.
  - reflexivity.
  - split; [reflexivity|]. intros k x Hx. apply list_elem_of_lookup_2 in Hx.
    repeat (apply elem_of_cons in Hx as [->|Hx]; [reflexivity|]). by apply not_elem_of_nil in Hx.
Defined.

(** A recording of one chunk of silence was finished; the loud chunk comes
    late. *)
Lemma late_chunk_erases_recording_witness :
  let wire := w_Audio w_u16 in
  let h := handler_new "wav" u16_spec dev1 in
  let '(h0, w0, _) := handle_all h (one_chunk rec1) no_files in
  let '(h1, w1, sent1) := handle h0 (serialize wire (WavChunkMsg loud_chunk)) w0 in
  let '(h2, w2, sent2) := handle h1 (serialize wire (WavEnd rec1)) w1 in
  (exists xs, length xs = 512%nat /\ wav_file w0 (wav_path h rec1) = Some (spec_to_wav u16_spec, xs)) /\
  blank (wav_path h rec1) w1 /\ wav_file w2 (wav_path h rec1) = Some (spec_to_wav u16_spec, [HI16 7; HI16 8]) /\
  map untimed sent2 = [event_of h rec1].
Proof.
  assert (match r_stored (foldl (rec_bytes u16_spec) no_recordings (one_chunk rec1)) !! rec1 with
    Some xs => (length xs =? 512)%nat | None => false end = true) as Hlen by (vm_compute; reflexivity).
  destruct (r_stored (foldl (rec_bytes u16_spec) no_recordings (one_chunk rec1)) !! rec1) as [xs|] eqn:Hxs; [|discriminate Hlen].
  pose proof (late_chunk_erases_recording "wav" u16_spec dev1 no_files (one_chunk rec1) loud_chunk xs Hxs eq_refl eq_refl) as H.
  cbv zeta. change (id loud_chunk) with rec1 in H. change (w_Audio (sample_wire (sample_format u16_spec))) with (w_Audio w_u16) in H.
  destruct (handle_all _ (one_chunk rec1) no_files) as [[h0 w0] sent0].
  destruct (handle h0 _ w0) as [[h1 w1] sent1]. destruct (handle h1 _ w1) as [[h2 w2] sent2].
  destruct H as (_ & H0 & _ & _ & H1 & _ & H2 & _). destruct (H2 eq_refl) as [Hf Hs].
  split; [exists xs; split; [by apply Nat.eqb_eq|exact H0]|]. split; [exact H1|]. split; [exact Hf|exact Hs].
Defined.
