(* ===== verification/AudioFailures.v ===== *)
(** * Recordings on a host that fails

    The audio handler when files can not be created, samples not be written or
    files not be finished: the theorems of [AudioHandler] assume a host on which
    only the rules of [hound] make a call fail, here any call may. *)
From S2P Require Import Prelude MachineInt Float32 Bincode Audio AudioHandler.
From S2P Require DbTypes LittleEndian MemStore.
Import DbTypes(Chrono, DateTime, NewEvent).
Open Scope Z_scope.

Section Failures.
Context `{U : UuidOps} `{UL : !UuidLaws} `{C : Chrono} {W Wr : Type} `{Ho : !Host W Wr}
  `{HL : !HostLaws W Wr} `{B : !Bincode}.

#[local] Arguments AudioWriter {U C} Wr.
#[local] Arguments AudioHandler {U C} Wr.

(** ** What the handler logs *)

(** [handle] up to the error that it logs. *)
Definition handle_result (h : AudioHandler Wr) (buf : list byte) (w : W)
    : result () AnyError * AudioHandler Wr * W * list NewEvent :=
  match sample_format (h_spec h) with
  | U16 => handler_write w_u16 u16_to_i16 h buf w
  | I16 => handler_write w_i16 i16_to_i16 h buf w
  | F32 => handler_write w_f32 f32_to_f32 h buf w
  end.

Definition is_hound_error (r : result () AnyError) : bool :=
  match r with Err (HoundError _) => true | _ => false end.

(** For each buffer, whether an error of [hound] was logged. *)
Definition handle_log (h : AudioHandler Wr) (bufs : list (list byte)) (w : W)
    : AudioHandler Wr * W * list NewEvent * list bool :=
  foldl (fun '(h, w, sent, log) buf =>
    let '(r, h, w, sent') := handle_result h buf w in (h, w, sent ++ sent', log ++ [is_hound_error r])) (h, w, [], []) bufs.

(** ** Specification *)

(** What failed while a message was handled. *)
Inductive outcome : Type := NothingFailed | CreateFailed | WriteFailed | FinalizeFailed.
Definition failed (o : outcome) : bool := match o with NothingFailed => false | _ => true end.

(** As [recordings], but a recording in progress may have lost its samples. *)
Record io_recordings : Type := mkIo {
  io_open : gmap Uuid (Z * option (list HSample));
  io_stored : gmap Uuid (list HSample);
  io_ended : list Uuid;
}.
Definition io_none : io_recordings := mkIo ∅ ∅ [].

Definition io_entry {T} (into : T -> option HSample) (o : outcome) (c : WavChunk T) (e : Z * option (list HSample))
    : Z * option (list HSample) :=
  let '(sq, xs) := e in
  if sq <? seq c then
    match o with
    | WriteFailed => (sq, None)
    | _ => let (ys, ok) := converted into (payload c) in (if ok then seq c else sq, (fun xs => xs ++ ys) <$> xs)
    end
  else (sq, xs).

(** A failed creation leaves no recording, and nothing known of the file. *)
Definition io_chunk {T} (into : T -> option HSample) (o : outcome) (c : WavChunk T) (r : io_recordings) : io_recordings :=
  match io_open r !! id c, o with
  | None, CreateFailed => mkIo (io_open r) (delete (id c) (io_stored r)) (io_ended r)
  | None, _ => mkIo (<[id c := io_entry into o c (0, Some [])]> (io_open r)) (delete (id c) (io_stored r)) (io_ended r)
  | Some e, _ => mkIo (<[id c := io_entry into o c e]> (io_open r)) (io_stored r) (io_ended r)
  end.

(** A failed end sends no event; one that succeeds stores the samples, if they
    are known. *)
Definition io_end (o : outcome) (i : Uuid) (r : io_recordings) : io_recordings :=
  match io_open r !! i, o with
  | Some _, FinalizeFailed => mkIo (delete i (io_open r)) (delete i (io_stored r)) (io_ended r)
  | Some (_, xs), _ => mkIo (delete i (io_open r)) (partial_alter (fun _ => xs) i (io_stored r)) (io_ended r ++ [i])
  | None, _ => r
  end.

Definition io_step {T} (into : T -> option HSample) (o : outcome) (r : io_recordings) (a : Audio T) : io_recordings :=
  match a with
  | WavChunkMsg c => io_chunk into o c r
  | WavEnd i => io_end o i r
  | _ => r
  end.

Definition io_bytes (f : SampleFormat) (r : io_recordings) (x : outcome * list byte) : io_recordings :=
  match deserialize (w_Audio (sample_wire f)) (snd x) with
  | Ok a => io_step (sample_into f) (fst x) r a
  | Err _ => r
  end.

(** ** The handler implements it *)

(** The writer of recording [i]; its samples may be unknown. *)
Definition io_writing (h : AudioHandler Wr) (i : Uuid) (aw : AudioWriter Wr) (e : Z * option (list HSample)) : Prop :=
  exists wr ys, aw_inner aw = Some wr /\ aw_id aw = i /\ aw_device_id aw = h_device_id h /\ aw_seq aw = fst e /\
    fst (wav_pending wr) = (wav_path h i, spec_to_wav (h_spec h)) /\
    (wav_pending wr = (wav_path h i, spec_to_wav (h_spec h), ys) /\ snd e = Some ys \/ snd e = None).

Record io_refines (h : AudioHandler Wr) (w : W) (sent : list NewEvent) (r : io_recordings) : Prop := {
  iof_open : forall i, option_Forall2 (io_writing h i) (writers h !! i) (io_open r !! i);
  iof_stored : forall i xs, io_stored r !! i = Some xs -> io_open r !! i = None /\
    wav_file w (wav_path h i) = Some (spec_to_wav (h_spec h), xs);
  iof_sent : map untimed sent = map (event_of h) (io_ended r);
}.

Lemma io_write_samples {T} (into : T -> option HSample) samples wr w p s :
  fst (wav_pending wr) = (p, s) ->
  let '(r, wr', w') := write_samples into samples wr w in
  only p w w' /\ fst (wav_pending wr') = (p, s) /\
  (is_hound_error r = false -> wav_pending wr' = (p, s, snd (wav_pending wr) ++ fst (converted into samples)) /\
    is_ok r = snd (converted into samples)).
Proof.
  revert wr w. induction samples as [|x samples IH]; intros wr w Hp; cbn [write_samples converted].
  { split_and!; [apply only_refl|done|]. intros _. rewrite app_nil_r, <- Hp. split; [|done]. by destruct (wav_pending wr). }
  destruct (into x) as [y|].
  2: { split_and!; [apply only_refl|done|]. intros _. cbn. rewrite app_nil_r, <- Hp. split; [|done]. by destruct (wav_pending wr). }
  pose proof (write_spec y wr w) as Hs. destruct (wav_write_sample y wr w) as [[[[]|e] wr1] w1].
  - destruct (wav_pending wr) as [[p0 s0] xs]. cbn in Hp. injection Hp as -> ->. destruct Hs as (Ho1 & Hp1 & Hok & _).
    specialize (IH wr1 w1 Hp1). destruct (write_samples into samples wr1 w1) as [[r wr2] w2].
    destruct IH as (Ho2 & Hp2 & Hr). split_and!; [by eapply only_trans|done|].
    intros Hn. destruct (Hr Hn) as [-> Hc]. rewrite (Hok eq_refl). cbn [snd fst]. destruct (converted into samples) as [ys ok]. cbn in *.
    by rewrite <- app_assoc.
  - destruct (wav_pending wr) as [[p0 s0] xs]. cbn in Hp. injection Hp as -> ->. destruct Hs as (Ho1 & Hp1 & _).
    split_and!; done.
Qed.

Lemma io_writer_write {T} (into : T -> option HSample) (h : AudioHandler Wr) i aw (c : WavChunk T) e w :
  io_writing h i aw e ->
  let '(r, aw', w') := writer_write into aw c w in
  only (wav_path h i) w w' /\
  io_writing h i aw' (io_entry into (if is_hound_error r then WriteFailed else NothingFailed) c e).
Proof.
  intros (wr & ys & Hin & Hid & Hdev & Hseq & Hp & Hys). destruct e as [sq xs]. unfold writer_write, io_entry.
  rewrite Hin, Hseq. cbn [fst snd] in *. destruct (sq <? seq c) eqn:Hlt.
  2: { split; [apply only_refl|]. exists wr, ys. cbn. done. }
  pose proof (io_write_samples into (payload c) wr w _ _ Hp) as Hs.
  destruct (write_samples into (payload c) wr w) as [[r wr'] w']. destruct Hs as (Ho' & Hp' & Hr). split; [done|].
  destruct (is_hound_error r) eqn:He.
  - exists wr', []. cbn. split_and!; try done; [by destruct r|by right].
  - destruct (Hr eq_refl) as [Hpend Hok]. destruct (converted into (payload c)) as [zs ok].
    exists wr', (ys ++ zs). cbn in *. split_and!; try done; [by destruct r, ok|].
    destruct Hys as [[Hy ->]| ->]; [left|by right]. by rewrite Hpend, Hy.
Qed.

Lemma io_ensure_writer (h : AudioHandler Wr) i w o :
  option_Forall2 (io_writing h i) (writers h !! i) o ->
  match ensure_writer h i w with
  | (Ok aw, h', w') => io_writing h i aw (default (0, Some []) o) /\ only (wav_path h i) w w' /\
      (forall aw', with_writers h' (<[i := aw']> (writers h')) = with_writers h (<[i := aw']> (writers h)))
  | (Err e, h', w') => o = None /\ h' = h /\ only (wav_path h i) w w' /\ is_hound_error (Err e) = true
  end.
Proof.
  unfold ensure_writer. inversion 1 as [aw e He|]; cbn; [by auto using only_refl|].
  unfold writer_new. pose proof (create_spec (wav_path h i) (spec_to_wav (h_spec h)) w) as Hs.
  destruct (wav_create _ _ w) as [[wr|err] w']; [|by destruct Hs]. destruct Hs as [Hw Hp].
  destruct (utc_now w') as [now w2] eqn:En. split_and!.
  - exists wr, []. cbn. rewrite (proj1 (Hp wr eq_refl)). split_and!; try done. by left.
  - intros q Hq. rewrite <- Hw by done. replace w2 with (snd (utc_now w')) by (by rewrite En). apply now_spec.
  - intros aw'. cbn. by rewrite insert_insert_eq.
Qed.

Lemma io_finalize (h : AudioHandler Wr) i aw e w :
  io_writing h i aw e ->
  let '(r, w', sent) := finalize_writer aw w in
  only (wav_path h i) w w' /\
  match r with
  | Ok _ => (forall xs, snd e = Some xs -> wav_file w' (wav_path h i) = Some (spec_to_wav (h_spec h), xs)) /\
      map untimed sent = [event_of h i]
  | Err _ => sent = [] /\ is_hound_error r = true
  end.
Proof.
  intros (wr & ys & Hin & Hid & Hdev & Hseq & Hp & Hys). unfold finalize_writer, finalize_as_new_event. rewrite Hin.
  pose proof (finalize_spec wr w) as Hs. destruct (wav_finalize wr w) as [[[]|err] w'].
  - destruct (wav_pending wr) as [[p s] xs]. cbn in Hp. injection Hp as -> ->. destruct Hs as [Hw Hf].
    destruct (utc_now w') as [now w2] eqn:En.
    assert (forall q, wav_file w2 q = wav_file w' q) as Hnow.
    { intros q. replace w2 with (snd (utc_now w')) by (by rewrite En). apply now_spec. }
    split_and!; [intros q Hq; rewrite Hnow; by apply Hw| |by cbn; rewrite Hid, Hdev].
    intros zs Hz. rewrite Hnow, Hf by done. destruct Hys as [[[= <-] Hy]|Hy]; congruence.
  - destruct (wav_pending wr) as [[p s] xs]. cbn in Hp. injection Hp as -> ->. by destruct Hs.
Qed.

Lemma io_refines_chunk {T} (into : T -> option HSample) (h : AudioHandler Wr) w sent r (c : WavChunk T) o e aw w' :
  io_refines h w sent r -> only (wav_path h (id c)) w w' -> io_writing h (id c) aw e ->
  io_chunk into o c r = mkIo (<[id c := e]> (io_open r))
    (match io_open r !! id c with Some _ => io_stored r | None => delete (id c) (io_stored r) end) (io_ended r) ->
  io_refines (with_writers h (<[id c := aw]> (writers h))) w' sent (io_chunk into o c r).
Proof.
  intros [Hopen Hst Hsent] Hw Haw ->. split; cbn; [| |done].
  - intros j. destruct (decide (j = id c)) as [->|Hne].
    + rewrite !lookup_insert, !decide_True by done. by constructor.
    + rewrite !lookup_insert_ne by done. apply Hopen.
  - intros j xs Hj. assert (j <> id c /\ io_stored r !! j = Some xs) as [Hne Hj'].
    { destruct (io_open r !! id c) eqn:E.
      - split; [|done]. intros ->. apply Hst in Hj as [? _]. congruence.
      - by apply lookup_delete_Some in Hj as [??]. }
    apply Hst in Hj' as [Ho' Hf]. rewrite lookup_insert_ne by done. split; [done|].
    change (wav_file w' (wav_path h j) = Some (spec_to_wav (h_spec h), xs)). by rewrite (only_other h (id c) j w w').
Qed.

Lemma io_refines_end (h : AudioHandler Wr) w sent r i aw :
  io_refines h w sent r -> writers h !! i = Some aw ->
  let '(res, w', sent') := finalize_writer aw w in
  exists o, failed o = is_hound_error res /\
    io_refines (with_writers h (delete i (writers h))) w' (sent ++ sent') (io_end o i r).
Proof.
  intros [Hopen Hst Hsent] Haw. pose proof (Hopen i) as Hi. rewrite Haw in Hi.
  assert (exists e, io_open r !! i = Some e /\ io_writing h i aw e) as ([sq xs] & Hr & Hwr) by (inversion Hi; eauto).
  pose proof (io_finalize h i aw _ w Hwr) as Hf. destruct (finalize_writer aw w) as [[res w'] sent']. destruct Hf as [Hw Hf].
  assert (forall P : Prop, forall stored', (forall j, j <> i -> stored' !! j = io_stored r !! j) ->
    (forall xs, stored' !! i = Some xs -> wav_file w' (wav_path h i) = Some (spec_to_wav (h_spec h), xs)) ->
    forall ended', map untimed (sent ++ sent') = map (event_of h) ended' ->
    io_refines (with_writers h (delete i (writers h))) w' (sent ++ sent') (mkIo (delete i (io_open r)) stored' ended')) as Href.
  { intros _ stored' Hoth Hown ended' Hev. split; cbn; [| |done].
    - intros j. destruct (decide (j = i)) as [->|Hji]; [rewrite !lookup_delete_eq; constructor|].
      rewrite !lookup_delete_ne by done. apply Hopen.
    - intros j ys Hj. destruct (decide (j = i)) as [->|Hji].
      + rewrite lookup_delete_eq. split; [done|]. by apply Hown.
      + rewrite lookup_delete_ne by done. rewrite Hoth in Hj by done. apply Hst in Hj as [? <-]. split; [done|].
        by apply (only_other h i). }
  destruct res as [[]|err].
  - destruct Hf as [Hf Hev]. exists NothingFailed. split; [done|]. unfold io_end. rewrite Hr. apply Href; [exact True| | |].
    + intros j Hj. by apply lookup_partial_alter_ne.
    + intros ys. rewrite lookup_partial_alter_eq. by apply Hf.
    + by rewrite !map_app, Hsent, Hev.
  - destruct Hf as [-> He]. exists FinalizeFailed. split; [done|]. unfold io_end. rewrite Hr. apply Href; [exact True| | |].
    + intros j Hj. by apply lookup_delete_ne.
    + intros ys. by rewrite lookup_delete_eq.
    + by rewrite app_nil_r.
Qed.

Lemma io_handler_write (wt : Wire Z) into (h : AudioHandler Wr) buf w sent r :
  io_refines h w sent r ->
  let '(res, h', w', sent') := handler_write wt into h buf w in
  exists o, failed o = is_hound_error res /\ same_config h h' /\
    io_refines h' w' (sent ++ sent')
      (match deserialize (w_Audio wt) buf with Ok a => io_step into o r a | Err _ => r end).
Proof.
  intros Hr. unfold handler_write.
  destruct (deserialize (w_Audio wt) buf) as [a|e]; [|exists NothingFailed; rewrite app_nil_r; auto using same_config_refl].
  destruct a as [|sec sp|c|i]; cbn [io_step]; try (exists NothingFailed; rewrite app_nil_r; auto using same_config_refl).
  - pose proof (io_ensure_writer h (id c) w _ (iof_open _ _ _ _ Hr (id c))) as He.
    destruct (ensure_writer h (id c) w) as [[[aw|e] h1] w1].
    + destruct He as (Haw & Hw1 & Hc). pose proof (io_writer_write into h (id c) aw c _ w1 Haw) as Hww.
      destruct (writer_write into aw c w1) as [[res aw'] w2]. destruct Hww as [Hw2 Haw']. rewrite app_nil_r, Hc.
      exists (if is_hound_error res then WriteFailed else NothingFailed). split; [by destruct (is_hound_error res)|]. split; [done|].
      eapply io_refines_chunk; [done|by eapply only_trans|done|]. unfold io_chunk.
      destruct (io_open r !! id c); cbn; [done|]. by destruct (is_hound_error res).
    + destruct He as (Hn & -> & Hw & He). exists CreateFailed. split; [done|]. split; [apply same_config_refl|]. rewrite app_nil_r.
      unfold io_chunk. rewrite Hn. destruct Hr as [Hopen Hst Hsent]. split; cbn; [done| |done].
      intros j xs [Hne Hj]%lookup_delete_Some. apply Hst in Hj as [? <-]. split; [done|]. by apply (only_other h (id c)).
  - destruct (writers h !! i) as [aw|] eqn:Haw.
    + pose proof (io_refines_end h w sent r i aw Hr Haw) as He. destruct (finalize_writer aw w) as [[res w'] sent'].
      destruct He as (o & Ho' & Hr'). by exists o.
    + exists NothingFailed. split; [done|]. split; [apply same_config_refl|]. rewrite app_nil_r.
      pose proof (iof_open _ _ _ _ Hr i) as Hi. rewrite Haw in Hi. unfold io_end.
      assert (io_open r !! i = None) as -> by (by inversion Hi). done.
Qed.

Lemma io_handle (h : AudioHandler Wr) buf w sent r :
  io_refines h w sent r ->
  let '(res, h', w', sent') := handle_result h buf w in
  exists o, failed o = is_hound_error res /\ same_config h h' /\
    io_refines h' w' (sent ++ sent') (io_bytes (sample_format (h_spec h)) r (o, buf)).
Proof.
  intros Hr. unfold handle_result, io_bytes, sample_wire, sample_into. destruct (sample_format (h_spec h)).
  - apply (io_handler_write w_u16 u16_to_i16 h buf w sent r Hr).
  - apply (io_handler_write w_i16 i16_to_i16 h buf w sent r Hr).
  - apply (io_handler_write w_f32 f32_to_f32 h buf w sent r Hr).
Qed.

Lemma io_handle_log (h : AudioHandler Wr) bufs w :
  io_refines h w [] io_none ->
  let '(h', w', sent, log) := handle_log h bufs w in
  exists os, map failed os = log /\ length os = length bufs /\ same_config h h' /\
    io_refines h' w' sent (foldl (io_bytes (sample_format (h_spec h))) io_none (zip os bufs)).
Proof.
  intros Hr. unfold handle_log. induction bufs as [|buf bufs IH] using rev_ind.
  { exists []. auto using same_config_refl. }
  rewrite foldl_snoc. destruct (foldl _ _ bufs) as [[[h1 w1] sent1] log1]. destruct IH as (os & Hos & Hlen & Hc & Hr1).
  pose proof (io_handle h1 buf w1 sent1 _ Hr1) as H. destruct (handle_result h1 buf w1) as [[[res h2] w2] sent2].
  destruct H as (o & Ho' & Hc2 & Hr2). exists (os ++ [o]). split_and!.
  - by rewrite map_app, Hos; cbn; rewrite Ho'.
  - by rewrite !length_app, Hlen.
  - by eapply same_config_trans.
  - rewrite (zip_with_app _ os [o] bufs [buf]) by done. cbn [zip_with]. rewrite foldl_snoc.
    by rewrite (same_config_spec _ _ Hc) in Hr2.
Qed.

(** The log does not change what [handle] does. *)
Lemma handle_log_handle_all (h : AudioHandler Wr) bufs w : fst (handle_log h bufs w) = handle_all h bufs w.
Proof.
  unfold handle_log, handle_all. induction bufs as [|buf bufs IH] using rev_ind; [done|].
  rewrite !foldl_snoc, <- IH. destruct (foldl _ _ bufs) as [[[h1 w1] sent1] log1]. cbn [fst].
  unfold AudioHandler.handle, handle_result.
  destruct (sample_format (h_spec h1)); by destruct (handler_write _ _ h1 buf w1) as [[[? ?] ?] ?].
Qed.

(** ** Property *)

(** C5: the handler on a host that may fail at any call. There is an account
    of the failures, one for each message whose handling logged an error of
    [hound] and none for the others, with which the handler implements the
    recordings: it sends an event for exactly the recordings whose file was
    finished, and a file finished without a failed write of its recording holds
    exactly the samples received, whatever failed for other recordings. *)
Theorem recordings_despite_failures (dir : string) (spec : Spec) (dev : Uuid) (bufs : list (list byte)) (w : W) :
  let h := handler_new dir spec dev in
  let '(h', w', sent, log) := handle_log h bufs w in
  handle_all h bufs w = (h', w', sent) /\
  exists os, map failed os = log /\ length os = length bufs /\
    let r := foldl (io_bytes (sample_format spec)) io_none (zip os bufs) in
    (forall i, is_Some (writers h' !! i) <-> is_Some (io_open r !! i)) /\
    (forall i xs, io_stored r !! i = Some xs -> wav_file w' (wav_path h i) = Some (spec_to_wav spec, xs)) /\
    map untimed sent = map (event_of h) (io_ended r).
Proof.
  intros h. pose proof (handle_log_handle_all h bufs w) as Heq.
  assert (io_refines h w [] io_none) as Hr0.
  { split; cbn; [|by intros *; rewrite lookup_empty|done]. intros i. rewrite !lookup_empty. constructor. }
  pose proof (io_handle_log h bufs w Hr0) as H. destruct (handle_log h bufs w) as [[[h' w'] sent] log]. split; [done|].
  destruct H as (os & Hos & Hlen & Hc & [Hop Hst Hs]). exists os. change (h_spec h) with spec in *. split; [done|]. split; [done|]. cbv zeta. split_and!.
  - intros i. apply (Forall2_is_Some _ _ _ (Hop i)).
  - intros i xs Hi. apply Hst in Hi as [_ Hi]. by rewrite (same_config_spec _ _ Hc), (same_config_path _ _ _ Hc) in Hi.
  - rewrite Hs. apply map_ext. intros i. by apply same_config_event.
Qed.
End Failures.

(** ** Witness *)

(** A host in memory that loses the samples from the fourth on of each file. *)
Section Failing.
Context `{C : Chrono} (now : DateTime).
#[local] Instance failing_host : Host files mem_writer := {|
  hound_error := unit;
  utc_now w := (now, w);
  wav_create p s w := (Ok (p, s, []), delete p w);
  wav_write_sample x wr w :=
    let '(p, s, xs) := wr in
    if (length xs <? 3)%nat then (Ok (), (p, s, xs ++ [x]), w) else (Err (), wr, w);
  wav_finalize wr w := let '(p, s, xs) := wr in (Ok (), <[p := (s, xs)]> w);
  wav_file w p := w !! p;
  wav_pending wr := wr;
|}.
Lemma failing_host_laws : HostLaws files mem_writer.
Proof.
  split.
  - done.
  - intros p s w. cbn. split; [intros q Hq; apply lookup_delete_ne; congruence|].
    intros wr [= <-]. split; [done|]. intros s0 xs Hx. assert (None = Some (s0, xs)) as [=]. rewrite <- Hx. symmetry. apply lookup_delete_eq.
  - intros x [[p s] xs] w. cbn [wav_write_sample failing_host]. by destruct (length xs <? 3)%nat.
  - intros [[p s] xs] w. cbn. split.
    + intros q Hq. apply lookup_insert_ne. congruence.
    + intros _. apply lookup_insert_eq.
Qed.
End Failing.

Import LittleEndian.Instances.
#[local] Existing Instance MemStore.chrono_pair.
#[local] Instance failing_files : Host files mem_writer := failing_host (0, 0).
#[local] Instance failing_files_laws : HostLaws files mem_writer := failing_host_laws (0, 0).

Definition full_messages : list (list byte) :=
  [serialize (w_Audio w_u16) (WavChunkMsg loud_chunk); [];
   serialize (w_Audio w_u16) (WavChunkMsg (mkWavChunk rec1 2 0 (replicate 512 5)))].

(** The first chunk is cut by its own loud sample, the third message fails. *)
Lemma recordings_despite_failures_witness :
  snd (handle_log (handler_new "wav" u16_spec dev1) full_messages no_files) = [false; false; true] /\
  let h := handler_new "wav" u16_spec dev1 in
  let '(h', w', sent, log) := handle_log h full_messages no_files in
  handle_all h full_messages no_files = (h', w', sent) /\
  exists os, map failed os = log /\ length os = length full_messages /\
    let r := foldl (io_bytes U16) io_none (zip os full_messages) in
    (forall i, is_Some (writers h' !! i) <-> is_Some (io_open r !! i)) /\
    (forall i xs, io_stored r !! i = Some xs -> wav_file w' (wav_path h i) = Some (spec_to_wav u16_spec, xs)) /\
    map untimed sent = map (event_of h) (io_ended r).
Proof.
  split; [vm_compute; reflexivity|]. apply (recordings_despite_failures "wav" u16_spec dev1 full_messages no_files).
Defined.
