(* ===== verification/Recording.v ===== *)
(** * From the microphone to the file

    The audio client of [AudioSink.v] and the audio handler of [AudioHandler.v]
    composed: the messages of one transmission, serialised and received in
    order, and the file and the event they end in. *)
From S2P Require Import Prelude MachineInt Float32 NoiseGate Bincode Audio AudioSink AudioHandler.
From S2P Require DbTypes LittleEndian MemStore.
Import DbTypes(Chrono).
Open Scope Z_scope.

#[local] Opaque WAV_CHUNK_PAYLOAD_SIZE.

(** ** Lists cut into groups *)

Lemma take_drop_replicate {A} (m a r : nat) (d : A) (l : list A) :
  (a + m <= length l + r)%nat ->
  take m (drop a (l ++ replicate r d)) =
    take m (drop a l) ++ replicate (m - length (take m (drop a l))) d.
Proof.
  intros Hle. rewrite drop_app, take_app, drop_replicate, take_replicate. f_equal. f_equal.
  rewrite length_take, length_drop. lia.
Qed.

Lemma concat_groups {A} (m a n : nat) (l : list A) :
  concat (map (fun k => take m (drop (m * k) l)) (List.seq a n)) = take (m * n) (drop (m * a) l).
Proof.
  revert a. induction n as [|n IH]; intros a; [by rewrite Nat.mul_0_r|].
  cbn [List.seq map concat]. rewrite IH. replace (m * S n)%nat with (m + m * n)%nat by lia.
  rewrite <- take_take_drop, drop_drop. do 3 f_equal. lia.
Qed.

Section Recording.
Context `{U : UuidOps}.

(** The samples of a recording, filled up to a multiple of 512. *)
Definition padded (xs : list Z) : list Z :=
  xs ++ replicate (WAV_CHUNK_PAYLOAD_SIZE * groups xs - length xs) 0.

Lemma length_groups (xs : list Z) : (length xs <= WAV_CHUNK_PAYLOAD_SIZE * groups xs)%nat.
Proof.
  unfold groups, full_groups, aligned. pose proof wav_size_pos.
  pose proof (Nat.div_mod (length xs) WAV_CHUNK_PAYLOAD_SIZE ltac:(lia)) as Hd.
  pose proof (Nat.mod_upper_bound (length xs) WAV_CHUNK_PAYLOAD_SIZE ltac:(lia)).
  destruct (_ =? 0)%nat eqn:E; b2p; nia.
Qed.

Lemma pad_group (xs : list Z) (k : nat) :
  (k < groups xs)%nat ->
  pad (group xs k) = take WAV_CHUNK_PAYLOAD_SIZE (drop (WAV_CHUNK_PAYLOAD_SIZE * k) (padded xs)).
Proof.
  intros Hk. unfold padded. pose proof (length_groups xs). rewrite take_drop_replicate; [done|]. nia.
Qed.

Lemma concat_pads (xs : list Z) (a n : nat) :
  (a + n <= groups xs)%nat ->
  concat (map (fun k => pad (group xs k)) (List.seq a n)) =
    take (WAV_CHUNK_PAYLOAD_SIZE * n) (drop (WAV_CHUNK_PAYLOAD_SIZE * a) (padded xs)).
Proof.
  intros Hn. rewrite <- concat_groups. f_equal. apply map_ext_in. intros k Hk%in_seq. apply pad_group. lia.
Qed.

Lemma length_padded (xs : list Z) : length (padded xs) = (WAV_CHUNK_PAYLOAD_SIZE * groups xs)%nat.
Proof. unfold padded. pose proof (length_groups xs). rewrite length_app, length_replicate. lia. Qed.

(** ** The recordings of the messages of one transmission *)

(** A sample of the stream's format that fits the file's. *)
Definition storable `{!Bincode} (f : SampleFormat) (x : Z) : Prop :=
  wf (sample_wire f) x = true /\ is_Some (sample_into f x).

Lemma converted_all {T} (into : T -> option HSample) (xs : list T) :
  Forall (fun x => is_Some (into x)) xs -> converted into xs = (omap into xs, true).
Proof. induction 1 as [|x xs [y Hy] _ IH]; [done|]. cbn. by rewrite Hy, IH. Qed.

Section Stored.
Context `{HR : HoundRules} (into : Z -> option HSample) (s : WavSpec).

Lemma rec_chunks (i : Uuid) (xs : list Z) (n : nat) :
  Forall (fun x => is_Some (into x)) (padded xs) -> (S n <= groups xs)%nat ->
  fits s (omap into (concat (map (fun k => pad (group xs k)) (List.seq 1 n)))) ->
  foldl (rec_step into s) no_recordings (map (chunk_of i 0 xs) (List.seq 0 (S n))) =
  mkRecordings {[i := (Z.of_nat n, omap into (concat (map (fun k => pad (group xs k)) (List.seq 1 n))))]} ∅ [].
Proof.
  intros Hall. induction n as [|n IH]; intros Hn Hf.
  { cbn [List.seq map foldl rec_step chunk_of concat]. unfold rec_chunk, no_recordings. cbn [id r_open r_stored r_ended].
    by rewrite lookup_empty, (proj1 Hf), delete_empty, insert_empty. }
  rewrite (List.seq_S n 1), map_app, concat_app, omap_app in Hf |- *. cbn [map concat Nat.add] in Hf |- *. rewrite app_nil_r in Hf |- *.
  rewrite List.seq_S, map_app, foldl_app, IH by (lia || by apply fits_app in Hf as [? _]). cbn [map foldl rec_step chunk_of rec_chunk id r_open r_stored r_ended Nat.add].
  unfold rec_chunk. cbn [id r_open r_stored r_ended seq payload]. rewrite lookup_singleton_eq. cbn [r_open r_stored r_ended].
  rewrite insert_singleton_eq, (rec_entry_fits into s _ _ _ (omap into (pad (group xs (S n)))) true).
  - done.
  - cbn [seq]. lia.
  - cbn [payload]. apply converted_all. rewrite pad_group by lia. apply Forall_take, Forall_drop, Hall.
  - exact Hf.
Qed.

Lemma rec_packets (i : Uuid) (xs : list Z) :
  let stored := omap into (drop WAV_CHUNK_PAYLOAD_SIZE (padded xs)) in
  Forall (fun x => is_Some (into x)) (padded xs) -> aligned xs = false -> fits s stored ->
  foldl (rec_step into s) no_recordings (packets i 0 xs) =
  if whole s (length stored) then mkRecordings ∅ {[i := stored]} [i] else mkRecordings ∅ ∅ [].
Proof.
  intros stored Hall Ha Hf. unfold packets. rewrite Ha. assert (exists n, groups xs = S n) as [n Hn].
  { unfold groups. rewrite Ha. exists (full_groups xs). lia. }
  assert (omap into (concat (map (fun k => pad (group xs k)) (List.seq 1 n))) = stored) as Hst.
  { rewrite concat_pads by lia. unfold stored. f_equal. rewrite Nat.mul_1_r, firstn_all2; [done|].
    rewrite length_drop, length_padded, Hn. lia. }
  rewrite Hn, foldl_snoc, rec_chunks by (lia || by rewrite ?Hst). rewrite Hst. cbn [rec_step]. unfold rec_end. cbn [r_open].
  rewrite lookup_singleton_eq. cbn [r_stored r_ended]. by rewrite delete_singleton_eq, insert_empty.
Qed.
End Stored.
End Recording.

(** ** From the client to the server *)

Section EndToEnd.
Context `{U : UuidOps} `{UL : !UuidLaws} `{C : Chrono} {W Wr : Type} `{Ho : !Host W Wr}
  `{HL : !HostLaws W Wr} `{HR : HoundRules} `{HT : !HostReliable W Wr} `{B : !Bincode} `{BL : !BincodeLaws} {P : Profile}.

Lemma default_storable f : storable f 0.
Proof. destruct f; (split; [reflexivity|by eexists]). Qed.

Lemma padded_storable f xs : Forall (storable f) xs -> Forall (storable f) (padded xs).
Proof. intros Hxs. apply Forall_app. split; [done|]. apply Forall_replicate, default_storable. Qed.

(** The packets of a transmission are messages of the format. *)
Lemma packets_wf f (i : Uuid) (xs : list Z) :
  Forall (storable f) xs -> Z.of_nat (groups xs) < 2 ^ 32 ->
  Forall (fun a => wf (w_Audio (sample_wire f)) a = true) (packets i 0 xs).
Proof.
  intros Hxs Hlt. unfold packets. apply Forall_app. split; [|by destruct (aligned xs); repeat constructor].
  apply Forall_map, Forall_forall. intros k Hk%list_elem_of_In%in_seq. cbn [chunk_of].
  change (in_u 32 (0 + Z.of_nat k) && (in_u 8 (wrap_u 8 (Z.of_nat (length (group xs k)))) &&
    payload_wf (sample_wire f) (pad (group xs k))) = true).
  apply andb_true_intro. split; [apply in_u_iff; lia|]. apply andb_true_intro. split.
  { apply in_u_iff. by apply wrap_u_range. }
  unfold payload_wf. apply andb_true_intro. split.
  - apply Nat.eqb_eq, length_pad. unfold group. rewrite length_take. lia.
  - rewrite pad_group by lia. apply forallb_forall. intros x Hx%list_elem_of_In.
    pose proof (padded_storable f xs Hxs) as Hp. apply (Forall_drop _ (WAV_CHUNK_PAYLOAD_SIZE * k)), (Forall_take _ WAV_CHUNK_PAYLOAD_SIZE) in Hp.
    rewrite Forall_forall in Hp. by apply Hp.
Qed.

Lemma foldl_packets sp (i : Uuid) (xs : list Z) :
  let f := sample_format sp in
  let stored := omap (sample_into f) (drop WAV_CHUNK_PAYLOAD_SIZE (padded xs)) in
  Forall (storable f) xs -> Z.of_nat (groups xs) < 2 ^ 32 -> aligned xs = false -> fits (spec_to_wav sp) stored ->
  foldl (rec_bytes sp) no_recordings (map (serialize (w_Audio (sample_wire f))) (packets i 0 xs)) =
  if whole (spec_to_wav sp) (length stored) then mkRecordings ∅ {[i := stored]} [i] else mkRecordings ∅ ∅ [].
Proof.
  intros f stored Hxs Hb Ha Hf. rewrite foldl_rec_bytes by (by apply packets_wf). apply rec_packets; [|done|done].
  eapply Forall_impl; [by apply (padded_storable f)|]. by intros x [_ ?].
Qed.

(** C1: a recording, from the client's sink to the server's disk. The sink has
    ended a transmission before; the samples of this one can be stored in the
    format of the file, are not a multiple of 512 and no more than a [u32]
    counts chunks; its messages are received in order and without loss by a
    fresh handler, on a host that fails by the rules of [hound] only, and a file
    of the stream's format takes the samples. Then no recording is in progress;
    if the samples of the file fill the channels, it is readable in the stream's
    format at <directory>/<id>.wav and one sound event names it, and otherwise
    there is no event. But the file is not the recording: its first 512 samples
    are missing, as the handler takes no chunk of sequence number 0, and it is
    filled up with silence to a multiple of 512, as the number of samples of a
    chunk is not looked at. *)
Theorem recording_reaches_disk (new_v4 : nat -> Uuid) (s : AudioSink Z (list (Audio Z))) (xs : list Z) (i : Uuid)
    (dir : string) (sp : Spec) (dev : Uuid) (w : W) :
  holds s [] -> first_payload_ignored s = true -> buf_id_seq s = (i, 0) -> inner s = [] ->
  Z.of_nat (groups xs) < 2 ^ 32 -> aligned xs = false -> Forall (storable (sample_format sp)) xs ->
  let ys := omap (sample_into (sample_format sp)) (drop 512 (xs ++ replicate (512 * groups xs - length xs) 0)) in
  fits (spec_to_wav sp) ys ->
  exists s', @replay Z _ (audio_sink new_v4) s (map Record_ xs ++ [EndOfTransmission]) = Some s' /\
  let h := handler_new dir sp dev in
  let '(h', w', sent) := handle_all h (map (serialize (w_Audio (sample_wire (sample_format sp)))) (inner s')) w in
  (forall j, writers h' !! j = None) /\
  if whole (spec_to_wav sp) (length ys)
  then map untimed sent = [event_of h i] /\ wav_file w' (wav_path h i) = Some (spec_to_wav sp, ys)
  else sent = [].
Proof.
  intros Hs Hfirst Hid Hin Hb Ha Hxs ys Hfit. eexists. split; [apply replay_transmission with (i := i) (sq := 0); [done..|lia|lia]|].
  cbn [inner]. rewrite Hin, app_nil_l. cbn zeta. set (h := handler_new dir sp dev).
  pose proof (handle_all_refines (map (serialize (w_Audio (sample_wire (sample_format sp)))) (packets i 0 xs)) h w _
    (refines_new dir sp dev w)) as H.
  destruct (handle_all h _ w) as [[h' w'] sent]. destruct H as ([Hop Hst Hsent] & Hc).
  change (h_spec h) with sp in *.
  assert (foldl (rec_bytes sp) no_recordings (map (serialize (w_Audio (sample_wire (sample_format sp)))) (packets i 0 xs)) =
    if whole (spec_to_wav sp) (length ys) then mkRecordings ∅ {[i := ys]} [i] else mkRecordings ∅ ∅ []) as Heq
    by exact (foldl_packets sp i xs Hxs Hb Ha Hfit).
  rewrite Heq in *.
  destruct (whole (spec_to_wav sp) (length ys)); cbn [r_open r_stored r_ended] in *; (split; [|try split]).
  - intros j. pose proof (Hop j) as Hj. rewrite lookup_empty in Hj. by inversion Hj.
  - rewrite Hsent. cbn. by rewrite (same_config_event _ _ i Hc).
  - specialize (Hst i _ (lookup_singleton_eq _ _)) as [_ Hf].
    by rewrite (same_config_spec _ _ Hc), (same_config_path _ _ _ Hc) in Hf.
  - intros j. pose proof (Hop j) as Hj. rewrite lookup_empty in Hj. by inversion Hj.
  - by apply map_eq_nil in Hsent.
Qed.
End EndToEnd.

(** ** Witness *)

Import LittleEndian.Instances.
#[local] Existing Instance MemStore.chrono_pair.
#[local] Instance files_host : Host files mem_writer := mem_host (0, 0).
#[local] Instance files_laws : HostLaws files mem_writer := mem_host_laws (0, 0).
#[local] Existing Instance hound_rules.
#[local] Instance files_reliable : HostReliable files mem_writer := mem_host_reliable (0, 0).
#[local] Instance release_build : Profile := false.

Definition sink0 : AudioSink Z (list (Audio Z)) :=
  mkAudioSink [] 5 u16_spec payload_default 0 (rec1, 0) true 1.

Lemma ramp_storable : Forall (storable U16) (ramp 600).
Proof.
  apply Forall_map, Forall_forall. intros k Hk%list_elem_of_In%in_seq. split.
  - apply in_u_iff. lia.
  - cbn. unfold u16_to_i16. replace (Z.of_nat k <=? i16_MAX) with true; [by eexists|].
    symmetry. apply Z.leb_le. unfold i16_MAX. lia.
Qed.

Definition stored600 : list HSample :=
  omap u16_to_i16 (drop 512 (ramp 600 ++ replicate (512 * groups (ramp 600) - length (ramp 600)) 0)).

(** A file of [u16_spec] takes any 16-bit samples. *)
Lemma u16_fits (xs : list Z) : fits (spec_to_wav u16_spec) (omap u16_to_i16 xs).
Proof.
  split; [reflexivity|]. intros k x Hx%list_elem_of_lookup_2. apply list_elem_of_omap in Hx as (y & _ & Hy).
  unfold u16_to_i16 in Hy. by destruct (y <=? i16_MAX); simplify_eq.
Qed.

Lemma recording_reaches_disk_witness :
  exists s', @replay Z _ (audio_sink (U := LittleEndian.uuid16_ops) LittleEndian.uuid_nth) sink0 (map Record_ (ramp 600) ++ [EndOfTransmission]) = Some s' /\
  let h := handler_new "wav" u16_spec dev1 in
  let '(h', w', sent) := handle_all h (map (serialize (w_Audio w_u16)) (inner s')) no_files in
  (forall j, writers h' !! j = None) /\ map untimed sent = [event_of h rec1] /\
  wav_file w' (wav_path h rec1) = Some (spec_to_wav u16_spec, stored600).
Proof.
  destruct (recording_reaches_disk (U := LittleEndian.uuid16_ops) LittleEndian.uuid_nth sink0 (ramp 600) rec1 "wav" u16_spec dev1 no_files)
    as (s' & Hr & H).
  - split; [reflexivity|split; [reflexivity|apply wav_size_pos]].
  - reflexivity.
  - reflexivity.
  - reflexivity.
  - reflexivity.
  - reflexivity.
  - apply ramp_storable.
  - apply u16_fits.
  - exists s'. split; [exact Hr|]. cbv zeta in H |- *.
    change (w_Audio (sample_wire (sample_format u16_spec))) with (w_Audio w_u16) in H.
    destruct (handle_all _ _ no_files) as [[h' w'] sent]. destruct H as [Hn H]. split; [exact Hn|].
    change (omap (sample_into (sample_format u16_spec)) _) with stored600 in H.
    assert (whole (spec_to_wav u16_spec) (length stored600) = true) as Hw by (vm_compute; reflexivity).
    rewrite Hw in H. exact H.
Defined.
