(* ===== verification/EventHandler.v ===== *)
(** * The event server (backend/src/actor/event_server.rs, event_handler.rs)

    One handler per TCP connection: it authenticates the connection by the
    secret of an event, forwards the events to the event processor and answers
    each with one byte. The theorems are on whole connections. *)
From S2P Require Import Prelude MachineInt Bincode.
From S2P Require Event DbTypes LittleEndian MemStore.
Import DbTypes(Chrono, ChronoLaws, Device, device_id, NewEvent, Reply).
Open Scope Z_scope.

Section Connection.
Context `{U : UuidOps} `{C : Chrono} `{B : !Bincode}.

Definition MAGIC_RESPONSE : list byte := [x01].

(** The handler's field [device], and what the connection did so far: whether
    the actor runs, the bytes written to the socket, the messages sent to the
    event processor. *)
Record Connection : Type := mkConnection {
  device : option Device;
  running : bool;
  written : list byte;
  sent : list NewEvent;
}.

(** [EventHandler::new], as [EventServer::handle] creates it for a stream. *)
Definition new : Connection := mkConnection None true [] [].

Definition write (bs : list byte) (c : Connection) : Connection :=
  mkConnection (device c) (running c) (written c ++ bs) (sent c).
Definition do_send (ne : NewEvent) (c : Connection) : Connection :=
  mkConnection (device c) (running c) (written c) (sent c ++ [ne]).

(** [None] is the panic of the conversion; [now] the second of the minute. *)
Definition inner_handle (now : Z) (event : Event.Event) (c : Connection) : option Connection :=
  match device c with
  | Some device =>
      new_event ← DbTypes.new_event_from now event (device_id device);
      Some (write MAGIC_RESPONSE (do_send new_event c))
  | None => Some c
  end.

Definition authenticate (reply : Reply Device) (c : Connection) : Connection :=
  match reply with
  | Ok (Ok device) => mkConnection (Some device) (running c) (written c) (sent c)
  | Ok (Err _) => mkConnection (device c) false (written c) (sent c)
  | Err _ => c
  end.

(** [StreamHandler::handle]; [reply] is the answer to the lookup of a secret.
    The chain of futures is awaited ([wait]) before the next item. *)
Definition handle (event : result Event.Event Event.Error) (reply : Z -> Reply Device) (now : Z) (c : Connection)
    : option Connection :=
  match event with
  | Err _ => Some (write MAGIC_RESPONSE c)
  | Ok event =>
      match device c with
      | None => inner_handle now event (authenticate (reply (Event.secret event)) c)
      | Some _ => inner_handle now event c
      end
  end.

(** The items of a connection, each with the answer the database would give
    and the clock at that moment; a stopped actor handles no more. *)
Record Input : Type := mkInput {
  in_event : result Event.Event Event.Error;
  in_reply : Z -> Reply Device;
  in_now : Z;
}.
Definition step (c : Connection) (i : Input) : option Connection :=
  if running c then handle (in_event i) (in_reply i) (in_now i) c else Some c.
Definition run (c : Connection) (items : list Input) : option Connection := foldM step c items.

(** ** Specification *)

Definition is_event (i : Input) : option (Event.Event * Z) :=
  match in_event i with Ok e => Some (e, in_now i) | Err _ => None end.
Definition undecoded (items : list Input) : nat :=
  length (filter (fun i => is_ok (in_event i) = false) items).

(** What the database answers for the secret of an item. *)
Definition answer (i : Input) : option (Reply Device) :=
  match in_event i with Ok e => Some (in_reply i (Event.secret e)) | Err _ => None end.

(** The item leaves a connection without a device as it is: it is no event, or
    the database actor could not be reached. *)
Definition passes (i : Input) : Prop :=
  match answer i with Some (Ok _) => False | _ => True end.

(** The messages for the events of [items], under the device [d]. *)
Definition forwarded (d : Device) (items : list Input) (nes : list NewEvent) : Prop :=
  Forall2 (fun '(e, now) ne => DbTypes.new_event_from now e (device_id d) = Some ne) (omap is_event items) nes.

(** ** Lemmas *)

Lemma forwarded_snoc d items i nes :
  forwarded d items nes ->
  match is_event i with
  | Some (e, now) => forall ne, DbTypes.new_event_from now e (device_id d) = Some ne -> forwarded d (items ++ [i]) (nes ++ [ne])
  | None => forwarded d (items ++ [i]) nes
  end.
Proof.
  intros Hf. unfold forwarded. rewrite omap_app. cbn. destruct (is_event i) as [[e now]|].
  - intros ne Hne. apply Forall2_app; [done|]. by repeat constructor.
  - by rewrite app_nil_r.
Qed.

Lemma undecoded_snoc items i :
  undecoded (items ++ [i]) = (undecoded items + if is_ok (in_event i) then 0 else 1)%nat.
Proof.
  unfold undecoded. rewrite filter_app, length_app. f_equal. rewrite filter_cons.
  by destruct (is_ok (in_event i)); case_decide.
Qed.

Lemma replicate_snoc n : replicate n x01 ++ MAGIC_RESPONSE = replicate (n + 1) x01.
Proof. by rewrite replicate_add. Qed.

(** The three states of a connection after the items [items]. *)
Inductive session (items : list Input) (c : Connection) : Prop :=
| Unauthenticated :
    c = mkConnection None true (replicate (undecoded items) x01) [] -> Forall passes items -> session items c
| Refused pre i post e :
    items = pre ++ i :: post -> answer i = Some (Ok (Err e)) -> Forall passes pre ->
    c = mkConnection None false (replicate (undecoded pre) x01) [] -> session items c
| Authenticated pre i post d nes :
    items = pre ++ i :: post -> answer i = Some (Ok (Ok d)) -> Forall passes pre ->
    forwarded d (i :: post) nes ->
    c = mkConnection (Some d) true (replicate (undecoded items + length nes) x01) nes -> session items c.

(** The life of a connection, whatever arrives on it. Until the database
    answers a lookup it only replies to what does not decode; if the first
    answer is an error, the connection stops and nothing was or will be sent;
    if it is a device, that event and every later one, whatever secret the
    later ones carry, is sent to the event processor under that device, in
    order, and every event sent and every item that did not decode is answered
    with one byte. *)
Lemma connection_session (items : list Input) (c : Connection) :
  run new items = Some c -> session items c.
Proof.
  revert c. induction items as [|i items IH] using rev_ind; intros c Hr.
  { injection Hr as <-. by apply Unauthenticated. }
  unfold run in Hr. rewrite foldM_app in Hr. apply bind_Some in Hr as (c0 & H0 & Hr). cbn in Hr.
  apply bind_Some in Hr as (c1 & Hs & [= ->]). specialize (IH c0 H0). unfold step, handle in Hs.
  destruct IH as [-> Hp|pre j post e -> Ha Hp ->|pre j post d nes -> Ha Hp Hf ->]; cbn [running device] in Hs.
  - destruct (in_event i) as [e|err] eqn:Ei.
    + destruct (in_reply i (Event.secret e)) as [[d|dbe]|me] eqn:Er; cbn in Hs.
      * apply bind_Some in Hs as (ne & Hne & [= <-]).
        apply (Authenticated _ _ items i [] d [ne]); [done|by unfold answer; rewrite Ei, Er|done| |].
        -- unfold forwarded, is_event; cbn. unfold is_event. rewrite Ei. by repeat constructor.
        -- unfold write, do_send; cbn. rewrite undecoded_snoc, Ei, replicate_snoc. cbn. by rewrite Nat.add_0_r.
      * injection Hs as <-. eapply Refused; [done|by unfold answer; rewrite Ei, Er|done|done].
      * injection Hs as <-. apply Unauthenticated.
        -- by rewrite undecoded_snoc, Ei, Nat.add_0_r.
        -- apply Forall_app. split; [done|]. repeat constructor. unfold passes, answer. by rewrite Ei, Er.
    + injection Hs as <-. apply Unauthenticated.
      * unfold write; cbn. by rewrite undecoded_snoc, Ei, replicate_snoc.
      * apply Forall_app. split; [done|]. repeat constructor. unfold passes, answer. by rewrite Ei.
  - injection Hs as <-. eapply (Refused _ _ pre j (post ++ [i])); [by rewrite <- app_assoc|done..].
  - pose proof (forwarded_snoc d (j :: post) i nes Hf) as Hi. unfold is_event in Hi.
    destruct (in_event i) as [e|err] eqn:Ei; cbn in Hs.
    + apply bind_Some in Hs as (ne & Hne & [= <-]).
      apply (Authenticated _ _ pre j (post ++ [i]) d (nes ++ [ne])); [by rewrite <- app_assoc|done|done|by apply Hi|].
      unfold write, do_send; cbn. rewrite undecoded_snoc, Ei, replicate_snoc, length_app. cbn. do 2 f_equal. lia.
    + injection Hs as <-.
      apply (Authenticated _ _ pre j (post ++ [i]) d nes); [by rewrite <- app_assoc|done|done|by apply Hi|].
      unfold write; cbn. rewrite undecoded_snoc, Ei, replicate_snoc. cbn. do 2 f_equal. lia.
Qed.

(** [FramedRead] over [EventCodec]: what the codec makes of each read, without
    the empty ones. *)
Definition framed (r : result (option Event.Event) Event.Error) : option (result Event.Event Event.Error) :=
  match r with
  | Ok (Some e) => Some (Ok e)
  | Ok None => None
  | Err e => Some (Err e)
  end.

(** ** Properties *)

(** An event whose nanoseconds are two seconds or more is well-formed on
    the wire and panics the handler of an authenticated connection, as does one
    whose secret authenticates; while no event can panic a handler without a
    device when its lookup fails. *)
Theorem nanoseconds_panic `{BL : !BincodeLaws} `{CL : !ChronoLaws} (e : Event.Event) (d : Device) (reply : Z -> Reply Device)
    (now : Z) (c : Connection) (buf : list byte) :
  wf Event.w_Event e = true ->
  2000000000 <= Event.started_at_nsecs e \/ 2000000000 <= Event.ended_at_nsecs e ->
  exists item, framed (fst (Event.decode (serialize Event.w_Event e ++ buf))) = Some item /\
    (device c = Some d \/ (device c = None /\ reply (Event.secret e) = Ok (Ok d)) ->
     handle item reply now c = None) /\
    (device c = None -> (forall d, reply (Event.secret e) <> Ok (Ok d)) -> is_Some (handle item reply now c)).
Proof.
  intros Hwf Hn. exists (Ok e). split_and!.
  - rewrite Event.decode_event by done. done.
  - assert (DbTypes.new_event_from now e (device_id d) = None) as Hnone.
    { unfold DbTypes.new_event_from. destruct ((_ =? 0) || (_ =? 0)); destruct Hn as [Hn|Hn];
        rewrite ?(DbTypes.from_timestamp_nsecs _ _ Hn); try done; by destruct (DbTypes.from_timestamp _ _). }
    intros [Hd|[Hd Hr]]; cbn; rewrite Hd; unfold inner_handle; [by rewrite Hd, Hnone|].
    by rewrite Hr; cbn; rewrite Hnone.
  - intros Hd Hr. cbn. rewrite Hd. unfold inner_handle.
    destruct (reply (Event.secret e)) as [[d'|dbe]|me] eqn:Er; cbn; [by destruct (Hr d')|rewrite Hd; eauto|rewrite Hd; eauto].
Qed.
End Connection.

(** ** Witnesses *)

Import LittleEndian.Instances.
#[local] Existing Instances MemStore.chrono_pair MemStore.chrono_pair_laws.

Definition dev2 : Device := DbTypes.mkDevice (LittleEndian.uuid_nth 3) "door" "".
Definition light (sec : Z) : Event.Event := Event.mkEvent sec 60 0 61 0 (Event.Luminosity 1 2).
Definition lookup (sec : Z) : Reply Device := if sec =? 42 then Ok (Ok dev2) else Ok (Err DbTypes.not_found).

(** The second event carries a secret that no device has. *)
Lemma connection_session_witness :
  session [mkInput (Ok (light 42)) lookup 0; mkInput (Ok (light 7)) lookup 0]
    (mkConnection (Some dev2) true [x01; x01]
      (let ne := DbTypes.mkNewEvent DbTypes.KLuminosity (DbTypes.Luminosity 1 2) (60, 0) (61, 0) (LittleEndian.uuid_nth 3)
       in [ne; ne])).
Proof. apply connection_session. reflexivity. Defined.

Definition bad_light : Event.Event := Event.mkEvent 42 60 4000000000 61 0 (Event.Luminosity 1 2).
Lemma nanoseconds_panic_witness :
  exists item, framed (fst (Event.decode (serialize Event.w_Event bad_light ++ []))) = Some item /\
    (device new = Some dev2 \/ (device new = None /\ lookup (Event.secret bad_light) = Ok (Ok dev2)) ->
     handle item lookup 0 new = None) /\
    (device new = None -> (forall d, lookup (Event.secret bad_light) <> Ok (Ok d)) -> is_Some (handle item lookup 0 new)).
Proof. apply (nanoseconds_panic bad_light dev2 lookup 0 new []); [reflexivity|left; discriminate]. Defined.
