(* ===== verification/Signal.v ===== *)
(** * The stream of termination signals (backend/src/signal.rs)

    Every server actor stops at the first signal of this stream. [poll_recv] is
    [tokio]'s stream of one signal kind. *)
From S2P Require Import Prelude AudioSink.

Inductive Signal : Type := Hup | Int_ | Term_ | Quit_.
#[export] Instance Signal_eq_dec : EqDecision Signal.
Proof. solve_decision. Defined.

Section Stream.
Context {S E : Type} (unix_signal : Signal -> result S E) (poll_recv : S -> Poll (option ()) * S).

Definition SignalStream : Type := list (Signal * S).

(** [SignalStream::new]: a signal that can not be listened to is left out. *)
Definition signal_stream_new : SignalStream :=
  foldl (fun streams signal =>
    match unix_signal signal with
    | Ok stream => streams ++ [(signal, stream)]
    | Err _ => streams
    end) [] [Int_; Hup; Term_; Quit_].

(** [Stream::poll_next]: the loop over the indices; the inner [loop] runs
    once. *)
Fixpoint poll_next (streams : SignalStream) : Poll (option Signal) * SignalStream :=
  match streams with
  | [] => (Pending, [])
  | (signal, stream) :: rest =>
      match poll_recv stream with
      | (Ready None, stream) => (Ready None, (signal, stream) :: rest)
      | (Pending, stream) => let (r, rest) := poll_next rest in (r, (signal, stream) :: rest)
      | (Ready (Some _), stream) => (Ready (Some signal), (signal, stream) :: rest)
      end
  end.

(** A stream that was polled without a result. *)
Definition polled (x : Signal * S) : Signal * S := (fst x, snd (poll_recv (snd x))).

(** Polling answers the first stream, in the order interrupt, hangup,
    terminate, quit, that has an answer: its signal, or the end. The streams
    before it are polled once, those behind it not at all; the answer is
    pending when every stream is. *)
Lemma poll_next_first_ready (streams : SignalStream) :
  (Forall (fun x => fst (poll_recv (snd x)) = Pending) streams /\
   poll_next streams = (Pending, map polled streams)) \/
  exists pre x post r, streams = pre ++ x :: post /\
    Forall (fun y => fst (poll_recv (snd y)) = Pending) pre /\ fst (poll_recv (snd x)) = Ready r /\
    poll_next streams = (Ready ((fun _ => fst x) <$> r), map polled pre ++ polled x :: post).
Proof.
  induction streams as [|[signal stream] rest IH]; [by left|]. cbn [poll_next].
  destruct (poll_recv stream) as [[[[]|]|] stream'] eqn:Hs.
  - right. exists [], (signal, stream), rest, (Some tt). unfold polled. cbn. by rewrite Hs.
  - right. exists [], (signal, stream), rest, None. unfold polled. cbn. by rewrite Hs.
  - destruct IH as [[Hp ->]|(pre & x & post & r & -> & Hp & Hr & ->)].
    + left. split; [constructor; [cbn; by rewrite Hs|done]|]. cbn. unfold polled at 2. cbn. by rewrite Hs.
    + right. exists ((signal, stream) :: pre), x, post, r. split_and!; [done|constructor; [cbn; by rewrite Hs|done]|done|].
      cbn. unfold polled at 3. cbn. by rewrite Hs.
Qed.
End Stream.
