(* ===== verification/EventServer.v ===== *)
(** * The event server (backend/src/actor/event_server.rs)

    The listener accepts TCP streams and gives each to a new [EventHandler];
    all of them share the database actor and the event processor. The theorem
    says that each connection lives its own life: the one of [EventHandler], on
    its own items alone. *)
From S2P Require Import Prelude MachineInt Bincode EventHandler.
From S2P Require Event DbTypes LittleEndian MemStore Signal.
Import DbTypes(Chrono, NewEvent).
Open Scope Z_scope.

Section Server.
(** [Stream] names an accepted [net::TcpStream]; [E] is the error of an accept. *)
Context `{U : UuidOps} `{C : Chrono} `{B : !Bincode} {Stream E : Type} `{Countable Stream}.

(** The server's port and whether it runs, its connections (a stopped handler
    stays, as what it did), and what the event processor received from them. *)
Record EventServer : Type := mkServer {
  port : Z;
  serving : bool;
  connections : gmap Stream Connection;
  mailbox : list (Stream * NewEvent);
}.

(** [Config::build], once the listener is bound. *)
Definition server_new (event_server_port : Z) : EventServer := mkServer event_server_port true ∅ [].

(** [ctx.stop()] of a handler, or its end by a panic. *)
Definition stop (c : Connection) : Connection := mkConnection (device c) false (written c) (sent c).

(** The streams of [incoming()] that are kept: failed accepts are dropped. *)
Definition incoming (stream : result Stream E) : option Stream :=
  match stream with Ok stream => Some stream | Err _ => None end.

(** [Handler<TcpStream>]: a handler of its own for the stream. *)
Definition handle_stream (stream : Stream) (s : EventServer) : EventServer :=
  mkServer (port s) (serving s) (<[stream := EventHandler.new]> (connections s)) (mailbox s).

(** [Handler<Signal>]: the server stops, its handlers go on: each is kept by
    its own stream. *)
Definition handle_signal (_ : Signal.Signal) (s : EventServer) : EventServer :=
  mkServer (port s) false (connections s) (mailbox s).

(** An item of a stream goes to its handler, whose messages go to the one
    processor. A panic ends that handler only. *)
Definition handle_item (stream : Stream) (i : Input) (s : EventServer) : EventServer :=
  match connections s !! stream with
  | Some c =>
      match EventHandler.step c i with
      | Some c' =>
          mkServer (port s) (serving s) (<[stream := c']> (connections s))
            (mailbox s ++ map (pair stream) (drop (length (sent c)) (sent c')))
      | None => mkServer (port s) (serving s) (<[stream := stop c]> (connections s)) (mailbox s)
      end
  | None => s
  end.

(** [StreamHandler::finished], which the handler leaves at its default. *)
Definition handle_closed (stream : Stream) (s : EventServer) : EventServer :=
  mkServer (port s) (serving s) (alter stop stream (connections s)) (mailbox s).

Inductive Happening : Type :=
| Accept (stream : result Stream E)
| Item (stream : Stream) (i : Input)
| Closed (stream : Stream)
| Signalled (s : Signal.Signal).

Definition happen (s : EventServer) (h : Happening) : EventServer :=
  match h with
  | Accept stream =>
      if serving s then
        match incoming stream with Some stream => handle_stream stream s | None => s end
      else s
  | Item stream i => handle_item stream i s
  | Closed stream => handle_closed stream s
  | Signalled sig => handle_signal sig s
  end.
Definition serve (s : EventServer) (hs : list Happening) : EventServer := foldl happen s hs.

(** ** Specification *)

(** The streams the listener yields; each is a new one. *)
Definition accepts (hs : list Happening) : list Stream :=
  omap (fun h => match h with Accept stream => incoming stream | _ => None end) hs.

(** What happens after a stream is accepted; [None] if the server is stopped
    before. *)
Fixpoint accepted (stream : Stream) (hs : list Happening) : option (list Happening) :=
  match hs with
  | [] => None
  | Signalled _ :: _ => None
  | Accept (Ok other) :: hs => if decide (other = stream) then Some hs else accepted stream hs
  | _ :: hs => accepted stream hs
  end.

(** The items of a stream before it is closed, and whether it is. *)
Fixpoint items (stream : Stream) (hs : list Happening) : list Input :=
  match hs with
  | [] => []
  | Item other i :: hs => if decide (other = stream) then i :: items stream hs else items stream hs
  | Closed other :: hs => if decide (other = stream) then [] else items stream hs
  | _ :: hs => items stream hs
  end.

Definition closed (stream : Stream) (hs : list Happening) : Prop := Closed stream ∈ hs.

(** What the processor received from a stream. *)
Definition received (stream : Stream) (mail : list (Stream * NewEvent)) : list NewEvent :=
  (filter (fun m => fst m = stream) mail).*2.

(** A handler in state [c] before the items [its], with what it did and the
    items it handled: all of them, and then the stream was closed or not, or
    those before one that made it panic. *)
Inductive lived (c : Connection) (its : list Input) (over : Prop) : Connection -> list Input -> Prop :=
| Alive c' : foldM EventHandler.step c its = Some c' -> ~ over -> lived c its over c' its
| Over c' : foldM EventHandler.step c its = Some c' -> over -> lived c its over (stop c') its
| Panicked c' handled i rest :
    its = handled ++ i :: rest -> foldM EventHandler.step c handled = Some c' ->
    EventHandler.step c' i = None -> lived c its over (stop c') handled.

(** ** Lemmas *)

Lemma received_app stream m m' : received stream (m ++ m') = received stream m ++ received stream m'.
Proof. unfold received. by rewrite filter_app, fmap_app. Qed.

Lemma received_own stream nes : received stream (map (pair stream) nes) = nes.
Proof. unfold received. induction nes as [|ne nes IH]; [done|]. cbn [map]. by rewrite filter_cons_True, fmap_cons, IH. Qed.

Lemma received_other stream other nes : other <> stream -> received stream (map (pair other) nes) = [].
Proof. intros Hne. unfold received. induction nes as [|ne nes IH]; [done|]. cbn [map]. by rewrite filter_cons_False. Qed.

#[local] Arguments received : simpl never.

(** What one item adds to the messages. *)
Lemma step_sent c i c' : EventHandler.step c i = Some c' -> sent c ++ drop (length (sent c)) (sent c') = sent c'.
Proof.
  assert (forall nes, sent c ++ drop (length (sent c)) (sent c ++ nes) = sent c ++ nes) as Happ
    by (intros nes; by rewrite drop_app_length).
  assert (sent c ++ drop (length (sent c)) (sent c) = sent c) as Hid
    by (rewrite <- (app_nil_r (sent c)) at 3; by rewrite Happ, app_nil_r).
  unfold EventHandler.step, EventHandler.handle, inner_handle. destruct (running c); [|by intros [= <-]].
  destruct (in_event i) as [e|err]; [|by intros [= <-]].
  destruct (device c) as [d|] eqn:Ed.
  - intros (ne & _ & [= <-])%bind_Some. apply Happ.
  - destruct (in_reply i _) as [[d|err]|err]; cbn; rewrite ?Ed; [|by intros [= <-]..].
    intros (ne & _ & [= <-])%bind_Some. apply Happ.
Qed.

(** Stream and messages of one connection. *)
Definition view (stream : Stream) (s : EventServer) : option Connection * list NewEvent :=
  (connections s !! stream, received stream (mailbox s)).

(** The happening is none of the stream's business. *)
Definition foreign (stream : Stream) (h : Happening) : Prop :=
  match h with
  | Accept (Ok other) | Item other _ | Closed other => other <> stream
  | Accept (Err _) | Signalled _ => True
  end.

Lemma happen_foreign stream s h : foreign stream h -> view stream (happen s h) = view stream s.
Proof.
  intros Hf. unfold view. destruct h as [[other|e]|other i|other|sig]; cbn in Hf |- *.
  - destruct (serving s); cbn; by rewrite ?lookup_insert_ne.
  - by destruct (serving s).
  - unfold handle_item. destruct (connections s !! other) as [c|]; [|done].
    destruct (EventHandler.step c i); cbn; rewrite lookup_insert_ne by done; [|done].
    by rewrite received_app, received_other, app_nil_r.
  - by rewrite lookup_alter_ne.
  - done.
Qed.

Lemma happen_serving s h :
  serving (happen s h) = match h with Signalled _ => false | _ => serving s end.
Proof.
  destruct h as [[other|e]|other i|other|sig]; cbn; try done; [by destruct (serving s) eqn:?..|].
  unfold handle_item. destruct (connections s !! other) as [c|]; [|done]. by destruct (EventHandler.step c i).
Qed.

Lemma step_stopped c i : running c = false -> EventHandler.step c i = Some c.
Proof. intros Hc. unfold EventHandler.step. by rewrite Hc. Qed.

Lemma stop_stopped c : running c = false -> stop c = c.
Proof. destruct c; cbn. by intros ->. Qed.

(** A stopped connection stays as it is. *)
Lemma serve_stopped stream s hs c :
  (stream ∈ accepts hs -> False) -> running c = false -> view stream s = (Some c, sent c) ->
  view stream (serve s hs) = (Some c, sent c).
Proof.
  intros Hacc Hr. revert s. induction hs as [|h hs IH]; intros s Hv; [done|]. cbn [serve foldl]. apply IH.
  { intros Hin. apply Hacc. unfold accepts. destruct h as [[]| | |]; cbn; set_solver. }
  assert (foreign stream h \/ ~ foreign stream h) as [Hf|Hf].
  { destruct h as [[other|?]|other ?|other|?]; cbn; try (by left);
      destruct (decide (other = stream)); tauto. }
  { by rewrite happen_foreign. }
  injection Hv as Hc Hm. unfold view. destruct h as [[other|e]|other i|other|sig]; cbn in Hf; try tauto;
    apply dec_stable in Hf as ->; cbn.
  - exfalso. apply Hacc. cbn. set_solver.
  - unfold handle_item. rewrite Hc, step_stopped by done. cbn. rewrite lookup_insert_eq, received_app, received_own, Hm.
    by rewrite drop_all, app_nil_r.
  - by rewrite lookup_alter_eq, Hc, Hm; cbn; rewrite stop_stopped.
Qed.
Lemma foreign_or stream h : foreign stream h \/ ~ foreign stream h.
Proof.
  destruct h as [[other|?]|other ?|other|?]; cbn; try (by left); destruct (decide (other = stream)); tauto.
Qed.

Lemma lived_cons c i c1 its over c' handled :
  EventHandler.step c i = Some c1 -> lived c1 its over c' handled -> lived c (i :: its) over c' (i :: handled).
Proof.
  intros Hs Hl. assert (forall l, foldM EventHandler.step c (i :: l) = foldM EventHandler.step c1 l) as Hf
    by (intros l; cbn; by rewrite Hs).
  destruct Hl as [c' Hc Ho|c' Hc Ho|c' handled j rest -> Hc Hp].
  - by apply Alive; rewrite ?Hf.
  - by apply Over; rewrite ?Hf.
  - by apply (Panicked _ _ _ _ (i :: handled) j rest); rewrite ?Hf.
Qed.

Lemma lived_iff c its over over' c' handled :
  (over <-> over') -> lived c its over c' handled -> lived c its over' c' handled.
Proof.
  intros Ho [c1 Hc Hn|c1 Hc Hn|c1 h i rest -> Hc Hp]; [apply Alive; tauto|apply Over; tauto|].
  by apply (Panicked _ _ _ _ h i rest).
Qed.

(** The items of a stream drive its handler, whatever happens between them. *)
Lemma serve_live stream s hs c :
  (stream ∈ accepts hs -> False) -> view stream s = (Some c, sent c) ->
  exists c' handled, lived c (items stream hs) (closed stream hs) c' handled /\
    view stream (serve s hs) = (Some c', sent c').
Proof.
  revert s c. induction hs as [|h hs IH]; intros s c Hacc Hv.
  { exists c, []. split; [apply Alive; [done|]|done]. unfold closed. set_solver. }
  assert (stream ∈ accepts hs -> False) as Hacc'.
  { intros Hin. apply Hacc. unfold accepts. destruct h as [[]| | |]; cbn; set_solver. }
  cbn [serve foldl]. destruct (foreign_or stream h) as [Hf|Hf].
  { destruct (IH (happen s h) c) as (c' & handled & Hl & Hc'); [done|by rewrite happen_foreign|].
    exists c', handled. split; [|done].
    assert (items stream (h :: hs) = items stream hs) as ->.
    { destruct h as [[]|other i|other|]; cbn in Hf |- *; rewrite ?decide_False by done; done. }
    apply (lived_iff _ _ (closed stream hs)); [|done].
    unfold closed. rewrite elem_of_cons. split; [tauto|]. intros [<-|]; [by cbn in Hf|done]. }
  destruct h as [[other|e]|other i|other|sig]; cbn in Hf; try tauto; apply dec_stable in Hf as ->.
  - exfalso. apply Hacc. cbn. set_solver.
  - injection Hv as Hc Hm. cbn [items happen]. rewrite decide_True by done. unfold handle_item. rewrite Hc.
    destruct (EventHandler.step c i) as [c1|] eqn:Es.
    + match goal with |- context [foldl happen ?s1 hs] => destruct (IH s1 c1 Hacc') as (c' & handled & Hl & Hc') end.
      { unfold view. cbn [connections mailbox]. by rewrite lookup_insert_eq, received_app, received_own, Hm, (step_sent c i). }
      exists c', (i :: handled). split; [|exact Hc']. apply lived_cons with c1; [done|].
      apply (lived_iff _ _ (closed stream hs)); [|done]. unfold closed. rewrite elem_of_cons. split; [tauto|]. by intros [?|].
    + exists (stop c), []. split; [by eapply (Panicked _ _ _ c [] i)|].
      apply (serve_stopped stream _ hs (stop c)); [done..|]. unfold view. cbn [connections mailbox].
      by rewrite lookup_insert_eq, Hm.
  - injection Hv as Hc Hm. cbn [items happen]. rewrite decide_True by done.
    exists (stop c), []. split; [apply Over; [done|by left]|].
    apply (serve_stopped stream _ hs (stop c)); [done..|]. unfold view, handle_closed. cbn [connections mailbox].
    by rewrite lookup_alter_eq, Hc, Hm.
Qed.

Lemma happen_absent stream s h :
  view stream s = (None, []) -> (serving s = true -> forall other, h = Accept (Ok other) -> other <> stream) ->
  view stream (happen s h) = (None, []).
Proof.
  intros Hv Hh. destruct (foreign_or stream h) as [Hf|Hf]; [by rewrite happen_foreign|].
  injection Hv as Hc Hm. unfold view.
  destruct h as [[other|e]|other i|other|sig]; cbn in Hf; try tauto; apply dec_stable in Hf as ->; cbn.
  - destruct (serving s) eqn:?; [by destruct (Hh eq_refl stream)|]. by rewrite Hc, Hm.
  - unfold handle_item. by rewrite Hc, Hc, Hm.
  - by rewrite lookup_alter_eq, Hc, Hm.
Qed.

Lemma serve_refusing stream s hs :
  serving s = false -> view stream s = (None, []) -> view stream (serve s hs) = (None, []).
Proof.
  revert s. induction hs as [|h hs IH]; intros s Hr Hv; [done|]. cbn [serve foldl]. apply IH.
  - rewrite happen_serving. by destruct h.
  - apply happen_absent; [done|]. by rewrite Hr.
Qed.
Lemma serve_accepted stream s hs :
  NoDup (accepts hs) -> serving s = true -> view stream s = (None, []) ->
  match accepted stream hs with
  | None => view stream (serve s hs) = (None, [])
  | Some later => exists c handled,
      lived EventHandler.new (items stream later) (closed stream later) c handled /\
      view stream (serve s hs) = (Some c, sent c)
  end.
Proof.
  revert s. induction hs as [|h hs IH]; intros s Hnd Hr Hv; [done|].
  assert (NoDup (accepts hs)) as Hnd'.
  { destruct h as [[]| | |]; cbn in Hnd; try done. by apply NoDup_cons in Hnd as [_ ?]. }
  destruct (foreign_or stream h) as [Hf|Hf].
  - destruct h as [[other|e]|other i|other|sig]; cbn in Hf; cbn [accepted]; rewrite ?decide_False by done;
      cbn [serve foldl]; [apply IH; [done|by rewrite happen_serving|by rewrite happen_foreign]..|].
    apply serve_refusing; [done|]. by rewrite happen_foreign.
  - destruct h as [[other|e]|other i|other|sig]; cbn in Hf; try tauto; apply dec_stable in Hf as ->;
      cbn [accepted serve foldl]; rewrite ?decide_True by done.
    + apply serve_live; [by apply NoDup_cons in Hnd as [? _]|]. injection Hv as Hc Hm.
      unfold view. cbn [happen incoming handle_stream]. rewrite Hr. cbn. by rewrite lookup_insert_eq, Hm.
    + apply IH; [done|by rewrite happen_serving|by apply happen_absent].
    + apply IH; [done|by rewrite happen_serving|by apply happen_absent].
Qed.

(** A handler that lived did what a connection does. *)
Lemma lived_session its over c handled :
  lived EventHandler.new its over c handled ->
  exists c0, session handled c0 /\ sent c = sent c0 /\ written c = written c0 /\ device c = device c0.
Proof. intros [c' Hc _|c' Hc _|c' h i rest -> Hc _]; exists c'; (split; [by apply connection_session|done]). Qed.

(** ** Properties *)

(** C8: the connections of the event server do not disturb each other. In any
    sequence of accepts, items, closed streams and signals, each accepted
    stream being a new one: a stream that is not accepted, or only after a
    signal, has no handler and sends nothing; any other is handled by the items
    that arrive on it, up to its end or to the first that panics, as a
    connection on its own is ([session]), even after the server has stopped;
    and what the event processor receives from it is, in order, what that
    connection sends. *)
Theorem server_runs_sessions (event_server_port : Z) (hs : list Happening) (stream : Stream) :
  NoDup (accepts hs) ->
  let s := serve (server_new event_server_port) hs in
  match accepted stream hs with
  | None => connections s !! stream = None /\ received stream (mailbox s) = []
  | Some later => exists c handled,
      connections s !! stream = Some c /\ received stream (mailbox s) = sent c /\
      lived EventHandler.new (items stream later) (closed stream later) c handled /\
      exists c0, session handled c0 /\ sent c = sent c0 /\ written c = written c0 /\ device c = device c0
  end.
Proof.
  intros Hnd s. pose proof (serve_accepted stream (server_new event_server_port) hs Hnd eq_refl eq_refl) as Hs.
  destruct (accepted stream hs) as [later|]; [|by injection Hs].
  destruct Hs as (c & handled & Hl & [= Hc Hm]). exists c, handled. split_and!; [done..|by eapply lived_session].
Qed.
End Server.

(** ** Witness: two connections, one before a signal and one after it *)

Import LittleEndian.Instances.
#[local] Existing Instance MemStore.chrono_pair.

Definition happenings0 : list (Happening (Stream := nat) (E := ())) :=
  [Accept (Err tt); Accept (Ok 1%nat); Item 1%nat (mkInput (Ok (light 42)) lookup 0); Signalled Signal.Term_;
   Accept (Ok 2%nat); Item 2%nat (mkInput (Ok (light 42)) lookup 0); Item 1%nat (mkInput (Ok (light 7)) lookup 0);
   Item 1%nat (mkInput (Ok bad_light) lookup 0); Item 1%nat (mkInput (Ok (light 42)) lookup 0)].

Example happenings0_received :
  let s := serve (server_new 3002) happenings0 in
  (length (received 1%nat (mailbox s)), length (mailbox s), running <$> connections s !! 1%nat,
   running <$> connections s !! 2%nat) = (2%nat, 2%nat, Some false, None).
Proof. cbv zeta. vm_compute. reflexivity. Qed.

Lemma server_runs_sessions_witness :
  let s := serve (server_new 3002) happenings0 in
  exists c handled, connections s !! 1%nat = Some c /\ received 1%nat (mailbox s) = sent c /\
    lived EventHandler.new (items 1%nat (drop 2 happenings0)) (closed 1%nat (drop 2 happenings0)) c handled /\
    exists c0, session handled c0 /\ sent c = sent c0 /\ written c = written c0 /\ device c = device c0.
Proof.
  cbv zeta. assert (accepted 1%nat happenings0 = Some (drop 2 happenings0)) as Ha by reflexivity.
  assert (NoDup (accepts happenings0)) as Hnd by (apply (bool_decide_unpack _); reflexivity).
  pose proof (server_runs_sessions 3002 happenings0 1%nat Hnd) as Hs. cbv zeta in Hs. rewrite Ha in Hs. exact Hs.
Defined.
