(* ===== verification/WsManager.v ===== *)
(** * The websocket sessions (backend/src/actor/ws_manager.rs, http/ws.rs)

    The table of sessions that the clones of the manager share. [Addr] is the
    type of the addresses of session actors, [to_json] is
    [serde_json::to_string] of an event. *)
From S2P Require Import Prelude Bincode DbTypes.

Inductive WsSessionTarget : Type := TargetEvent.
#[export] Instance WsSessionTarget_eq_dec : EqDecision WsSessionTarget.
Proof. solve_decision. Defined.
#[export] Instance WsSessionTarget_countable : Countable WsSessionTarget.
Proof. apply (inj_countable' (fun _ => tt) (fun _ => TargetEvent)). by intros []. Defined.

Inductive WsMessage : Type := Text (text : string).

Section Manager.
Context `{U : UuidOps} `{C : Chrono} {Addr : Type} (to_json : Event -> string).

Definition Sessions : Type := gmap WsSessionTarget (list Addr).
Definition no_sessions : Sessions := ∅.

(** [WsManager::register]: [entry(target).or_insert(Vec::new()).push(addr)]. *)
Definition register (target : WsSessionTarget) (addr : Addr) (s : Sessions) : Sessions :=
  <[target := default [] (s !! target) ++ [addr]]> s.

(** [WsManager::send_event]: the messages sent, in order. *)
Definition send_event (event : Event) (s : Sessions) : list (Addr * WsMessage) :=
  let text := to_json event in
  match s !! TargetEvent with
  | Some sessions => map (fun addr => (addr, Text text)) sessions
  | None => []
  end.

(** [Handler<WsMessage> for WsSession]: the text the session writes to its
    socket. *)
Definition session_handle (msg : WsMessage) : string := match msg with Text text => text end.

(** The handler of [GET /ws/event]: the new session is registered, unless the
    websocket handshake failed. *)
Definition ws_event {E R} (started : result (Addr * R) E) (s : Sessions) : result R E * Sessions :=
  match started with
  | Ok (addr, resp) => (Ok resp, register TargetEvent addr s)
  | Err e => (Err e, s)
  end.

(** The addresses an event goes to. *)
Definition listeners (s : Sessions) : list Addr := default [] (s !! TargetEvent).

Lemma send_event_listeners event s :
  send_event event s = map (fun addr => (addr, Text (to_json event))) (listeners s).
Proof. unfold send_event, listeners. by destruct (s !! TargetEvent). Qed.

Lemma listeners_register addr s : listeners (register TargetEvent addr s) = listeners s ++ [addr].
Proof. unfold listeners at 1. exact (f_equal (default []) (lookup_insert_eq s TargetEvent _)). Qed.
End Manager.
