(* ===== verification/EventProcessor.v ===== *)
(** * The event processor (backend/src/actor/event_processor.rs)

    Every event, from the TCP server or from a finished recording, is handled
    by a future that asks the database for the labels, inserts the event and
    broadcasts it. The futures of several events interleave with each other and
    with the other requests to the database: the system below takes their steps
    in any order. *)
From S2P Require Import Prelude MachineInt Bincode DbTypes Store DbHandlers WsManager.
From S2P Require LittleEndian MemStore.
Open Scope Z_scope.

Section Processor.
Context `{U : UuidOps} `{C : Chrono} {DB : Type} `{PG : !Postgres DB} {Addr : Type} (to_json : Event -> string).

(** TODO in the source: match the event by label rule. *)
Definition match_event_labels (event : Event) (labels : list Label) : list EventLabel := [].

(** Where the future of a message stands: before the request for the labels,
    before the insertion, before the code after it, at its end. *)
Inductive Task : Type :=
| SelectLabels_ (msg : NewEvent)
| InsertEvent_ (msg : NewEvent) (labels : list Label)
| Broadcast_ (event : Event) (labels : list Label)
| Done (r : result Event Error).

(** One resumption of the future: its new state, the database, the messages
    sent to sessions. *)
Definition resume (s : Sessions) (t : Task) (db : DB) : Task * DB * list (Addr * WsMessage) :=
  match t with
  | SelectLabels_ msg =>
      match handle_select_labels db with
      | (Ok labels, db) => (InsertEvent_ msg labels, db, [])
      | (Err e, db) => (Done (Err e), db, [])
      end
  | InsertEvent_ msg labels =>
      match handle_insert_event msg db with
      | (Ok event, db) => (Broadcast_ event labels, db, [])
      | (Err e, db) => (Done (Err e), db, [])
      end
  | Broadcast_ event labels =>
      let _event_labels := match_event_labels event labels in
      (Done (Ok event), db, send_event to_json event s)
  | Done r => (Done r, db, [])
  end.

(** The request could not be delivered. *)
Definition undelivered (e : MailboxError) (t : Task) : Task :=
  match t with
  | SelectLabels_ _ | InsertEvent_ _ _ => Done (Err (error_from_mailbox e))
  | _ => t
  end.

(** ** The system: the database, the sessions, the futures in the order of
    their messages, and all messages sent to sessions so far. *)
Record System : Type := mkSystem {
  sys_db : DB;
  sys_sessions : Sessions (Addr := Addr);
  sys_tasks : list Task;
  sys_mail : list (Addr * WsMessage);
}.

(** What can happen next. *)
Inductive Happening : Type :=
| Arrive (msg : NewEvent)
| Resume (i : nat)
| Undelivered (i : nat) (e : MailboxError)
| Request (m : Msg)
| Register (addr : Addr).

Definition happen (s : System) (h : Happening) : System :=
  match h with
  | Arrive msg => mkSystem (sys_db s) (sys_sessions s) (sys_tasks s ++ [SelectLabels_ msg]) (sys_mail s)
  | Resume i =>
      match sys_tasks s !! i with
      | Some t =>
          let '(t, db, mail) := resume (sys_sessions s) t (sys_db s) in
          mkSystem db (sys_sessions s) (<[i := t]> (sys_tasks s)) (sys_mail s ++ mail)
      | None => s
      end
  | Undelivered i e =>
      match sys_tasks s !! i with
      | Some t => mkSystem (sys_db s) (sys_sessions s) (<[i := undelivered e t]> (sys_tasks s)) (sys_mail s)
      | None => s
      end
  | Request m => mkSystem (after m (sys_db s)) (sys_sessions s) (sys_tasks s) (sys_mail s)
  | Register addr => mkSystem (sys_db s) (register TargetEvent addr (sys_sessions s)) (sys_tasks s) (sys_mail s)
  end.
Definition happens (s : System) (hs : list Happening) : System := foldl happen s hs.

Definition arrivals (hs : list Happening) : list NewEvent :=
  omap (fun h => match h with Arrive msg => Some msg | _ => None end) hs.

(** The event a future has inserted. *)
Definition inserted (t : Task) : option Event :=
  match t with
  | Broadcast_ event _ => Some event
  | Done (Ok event) => Some event
  | _ => None
  end.
(** The event it has broadcast. *)
Definition broadcast (t : Task) : option Event :=
  match t with Done (Ok event) => Some event | _ => None end.

(** An event is the one of a message. *)
Definition event_for (msg : NewEvent) (e : Event) : Prop :=
  e = mkEvent (event_id e) (ne_kind msg) (ne_payload msg) (ne_started_at msg) (ne_ended_at msg) (ne_device_id msg).

(** What a future stands for, given its message. *)
Definition task_for (msg : NewEvent) (t : Task) : Prop :=
  match t with
  | SelectLabels_ m | InsertEvent_ m _ => m = msg
  | Broadcast_ e _ | Done (Ok e) => event_for msg e
  | Done (Err _) => True
  end.
End Processor.

(** ** Lemmas *)

Section Laws.
Context `{U : UuidOps} `{C : Chrono} {DB : Type} `{PG : !Postgres DB} `{L : !PostgresLaws DB}
  {Addr : Type} `{!EqDecision Addr} (to_json : Event -> string).

Abbreviation happen := (happen (DB := DB) (Addr := Addr) to_json).
Abbreviation happens := (happens (DB := DB) (Addr := Addr) to_json).

(** No device is deleted meanwhile. *)
Definition harmless (h : Happening (Addr := Addr)) : Prop :=
  match h with Request (DeleteDevice _) => False | _ => True end.

Abbreviation events db := (t_events (tables_of db)).

(** The future of each message, and what it inserted. *)
Record consistent (msgs : list NewEvent) (s : System (DB := DB) (Addr := Addr)) : Prop := {
  con_integrity : integrity (tables_of (sys_db s));
  con_tasks : Forall2 task_for msgs (sys_tasks s);
  con_stored : forall i t e, sys_tasks s !! i = Some t -> inserted t = Some e ->
    events (sys_db s) !! event_id e = Some (stored_event e);
  con_distinct : forall i j t u e f, sys_tasks s !! i = Some t -> sys_tasks s !! j = Some u ->
    inserted t = Some e -> inserted u = Some f -> event_id e = event_id f -> i = j;
}.

(** From [t] to [t'], and from [db] to [db'], the events gain the row that the
    future inserts, if it inserts one. *)
Definition adds_row (t t' : Task) (db db' : DB) : Prop :=
  (inserted t' = inserted t /\ events db' = events db) \/
  exists e, inserted t = None /\ inserted t' = Some e /\ events db !! event_id e = None /\
    events db' = <[event_id e := stored_event e]> (events db).

(** A resumption keeps the events, and adds what the future inserts. *)
Lemma resume_spec (sess : Sessions (Addr := Addr)) t (db : DB) msg :
  integrity (tables_of db) -> task_for msg t ->
  let '(t', db', mail) := resume to_json sess t db in
  integrity (tables_of db') /\ task_for msg t' /\
  adds_row t t' db db'.
Proof.
  intros Ht Hm. destruct t as [m|m ls|e ls|r]; cbn [resume].
  - unfold handle_select_labels. pose proof (spec_load_after q_labels db) as Hs.
    destruct (bind _ _ db) as [[ls|e] db'] eqn:E; cbn in Hs |- *; (split_and!; [by rewrite Hs|done|left; by rewrite Hs]).
  - cbn in Hm. subst m. pose proof (insert_event_handler msg _ db eq_refl) as Hs.
    pose proof (after_integrity (InsertEvent msg) db Ht) as Hi. cbn [after] in Hi.
    destruct (handle_insert_event msg db) as [[e|e] db']; cbn in Hi |- *.
    + destruct Hs as (He & Hnew & Hfk & Heq). split_and!; [done|done|right]. exists e. by rewrite Heq.
    + unfold unchanged in Hs. rewrite Hs. split_and!; [done..|]. left. by rewrite Hs.
  - split_and!; try done. by left.
  - split_and!; try done. by left.
Qed.

Lemma adds_row_keeps t t' (db db' : DB) : adds_row t t' db db' ->
  forall j e, events db !! j = Some e -> events db' !! j = Some e.
Proof.
  intros [[_ ->]|(e & _ & _ & Hn & ->)] j e' Hj; [done|]. rewrite lookup_insert_ne; [done|]. congruence.
Qed.

Lemma consistent_set msgs s i t t' db' mail :
  consistent msgs s -> sys_tasks s !! i = Some t ->
  integrity (tables_of db') -> (forall msg, task_for msg t -> task_for msg t') ->
  adds_row t t' (sys_db s) db' ->
  consistent msgs (mkSystem db' (sys_sessions s) (<[i := t']> (sys_tasks s)) mail).
Proof.
  intros [Hin Hts Hst Hd] Hi Ht' Hm Hadd. pose proof (lookup_lt_Some _ _ _ Hi) as Hlt.
  pose proof (adds_row_keeps _ _ _ _ Hadd) as Hev.
  assert (forall e, inserted t' = Some e -> events db' !! event_id e = Some (stored_event e)) as Hnew.
  { intros e He. destruct Hadd as [[Ho _]|(e' & _ & He' & _ & ->)].
    - by apply Hev, (Hst i t); [|rewrite <- Ho].
    - rewrite He in He'. injection He' as <-. apply lookup_insert_eq. }
  assert (forall j u e f, j <> i -> sys_tasks s !! j = Some u -> inserted t' = Some e -> inserted u = Some f ->
    event_id e <> event_id f) as Hdis.
  { intros j u e f Hne Hu He Hf Heq. destruct Hadd as [[Ho _]|(e' & _ & He' & Hn & _)].
    - apply Hne. symmetry. apply (Hd i j t u e f); [done..|by rewrite <- Ho|done|done].
    - rewrite He in He'. injection He' as <-. rewrite Heq, (Hst j u f Hu Hf) in Hn. done. }
  split; cbn; [done| | |].
  - apply Forall2_same_length_lookup. rewrite length_insert. split; [by eapply Forall2_length|].
    intros j m u Hj Hu. destruct (decide (j = i)) as [->|Hne].
    + rewrite list_lookup_insert_eq in Hu by done. injection Hu as <-. apply Hm.
      by apply (Forall2_lookup_lr _ _ _ _ _ _ Hts Hj).
    + rewrite list_lookup_insert_ne in Hu by done. by apply (Forall2_lookup_lr _ _ _ _ _ _ Hts Hj).
  - intros j u e Hu He. destruct (decide (j = i)) as [->|Hne].
    + rewrite list_lookup_insert_eq in Hu by done. injection Hu as <-. by apply Hnew.
    + rewrite list_lookup_insert_ne in Hu by done. by apply Hev, (Hst j u).
  - intros j k u v e f Hu Hv He Hf Heq.
    destruct (decide (j = i)) as [->|Hj], (decide (k = i)) as [->|Hk]; [done| | |].
    + rewrite list_lookup_insert_eq in Hu by done. rewrite list_lookup_insert_ne in Hv by done.
      injection Hu as <-. by destruct (Hdis k v e f).
    + rewrite list_lookup_insert_eq in Hv by done. rewrite list_lookup_insert_ne in Hu by done.
      injection Hv as <-. by destruct (Hdis j u f e).
    + rewrite list_lookup_insert_ne in Hu, Hv by done. by apply (Hd j k u v e f).
Qed.

Lemma consistent_db msgs s db' sess :
  consistent msgs s -> integrity (tables_of db') ->
  (forall j e, events (sys_db s) !! j = Some e -> events db' !! j = Some e) ->
  consistent msgs (mkSystem db' sess (sys_tasks s) (sys_mail s)).
Proof. intros [Hin Hts Hst Hd] Hi Hev. split; cbn; [done|done| |done]. intros i t e Ht He. by apply Hev, (Hst i t). Qed.

Lemma arrivals_snoc (hs : list (Happening (Addr := Addr))) h :
  arrivals (hs ++ [h]) = arrivals hs ++ match h with Arrive msg => [msg] | _ => [] end.
Proof. unfold arrivals. rewrite omap_app. by destruct h. Qed.

Lemma happen_consistent hs s h :
  harmless h -> consistent (arrivals hs) s -> consistent (arrivals (hs ++ [h])) (happen s h).
Proof.
  intros Hh Hc. rewrite arrivals_snoc. pose proof Hc as [Hin Hts Hst Hd].
  destruct h as [msg|i|i e|m|a]; cbn [EventProcessor.happen]; rewrite ?app_nil_r.
  - split; cbn; [done|by apply Forall2_app; [|repeat constructor]| |].
    + intros i t e [Ht|[_ Ht]]%lookup_app_Some He; [by apply (Hst i t)|].
      apply list_lookup_singleton_Some in Ht as [_ <-]. done.
    + intros i j t u e f [Ht|[_ Ht]]%lookup_app_Some [Hu|[_ Hu]]%lookup_app_Some He Hf; [by apply (Hd i j t u e f)|..];
        [apply list_lookup_singleton_Some in Hu as [_ <-]; done|apply list_lookup_singleton_Some in Ht as [_ <-]; done..].
  - destruct (sys_tasks s !! i) as [t|] eqn:Ei; [|done].
    destruct (Forall2_lookup_r _ _ _ _ _ Hts Ei) as (msg & _ & Hm).
    pose proof (resume_spec (sys_sessions s) t (sys_db s) msg Hin Hm) as Hr.
    assert (forall msg', task_for msg' t -> task_for msg' (fst (fst (resume to_json (sys_sessions s) t (sys_db s))))) as Hall.
    { intros msg' Hm'. pose proof (resume_spec (sys_sessions s) t (sys_db s) msg' Hin Hm') as Hr'.
      by destruct (resume _ _ _ _) as [[? ?] ?]; destruct Hr' as (_ & ? & _). }
    destruct (resume to_json (sys_sessions s) t (sys_db s)) as [[t' db'] mail]. destruct Hr as (Hi' & _ & Hadd).
    by apply (consistent_set (arrivals hs) s i t).
  - destruct (sys_tasks s !! i) as [t|] eqn:Ei; [|done].
    apply (consistent_set (arrivals hs) s i t); [done..| |].
    + intros msg. by destruct t.
    + left. by destruct t.
  - apply consistent_db; [done|by apply after_integrity|]. intros j e He. apply after_events; [|done..].
    by destruct m.
  - by apply consistent_db.
Qed.

Definition start (db : DB) (sess : Sessions (Addr := Addr)) : System := mkSystem db sess [] [].

Lemma happens_consistent hs db sess :
  integrity (tables_of db) -> Forall harmless hs -> consistent (arrivals hs) (happens (start db sess) hs).
Proof.
  intros Hi. induction hs as [|h hs IH] using rev_ind; intros Hh.
  - by split; cbn; [|constructor| |].
  - apply Forall_app in Hh as [Hhs [Hh _]%Forall_cons]. unfold EventProcessor.happens. rewrite foldl_snoc.
    apply happen_consistent; [done|]. by apply IH.
Qed.

(** Nothing but the futures writes or deletes an event. *)
Definition quiet (h : Happening (Addr := Addr)) : Prop :=
  match h with Request (DeleteDevice _) | Request (InsertEvent _) => False | _ => True end.

Lemma quiet_harmless h : quiet h -> harmless h.
Proof. by destruct h as [| | |[]|]. Qed.

(** The events are those of [db0] and one row for each that a future inserted. *)
Record accounted (db0 : DB) (s : System (DB := DB) (Addr := Addr)) : Prop := {
  acc_rows : forall j r, events (sys_db s) !! j = Some r <-> events db0 !! j = Some r \/
    exists e, e ∈ omap inserted (sys_tasks s) /\ event_id e = j /\ r = stored_event e;
  acc_size : size (events (sys_db s)) = (size (events db0) + length (omap inserted (sys_tasks s)))%nat;
}.

Lemma accounted_set db0 s i t t' db' sess mail :
  sys_tasks s !! i = Some t -> adds_row t t' (sys_db s) db' -> accounted db0 s ->
  accounted db0 (mkSystem db' sess (<[i := t']> (sys_tasks s)) mail).
Proof.
  intros Hi [[Ho Heq]|(e & Ho & He & Hn & Heq)] [Hrows Hsize].
  - by split; cbn; rewrite (omap_insert_same inserted _ _ _ _ Hi Ho), ?Heq.
  - pose proof (omap_insert_new inserted _ i t t' e Hi Ho He) as Hp. split; cbn; rewrite Heq.
    + intros j r. setoid_rewrite Hp. rewrite lookup_insert_Some, Hrows. split.
      * intros [[<- <-]|[_ [?|(e' & ? & ?)]]]; [right|by left|right; exists e'; rewrite elem_of_app; auto].
        exists e. rewrite elem_of_app, list_elem_of_singleton. auto.
      * intros Hj. destruct (decide (event_id e = j)) as [<-|Hne].
        { left. split; [done|]. assert (forall x, events (sys_db s) !! event_id e = Some x -> False) as Hno by congruence.
          destruct Hj as [Hj|(e' & He' & Hid & ->)]; [by destruct (Hno r); apply Hrows; left|].
          apply elem_of_app in He' as [He'| ->%list_elem_of_singleton]; [|done].
          destruct (Hno (stored_event e')). apply Hrows. right. by exists e'. }
        right. split; [done|]. destruct Hj as [?|(e' & He' & Hid & ->)]; [by left|]. right.
        apply elem_of_app in He' as [He'| ->%list_elem_of_singleton]; [by exists e'|done].
    + rewrite Hp, length_app, map_size_insert_None by done. cbn. lia.
Qed.

Lemma happen_accounted db0 msgs s h :
  quiet h -> consistent msgs s -> accounted db0 s -> accounted db0 (happen s h).
Proof.
  intros Hq Hc Ha. destruct h as [msg|i|i e|m|a]; cbn [EventProcessor.happen].
  - destruct Ha as [Hr Hs]. by split; cbn; rewrite omap_app, app_nil_r.
  - destruct (sys_tasks s !! i) as [t|] eqn:Ei; [|done].
    destruct (Forall2_lookup_r _ _ _ _ _ (con_tasks _ _ Hc) Ei) as (msg & _ & Hm).
    pose proof (resume_spec (sys_sessions s) t (sys_db s) msg (con_integrity _ _ Hc) Hm) as Hr.
    destruct (resume _ _ _ _) as [[t' db'] mail]. destruct Hr as (_ & _ & Hadd). by apply (accounted_set db0 s i t).
  - destruct (sys_tasks s !! i) as [t|] eqn:Ei; [|done]. apply (accounted_set db0 s i t); [done| |done]. left. by destruct t.
  - destruct Ha as [Hr Hs]. pose proof (after_events_same m (sys_db s)) as Heq.
    split; cbn; rewrite Heq; try done; try apply (con_integrity _ _ Hc); by destruct m.
  - destruct Ha. by split.
Qed.

Lemma happens_accounted hs db sess :
  integrity (tables_of db) -> Forall quiet hs -> accounted db (happens (start db sess) hs).
Proof.
  intros Hi. induction hs as [|h hs IH] using rev_ind; intros Hh.
  - split; cbn; [|lia]. intros j r. split; [auto|]. by intros [?|(? & []%not_elem_of_nil & _)].
  - apply Forall_app in Hh as [Hhs [Hh _]%Forall_cons]. unfold EventProcessor.happens. rewrite foldl_snoc.
    eapply happen_accounted; [done| |by apply IH]. apply (happens_consistent hs db sess Hi).
    eapply Forall_impl; [exact Hhs|exact quiet_harmless].
Qed.

(** What a happening does to the database, the handlers of messages do. *)
Lemma happen_db (s : System (DB := DB) (Addr := Addr)) h :
  sys_db (happen s h) = sys_db s \/
  exists m, sys_db (happen s h) = after m (sys_db s) /\ (harmless h -> match m with DeleteDevice _ => False | _ => True end).
Proof.
  destruct h as [msg|i|i e|m|a]; cbn [EventProcessor.happen]; [by left| | | |by left].
  - destruct (sys_tasks s !! i) as [t|]; [|by left]. destruct t as [m|m ls|e ls|r]; cbn [resume]; [right..|by left|by left].
    + exists SelectLabels. cbn [after]. by destruct (handle_select_labels (sys_db s)) as [[ls|e] db].
    + exists (InsertEvent m). cbn [after]. by destruct (handle_insert_event m (sys_db s)) as [[e|e] db].
  - left. by destruct (sys_tasks s !! i).
  - right. exists m. split; [done|]. by destruct m.
Qed.

Lemma happens_integrity hs (s : System (DB := DB) (Addr := Addr)) :
  integrity (tables_of (sys_db s)) -> integrity (tables_of (sys_db (happens s hs))).
Proof.
  intros Hi. induction hs as [|h hs IH] using rev_ind; [done|]. unfold EventProcessor.happens in *. rewrite foldl_snoc.
  destruct (happen_db (foldl happen s hs) h) as [->|(m & -> & _)]; [done|by apply after_integrity].
Qed.

Lemma happens_rows hs (s : System (DB := DB) (Addr := Addr)) c :
  integrity (tables_of (sys_db s)) -> Forall harmless hs -> c ∈ t_credentials (tables_of (sys_db s)) ->
  c ∈ t_credentials (tables_of (sys_db (happens s hs))).
Proof.
  intros Hi Hh Hc. induction hs as [|h hs IH] using rev_ind; [done|].
  apply Forall_app in Hh as [Hhs [Hh _]%Forall_cons]. specialize (IH Hhs). pose proof (happens_integrity hs s Hi) as Hi'.
  unfold EventProcessor.happens in *. rewrite foldl_snoc.
  destruct (happen_db (foldl happen s hs) h) as [->|(m & -> & Hm)]; [done|]. apply after_rows; [by apply Hm|done..].
Qed.

(** ** Termination: a future needs at most three resumptions. *)

Definition rank (t : Task) : nat :=
  match t with SelectLabels_ _ => 3 | InsertEvent_ _ _ => 2 | Broadcast_ _ _ => 1 | Done _ => 0 end.
Definition resumptions (i : nat) (hs : list (Happening (Addr := Addr))) : nat :=
  length (omap (fun h => match h with Resume j => if decide (i = j) then Some tt else None | _ => None end) hs).

Lemma resume_rank (sess : Sessions (Addr := Addr)) t (db : DB) :
  (rank (fst (fst (resume to_json sess t db))) <= rank t - 1)%nat.
Proof.
  destruct t as [m|m ls|e ls|r]; cbn [resume]; [| |cbn; lia..].
  - destruct (handle_select_labels db) as [[?|?] ?]; cbn; lia.
  - destruct (handle_insert_event m db) as [[?|?] ?]; cbn; lia.
Qed.

Lemma resumptions_cons i h hs : resumptions i (h :: hs) = (resumptions i [h] + resumptions i hs)%nat.
Proof. unfold resumptions. change (h :: hs) with ([h] ++ hs). by rewrite omap_app, length_app. Qed.

Lemma happen_rank s h i t :
  sys_tasks s !! i = Some t ->
  exists t', sys_tasks (happen s h) !! i = Some t' /\ (rank t' <= rank t - resumptions i [h])%nat.
Proof.
  intros Hi. destruct h as [msg|j|j e|m|a]; cbn [EventProcessor.happen].
  - exists t. cbn. split; [by apply lookup_app_l_Some|lia].
  - unfold resumptions; cbn. destruct (decide (i = j)) as [<-|Hne].
    + rewrite Hi. pose proof (resume_rank (sys_sessions s) t (sys_db s)) as Hr.
      destruct (resume to_json (sys_sessions s) t (sys_db s)) as [[t' db'] mail]. exists t'. cbn in *.
      split; [|done]. apply list_lookup_insert_eq. by eapply lookup_lt_Some.
    + exists t. split; [|cbn; lia]. destruct (sys_tasks s !! j) as [u|]; [|done].
      destruct (resume to_json (sys_sessions s) u (sys_db s)) as [[u' db'] mail]. cbn.
      by rewrite list_lookup_insert_ne.
  - destruct (sys_tasks s !! j) as [u|] eqn:Ej; [|exists t; split; [done|cbn; lia]].
    destruct (decide (i = j)) as [<-|Hne]; cbn.
    + rewrite Hi in Ej. injection Ej as <-. exists (undelivered e t). split.
      * apply list_lookup_insert_eq. by eapply lookup_lt_Some.
      * destruct t; cbn; lia.
    + exists t. rewrite list_lookup_insert_ne by done. split; [done|lia].
  - exists t. cbn. split; [done|lia].
  - exists t. cbn. split; [done|lia].
Qed.

Lemma happens_rank hs s i t :
  sys_tasks s !! i = Some t ->
  exists t', sys_tasks (happens s hs) !! i = Some t' /\ (rank t' <= rank t - resumptions i hs)%nat.
Proof.
  revert s t. induction hs as [|h hs IH]; intros s t Hi; [exists t; split; [done|cbn; lia]|].
  destruct (happen_rank s h i t Hi) as (t1 & H1 & Hr1). destruct (IH _ _ H1) as (t2 & H2 & Hr2).
  exists t2. split; [done|]. rewrite resumptions_cons. lia.
Qed.

(** ** Mail *)

(** The messages a session gets. *)
Definition texts_to (a : Addr) (mail : list (Addr * WsMessage)) : list WsMessage :=
  omap (fun '(b, m) => if decide (b = a) then Some m else None) mail.

Lemma texts_to_send a e (sess : Sessions (Addr := Addr)) :
  texts_to a (send_event to_json e sess) = map (fun _ => Text (to_json e)) (filter (fun b => b = a) (listeners sess)).
Proof.
  rewrite send_event_listeners. unfold texts_to. induction (listeners sess) as [|b bs IH]; [done|].
  rewrite filter_cons. cbn. destruct (decide (b = a)); cbn; [f_equal|]; exact IH.
Qed.

Definition told (a : Addr) (s : System (DB := DB) (Addr := Addr)) : Prop :=
  filter (fun b => b = a) (listeners (sys_sessions s)) = [a] /\
  texts_to a (sys_mail s) ≡ₚ map (fun e => Text (to_json e)) (omap broadcast (sys_tasks s)).

Lemma happen_told a s h : h <> Register a -> told a s -> told a (happen s h).
Proof.
  intros Hh [Hl Hm]. destruct h as [msg|i|i e|m|b]; cbn [EventProcessor.happen].
  - split; [done|]. cbn. by rewrite omap_app, app_nil_r.
  - destruct (sys_tasks s !! i) as [t|] eqn:Ei; [|done].
    destruct (broadcast t) as [e0|] eqn:Eb.
    { destruct t as [| | |[e'|]]; try done. split; [done|]. cbn. by rewrite app_nil_r, list_insert_id. }
    destruct t as [m|m ls|e ls|r]; cbn [resume].
    + destruct (handle_select_labels (sys_db s)) as [[?|?] ?]; (split; [done|]); cbn;
        by rewrite app_nil_r, (omap_insert_same _ _ _ _ _ Ei).
    + destruct (handle_insert_event m (sys_db s)) as [[?|?] ?]; (split; [done|]); cbn;
        by rewrite app_nil_r, (omap_insert_same _ _ _ _ _ Ei).
    + split; [done|]. cbn. rewrite (omap_insert_new broadcast _ _ _ (Done (Ok e)) e Ei) by done.
      unfold texts_to. rewrite omap_app, map_app. fold (texts_to a (sys_mail s)). fold (texts_to a (send_event to_json e (sys_sessions s))).
      by rewrite Hm, texts_to_send, Hl.
    + split; [done|]. cbn. by rewrite app_nil_r, list_insert_id.
  - destruct (sys_tasks s !! i) as [t|] eqn:Ei; [|done]. split; [done|]. cbn.
    rewrite (omap_insert_same _ _ _ _ _ Ei); [done|]. by destruct t.
  - done.
  - split; [|done]. cbn. rewrite listeners_register, filter_app, Hl, filter_cons_False by congruence. done.
Qed.

Lemma happens_told a hs db sess :
  filter (fun b => b = a) (listeners sess) = [a] -> Forall (fun h => h <> Register a) hs ->
  told a (happens (start db sess) hs).
Proof.
  intros Hl. induction hs as [|h hs IH] using rev_ind; intros Hh; [by split|].
  apply Forall_app in Hh as [Hhs [Hh _]%Forall_cons]. unfold EventProcessor.happens. rewrite foldl_snoc.
  apply happen_told; [done|]. by apply IH.
Qed.

(** Every message to a session is the text of an event that was broadcast, and
    stays so. *)
Definition mail_of (s : System (DB := DB) (Addr := Addr)) : Prop :=
  forall a m, (a, m) ∈ sys_mail s -> exists i t e, sys_tasks s !! i = Some t /\ broadcast t = Some e /\ m = Text (to_json e).

Lemma mail_of_set s i t t' db sess :
  sys_tasks s !! i = Some t -> (forall e, broadcast t = Some e -> broadcast t' = Some e) -> mail_of s ->
  mail_of (mkSystem db sess (<[i := t']> (sys_tasks s)) (sys_mail s)).
Proof.
  intros Hi Hb Hm a m Hin. destruct (Hm a m Hin) as (j & u & e & Hj & Hu & ->). cbn. destruct (decide (j = i)) as [->|Hne].
  - rewrite Hi in Hj. injection Hj as <-. exists i, t', e. split_and!; [|by apply Hb|done].
    apply list_lookup_insert_eq. by eapply lookup_lt_Some.
  - exists j, u, e. split_and!; [|done|done]. by rewrite list_lookup_insert_ne.
Qed.

Lemma mail_of_send s i e ls :
  sys_tasks s !! i = Some (Broadcast_ e ls) -> mail_of s ->
  mail_of (mkSystem (sys_db s) (sys_sessions s) (<[i := Done (Ok e)]> (sys_tasks s))
    (sys_mail s ++ send_event to_json e (sys_sessions s))).
Proof.
  intros Hi Hm a m [Hin|Hin]%elem_of_app; cbn.
  - by refine (mail_of_set s i (Broadcast_ e ls) (Done (Ok e)) (sys_db s) (sys_sessions s) Hi _ Hm a m Hin).
  - rewrite send_event_listeners in Hin. apply list_elem_of_fmap in Hin as (b & [= <- ->] & _).
    exists i, (Done (Ok e)), e. split_and!; [|done|done]. apply list_lookup_insert_eq. by eapply lookup_lt_Some.
Qed.

Lemma happens_mail db sess hs : mail_of (happens (start db sess) hs).
Proof.
  induction hs as [|h hs IH] using rev_ind; [by intros a m []%not_elem_of_nil|].
  unfold EventProcessor.happens in *. rewrite foldl_snoc. set (s := foldl happen _ hs) in *. clearbody s.
  destruct h as [msg|i|i e|m|b]; cbn [EventProcessor.happen].
  - intros a m Hin. destruct (IH a m Hin) as (j & u & e & Hj & Hu & ->). exists j, u, e. cbn.
    split_and!; [by apply lookup_app_l_Some|done|done].
  - destruct (sys_tasks s !! i) as [t|] eqn:Ei; [|done]. destruct t as [m|m ls|e ls|r]; cbn [resume].
    + destruct (handle_select_labels (sys_db s)) as [[?|?] ?]; rewrite app_nil_r; by apply (mail_of_set s i _ _ _ _ Ei).
    + destruct (handle_insert_event m (sys_db s)) as [[?|?] ?]; rewrite app_nil_r; by apply (mail_of_set s i _ _ _ _ Ei).
    + by apply (mail_of_send s i e ls).
    + rewrite app_nil_r. by apply (mail_of_set s i (Done r)).
  - destruct (sys_tasks s !! i) as [t|] eqn:Ei; [|done]. apply (mail_of_set s i t); [done|by destruct t|done].
  - exact IH.
  - exact IH.
Qed.

(** Who listens hears what is broadcast from then on. *)
Lemma happen_listeners s h a : a ∈ listeners (sys_sessions s) -> a ∈ listeners (sys_sessions (happen s h)).
Proof.
  intros Ha. destruct h as [msg|i|i e|m|b]; cbn [EventProcessor.happen]; try done.
  - destruct (sys_tasks s !! i) as [t|]; [|done]. by destruct (resume to_json (sys_sessions s) t (sys_db s)) as [[? ?] ?].
  - by destruct (sys_tasks s !! i).
  - cbn [sys_sessions]. rewrite listeners_register. apply elem_of_app. by left.
Qed.

Lemma happen_heard s h i e a :
  sys_tasks (happen s h) !! i = Some (Done (Ok e)) -> a ∈ listeners (sys_sessions s) ->
  sys_tasks s !! i = Some (Done (Ok e)) \/ (a, Text (to_json e)) ∈ sys_mail (happen s h).
Proof.
  intros Ht Ha. destruct h as [msg|j|j err|m|b]; cbn [EventProcessor.happen] in *; try by left.
  - cbn in Ht. apply lookup_app_Some in Ht as [Ht|[_ Ht]]; [by left|]. by apply list_lookup_singleton_Some in Ht as [_ ?].
  - destruct (sys_tasks s !! j) as [t|] eqn:Hj; [|by left]. destruct t as [m|m ls|e' ls|r]; cbn [resume] in *;
      [destruct (handle_select_labels (sys_db s)) as [[?|?] ?]|destruct (handle_insert_event m (sys_db s)) as [[?|?] ?]|..];
      cbn [sys_tasks sys_mail] in *; apply list_lookup_insert_Some in Ht as [(-> & [= <-] & _)|[_ Ht]]; try by left.
    right. apply elem_of_app. right. rewrite send_event_listeners. apply list_elem_of_fmap. by exists a.
  - destruct (sys_tasks s !! j) as [t|] eqn:Hj; [|by left]. cbn [sys_tasks] in Ht.
    apply list_lookup_insert_Some in Ht as [(-> & Heq & _)|[_ Ht]]; [|by left]. left.
    destruct t as [| | |r]; try done. by injection Heq as <-.
Qed.

Lemma happen_mail_keeps s h x : x ∈ sys_mail s -> x ∈ sys_mail (happen s h).
Proof.
  intros Hx. destruct h as [msg|j|j err|m|b]; cbn [EventProcessor.happen]; try done.
  - destruct (sys_tasks s !! j) as [t|]; [|done]. destruct (resume to_json (sys_sessions s) t (sys_db s)) as [[? ?] ?].
    cbn. apply elem_of_app. by left.
  - by destruct (sys_tasks s !! j).
Qed.

Lemma happens_heard hs s i e a :
  a ∈ listeners (sys_sessions s) -> sys_tasks s !! i <> Some (Done (Ok e)) ->
  sys_tasks (happens s hs) !! i = Some (Done (Ok e)) -> (a, Text (to_json e)) ∈ sys_mail (happens s hs).
Proof.
  intros Ha Hn. unfold EventProcessor.happens. induction hs as [|h hs IH] using rev_ind; [done|]. rewrite foldl_snoc.
  intros Ht. apply happen_heard with (a := a) in Ht as [Ht|Ht]; [by apply happen_mail_keeps, IH|done|].
  clear -Ha. induction hs as [|h hs IH] using rev_ind; [done|]. rewrite foldl_snoc. by apply happen_listeners.
Qed.

(** ** Properties *)

(** C13: whatever the interleaving of the futures with each other and with
    requests that delete no device, every event that a future has inserted, so
    every one that was broadcast, is the event of its message (kind, payload,
    times and device) under an identifier of its own, and its row in the database
    is that event with its times as a column keeps them; different messages end
    in different events; and the constraints hold. No message is stored twice:
    if the requests insert no event either, then the rows are those there were
    before and one for each event that was inserted, and no other. *)
Theorem broadcast_events_are_stored (db : DB) (sess : Sessions (Addr := Addr)) (hs : list Happening) :
  integrity (tables_of db) -> Forall harmless hs ->
  let s := happens (start db sess) hs in
  integrity (tables_of (sys_db s)) /\ length (sys_tasks s) = length (arrivals hs) /\
  (forall t e, broadcast t = Some e -> inserted t = Some e) /\
  (forall i t e, sys_tasks s !! i = Some t -> inserted t = Some e ->
     events (sys_db s) !! event_id e = Some (stored_event e) /\ exists msg, arrivals hs !! i = Some msg /\ event_for msg e) /\
  (forall i j t u e f, sys_tasks s !! i = Some t -> sys_tasks s !! j = Some u ->
     inserted t = Some e -> inserted u = Some f -> event_id e = event_id f -> i = j) /\
  (Forall quiet hs ->
     (forall j r, events (sys_db s) !! j = Some r <-> events db !! j = Some r \/
        exists e, e ∈ omap inserted (sys_tasks s) /\ event_id e = j /\ r = stored_event e) /\
     size (events (sys_db s)) = (size (events db) + length (omap inserted (sys_tasks s)))%nat).
Proof.
  intros Hi Hh s. destruct (happens_consistent hs db sess Hi Hh) as [Hin Hts Hst Hd].
  split_and!; [done|symmetry; by eapply Forall2_length|by intros [| | |[|]]| |done|].
  - intros i t e Ht He. split; [by apply (Hst i t); auto|].
    destruct (Forall2_lookup_r _ _ _ _ _ Hts Ht) as (msg & Hmsg & Hf). exists msg. split; [done|].
    destruct t as [| | |[|]]; cbn in He; simplify_eq; done.
  - intros Hq. destruct (happens_accounted hs db sess Hi Hq) as [Hr Hs]. done.
Qed.

(** A session that was registered once before gets the text of every
    event whose future has completed, each once, and nothing else, while other
    sessions come and futures fail. *)
Lemma session_told_once (a : Addr) (db : DB) (sess : Sessions (Addr := Addr)) (hs : list Happening) :
  filter (fun b => b = a) (listeners sess) = [a] -> Forall (fun h => h <> Register a) hs ->
  let s := happens (start db sess) hs in
  texts_to a (sys_mail s) ≡ₚ map (fun e => Text (to_json e)) (omap broadcast (sys_tasks s)).
Proof. intros Hl Hh. apply (happens_told a hs db sess Hl Hh). Qed.

(** The processing of an event terminates: after three resumptions its
    future has a result, whatever else happens in between. *)
Lemma processing_terminates (s : System (DB := DB) (Addr := Addr)) (hs : list Happening) (i : nat) (t : Task) :
  sys_tasks s !! i = Some t -> (3 <= resumptions i hs)%nat ->
  exists r, sys_tasks (happens s hs) !! i = Some (Done r).
Proof.
  intros Ht Hn. destruct (happens_rank hs s i t Ht) as (t' & Ht' & Hr).
  assert (rank t <= 3)%nat by (destruct t; cbn; lia). destruct t' as [| | |r]; cbn in Hr; [lia..|]. by exists r.
Qed.
End Laws.

(** ** Witnesses: two events whose futures interleave, and a late session *)

#[local] Existing Instances LittleEndian.uuid16_ops MemStore.chrono_pair store_postgres store_laws.

Definition json0 (e : Event) : string := "{}".
Definition sess0 : Sessions (Addr := nat) := register TargetEvent 5%nat no_sessions.
Definition hs0 : list (Happening (Addr := nat)) :=
  [Arrive ne0; Arrive ne0; Resume 1; Resume 0; Register 7%nat; Resume 1; Resume 1; Resume 0; Resume 0].

(** Both are broadcast, the second message first. *)
Example interleaved_broadcasts :
  map fst (sys_mail (happens json0 (start db1 sess0) hs0)) = [5; 7; 5; 7]%nat.
Proof. vm_compute. reflexivity. Qed.

Lemma broadcast_events_are_stored_witness :
  let s := happens json0 (start db1 sess0) hs0 in
  length (omap broadcast (sys_tasks s)) = 2%nat /\
  size (t_events (tables_of (sys_db s))) = (size (t_events (tables_of db1)) + length (omap inserted (sys_tasks s)))%nat.
Proof. split; [vm_compute; reflexivity|]. apply (broadcast_events_are_stored json0 db1 sess0 hs0 db1_integrity); repeat constructor. Defined.

Lemma session_told_once_witness :
  let s := happens json0 (start db1 sess0) hs0 in
  texts_to 5%nat (sys_mail s) ≡ₚ map (fun e => Text (json0 e)) (omap broadcast (sys_tasks s)).
Proof. apply (session_told_once json0 5%nat db1 sess0 hs0); [reflexivity|]. repeat (constructor; try discriminate). Defined.

Lemma processing_terminates_witness :
  exists r, sys_tasks (happens json0 (mkSystem db1 sess0 [SelectLabels_ ne0] []) [Resume 0; Resume 0; Resume 0]) !! 0%nat
    = Some (Done r).
Proof.
  apply (processing_terminates json0 (mkSystem db1 sess0 [SelectLabels_ ne0] []) [Resume 0; Resume 0; Resume 0] 0 (SelectLabels_ ne0)).
  - reflexivity.
  - apply Nat.leb_le. reflexivity.
Defined.
