(* ===== verification/Sessions.v ===== *)
(** * The websocket sessions until they close (backend/src/actor/ws_manager.rs)

    The actor [WsSession]: its mailbox, its socket, its life. [do_send] of
    [WsManager::send_event] puts a message into the mailbox of a session that
    runs, and is lost on one that has stopped; the table of the manager keeps
    the address for ever. The sessions run beside the event processor, in any
    interleaving. *)
From S2P Require Import Prelude MachineInt Bincode DbTypes Store DbHandlers WsManager EventProcessor.
From S2P Require LittleEndian MemStore.
Open Scope Z_scope.

(** ** The actor *)

(** [WsSession] in its [WebsocketContext]: the mailbox, the texts written to
    the socket, and what its logger was told. *)
Record WsSession : Type := mkWsSession {
  se_running : bool;
  se_mailbox : list WsMessage;
  se_socket : list string;
  se_log : list string;
}.

Definition session_started : string := "ws session started".
Definition session_is_stopping : string := "ws session is stopping".
Definition session_stopped : string := "ws session stopped".

(** [WsSession::new], and [Actor::started]. *)
Definition ws_session_new : WsSession := mkWsSession true [] [] [session_started].

(** [do_send]. *)
Definition session_send (m : WsMessage) (s : WsSession) : WsSession :=
  if se_running s then mkWsSession true (se_mailbox s ++ [m]) (se_socket s) (se_log s) else s.

(** [Handler<WsMessage>] on the next message. *)
Definition session_next (s : WsSession) : WsSession :=
  match se_running s, se_mailbox s with
  | true, m :: rest => mkWsSession true rest (se_socket s ++ [session_handle m]) (se_log s)
  | _, _ => s
  end.

(** [StreamHandler::handle]: what the browser sends is ignored. *)
Definition session_incoming (s : WsSession) : WsSession := s.

(** The stream from the browser has ended: the actor stops, by
    [Actor::stopping], which does not keep it, and [Actor::stopped]. *)
Definition session_finished (s : WsSession) : WsSession :=
  if se_running s then mkWsSession false [] (se_socket s) (se_log s ++ [session_is_stopping; session_stopped]) else s.

(** ** Sessions and the event processor *)

Section Sessions.
Context `{U : UuidOps} `{C : Chrono} {DB : Type} `{PG : !Postgres DB} {Addr : Type} `{!EqDecision Addr} (to_json : Event -> string).

Record Live : Type := mkLive {
  lv_system : System (DB := DB) (Addr := Addr);
  lv_session : Addr -> WsSession;
}.

Inductive Step : Type :=
| Happens (h : Happening (Addr := Addr))
| Next (a : Addr)
| Incoming (a : Addr)
| Finished (a : Addr).

Definition on (a : Addr) (f : WsSession -> WsSession) (l : Live) : Live :=
  mkLive (lv_system l) (fun b => if decide (b = a) then f (lv_session l b) else lv_session l b).

(** The messages a happening sends go to the mailboxes. *)
Definition deliver (mail : list (Addr * WsMessage)) (f : Addr -> WsSession) : Addr -> WsSession :=
  fun b => foldl (fun s m => session_send m s) (f b) (texts_to b mail).
Definition step (x : Step) (l : Live) : Live :=
  match x with
  | Happens h =>
      let s := happen to_json (lv_system l) h in
      mkLive s (deliver (drop (length (sys_mail (lv_system l))) (sys_mail s)) (lv_session l))
  | Next a => on a session_next l
  | Incoming a => on a session_incoming l
  | Finished a => on a session_finished l
  end.
Definition steps (xs : list Step) (l : Live) : Live := foldl (fun l x => step x l) l xs.

Definition live (db : DB) (sess : Sessions (Addr := Addr)) : Live := mkLive (start db sess) (fun _ => ws_session_new).

Definition happenings (xs : list Step) : list Happening := omap (fun x => match x with Happens h => Some h | _ => None end) xs.

(** ** Lemmas *)

(** The texts of the messages. *)
Definition texts (ms : list WsMessage) : list string := map session_handle ms.

Lemma happen_mail (s : System (DB := DB) (Addr := Addr)) h : exists new, sys_mail (happen to_json s h) = sys_mail s ++ new.
Proof using Type.
  destruct h as [msg|i|i e|m|a]; cbn [happen]; [by exists []; rewrite app_nil_r| | |by exists []; rewrite app_nil_r..].
  - destruct (sys_tasks s !! i) as [t|]; [|by exists []; rewrite app_nil_r].
    destruct (resume to_json (sys_sessions s) t (sys_db s)) as [[t' db] mail]. by exists mail.
  - exists []. rewrite app_nil_r. by destruct (sys_tasks s !! i).
Qed.

Lemma steps_system xs db sess : lv_system (steps xs (live db sess)) = happens to_json (start db sess) (happenings xs).
Proof using Type.
  unfold steps, happens. induction xs as [|x xs IH] using rev_ind; [done|]. rewrite foldl_snoc. unfold happenings in *.
  rewrite omap_app, foldl_app, <- IH. by destruct x.
Qed.

(** What a session has done with the messages [ms] that were sent to it. *)
Definition session_ok (ms : list WsMessage) (s : WsSession) : Prop :=
  if se_running s then se_socket s ++ texts (se_mailbox s) = texts ms /\ se_log s = [session_started]
  else se_mailbox s = [] /\ se_socket s `prefix_of` texts ms /\ se_log s = [session_started; session_is_stopping; session_stopped].

Lemma session_send_ok ms new s : session_ok ms s -> session_ok (ms ++ new) (foldl (fun s m => session_send m s) s new).
Proof using Type.
  revert ms s. induction new as [|m new IH]; intros ms s Hs; [by rewrite app_nil_r|]. cbn.
  rewrite (app_assoc ms [m] new : ms ++ m :: new = _). apply IH. unfold session_ok, session_send in *.
  destruct (se_running s) eqn:Hr; cbn; rewrite ?Hr; unfold texts in *.
  - destruct Hs as [Hs Hl]. split; [|done]. by rewrite !map_app, app_assoc, Hs.
  - destruct Hs as (? & Hp & ?). split_and!; [done| |done]. rewrite map_app. by apply prefix_app_r.
Qed.

Lemma session_next_ok ms s : session_ok ms s -> session_ok ms (session_next s).
Proof using Type.
  unfold session_ok, session_next. destruct (se_running s) eqn:Hr; [|by rewrite Hr].
  destruct (se_mailbox s) as [|m rest] eqn:Hm; [by rewrite Hr, Hm|]. cbn. intros [Hs Hl]. split; [|done]. by rewrite <- app_assoc.
Qed.

Lemma session_finished_ok ms s : session_ok ms s -> session_ok ms (session_finished s).
Proof using Type.
  unfold session_ok, session_finished. destruct (se_running s) eqn:Hr; [|by rewrite Hr]. cbn. intros [Hs Hl].
  split_and!; [done| |by rewrite Hl]. rewrite <- Hs. by apply prefix_app_r.
Qed.

Lemma texts_to_app (a : Addr) l l' : texts_to a (l ++ l') = texts_to a l ++ texts_to a l'.
Proof using Type. apply omap_app. Qed.

Lemma steps_ok xs db sess a :
  session_ok (texts_to a (sys_mail (lv_system (steps xs (live db sess))))) (lv_session (steps xs (live db sess)) a).
Proof using Type.
  unfold steps. induction xs as [|x xs IH] using rev_ind; [done|]. rewrite foldl_snoc.
  set (l := foldl _ _ xs) in *. clearbody l. destruct x as [h|b|b|b]; cbn [step on lv_system lv_session].
  - destruct (happen_mail (lv_system l) h) as [new ->]. rewrite drop_app_length, texts_to_app. by apply session_send_ok.
  - destruct (decide (a = b)); [by apply session_next_ok|done].
  - by destruct (decide (a = b)).
  - destruct (decide (a = b)); [by apply session_finished_ok|done].
Qed.

(** The event whose handling a happening completes, and those of many, in the
    order of their completion. *)
Definition completed (s : System (DB := DB) (Addr := Addr)) (h : Happening (Addr := Addr)) : list Event :=
  match h with
  | Resume i => match sys_tasks s !! i with Some (Broadcast_ e _) => [e] | _ => [] end
  | _ => []
  end.
Fixpoint completions (s : System (DB := DB) (Addr := Addr)) (hs : list (Happening (Addr := Addr))) : list Event :=
  match hs with
  | [] => []
  | h :: hs => completed s h ++ completions (happen to_json s h) hs
  end.

Lemma completions_snoc s hs h :
  completions s (hs ++ [h]) = completions s hs ++ completed (happens to_json s hs) h.
Proof using Type.
  revert s. induction hs as [|h' hs IH]; intros s; cbn; [by rewrite app_nil_r|]. by rewrite IH, app_assoc.
Qed.

Lemma happen_completed (s : System (DB := DB) (Addr := Addr)) h :
  omap broadcast (sys_tasks (happen to_json s h)) ≡ₚ omap broadcast (sys_tasks s) ++ completed s h /\
  sys_mail (happen to_json s h) = sys_mail s ++ concat (map (fun e => send_event to_json e (sys_sessions s)) (completed s h)).
Proof using Type.
  destruct h as [msg|i|i e|m|a]; cbn [happen completed]; try (cbn; by rewrite !app_nil_r).
  - cbn. by rewrite omap_app, !app_nil_r.
  - destruct (sys_tasks s !! i) as [t|] eqn:Ei; [|cbn; by rewrite !app_nil_r]. destruct t as [m|m ls|e ls|r]; cbn [resume].
    + destruct (handle_select_labels (sys_db s)) as [[?|?] ?]; cbn; by rewrite !app_nil_r, (omap_insert_same _ _ _ _ _ Ei).
    + destruct (handle_insert_event m (sys_db s)) as [[?|?] ?]; cbn; by rewrite !app_nil_r, (omap_insert_same _ _ _ _ _ Ei).
    + cbn. rewrite app_nil_r. by rewrite (omap_insert_new broadcast _ _ _ (Done (Ok e)) e Ei).
    + cbn. by rewrite !app_nil_r, list_insert_id.
  - destruct (sys_tasks s !! i) as [t|] eqn:Ei; cbn; rewrite !app_nil_r; [|done].
    rewrite (omap_insert_same _ _ _ _ _ Ei); [done|]. by destruct t.
Qed.

Lemma happens_completed a (hs : list (Happening (Addr := Addr))) db sess :
  filter (fun b => b = a) (listeners sess) = [a] -> Forall (fun h => h <> Register a) hs ->
  let s := happens to_json (start db sess) hs in
  let order := completions (start db sess) hs in
  filter (fun b => b = a) (listeners (sys_sessions s)) = [a] /\
  order ≡ₚ omap broadcast (sys_tasks s) /\ texts_to a (sys_mail s) = map (fun e => Text (to_json e)) order.
Proof using Type.
  intros Ha. induction hs as [|h hs IH] using rev_ind; intros Hh; [done|].
  apply Forall_app in Hh as [Hhs [Hh _]%Forall_cons]. destruct (IH Hhs) as (Hl & Hp & Ht). cbv zeta.
  rewrite completions_snoc. unfold happens in *. rewrite foldl_snoc. set (s := foldl _ _ hs) in *. clearbody s.
  destruct (happen_completed s h) as [Hp' ->]. split_and!.
  - destruct h as [msg|i|i e|m|b]; cbn [happen]; try done.
    + destruct (sys_tasks s !! i) as [t|]; [|done]. by destruct (resume to_json (sys_sessions s) t (sys_db s)) as [[? ?] ?].
    + by destruct (sys_tasks s !! i).
    + cbn. rewrite listeners_register, filter_app, Hl, filter_cons_False by congruence. done.
  - by rewrite Hp', Hp.
  - rewrite texts_to_app, Ht, map_app. f_equal. clear Hp'. induction (completed s h) as [|e es IHe]; [done|]. cbn [concat map].
    by rewrite texts_to_app, IHe, texts_to_send, Hl.
Qed.

Lemma happenings_app xs ys : happenings (xs ++ ys) = happenings xs ++ happenings ys.
Proof using Type. apply omap_app. Qed.

(** A session that runs has not seen the end of its stream; on one that does not,
    nothing is written any more. *)
Lemma step_running (x : Step) (l : Live) a :
  if se_running (lv_session l a)
  then (x <> Finished a /\ se_running (lv_session (step x l) a) = true) \/
    (x = Finished a /\ se_running (lv_session (step x l) a) = false /\
     se_socket (lv_session (step x l) a) = se_socket (lv_session l a))
  else lv_session (step x l) a = lv_session l a.
Proof using Type.
  assert (forall ms s, (if se_running s then se_running (foldl (fun s m => session_send m s) s ms) = true
    else foldl (fun s m => session_send m s) s ms = s)) as Hsend.
  { induction ms as [|m ms IH]; intros s; cbn; [by destruct (se_running s)|]. specialize (IH (session_send m s)).
    unfold session_send in *. destruct (se_running s) eqn:Hr; cbn in *; [exact IH|]. by rewrite Hr in IH. }
  destruct x as [h|b|b|b]; cbn [step on lv_session].
  - specialize (Hsend (texts_to a (drop (length (sys_mail (lv_system l))) (sys_mail (happen to_json (lv_system l) h)))) (lv_session l a)).
    unfold deliver. destruct (se_running (lv_session l a)); [by left|done].
  - unfold session_next. destruct (decide (a = b)); destruct (se_running (lv_session l a)) eqn:Hr; try done; [|by left].
    destruct (se_mailbox _); by left.
  - destruct (decide (a = b)); unfold session_incoming; destruct (se_running (lv_session l a)) eqn:Hr; try done; by left.
  - unfold session_finished. destruct (decide (a = b)) as [->|Hne]; destruct (se_running (lv_session l _)) eqn:Hr; try done.
    + by right.
    + left. split; [congruence|done].
Qed.

Lemma session_ends xs (db : DB) (sess : Sessions (Addr := Addr)) a :
  if se_running (lv_session (steps xs (live db sess)) a) then Finished a ∉ xs
  else exists pre post, xs = pre ++ Finished a :: post /\ se_running (lv_session (steps pre (live db sess)) a) = true /\
    se_socket (lv_session (steps xs (live db sess)) a) = se_socket (lv_session (steps pre (live db sess)) a).
Proof using Type.
  unfold steps. induction xs as [|x xs IH] using rev_ind; [by intros ?%not_elem_of_nil|].
  rewrite foldl_snoc. set (l := foldl _ _ xs) in *. pose proof (step_running x l a) as Hx.
  destruct (se_running (lv_session l a)) eqn:Hr.
  - destruct Hx as [[Hd ->]|(-> & -> & Hsock)].
    + rewrite elem_of_app, list_elem_of_singleton. intros [?|?]; [done|congruence].
    + exists xs, []. split_and!; [done|exact Hr|exact Hsock].
  - rewrite Hx, Hr. destruct IH as (pre & post & -> & Hp & Hs). exists pre, (post ++ [x]). split_and!; [by rewrite <- app_assoc|done|done].
Qed.

(** ** Property *)

(** C14: what a browser sees. A session that was registered once before gets
    the text of every event whose future completes, each once, in the order of
    their completion, and nothing else: until its stream has ended, what is on
    its socket, followed by what waits in its mailbox, is exactly these texts;
    and when it has ended, what is on the socket is what was on it then, a
    beginning of the texts completed until then, and nothing is written any
    more. Other sessions may come, read at their own pace and close, futures may
    fail, and what a browser sends changes nothing. *)
Theorem session_socket_gets_events (a : Addr) (db : DB) (sess : Sessions (Addr := Addr)) (xs : list Step) :
  filter (fun b => b = a) (listeners sess) = [a] -> Forall (fun h => h <> Register a) (happenings xs) ->
  let at_ xs := lv_session (steps xs (live db sess)) a in
  let order xs := completions (start db sess) (happenings xs) in
  order xs ≡ₚ omap broadcast (sys_tasks (lv_system (steps xs (live db sess)))) /\
  if se_running (at_ xs) then (Finished a ∉ xs) /\
    se_socket (at_ xs) ++ texts (se_mailbox (at_ xs)) = map to_json (order xs) /\ se_log (at_ xs) = [session_started]
  else exists pre post, xs = pre ++ Finished a :: post /\ se_running (at_ pre) = true /\
    se_socket (at_ xs) = se_socket (at_ pre) /\ se_socket (at_ xs) `prefix_of` map to_json (order pre) /\
    se_mailbox (at_ xs) = [] /\ se_log (at_ xs) = [session_started; session_is_stopping; session_stopped].
Proof using Type.
  intros Ha Hxs at_ order.
  assert (forall ys, Forall (fun h => h <> Register a) (happenings ys) -> se_running (at_ ys) = true ->
    se_socket (at_ ys) ++ texts (se_mailbox (at_ ys)) = map to_json (order ys) /\ se_log (at_ ys) = [session_started]) as Hrun.
  { intros ys Hys Hr. pose proof (steps_ok ys db sess a) as Hok. unfold session_ok in Hok. fold (at_ ys) in Hok. rewrite Hr in Hok.
    destruct (happens_completed a (happenings ys) db sess Ha Hys) as (_ & _ & Ht). rewrite <- steps_system in Ht.
    rewrite Ht in Hok. unfold texts in Hok. by rewrite map_map in Hok. }
  destruct (happens_completed a (happenings xs) db sess Ha Hxs) as (_ & Hp & _). rewrite <- steps_system in Hp. split; [exact Hp|].
  pose proof (session_ends xs db sess a) as Hend. fold (at_ xs) in Hend. destruct (se_running (at_ xs)) eqn:Hr.
  { split; [done|]. by apply Hrun. }
  destruct Hend as (pre & post & Heq & Hrp & Hs). fold (at_ pre) in Hrp, Hs. exists pre, post.
  pose proof (steps_ok xs db sess a) as Hok. unfold session_ok in Hok. fold (at_ xs) in Hok. rewrite Hr in Hok. destruct Hok as (Hm & _ & Hl).
  rewrite Heq, happenings_app, Forall_app in Hxs. destruct (Hrun pre (proj1 Hxs) Hrp) as [Hpre _].
  split_and!; [done|done|done| |done|done]. rewrite Hs, <- Hpre. by apply prefix_app_r.
Qed.
End Sessions.

(** ** Witness: one session reads slowly, another one closes early *)

#[local] Existing Instances LittleEndian.uuid16_ops MemStore.chrono_pair store_postgres store_laws.

Definition sess2 : Sessions (Addr := nat) := register TargetEvent 6%nat sess0.
Definition steps2 : list (Step (Addr := nat)) :=
  map Happens [Arrive ne0; Resume 0; Resume 0; Resume 0] ++ [Next 5%nat; Finished 6%nat; Incoming 5%nat; Next 6%nat] ++
  map Happens [Arrive ne0; Resume 1; Resume 1; Resume 1].

Example sockets2 :
  let l := steps json0 steps2 (live db1 sess2) in
  map (fun a => (se_socket (lv_session l a), length (se_mailbox (lv_session l a)))) [5; 6]%nat = [(["{}"], 1%nat); ([], 0%nat)].
Proof. vm_compute. reflexivity. Qed.

(** The first session has one text on its socket and one in its mailbox; the second
    one has left before it wrote the one in its mailbox. *)
Lemma session_socket_gets_events_witness :
  let l := steps json0 steps2 (live db1 sess2) in
  let order xs := completions json0 (start db1 sess2) (happenings xs) in
  length (order steps2) = 2%nat /\
  se_socket (lv_session l 5%nat) ++ texts (se_mailbox (lv_session l 5%nat)) = map json0 (order steps2) /\
  exists pre post, steps2 = pre ++ Finished 6%nat :: post /\ se_socket (lv_session l 6%nat) `prefix_of` map json0 (order pre).
Proof.
  assert (Forall (fun h => h <> Register 5%nat) (happenings steps2)) as H5 by (repeat (constructor; try discriminate)).
  assert (Forall (fun h => h <> Register 6%nat) (happenings steps2)) as H6 by (repeat (constructor; try discriminate)).
  assert (filter (fun b => b = 5%nat) (listeners sess2) = [5%nat]) as F5 by reflexivity.
  assert (filter (fun b => b = 6%nat) (listeners sess2) = [6%nat]) as F6 by reflexivity.
  destruct (session_socket_gets_events json0 5%nat db1 sess2 steps2 F5 H5) as [_ H].
  destruct (session_socket_gets_events json0 6%nat db1 sess2 steps2 F6 H6) as [_ H'].
  assert (se_running (lv_session (steps json0 steps2 (live db1 sess2)) 5%nat) = true) as Hr by (vm_compute; reflexivity).
  assert (se_running (lv_session (steps json0 steps2 (live db1 sess2)) 6%nat) = false) as Hr' by (vm_compute; reflexivity).
  rewrite Hr in H. rewrite Hr' in H'. split; [vm_compute; reflexivity|]. split; [apply H|].
  destruct H' as (pre & post & Heq & _ & _ & Hp & _). exists pre, post. split; [exact Heq|exact Hp].
Defined.
