(* ===== verification/AudioServer.v ===== *)
(** * The audio server (backend/src/actor/audio_server.rs)

    One UDP socket for all clients: a packet from a known address goes to the
    handler of that address, an unknown one must register with its format and
    secret, and is asked to by a handshake. *)
From S2P Require Import Prelude MachineInt Float32 NoiseGate Bincode Audio AudioSink AudioHandler.
From S2P Require DbTypes EventHandler LittleEndian MemStore.
Import DbTypes(Chrono, Device, device_id, NewEvent, Reply).
Open Scope Z_scope.

Section Server.
Context `{U : UuidOps} `{C : Chrono} {W Wr : Type} `{Ho : !Host W Wr} `{B : !Bincode}.

(** The fields that change or matter: the handlers by client address, and the
    directory they get. A handler actor gets its messages in order and works on
    nothing of the server, so it is kept as its state and handles a message
    where it is sent. *)
Record AudioServer : Type := mkServer {
  sv_writers : gmap SocketAddr (AudioHandler (Wr := Wr));
  sv_wav_directory : string;
}.

(** What the server does besides changing its state: packets to clients, and
    through its handlers events to the event processor. *)
Record Effects : Type := mkEffects {
  packets_out : list (list byte * SocketAddr);
  events_out : list NewEvent;
}.

(** [AudioServer::new_handler], at the end of the lookup's future. *)
Definition new_handler (client_addr : SocketAddr) (spec : Spec) (device : Reply Device) (actor : AudioServer)
    : AudioServer :=
  match device with
  | Ok (Ok device) =>
      let writer := handler_new (sv_wav_directory actor) spec (device_id device) in
      mkServer (<[client_addr := writer]> (sv_writers actor)) (sv_wav_directory actor)
  | Ok (Err _) => actor
  | Err _ => actor
  end.

(** [StreamHandler<UdpStream>::handle]; [reply] is the database's answer to the
    lookup of a secret, awaited ([wait]) before the next packet. *)
Definition server_handle (buf : list byte) (client_addr : SocketAddr) (reply : Z -> Reply Device)
    (s : AudioServer) (w : W) : AudioServer * W * Effects :=
  match sv_writers s !! client_addr with
  | Some writer =>
      let '(writer, w, sent) := AudioHandler.handle writer buf w in
      (mkServer (<[client_addr := writer]> (sv_writers s)) (sv_wav_directory s), w, mkEffects [] sent)
  | None =>
      match deserialize (w_Audio w_f32) buf with
      | Ok (SpecMsg secret spec) => (new_handler client_addr spec (reply secret) s, w, mkEffects [] [])
      | Ok _ => (s, w, mkEffects [(serialize (w_Audio w_f32) Handshake, client_addr)] [])
      | Err _ => (s, w, mkEffects [] [])
      end
  end.

(** [Handler<Signal>]: the server stops and is dropped with the addresses of its
    handlers, the only ones there are, so each handler stops too, in the order
    of the table's entries. *)
Definition server_stop (s : AudioServer) (w : W) : W * list NewEvent :=
  foldl (fun '(w, sent) '(_, writer) =>
    let '(_, w, sent') := stopping writer w in (w, sent ++ sent')) (w, []) (map_to_list (sv_writers s)).

(** Packets in the order they are received. *)
Record Packet : Type := mkPacket {
  pk_buf : list byte;
  pk_from : SocketAddr;
  pk_reply : Z -> Reply Device;
}.
Definition serve (s : AudioServer) (w : W) (ps : list Packet) : AudioServer * W * Effects :=
  foldl (fun '(s, w, eff) p =>
    let '(s, w, eff') := server_handle (pk_buf p) (pk_from p) (pk_reply p) s w in
    (s, w, mkEffects (packets_out eff ++ packets_out eff') (events_out eff ++ events_out eff')))
    (s, w, mkEffects [] []) ps.

Definition server_new (wav_directory : string) : AudioServer := mkServer ∅ wav_directory.

(** ** Specification: registration *)

(** The format and device a packet registers its sender with. *)
Definition registration (p : Packet) : option (Spec * Uuid) :=
  match deserialize (w_Audio w_f32) (pk_buf p) with
  | Ok (SpecMsg secret spec) =>
      match pk_reply p secret with
      | Ok (Ok device) => Some (spec, device_id device)
      | _ => None
      end
  | _ => None
  end.

(** The first registration of an address. *)
Definition registered (a : SocketAddr) (ps : list Packet) : option (Spec * Uuid) :=
  head (omap (fun p => if decide (pk_from p = a) then registration p else None) ps).

Definition known_as (h : AudioHandler (Wr := Wr)) : Spec * Uuid := (h_spec h, h_device_id h).

(** ** Lemmas *)

Lemma handle_known_as (h : AudioHandler (Wr := Wr)) buf w :
  let '(h', _, _) := AudioHandler.handle h buf w in known_as h' = known_as h /\ wav_directory h' = wav_directory h.
Proof.
  assert (forall wt into, let '(_, h', _, _) := handler_write wt into h buf w in
    known_as h' = known_as h /\ wav_directory h' = wav_directory h) as Hw.
  { intros wt into. unfold handler_write. destruct (deserialize _ buf) as [[|sec sp|c|i]|e]; try done.
    - unfold ensure_writer. destruct (writers h !! id c) as [aw|].
      + by destruct (writer_write into aw c w) as [[? ?] ?].
      + destruct (writer_new _ _ _ _ w) as [[aw|e] w1]; [|done].
        by destruct (writer_write into aw c w1) as [[? ?] ?].
    - destruct (writers h !! i) as [aw|]; [|done]. by destruct (finalize_writer aw w) as [[? ?] ?]. }
  unfold AudioHandler.handle. destruct (sample_format (h_spec h)).
  - specialize (Hw w_u16 u16_to_i16). by destruct (handler_write w_u16 u16_to_i16 h buf w) as [[[? ?] ?] ?].
  - specialize (Hw w_i16 i16_to_i16). by destruct (handler_write w_i16 i16_to_i16 h buf w) as [[[? ?] ?] ?].
  - specialize (Hw w_f32 f32_to_f32). by destruct (handler_write w_f32 f32_to_f32 h buf w) as [[[? ?] ?] ?].
Qed.

(** A packet changes the registration of its sender only, once. *)
Lemma server_handle_known p s w a :
  let '(s', _, _) := server_handle (pk_buf p) (pk_from p) (pk_reply p) s w in
  known_as <$> sv_writers s' !! a =
    match known_as <$> sv_writers s !! a with
    | Some k => Some k
    | None => if decide (pk_from p = a) then registration p else None
    end.
Proof.
  unfold server_handle. destruct (sv_writers s !! pk_from p) as [h|] eqn:Eh.
  - pose proof (handle_known_as h (pk_buf p) w) as Hk.
    destruct (AudioHandler.handle h (pk_buf p) w) as [[h' w'] sent]. destruct Hk as [Hk _]. cbn.
    destruct (decide (pk_from p = a)) as [<-|Hne].
    + rewrite lookup_insert_eq, Eh. cbn. by rewrite Hk.
    + rewrite lookup_insert_ne by done. by destruct (sv_writers s !! a).
  - unfold registration, new_handler. destruct (decide (pk_from p = a)) as [<-|Hne].
    + destruct (deserialize _ (pk_buf p)) as [[|sec sp|c|i]|e]; [by rewrite Eh| |by rewrite Eh..].
      destruct (pk_reply p sec) as [[d|e]|e]; cbn; [by rewrite lookup_insert_eq, Eh|by rewrite Eh..].
    + assert (forall s', sv_writers s' !! a = sv_writers s !! a -> known_as <$> sv_writers s' !! a =
        match known_as <$> sv_writers s !! a with Some k => Some k | None => None end) as Hs.
      { intros s' ->. by destruct (sv_writers s !! a). }
      destruct (deserialize _ (pk_buf p)) as [[|sec sp|c|i]|e]; try by apply Hs.
      destruct (pk_reply p sec) as [[d|e]|e]; apply Hs; [|done..]. by apply lookup_insert_ne.
Qed.

Lemma registered_snoc a ps p :
  registered a (ps ++ [p]) =
    match registered a ps with
    | Some k => Some k
    | None => if decide (pk_from p = a) then registration p else None
    end.
Proof.
  unfold registered. rewrite omap_app. destruct (omap _ ps) as [|k ks]; cbn; [|done].
  case_decide; [|done]. by destruct (registration p).
Qed.

Lemma serve_known s w ps a :
  let '(s', _, _) := serve s w ps in
  known_as <$> sv_writers s' !! a =
    match known_as <$> sv_writers s !! a with Some k => Some k | None => registered a ps end.
Proof.
  unfold serve. induction ps as [|p ps IH] using rev_ind.
  { cbn. by destruct (sv_writers s !! a). }
  rewrite foldl_snoc, registered_snoc. destruct (foldl _ _ ps) as [[s1 w1] eff1].
  pose proof (server_handle_known p s1 w1 a) as Hp.
  destruct (server_handle (pk_buf p) (pk_from p) (pk_reply p) s1 w1) as [[s2 w2] eff2]. rewrite Hp, IH.
  by destruct (known_as <$> sv_writers s !! a).
Qed.

(** ** The handshake *)

Section Handshake.
Context `{BL : !BincodeLaws}.

(** A message that the server understands from an unknown client: one without
    samples, or a chunk of [f32] samples. *)
Definition understood (f : SampleFormat) (a : Audio Z) : Prop :=
  wf (w_Audio (sample_wire f)) a = true /\ match a with WavChunkMsg _ => f = F32 | _ => True end.

Lemma deserialize_understood f a :
  understood f a -> deserialize (w_Audio w_f32) (serialize (w_Audio (sample_wire f)) a) = Ok a.
Proof.
  intros [Hwf Hf]. apply deserialize_same_bytes; [apply w_prim_ok| |]; destruct a; try done; by subst f.
Qed.

(** ** Properties *)

(** An address has a handler exactly when a packet from it was a spec
    whose secret the database knew, and then the handler keeps the format and
    device of the first such packet: neither later specs nor packets from other
    addresses change them. *)
Lemma first_registration_wins (dir : string) (w : W) (ps : list Packet) (a : SocketAddr) :
  let '(s, _, _) := serve (server_new dir) w ps in
  known_as <$> sv_writers s !! a = registered a ps.
Proof.
  pose proof (serve_known (server_new dir) w ps a) as H. destruct (serve (server_new dir) w ps) as [[s' w'] eff].
  rewrite H. cbn. by rewrite lookup_empty.
Qed.

(** C32: a client the server does not know recovers. Any message the server
    understands is answered with one handshake and nothing else; the client's
    codec reads it as a handshake at the client's own sample type; the collector
    then sends its secret and format; and that registers the client, if the
    database knows the secret, under the device of the secret. *)
Theorem handshake_recovers {P : Profile} (f : SampleFormat) (a : Audio Z) (ca : SocketAddr)
    (reply : Z -> Reply Device) (s : AudioServer) (w : W) (d : Device)
    (c : AudioCollector (T := Z) (D := list (Audio Z))) :
  sv_writers s !! ca = None -> understood f a -> (forall sec sp, a <> SpecMsg sec sp) ->
  wf (w_Audio (sample_wire f)) (SpecMsg (secret (sink c)) (spec (sink c))) = true ->
  reply (secret (sink c)) = Ok (Ok d) ->
  exists bs msg,
    server_handle (serialize (w_Audio (sample_wire f)) a) ca reply s w = (s, w, mkEffects [(bs, ca)] []) /\
    fst (decode (sample_wire f) bs) = Ok (Some msg) /\
    let c' := collector_handle_audio c (@Ok _ Error (msg, server_address c)) in
    inner (sink c') = inner (sink c) ++ [SpecMsg (secret (sink c)) (spec (sink c))] /\
    let '(s', _, eff) := server_handle
      (serialize (w_Audio (sample_wire f)) (SpecMsg (secret (sink c)) (spec (sink c)))) ca reply s w in
    known_as <$> sv_writers s' !! ca = Some (spec (sink c), device_id d) /\ eff = mkEffects [] [].
Proof.
  intros Hnone Ha Hns Hwf Hr. exists (serialize (w_Audio w_f32) Handshake), Handshake. split_and!.
  - unfold server_handle. rewrite Hnone, (deserialize_understood f a Ha). destruct a; try done. by destruct (Hns secret spec).
  - change (serialize (w_Audio w_f32) Handshake) with (serialize (w_Audio (sample_wire f)) Handshake).
    rewrite <- (app_nil_r (serialize _ _)), decode_audio; [done|by destruct f; apply w_prim_ok|done].
  - unfold collector_handle_audio. rewrite bool_decide_eq_false_2 by tauto. cbn [sink].
    unfold write_spec, audio_write, log_write. cbn. split; [done|].
    unfold server_handle. rewrite Hnone, (deserialize_understood f (SpecMsg _ _)) by done.
    unfold new_handler. rewrite Hr. cbn. by rewrite lookup_insert_eq.
Qed.
End Handshake.
End Server.

(** ** The server in bincode's default format *)

Import LittleEndian.Instances.

(** A chunk of a client with signed 16-bit samples is lost on the
    server when it has no handler for the client: it is half as long as a
    chunk of [f32] samples, so it does not decode, and neither a handler nor a
    handshake comes of it; such a client is recovered by the end of its
    recording only. *)
Lemma unknown_16_bit_chunk_is_dropped `{C : Chrono} {W Wr : Type} `{Ho : !Host W Wr}
    (c : WavChunk Z) (ca : SocketAddr) (reply : Z -> Reply Device) (s : AudioServer (Wr := Wr)) (w : W) :
  sv_writers s !! ca = None -> wf (w_Audio w_i16) (WavChunkMsg c) = true ->
  server_handle (serialize (w_Audio w_i16) (WavChunkMsg c)) ca reply s w = (s, w, mkEffects [] []) /\
  server_handle (serialize (w_Audio w_i16) (WavEnd (id c))) ca reply s w =
    (s, w, mkEffects [(serialize (w_Audio w_f32) Handshake, ca)] []).
Proof.
  intros Hnone Hwf. pose proof (chunk16_is_not_f32 c Hwf) as Hc. unfold server_handle. rewrite Hnone. split.
  - by destruct (deserialize (w_Audio w_f32) (serialize (w_Audio w_i16) (WavChunkMsg c))).
  - change w_i16 with (sample_wire I16). by rewrite (deserialize_understood I16 (WavEnd (id c))).
Qed.

(** ** Witnesses *)

#[local] Existing Instance MemStore.chrono_pair.
#[local] Instance files_host : Host files mem_writer := mem_host (0, 0).

Definition client1 : SocketAddr := V4 2130706433 4000.
Definition server1 : SocketAddr := V4 2130706433 3003.
Definition collector1 : AudioCollector (T := Z) (D := list (Audio Z)) :=
  mkCollector server1 (NoiseGate.new 0 10%nat) (mkAudioSink [] 42 spec0 payload_default 0 (uuid0, 0) true 1).

Lemma handshake_recovers_witness :
  exists bs msg,
    server_handle (serialize (w_Audio w_i16) (WavEnd uuid0)) client1 EventHandler.lookup (server_new "wav") no_files =
      (server_new "wav", no_files, mkEffects [(bs, client1)] []) /\
    fst (decode w_i16 bs) = Ok (Some msg) /\
    let c' := collector_handle_audio collector1 (@Ok _ Error (msg, server1)) in
    inner (sink c') = [] ++ [SpecMsg 42 spec0] /\
    let '(s', _, eff) := server_handle (serialize (w_Audio w_i16) (SpecMsg 42 spec0)) client1
      EventHandler.lookup (server_new "wav") no_files in
    known_as <$> sv_writers s' !! client1 = Some (spec0, device_id EventHandler.dev2) /\ eff = mkEffects [] [].
Proof.
  apply (handshake_recovers (P := false) I16 (WavEnd uuid0) client1 EventHandler.lookup (server_new "wav") no_files
    EventHandler.dev2 collector1); done.
Defined.

Lemma unknown_16_bit_chunk_is_dropped_witness :
  server_handle (serialize (w_Audio w_i16) (WavChunkMsg chunk0)) client1 EventHandler.lookup (server_new "wav") no_files =
    (server_new "wav", no_files, mkEffects [] []) /\
  server_handle (serialize (w_Audio w_i16) (WavEnd uuid0)) client1 EventHandler.lookup (server_new "wav") no_files =
    (server_new "wav", no_files, mkEffects [(serialize (w_Audio w_f32) Handshake, client1)] []).
Proof.
  apply (unknown_16_bit_chunk_is_dropped chunk0 client1 EventHandler.lookup (server_new "wav") no_files).
  - reflexivity.
  - vm_compute. reflexivity.
Defined.
