(* ===== verification/AudioService.v ===== *)
(** * All clients of the audio server, until it stops

    The server with any number of clients, whose packets interleave and whose
    handlers write into one directory, compared with a specification in which
    every client has recordings of its own; and the stop of the server, which
    finishes the recordings in progress. No two clients use the same recording
    id, and the host fails by the rules of [hound] only. *)
From S2P Require Import Prelude MachineInt Float32 NoiseGate Bincode Audio AudioSink AudioHandler AudioServer.
From S2P Require DbTypes LittleEndian MemStore EventHandler.
Import DbTypes(Chrono, Device, device_id, NewEvent, Reply).
Open Scope Z_scope.

Section Service.
Context `{U : UuidOps} `{UL : !UuidLaws} `{C : Chrono} {W Wr : Type} `{Ho : !Host W Wr}
  `{HL : !HostLaws W Wr} `{HR : HoundRules} `{HT : !HostReliable W Wr} `{B : !Bincode}.

(** ** Specification *)

(** A client: the format and device it registered with, and its recordings. *)
Definition client : Type := Spec * Uuid * recordings.

(** A packet of a client registers it, or is a message about a recording. *)
Definition client_step (c : option client) (p : Packet) : option client :=
  match c with
  | None => (fun '(spec, dev) => (spec, dev, no_recordings)) <$> registration p
  | Some (spec, dev, r) => Some (spec, dev, rec_bytes spec r (pk_buf p))
  end.

(** What the packets of an address make of it; those of others do not matter. *)
Definition client_of (a : SocketAddr) (ps : list Packet) : option client :=
  foldl client_step None (filter (fun p => pk_from p = a) ps).

(** The events a packet ends recordings with. *)
Definition sound_of (dev i : Uuid) : DbTypes.EventKind * DbTypes.EventPayload * Uuid :=
  (DbTypes.KSound, DbTypes.Sound (wav_name i), dev).
Definition client_report (c : option client) (p : Packet) : list (DbTypes.EventKind * DbTypes.EventPayload * Uuid) :=
  match c with
  | None => []
  | Some (spec, dev, r) =>
      map (sound_of dev) (drop (length (r_ended r)) (r_ended (rec_bytes spec r (pk_buf p))))
  end.
Definition reported (ps : list Packet) : list (DbTypes.EventKind * DbTypes.EventPayload * Uuid) :=
  snd (foldl (fun '(pre, out) p => (pre ++ [p], out ++ client_report (client_of (pk_from p) pre) p)) ([], []) ps).

(** No recording has messages from two addresses: ids are uuids. *)
Definition separate (owner : Uuid -> SocketAddr) (ps : list Packet) : Prop :=
  forall p i spec dev, p ∈ ps -> registered (pk_from p) ps = Some (spec, dev) ->
    bytes_id (sample_format spec) (pk_buf p) = Some i -> owner i = pk_from p.

(** ** Lemmas on the specification *)

Lemma client_of_snoc a ps p :
  client_of a (ps ++ [p]) = if decide (pk_from p = a) then client_step (client_of a ps) p else client_of a ps.
Proof.
  unfold client_of. rewrite filter_app, filter_cons, filter_nil. case_decide; [by rewrite foldl_snoc|by rewrite app_nil_r].
Qed.

Lemma reported_snoc ps p :
  reported (ps ++ [p]) = reported ps ++ client_report (client_of (pk_from p) ps) p.
Proof.
  unfold reported. rewrite foldl_snoc.
  assert (forall ps, fst (foldl (fun '(pre, out) p => (pre ++ [p], out ++ client_report (client_of (pk_from p) pre) p))
    ([], []) ps) = ps) as Hpre.
  { clear. intros ps. induction ps as [|p ps IH] using rev_ind; [done|]. rewrite foldl_snoc.
    destruct (foldl _ _ ps) as [pre out]. cbn in *. by rewrite IH. }
  specialize (Hpre ps). destruct (foldl _ _ ps) as [pre out]. cbn in *. by subst.
Qed.

Lemma client_registered a ps :
  (fun c : client => fst c) <$> client_of a ps = registered a ps.
Proof.
  induction ps as [|p ps IH] using rev_ind; [done|]. rewrite client_of_snoc, registered_snoc, <- IH.
  case_decide.
  - destruct (client_of a ps) as [[[spec dev] r]|]; [done|]. cbn. by destruct (registration p) as [[? ?]|].
  - by destruct (client_of a ps).
Qed.

Lemma separate_prefix owner ps p : separate owner (ps ++ [p]) -> separate owner ps.
Proof.
  intros Hs q i spec dev Hq Hr Hi. apply (Hs q i spec dev); [by apply elem_of_app; left| |done].
  by rewrite registered_snoc, Hr.
Qed.

(** The recordings of a client. *)
Definition owned (owner : Uuid -> SocketAddr) (a : SocketAddr) (r : recordings) : Prop :=
  forall i, is_Some (r_open r !! i) \/ is_Some (r_stored r !! i) -> owner i = a.

Lemma owned_step owner a sp r bs :
  owned owner a r -> (forall i, bytes_id (sample_format sp) bs = Some i -> owner i = a) -> owned owner a (rec_bytes sp r bs).
Proof.
  unfold bytes_id, rec_bytes. intros Hr Hi j. destruct (deserialize _ bs) as [[|sec sp'|c|i]|e]; try apply Hr; cbn in *.
  - specialize (Hi _ eq_refl). destruct (decide (id c = j)) as [<-|Hne]; [done|]. unfold rec_chunk.
    destruct (r_open r !! id c); cbn; [rewrite lookup_insert_ne by done; apply Hr|]. rewrite lookup_delete_ne by done.
    destruct (creates _); [rewrite lookup_insert_ne by done|]; apply Hr.
  - specialize (Hi _ eq_refl). unfold rec_end. destruct (r_open r !! i) as [[sq xs]|]; [|apply Hr].
    destruct (decide (i = j)) as [<-|Hne]; [done|].
    destruct (whole _ _); cbn; rewrite lookup_delete_ne, ?lookup_insert_ne by done; apply Hr.
Qed.

Lemma ended_prefix sp r bs : exists l, r_ended (rec_bytes sp r bs) = r_ended r ++ l.
Proof.
  unfold rec_bytes. destruct (deserialize _ bs) as [[|sec sp'|c|i]|e]; try by (exists []; rewrite app_nil_r).
  - exists []. rewrite app_nil_r. cbn. unfold rec_chunk. by destruct (r_open r !! id c).
  - cbn. unfold rec_end. destruct (r_open r !! i) as [[sq xs]|]; [|by exists []; rewrite app_nil_r].
    destruct (whole _ _); [by exists [i]|by exists []; rewrite app_nil_r].
Qed.

(** A reported event is that of a recording its client has ended. *)
Lemma reported_recorded ps x :
  x ∈ reported ps -> exists a spec dev r i, client_of a ps = Some (spec, dev, r) /\ x = sound_of dev i /\ i ∈ r_ended r.
Proof.
  induction ps as [|p ps IH] using rev_ind; [by intros []%not_elem_of_nil|]. rewrite reported_snoc.
  intros [Hx|Hx]%elem_of_app.
  - destruct (IH Hx) as (a & spec & dev & r & i & Hc & -> & Hi). setoid_rewrite client_of_snoc.
    destruct (decide (pk_from p = a)) as [Ha|Ha].
    + destruct (ended_prefix spec r (pk_buf p)) as [l Hl]. eexists a, spec, dev, _, i.
      rewrite decide_True, Hc by done. cbn. split_and!; [done|done|]. rewrite Hl. apply elem_of_app. by left.
    + exists a, spec, dev, r, i. by rewrite decide_False.
  - unfold client_report in Hx. destruct (client_of (pk_from p) ps) as [[[spec dev] r]|] eqn:Hc; [|by apply not_elem_of_nil in Hx].
    apply list_elem_of_fmap in Hx as (i & -> & Hi). eexists (pk_from p), spec, dev, _, i.
    rewrite client_of_snoc, decide_True, Hc by done. cbn. split_and!; [done|done|].
    rewrite <- (take_drop (length (r_ended r))). apply elem_of_app. by right.
Qed.

(** ** The server implements the specification *)

#[local] Arguments AudioHandler {U C} Wr.
#[local] Arguments AudioServer {U C} Wr.

(** The file of a recording. *)
Definition file_of (dir : string) (i : Uuid) : string := wav_path (handler_new (Wr := Wr) dir (mkSpec 0 0 0 F32) i) i.

(** The handler of a client. *)
Definition served (dir : string) (w : W) (h : AudioHandler Wr) (c : client) : Prop :=
  let '(spec, dev, r) := c in
  h_spec h = spec /\ h_device_id h = dev /\ wav_directory h = dir /\ exists sent, refines h w sent r.

Lemma wav_path_file (h : AudioHandler Wr) i : wav_path h i = file_of (wav_directory h) i.
Proof. done. Qed.

Lemma file_of_inj dir i j : file_of dir i = file_of dir j -> i = j.
Proof. apply (wav_path_inj (handler_new (Wr := Wr) dir (mkSpec 0 0 0 F32) i)). Qed.

(** Work on files of other recordings does not matter. *)
Lemma served_frame dir w w' h spec dev r :
  served dir w h (spec, dev, r) ->
  (forall i, is_Some (r_stored r !! i) -> wav_file w' (file_of dir i) = wav_file w (file_of dir i)) ->
  served dir w' h (spec, dev, r).
Proof.
  intros (Hs & Hd & Hdir & sent & [Hop Hst Hse]) Hw. split_and!; try done. exists sent. split; [done| |done].
  intros i xs Hi. destruct (Hst i xs Hi) as [? <-]. split; [done|].
  rewrite !wav_path_file, Hdir. apply Hw. by exists xs.
Qed.

Lemma served_handle dir w h spec dev r buf :
  served dir w h (spec, dev, r) ->
  let '(h', w', sent) := AudioHandler.handle h buf w in
  let r' := rec_bytes spec r buf in
  served dir w' h' (spec, dev, r') /\
  map untimed sent = map (sound_of dev) (drop (length (r_ended r)) (r_ended r')) /\
  forall q, (forall i, bytes_id (sample_format spec) buf = Some i -> q <> file_of dir i) -> wav_file w' q = wav_file w q.
Proof.
  intros (<- & <- & <- & sent0 & Hr). pose proof (handle_refines h buf w sent0 r Hr) as H.
  destruct (AudioHandler.handle h buf w) as [[h' w'] sent]. destruct H as (Hr' & Hc & Hw). split_and!; [| |done].
  - unfold same_config in Hc. rewrite Hc. cbn. split_and!; try done. exists (sent0 ++ sent). by rewrite Hc in Hr'.
  - pose proof (ref_sent _ _ _ _ Hr) as H0. pose proof (ref_sent _ _ _ _ Hr') as H1.
    destruct (ended_prefix (h_spec h) r buf) as [l Hl]. rewrite Hl in H1 |- *.
    rewrite drop_app_length. assert (forall l, map (event_of h') l = map (event_of h) l) as He.
    { intros l'. apply map_ext. intros; by apply same_config_event. }
    rewrite He, !map_app, H0 in H1.
    by apply app_inv_head in H1.
Qed.

Definition serves (dir : string) (owner : Uuid -> SocketAddr) (s : AudioServer Wr) (w : W)
    (sent : list NewEvent) (ps : list Packet) : Prop :=
  sv_wav_directory s = dir /\
  (forall a, option_Forall2 (served dir w) (sv_writers s !! a) (client_of a ps)) /\
  (forall a spec dev r, client_of a ps = Some (spec, dev, r) -> owned owner a r) /\
  map untimed sent = reported ps.

Lemma serves_register dir owner s w sent ps p :
  serves dir owner s w sent ps -> sv_writers s !! pk_from p = None ->
  let '(s', w', eff) := server_handle (pk_buf p) (pk_from p) (pk_reply p) s w in
  serves dir owner s' w' (sent ++ events_out eff) (ps ++ [p]).
Proof.
  intros (Hdir & Hcl & Hown & Hsent) Hnone. pose proof (Hcl (pk_from p)) as Hc. rewrite Hnone in Hc.
  assert (client_of (pk_from p) ps = None) as Hn by (by inversion Hc). clear Hc.
  assert (exists s' eff, server_handle (pk_buf p) (pk_from p) (pk_reply p) s w = (s', w, eff) /\ events_out eff = [] /\
    sv_wav_directory s' = dir /\
    sv_writers s' = match registration p with
      | Some (spec, dev) => <[pk_from p := handler_new dir spec dev]> (sv_writers s)
      | None => sv_writers s end) as (s' & eff & -> & -> & Hdir' & Hw').
  { unfold server_handle, registration. rewrite Hnone. subst dir.
    destruct (deserialize _ (pk_buf p)) as [[|sec sp|c|i]|e]; try by eexists _, _.
    destruct (pk_reply p sec) as [[d|e]|e]; by eexists _, _. }
  rewrite app_nil_r. split_and!; [done|..].
  - intros a. rewrite client_of_snoc, Hw'. case_decide as Ha; [subst a; rewrite Hn; cbn|].
    + destruct (registration p) as [[spec dev]|]; cbn; [|rewrite Hnone; constructor].
      rewrite lookup_insert_eq. constructor. split_and!; try done. exists []. apply refines_new.
    + destruct (registration p) as [[spec dev]|]; [rewrite lookup_insert_ne by done|]; apply Hcl.
  - intros a spec dev r. rewrite client_of_snoc. case_decide as Ha; [subst a; rewrite Hn; cbn|by apply Hown].
    destruct (registration p) as [[sp d]|]; cbn; [|done]. intros [= <- <- <-] i. cbn. rewrite !lookup_empty.
    by intros [[? ?]|[? ?]].
  - by rewrite reported_snoc, Hn, app_nil_r.
Qed.

Lemma serves_message dir owner s w sent ps p h :
  serves dir owner s w sent ps -> separate owner (ps ++ [p]) -> sv_writers s !! pk_from p = Some h ->
  let '(s', w', eff) := server_handle (pk_buf p) (pk_from p) (pk_reply p) s w in
  serves dir owner s' w' (sent ++ events_out eff) (ps ++ [p]).
Proof.
  intros (Hdir & Hcl & Hown & Hsent) Hsep Hh. pose proof (Hcl (pk_from p)) as Hc. rewrite Hh in Hc.
  assert (exists c, client_of (pk_from p) ps = Some c /\ served dir w h c) as ([[spec dev] r] & Hn & Hserved).
  { inversion Hc; eauto. }
  clear Hc.
  assert (forall i, bytes_id (sample_format spec) (pk_buf p) = Some i -> owner i = pk_from p) as Hid.
  { intros i Hi. apply (Hsep p i spec dev); [|by rewrite registered_snoc, <- client_registered, Hn|done].
    apply elem_of_app. right. by apply list_elem_of_singleton. }
  unfold server_handle. rewrite Hh. pose proof (served_handle _ w h spec dev r (pk_buf p) Hserved) as Hs.
  destruct (AudioHandler.handle h (pk_buf p) w) as [[h' w'] sent']. destruct Hs as (Hs' & He & Hw). split_and!; [done|..]; cbn.
  - intros a. rewrite client_of_snoc. case_decide as Ha; [subst a; rewrite Hn; cbn|].
    + rewrite lookup_insert_eq. by constructor.
    + rewrite lookup_insert_ne by done. pose proof (Hcl a) as Hc. pose proof (Hown a) as Hoa.
      destruct Hc as [ha [[sa da] ra] Ha'|]; constructor.
      apply served_frame with w; [done|]. intros i Hi. apply Hw. intros j Hj Heq%file_of_inj. subst j.
      apply Ha. rewrite <- (Hid i Hj). by apply (Hoa sa da ra eq_refl i); right.
  - intros a spec' dev' r'. rewrite client_of_snoc. case_decide as Ha; [subst a; rewrite Hn; cbn|by apply Hown].
    intros [= <- <- <-]. apply owned_step; [by apply (Hown _ _ _ _ Hn)|done].
  - by rewrite map_app, Hsent, He, reported_snoc, Hn.
Qed.

Lemma serve_serves dir owner w ps :
  separate owner ps ->
  let '(s, w', eff) := serve (server_new dir) w ps in serves dir owner s w' (events_out eff) ps.
Proof.
  unfold serve. induction ps as [|p ps IH] using rev_ind; intros Hsep.
  { split_and!; [done| |done|done]. intros a. cbn. rewrite lookup_empty. constructor. }
  rewrite foldl_snoc. specialize (IH (separate_prefix _ _ _ Hsep)).
  destruct (foldl _ _ ps) as [[s1 w1] eff1]. destruct (sv_writers s1 !! pk_from p) as [h|] eqn:Hh.
  - pose proof (serves_message dir owner s1 w1 _ ps p h IH Hsep Hh) as H.
    by destruct (server_handle _ _ _ s1 w1) as [[s2 w2] eff2].
  - pose proof (serves_register dir owner s1 w1 _ ps p IH Hh) as H.
    by destruct (server_handle _ _ _ s1 w1) as [[s2 w2] eff2].
Qed.

(** The events of the recordings a client has not ended, as far as they can be
    finished. *)
Definition in_progress (c : option client) : list (DbTypes.EventKind * DbTypes.EventPayload * Uuid) :=
  match c with
  | Some (spec, dev, r) => map (sound_of dev) (map_to_list (filter (finishable (spec_to_wav spec)) (r_open r))).*1
  | None => []
  end.

Lemma in_progress_recorded (cs : SocketAddr -> option client) l x :
  x ∈ concat (map (fun a => in_progress (cs a)) l) ->
  exists a spec dev r i e, a ∈ l /\ cs a = Some (spec, dev, r) /\ x = sound_of dev i /\ r_open r !! i = Some e /\
    finishable (spec_to_wav spec) (i, e).
Proof.
  induction l as [|a l IH]; [by intros []%not_elem_of_nil|]. cbn. intros [Hx|Hx]%elem_of_app.
  - unfold in_progress in Hx. destruct (cs a) as [[[spec dev] r]|] eqn:Hc; [|by apply not_elem_of_nil in Hx].
    apply list_elem_of_fmap in Hx as (i & -> & Hi). apply list_elem_of_fmap in Hi as ([j e] & -> & [Hi Hfin]%elem_of_map_to_list%map_lookup_filter_Some).
    exists a, spec, dev, r, j, e. split_and!; [left|done..].
  - destruct (IH Hx) as (b & spec & dev & r & i & e & Hb & ?). exists b, spec, dev, r, i, e. split; [by right|done].
Qed.

(** [i] is a recording that one of [addrs] has not ended, with format [spec] and
    samples [xs]. *)
Definition unended (cs : SocketAddr -> option client) (addrs : list SocketAddr) (i : Uuid) (spec : Spec)
    (xs : list HSample) : Prop :=
  exists a dev r sq, a ∈ addrs /\ cs a = Some (spec, dev, r) /\ r_open r !! i = Some (sq, xs).

Lemma served_stopping dir w h spec dev r :
  served dir w h (spec, dev, r) ->
  let '(_, w', sent) := stopping h w in
  (forall i e, r_open r !! i = Some e -> finishable (spec_to_wav spec) (i, e) ->
     wav_file w' (file_of dir i) = Some (spec_to_wav spec, snd e)) /\
  map untimed sent ≡ₚ in_progress (Some (spec, dev, r)) /\
  forall q, (forall i, is_Some (r_open r !! i) -> q <> file_of dir i) -> wav_file w' q = wav_file w q.
Proof.
  intros (<- & <- & <- & sent0 & Hr). pose proof (stopping_refines h w sent0 r Hr) as H.
  destruct (stopping h w) as [[h' w'] sent]. by destruct H as (_ & Hf & Hs & Hw).
Qed.

(** Handlers stop one after the other, whatever the order. *)
Lemma stop_list dir owner (cs : SocketAddr -> option client) (l : list (SocketAddr * AudioHandler Wr)) w :
  NoDup l.*1 ->
  (forall a h, (a, h) ∈ l -> exists spec dev r, cs a = Some (spec, dev, r) /\ served dir w h (spec, dev, r) /\ owned owner a r) ->
  let '(w', sent) := foldl (fun '(w, sent) '(_, writer) =>
    let '(_, w, sent') := stopping writer w in (w, sent ++ sent')) (w, []) l in
  (forall i spec xs, unended cs l.*1 i spec xs -> whole (spec_to_wav spec) (length xs) = true ->
     wav_file w' (file_of dir i) = Some (spec_to_wav spec, xs)) /\
  map untimed sent ≡ₚ concat (map (fun a => in_progress (cs a)) l.*1) /\
  forall q, (forall i spec xs, unended cs l.*1 i spec xs -> q <> file_of dir i) -> wav_file w' q = wav_file w q.
Proof.
  intros Hnd Hl. induction l as [|[a h] l IH] using rev_ind.
  { split_and!; [|done|done]. intros i spec xs (b & dev & r & sq & Hb & _). by apply elem_of_nil in Hb. }
  rewrite foldl_snoc. rewrite fmap_app in Hnd |- *. apply NoDup_app in Hnd as (Hnd & Hal & _).
  assert (forall b hb, (b, hb) ∈ l -> exists spec dev r, cs b = Some (spec, dev, r) /\ served dir w hb (spec, dev, r) /\
    owned owner b r) as Hl' by (intros b hb Hb; apply (Hl b hb), elem_of_app; by left).
  specialize (IH Hnd Hl'). destruct (foldl _ (w, []) l) as [w1 sent1]. destruct IH as (Hfin & Hs1 & Hw1).
  destruct (Hl a h) as (spec & dev & r & Hc & Hserved & Hown). { apply elem_of_app. right. by apply list_elem_of_singleton. }
  assert (forall i sp xs, unended cs l.*1 i sp xs -> is_Some (r_open r !! i) \/ is_Some (r_stored r !! i) -> False) as Hother.
  { intros i sp xs (b & dv & rb & sq & Hb & Hcb & Hi) Hir. pose proof Hb as ([? hb] & -> & Hb')%list_elem_of_fmap.
    destruct (Hl' _ _ Hb') as (? & ? & ? & Hcb' & _ & Hownb). cbn in Hcb. rewrite Hcb in Hcb'. simplify_eq.
    pose proof (Hownb i (or_introl (mk_is_Some _ _ Hi))) as <-. rewrite (Hown i Hir) in Hb. apply (Hal a Hb).
    by apply list_elem_of_singleton. }
  assert (served dir w1 h (spec, dev, r)) as Hserved1.
  { apply served_frame with w; [done|]. intros i Hi. apply Hw1. intros j sp xs Hj Heq%file_of_inj. subst j.
    apply (Hother i sp xs Hj). by right. }
  pose proof (served_stopping dir w1 h spec dev r Hserved1) as Hst. destruct (stopping h w1) as [[h' w2] sent2].
  destruct Hst as (Hf2 & Hs2 & Hw2). change ([(a, h)].*1) with [a]. split_and!.
  - intros i sp xs (b & dv & rb & sq & Hb & Hcb & Hi) Hwh. apply elem_of_app in Hb as [Hb|Hb%list_elem_of_singleton].
    + assert (unended cs l.*1 i sp xs) as Hun by (by exists b, dv, rb, sq). rewrite <- (Hfin i sp xs Hun Hwh).
      apply Hw2. intros j Hj Heq%file_of_inj. subst j. apply (Hother i sp xs Hun). by left.
    + subst b. simplify_eq. by apply (Hf2 i (sq, xs)).
  - rewrite !map_app, concat_app, Hs1, Hs2. cbn. by rewrite Hc, app_nil_r.
  - intros q Hq. rewrite Hw2.
    + apply Hw1. intros i sp xs (b & Hb). apply (Hq i sp xs). destruct Hb as (dv & rb & sq & Hb & Hr). exists b, dv, rb, sq.
      split; [apply elem_of_app; by left|done].
    + intros i [[sq xs] Hi]. apply (Hq i spec xs). exists a, dev, r, sq. split_and!; try done.
      apply elem_of_app. right. by apply list_elem_of_singleton.
Qed.

(** Some of the handlers have stopped, in any order. *)
Lemma stop_some dir owner w ps l rest :
  separate owner ps ->
  let '(s, w1, _) := serve (server_new dir) w ps in
  map_to_list (sv_writers s) ≡ₚ l ++ rest ->
  let '(w2, sent) := foldl (fun '(w, sent) '(_, writer) =>
    let '(_, w, sent') := stopping writer w in (w, sent ++ sent')) (w1, []) l in
  (forall a spec dev r i, client_of a ps = Some (spec, dev, r) ->
    (forall sq xs, a ∈ l.*1 -> r_open r !! i = Some (sq, xs) -> whole (spec_to_wav spec) (length xs) = true -> wav_file w2 (file_of dir i) = Some (spec_to_wav spec, xs)) /\
    (forall xs, r_stored r !! i = Some xs -> wav_file w2 (file_of dir i) = Some (spec_to_wav spec, xs))) /\
  map untimed sent ≡ₚ concat (map (fun a => in_progress (client_of a ps)) l.*1).
Proof.
  intros Hsep. pose proof (serve_serves dir owner w ps Hsep) as H. destruct (serve (server_new dir) w ps) as [[s w1] eff].
  destruct H as (Hdir & Hcl & Hown & _). intros Hl.
  assert (NoDup l.*1) as Hnd.
  { pose proof (NoDup_fst_map_to_list (sv_writers s)) as Hn. rewrite Hl, fmap_app in Hn. by apply NoDup_app in Hn as [? _]. }
  assert (forall a h, (a, h) ∈ l -> exists spec dev r, client_of a ps = Some (spec, dev, r) /\
    served dir w1 h (spec, dev, r) /\ owned owner a r) as Hserve.
  { intros a h Ha. assert ((a, h) ∈ map_to_list (sv_writers s)) as Hm%elem_of_map_to_list
      by (rewrite Hl; apply elem_of_app; by left). specialize (Hcl a). rewrite Hm in Hcl.
    inversion Hcl as [? [[spec dev] r] Hserved Hh Hc|]. exists spec, dev, r. split_and!; [done..|by apply (Hown a spec dev)]. }
  pose proof (stop_list dir owner (fun a => client_of a ps) l w1 Hnd Hserve) as Hst.
  destruct (foldl _ (w1, []) l) as [w2 sent]. destruct Hst as (Hfin & Hs & Hw). split; [|done].
  intros a spec dev r i Hc. split.
  - intros sq xs Ha Hi. apply Hfin. by exists a, dev, r, sq.
  - intros xs Hi. pose proof (Hcl a) as Ha. rewrite Hc in Ha.
    assert (exists h, served dir w1 h (spec, dev, r)) as (h & <- & <- & <- & sent0 & Hr) by (inversion Ha; eauto).
    destruct (ref_stored _ _ _ _ Hr i xs Hi) as [Hn <-]. apply Hw.
    intros j sp ys (b & dv & rb & sq & Hb & Hcb & Hj) ->%file_of_inj.
    pose proof (Hown _ _ _ _ Hcb j (or_introl (mk_is_Some _ _ Hj))) as Hob.
    rewrite (Hown _ _ _ _ Hc j (or_intror (mk_is_Some _ _ Hi))) in Hob. subst b. congruence.
Qed.

(** ** Properties *)

(** C6: the server with any number of clients, on a host that fails by the rules
    of [hound] only, for whatever formats the clients have sent. If no two
    addresses use the same recording id, the clients do not disturb each other,
    however their packets interleave in the one directory: each address has the
    handler and the recordings that its own packets make, the file of each
    finished recording holds the samples its client sent, in its client's format,
    and the events are those of the recordings that were finished, in the order
    of arrival, under the device of the client. By the rules, no recording is
    opened in a format that can not be written, a sample that does not fit ends
    its chunk, and a recording whose samples do not fill the channels ends
    without a file and an event. *)
Theorem clients_are_served (dir : string) (owner : Uuid -> SocketAddr) (w : W) (ps : list Packet)
    (Hsep : separate owner ps) :
  let '(s, w', eff) := serve (server_new dir) w ps in
  (forall a, match client_of a ps with
    | None => sv_writers s !! a = None
    | Some (spec, dev, r) => exists h, sv_writers s !! a = Some h /\ h_spec h = spec /\ h_device_id h = dev /\
        (forall i, is_Some (writers h !! i) <-> is_Some (r_open r !! i)) /\
        (forall i xs, r_stored r !! i = Some xs -> wav_file w' (wav_path h i) = Some (spec_to_wav spec, xs))
    end) /\
  map untimed (events_out eff) = reported ps.
Proof.
  pose proof (serve_serves dir owner w ps Hsep) as H. destruct (serve (server_new dir) w ps) as [[s w'] eff].
  destruct H as (Hdir & Hcl & _ & Hs). split; [|done]. intros a. specialize (Hcl a).
  inversion Hcl as [h [[spec dev] r] (<- & <- & Hd & sent & [Hop Hst _])|]; [|done].
  exists h. split_and!; try done; [intros i; apply (Forall2_is_Some _ _ _ (Hop i))|by intros i xs [_ ?]%Hst].
Qed.

(** What was received is not lost at the end. When the server stops
    on a signal, the recordings in progress of all clients are finished, but for
    those whose samples do not fill the channels: each file holds the samples so
    far, one event is sent for each, and the files of the recordings finished
    before keep their samples. *)
Lemma stop_finishes_all_clients (dir : string) (owner : Uuid -> SocketAddr) (w : W) (ps : list Packet)
    (Hsep : separate owner ps) :
  let '(s, w1, _) := serve (server_new dir) w ps in
  let '(w2, sent) := server_stop s w1 in
  (forall a spec dev r i, client_of a ps = Some (spec, dev, r) ->
    (forall sq xs, r_open r !! i = Some (sq, xs) -> whole (spec_to_wav spec) (length xs) = true ->
       wav_file w2 (file_of dir i) = Some (spec_to_wav spec, xs)) /\
    (forall xs, r_stored r !! i = Some xs -> wav_file w2 (file_of dir i) = Some (spec_to_wav spec, xs))) /\
  map untimed sent ≡ₚ concat (map (fun a => in_progress (client_of a ps)) (map_to_list (sv_writers s)).*1).
Proof.
  pose proof (serve_serves dir owner w ps Hsep) as H. pose proof (fun l => stop_some dir owner w ps l [] Hsep) as Hst.
  destruct (serve (server_new dir) w ps) as [[s w1] eff]. destruct H as (_ & Hcl & _). unfold server_stop.
  specialize (Hst (map_to_list (sv_writers s))). rewrite app_nil_r in Hst. specialize (Hst (Permutation_refl _)).
  destruct (foldl _ (w1, []) _) as [w2 sent]. destruct Hst as [Hf Hs]. split; [|done].
  intros a spec dev r i Hc. destruct (Hf a spec dev r i Hc) as [Hopen Hstored]. split; [|done].
  intros sq xs Hi. apply (Hopen sq xs); [|done]. specialize (Hcl a). rewrite Hc in Hcl. inversion Hcl as [h ? _ Hh|].
  apply list_elem_of_fmap. exists (a, h). by rewrite elem_of_map_to_list.
Qed.
End Service.

(** ** Witnesses *)

(** [separate], decided. *)
Definition separateb `{UuidOps, Bincode} (owner : Uuid -> SocketAddr) (ps : list Packet) : bool :=
  forallb (fun p =>
    match registered (pk_from p) ps with
    | Some (spec, dev) =>
        match bytes_id (sample_format spec) (pk_buf p) with
        | Some i => bool_decide (owner i = pk_from p)
        | None => true
        end
    | None => true
    end) ps.

Lemma separateb_ok `{UuidOps, Bincode} owner (ps : list Packet) : separateb owner ps = true -> separate owner ps.
Proof.
  unfold separateb. rewrite forallb_forall. intros Hall p i spec dev Hp Hr Hi.
  apply list_elem_of_In in Hp. specialize (Hall p Hp). cbn in Hall. rewrite Hr, Hi in Hall.
  by apply bool_decide_eq_true in Hall.
Qed.

Import LittleEndian.Instances.
#[local] Existing Instance MemStore.chrono_pair.
#[local] Instance files_host : Host files mem_writer := mem_host (0, 0).
#[local] Instance files_laws : HostLaws files mem_writer := mem_host_laws (0, 0).
#[local] Existing Instance hound_rules.
#[local] Instance files_reliable : HostReliable files mem_writer := mem_host_reliable (0, 0).

(** Two clients of one device, one with signed and one with unsigned samples;
    the first one ends its recording, the second one is cut off. *)
Definition client2 : SocketAddr := V4 2130706434 4000.
Definition chunk2 : WavChunk Z := mkWavChunk (LittleEndian.uuid_nth 7) 1 0 (replicate WAV_CHUNK_PAYLOAD_SIZE 9).
Definition owner2 (i : Uuid) : SocketAddr := if decide (i = uuid0) then client1 else client2.
Definition packets2 : list Packet :=
  [mkPacket (serialize (w_Audio w_i16) (SpecMsg 42 spec0)) client1 EventHandler.lookup;
   mkPacket (serialize (w_Audio w_u16) (SpecMsg 42 u16_spec)) client2 EventHandler.lookup;
   mkPacket (serialize (w_Audio w_i16) (WavChunkMsg chunk0)) client1 EventHandler.lookup;
   mkPacket (serialize (w_Audio w_u16) (WavChunkMsg chunk2)) client2 EventHandler.lookup;
   mkPacket (serialize (w_Audio w_i16) (WavEnd uuid0)) client1 EventHandler.lookup].

(** A third client has three channels, and a chunk of 512 samples. *)
Definition client3 : SocketAddr := V4 2130706435 4000.
Definition owner3 (i : Uuid) : SocketAddr := if decide (i = rec1) then client3 else owner2 i.
Definition packets3 : list Packet :=
  packets2 ++ map (fun buf => mkPacket buf client3 EventHandler.lookup)
    (serialize (w_Audio w_u16) (SpecMsg 42 three_channels) :: one_chunk rec1).

Lemma clients_are_served_witness :
  reported packets3 = [sound_of (device_id EventHandler.dev2) uuid0] /\
  let '(s, w', eff) := serve (server_new "wav") no_files packets3 in
  (forall a, match client_of a packets3 with
    | None => sv_writers s !! a = None
    | Some (spec, dev, r) => exists h, sv_writers s !! a = Some h /\ h_spec h = spec /\ h_device_id h = dev /\
        (forall i, is_Some (writers h !! i) <-> is_Some (r_open r !! i)) /\
        (forall i xs, r_stored r !! i = Some xs -> wav_file w' (wav_path h i) = Some (spec_to_wav spec, xs))
    end) /\
  map untimed (events_out eff) = reported packets3.
Proof.
  split; [vm_compute; reflexivity|].
  apply (clients_are_served "wav" owner3 no_files packets3). apply separateb_ok. vm_compute. reflexivity.
Defined.

Lemma stop_finishes_all_clients_witness :
  let '(s, w1, _) := serve (server_new "wav") no_files packets2 in
  let '(w2, sent) := server_stop s w1 in
  (forall a spec dev r i, client_of a packets2 = Some (spec, dev, r) ->
    (forall sq xs, r_open r !! i = Some (sq, xs) -> whole (spec_to_wav spec) (length xs) = true ->
       wav_file w2 (file_of (Wr := mem_writer) "wav" i) = Some (spec_to_wav spec, xs)) /\
    (forall xs, r_stored r !! i = Some xs -> wav_file w2 (file_of (Wr := mem_writer) "wav" i) = Some (spec_to_wav spec, xs))) /\
  map untimed sent ≡ₚ concat (map (fun a => in_progress (client_of a packets2)) (map_to_list (sv_writers s)).*1).
Proof.
  apply (stop_finishes_all_clients "wav" owner2 no_files packets2). apply separateb_ok. vm_compute. reflexivity.
Defined.
