(* ===== verification/EventFlow.v ===== *)
(** * From a device's socket to the table and the sessions

    The event crate, the TCP handler, the database actor and the event
    processor composed, for one event of a device whose secret is known. *)
From S2P Require Import Prelude MachineInt Bincode DbTypes Store DbHandlers WsManager EventProcessor.
From S2P Require Event EventHandler LittleEndian MemStore.
Import EventHandler(framed, MAGIC_RESPONSE).
Open Scope Z_scope.

Section Flow.
Context `{U : UuidOps} `{C : Chrono} `{B : !Bincode} `{BL : !BincodeLaws}
  {DB : Type} `{PG : !Postgres DB} `{L : !PostgresLaws DB} {Addr : Type} (to_json : DbTypes.Event -> string).

(** The database actor as the TCP handler sees it, when its mailbox is open. *)
Definition lookup_in (db : DB) : Z -> Reply Device := fun secret => Ok (fst (handle_select_device secret db)).

(** The future of one message, run to its end. *)
Definition process_event (ne : NewEvent) (db : DB) (sess : Sessions (Addr := Addr)) : System :=
  happens to_json (start db sess) [Arrive ne; Resume 0; Resume 0; Resume 0].

Lemma resume_single t db sess mail :
  happen to_json (mkSystem db sess [t] mail) (Resume 0) =
  let '(t', db', mail') := resume to_json sess t db in mkSystem (Addr := Addr) db' sess [t'] (mail ++ mail').
Proof. unfold happen. cbn. by destruct (resume to_json sess t db) as [[? ?] ?]. Qed.

Lemma process_event_steps ne db sess :
  process_event ne db sess =
  happen to_json (happen to_json (happen to_json (mkSystem db sess [SelectLabels_ ne] []) (Resume 0)) (Resume 0)) (Resume 0).
Proof. done. Qed.

(** C4: an event from a device, the first of its connection. The bytes of an
    event with the secret of device [d] decode to one item. If the lookup of the
    secret fails, which can only be a failure of the database, the connection
    stops; no byte is written to the board and nothing is sent to the event
    processor. Otherwise the handler writes one byte, whatever becomes of the
    event, and sends the processor exactly the message the event stands for, under
    [d]. The future of that message, run without others, ends in one of two ways:
    the event has a row in the database under [d] and a new identifier, its times
    as a column keeps them, and the text of the event, with the times of the
    message, is sent to every session once in their order; or the selection or
    the insertion failed, the tables are as they were and nothing is sent to
    anyone, though the board was answered. *)
Theorem device_event_is_stored_and_broadcast (d : Device) (e : Event.Event) (ne : NewEvent) (now : Z)
    (db : DB) (sess : Sessions (Addr := Addr)) :
  credential (Event.secret e) d (tables_of db) -> wf Event.w_Event e = true ->
  new_event_from now e (device_id d) = Some ne ->
  exists item c,
    framed (fst (Event.decode (serialize Event.w_Event e))) = Some item /\
    EventHandler.handle item (lookup_in db) now EventHandler.new = Some c /\
    match fst (handle_select_device (Event.secret e) db) with
    | Err err => is_not_found err = false /\ EventHandler.running c = false /\ EventHandler.sent c = [] /\
        EventHandler.written c = []
    | Ok _ =>
        EventHandler.sent c = [ne] /\ EventHandler.written c = MAGIC_RESPONSE /\
        ne_device_id ne = device_id d /\ ne_payload ne = payload_of_payload (Event.payload e) /\
        let s := process_event ne db sess in
        match sys_tasks s with
        | [Done (Ok ev)] =>
            event_for ne ev /\ t_events (tables_of db) !! event_id ev = None /\
            t_events (tables_of (sys_db s)) !! event_id ev = Some (stored_event ev) /\
            sys_mail s = map (fun addr => (addr, Text (to_json ev))) (listeners sess)
        | [Done (Err err)] => sys_mail s = [] /\ tables_of (sys_db s) = tables_of db
        | _ => False
        end
    end.
Proof.
  intros Hc Hwf Hne. exists (Ok e). rewrite <- (app_nil_r (serialize _ e)), Event.decode_event by done.
  cbn [fst framed]. unfold EventHandler.handle. cbn [EventHandler.new EventHandler.device]. unfold lookup_in.
  pose proof (select_device_credential _ _ _ Hc) as Hs.
  destruct (fst (handle_select_device (Event.secret e) db)) as [d'|err] eqn:El.
  2: { eexists. by split_and!. }
  subst d'. cbn [EventHandler.authenticate]. unfold EventHandler.inner_handle. cbn [EventHandler.device].
  rewrite Hne. cbn [mbind option_bind]. eexists. split; [done|]. split; [done|].
  split; [done|]. split; [done|]. split; [|split].
  1,2: unfold new_event_from in Hne; destruct (_ || _); apply bind_Some in Hne as (? & _ & Hne);
    apply bind_Some in Hne as (? & _ & [= <-]); done.
  rewrite process_event_steps, resume_single. cbn [resume].
  unfold handle_select_labels. pose proof (spec_load_after q_labels db) as Hl.
  destruct (bind connection (fun _ => load q_labels) db) as [[ls|err] db1]; cbn [snd] in Hl.
  2: { rewrite !resume_single. by split. }
  rewrite resume_single. cbn [resume]. pose proof (insert_event_handler ne _ db1 eq_refl) as Hi.
  destruct (handle_insert_event ne db1) as [[ev|err] db2]; rewrite resume_single; cbn [resume sys_tasks sys_db sys_mail].
  - destruct Hi as (Hev & Hnew & _ & Heq). split_and!; [done|by rewrite <- Hl| |apply send_event_listeners].
    rewrite Heq. apply lookup_insert_eq.
  - split; [done|]. by rewrite Hi.
Qed.
End Flow.

(** ** Witness *)

Import LittleEndian.Instances.
#[local] Existing Instances MemStore.chrono_pair store_postgres store_laws.

Definition light42 : Event.Event := EventHandler.light 42.
Definition stored42 : MemStore.mem := snd (handle_insert_device 42 nd0 db0).

Lemma device_event_is_stored_and_broadcast_witness :
  exists item c ne ev,
    framed (fst (Event.decode (serialize Event.w_Event light42))) = Some item /\
    EventHandler.handle item (lookup_in stored42) 0 EventHandler.new = Some c /\
    EventHandler.sent c = [ne] /\ EventHandler.written c = MAGIC_RESPONSE /\
    t_events (tables_of (sys_db (process_event json0 ne stored42 sess0))) !! event_id ev = Some (stored_event ev) /\
    sys_mail (process_event json0 ne stored42 sess0) = map (fun addr => (addr, Text (json0 ev))) (listeners sess0).
Proof.
  pose proof (created_credential 42 nd0 db0 empty_integrity ltac:(intros i []%not_elem_of_nil)) as Hc.
  assert (is_ok (fst (handle_insert_device 42 nd0 db0)) = true) as Hok by (vm_compute; reflexivity).
  assert (is_ok (fst (handle_select_device 42 stored42)) = true) as Hsel by (vm_compute; reflexivity).
  assert (match handle_insert_device 42 nd0 db0 with
    | (Ok (d, _), db) => Nat.eqb 1 (length (sys_mail (process_event json0
        (mkNewEvent KLuminosity (Luminosity 1 2) (60, 0) (61, 0) (device_id d)) db sess0)))
    | _ => false
    end = true) as Hmail by (vm_compute; reflexivity).
  unfold stored42 in *. destruct (handle_insert_device 42 nd0 db0) as [[[d s]|e] db]; [|discriminate].
  cbn [snd fst] in *.
  destruct (device_event_is_stored_and_broadcast json0 d light42
    (mkNewEvent (C := MemStore.chrono_pair) KLuminosity (Luminosity 1 2) (60, 0) (61, 0) (device_id d)) 0 db sess0 (proj2 Hc))
    as (item & c & H1 & H2 & H3).
  - reflexivity.
  - reflexivity.
  - change (Event.secret light42) with 42 in H3. destruct (fst (handle_select_device 42 db)) as [d'|err]; [|discriminate Hsel].
    destruct H3 as (Hsent & Hw & _ & _ & Hs). cbn zeta in Hs.
    destruct (sys_tasks _) as [|[| | |[ev|err]] [|]]; try contradiction.
    + destruct Hs as (_ & _ & Hst & Hm). exists item, c. eexists. exists ev. split_and!; eassumption.
    + destruct Hs as [Hs _]. rewrite Hs in Hmail. discriminate Hmail.
Defined.
