(* ===== verification/SoundFlow.v ===== *)
(** * From a recording to the sessions

    The audio handler and the event processor composed: the event of a finished
    recording is stored and broadcast under every interleaving of the
    processor's futures, and the name it carries is that of a file. *)
From S2P Require Import Prelude MachineInt Float32 Bincode Audio AudioHandler.
From S2P Require Import Store DbHandlers WsManager EventProcessor.
From S2P Require DbTypes LittleEndian MemStore.
Import DbTypes(Chrono).
Open Scope Z_scope.

Section Flow.
Context `{U : UuidOps} `{UL : !UuidLaws} `{C : Chrono} {W Wr : Type} `{Ho : !Host W Wr} `{HL : !HostLaws W Wr}
  `{HR : HoundRules} `{HT : !HostReliable W Wr} `{B : !Bincode}
  {DB : Type} `{PG : !Postgres DB} `{L : !PostgresLaws DB} {Addr : Type} `{!EqDecision Addr} (to_json : DbTypes.Event -> string).

(** ** Lemmas *)

Lemma wav_path_push (h : AudioHandler (Wr := Wr)) i : wav_path h i = path_push (wav_directory h) (wav_name i).
Proof using Type. unfold wav_path, wav_name, path_push. by destruct (ends_in_separator _); rewrite !string_app_assoc. Qed.

(** The message [m] is the text of an event that has its row in the database
    [db], a sound event
    of the device [dev] that names an ended recording of [r]; the file of that
    name in [dir] is the recording, if [r] still has it as stored. *)
Definition announces (dir : string) (sp : Spec) (dev : Uuid) (r : recordings) (w : W) (db : DB) (m : WsMessage) : Prop :=
  exists i e, i ∈ r_ended r /\ m = Text (to_json e) /\ t_events (tables_of db) !! DbTypes.event_id e = Some (DbTypes.stored_event e) /\
    DbTypes.event_device_id e = dev /\ DbTypes.event_payload e = DbTypes.Sound (wav_name i) /\
    (forall xs, r_stored r !! i = Some xs -> wav_file w (path_push dir (wav_name i)) = Some (spec_to_wav sp, xs)).

(** What a session is told about recordings. A handler receives any
    packets, and the event processor handles the events it sends, their futures
    interleaved with each other, with registrations and with requests that
    delete no device. Then every message to a session is the text of an event
    in the database, a sound event of the handler's device that names a
    recording the stream has ended; and unless a later chunk reopened it, the
    file of that name in the handler's directory is that recording, in the
    stream's format. *)
Lemma mail_announces (dir : string) (sp : Spec) (dev : Uuid) (bufs : list (list byte)) (w : W)
    (db : DB) (sess : Sessions (Addr := Addr)) (hs : list Happening) (a : Addr) (m : WsMessage) :
  let '(_, w', sent) := handle_all (handler_new (Wr := Wr) dir sp dev) bufs w in
  let r := foldl (rec_bytes sp) no_recordings bufs in
  let s := happens to_json (start db sess) hs in
  integrity (tables_of db) -> Forall harmless hs -> arrivals hs = sent -> (a, m) ∈ sys_mail s ->
  announces dir sp dev r w' (sys_db s) m.
Proof using L HL HT UL.
  pose proof (handle_all_refines bufs (handler_new dir sp dev) w _ (refines_new dir sp dev w)) as H.
  change (h_spec (handler_new dir sp dev)) with sp in H.
  destruct (handle_all (handler_new dir sp dev) bufs w) as [[h' w'] sent]. destruct H as ([_ Hst Hsent] & Hc). cbv zeta.
  intros Hi Hh Harr Hm. destruct (happens_mail to_json db sess hs a m Hm) as (k & t & e & Ht & He & ->).
  destruct (happens_consistent to_json hs db sess Hi Hh) as [_ Hts Hstored _].
  destruct (Forall2_lookup_r _ _ _ _ _ Hts Ht) as (msg & Hmsg & Hf).
  destruct t as [| | |[e'|]]; try done. injection He as ->. cbn in Hf.
  rewrite Harr in Hmsg. apply (f_equal (fun l => l !! k)) in Hsent. rewrite !list_lookup_fmap, Hmsg in Hsent.
  destruct (r_ended (foldl _ no_recordings bufs) !! k) as [i|] eqn:Ei; [|done]. injection Hsent as Hk Hp Hd.
  exists i, e. cbn. split_and!; [by eapply list_elem_of_lookup_2|done| | | |].
  - by apply (Hstored k (Done (Ok e))).
  - rewrite Hf. cbn. rewrite Hd, Hc. done.
  - rewrite Hf. exact Hp.
  - intros xs Hxs. apply Hst in Hxs as [_ Hx].
    by rewrite (same_config_spec _ _ Hc), (same_config_path _ _ _ Hc), wav_path_push in Hx.
Qed.
End Flow.

(** ** Witness: one recording of one chunk *)

Import LittleEndian.Instances.
#[local] Existing Instances MemStore.chrono_pair store_postgres store_laws.
#[local] Instance files_host : Host files mem_writer := mem_host (0, 0).
#[local] Instance files_laws : HostLaws files mem_writer := mem_host_laws (0, 0).
#[local] Existing Instance hound_rules.
#[local] Instance files_reliable : HostReliable files mem_writer := mem_host_reliable (0, 0).

Definition bufs1 : list (list byte) :=
  [serialize (w_Audio w_u16) (WavChunkMsg (mkWavChunk rec1 1 0 payload_default)); serialize (w_Audio w_u16) (WavEnd rec1)].
Definition handled1 := handle_all (handler_new "wav" u16_spec dev0) bufs1 no_files.
Definition hs1 : list (Happening (Addr := nat)) := map Arrive (snd handled1) ++ replicate 3 (Resume 0).

Lemma arrivals_all (nes : list DbTypes.NewEvent) (n : nat) :
  arrivals (map (Arrive (Addr := nat)) nes ++ replicate n (Resume 0)) = nes.
Proof. unfold arrivals. induction nes as [|ne nes IH]; cbn; [by induction n|]. by f_equal. Qed.

Example announced1 :
  let s := happens json0 (start db1 sess0) hs1 in
  announces json0 "wav" u16_spec dev0 (foldl (rec_bytes u16_spec) no_recordings bufs1) (snd (fst handled1)) (sys_db s) (Text "{}").
Proof.
  assert (arrivals hs1 = snd handled1) as Ha by (unfold hs1; apply arrivals_all).
  assert (sys_mail (happens json0 (start db1 sess0) hs1) = [(5%nat, Text "{}")]) as Hm by (vm_compute; reflexivity).
  assert (Forall harmless hs1) as Hh.
  { apply Forall_app. split; [|repeat constructor]. apply Forall_map, Forall_forall. done. }
  pose proof (mail_announces json0 "wav" u16_spec dev0 bufs1 no_files db1 sess0 hs1 5%nat (Text "{}")) as H.
  fold handled1 in H. destruct handled1 as [[h' w'] sent]. apply H; [exact db1_integrity|exact Hh|exact Ha|].
  rewrite Hm. apply list_elem_of_singleton. reflexivity.
Defined.
