(* ===== verification/Backend.v ===== *)
(** * The whole backend, until it ends (backend/src/main.rs and actor/)

    The audio server with its handlers, the event server with its connections,
    the event processor and the database they share, as one system: packets,
    connections, the futures of events, HTTP requests and signals, in any order.
    A secret that a client or a board presents is looked up in the database of
    that moment. On a signal the audio server stops, its handlers finish their
    recordings and send events to the event processor; the HTTP server ends,
    upon which [main] stops the system; the two sides do not wait for each
    other. *)
From S2P Require Import Prelude MachineInt Float32 NoiseGate Bincode Audio AudioSink AudioHandler AudioServer AudioService.
From S2P Require Import Store DbHandlers WsManager EventProcessor.
From S2P Require DbTypes LittleEndian MemStore Event EventHandler EventServer EventFlow Signal.
Import DbTypes(Chrono, Device, device_id, NewEvent, ne_device_id, event_id, event_device_id, Reply, MailboxError).
Open Scope Z_scope.

(** ** Where device ids come from

    [G] holds of the ids of the devices that were authenticated; every id that
    the servers keep or send is one of them. *)

Section Devices.
Context `{U : UuidOps} `{C : Chrono} {W Wr : Type} `{Ho : !Host W Wr} `{B : !Bincode} (G : Uuid -> Prop).

Definition handler_of (h : AudioHandler (Wr := Wr)) : Prop :=
  G (h_device_id h) /\ forall i aw, writers h !! i = Some aw -> G (aw_device_id aw).
Abbreviation events_of := (Forall (fun ne : NewEvent => G (ne_device_id ne))).

Lemma finalize_of aw (w : W) : G (aw_device_id aw) ->
  match fst (finalize_as_new_event (Wr := Wr) aw w) with Ok ne => G (ne_device_id ne) | Err _ => True end.
Proof.
  intros Ha. unfold finalize_as_new_event. destruct (aw_inner aw) as [wr|]; [|done].
  destruct (wav_finalize wr w) as [[[]|e] w1]; [|done]. by destruct (utc_now w1).
Qed.

Lemma ensure_writer_of h i (w : W) : handler_of h ->
  let '(r, h', _) := ensure_writer h i w in
  handler_of h' /\ match r with Ok aw => G (aw_device_id aw) | Err _ => True end.
Proof.
  intros [Hd Hw]. unfold ensure_writer. destruct (writers h !! i) as [aw|] eqn:Hi; [by split; [|by eapply Hw]|].
  unfold writer_new. destruct (wav_create _ _ w) as [[wr|e] w1]; [|done]. destruct (utc_now w1) as [now w2].
  split; [|done]. split; [done|]. intros j aw. cbn [writers with_writers]. intros [[_ <-]|[_ Hj]]%lookup_insert_Some; [done|by eapply Hw].
Qed.

Lemma writer_write_of {T} (try_into : T -> option HSample) aw c (w : W) :
  aw_device_id (snd (fst (writer_write try_into aw c w))) = aw_device_id aw.
Proof.
  unfold writer_write. destruct (aw_inner aw) as [wr|]; [|done]. destruct (_ <? _); [|done].
  by destruct (write_samples _ _ _ _) as [[r wr'] w'].
Qed.

Lemma handler_write_of {T} `{Default T} (wt : Wire T) (try_into : T -> option HSample) h buf (w : W) :
  handler_of h ->
  let '(_, h', _, sent) := handler_write wt try_into h buf w in handler_of h' /\ events_of sent.
Proof.
  intros Hh. unfold handler_write. destruct (deserialize (w_Audio wt) buf) as [[|secret spec|c|i]|e]; try done.
  - pose proof (ensure_writer_of h (id c) w Hh) as He. destruct (ensure_writer h (id c) w) as [[[aw|e] h1] w1]; [|by destruct He].
    destruct He as [[Hd Hw] Ha]. pose proof (writer_write_of try_into aw c w1) as Hwr.
    destruct (writer_write try_into aw c w1) as [[r aw'] w2]. cbn in Hwr. split; [|done]. split; [done|].
    intros j aw2. cbn [writers with_writers]. intros [[_ <-]|[_ Hj]]%lookup_insert_Some; [by rewrite Hwr|by eapply Hw].
  - destruct (writers h !! i) as [aw|] eqn:Hi; [|done]. destruct Hh as [Hd Hw]. unfold finalize_writer.
    pose proof (finalize_of aw w (Hw _ _ Hi)) as Hf. destruct (finalize_as_new_event aw w) as [[ne|e] w1]; cbn in Hf.
    all: split; [split; [done|]; intros j aw2; cbn [writers with_writers]; intros [_ Hj]%lookup_delete_Some; by eapply Hw|by repeat constructor].
Qed.

Lemma handle_of h buf (w : W) :
  handler_of h -> let '(h', _, sent) := AudioHandler.handle h buf w in handler_of h' /\ events_of sent.
Proof.
  intros Hh. unfold AudioHandler.handle. destruct (sample_format (h_spec h)).
  - pose proof (handler_write_of w_u16 u16_to_i16 h buf w Hh). by destruct (handler_write _ _ _ _ _) as [[[r h'] w'] sent].
  - pose proof (handler_write_of w_i16 i16_to_i16 h buf w Hh). by destruct (handler_write _ _ _ _ _) as [[[r h'] w'] sent].
  - pose proof (handler_write_of w_f32 f32_to_f32 h buf w Hh). by destruct (handler_write _ _ _ _ _) as [[[r h'] w'] sent].
Qed.

Lemma stopping_of h (w : W) : handler_of h -> let '(_, _, sent) := stopping h w in events_of sent.
Proof.
  intros [_ Hw]. unfold stopping, finalize_all.
  assert (Forall (fun x => G (aw_device_id (snd x))) (map_to_list (writers h))) as Hl.
  { apply Forall_forall. intros [i aw] Hi%elem_of_map_to_list. by eapply Hw. }
  assert (forall sent, events_of sent -> let '(_, sent') := foldl (fun '(w, sent) '(_, aw) =>
    match finalize_as_new_event aw w with
    | (Ok new_event, w) => (w, sent ++ [new_event])
    | (Err _, w) => (w, sent)
    end) (w, sent) (map_to_list (writers h)) in events_of sent') as Hgo.
  { clear Hw. revert w. induction Hl as [|[i aw] l Ha _ IH]; intros w sent Hs; [done|]. cbn [foldl].
    pose proof (finalize_of aw w Ha) as Hf. destruct (finalize_as_new_event aw w) as [[ne|e] w1]; cbn in Hf; apply IH; [|done].
    apply Forall_app. by repeat constructor. }
  specialize (Hgo [] ltac:(constructor)). by destruct (foldl _ _ _) as [w' sent'].
Qed.

(** The secrets that the audio server and a connection look up. *)
Definition audio_asks (buf : list byte) (from : SocketAddr) (s : AudioServer (Wr := Wr)) : list Z :=
  match sv_writers s !! from with
  | Some _ => []
  | None => match deserialize (w_Audio w_f32) buf with Ok (SpecMsg secret _) => [secret] | _ => [] end
  end.
Definition board_asks (event : result Event.Event Event.Error) (c : EventHandler.Connection) : list Z :=
  match EventHandler.running c, event, EventHandler.device c with
  | true, Ok e, None => [Event.secret e]
  | _, _, _ => []
  end.

Definition server_of (s : AudioServer (Wr := Wr)) : Prop := forall a h, sv_writers s !! a = Some h -> handler_of h.
Definition answers (reply : Z -> Reply Device) (secrets : list Z) : Prop :=
  forall secret d, secret ∈ secrets -> reply secret = Ok (Ok d) -> G (device_id d).

Lemma server_handle_of buf from reply s (w : W) :
  server_of s -> answers reply (audio_asks buf from s) ->
  let '(s', _, eff) := server_handle buf from reply s w in server_of s' /\ events_of (events_out eff).
Proof.
  intros Hs Ha. unfold server_handle, answers, audio_asks in *. destruct (sv_writers s !! from) as [h|] eqn:Hh.
  - pose proof (handle_of h buf w (Hs _ _ Hh)) as Hk. destruct (AudioHandler.handle h buf w) as [[h' w'] sent].
    destruct Hk as [Hh' Hsent]. split; [|done]. intros a k; cbn [sv_writers]; intros [[_ <-]|[_ Hk]]%lookup_insert_Some; [done|by eapply Hs].
  - destruct (deserialize (w_Audio w_f32) buf) as [[|secret spec|c|i]|e]; try done. split; [|done].
    unfold new_handler. destruct (reply secret) as [[d|err]|err] eqn:Er; [|done..].
    intros a k; cbn [sv_writers]; intros [[_ <-]|[_ Hk]]%lookup_insert_Some; [|by eapply Hs]. split.
    + apply (Ha secret d); [by left|done].
    + intros j aw. cbn. by rewrite lookup_empty.
Qed.

Definition connection_of (c : EventHandler.Connection) : Prop := forall d, EventHandler.device c = Some d -> G (device_id d).

Lemma new_event_of now e i ne : DbTypes.new_event_from now e i = Some ne -> ne_device_id ne = i.
Proof.
  unfold DbTypes.new_event_from. destruct (_ || _); intros H; apply bind_Some in H as (? & _ & H);
    apply bind_Some in H as (? & _ & [= <-]); done.
Qed.

Lemma inner_handle_of now e c c' :
  connection_of c -> EventHandler.inner_handle now e c = Some c' ->
  connection_of c' /\ exists new, EventHandler.sent c' = EventHandler.sent c ++ new /\ events_of new.
Proof.
  intros Hc. unfold EventHandler.inner_handle. destruct (EventHandler.device c) as [d|] eqn:Hd.
  - intros (ne & Hne & [= <-])%bind_Some. split; [exact Hc|]. exists [ne]. split; [done|].
    repeat constructor. rewrite (new_event_of _ _ _ _ Hne). by apply Hc.
  - intros [= <-]. split; [done|]. exists []. by rewrite app_nil_r.
Qed.

Lemma board_step_of c i c' :
  connection_of c -> answers (EventHandler.in_reply i) (board_asks (EventHandler.in_event i) c) ->
  EventHandler.step c i = Some c' ->
  connection_of c' /\ exists new, EventHandler.sent c' = EventHandler.sent c ++ new /\ events_of new.
Proof.
  intros Hc Ha. assert (forall c', EventHandler.device c' = EventHandler.device c -> EventHandler.sent c' = EventHandler.sent c ->
    connection_of c' /\ exists new, EventHandler.sent c' = EventHandler.sent c ++ new /\ events_of new) as Hsame.
  { intros c1 Hd Hs. unfold connection_of. rewrite Hd. split; [done|]. exists []. by rewrite app_nil_r. }
  unfold EventHandler.step, EventHandler.handle, answers, board_asks in *.
  destruct (EventHandler.running c) eqn:Hr; [|intros [= <-]; by apply Hsame].
  destruct (EventHandler.in_event i) as [e|err]; [|intros [= <-]; by apply Hsame].
  destruct (EventHandler.device c) as [d|] eqn:Hd; [by apply inner_handle_of|].
  intros Hi. destruct (EventHandler.in_reply i (Event.secret e)) as [[d|err]|err] eqn:Er; cbn [EventHandler.authenticate] in Hi.
  - apply inner_handle_of in Hi; [exact Hi|]. intros d' [= <-]. apply (Ha (Event.secret e)); [by left|done].
  - apply inner_handle_of in Hi; [exact Hi|]. intros d'. by rewrite Hd.
  - by apply inner_handle_of in Hi.
Qed.
End Devices.

(** ** The system *)

#[local] Existing Instance Signal.Signal_eq_dec.

(** The signals that actix's HTTP server, which has handlers of its own, stops
    on. *)
Class HttpSignals := { http_stops_on : Signal.Signal -> bool }.

Section Backend.
Context `{HS : HttpSignals} `{U : UuidOps} `{C : Chrono} {W Wr : Type} `{Ho : !Host W Wr} `{B : !Bincode} {DB : Type} `{PG : !Postgres DB}
  {Addr : Type} `{!EqDecision Addr} {Stream AcceptError : Type} `{Countable Stream} (to_json : DbTypes.Event -> string).

#[local] Arguments AudioHandler {U C} Wr.
#[local] Arguments AudioServer {U C} Wr.
Abbreviation happens := (happens (DB := DB) (Addr := Addr) to_json).
Abbreviation Happening := (Happening (Addr := Addr)).
Abbreviation EventServer := (EventServer.EventServer (Stream := Stream)).

(** The audio server serves; or it has handled a signal, and is gone, and some of
    its handlers have not stopped yet. *)
Inductive AudioPart : Type :=
| Serving (s : AudioServer Wr)
| Leaving (l : list (SocketAddr * AudioHandler Wr)).

(** [bk_http_ended]: the HTTP server has ended; [bk_stopped]: [main] has called
    [System::current().stop()], and nothing runs any more; [bk_signals]: the
    signals that the process has received, which each of the two servers and the
    HTTP server sees for itself, sooner or later. For the statements, [bk_packets] keeps the packets the audio server received, with
    the answers of the database, and [bk_secrets] the secrets that were looked
    up. *)
Record Backend : Type := mkBackend {
  bk_audio : AudioPart;
  bk_world : W;
  bk_boards : EventServer;
  bk_system : System (DB := DB) (Addr := Addr);
  bk_http_ended : bool;
  bk_stopped : bool;
  bk_packets : list Packet;
  bk_secrets : list Z;
  bk_signals : list Signal.Signal;
}.

(** A lookup by either server: the mailbox of the database may be out of
    reach. *)
Definition database_reply (unreached : option MailboxError) (s : Backend) : Z -> Reply Device :=
  match unreached with
  | Some e => fun _ => Err e
  | None => EventFlow.lookup_in (sys_db (bk_system s))
  end.
Definition lookups (unreached : option MailboxError) (secrets : list Z) : list Happening :=
  match unreached with
  | Some _ => []
  | None => map (fun secret => Request (SelectDevice secret)) secrets
  end.

Inductive Turn : Type :=
| AudioPacket (buf : list byte) (from : SocketAddr) (unreached : option MailboxError)
| Signalled (sig : Signal.Signal)
| AudioSignal (sig : Signal.Signal)
| HandlerStops (k : nat)
| Accepted (stream : result Stream AcceptError)
| BoardItem (stream : Stream) (event : result Event.Event Event.Error) (now : Z) (unreached : option MailboxError)
| BoardCloses (stream : Stream)
| EventSignal (sig : Signal.Signal)
| Processor (h : Happening)
| HttpEnds
| SystemStops.

(** Events that are sent to the processor, after a lookup. *)
Definition with_events (hs : list Happening) (sent : list NewEvent) (s : Backend) : System (DB := DB) (Addr := Addr) :=
  happens (bk_system s) (hs ++ map Arrive sent).

Definition board_turn (h : EventServer.Happening) (hs : list Happening) (secrets : list Z) (s : Backend) : Backend :=
  let boards := EventServer.happen (E := AcceptError) (bk_boards s) h in
  mkBackend (bk_audio s) (bk_world s) boards
    (with_events hs (drop (length (EventServer.mailbox (bk_boards s))) (EventServer.mailbox boards)).*2 s)
    (bk_http_ended s) (bk_stopped s) (bk_packets s) (bk_secrets s ++ secrets) (bk_signals s).

(** A server stops at a signal that was delivered; a handler whose address is gone
    stops, and sends its events ([AudioHandler::stopping]); the HTTP server ends
    after a signal that it stops on, and then [main] goes on behind
    [http_server.await] and stops the system, without waiting for the others. *)
Definition turn (t : Turn) (s : Backend) : Backend :=
  if bk_stopped s then s else
  match t with
  | AudioPacket buf from unreached =>
      match bk_audio s with
      | Serving server =>
          let p := mkPacket buf from (database_reply unreached s) in
          let secrets := audio_asks buf from server in
          let '(server, w, eff) := server_handle buf from (pk_reply p) server (bk_world s) in
          mkBackend (Serving server) w (bk_boards s) (with_events (lookups unreached secrets) (events_out eff) s)
            (bk_http_ended s) false (bk_packets s ++ [p]) (bk_secrets s ++ secrets) (bk_signals s)
      | Leaving _ => s
      end
  | Signalled sig =>
      mkBackend (bk_audio s) (bk_world s) (bk_boards s) (bk_system s) (bk_http_ended s) false (bk_packets s) (bk_secrets s)
        (bk_signals s ++ [sig])
  | AudioSignal sig =>
      if decide (sig ∈ bk_signals s) then
      match bk_audio s with
      | Serving server =>
          mkBackend (Leaving (map_to_list (sv_writers server))) (bk_world s) (bk_boards s) (bk_system s)
            (bk_http_ended s) false (bk_packets s) (bk_secrets s) (bk_signals s)
      | Leaving _ => s
      end
      else s
  | HandlerStops k =>
      match bk_audio s with
      | Leaving l =>
          match l !! k with
          | Some (_, h) =>
              let '(_, w, sent) := stopping h (bk_world s) in
              mkBackend (Leaving (delete k l)) w (bk_boards s) (with_events [] sent s) (bk_http_ended s) false
                (bk_packets s) (bk_secrets s) (bk_signals s)
          | None => s
          end
      | Serving _ => s
      end
  | Accepted stream => board_turn (EventServer.Accept stream) [] [] s
  | BoardItem stream event now unreached =>
      let secrets := match EventServer.connections (bk_boards s) !! stream with Some c => board_asks event c | None => [] end in
      board_turn (EventServer.Item stream (EventHandler.mkInput event (database_reply unreached s) now))
        (lookups unreached secrets) secrets s
  | BoardCloses stream => board_turn (EventServer.Closed stream) [] [] s
  | EventSignal sig => if decide (sig ∈ bk_signals s) then board_turn (EventServer.Signalled sig) [] [] s else s
  | Processor (Arrive _) => s
  | Processor h => mkBackend (bk_audio s) (bk_world s) (bk_boards s) (happens (bk_system s) [h]) (bk_http_ended s) false
      (bk_packets s) (bk_secrets s) (bk_signals s)
  | HttpEnds =>
      if existsb http_stops_on (bk_signals s) then
        mkBackend (bk_audio s) (bk_world s) (bk_boards s) (bk_system s) true false (bk_packets s) (bk_secrets s) (bk_signals s)
      else s
  | SystemStops =>
      if bk_http_ended s then
        mkBackend (bk_audio s) (bk_world s) (bk_boards s) (bk_system s) true true (bk_packets s) (bk_secrets s) (bk_signals s)
      else s
  end.
Definition turns (ts : list Turn) (s : Backend) : Backend := foldl (fun s t => turn t s) s ts.

(** [main], after all services were built. *)
Definition backend_start (wav_directory : string) (event_server_port : Z) (w : W) (db : DB) (sess : Sessions (Addr := Addr))
    : Backend :=
  mkBackend (Serving (server_new wav_directory)) w (EventServer.server_new event_server_port) (start db sess) false false [] [] [].

(** No device is deleted. *)
Definition harmless_turn (t : Turn) : Prop := match t with Processor h => harmless h | _ => True end.

Definition handlers (s : Backend) : list (SocketAddr * AudioHandler Wr) :=
  match bk_audio s with Serving server => map_to_list (sv_writers server) | Leaving l => l end.
End Backend.

(** ** What a run has done *)

Section Runs.
Context `{HS : HttpSignals} `{U : UuidOps} `{C : Chrono} {W Wr : Type} `{Ho : !Host W Wr} `{B : !Bincode} {DB : Type} `{PG : !Postgres DB}
  `{L : !PostgresLaws DB} {Addr : Type} `{!EqDecision Addr} {Stream AcceptError : Type} `{Countable Stream}
  (to_json : DbTypes.Event -> string).
Context (dir : string) (port : Z) (w0 : W) (db : DB) (sess : Sessions (Addr := Addr)).

#[local] Arguments AudioHandler {U C} Wr.
#[local] Arguments AudioServer {U C} Wr.
Abbreviation happens := (happens (DB := DB) (Addr := Addr) to_json).
Abbreviation Happening := (Happening (Addr := Addr)).
Abbreviation backend := (Backend (W := W) (Wr := Wr) (DB := DB) (Addr := Addr) (Stream := Stream)).
Abbreviation Turn := (Turn (Addr := Addr) (Stream := Stream) (AcceptError := AcceptError)).

Definition stop_handlers (l : list (SocketAddr * AudioHandler Wr)) (w : W) : W * list NewEvent :=
  foldl (fun '(w, sent) '(_, writer) => let '(_, w, sent') := stopping writer w in (w, sent ++ sent')) (w, []) l.

Lemma arrivals_app (hs hs' : list Happening) : arrivals (hs ++ hs') = arrivals hs ++ arrivals hs'.
Proof using Type. apply omap_app. Qed.

Lemma arrivals_arrive (nes : list NewEvent) : arrivals (map (Arrive (Addr := Addr)) nes) = nes.
Proof using Type. unfold arrivals. induction nes as [|ne nes IH]; [done|]. cbn. by f_equal. Qed.

Lemma arrivals_lookups un secrets : arrivals (lookups (Addr := Addr) un secrets) = [].
Proof using Type. destruct un; [done|]. unfold arrivals. by induction secrets. Qed.

Lemma lookups_harmless un secrets : Forall harmless (lookups (Addr := Addr) un secrets).
Proof using Type. destruct un; [constructor|]. apply Forall_map, Forall_true. intros secret. exact I. Qed.

Lemma arrive_harmless (nes : list NewEvent) : Forall harmless (map (Arrive (Addr := Addr)) nes).
Proof using Type. apply Forall_map, Forall_true. intros ne. exact I. Qed.

Lemma happens_app s hs hs' : happens s (hs ++ hs') = happens (happens s hs) hs'.
Proof using Type. apply foldl_app. Qed.

Lemma stop_handlers_snoc l a h w :
  stop_handlers (l ++ [(a, h)]) w =
    let '(w1, sent) := stop_handlers l w in let '(_, w2, sent') := stopping h w1 in (w2, sent ++ sent').
Proof using Type. unfold stop_handlers. rewrite foldl_snoc. by destruct (foldl _ _ l). Qed.

Lemma serve_snoc (s : AudioServer Wr) (w : W) ps p :
  serve s w (ps ++ [p]) =
    let '(s, w, eff) := serve s w ps in
    let '(s, w, eff') := server_handle (pk_buf p) (pk_from p) (pk_reply p) s w in
    (s, w, mkEffects (packets_out eff ++ packets_out eff') (events_out eff ++ events_out eff')).
Proof using Type. unfold serve. rewrite foldl_snoc. by destruct (foldl _ _ ps) as [[s1 w1] eff]. Qed.

(** The messages of the boards only grow. *)
Lemma mailbox_grows (s : EventServer.EventServer (Stream := Stream)) (h : EventServer.Happening (E := AcceptError)) :
  exists new, EventServer.mailbox (EventServer.happen s h) = EventServer.mailbox s ++ new.
Proof using Type.
  destruct h as [[stream|e]|stream i|stream|sig]; cbn; try (exists []; by rewrite app_nil_r).
  - exists []. rewrite app_nil_r. by destruct (EventServer.serving s).
  - exists []. rewrite app_nil_r. by destruct (EventServer.serving s).
  - unfold EventServer.handle_item. destruct (EventServer.connections s !! stream) as [c|]; [|exists []; by rewrite app_nil_r].
    destruct (EventHandler.step c i); cbn; [by eexists|exists []; by rewrite app_nil_r].
Qed.

(** The audio server and its handlers: what was received, and which handlers
    have stopped. *)
Definition audio_done (fin : list (SocketAddr * AudioHandler Wr)) (audio : list NewEvent) (b : backend) : Prop :=
  let '(s, w1, eff) := serve (server_new dir) w0 (bk_packets b) in
  map_to_list (sv_writers s) ≡ₚ fin ++ handlers b /\ bk_world b = fst (stop_handlers fin w1) /\
  audio = events_out eff ++ snd (stop_handlers fin w1) /\
  match bk_audio b with Serving s' => fin = [] /\ s' = s | Leaving _ => True end.

(** The handlers that stopped, in their order, what happened to the processor,
    and the events of recordings. *)
Record reached (fin : list (SocketAddr * AudioHandler Wr)) (hs : list Happening) (audio : list NewEvent) (b : backend)
    : Prop := {
  re_audio : audio_done fin audio b;
  re_system : bk_system b = happens (start db sess) hs;
  re_arrivals : arrivals hs ≡ₚ audio ++ (EventServer.mailbox (bk_boards b)).*2;
  re_harmless : Forall harmless hs;
}.

Lemma reached_start : reached [] [] [] (backend_start dir port w0 db sess).
Proof using Type. by split. Qed.

(** Happenings that bring no event. *)
Lemma reached_more fin hs audio b b' hs' :
  reached fin hs audio b -> audio_done fin audio b' -> bk_system b' = happens (bk_system b) hs' ->
  bk_boards b' = bk_boards b -> arrivals hs' = [] -> Forall harmless hs' -> reached fin (hs ++ hs') audio b'.
Proof using Type.
  intros [Ha Hs Harr Hh] Ha' Hs' Hb Hn Hh'. split; [done| | |by apply Forall_app].
  - by rewrite Hs', Hs, happens_app.
  - by rewrite arrivals_app, Hn, app_nil_r, Hb.
Qed.

Lemma reached_board fin hs audio b h hs' secrets :
  reached fin hs audio b -> arrivals hs' = [] -> Forall harmless hs' ->
  exists hs1, reached fin hs1 audio (board_turn (AcceptError := AcceptError) to_json h hs' secrets b).
Proof using Type.
  intros [Ha Hs Harr Hh] Hn Hh'. destruct (mailbox_grows (bk_boards b) h) as [new Hnew].
  unfold board_turn, with_events. rewrite Hnew, drop_app_length.
  exists (hs ++ hs' ++ map Arrive new.*2). split; cbn; [exact Ha| | |].
  - by rewrite (happens_app _ hs), <- Hs.
  - by rewrite !arrivals_app, Hn, arrivals_arrive, Harr, Hnew, fmap_app, <- app_assoc.
  - rewrite !Forall_app. split_and!; [done|done|]. apply arrive_harmless.
Qed.

Lemma reached_packet fin hs audio b (buf : list byte) from un :
  bk_stopped b = false -> reached fin hs audio b ->
  exists fin' hs' audio', reached fin' hs' audio' (turn to_json (AudioPacket buf from un : Turn) b).
Proof using Type.
  intros Hb Hr. unfold turn. rewrite Hb. pose proof Hr as [Ha Hs Harr Hh]. unfold audio_done, handlers in Ha.
  destruct (bk_audio b) as [server|l] eqn:Eb; [|by exists fin, hs, audio].
  pose proof (serve_snoc (server_new dir) w0 (bk_packets b) (mkPacket buf from (database_reply un b))) as Hsnoc.
  destruct (serve (server_new dir) w0 (bk_packets b)) as [[s1 w1] eff] eqn:Es. destruct Ha as (Hl & Hw & Haud & -> & ->).
  cbn in Hsnoc, Hw. rewrite Hw. cbn [pk_reply].
  destruct (server_handle buf from (database_reply un b) s1 w1) as [[s2 w2] eff2].
  exists [], (hs ++ lookups un (audio_asks buf from s1) ++ map Arrive (events_out eff2)), (audio ++ events_out eff2).
  split; cbn [bk_audio bk_world bk_boards bk_system bk_packets].
  - unfold audio_done, handlers. cbn [bk_audio bk_world bk_packets]. rewrite Hsnoc. cbn [events_out fst snd stop_handlers foldl].
    rewrite Haud. cbn. by rewrite !app_nil_r.
  - unfold with_events. by rewrite (happens_app _ hs), <- Hs.
  - rewrite !arrivals_app, arrivals_lookups, arrivals_arrive, Harr. cbn. rewrite <- !app_assoc.
    apply Permutation_app_head. apply Permutation_app_comm.
  - rewrite !Forall_app. split_and!; [done|apply lookups_harmless|apply arrive_harmless].
Qed.

Lemma reached_stops fin hs audio b k :
  bk_stopped b = false -> reached fin hs audio b ->
  exists fin' hs' audio', reached fin' hs' audio' (turn to_json (HandlerStops k : Turn) b).
Proof using Type.
  intros Hb Hr. unfold turn. rewrite Hb. pose proof Hr as [Ha Hs Harr Hh]. unfold audio_done, handlers in Ha.
  destruct (bk_audio b) as [server|l] eqn:Eb; [by exists fin, hs, audio|].
  destruct (l !! k) as [[a h]|] eqn:Hk; [|by exists fin, hs, audio].
  destruct (stopping h (bk_world b)) as [[h' w'] sent] eqn:Hst.
  exists (fin ++ [(a, h)]), (hs ++ map Arrive sent), (audio ++ sent). split; cbn [bk_audio bk_world bk_boards bk_system bk_packets].
  - unfold audio_done, handlers. cbn [bk_audio bk_world bk_packets].
    destruct (serve (server_new dir) w0 (bk_packets b)) as [[s1 w1] eff]. destruct Ha as (Hl & Hw & -> & _).
    rewrite stop_handlers_snoc. destruct (stop_handlers fin w1) as [w2 sent2]. cbn in Hw |- *. subst w2. rewrite Hst. cbn.
    split_and!; [|done|by rewrite <- app_assoc|done]. rewrite Hl, <- app_assoc. by apply Permutation_app_head, delete_Permutation.
  - unfold with_events. by rewrite (happens_app _ hs), <- Hs.
  - rewrite arrivals_app, arrivals_arrive, Harr, <- !app_assoc. apply Permutation_app_head. apply Permutation_app_comm.
  - rewrite Forall_app. split; [done|]. apply arrive_harmless.
Qed.

Lemma turn_reached fin hs audio b (t : Turn) :
  harmless_turn t -> reached fin hs audio b -> exists fin' hs' audio', reached fin' hs' audio' (turn to_json t b).
Proof using Type.
  intros Ht Hr. destruct (bk_stopped b) eqn:Hb; [unfold turn; rewrite Hb; by exists fin, hs, audio|].
  assert (forall h hs' secrets, arrivals hs' = [] -> Forall harmless hs' ->
    exists fin' hs1 audio', reached fin' hs1 audio' (board_turn (AcceptError := AcceptError) to_json h hs' secrets b)) as Hboard.
  { intros h hs' secrets Hn Hh'. destruct (reached_board fin hs audio b h hs' secrets Hr Hn Hh') as [hs1 H1]. by exists fin, hs1, audio. }
  destruct t as [buf from un|sig|sig|k|stream|stream ev now un|stream|sig|h| |].
  1: by eapply reached_packet. 3: by eapply reached_stops.
  all: unfold turn; rewrite Hb.
  - exists fin, (hs ++ []), audio. apply (reached_more _ _ _ b); try done. apply Hr.
  - case_decide; [|by exists fin, hs, audio]. destruct (bk_audio b) as [server|l] eqn:Eb; [|by exists fin, hs, audio].
    exists fin, (hs ++ []), audio. apply (reached_more _ _ _ b); try done.
    pose proof (re_audio _ _ _ _ Hr) as Ha. unfold audio_done, handlers in Ha |- *. cbn [bk_audio bk_world bk_packets]. rewrite Eb in Ha.
    destruct (serve (server_new dir) w0 (bk_packets b)) as [[s1 w1] eff]. destruct Ha as (? & ? & ? & ? & ->). by split_and!.
  - by apply Hboard.
  - apply Hboard; [apply arrivals_lookups|apply lookups_harmless].
  - by apply Hboard.
  - case_decide; [by apply Hboard|by exists fin, hs, audio].
  - destruct h as [msg|i|i e|m|x]; [by exists fin, hs, audio|..]; exists fin; eexists; exists audio;
      (eapply (reached_more _ _ _ b); [done|apply Hr|reflexivity|done|done|by repeat constructor]).
  - destruct (existsb _ _); [|by exists fin, hs, audio].
    exists fin, (hs ++ []), audio. apply (reached_more _ _ _ b); try done. apply Hr.
  - destruct (bk_http_ended b); [|by exists fin, hs, audio].
    exists fin, (hs ++ []), audio. apply (reached_more _ _ _ b); try done. apply Hr.
Qed.

Lemma turns_reached (ts : list Turn) :
  Forall harmless_turn ts ->
  exists fin hs audio, reached fin hs audio (turns to_json ts (backend_start dir port w0 db sess)).
Proof using Type.
  intros Hts. unfold turns. induction ts as [|t ts IH] using rev_ind; [by exists [], [], []; apply reached_start|].
  apply Forall_app in Hts as [Hts [Ht _]%Forall_cons]. rewrite foldl_snoc. destruct (IH Hts) as (fin & hs & audio & Hr).
  by apply (turn_reached fin hs audio).
Qed.
End Runs.

(** ** Whose events are processed *)

Section Authentication.
Context `{HS : HttpSignals} `{U : UuidOps} `{C : Chrono} {W Wr : Type} `{Ho : !Host W Wr} `{B : !Bincode} {DB : Type} `{PG : !Postgres DB}
  `{L : !PostgresLaws DB} {Addr : Type} `{!EqDecision Addr} {Stream AcceptError : Type} `{Countable Stream}
  (to_json : DbTypes.Event -> string).

#[local] Arguments AudioHandler {U C} Wr.
#[local] Arguments AudioServer {U C} Wr.
Abbreviation happen := (happen (DB := DB) (Addr := Addr) to_json).
Abbreviation happens := (happens (DB := DB) (Addr := Addr) to_json).
Abbreviation Happening := (Happening (Addr := Addr)).
Abbreviation backend := (Backend (W := W) (Wr := Wr) (DB := DB) (Addr := Addr) (Stream := Stream)).
Abbreviation Turn := (Turn (Addr := Addr) (Stream := Stream) (AcceptError := AcceptError)).
Abbreviation events_of G := (Forall (fun ne : NewEvent => G (ne_device_id ne))).

(** A secret of the device was presented to one of the servers. *)
Definition authenticated (b : backend) (i : Uuid) : Prop :=
  exists secret, secret ∈ bk_secrets b /\
    (u64_to_be_bytes secret, i) ∈ t_credentials (tables_of (sys_db (bk_system b))).

Definition task_of (G : Uuid -> Prop) (t : Task) : Prop :=
  match t with
  | SelectLabels_ msg | InsertEvent_ msg _ => G (ne_device_id msg)
  | Broadcast_ e _ | Done (Ok e) => G (event_device_id e)
  | Done (Err _) => True
  end.

(** Every device id in the system is one of [G]. *)
Record known (G : Uuid -> Prop) (b : backend) : Prop := {
  kn_handlers : Forall (fun x => handler_of G (snd x)) (handlers b);
  kn_connections : forall stream c, EventServer.connections (bk_boards b) !! stream = Some c -> connection_of G c;
  kn_tasks : Forall (task_of G) (sys_tasks (bk_system b));
}.

Lemma known_mono (G G' : Uuid -> Prop) b : (forall i, G i -> G' i) -> known G b -> known G' b.
Proof using Type.
  intros HG [Hh Hc Ht]. split.
  - eapply Forall_impl; [exact Hh|]. intros [a h] [Hd Hw]. split; [by apply HG|]. intros i aw Hi. eapply HG, Hw, Hi.
  - intros stream c Hs d Hd. by apply HG, (Hc stream c).
  - eapply Forall_impl; [exact Ht|]. intros [m|m ls|e ls|[e|e]]; cbn; auto.
Qed.

Lemma happen_task (G : Uuid -> Prop) s h :
  match h with Arrive ne => G (ne_device_id ne) | _ => True end ->
  Forall (task_of G) (sys_tasks s) -> Forall (task_of G) (sys_tasks (happen s h)).
Proof using L.
  intros Hne Ht. destruct h as [ne|i|i e|m|a]; cbn [EventProcessor.happen]; [|destruct (sys_tasks s !! i) as [t|] eqn:Hi; [|done]..|done|done].
  - cbn. apply Forall_app. by repeat constructor.
  - rewrite Forall_lookup in Ht. pose proof (Ht i t Hi) as Hg. rewrite <- Forall_lookup in Ht.
    destruct t as [m|m ls|e ls|r]; cbn [resume].
    + destruct (handle_select_labels (sys_db s)) as [[ls|e] db']; cbn; by apply Forall_insert.
    + pose proof (insert_event_handler m _ (sys_db s) eq_refl) as Hins.
      destruct (handle_insert_event m (sys_db s)) as [[e|e] db']; cbn; apply Forall_insert; try done.
      destruct Hins as (-> & _). exact Hg.
    + by apply Forall_insert.
    + by apply Forall_insert.
  - rewrite Forall_lookup in Ht. pose proof (Ht i t Hi) as Hg. rewrite <- Forall_lookup in Ht. apply Forall_insert; [done|].
    by destruct t.
Qed.

Lemma happens_tasks (G : Uuid -> Prop) s hs :
  events_of G (arrivals hs) -> Forall (task_of G) (sys_tasks s) -> Forall (task_of G) (sys_tasks (happens s hs)).
Proof using L.
  revert s. induction hs as [|h hs IH]; intros s Hne Ht; [done|]. unfold arrivals in Hne, IH. cbn in Hne |- *.
  destruct h as [ne|i|i e|m|a]; cbn in Hne; [apply Forall_cons in Hne as [Hg Hne]|..]; apply IH; try done; by apply happen_task.
Qed.

(** A turn that looks [secrets] up and lets [hs] happen. *)
Record goes_on (b b' : backend) (secrets : list Z) (hs : list Happening) : Prop := {
  go_secrets : bk_secrets b' = bk_secrets b ++ secrets;
  go_system : bk_system b' = happens (bk_system b) hs;
  go_harmless : Forall harmless hs;
}.

Lemma authenticated_more b b' secrets hs i :
  integrity (tables_of (sys_db (bk_system b))) -> goes_on b b' secrets hs -> authenticated b i -> authenticated b' i.
Proof using L.
  intros Hi [Hs Hsys Hh] (secret & Hin & Hrow). exists secret. rewrite Hs, Hsys.
  split; [apply elem_of_app; by left|]. by apply happens_rows.
Qed.

Lemma database_answers b b' secrets hs un :
  integrity (tables_of (sys_db (bk_system b))) -> goes_on b b' secrets hs ->
  answers (authenticated b') (database_reply un b) secrets.
Proof using L.
  intros Hi [Hs Hsys Hh] secret d Hin Hr. destruct un as [e|]; [done|]. cbn in Hr. unfold EventFlow.lookup_in in Hr.
  injection Hr as Hr. pose proof (select_device_handler secret _ Hi (sys_db (bk_system b)) eq_refl) as Hsel.
  destruct (handle_select_device secret (sys_db (bk_system b))) as [[d'|e] db']; cbn in Hr; [|done]. injection Hr as ->. destruct Hsel as (_ & Hrow & _).
  exists secret. rewrite Hs, Hsys. split; [apply elem_of_app; by right|]. by apply happens_rows.
Qed.

(** Events that are sent are processed. *)
Lemma known_system (G : Uuid -> Prop) (b b' : backend) hs :
  known G b -> bk_system b' = happens (bk_system b) hs -> events_of G (arrivals hs) ->
  Forall (fun x => handler_of G (snd x)) (handlers b') ->
  (forall stream c, EventServer.connections (bk_boards b') !! stream = Some c -> connection_of G c) -> known G b'.
Proof using L. intros [_ _ Ht] Hs Hne Hh Hc. split; [done..|]. rewrite Hs. by apply happens_tasks. Qed.

(** The event server keeps and sends authenticated ids only. *)
Lemma board_happen_of (G : Uuid -> Prop) (s : EventServer.EventServer) (h : EventServer.Happening (Stream := Stream) (E := AcceptError)) :
  (forall stream c, EventServer.connections s !! stream = Some c -> connection_of G c) ->
  (forall stream i c, h = EventServer.Item stream i -> EventServer.connections s !! stream = Some c ->
    answers G (EventHandler.in_reply i) (board_asks (EventHandler.in_event i) c)) ->
  (forall stream c, EventServer.connections (EventServer.happen s h) !! stream = Some c -> connection_of G c) /\
  exists new, EventServer.mailbox (EventServer.happen s h) = EventServer.mailbox s ++ new /\ events_of G new.*2.
Proof using Type.
  intros Hc Ha.
  assert (exists new, EventServer.mailbox s = EventServer.mailbox s ++ new /\ events_of G new.*2) as Hnone
    by (exists []; by rewrite app_nil_r).
  destruct h as [[stream|e]|stream i|stream|sig]; cbn [EventServer.happen].
  - cbn. destruct (EventServer.serving s); [|done]. split; [|done]. cbn.
    intros stream' c [[_ <-]|[_ Hk]]%lookup_insert_Some; [done|by eapply Hc].
  - cbn. by destruct (EventServer.serving s).
  - unfold EventServer.handle_item. destruct (EventServer.connections s !! stream) as [c|] eqn:Hs; [|done].
    destruct (EventHandler.step c i) as [c'|] eqn:Hstep.
    + destruct (board_step_of G c i c' (Hc _ _ Hs) (Ha stream i c eq_refl Hs) Hstep) as (Hc' & new & Hsent & Hnew).
      split; cbn.
      * intros stream' c1 [[_ <-]|[_ Hk]]%lookup_insert_Some; [done|by eapply Hc].
      * eexists. split; [done|]. rewrite Hsent, drop_app_length. clear -Hnew. induction Hnew; cbn; by constructor.
    + split; [|done]. cbn. intros stream' c1 [[_ <-]|[_ Hk]]%lookup_insert_Some; [|by eapply Hc]. apply (Hc _ _ Hs).
  - cbn. split; [|done]. intros stream' c1 Hk. destruct (decide (stream = stream')) as [->|Hne].
    + rewrite lookup_alter_eq in Hk. apply fmap_Some in Hk as (c & Hs & ->). apply (Hc _ _ Hs).
    + rewrite lookup_alter_ne in Hk by done. by eapply Hc.
  - by split.
Qed.
End Authentication.

Section Safety.
Context `{HS : HttpSignals} `{U : UuidOps} `{C : Chrono} {W Wr : Type} `{Ho : !Host W Wr} `{B : !Bincode} {DB : Type} `{PG : !Postgres DB}
  `{L : !PostgresLaws DB} {Addr : Type} `{!EqDecision Addr} {Stream AcceptError : Type} `{Countable Stream}
  (to_json : DbTypes.Event -> string).

Abbreviation backend := (Backend (W := W) (Wr := Wr) (DB := DB) (Addr := Addr) (Stream := Stream)).
Abbreviation Turn := (Turn (Addr := Addr) (Stream := Stream) (AcceptError := AcceptError)).
Abbreviation goes_on := (goes_on to_json).

(** The invariant. *)
Definition sound (b : backend) : Prop := integrity (tables_of (sys_db (bk_system b))) /\ known (authenticated b) b.

Lemma sound_start dir port w db sess :
  integrity (tables_of db) -> sound (backend_start (Addr := Addr) dir port w db sess).
Proof using Type.
  intros Hi. split; [done|]. split; cbn; [|by intros stream c|constructor].
  rewrite map_to_list_empty. constructor.
Qed.

(** It is enough to look at what a turn changes, with the ids that are
    authenticated after it. *)
Lemma sound_goes_on (b b' : backend) secrets hs :
  sound b -> goes_on b b' secrets hs ->
  (known (authenticated b') b ->
   Forall (fun ne => authenticated b' (ne_device_id ne)) (arrivals hs) /\
   Forall (fun x => handler_of (authenticated b') (snd x)) (handlers b') /\
   (forall stream c, EventServer.connections (bk_boards b') !! stream = Some c -> connection_of (authenticated b') c)) ->
  sound b'.
Proof using L.
  intros [Hi Hk] Hg Hnew. assert (known (authenticated b') b) as Hk'.
  { eapply known_mono; [|exact Hk]. intros i. by eapply authenticated_more. }
  destruct (Hnew Hk') as (Hne & Hh & Hc). split; [rewrite (go_system _ _ _ _ _ Hg); by apply happens_integrity|].
  by apply (known_system to_json _ b b' hs Hk' (go_system _ _ _ _ _ Hg)).
Qed.

(** Nothing is asked for and no event sent. *)
Lemma sound_quiet (b b' : backend) hs :
  sound b -> goes_on b b' [] hs -> arrivals hs = [] -> bk_boards b' = bk_boards b -> handlers b' ⊆ handlers b -> sound b'.
Proof using L.
  intros Hs Hg Hn Hb Hh. apply (sound_goes_on b b' [] hs Hs Hg). intros [Hk1 Hk2 _]. rewrite Hn, Hb. split_and!; [done| |done].
  apply Forall_forall. intros x Hx. rewrite Forall_forall in Hk1. by apply Hk1, Hh.
Qed.

Lemma board_turn_sound (b : backend) h un secrets :
  sound b ->
  (forall stream i c, h = EventServer.Item stream i -> EventServer.connections (bk_boards b) !! stream = Some c ->
    EventHandler.in_reply i = database_reply un b /\ secrets = board_asks (EventHandler.in_event i) c) ->
  sound (board_turn (AcceptError := AcceptError) to_json h (lookups un secrets) secrets b).
Proof using L.
  intros Hs Ha. set (b' := board_turn to_json h _ _ b).
  set (sent := (drop (length (EventServer.mailbox (bk_boards b))) (EventServer.mailbox (bk_boards b'))).*2).
  assert (goes_on b b' secrets (lookups un secrets ++ map Arrive sent)) as Hg.
  { split; [done|done|]. rewrite Forall_app. split; [apply lookups_harmless|apply arrive_harmless]. }
  apply (sound_goes_on b b' _ _ Hs Hg). intros [Hk1 Hk2 _].
  destruct (board_happen_of (AcceptError := AcceptError) (authenticated b') (bk_boards b) h Hk2) as (Hc & new & Hnew & Hsent).
  { intros stream i c -> Hi. destruct (Ha _ _ _ eq_refl Hi) as [-> <-]. by eapply database_answers; [apply Hs|]. }
  rewrite arrivals_app, arrivals_lookups, arrivals_arrive. split_and!; [|done|done].
  subst sent. cbn [bk_boards b' board_turn]. by rewrite Hnew, drop_app_length.
Qed.

Lemma audio_packet_sound (b : backend) buf from un :
  bk_stopped b = false -> sound b -> sound (turn to_json (AudioPacket buf from un : Turn) b).
Proof using L.
  intros Hb Hs. unfold turn. rewrite Hb. destruct (bk_audio b) as [server|l] eqn:Ea; [|done]. cbn [pk_reply].
  pose proof (fun G => server_handle_of G buf from (database_reply un b) server (bk_world b)) as Hsrv.
  destruct (server_handle buf from (database_reply un b) server (bk_world b)) as [[server' w'] eff].
  set (b' := mkBackend _ _ _ _ _ _ _ _ _).
  assert (goes_on b b' (audio_asks buf from server) (lookups un (audio_asks buf from server) ++ map Arrive (events_out eff))) as Hg.
  { split; [done|done|]. rewrite Forall_app. split; [apply lookups_harmless|apply arrive_harmless]. }
  apply (sound_goes_on b b' _ _ Hs Hg). intros [Hk1 Hk2 _]. destruct (Hsrv (authenticated b')) as [Hs' Hsent].
  - intros a h Hh. unfold handlers in Hk1. rewrite Ea in Hk1. rewrite Forall_forall in Hk1.
    apply (Hk1 (a, h)). by apply elem_of_map_to_list.
  - by eapply database_answers; [apply Hs|].
  - rewrite arrivals_app, arrivals_lookups, arrivals_arrive. split_and!; [done| |done].
    apply Forall_forall. intros [a h] Hh%elem_of_map_to_list. by apply (Hs' a).
Qed.

Lemma handler_stops_sound (b : backend) k :
  bk_stopped b = false -> sound b -> sound (turn to_json (HandlerStops k : Turn) b).
Proof using L.
  intros Hb Hs. unfold turn. rewrite Hb. destruct (bk_audio b) as [server|l] eqn:Ea; [done|].
  destruct (l !! k) as [[a h]|] eqn:Hk; [|done].
  pose proof (fun G => stopping_of G h (bk_world b)) as Hst. destruct (stopping h (bk_world b)) as [[h' w'] sent].
  set (b' := mkBackend _ _ _ _ _ _ _ _ _).
  assert (goes_on b b' [] (map Arrive sent)) as Hg by (split; [cbn; by rewrite app_nil_r|done|apply arrive_harmless]).
  apply (sound_goes_on b b' _ _ Hs Hg). intros [Hk1 Hk2 _]. unfold handlers in Hk1. rewrite Ea in Hk1.
  rewrite arrivals_arrive. split_and!; [|by apply Forall_delete|done]. apply Hst.
  rewrite Forall_lookup in Hk1. by apply (Hk1 k (a, h)).
Qed.

Lemma turn_sound (b : backend) (t : Turn) : harmless_turn t -> sound b -> sound (turn to_json t b).
Proof using L.
  intros Ht Hs. destruct (bk_stopped b) eqn:Hb; [unfold turn; by rewrite Hb|].
  assert (forall b' hs, bk_secrets b' = bk_secrets b -> bk_system b' = happens to_json (bk_system b) hs -> Forall harmless hs ->
    arrivals hs = [] -> bk_boards b' = bk_boards b -> handlers b' ⊆ handlers b -> sound b') as Hquiet.
  { intros b' hs H1 H2 H3 H4 H5 H6. apply (sound_quiet b b' hs Hs); [|done..]. split; [by rewrite app_nil_r|done..]. }
  destruct t as [buf from un|sig|sig|k|stream|stream ev now un|stream|sig|h| |].
  1: by apply audio_packet_sound. 3: by apply handler_stops_sound.
  all: unfold turn; rewrite Hb.
  - by apply (Hquiet _ []).
  - case_decide; [|done]. destruct (bk_audio b) as [server|l] eqn:Ea; [|done]. apply (Hquiet _ []); try done. unfold handlers. by rewrite Ea.
  - by apply (board_turn_sound b _ None []).
  - apply board_turn_sound; [done|]. intros stream' i c [= <- <-] Hc. by rewrite Hc.
  - by apply (board_turn_sound b _ None []).
  - case_decide; [by apply (board_turn_sound b _ None [])|done].
  - destruct h as [msg|i|i e|m|x]; [done|..]; by eapply Hquiet; [done|reflexivity|repeat constructor|..].
  - destruct (existsb _ _); [|done]. by apply (Hquiet _ []).
  - destruct (bk_http_ended b); [|done]. by apply (Hquiet _ []).
Qed.

Lemma turns_sound dir port w db sess (ts : list Turn) :
  integrity (tables_of db) -> Forall harmless_turn ts -> sound (turns to_json ts (backend_start dir port w db sess)).
Proof using L.
  intros Hi Hts. unfold turns. induction ts as [|t ts IH] using rev_ind; [by apply sound_start|].
  apply Forall_app in Hts as [Hts [Ht _]%Forall_cons]. rewrite foldl_snoc. by apply turn_sound; auto.
Qed.

(** C15: no event without a secret. Whatever packets, connections, requests
    and signals reach the backend, in any order, as long as no device is
    deleted: every event that the processor has inserted is in the database,
    its times as a column keeps them, under a device of which a secret was
    presented, in a client's format message or in a board's event, and looked up;
    and every message to a session is the text of such an event. *)
Theorem events_are_authenticated (dir : string) (port : Z) (w : W) (db : DB) (sess : Sessions (Addr := Addr))
    (ts : list Turn) :
  integrity (tables_of db) -> Forall harmless_turn ts ->
  let b := turns to_json ts (backend_start dir port w db sess : backend) in
  let s := bk_system b in
  (forall t e, t ∈ sys_tasks s -> inserted t = Some e ->
     t_events (tables_of (sys_db s)) !! event_id e = Some (DbTypes.stored_event e) /\ authenticated b (event_device_id e)) /\
  (forall a m, (a, m) ∈ sys_mail s ->
     exists e, m = Text (to_json e) /\ t_events (tables_of (sys_db s)) !! event_id e = Some (DbTypes.stored_event e) /\ authenticated b (event_device_id e)).
Proof using L.
  intros Hi Hts b s. destruct (turns_sound dir port w db sess ts Hi Hts) as [_ [_ _ Hk]]. fold b s in Hk.
  destruct (turns_reached to_json dir port w db sess ts Hts) as (fin & hs & audio & [_ Hsys _ Hh]). fold b s in Hsys.
  destruct (happens_consistent to_json hs db sess Hi Hh) as [_ _ Hstored _]. rewrite <- Hsys in Hstored.
  assert (forall t e, t ∈ sys_tasks s -> inserted t = Some e ->
     t_events (tables_of (sys_db s)) !! event_id e = Some (DbTypes.stored_event e) /\ authenticated b (event_device_id e)) as Hall.
  { intros t e Ht He. split; [apply list_elem_of_lookup in Ht as [k Ht]; by apply (Hstored k t)|].
    rewrite Forall_forall in Hk. specialize (Hk t Ht). by destruct t as [| |? ?|[?|?]]; cbn in *; simplify_eq. }
  split; [exact Hall|]. intros a m Hm. rewrite Hsys in Hm. destruct (happens_mail to_json db sess hs a m Hm) as (k & t & e & Ht & He & ->).
  rewrite <- Hsys in Ht. exists e. split; [done|]. apply (Hall t); [by eapply list_elem_of_lookup_2|]. by destruct t as [| | |[|]].
Qed.
End Safety.

(** ** Witness: a client and a board of one device, from start to end *)

Import LittleEndian.Instances.
#[local] Existing Instances MemStore.chrono_pair store_postgres store_laws.
#[local] Existing Instance hound_rules.
#[local] Instance files_host : Host files mem_writer := mem_host (0, 0).
(** As actix documents it. *)
#[local] Instance actix_signals : HttpSignals :=
  {| http_stops_on sig := match sig with Signal.Hup => false | _ => true end |}.
Definition Turn0 : Type := Turn (Addr := nat) (Stream := nat) (AcceptError := ()).

(** The packets of [AudioService]'s witness, and an event of a board. *)
Definition turns0 : list Turn0 :=
  map (fun p => AudioPacket (pk_buf p) (pk_from p) None) packets2 ++
  [Accepted (Ok 1%nat); BoardItem 1%nat (Ok (EventHandler.light 42)) 0 None; BoardItem 1%nat (Ok (EventHandler.light 42)) 0 None;
   Processor (Resume 0); Processor (Resume 0); Signalled Signal.Term_; AudioSignal Signal.Term_; Processor (Resume 0); HandlerStops 1;
   Processor (Resume 1); HttpEnds; Processor (Resume 1); SystemStops; HandlerStops 0].
Abbreviation backend0 :=
  (turns json0 turns0 (backend_start "wav" 3002 no_files EventFlow.stored42 sess0)).

(** The recording that the client ended, the two events of the board, and the
    recording that was cut off by the signal. *)
Example backend0_tasks :
  (length (sys_tasks (bk_system backend0)), length (handlers backend0), bk_secrets backend0, length (sys_mail (bk_system backend0))) =
  (4, 1, [42; 42; 42]%Z, 1)%nat.
Proof. vm_compute. reflexivity. Qed.

Lemma turns0_harmless : Forall harmless_turn turns0.
Proof. repeat constructor. Qed.

Lemma stored42_integrity : integrity (tables_of EventFlow.stored42).
Proof. apply (after_integrity (InsertDevice 42 nd0) db0). apply empty_integrity. Qed.

Lemma events_are_authenticated_witness :
  exists e, t_events (tables_of (sys_db (bk_system backend0))) !! event_id e = Some (DbTypes.stored_event e) /\ authenticated backend0 (event_device_id e).
Proof.
  assert (exists a m, (a, m) ∈ sys_mail (bk_system backend0)) as (a & m & Hm).
  { assert (length (sys_mail (bk_system backend0)) = 1%nat) as Hl by (vm_compute; reflexivity).
    destruct (sys_mail (bk_system backend0)) as [|[a m] mail]; [discriminate Hl|]. exists a, m. left. }
  destruct (proj2 (events_are_authenticated json0 "wav" 3002 no_files EventFlow.stored42 sess0 turns0 stored42_integrity turns0_harmless)
    a m Hm) as (e & _ & He & Ha). exists e. split; [exact He|exact Ha].
Defined.
