(* ===== verification/Shutdown.v ===== *)
(** * The end of the backend (backend/src/main.rs, actor/audio_server.rs)

    What is in the files and in the database when the backend of [Backend] stops
    serving clients and ends, in whatever order its parts do. *)
From S2P Require Import Prelude MachineInt Float32 NoiseGate Bincode Audio AudioSink AudioHandler AudioServer AudioService.
From S2P Require Import Store DbHandlers WsManager EventProcessor Backend.
From S2P Require DbTypes LittleEndian MemStore EventServer EventFlow Signal.
Import DbTypes(Chrono).
Open Scope Z_scope.

Section Shutdown.
Context `{HS : HttpSignals} `{U : UuidOps} `{C : Chrono} {W Wr : Type} `{Ho : !Host W Wr} `{B : !Bincode} {DB : Type} `{PG : !Postgres DB}
  {Addr : Type} `{!EqDecision Addr} {Stream AcceptError : Type} `{Countable Stream} (to_json : DbTypes.Event -> string).

Abbreviation backend := (Backend (W := W) (Wr := Wr) (DB := DB) (Addr := Addr) (Stream := Stream)).
Abbreviation Turn := (Turn (Addr := Addr) (Stream := Stream) (AcceptError := AcceptError)).
Abbreviation turn := (turn (AcceptError := AcceptError) to_json).
Abbreviation turns := (turns (AcceptError := AcceptError) to_json).

(** ** The recordings *)

(** The recordings of the clients, where the audio server and its handlers
    stand. *)
Lemma audio_recordings `{UL : !UuidLaws} `{HL : !HostLaws W Wr} `{HR : HoundRules} `{HT : !HostReliable W Wr} dir owner (w : W) (b : backend) fin audio :
  separate owner (bk_packets b) -> audio_done dir w fin audio b ->
  let cs := fun a => client_of a (bk_packets b) in
  NoDup (fin.*1 ++ (handlers b).*1) /\ (forall a, a ∈ fin.*1 ++ (handlers b).*1 <-> is_Some (cs a)) /\
  match bk_audio b with Serving _ => fin.*1 = [] | Leaving _ => True end /\
  (forall a spec dev r i, cs a = Some (spec, dev, r) ->
    (forall sq xs, a ∈ fin.*1 -> r_open r !! i = Some (sq, xs) -> whole (spec_to_wav spec) (length xs) = true ->
       wav_file (bk_world b) (file_of (Wr := Wr) dir i) = Some (spec_to_wav spec, xs)) /\
    (forall xs, r_stored r !! i = Some xs -> wav_file (bk_world b) (file_of (Wr := Wr) dir i) = Some (spec_to_wav spec, xs))) /\
  map untimed audio ≡ₚ reported (bk_packets b) ++ concat (map (fun a => in_progress (cs a)) fin.*1).
Proof using Type.
  intros Hsep Ha cs. unfold audio_done in Ha. pose proof (stop_some dir owner w (bk_packets b) fin (handlers b) Hsep) as Hst.
  pose proof (serve_serves dir owner w (bk_packets b) Hsep) as Hserve.
  destruct (serve (server_new dir) w (bk_packets b)) as [[s w1] eff]. destruct Ha as (Hl & Hw & -> & Hserving).
  destruct Hserve as (_ & Hcl & _ & Heff). specialize (Hst Hl). unfold stop_handlers in *.
  destruct (foldl _ (w1, []) fin) as [w2 sent]. destruct Hst as [Hf Hs]. cbn [fst snd] in *. split_and!.
  - rewrite <- fmap_app, <- Hl. apply NoDup_fst_map_to_list.
  - intros a. rewrite <- fmap_app, <- Hl. subst cs. cbn. specialize (Hcl a). rewrite <- (Forall2_is_Some _ _ _ Hcl).
    rewrite list_elem_of_fmap. split.
    + intros ([a' h] & -> & Hx%elem_of_map_to_list). by exists h.
    + intros [h Hx]. exists (a, h). split; [done|]. by apply elem_of_map_to_list.
  - destruct (bk_audio b); [|done]. by destruct Hserving as [-> _].
  - by rewrite Hw.
  - rewrite map_app, Heff. by apply Permutation_app_head.
Qed.

(** C16: in whatever order the backend ends, in a run in which no device is
    deleted, no recording id is used from two addresses, and the host of the
    recordings fails by the rules of [hound] only. At every moment, until and
    after the system stops, some of the handlers have stopped, after the audio
    server; the recordings in progress of their clients are in their files when
    their samples fill the channels, and are lost by the rules otherwise, and all
    recordings that were finished before are in their files. The event processor
    has one future for each event that was sent: those of the finished
    recordings, one for each recording in progress of a handler that has stopped
    whose samples fill the channels, and those the boards sent; and an event
    whose future is done without an error has the kind, the payload, the device
    and the times of its message, and is in the database with the times as a
    column keeps them. *)
Theorem shutdown_finishes_recordings `{L : !PostgresLaws DB} `{UL : !UuidLaws} `{HL : !HostLaws W Wr} `{HR : HoundRules} `{HT : !HostReliable W Wr}
    (dir : string) (port : Z) (owner : Uuid -> SocketAddr) (w : W) (db : DB) (sess : Sessions (Addr := Addr)) (ts : list Turn) :
  let b := turns ts (backend_start dir port w db sess : backend) in
  let cs := fun a => client_of a (bk_packets b) in
  integrity (tables_of db) -> Forall harmless_turn ts -> separate owner (bk_packets b) ->
  exists stopped audio msgs,
    (forall a, a ∈ stopped ++ (handlers b).*1 <-> is_Some (cs a)) /\ (match bk_audio b with Serving _ => stopped = [] | Leaving _ => True end) /\
    (forall a spec dev r i, cs a = Some (spec, dev, r) ->
      (forall sq xs, a ∈ stopped -> r_open r !! i = Some (sq, xs) -> whole (spec_to_wav spec) (length xs) = true ->
         wav_file (bk_world b) (file_of (Wr := Wr) dir i) = Some (spec_to_wav spec, xs)) /\
      (forall xs, r_stored r !! i = Some xs -> wav_file (bk_world b) (file_of (Wr := Wr) dir i) = Some (spec_to_wav spec, xs))) /\
    map untimed audio ≡ₚ reported (bk_packets b) ++ concat (map (fun a => in_progress (cs a)) stopped) /\
    msgs ≡ₚ audio ++ (EventServer.mailbox (bk_boards b)).*2 /\
    Forall2 (fun msg t => forall e, t = Done (Ok e) ->
      event_for msg e /\ t_events (tables_of (sys_db (bk_system b))) !! DbTypes.event_id e = Some (DbTypes.stored_event e)) msgs (sys_tasks (bk_system b)).
Proof using Type.
  intros b cs Hi Hts Hsep. destruct (turns_reached to_json dir port w db sess ts Hts) as (fin & hs & audio & [Ha Hsys Harr Hh]).
  fold b in Ha, Hsys, Harr. clearbody b. destruct (audio_recordings dir owner w b fin audio Hsep Ha) as (_ & Hcl & Hserving & Hf & Haudio).
  destruct (happens_consistent to_json hs db sess Hi Hh) as [_ Htasks Hstored _]. rewrite <- Hsys in Htasks, Hstored.
  exists fin.*1, audio, (arrivals hs). split_and!; [done..|].
  apply Forall2_same_length_lookup. split; [by eapply Forall2_length|]. intros k msg t Hmsg Ht e ->. split.
  - by apply (Forall2_lookup_lr _ _ _ _ _ _ Htasks Hmsg Ht).
  - by apply (Hstored k (Done (Ok e))).
Qed.

(** ** The race *)

Lemma turns_app (ts ts' : list Turn) (b : backend) : turns (ts ++ ts') b = turns ts' (turns ts b).
Proof using Type. apply foldl_app. Qed.

Lemma stopped_stays (ts : list Turn) (b : backend) : bk_stopped b = true -> turns ts b = b.
Proof using Type.
  intros Hb. unfold Backend.turns. induction ts as [|t ts IH]; [done|]. cbn. unfold Backend.turn at 2. by rewrite Hb.
Qed.

Lemma happens_arrive (sys : System (DB := DB) (Addr := Addr)) (nes : list DbTypes.NewEvent) :
  sys_db (happens to_json sys (map Arrive nes)) = sys_db sys /\
  sys_tasks (happens to_json sys (map Arrive nes)) = sys_tasks sys ++ map (SelectLabels_) nes.
Proof using Type.
  revert sys. induction nes as [|ne nes IH]; intros sys; [by rewrite app_nil_r|].
  destruct (IH (happen to_json sys (Arrive ne))) as [Hdb Hts]. unfold happens in *. cbn [map foldl].
  rewrite Hdb, Hts. cbn. by rewrite <- app_assoc.
Qed.

Lemma signalled_turn (b : backend) sig :
  bk_stopped b = false ->
  turn (Signalled sig) b = mkBackend (bk_audio b) (bk_world b) (bk_boards b) (bk_system b)
    (bk_http_ended b) false (bk_packets b) (bk_secrets b) (bk_signals b ++ [sig]).
Proof using Type. intros Hb. unfold Backend.turn. by rewrite Hb. Qed.

(** The handler [k] of a server that serves stops after a signal. *)
Lemma handler_stops_after (b : backend) server (sig : Signal.Signal) (k : nat) a h :
  bk_stopped b = false -> bk_audio b = Serving server -> map_to_list (sv_writers server) !! k = Some (a, h) ->
  let b' := turns [Signalled sig; AudioSignal sig; HandlerStops k] b in
  let '(_, w', sent) := stopping h (bk_world b) in
  bk_stopped b' = false /\ bk_signals b' = bk_signals b ++ [sig] /\ bk_world b' = w' /\
  bk_system b' = happens to_json (bk_system b) (map Arrive sent).
Proof using Type.
  intros Hb Ha Hk b'.
  assert (b' = turn (HandlerStops k) (mkBackend (Leaving (map_to_list (sv_writers server))) (bk_world b) (bk_boards b)
    (bk_system b) (bk_http_ended b) false (bk_packets b) (bk_secrets b) (bk_signals b ++ [sig]))) as ->.
  { unfold b'. change (turns _ b) with (turn (HandlerStops k) (turn (AudioSignal sig) (turn (Signalled sig) b))).
    rewrite signalled_turn by done. f_equal. unfold Backend.turn. cbn [bk_stopped bk_signals bk_audio].
    rewrite decide_True by (apply elem_of_app; right; by apply list_elem_of_singleton). by rewrite Ha. }
  unfold Backend.turn. cbn [bk_stopped bk_audio bk_world]. rewrite Hk. by destruct (stopping h (bk_world b)) as [[h' w'] sent].
Qed.

(** The end of the HTTP server and of the system touch nothing else. *)
Lemma system_stops (b : backend) :
  bk_stopped b = false -> existsb http_stops_on (bk_signals b) = true ->
  let b' := turns [HttpEnds; SystemStops] b in
  bk_stopped b' = true /\ bk_audio b' = bk_audio b /\ bk_world b' = bk_world b /\ bk_system b' = bk_system b.
Proof using Type.
  intros Hb Hs b'.
  assert (b' = turn SystemStops (mkBackend (bk_audio b) (bk_world b) (bk_boards b)
    (bk_system b) true false (bk_packets b) (bk_secrets b) (bk_signals b))) as ->; [|done].
  unfold b'. change (turns _ b) with (turn SystemStops (turn HttpEnds b)). f_equal.
  unfold Backend.turn. by rewrite Hb, Hs.
Qed.

Lemma last_stops (signals : list Signal.Signal) sig :
  http_stops_on sig = true -> existsb http_stops_on (signals ++ [sig]) = true.
Proof using Type. intros Hs. rewrite existsb_app. cbn. by rewrite Hs, orb_true_r. Qed.

(** In a run that still serves, the handler of a client has its recordings. *)
Lemma serving_client `{UL : !UuidLaws} `{HL : !HostLaws W Wr} `{HR : HoundRules} `{HT : !HostReliable W Wr}
    dir owner (w : W) (b : backend) fin audio server c cl :
  separate owner (bk_packets b) -> audio_done dir w fin audio b -> bk_audio b = Serving server ->
  client_of c (bk_packets b) = Some cl ->
  exists h k, map_to_list (sv_writers server) !! k = Some (c, h) /\ served dir (bk_world b) h cl.
Proof using Type.
  intros Hsep Ha Hb Hc. unfold audio_done in Ha. pose proof (serve_serves dir owner w (bk_packets b) Hsep) as Hserve.
  destruct (serve (server_new dir) w (bk_packets b)) as [[s w1] eff]. rewrite Hb in Ha. destruct Ha as (_ & Hw & _ & -> & ->).
  destruct Hserve as (_ & Hcl & _). specialize (Hcl c). rewrite Hc in Hcl. inversion Hcl as [h ? Hs Hh|]. subst. symmetry in Hh.
  apply elem_of_map_to_list, list_elem_of_lookup in Hh as [k Hk]. exists h, k. split; [done|]. by rewrite Hw.
Qed.

End Shutdown.

(** ** Witness: the end of [Backend]'s run *)

Import LittleEndian.Instances.
#[local] Existing Instances MemStore.chrono_pair store_postgres store_laws Backend.files_host Backend.actix_signals.
#[local] Instance files_laws : HostLaws files mem_writer := mem_host_laws (0, 0).
#[local] Existing Instance hound_rules.
#[local] Instance files_reliable : HostReliable files mem_writer := mem_host_reliable (0, 0).

Example backend0_handlers : (handlers backend0).*1 = [client1].
Proof. vm_compute. reflexivity. Qed.

Lemma shutdown_finishes_recordings_witness :
  exists stopped audio msgs, client2 ∈ stopped /\
    map untimed audio ≡ₚ reported (bk_packets backend0) ++ concat (map (fun a => in_progress (client_of a (bk_packets backend0))) stopped) /\
    msgs ≡ₚ audio ++ (EventServer.mailbox (bk_boards backend0)).*2 /\ length msgs = length (sys_tasks (bk_system backend0)).
Proof.
  assert (separate owner2 (bk_packets backend0)) as Hsep by (apply separateb_ok; vm_compute; reflexivity).
  destruct (shutdown_finishes_recordings json0 "wav" 3002 owner2 no_files EventFlow.stored42 sess0 turns0 stored42_integrity turns0_harmless Hsep)
    as (stopped & audio & msgs & Hcl & _ & _ & Ha & Hm & Ht).
  exists stopped, audio, msgs. split; [|split; [exact Ha|split; [exact Hm|apply (Forall2_length _ _ _ Ht)]]].
  assert (is_Some (client_of client2 (bk_packets backend0))) as Hc.
  { assert (match client_of client2 (bk_packets backend0) with Some _ => true | None => false end = true) as Hb by (vm_compute; reflexivity).
    destruct (client_of client2 (bk_packets backend0)) as [c|]; [exists c; reflexivity|discriminate Hb]. }
  apply Hcl in Hc. rewrite backend0_handlers in Hc. apply elem_of_app in Hc as [Hc|Hc]; [exact Hc|].
  apply list_elem_of_singleton in Hc. discriminate Hc.
Defined.

(** The clients of [AudioService] have sent their packets; the second one has a
    recording in progress when SIGTERM comes. *)
Definition packet_turns : list Turn0 := map (fun p => AudioPacket (pk_buf p) (pk_from p) None) packets2.
Abbreviation serving0 :=
  (turns json0 packet_turns (backend_start "wav" 3002 no_files EventFlow.stored42 sess0)).

