(* ===== verification/ClientConfig.v ===== *)
(** * The secret on the command line of the audio client
    (backend/audio-client/src/main.rs, [parse_hex])

    The server shows a device's secret in hexadecimal; the client parses it. *)
From S2P Require Import Prelude MachineInt ParseInt.
From Stdlib Require Import Ascii.
Open Scope Z_scope.

(** [str::trim_start_matches("0x")]: every leading "0x" goes. *)
Fixpoint trim_0x (s : string) : string :=
  match s with
  | String c (String d s') => if String.eqb (String c (String d EmptyString)) "0x" then trim_0x s' else s
  | _ => s
  end.

Definition parse_hex (src : string) : result Z IntErrorKind := from_str_radix 16 64 (trim_0x src).

Example parse_hex_example : parse_hex "0x1Fa" = Ok 506.
Proof. reflexivity. Qed.

(** ** Specification *)

Fixpoint prefixes (n : nat) (s : string) : string :=
  match n with
  | O => s
  | S n => String "0"%char (String "x"%char (prefixes n s))
  end.

(** ** Lemmas *)

Lemma number_no_0x s v : number 16 64 s v -> trim_0x s = s.
Proof.
  intros (ds & [->| ->] & Hne & Hd & _).
  - destruct ds as [|c [|d ds]]; [done..|]. cbn [trim_0x]. destruct (String.eqb _ _) eqn:E; [|done].
    apply String.eqb_eq in E as [= -> ->]. done.
  - by destruct ds as [|c [|d ds]].
Qed.

Lemma trim_prefixes n s : trim_0x s = s -> trim_0x (prefixes n s) = s.
Proof. intros Hs. induction n; [done|]. exact IHn. Qed.

Lemma trim_0x_prefixes s : exists n, s = prefixes n (trim_0x s).
Proof.
  induction s as [s IH] using (induction_ltof1 _ String.length). unfold ltof in IH.
  destruct s as [|c [|d s]]; [by exists O..|]. cbn [trim_0x].
  destruct (String.eqb (String c (String d EmptyString)) "0x") eqn:E; [|by exists O].
  apply String.eqb_eq in E as [= -> ->]. destruct (IH s) as [n Hn]; [cbn; lia|].
  exists (S n). cbn [prefixes]. rewrite <- Hn. done.
Qed.

Lemma parse_hex_number (src : string) (v : Z) :
  (exists n s, src = prefixes n s /\ number 16 64 s v) -> parse_hex src = Ok v.
Proof.
  unfold parse_hex. intros (n & s & -> & Hn). apply from_str_radix_ok; [lia..|].
  rewrite trim_prefixes; [done|]. by eapply number_no_0x.
Qed.

(** ** Property *)

(** The client accepts exactly the hexadecimal numbers below 2^64, in
    either case, with leading zeros or a plus sign, after any number of "0x",
    and reads their value; every other secret is refused. *)
Lemma parse_hex_spec (src : string) (v : Z) :
  parse_hex src = Ok v <-> exists n s, src = prefixes n s /\ number 16 64 s v.
Proof.
  split; [|apply parse_hex_number]. unfold parse_hex. rewrite from_str_radix_ok by lia.
  intros Hn. destruct (trim_0x_prefixes src) as [n Hp]. by exists n, (trim_0x src).
Qed.
