(* ===== verification/ClientMain.v ===== *)
(** * The set-up of the audio client (backend/audio-client/src/main.rs, main up
    to [play])

    The options, the input device, the socket, the ring buffer and the
    collector of each sample format. [cpal]'s device and the parsing of an
    address and of an [f32] are parameters. *)
From S2P Require Import Prelude MachineInt Float32 NoiseGate ParseInt ClientConfig Bincode Audio AudioSink AudioClient.
From S2P Require LittleEndian.
Open Scope Z_scope.

(** ** Options *)

Record Config : Type := mkClientConfig {
  open_threshold : f32;
  release_time : f32;
  server_address_text : string;
  server_secret : Z;
}.

Section Options.
(** The command line ([structopt]) and [f32::from_str]. *)
Context (flag : string -> option string) (parse_f32 : string -> option f32).

(** [Config::from_args]: the secret has no default. [None] is the exit with a
    message. *)
Definition client_from_args : option Config :=
  threshold ← parse_f32 (default "0.1" (flag "threshold"));
  release ← parse_f32 (default "0.5" (flag "release-time"));
  secret ← (text ← flag "server-secret"; res_ok (parse_hex text));
  Some (mkClientConfig threshold release (default "127.0.0.1:3003" (flag "server-address")) secret).
End Options.

Section Main.
Context `{U : UuidOps} {P : Profile} (new_v4 : nat -> Uuid) {Q D E : Type} `{!ArrayQueue Z Q}.

(** [cpal]'s device: its configuration, or the error, and the results of
    [build_input_stream] and of [play]. *)
Record InputDevice : Type := mkDevice {
  default_input_config : result SupportedStreamConfig string;
  build_input_stream : SupportedStreamConfig -> result () string;
  play : result () string;
}.

(** What [main] is started with besides the options: the device, if any, the
    socket that is bound, [SocketAddr::from_str], the size of a sample in
    bytes, and [ArrayQueue::new], which panics at 0. *)
Context (queue_new : nat -> option Q) (parse_addr : string -> option SocketAddr) (sample_size : CpalFormat -> Z).

Inductive Exit : Type := Panic | Failed (e : string).

(** [unwrap] and [?]. *)
Definition unwrap {A X} (r : result A X) : result A Exit := res_map_err (fun _ => Panic) r.
Definition unwrap_option {A} (o : option A) : result A Exit := match o with Some a => Ok a | None => Err Panic end.
Definition try_ {A} (r : result A string) : result A Exit := res_map_err Failed r.

(** The capacity of the ring: the integer formats get sixteen times more. *)
Definition ring_capacity (config : SupportedStreamConfig) : nat :=
  match cfg_sample_format config with
  | CpalF32 => Z.to_nat (cfg_sample_rate config)
  | CpalI16 | CpalU16 => Z.to_nat (cfg_sample_rate config * 16)
  end.

(** The collector that each branch of the [match] creates, over the gate at its
    sample type; samples are [Z] at all three. *)
Definition main_collector (config : Config) (input_config : SupportedStreamConfig) (server_address : SocketAddr) (d : D)
    : AudioCollector (T := Z) (D := UdpSink D) :=
  mkCollector server_address
    (main_gate (cfg_sample_format input_config) (cfg_sample_rate input_config) (open_threshold config) (release_time config))
    (sink_new new_v4 (mkUdpSink D server_address d) (server_secret config) (spec_from_config sample_size input_config) 0).

(** The [match] on the sample format: the ring, the stream, whose callback is
    [callback_push], and the collector, whose task polls the closure of
    [poll_step]; [d] is the sink half of the socket. *)
Definition main_stream (config : Config) (device : InputDevice) (input_config : SupportedStreamConfig)
    (server_address : SocketAddr) (d : D) : result (Client (T := Z) (D := UdpSink D) (Q := Q) (E := E)) Exit :=
  let? q := unwrap_option (queue_new (ring_capacity input_config)) in
  let? _ := try_ (build_input_stream device input_config) in
  Ok (client_start q (main_collector config input_config server_address d)).

(** [main] up to [input_stream.play()?]. *)
Definition client_main (config : Config) (default_input_device : option InputDevice) (socket : result D string)
    : result (Client (T := Z) (D := UdpSink D) (Q := Q) (E := E)) Exit :=
  let? input_device := unwrap_option default_input_device in
  let? input_config := unwrap (default_input_config input_device) in
  let? server_address := match parse_addr (server_address_text config) with
    | Some a => Ok a
    | None => Err (Failed "invalid IP address syntax")
    end in
  let? d := unwrap socket in
  let? client := main_stream config input_device input_config server_address d in
  let? _ := try_ (play input_device) in
  Ok client.

(** [crossbeam]'s queue. *)
Definition queue_spec : Prop :=
  queue_new 0 = None /\
  forall n, (0 < n)%nat -> exists q, queue_new n = Some q /\ q_contents q = [] /\ q_capacity q = n.

(** ** Property *)

Lemma ring_capacity_pos config : (0 < ring_capacity config)%nat <-> 0 < cfg_sample_rate config.
Proof using Type. unfold ring_capacity. destruct (cfg_sample_format config); lia. Qed.

(** The client that [main] sets up. It starts exactly when there is an
    input device with a configuration whose sample rate is not 0, the address
    parses, the socket is bound and the stream is built and plays; a missing
    device, configuration or socket, or a rate of 0, is a panic. Then the
    ring is empty and holds a second of mono samples (sixteen, in an integer
    format), the gate is the one of the options, the sink buffers nothing and
    has yet to skip the end of its first transmission, the three threads are at
    their start, and the first message to the server's address is the secret with
    the device's format. *)
Lemma client_main_starts `{!SinkWrite (Audio Z * SocketAddr) D} (config : Config) (dev : option InputDevice)
    (socket : result D string) :
  queue_spec ->
  match client_main config dev socket with
  | Ok s => exists device input_config addr d,
      dev = Some device /\ default_input_config device = Ok input_config /\ 0 < cfg_sample_rate input_config /\
      parse_addr (server_address_text config) = Some addr /\ socket = Ok d /\
      s = client_start (queue s) (collector s) /\ q_contents (queue s) = [] /\
      q_capacity (queue s) = ring_capacity input_config /\
      let c := collector s in
      server_address c = addr /\
      noise_gate c = main_gate (cfg_sample_format input_config) (cfg_sample_rate input_config)
        (open_threshold config) (release_time config) /\
      holds (sink c) [] /\ first_payload_ignored (sink c) = false /\
      inner (sink (collector_started c)) =
        mkUdpSink D addr (snd (sink_write d
          (SpecMsg (server_secret config) (spec_from_config sample_size input_config), addr)))
  | Err Panic => dev = None \/ (exists e, socket = Err e) \/ exists device, dev = Some device /\
      ((exists e, default_input_config device = Err e) \/
       exists c, default_input_config device = Ok c /\ cfg_sample_rate c <= 0)
  | Err (Failed e) => parse_addr (server_address_text config) = None \/ exists device c, dev = Some device /\
      default_input_config device = Ok c /\ (build_input_stream device c = Err e \/ play device = Err e)
  end.
Proof using Type.
  intros [Hq0 Hq]. unfold client_main, main_stream, unwrap, try_. destruct dev as [device|]; cbn [unwrap_option res_bind]; [|by left].
  destruct (default_input_config device) as [ic|e] eqn:Hic; cbn [res_bind res_map_err]; [|right; right; eauto].
  destruct (parse_addr _) as [addr|] eqn:Ha; cbn [res_bind]; [|by left].
  destruct socket as [d|e]; cbn [res_bind res_map_err]; [|right; left; eauto].
  destruct (decide (0 < ring_capacity ic)%nat) as [Hc|Hc].
  2: { replace (ring_capacity ic) with 0%nat by lia. rewrite Hq0. cbn. right; right. exists device. split; [done|].
       right. exists ic. split; [done|]. rewrite ring_capacity_pos in Hc. lia. }
  destruct (Hq _ Hc) as (q & -> & Hqc & Hqcap). cbn [unwrap_option res_bind].
  destruct (build_input_stream device ic) as [[]|e] eqn:Hb; cbn [res_bind res_map_err]; [|right; eauto 10].
  destruct (play device) as [[]|e] eqn:Hp; cbn [res_bind res_map_err]; [|right; eauto 10].
  exists device, ic, addr, d. apply ring_capacity_pos in Hc. split_and!; try done.
  - split_and!; [done|done|apply wav_size_pos].
  - unfold collector_started, main_collector, write_spec, sink_new, audio_write, udp_audio_sink_write. cbn.
    match goal with |- context [sink_write d ?x] => by destruct (sink_write d x) end.
Qed.
End Main.

(** ** Witness: a device of 44100 samples a second *)

Import LittleEndian.Instances.
#[local] Instance release_build : Profile := false.
#[local] Instance list_queue_ops : ArrayQueue Z (list Z * nat) := {|
  q_push q x := if (length (fst q) <? snd q)%nat then (Ok tt, (fst q ++ [x], snd q)) else (Err x, q);
  q_pop q := (head (fst q), (tail (fst q), snd q));
  q_len q := length (fst q);
  q_contents := fst;
  q_capacity := snd;
|}.
#[local] Instance log_packets : SinkWrite (Audio Z * SocketAddr) (list (Audio Z * SocketAddr)) :=
  fun log a => (None, log ++ [a]).
Definition new_queue (n : nat) : option (list Z * nat) := match n with O => None | S _ => Some ([], n) end.
Definition microphone : InputDevice := mkDevice (Ok (mkConfig 1 44100 CpalI16)) (fun _ => Ok tt) (Ok tt).
Definition no_flags (long : string) : option string := if String.eqb long "server-secret" then Some "0x2a" else None.
Definition some_f32 (s : string) : option f32 := Some (if String.eqb s "0.1" then default_threshold else default_release_time).
Definition localhost (s : string) : option SocketAddr := Some (V4 2130706433 3003).
Definition client_config0 : Config := mkClientConfig default_threshold default_release_time "127.0.0.1:3003" 42.
Example client_from_args0 : client_from_args no_flags some_f32 = Some client_config0.
Proof. vm_compute. reflexivity. Qed.

Lemma client_main_starts_witness :
  exists s, client_main (E := ()) LittleEndian.uuid_nth new_queue localhost (fun _ => 2) client_config0 (Some microphone) (Ok []) = Ok s /\
    q_capacity (queue s) = Z.to_nat 705600 /\
    inner (sink (collector_started (collector s))) =
      mkUdpSink _ (V4 2130706433 3003) [(SpecMsg 42 (mkSpec 1 44100 16 I16), V4 2130706433 3003)].
Proof.
  pose proof (client_main_starts (E := ()) LittleEndian.uuid_nth new_queue localhost (fun _ => 2) client_config0
    (Some microphone) (Ok [])) as H.
  assert (queue_spec new_queue) as Hq.
  { split; [reflexivity|]. intros [|n] Hn; [lia|]. exists ([], S n). split_and!; reflexivity. }
  specialize (H Hq). destruct (client_main _ _ _ _ _ _ _) as [s|e] eqn:Hs; [|discriminate Hs].
  destruct H as (device & ic & addr & d & [= <-] & [= <-] & _ & [= <-] & [= <-] & _ & _ & Hcap & _ & _ & _ & _ & Hin).
  exists s. split; [reflexivity|]. split; [exact Hcap|]. rewrite Hin. reflexivity.
Defined.
