(* ===== verification/Http.v ===== *)
(** * The HTTP server (backend/src/http)

    The responses and errors, the handlers of the routes over the database
    actor, and the route table. The JSON of a response is a tree; [actix_web]
    turns it into text. *)
From S2P Require Import Prelude MachineInt Bincode DbTypes Store DbHandlers Json ParseInt ClientConfig.
From S2P Require LittleEndian MemStore.
Open Scope Z_scope.

(** ** server_response.rs *)

Inductive ErrorKind : Type := Actix | DB_ | NotFound_.

Record ErrorDetail : Type := mkDetail {
  ed_kind : ErrorKind;
  ed_message : string;
  ed_private : bool;
}.
Definition detail_new (kind : ErrorKind) (message : string) : ErrorDetail := mkDetail kind message false.
Definition detail_new_private (kind : ErrorKind) (message : string) : ErrorDetail := mkDetail kind message true.
Definition is_private (d : ErrorDetail) : bool := ed_private d.

(** The two codes that occur, with their canonical reasons. *)
Inductive StatusCode : Type := NOT_FOUND | INTERNAL_SERVER_ERROR.
Definition as_u16 (c : StatusCode) : Z := match c with NOT_FOUND => 404 | INTERNAL_SERVER_ERROR => 500 end.
Definition canonical_reason (c : StatusCode) : string :=
  match c with NOT_FOUND => "Not Found" | INTERNAL_SERVER_ERROR => "Internal Server Error" end.

Record HttpError : Type := mkHttpError {
  he_code : StatusCode;
  he_detail : ErrorDetail;
}.

Definition from_mailbox (to_string : MailboxError -> string) (e : MailboxError) : HttpError :=
  mkHttpError INTERNAL_SERVER_ERROR (detail_new_private Actix (to_string e)).

Definition from_db (diesel_to_string : DieselError -> string) (e : Error) : HttpError :=
  let detail := match e with
    | Diesel NotFound => detail_new NotFound_ "resource not found"
    | Diesel e => detail_new_private DB_ (diesel_to_string e)
    | PoolError e => detail_new_private DB_ e
    | Unexpected msg => detail_new_private DB_ msg
    end in
  mkHttpError match ed_kind detail with NotFound_ => NOT_FOUND | _ => INTERNAL_SERVER_ERROR end detail.

Definition error_kind_name (k : ErrorKind) : string :=
  match k with Actix => "Actix" | DB_ => "DB" | NotFound_ => "NotFound" end.
Definition serialize_status_code (c : StatusCode) : list (string * json) :=
  [("code", JNum (as_u16 c)); ("message", JStr (canonical_reason c))].
Definition detail_to_json (d : ErrorDetail) : json :=
  JObj [("kind", JStr (error_kind_name (ed_kind d))); ("message", JStr (ed_message d)); ("private", JBool (ed_private d))].
(** The body of an error: the code is flattened, a private detail skipped. *)
Definition error_to_json (e : HttpError) : json :=
  JObj (serialize_status_code (he_code e) ++
        if is_private (he_detail e) then [] else [("detail", detail_to_json (he_detail e))]).

(** [Document::new]: there is never a pagination, so it is skipped. *)
Definition document (data : json) : json := JObj [("data", data)].

(** ** The handlers *)

(** An [HttpResponse::Ok()]: its body, if any. *)
Definition Response : Type := option json.

Section Endpoints.
Context `{U : UuidOps} `{C : Chrono} {DB : Type} `{PG : !Postgres DB}
  (mailbox_to_string : MailboxError -> string) (diesel_to_string : DieselError -> string)
  (datetime_to_json : DateTime -> json) (secret_to_hex : Z -> string).

(** The members of the rows, as [Serialize] is derived for them. *)
Definition device_members (d : Device) : list (string * json) :=
  [("id", JStr (uuid_to_string (device_id d))); ("name", JStr (device_name d));
   ("description", JStr (device_description d))].
Definition event_members (e : Event) : list (string * json) :=
  [("id", JStr (uuid_to_string (event_id e))); ("kind", kind_to_json (event_kind e));
   ("payload", payload_to_json (event_payload e)); ("started_at", datetime_to_json (event_started_at e));
   ("ended_at", datetime_to_json (event_ended_at e)); ("device_id", JStr (uuid_to_string (event_device_id e)))].
Definition label_to_json (l : Label) : json :=
  JObj [("id", JStr (uuid_to_string (label_id l))); ("event_kind", kind_to_json (label_event_kind l));
        ("name", JStr (label_name l)); ("description", JStr (label_description l));
        ("rule", rule_to_json (label_rule l)); ("device_id", JStr (uuid_to_string (label_device_id l)))].

(** [NewDeviceRes] and [EventRes], whose first field is flattened. *)
Definition new_device_res (device : Device) (secret : Z) : json :=
  JObj (device_members device ++ [("secret", JStr (secret_to_hex secret))]).
Definition event_res (event : Event) (labels : list Label) : json :=
  JObj (event_members event ++ [("labels", JArr (map (fun label => JStr (uuid_to_string (label_id label))) labels))]).

(** [database_addr.send(msg).await??]; a message whose mailbox fails ([lost])
    is not handled. *)
Definition await {A} (msg : handler (DB := DB) A) (lost : option MailboxError) (db : DB) : result A HttpError * DB :=
  match lost with
  | Some e => (Err (from_mailbox mailbox_to_string e), db)
  | None => let (r, db) := msg db in (res_map_err (from_db diesel_to_string) r, db)
  end.
Definition respond {A} (body : A -> Response) (r : result A HttpError * DB) : result Response HttpError * DB :=
  (res_map body (fst r), snd r).

(** device.rs *)
Definition device_create (secret : Z) (body : NewDevice) lost db :=
  respond (fun '(device, secret) => Some (document (new_device_res device secret)))
    (await (handle_insert_device secret body) lost db).
Definition device_list lost db :=
  respond (fun devices => Some (document (JArr (map (fun d => JObj (device_members d)) devices))))
    (await handle_select_devices lost db).
Definition device_delete (path : Uuid) lost db :=
  respond (fun _ => None) (await (handle_delete_device path) lost db).

(** event.rs *)
Definition event_list lost db :=
  respond (fun event_with_labels => Some (document (JArr (map (fun '(event, labels) => event_res event labels) event_with_labels))))
    (await handle_select_events lost db).
Definition event_read (path : Uuid) lost db :=
  respond (fun '(event, labels) => Some (document (event_res event labels)))
    (await (handle_select_event path) lost db).

(** label.rs *)
Definition label_create (body : NewLabel) lost db :=
  respond (fun label => Some (document (label_to_json label))) (await (handle_insert_label body) lost db).
Definition label_list lost db :=
  respond (fun labels => Some (document (JArr (map label_to_json labels)))) (await handle_select_labels lost db).
Definition label_delete (path : Uuid) lost db :=
  respond (fun _ => None) (await (handle_delete_label path) lost db).

(** server.rs: the routes under [/v1] and [/ws]; the static files are left
    out. [parse_id] is the extraction of a uuid from the path. *)
Inductive Method : Type := GET | POST | DELETE.
Inductive Route : Type :=
| WsEvent
| DeviceList | DeviceCreate | DeviceDelete (id : Uuid)
| EventList | EventRead (id : Uuid)
| LabelList | LabelCreate | LabelDelete (id : Uuid).
Definition routes (parse_id : string -> option Uuid) (method : Method) (path : list string) : option Route :=
  match path, method with
  | ["ws"; "event"], GET => Some WsEvent
  | ["v1"; "devices"], GET => Some DeviceList
  | ["v1"; "devices"], POST => Some DeviceCreate
  | ["v1"; "devices"; id], DELETE => DeviceDelete <$> parse_id id
  | ["v1"; "events"], GET => Some EventList
  | ["v1"; "events"; id], GET => EventRead <$> parse_id id
  | ["v1"; "labels"], GET => Some LabelList
  | ["v1"; "labels"], POST => Some LabelCreate
  | ["v1"; "labels"; id], DELETE => LabelDelete <$> parse_id id
  | _, _ => None
  end.
End Endpoints.

(** [serde_hex] with [CompactPfx]: a secret is shown after "0x" as hexadecimal
    digits. *)
Class HexLaws (secret_to_hex : Z -> string) : Prop := {
  secret_to_hex_number : forall z, in_u 64 z = true ->
    exists ds, secret_to_hex z = prefixes 1 ds /\ number 16 64 ds z;
}.

(** ** Properties *)

Section Laws.
Context `{U : UuidOps} `{C : Chrono} {DB : Type} `{PG : !Postgres DB} `{L : !PostgresLaws DB}
  (mailbox_to_string : MailboxError -> string) (diesel_to_string : DieselError -> string)
  (datetime_to_json : DateTime -> json) (secret_to_hex : Z -> string) `{HX : !HexLaws secret_to_hex}.

(** Errors tell the client nothing about their cause. A missing row is a
    404 that says "resource not found"; every other error of the database, of
    the pool or of a mailbox gives one and the same body with code 500. *)
Lemma error_responses (e : Error) (m : MailboxError) :
  let r := from_db diesel_to_string e in
  if is_not_found e then
    he_code r = NOT_FOUND /\
    error_to_json r = JObj [("code", JNum 404); ("message", JStr "Not Found");
      ("detail", JObj [("kind", JStr "NotFound"); ("message", JStr "resource not found"); ("private", JBool false)])]
  else
    he_code r = INTERNAL_SERVER_ERROR /\
    error_to_json r = JObj [("code", JNum 500); ("message", JStr "Internal Server Error")] /\
    error_to_json r = error_to_json (from_mailbox mailbox_to_string m).
Proof. by destruct e as [[|msg]|p|msg]. Qed.

(** C39: the secret that the creation of a device shows is the secret of that
    device: the audio client parses the text of the response back to it, and
    looking it up answers the device whose id is in the response, never
    "not found". *)
Theorem shown_secret_authenticates (secret : Z) (nd : NewDevice) (db db' : DB) (body : Response) :
  integrity (tables_of db) -> in_u 64 secret = true ->
  (forall i, (u64_to_be_bytes secret, i) ∉ t_credentials (tables_of db)) ->
  device_create mailbox_to_string diesel_to_string secret_to_hex secret nd None db = (Ok body, db') ->
  exists data text, body = Some (document data) /\ get "secret" data = Some (JStr text) /\
    parse_hex text = Ok secret /\
    match fst (handle_select_device secret db') with
    | Ok d => get "id" data = Some (JStr (uuid_to_string (device_id d)))
    | Err e => is_not_found e = false
    end.
Proof.
  intros Ht Hs Hfresh Hc. unfold device_create, respond, await in Hc.
  pose proof (created_credential secret nd db Ht Hfresh) as Hcred.
  destruct (handle_insert_device secret nd db) as [[[d s]|e] db1]; cbn in Hc; [|done]. simplify_eq.
  destruct Hcred as [-> Hcred]. exists (new_device_res secret_to_hex d secret), (secret_to_hex secret).
  split_and!; [done|done| |].
  - destruct (secret_to_hex_number secret Hs) as (ds & -> & Hn). apply parse_hex_number. by exists 1%nat, ds.
  - pose proof (select_device_credential _ _ _ Hcred) as Hsel.
    destruct (fst (handle_select_device secret db')) as [d'|e]; [by subst d'|done].
Qed.
End Laws.

(** ** Witness: sixteen digits *)

Definition digit_char (d : Z) : Ascii.ascii := Ascii.ascii_of_nat (Z.to_nat (if d <? 10 then 48 + d else 87 + d)).
Fixpoint hex_digits (n : nat) (z : Z) : string :=
  match n with
  | O => EmptyString
  | S n => String (digit_char (z / 16 ^ Z.of_nat n mod 16)) (hex_digits n z)
  end.
Definition hex16 (z : Z) : string := prefixes 1 (hex_digits 16 z).

Lemma to_digit_char d : 0 <= d < 16 -> to_digit 16 (digit_char d) = Some d.
Proof.
  intros Hd. rewrite <- (Z2Nat.id d) by lia. assert (Z.to_nat d < 16)%nat as Hn by lia. revert Hn.
  generalize (Z.to_nat d). intros n Hn. do 16 (destruct n as [|n]; [vm_compute; reflexivity|]). lia.
Qed.

Lemma hex_digits_value n z acc :
  0 <= z -> all_digits 16 (hex_digits n z) = true /\ digits_value 16 acc (hex_digits n z) = acc * 16 ^ Z.of_nat n + z mod 16 ^ Z.of_nat n.
Proof.
  intros Hz. revert acc. induction n as [|n IH]; intros acc.
  { cbn. rewrite Z.mod_1_r. split; [done|lia]. }
  cbn [hex_digits all_digits digits_value]. rewrite to_digit_char by (apply Z.mod_pos_bound; lia).
  change (default 0 (Some ?x)) with x. destruct (IH (acc * 16 + z / 16 ^ Z.of_nat n mod 16)) as [Hd ->]. split; [done|].
  rewrite Nat2Z.inj_succ, Z.pow_succ_r, (Z.mul_comm 16) by lia.
  rewrite Z.rem_mul_r by (try apply Z.pow_nonzero; lia). lia.
Qed.

#[local] Instance hex16_laws : HexLaws hex16.
Proof.
  constructor. intros z Hz. exists (hex_digits 16 z). split; [done|]. apply in_u_iff in Hz.
  destruct (hex_digits_value 16 z 0 ltac:(lia)) as [Hd Hv]. exists (hex_digits 16 z).
  split_and!; [by left|done|done| |lia]. rewrite Hv, Z.mod_small; [done|]. exact Hz.
Qed.

#[local] Existing Instances LittleEndian.uuid16_ops MemStore.chrono_pair store_postgres store_laws.

Lemma shown_secret_authenticates_witness :
  exists data text,
    fst (device_create (fun _ => EmptyString) (fun _ => EmptyString) hex16 42 nd0 None db0) = Ok (Some (document data)) /\
    get "secret" data = Some (JStr text) /\ parse_hex text = Ok 42.
Proof.
  assert (is_ok (fst (device_create (fun _ => EmptyString) (fun _ => EmptyString) hex16 42 nd0 None db0)) = true) as Hok
    by (vm_compute; reflexivity).
  destruct (device_create (fun _ => EmptyString) (fun _ => EmptyString) hex16 42 nd0 None db0) as [[body|e] db'] eqn:E; [|done].
  destruct (shown_secret_authenticates (fun _ => EmptyString) (fun _ => EmptyString) hex16 42 nd0 db0 db' body)
    as (data & text & -> & Hs & Hp & _).
  - apply empty_integrity.
  - reflexivity.
  - intros i []%not_elem_of_nil.
  - exact E.
  - exists data, text. split; [reflexivity|split; assumption].
Defined.

(** Some routes. *)
Example routes_devices :
  let parse_id s := if String.eqb s "7" then Some dev0 else None in
  routes parse_id DELETE ["v1"; "devices"; "7"] = Some (DeviceDelete dev0) /\
  routes parse_id DELETE ["v1"; "devices"; "x"] = None /\
  routes parse_id POST ["v1"; "events"] = None /\
  routes parse_id GET ["ws"; "event"] = Some WsEvent.
Proof. by split_and!. Qed.
