(* ===== verification/HttpService.v ===== *)
(** * Requests to the HTTP server, from the path to the tables

    The route table and the handlers of [Http], composed: a request is routed,
    its body and path are taken apart, and one handler runs. The theorems
    follow a device and a label through requests, as a browser sees them. *)
From S2P Require Import Prelude MachineInt Bincode DbTypes Store DbHandlers Json Http.
From S2P Require LittleEndian MemStore.
Open Scope Z_scope.

Section Service.
Context `{U : UuidOps} `{C : Chrono} {DB : Type} `{PG : !Postgres DB}
  (mailbox_to_string : MailboxError -> string) (diesel_to_string : DieselError -> string)
  (datetime_to_json : DateTime -> json) (secret_to_hex : Z -> string) (parse_id : string -> option Uuid).

(** What [web::Json] makes of a body: nothing, or a value of the type. *)
Inductive Body : Type :=
| NoBody
| DeviceBody (value : NewDevice)
| LabelBody (value : NewLabel).

(** A request, with what the environment does to it: the secret that would be
    drawn for a new device, and the failure of a mailbox, if any. *)
Record Request : Type := mkRequest {
  rq_method : Method;
  rq_path : list string;
  rq_body : Body;
  rq_secret : Z;
  rq_lost : option MailboxError;
}.

(** The message a request becomes; [None] for one that actix refuses (no route,
    no uuid, another body), and for the websocket, which asks no database. *)
Definition message (r : Request) : option Msg :=
  route ← routes parse_id (rq_method r) (rq_path r);
  match route, rq_body r with
  | DeviceCreate, DeviceBody value => Some (InsertDevice (rq_secret r) value)
  | LabelCreate, LabelBody value => Some (InsertLabel value)
  | DeviceCreate, _ | LabelCreate, _ | WsEvent, _ => None
  | DeviceList, _ => Some SelectDevices
  | DeviceDelete id, _ => Some (DeleteDevice id)
  | EventList, _ => Some SelectEvents
  | EventRead id, _ => Some (SelectEvent id)
  | LabelList, _ => Some SelectLabels
  | LabelDelete id, _ => Some (DeleteLabel id)
  end.

(** The handler of the route; [None] as above. *)
Definition serve (r : Request) (db : DB) : option (result Response HttpError) * DB :=
  let answer (p : result Response HttpError * DB) := (Some (fst p), snd p) in
  let lost := rq_lost r in
  match routes parse_id (rq_method r) (rq_path r), rq_body r with
  | Some DeviceCreate, DeviceBody value =>
      answer (device_create mailbox_to_string diesel_to_string secret_to_hex (rq_secret r) value lost db)
  | Some LabelCreate, LabelBody value => answer (label_create mailbox_to_string diesel_to_string value lost db)
  | Some DeviceCreate, _ | Some LabelCreate, _ | Some WsEvent, _ | None, _ => (None, db)
  | Some DeviceList, _ => answer (device_list mailbox_to_string diesel_to_string lost db)
  | Some (DeviceDelete id), _ => answer (device_delete mailbox_to_string diesel_to_string id lost db)
  | Some EventList, _ => answer (event_list mailbox_to_string diesel_to_string datetime_to_json lost db)
  | Some (EventRead id), _ => answer (event_read mailbox_to_string diesel_to_string datetime_to_json id lost db)
  | Some LabelList, _ => answer (label_list mailbox_to_string diesel_to_string lost db)
  | Some (LabelDelete id), _ => answer (label_delete mailbox_to_string diesel_to_string id lost db)
  end.
Definition serves (rs : list Request) (db : DB) : DB := foldl (fun db r => snd (serve r db)) db rs.

(** ** Lemmas *)

Lemma snd_respond {A} (body : A -> Response) (msg : handler (DB := DB) A) lost db :
  snd (respond body (await mailbox_to_string diesel_to_string msg lost db)) =
    match lost with Some _ => db | None => snd (msg db) end.
Proof using Type. unfold respond, await. destruct lost; [done|]. by destruct (msg db). Qed.

(** A request is one message to the database actor, or none. *)
Lemma snd_serve (r : Request) (db : DB) :
  snd (serve r db) = match rq_lost r, message r with None, Some m => after m db | _, _ => db end.
Proof using Type.
  unfold serve, message. destruct (routes parse_id (rq_method r) (rq_path r)) as [[]|]; cbn [mbind option_bind];
    [..|by destruct (rq_lost r)]; destruct (rq_body r); cbn [snd];
    unfold device_create, device_list, device_delete, event_list, event_read, label_create, label_list, label_delete;
    rewrite ?snd_respond; by destruct (rq_lost r).
Qed.

(** What a request must spare for [device_secret_authenticates]. *)
Definition request_spares (secret : Z) (d : Device) (r : Request) : Prop :=
  match message r with Some m => spares secret d m | None => True end.

Context `{L : !PostgresLaws DB} `{UL : !UuidLaws} (parse_id_text : forall i, parse_id (uuid_to_string i) = Some i).

Lemma serve_integrity r db : integrity (tables_of db) -> integrity (tables_of (snd (serve r db))).
Proof using L. intros Ht. rewrite snd_serve. destruct (rq_lost r), (message r); auto using after_integrity. Qed.

Lemma serves_integrity rs db : integrity (tables_of db) -> integrity (tables_of (serves rs db)).
Proof using L.
  unfold serves. revert db. induction rs as [|r rs IH]; intros db Ht; cbn; [done|]. by apply IH, serve_integrity.
Qed.

Lemma serves_credential secret d rs db :
  in_u 64 secret = true -> Forall (request_spares secret d) rs ->
  credential secret d (tables_of db) -> credential secret d (tables_of (serves rs db)).
Proof using L.
  intros Hs Hrs. unfold serves. revert db. induction Hrs as [|r rs Hr _ IH]; intros db Hc; cbn; [done|].
  apply IH. rewrite snd_serve. unfold request_spares in Hr. destruct (rq_lost r), (message r); auto using after_credential.
Qed.

(** The list of devices. *)
Lemma select_devices_handler t :
  spec handle_select_devices t (fun l t' => t' = t /\ l ≡ₚ (map_to_list (t_devices t)).*2) (fun _ t' => t' = t).
Proof using L.
  unfold handle_select_devices. apply spec_bind. apply spec_connection; [|done]. apply spec_load; [|by intros].
  intros db l <- Hl. split; [done|]. by apply (devices_spec DB).
Qed.

Lemma device_members_inj d d' : JObj (device_members d) = JObj (device_members d') -> d = d'.
Proof using UL.
  destruct d as [i n e], d' as [i' n' e']. unfold device_members. cbn. intros [= Hi -> ->].
  by apply (inj uuid_to_string) in Hi as ->.
Qed.

(** Requests for one device, and for the list. *)
Definition post_device (nd : NewDevice) (secret : Z) : Request := mkRequest POST ["v1"; "devices"] (DeviceBody nd) secret None.
Definition get_devices : Request := mkRequest GET ["v1"; "devices"] NoBody 0 None.
Definition delete_device (i : Uuid) : Request := mkRequest DELETE ["v1"; "devices"; uuid_to_string i] NoBody 0 None.

Lemma serve_delete_device i db :
  serve (delete_device i) db =
    (Some (res_map (fun _ => None) (res_map_err (from_db diesel_to_string) (fst (handle_delete_device i db)))),
     snd (handle_delete_device i db)).
Proof using parse_id_text.
  unfold serve. cbn [delete_device rq_method rq_path rq_body rq_lost routes]. rewrite parse_id_text.
  cbn [fmap option_fmap option_map]. unfold device_delete, respond, await.
  by destruct (handle_delete_device i db).
Qed.

(** The answer is a list of devices that shows [d]. *)
Definition listed (d : Device) (r : option (result Response HttpError)) : Prop :=
  exists l, r = Some (Ok (Some (document (JArr l)))) /\ JObj (device_members d) ∈ l.

Lemma serve_get_devices db d :
  integrity (tables_of db) ->
  match fst (serve get_devices db) with
  | Some (Ok body) => listed d (Some (Ok body)) <-> t_devices (tables_of db) !! device_id d = Some d
  | Some (Err _) => True
  | None => False
  end.
Proof using L UL.
  intros Ht. unfold serve. cbn [get_devices rq_method rq_path rq_body rq_lost routes]. unfold device_list, respond, await.
  pose proof (select_devices_handler _ db eq_refl) as Hl.
  destruct (handle_select_devices db) as [[l|e] db']; cbn [res_map_err res_map fst]; [|done]. destruct Hl as [_ Hl].
  unfold listed. split.
  - intros (js & Hjs & Hin). injection Hjs as <-. apply list_elem_of_fmap in Hin as (d' & ->%device_members_inj & Hin).
    rewrite Hl in Hin. apply list_elem_of_fmap in Hin as ([i d0] & -> & Hin%elem_of_map_to_list).
    cbn. by rewrite (pk_devices _ Ht _ _ Hin).
  - intros Hd. eexists. split; [done|]. apply list_elem_of_fmap. exists d. split; [done|].
    rewrite Hl. apply list_elem_of_fmap. exists (device_id d, d). split; [done|]. by apply elem_of_map_to_list.
Qed.

(** ** Properties *)

(** C12: the life of a device, as the user sees it. The creation answers the
    device with its secret, or fails and changes nothing. After any further
    requests that neither delete the device nor draw its secret again, a list
    of the devices shows it, and its deletion never answers 404: it fails with
    500 and changes nothing, or it succeeds. Then no list shows the device, no
    secret authenticates it, none of its events is in the table, and deleting
    it again never succeeds and changes nothing. *)
Theorem device_lifecycle (secret : Z) (nd : NewDevice) (rs : list Request) (db : DB) :
  integrity (tables_of db) -> in_u 64 secret = true ->
  (forall i, (u64_to_be_bytes secret, i) ∉ t_credentials (tables_of db)) ->
  match serve (post_device nd secret) db with
  | (Some (Ok body), db1) => exists d,
      body = Some (document (new_device_res secret_to_hex d secret)) /\ device_name d = nd_name nd /\
      (Forall (request_spares secret d) rs ->
       let db2 := serves rs db1 in
       match fst (serve get_devices db2) with Some (Ok b) => listed d (Some (Ok b)) | Some (Err _) => True | None => False end /\
       match serve (delete_device (device_id d)) db2 with
       | (Some (Err e), db3) => he_code e = INTERNAL_SERVER_ERROR /\ tables_of db3 = tables_of db2
       | (Some (Ok b), db3) =>
           b = None /\ ~ listed d (fst (serve get_devices db3)) /\
           (forall s d', fst (handle_select_device s db3) = Ok d' -> device_id d' <> device_id d) /\
           (forall i e, t_events (tables_of db3) !! i = Some e -> event_device_id e <> device_id d) /\
           match serve (delete_device (device_id d)) db3 with
           | (Some (Err _), db4) => tables_of db4 = tables_of db3
           | _ => False
           end
       | (None, _) => False
       end)
  | (Some (Err _), db1) => tables_of db1 = tables_of db
  | (None, _) => False
  end.
Proof using L UL parse_id_text.
  intros Ht Hs Hfresh. unfold serve at 1. cbn [post_device rq_method rq_path rq_body rq_lost rq_secret routes].
  unfold device_create, respond, await. pose proof (created_credential secret nd db Ht Hfresh) as Hc.
  pose proof (insert_device_handler secret nd _ db eq_refl) as Hi.
  destruct (handle_insert_device secret nd db) as [[[d s]|e] db1]; cbn [res_map_err res_map fst snd]; [|exact Hi].
  destruct Hc as [-> Hc], Hi as (_ & _ & Hn & _). exists d. split_and!; [done|done|]. intros Hrs. cbv zeta.
  apply (serves_credential secret d rs db1 Hs Hrs) in Hc. generalize dependent (serves rs db1). clear db1. intros db2 [Hi2 Hd2 _ _].
  split.
  { pose proof (serve_get_devices db2 d Hi2) as Hl. destruct (fst (serve get_devices db2)) as [[b|e]|]; [|done..]. by apply Hl. }
  rewrite serve_delete_device. pose proof (delete_device_handler (device_id d) _ Hi2 db2 eq_refl) as Hdel.
  destruct (handle_delete_device (device_id d) db2) as [[[]|e] db3]; cbn [fst snd res_map_err res_map].
  2: { destruct Hdel as (Heq & Hnf & _). split; [|done]. destruct e as [[|msg]|p|msg]; try done. exfalso. by apply Hnf; eauto. }
  destruct Hdel as [_ Heq]. assert (integrity (tables_of db3)) as Hi3 by (rewrite Heq; by apply del_device_integrity).
  assert (t_devices (tables_of db3) !! device_id d = None) as Hgone by (rewrite Heq; apply lookup_delete_eq).
  split_and!; [done| | | |].
  - pose proof (serve_get_devices db3 d Hi3) as Hl. destruct (fst (serve get_devices db3)) as [[b|e]|]; [|by intros (? & ? & _)..].
    rewrite Hl. congruence.
  - intros s' d' Hd' Heqd. pose proof (select_device_handler s' _ Hi3 db3 eq_refl) as Hsel.
    destruct (handle_select_device s' db3) as [[d0|?] db']; cbn in Hd'; [|done]. injection Hd' as ->.
    destruct Hsel as (_ & _ & Hsel). congruence.
  - intros i ev Hev Heqd. rewrite <- Heqd in Hgone. destruct (fk_events _ Hi3 _ _ Hev) as [? ?]. congruence.
  - rewrite serve_delete_device. pose proof (delete_device_handler (device_id d) _ Hi3 db3 eq_refl) as Hdel.
    destruct (handle_delete_device (device_id d) db3) as [[[]|e] db4]; cbn [fst snd res_map_err res_map].
    + destruct Hdel as [[? Hx] _]. congruence.
    + by destruct Hdel as [-> _].
Qed.
End Service.

(** ** Witness: a device is created, another one deleted, then the first *)

#[local] Existing Instances LittleEndian.uuid16_ops LittleEndian.uuid16_laws MemStore.chrono_pair store_postgres store_laws.

Definition no_text {A} (_ : A) : string := EmptyString.
Definition no_json {A} (_ : A) : json := JBool true.
Definition parse0 : string -> option Uuid := LittleEndian.uuid16_of_string.
Abbreviation serve0 := (serve (DB := MemStore.mem) no_text no_text no_json hex16 parse0).
Abbreviation serves0 := (serves (DB := MemStore.mem) no_text no_text no_json hex16 parse0).

Definition requests0 : list Request :=
  [post_device nd0 7; delete_device (LittleEndian.uuid_nth 1); get_devices].

Example lifecycle0 :
  let db1 := snd (serve0 (post_device nd0 42) db0) in
  let db2 := serves0 requests0 db1 in
  let db3 := snd (serve0 (delete_device dev0) db2) in
  (is_ok (default (Err tt) (res_map_err (fun _ => tt) <$> fst (serve0 (delete_device dev0) db2))),
   res_map_err he_code <$> fst (serve0 (delete_device dev0) db3)) = (true, Some (Err NOT_FOUND)).
Proof. vm_compute. reflexivity. Qed.

Lemma device_lifecycle_witness :
  exists d, fst (serve0 (post_device nd0 42) db0) = Some (Ok (Some (document (new_device_res hex16 d 42)))) /\
    (device_id d = dev0 -> let db2 := serves0 requests0 (snd (serve0 (post_device nd0 42) db0)) in
     match serve0 (delete_device (device_id d)) db2 with
     | (Some (Ok b), db3) => b = None /\ ~ listed d (fst (serve0 get_devices db3))
     | _ => True
     end).
Proof.
  assert (Hok : match fst (serve0 (post_device nd0 42) db0) with Some (Ok _) => true | _ => false end = true)
    by (vm_compute; reflexivity).
  pose proof (device_lifecycle (DB := MemStore.mem) no_text no_text no_json hex16 parse0
    LittleEndian.uuid16_of_string_text 42 nd0 requests0 db0 empty_integrity eq_refl
    ltac:(intros i []%not_elem_of_nil)) as H.
  destruct (serve0 (post_device nd0 42) db0) as [[[body|e]|] db1]; cbn [fst snd] in Hok |- *; [|discriminate..].
  destruct H as (d & -> & _ & H). exists d. split; [reflexivity|]. intros Hd. cbv zeta.
  assert (Hrs : Forall (request_spares parse0 42 d) requests0).
  { repeat constructor; [discriminate|]. unfold request_spares, message. cbn [delete_device rq_method rq_path rq_body routes].
    change (parse0 (uuid_to_string _)) with (LittleEndian.uuid16_of_string (LittleEndian.uuid16_to_string (LittleEndian.uuid_nth 1))).
    rewrite LittleEndian.uuid16_of_string_text. cbn. rewrite Hd. discriminate. }
  specialize (H Hrs). cbv zeta in H. destruct H as [_ H].
  destruct (serve0 (delete_device (device_id d)) (serves0 requests0 db1)) as [[[b|e]|] db3]; [|exact I..].
  destruct H as (Hb & Hl & _). split; assumption.
Defined.
