(* ===== verification/Download.v ===== *)
(** * The download of a recording

    [SoundFlow] and [WebApp] composed: what a session is told about a recording
    leads to its samples. *)
From S2P Require Import Prelude MachineInt Bincode AudioHandler Store DbHandlers WsManager EventProcessor Http WebApp.
From S2P Require DbTypes LittleEndian MemStore Audio SoundFlow HttpService Json.
Import DbTypes(Chrono).
Open Scope Z_scope.

Section Download.
Context `{U : UuidOps} `{UL : !UuidLaws} `{C : Chrono} {W Wr : Type} `{Ho : !Host W Wr} `{HL : !HostLaws W Wr}
  `{HR : HoundRules} `{HT : !HostReliable W Wr} `{B : !Bincode} {DB : Type} `{PG : !Postgres DB} `{L : !PostgresLaws DB}
  {Addr : Type} `{!EqDecision Addr} (to_json : DbTypes.Event -> string)
  `{SF : !StaticFiles W} `{SL : !StaticFilesLaws W}
  (mailbox_to_string : DbTypes.MailboxError -> string) (diesel_to_string : DbTypes.DieselError -> string)
  (datetime_to_json : DbTypes.DateTime -> Json.json) (secret_to_hex : Z -> string) (parse_id : string -> option Uuid)
  {Fault : Type} (refusal : WebRequest (Addr := Addr) -> result Z Fault)
  `{CM : !CorsMiddleware (Addr := Addr) (DB := DB) (Fault := Fault)} `{CL : !CorsLaws}
  (uuid_text : forall u, plain_name (uuid_to_string u) = true)
  (wav_file_exists : forall w p x, wav_file (W := W) (Wr := Wr) w p = Some x -> file_exists w p = true).

Abbreviation application := (app (DB := DB) mailbox_to_string diesel_to_string datetime_to_json secret_to_hex parse_id refusal).

Lemma wav_name_plain i : plain_name (wav_name i) = true.
Proof using uuid_text. unfold wav_name. by apply plain_name_app. Qed.

(** A GET of a recording by its name delivers its file. *)
Lemma get_delivers dir (w : W) i x (req : WebRequest) (st : AppState) :
  wav_file (W := W) (Wr := Wr) w (path_push dir (wav_name i)) = Some x ->
  admitted cors req = true -> HttpService.rq_method (wr_request req) = GET ->
  HttpService.rq_path (wr_request req) = ["static"; "wav"; wav_name i] ->
  application dir w req st = (Ok (Delivered (path_push dir (wav_name i))),
    with_log (access_log st ++ [mkLogLine GET ["static"; "wav"; wav_name i] 200]) st).
Proof using wav_file_exists uuid_text SL CL.
  intros Hx Hadm Hmethod Hpath. unfold app. rewrite cors_admits by done.
  unfold log_requests, app_routes. rewrite Hpath, Hmethod. cbn [web_route].
  rewrite files_plain; [done|apply wav_name_plain|by eapply wav_file_exists].
Qed.

(** A recording that a session is told about can be downloaded. A handler
    receives any packets, and the event processor handles the events it sends,
    under any interleaving. Then every message to a session is the text of an
    event in the database, a sound event of the handler's device that names a
    recording the stream has ended; and while that recording is as it was stored, a GET of that name under /static/wav, in the directory of the
    audio server, answers 200 with a file that holds the samples of the
    recording in the format of the stream, and is logged. *)
Theorem recording_can_be_downloaded (dir : string) (sp : Audio.Spec) (dev : Uuid) (bufs : list (list byte)) (w : W)
    (db : DB) (sess : Sessions (Addr := Addr)) (hs : list Happening) (a : Addr) (m : WsMessage)
    (req : WebRequest) (st : AppState) :
  let '(_, w', sent) := handle_all (handler_new (Wr := Wr) dir sp dev) bufs w in
  let r := foldl (rec_bytes sp) no_recordings bufs in
  let s := happens to_json (start db sess) hs in
  integrity (tables_of db) -> Forall harmless hs -> arrivals hs = sent -> (a, m) ∈ sys_mail s ->
  exists i e, i ∈ r_ended r /\ m = Text (to_json e) /\ t_events (tables_of (sys_db s)) !! DbTypes.event_id e = Some (DbTypes.stored_event e) /\
    DbTypes.event_device_id e = dev /\ DbTypes.event_payload e = DbTypes.Sound (wav_name i) /\
    forall xs, r_stored r !! i = Some xs ->
      admitted cors req = true -> HttpService.rq_method (wr_request req) = GET ->
      HttpService.rq_path (wr_request req) = ["static"; "wav"; wav_name i] ->
      exists file, application dir w' req st =
          (Ok (Delivered file), with_log (access_log st ++ [mkLogLine GET ["static"; "wav"; wav_name i] 200]) st) /\
        wav_file w' file = Some (Audio.spec_to_wav sp, xs).
Proof using All.
  pose proof (SoundFlow.mail_announces to_json dir sp dev bufs w db sess hs a m) as H.
  destruct (handle_all (handler_new dir sp dev) bufs w) as [[h' w'] sent]. cbv zeta in H |- *.
  intros Hi Hh Harr Hm. destruct (H Hi Hh Harr Hm) as (i & e & Hend & Htext & Hdb & Hdev & Hp & Hfile).
  exists i, e. split_and!; [done..|]. intros xs Hxs Hadm Hmethod Hpath. specialize (Hfile xs Hxs).
  exists (path_push dir (wav_name i)). split; [|done]. by eapply get_delivers.
Qed.
End Download.

(** ** Witness: the recording of [SoundFlow] *)

Lemma hex_byte_plain b : plain (LittleEndian.hex_byte b) = true.
Proof. destruct b; vm_compute; reflexivity. Qed.

Lemma hex_bytes_plain bs : plain (LittleEndian.hex_bytes bs) = true.
Proof.
  unfold LittleEndian.hex_bytes. induction bs as [|b bs IH]; [done|]. cbn [foldr]. by rewrite plain_app, hex_byte_plain, IH.
Qed.

Lemma hex_bytes_plain_name b bs : plain_name (LittleEndian.hex_bytes (b :: bs)) = true.
Proof.
  apply (plain_name_app (LittleEndian.hex_byte b) (LittleEndian.hex_bytes bs)); [|apply hex_bytes_plain].
  destruct b; vm_compute; reflexivity.
Qed.

Lemma uuid16_plain u : plain_name (LittleEndian.uuid16_to_string u) = true.
Proof.
  destruct u as [[[[[[b ?] ?] ?] w1] w2] w3]. unfold LittleEndian.uuid16_to_string.
  apply plain_name_app; [apply hex_bytes_plain_name|]. rewrite !plain_app, !hex_bytes_plain. done.
Qed.

Import LittleEndian.Instances.
#[local] Existing Instances MemStore.chrono_pair store_postgres store_laws SoundFlow.files_host SoundFlow.files_laws
  hound_rules SoundFlow.files_reliable plain_cors plain_cors_laws.
#[local] Instance wav_files : StaticFiles files := map_files.
#[local] Instance wav_files_laws : StaticFilesLaws files := map_files_laws.

(** The page of the frontend asks for the recording. *)
Definition get_recording : WebRequest (Addr := nat) :=
  web0 (HttpService.mkRequest GET ["static"; "wav"; wav_name rec1] HttpService.NoBody 0 None) page false.

Lemma recording_can_be_downloaded_witness :
  let w' := snd (fst SoundFlow.handled1) in
  exists file xs, fst (app (W := files) HttpService.no_text HttpService.no_text HttpService.no_json hex16 HttpService.parse0
    refusal0 "wav" w' get_recording state0) = Ok (Delivered file) /\ wav_file w' file = Some (Audio.spec_to_wav u16_spec, xs).
Proof.
  pose proof (recording_can_be_downloaded (W := files) (Wr := mem_writer) (DB := MemStore.mem) json0 HttpService.no_text HttpService.no_text HttpService.no_json hex16
    HttpService.parse0 refusal0 uuid16_plain) as H.
  assert (Hex : forall (w : files) p x, wav_file (W := files) (Wr := mem_writer) w p = Some x -> file_exists w p = true).
  { intros w p x Hx. apply bool_decide_eq_true. exists x. exact Hx. }
  specialize (H Hex "wav" u16_spec dev0 SoundFlow.bufs1 no_files db1 sess0 SoundFlow.hs1 5%nat (Text "{}") get_recording state0).
  assert (arrivals SoundFlow.hs1 = snd SoundFlow.handled1) as Ha by apply SoundFlow.arrivals_all.
  assert (sys_mail (happens json0 (start db1 sess0) SoundFlow.hs1) = [(5%nat, Text "{}")]) as Hm by (vm_compute; reflexivity).
  assert (Forall harmless SoundFlow.hs1) as Hh.
  { apply Forall_app. split; [|repeat constructor]. apply Forall_map, Forall_forall. done. }
  fold SoundFlow.handled1 in H. destruct SoundFlow.handled1 as [[h' w'] sent]. cbn [fst snd].
  destruct (H db1_integrity Hh Ha) as (i & e & Hend & _ & _ & _ & _ & Hget).
  { rewrite Hm. apply list_elem_of_singleton. reflexivity. }
  assert (r_ended (foldl (rec_bytes u16_spec) no_recordings SoundFlow.bufs1) = [rec1]) as Hone by (vm_compute; reflexivity).
  rewrite Hone in Hend. apply list_elem_of_singleton in Hend as ->.
  assert (match r_stored (foldl (rec_bytes u16_spec) no_recordings SoundFlow.bufs1) !! rec1 with Some _ => true | None => false end = true)
    as Hsome by (vm_compute; reflexivity).
  destruct (r_stored (foldl (rec_bytes u16_spec) no_recordings SoundFlow.bufs1) !! rec1) as [xs|] eqn:Hxs; [|discriminate Hsome].
  destruct (Hget xs eq_refl eq_refl eq_refl eq_refl) as (file & Happ & Hf). exists file, xs. split; [|exact Hf]. unfold app0. rewrite Happ. reflexivity.
Defined.
