(* ===== verification/Site.v ===== *)
(** * The backend with its web side (backend/src/main.rs, http/, actor/)

    [Backend], [WebApp] and [Sessions] as one system: the HTTP server answers
    requests over the database and the session table of the other services and
    the files of the audio server, and a websocket actor runs for each browser.
    The theorems follow a recording from the packets of a client to what a
    browser is told and can download, and an event to every browser that
    listens. *)
From S2P Require Import Prelude MachineInt Float32 NoiseGate Bincode Audio AudioSink AudioHandler AudioServer AudioService.
From S2P Require Import Store DbHandlers WsManager EventProcessor Sessions Backend Shutdown Http WebApp Download.
From S2P Require DbTypes LittleEndian MemStore Event EventHandler EventServer EventFlow SoundFlow Signal Json HttpService.
Import DbTypes(Chrono, event_id, event_device_id, event_payload, MailboxError, DieselError, DateTime).
Open Scope Z_scope.

Section Site.
Context `{HS : HttpSignals} `{U : UuidOps} `{C : Chrono} {W Wr : Type} `{Ho : !Host W Wr} `{B : !Bincode} {DB : Type} `{PG : !Postgres DB}
  {Addr : Type} `{!EqDecision Addr} {Stream AcceptError : Type} `{Countable Stream} (to_json : DbTypes.Event -> string)
  `{SF : !StaticFiles W} (mailbox_to_string : MailboxError -> string) (diesel_to_string : DieselError -> string)
  (datetime_to_json : DateTime -> Json.json) (secret_to_hex : Z -> string) (parse_id : string -> option Uuid)
  {Fault : Type} (refusal : WebRequest (Addr := Addr) -> result Z Fault)
  `{CM : !CorsMiddleware (Addr := Addr) (DB := DB) (Fault := Fault)} (dir : string).

Abbreviation backend := (Backend (W := W) (Wr := Wr) (DB := DB) (Addr := Addr) (Stream := Stream)).
Abbreviation Turn := (Turn (Addr := Addr) (Stream := Stream) (AcceptError := AcceptError)).
Abbreviation turn := (turn (AcceptError := AcceptError) to_json).
Abbreviation application :=
  (app (DB := DB) mailbox_to_string diesel_to_string datetime_to_json secret_to_hex parse_id refusal dir).

(** The services, the access log, and the session actors by their addresses. *)
Record Site : Type := mkSite {
  si_backend : backend;
  si_log : list LogLine;
  si_session : Addr -> WsSession;
}.

(** [AppState]: the database and the table of sessions are shared with the
    other services. *)
Definition web_state (s : Site) : AppState (DB := DB) (Addr := Addr) :=
  mkAppState (sys_db (bk_system (si_backend s))) (sys_sessions (bk_system (si_backend s))) (si_log s).
Definition with_system (sys : System (DB := DB) (Addr := Addr)) (b : backend) : backend :=
  mkBackend (bk_audio b) (bk_world b) (bk_boards b) sys (bk_http_ended b) (bk_stopped b) (bk_packets b) (bk_secrets b)
    (bk_signals b).
Definition with_web (st : AppState (DB := DB) (Addr := Addr)) (s : Site) : Site :=
  let sys := bk_system (si_backend s) in
  mkSite (with_system (mkSystem (database st) (ws_manager st) (sys_tasks sys) (sys_mail sys)) (si_backend s))
    (access_log st) (si_session s).

Definition http_serves (s : Site) : bool := negb (bk_stopped (si_backend s)) && negb (bk_http_ended (si_backend s)).

(** What the HTTP server answers. *)
Definition http_answer (req : WebRequest) (s : Site) : option (result WebResponse Fault) :=
  if http_serves s then Some (fst (application (bk_world (si_backend s)) req (web_state s))) else None.

(** Requests to the database and registrations come from the HTTP server only. *)
Inductive Visit : Type :=
| Service (t : Turn)
| Visits (req : WebRequest (Addr := Addr))
| SessionNext (a : Addr)
| SessionIncoming (a : Addr)
| SessionFinished (a : Addr).

Definition on_session (a : Addr) (f : WsSession -> WsSession) (s : Site) : Site :=
  mkSite (si_backend s) (si_log s) (fun x => if decide (x = a) then f (si_session s x) else si_session s x).

Definition visit (v : Visit) (s : Site) : Site :=
  if bk_stopped (si_backend s) then s else
  match v with
  | Service (Processor (Request _)) | Service (Processor (Register _)) => s
  | Service t =>
      let b := turn t (si_backend s) in
      let mail := drop (length (sys_mail (bk_system (si_backend s)))) (sys_mail (bk_system b)) in
      mkSite b (si_log s) (deliver mail (si_session s))
  | Visits req =>
      if bk_http_ended (si_backend s) then s
      else with_web (snd (application (bk_world (si_backend s)) req (web_state s))) s
  | SessionNext a => on_session a session_next s
  | SessionIncoming a => on_session a session_incoming s
  | SessionFinished a => on_session a session_finished s
  end.
Definition visits (vs : list Visit) (s : Site) : Site := foldl (fun s v => visit v s) s vs.

Definition site_start (event_server_port : Z) (w : W) (db : DB) (sess : WsManager.Sessions (Addr := Addr)) : Site :=
  mkSite (backend_start dir event_server_port w db sess) [] (fun _ => ws_session_new).

(** No device is deleted. *)
Definition harmless_visit (v : Visit) : Prop :=
  match v with
  | Visits req => match HttpService.message parse_id (wr_request req) with Some (DeleteDevice _) => False | _ => True end
  | _ => True
  end.

(** ** The web side is made of turns of the backend *)

(** What the routes do to the database and the sessions is one turn, or none. *)
Lemma routes_turn (w : W) req (st : AppState) :
  let st' := snd (app_routes mailbox_to_string diesel_to_string datetime_to_json secret_to_hex parse_id refusal dir w req st) in
  (database st' = database st /\ ws_manager st' = ws_manager st) \/
  (exists m, HttpService.message parse_id (wr_request req) = Some m /\ database st' = after m (database st) /\ ws_manager st' = ws_manager st) \/
  (exists addr, database st' = database st /\ ws_manager st' = register TargetEvent addr (ws_manager st)).
Proof using Type.
  cbv zeta. unfold app_routes, refuse.
  pose proof (HttpService.snd_serve mailbox_to_string diesel_to_string datetime_to_json secret_to_hex parse_id (wr_request req) (database st)) as Hs.
  assert (forall db', db' = snd (HttpService.serve mailbox_to_string diesel_to_string datetime_to_json secret_to_hex parse_id (wr_request req) (database st)) ->
    db' = database st \/ exists m, HttpService.message parse_id (wr_request req) = Some m /\ db' = after m (database st)) as Hserve.
  { intros db' ->. rewrite Hs. destruct (HttpService.rq_lost _) as [lost|], (HttpService.message _ _) as [msg|]; eauto. }
  clear Hs. destruct (HttpService.serve _ _ _ _ _ (wr_request req) (database st)) as [o db']. specialize (Hserve db' eq_refl).
  repeat first [done | progress cbn [fst snd database ws_manager] | case_match]; simplify_eq;
    first [by left | right; right; by eexists | destruct Hserve as [->|(m0 & ? & ->)]; [by left|right; left; by exists m0]].
Qed.

Context `{CL : !CorsLaws}.

Lemma application_turn (w : W) req (st : AppState) :
  let st' := snd (application w req st) in
  (database st' = database st /\ ws_manager st' = ws_manager st) \/
  (exists m, HttpService.message parse_id (wr_request req) = Some m /\ database st' = after m (database st) /\ ws_manager st' = ws_manager st) \/
  (exists addr, database st' = database st /\ ws_manager st' = register TargetEvent addr (ws_manager st)).
Proof using CL.
  cbv zeta. unfold app. destruct (admitted cors req) eqn:Ha.
  - rewrite cors_admits by done. pose proof (routes_turn w req st) as Hr. unfold log_requests.
    destruct (app_routes _ _ _ _ _ _ _ w req st) as [[res|e] st']; exact Hr.
  - rewrite cors_refuses by done. by left.
Qed.

Lemma with_system_same (b : backend) : with_system (bk_system b) b = b.
Proof using Type. by destruct b. Qed.

Lemma system_eta (s : System (DB := DB) (Addr := Addr)) : mkSystem (sys_db s) (sys_sessions s) (sys_tasks s) (sys_mail s) = s.
Proof using Type. by destruct s. Qed.

(** A run of the services, on which the statements about [Backend] hold. *)
Definition harmless_step (v : Visit) : Prop := match v with Service t => harmless_turn t | _ => harmless_visit v end.

Lemma visit_turns (v : Visit) (s : Site) :
  exists ts, si_backend (visit v s) = turns (AcceptError := AcceptError) to_json ts (si_backend s) /\
    (harmless_step v -> Forall harmless_turn ts).
Proof using CL.
  unfold visit. destruct (bk_stopped (si_backend s)) eqn:Hb; [by exists []|].
  destruct v as [t|req|a|a|a]; [| |by exists []..].
  - assert (exists ts, si_backend s = turns to_json ts (si_backend s) /\
      (harmless_step (Service t) -> Forall (harmless_turn (AcceptError := AcceptError)) ts)) as Hn by (by exists []).
    assert (exists ts, turn t (si_backend s) = turns to_json ts (si_backend s) /\
      (harmless_step (Service t) -> Forall harmless_turn ts)) as H1 by (exists [t]; split; [done|by repeat constructor]).
    destruct t as [| | | | | | | |h| |]; try exact H1. destruct h; first [exact H1|exact Hn].
  - destruct (bk_http_ended (si_backend s)) eqn:He; [by exists []|].
    destruct (application_turn (bk_world (si_backend s)) req (web_state s)) as [[Hdb Hws]|[(m & Hm & Hdb & Hws)|(addr & Hdb & Hws)]];
      cbn [si_backend with_web]; rewrite Hdb, Hws; cbn [database ws_manager web_state].
    + exists []. split; [|done]. cbn [Backend.turns foldl]. by rewrite system_eta, with_system_same.
    + exists [Processor (Request m)]. cbn [harmless_step harmless_visit]. rewrite Hm. split; [|intros; constructor; [by destruct m|done]].
      cbn. unfold Backend.turn, with_system. by rewrite Hb, He.
    + exists [Processor (Register addr)]. split; [|by repeat constructor]. cbn. unfold Backend.turn, with_system. by rewrite Hb, He.
Qed.

Lemma visits_turns vs (s : Site) :
  exists ts, si_backend (visits vs s) = turns (AcceptError := AcceptError) to_json ts (si_backend s) /\
    (Forall harmless_step vs -> Forall harmless_turn ts).
Proof using CL.
  unfold visits. induction vs as [|v vs IH] using rev_ind; [by exists []|].
  rewrite foldl_snoc. destruct IH as (ts & Hts & Hh).
  destruct (visit_turns v (foldl (fun s v => visit v s) s vs)) as (ts' & -> & Hh').
  exists (ts ++ ts'). split; [by rewrite turns_app, <- Hts|]. intros [Hvs [Hv _]%Forall_cons]%Forall_app. apply Forall_app. auto.
Qed.

(** ** The sessions *)

(** A turn is made of happenings of the processor. *)
Lemma turn_system (t : Turn) (b : backend) : exists hs, bk_system (turn t b) = happens to_json (bk_system b) hs.
Proof using Type.
  unfold Backend.turn. destruct (bk_stopped b); [by exists []|].
  destruct t as [buf from un|sig|sig|k|stream|stream ev now un|stream|sig|h| |]; try by exists []; try by eexists.
  - destruct (bk_audio b) as [server|l]; [|by exists []]. destruct (server_handle _ _ _ _ _) as [[? ?] ?]. by eexists.
  - case_decide; [|by exists []]. destruct (bk_audio b); by exists [].
  - destruct (bk_audio b) as [server|l]; [by exists []|]. destruct (l !! k) as [[a h]|]; [|by exists []].
    destruct (stopping h (bk_world b)) as [[? ?] ?]. by eexists.
  - by eexists.
  - by eexists.
  - by eexists.
  - case_decide; [by eexists|by exists []].
  - destruct h; first [by exists []|by eexists].
  - destruct (existsb _ _); by exists [].
  - destruct (bk_http_ended b); by exists [].
Qed.

Lemma visits_system vs (s : Site) :
  exists hs, bk_system (si_backend (visits vs s)) = happens to_json (bk_system (si_backend s)) hs.
Proof using CL.
  destruct (visits_turns vs s) as (ts & -> & _). unfold Backend.turns. induction ts as [|t ts IH] using rev_ind; [by exists []|].
  rewrite foldl_snoc. destruct IH as [hs Hhs]. destruct (turn_system t (foldl (fun b t => turn t b) (si_backend s) ts)) as [hs' ->].
  exists (hs ++ hs'). unfold happens. by rewrite foldl_app, Hhs.
Qed.

Lemma happens_mail_grows (s : System (DB := DB) (Addr := Addr)) hs : exists new, sys_mail (happens to_json s hs) = sys_mail s ++ new.
Proof using Type.
  unfold happens. induction hs as [|h hs IH] using rev_ind; [exists []; by rewrite app_nil_r|]. rewrite foldl_snoc.
  destruct IH as [new Hnew]. destruct (happen_mail to_json (foldl (happen to_json) s hs) h) as [new' ->]. rewrite Hnew.
  exists (new ++ new'). by rewrite app_assoc.
Qed.

(** Every session has done what it should with what was sent to it. *)
Definition sessions_ok (s : Site) : Prop :=
  forall a, session_ok (texts_to a (sys_mail (bk_system (si_backend s)))) (si_session s a).

Lemma service_ok (t : Turn) (s : Site) :
  sessions_ok s ->
  sessions_ok (mkSite (turn t (si_backend s)) (si_log s)
    (deliver (drop (length (sys_mail (bk_system (si_backend s)))) (sys_mail (bk_system (turn t (si_backend s))))) (si_session s))).
Proof using Type.
  intros Hs a. cbn [si_backend si_session]. destruct (turn_system t (si_backend s)) as [hs ->].
  destruct (happens_mail_grows (bk_system (si_backend s)) hs) as [new ->]. rewrite drop_app_length, texts_to_app.
  apply session_send_ok. apply Hs.
Qed.

Lemma on_session_ok a f (s : Site) :
  (forall ms x, session_ok ms x -> session_ok ms (f x)) -> sessions_ok s -> sessions_ok (on_session a f s).
Proof using Type. intros Hf Hs b. cbn. destruct (decide (b = a)); [by apply Hf, Hs|apply Hs]. Qed.

Lemma visit_ok (v : Visit) (s : Site) : sessions_ok s -> sessions_ok (visit v s).
Proof using Type.
  intros Hs. unfold visit. destruct (bk_stopped (si_backend s)); [done|]. destruct v as [t|req|a|a|a].
  - destruct t as [| | | | | | | |h| |]; try by apply service_ok. destruct h; first [exact Hs|by apply service_ok].
  - by destruct (bk_http_ended (si_backend s)).
  - apply on_session_ok; [apply session_next_ok|done].
  - by apply on_session_ok.
  - apply on_session_ok; [apply session_finished_ok|done].
Qed.

Lemma visits_ok vs (s : Site) : sessions_ok s -> sessions_ok (visits vs s).
Proof using Type. unfold visits. induction vs as [|v vs IH] using rev_ind; [done|]. rewrite foldl_snoc. intros Hs. by apply visit_ok, IH. Qed.

Lemma site_start_ok port (w : W) (db : DB) (sess : WsManager.Sessions (Addr := Addr)) : sessions_ok (site_start port w db sess).
Proof using Type. by intros a. Qed.

(** The mailbox of a session that runs is written out. *)
Lemma session_empties a n (s : Site) :
  bk_stopped (si_backend s) = false -> se_running (si_session s a) = true -> length (se_mailbox (si_session s a)) = n ->
  se_socket (si_session (visits (replicate n (SessionNext a)) s) a) = se_socket (si_session s a) ++ texts (se_mailbox (si_session s a)).
Proof using Type.
  revert s. induction n as [|n IH]; intros s Hb Hr Hn.
  - destruct (se_mailbox (si_session s a)); [|done]. by rewrite app_nil_r.
  - destruct (se_mailbox (si_session s a)) as [|m rest] eqn:Hm; [done|].
    assert (si_session (visit (SessionNext a) s) a = mkWsSession true rest (se_socket (si_session s a) ++ [session_handle m])
      (se_log (si_session s a))) as Hv.
    { unfold visit. rewrite Hb. cbn. rewrite decide_True by done. unfold session_next. by rewrite Hr, Hm. }
    change (visits (replicate (S n) (SessionNext a)) s) with (visits (replicate n (SessionNext a)) (visit (SessionNext a) s)).
    rewrite IH; rewrite ?Hv; cbn; [by rewrite <- app_assoc| |done|by injection Hn].
    unfold visit. by rewrite Hb.
Qed.

(** Whoever opened the websocket is a listener from then on. *)
Lemma upgraded_listens (s : Site) req a :
  http_serves s = true -> admitted cors req = true -> HttpService.rq_method (wr_request req) = GET ->
  HttpService.rq_path (wr_request req) = ["ws"; "event"] -> wr_session req = Some a ->
  http_answer req s = Some (Ok Upgraded) /\
  a ∈ listeners (sys_sessions (bk_system (si_backend (visit (Visits req) s)))).
Proof using CL.
  intros Hs Ha Hm Hp Hw. unfold http_answer. rewrite Hs. unfold visit. unfold http_serves in Hs.
  apply andb_true_iff in Hs as [->%negb_true_iff ->%negb_true_iff].
  assert (application (bk_world (si_backend s)) req (web_state s) =
    (Ok Upgraded, mkAppState (database (web_state s)) (register TargetEvent a (ws_manager (web_state s)))
      (access_log (web_state s) ++ [mkLogLine GET ["ws"; "event"] 101]))) as ->.
  { unfold app. rewrite cors_admits by done. unfold log_requests, app_routes. rewrite Hp, Hm. cbn [web_route]. by rewrite Hw. }
  split; [done|]. cbn [snd si_backend with_web with_system bk_system sys_sessions ws_manager]. rewrite listeners_register. apply elem_of_app. right. by apply list_elem_of_singleton.
Qed.
End Site.

(** ** Properties *)

Section Properties.
Context `{HS : HttpSignals} `{U : UuidOps} `{UL : !UuidLaws} `{C : Chrono} {W Wr : Type} `{Ho : !Host W Wr} `{HL : !HostLaws W Wr}
  `{HR : HoundRules} `{HT : !HostReliable W Wr} `{B : !Bincode} {DB : Type} `{PG : !Postgres DB} `{L : !PostgresLaws DB}
  {Addr : Type} `{!EqDecision Addr} {Stream AcceptError : Type} `{Countable Stream} (to_json : DbTypes.Event -> string)
  `{SF : !StaticFiles W} `{SL : !StaticFilesLaws W}
  (mailbox_to_string : MailboxError -> string) (diesel_to_string : DieselError -> string)
  (datetime_to_json : DateTime -> Json.json) (secret_to_hex : Z -> string) (parse_id : string -> option Uuid)
  {Fault : Type} (refusal : WebRequest (Addr := Addr) -> result Z Fault)
  `{CM : !CorsMiddleware (Addr := Addr) (DB := DB) (Fault := Fault)} `{CL : !CorsLaws}
  (uuid_text : forall u, plain_name (uuid_to_string u) = true)
  (wav_file_exists : forall w p x, wav_file (W := W) (Wr := Wr) w p = Some x -> file_exists w p = true)
  (dir : string).

Abbreviation backend := (Backend (W := W) (Wr := Wr) (DB := DB) (Addr := Addr) (Stream := Stream)).
Abbreviation Visit := (Visit (Addr := Addr) (Stream := Stream) (AcceptError := AcceptError)).
Abbreviation visits := (visits (AcceptError := AcceptError) to_json mailbox_to_string diesel_to_string datetime_to_json secret_to_hex
  parse_id refusal dir).
Abbreviation http_answer := (http_answer mailbox_to_string diesel_to_string datetime_to_json secret_to_hex parse_id refusal dir).
Abbreviation safe := (Forall (harmless_step (Stream := Stream) (AcceptError := AcceptError) parse_id)).

(** [xs] are the samples of the recording [i], in progress when the handler of
    its client [c] stopped, and fill the channels. *)
Definition cut_off (b : backend) (c : SocketAddr) (spec : Spec) (r : recordings) (i : Uuid) (xs : list HSample) : Prop :=
  (c ∉ (handlers b).*1) /\ exists sq, r_open r !! i = Some (sq, xs) /\ whole (spec_to_wav spec) (length xs) = true.

(** The client [c] of the device [dev] has sent the recording [i] and has ended
    it, or was cut off. *)
Definition sent_recording (b : backend) (c : SocketAddr) (dev i : Uuid) : Prop :=
  exists spec r, client_of c (bk_packets b) = Some (spec, dev, r) /\ ((i ∈ r_ended r) \/ exists xs, cut_off b c spec r i xs).

(** The samples of the recording, as it was ended last, or cut off. *)
Definition recording_samples (b : backend) (c : SocketAddr) (i : Uuid) (spec : Spec) (xs : list HSample) : Prop :=
  exists dev r, client_of c (bk_packets b) = Some (spec, dev, r) /\ (r_stored r !! i = Some xs \/ cut_off b c spec r i xs).

(** An event that a session was sent is that of a message of a board or of a
    recording. *)
Lemma mail_sources port (owner : Uuid -> SocketAddr) (w : W) (db : DB) (sess : WsManager.Sessions (Addr := Addr)) ts (a : Addr) m :
  let b := turns (AcceptError := AcceptError) to_json ts (backend_start dir port w db sess : backend) in
  integrity (tables_of db) -> Forall harmless_turn ts -> separate owner (bk_packets b) ->
  (a, m) ∈ sys_mail (bk_system b) ->
  exists e ne, m = Text (to_json e) /\ event_for ne e /\
    t_events (tables_of (sys_db (bk_system b))) !! event_id e = Some (DbTypes.stored_event e) /\ authenticated b (event_device_id e) /\
    ((exists stream, (stream, ne) ∈ EventServer.mailbox (bk_boards b)) \/
     (exists c i, sent_recording b c (event_device_id e) i /\ event_payload e = DbTypes.Sound (wav_name i))).
Proof using L UL HL HT.
  intros b Hi Hts Hsep Hm. destruct (turns_sound to_json dir port w db sess ts Hi Hts) as [_ [_ _ Hk]]. fold b in Hk.
  destruct (turns_reached to_json dir port w db sess ts Hts) as (fin & hs & audio & [Ha Hsys Harr Hh]). fold b in Ha, Hsys, Harr.
  destruct (audio_recordings dir owner w b fin audio Hsep Ha) as (Hnd & _ & _ & _ & Haudio).
  destruct (happens_consistent to_json hs db sess Hi Hh) as [_ Htasks Hstored _]. rewrite <- Hsys in Htasks, Hstored.
  rewrite Hsys in Hm. destruct (happens_mail to_json db sess hs a m Hm) as (k & t & e & Ht & He & ->). rewrite <- Hsys in Ht.
  destruct t as [| | |[e'|]]; try done. injection He as ->.
  destruct (Forall2_lookup_r _ _ _ _ _ Htasks Ht) as (ne & Hne & Hf). cbn in Hf. exists e, ne. split_and!; [done|done| | |].
  - by apply (Hstored k (Done (Ok e))).
  - rewrite Forall_lookup in Hk. apply (Hk k _ Ht).
  - assert (ne ∈ audio ++ (EventServer.mailbox (bk_boards b)).*2) as [Hin|Hin]%elem_of_app
      by (rewrite <- Harr; by eapply list_elem_of_lookup_2).
    + right. assert (untimed ne ∈ map untimed audio) as Hu by (apply list_elem_of_fmap; by exists ne).
      rewrite Haudio in Hu. apply elem_of_app in Hu as [Hu|Hu].
      * apply reported_recorded in Hu as (c & spec & dev & r & i & Hc & [= _ Hp Hd] & Hri). exists c, i. rewrite Hf. cbn. rewrite Hd, Hp.
        split; [|done]. exists spec, r. split; [done|by left].
      * apply in_progress_recorded in Hu as (c & spec & dev & r & i & [sq xs] & Hcf & Hc & [= _ Hp Hd] & Hri & Hwh). exists c, i. rewrite Hf. cbn. rewrite Hd, Hp.
        split; [|done]. exists spec, r. split; [done|]. right. exists xs. split; [|by exists sq].
        intros Hch. apply NoDup_app in Hnd as (_ & Hnd & _). by apply (Hnd c).
    + left. apply list_elem_of_fmap in Hin as ([stream ne'] & -> & Hin). by exists stream.
Qed.

(** The samples of a recording are in its file, which a GET delivers. *)
Lemma recording_file port (owner : Uuid -> SocketAddr) (w : W) (db : DB) (sess : WsManager.Sessions (Addr := Addr)) ts c i spec xs :
  let b := turns (AcceptError := AcceptError) to_json ts (backend_start dir port w db sess : backend) in
  Forall harmless_turn ts -> separate owner (bk_packets b) -> recording_samples b c i spec xs ->
  wav_file (bk_world b) (path_push dir (wav_name i)) = Some (spec_to_wav spec, xs).
Proof using L UL HL HT.
  intros b Hts Hsep (dev & r & Hc & Hxs). destruct (turns_reached to_json dir port w db sess ts Hts) as (fin & hs & audio & [Ha _ _ _]).
  fold b in Ha. destruct (audio_recordings dir owner w b fin audio Hsep Ha) as (_ & Hcl & _ & Hf & _).
  destruct (Hf c spec dev r i Hc) as [Hopen Hstored]. unfold file_of in Hopen, Hstored. rewrite SoundFlow.wav_path_push in Hopen, Hstored.
  destruct Hxs as [Hxs|(Hch & sq & Hxs & Hwh)]; [by apply Hstored|]. apply (Hopen sq); [|done..].
  assert (c ∈ fin.*1 ++ (handlers b).*1) as [?|?]%elem_of_app by (apply Hcl; by rewrite Hc); done.
Qed.

(** C2: what a browser sees, in a run of the whole backend in which no device is
    deleted, no recording id is used from two addresses, and the host of the
    recordings fails by the rules of [hound] only. Every text on the socket of a
    session is that of an event, of a device of which a secret was presented,
    with the times of its message; the row of that event in the database is the
    same with the times as a column keeps them. It is an event that a board sent,
    or one that names a recording which a client of that device has ended, or was
    cut off in by the end of the backend. And as long as the HTTP server runs, a
    page of the frontend that asks for the file of that name gets it, with the
    samples of the recording in the client's format, unless a late chunk has
    reopened it. *)
Theorem browsers_hear_recordings (port : Z) (owner : Uuid -> SocketAddr) (w : W) (db : DB)
    (sess : WsManager.Sessions (Addr := Addr)) (vs : list Visit) (a : Addr) (text : string) :
  let s := visits vs (site_start dir port w db sess) in
  let b := si_backend s in
  integrity (tables_of db) -> safe vs -> separate owner (bk_packets b) ->
  text ∈ se_socket (si_session s a) ->
  exists e, text = to_json e /\ t_events (tables_of (sys_db (bk_system b))) !! event_id e = Some (DbTypes.stored_event e) /\
    authenticated b (event_device_id e) /\
    ((exists stream ne, (stream, ne) ∈ EventServer.mailbox (bk_boards b) /\ event_for ne e) \/
     (exists c i, sent_recording b c (event_device_id e) i /\ event_payload e = DbTypes.Sound (wav_name i) /\
        forall spec xs req, recording_samples b c i spec xs -> http_serves s = true ->
          admitted cors req = true -> HttpService.rq_method (wr_request req) = GET ->
          HttpService.rq_path (wr_request req) = ["static"; "wav"; wav_name i] ->
          exists file, http_answer req s = Some (Ok (Delivered file)) /\ wav_file (bk_world b) file = Some (spec_to_wav spec, xs))).
Proof using All.
  intros s b Hi Hvs Hsep Htext.
  destruct (visits_turns to_json mailbox_to_string diesel_to_string datetime_to_json secret_to_hex parse_id refusal dir vs
    (site_start dir port w db sess)) as (ts & Hb & Hts). specialize (Hts Hvs). fold s b in Hb. cbn [si_backend site_start] in Hb. rewrite Hb in Hsep.
  pose proof (visits_ok to_json mailbox_to_string diesel_to_string datetime_to_json secret_to_hex parse_id refusal dir vs _
    (site_start_ok dir port w db sess) a) as Hok.
  fold s b in Hok.
  assert (exists m, (a, m) ∈ sys_mail (bk_system b) /\ session_handle m = text) as (m & Hm & <-).
  { unfold session_ok in Hok. assert (text ∈ texts (texts_to a (sys_mail (bk_system b)))) as Ht.
    { destruct (se_running (si_session s a)); [destruct Hok as [<- _]; apply elem_of_app; by left|].
      destruct Hok as (_ & [rest ->] & _). apply elem_of_app. by left. }
    apply list_elem_of_fmap in Ht as (m & -> & Hm). exists m. split; [|done].
    apply list_elem_of_omap in Hm as ([a' m'] & Hin & Heq). case_decide; simplify_eq. done. }
  rewrite Hb in Hm. destruct (mail_sources port owner w db sess ts a m Hi Hts Hsep Hm) as (e & ne & -> & Hf & Hdb & Hauth & Hsrc).
  rewrite <- Hb in *. exists e. split_and!; [done..|].
  destruct Hsrc as [[stream Hin]|(c & i & Hsent & Hp)]; [left; by exists stream, ne|right].
  exists c, i. split_and!; [done..|]. intros spec xs req Hxs Hhttp Hadm Hmethod Hpath.
  assert (wav_file (bk_world b) (path_push dir (wav_name i)) = Some (spec_to_wav spec, xs)) as Hfile.
  { rewrite Hb. apply (recording_file port owner w db sess ts c i); rewrite <- ?Hb; done. }
  exists (path_push dir (wav_name i)). split; [|done]. unfold Site.http_answer. rewrite Hhttp.
  fold b. by rewrite (get_delivers mailbox_to_string diesel_to_string datetime_to_json secret_to_hex parse_id refusal uuid_text wav_file_exists
    dir _ i _ req (web_state s) Hfile).
Qed.

(** C3: a browser that has opened the websocket hears of every event. Whatever
    the backend has done before, a GET of /ws/event whose handshake succeeds is
    answered by the upgrade; then, whatever the services, the other requests
    and the sessions do, the text of each event whose handling is completed
    afterwards is on the socket of that session or waits in its mailbox, as
    long as the session runs, and the session's own turns write it out. *)
Theorem browser_hears_every_event (port : Z) (w : W) (db : DB) (sess : WsManager.Sessions (Addr := Addr))
    (vs vs' : list Visit) (req : WebRequest) (a : Addr) (i : nat) (e : DbTypes.Event) :
  let s0 := visits vs (site_start dir port w db sess) in
  let s := visits vs' (visits [Visits req] s0) in
  let tasks s := sys_tasks (bk_system (si_backend s)) in
  http_serves s0 = true -> admitted cors req = true -> HttpService.rq_method (wr_request req) = GET ->
  HttpService.rq_path (wr_request req) = ["ws"; "event"] -> wr_session req = Some a ->
  tasks s0 !! i <> Some (Done (Ok e)) -> tasks s !! i = Some (Done (Ok e)) ->
  se_running (si_session s a) = true ->
  http_answer req s0 = Some (Ok Upgraded) /\
  to_json e ∈ se_socket (si_session s a) ++ texts (se_mailbox (si_session s a)) /\
  (bk_stopped (si_backend s) = false ->
   to_json e ∈ se_socket (si_session (visits (replicate (length (se_mailbox (si_session s a))) (SessionNext a)) s) a)).
Proof using CL.
  intros s0 s tasks Hs Hadm Hm Hp Ha Hn Ht Hr.
  destruct (upgraded_listens (AcceptError := AcceptError) to_json mailbox_to_string diesel_to_string datetime_to_json secret_to_hex parse_id refusal dir
    s0 req a Hs Hadm Hm Hp Ha) as [Hup Hl].
  assert (to_json e ∈ se_socket (si_session s a) ++ texts (se_mailbox (si_session s a))) as Hin.
  { pose proof (visits_ok (AcceptError := AcceptError) to_json mailbox_to_string diesel_to_string datetime_to_json secret_to_hex parse_id refusal dir (vs ++ Visits req :: vs') _
      (site_start_ok dir port w db sess) a) as Hok.
    unfold Site.visits in Hok. rewrite foldl_app in Hok. change (foldl _ _ (Visits req :: vs')) with s in Hok.
    unfold session_ok in Hok. rewrite Hr in Hok. destruct Hok as [-> _].
    destruct (visits_system (AcceptError := AcceptError) to_json mailbox_to_string diesel_to_string datetime_to_json secret_to_hex parse_id refusal dir [Visits req] s0)
      as [hs1 H1].
    destruct (visits_system (AcceptError := AcceptError) to_json mailbox_to_string diesel_to_string datetime_to_json secret_to_hex parse_id refusal dir vs'
      (visits [Visits req] s0)) as [hs2 H2].
    assert ((a, Text (to_json e)) ∈ sys_mail (bk_system (si_backend s))) as Hmail.
    { fold s in H2. rewrite H2. apply (happens_heard to_json hs2 _ i); [exact Hl| |by rewrite <- H2].
      destruct (http_serves s0) eqn:Eh; [|done]. apply andb_true_iff in Eh as [Eb%negb_true_iff Ee%negb_true_iff].
      cbn. unfold visit. by rewrite Eb, Ee. }
    apply list_elem_of_fmap. exists (Text (to_json e)). split; [done|]. apply list_elem_of_omap. exists (a, Text (to_json e)).
    split; [done|]. by rewrite decide_True. }
  split_and!; [done..|]. intros Hb. by rewrite session_empties.
Qed.
End Properties.

(** ** Witness: a browser, and the clients of [AudioService] *)

Import LittleEndian.Instances.
#[local] Existing Instances MemStore.chrono_pair store_postgres store_laws Backend.files_host Shutdown.files_laws Backend.actix_signals
  hound_rules Shutdown.files_reliable plain_cors plain_cors_laws.
#[local] Instance site_files : StaticFiles files := map_files.
#[local] Instance site_files_laws : StaticFilesLaws files := map_files_laws.

Lemma hosted_exists (w : files) p x : wav_file (W := files) (Wr := mem_writer) w p = Some x -> file_exists w p = true.
Proof. intros Hx. apply bool_decide_eq_true. exists x. exact Hx. Qed.

Definition Visit0 : Type := Visit (Addr := nat) (Stream := nat) (AcceptError := ()).
(** The browser opens the websocket of the session 5. *)
Definition open5 : WebRequest (Addr := nat) :=
  mkWebRequest (HttpService.mkRequest GET ["ws"; "event"] HttpService.NoBody 0 None) (Some 5%nat) page false.
Definition get_wav (i : Uuid) : WebRequest (Addr := nat) :=
  web0 (HttpService.mkRequest GET ["static"; "wav"; wav_name i] HttpService.NoBody 0 None) page false.
(** The clients send their packets, and the event of the recording is handled. *)
Definition serve2 : list Visit0 :=
  map (fun p => Service (AudioPacket (pk_buf p) (pk_from p) None)) packets2 ++
  [Service (Processor (Resume 0)); Service (Processor (Resume 0)); Service (Processor (Resume 0))].
Abbreviation visits0 vs s :=
  (visits json0 HttpService.no_text HttpService.no_text HttpService.no_json hex16 HttpService.parse0 refusal0 "wav" (vs : list Visit0) s).
Abbreviation start0 := (site_start "wav" 3002 no_files EventFlow.stored42 no_sessions).
Abbreviation site0 := (visits0 ([Visits open5] ++ serve2 ++ [SessionNext 5%nat]) start0).

Example site0_socket : (se_socket (si_session site0 5%nat), http_serves site0, si_log site0) =
  (["{}"], true, [mkLogLine GET ["ws"; "event"] 101]).
Proof. vm_compute. reflexivity. Qed.

Lemma browsers_hear_recordings_witness :
  exists e c i, t_events (tables_of (sys_db (bk_system (si_backend site0)))) !! event_id e = Some (DbTypes.stored_event e) /\
    sent_recording (si_backend site0) c (event_device_id e) i /\
    forall spec xs, recording_samples (si_backend site0) c i spec xs ->
      exists file, http_answer HttpService.no_text HttpService.no_text HttpService.no_json hex16 HttpService.parse0 refusal0 "wav"
          (get_wav i) site0 = Some (Ok (Delivered file)) /\
        wav_file (bk_world (si_backend site0)) file = Some (spec_to_wav spec, xs).
Proof.
  assert (separate owner2 (bk_packets (si_backend site0))) as Hsep by (apply separateb_ok; vm_compute; reflexivity).
  assert (Forall (harmless_step HttpService.parse0) ([Visits open5] ++ serve2 ++ [SessionNext 5%nat])) as Hvs
    by (repeat (apply Forall_cons; split; [vm_compute; exact I|]); apply Forall_nil; exact I).
  assert ("{}" ∈ se_socket (si_session site0 5%nat)) as Ht.
  { assert (se_socket (si_session site0 5%nat) = ["{}"]) as -> by (vm_compute; reflexivity). left. }
  destruct (browsers_hear_recordings (Wr := mem_writer) json0 HttpService.no_text HttpService.no_text HttpService.no_json hex16 HttpService.parse0 refusal0
    uuid16_plain hosted_exists "wav" 3002 owner2 no_files EventFlow.stored42 no_sessions _ 5%nat "{}" stored42_integrity Hvs Hsep Ht)
    as (e & _ & He & _ & [(stream & ne & Hin & _)|(c & i & Hs & _ & Hget)]).
  - assert (length (EventServer.mailbox (bk_boards (si_backend site0))) = 0%nat) as Hn by (vm_compute; reflexivity).
    apply length_zero_iff_nil in Hn. rewrite Hn in Hin. apply not_elem_of_nil in Hin. destruct Hin.
  - exists e, c, i. split; [exact He|split; [exact Hs|]]. intros spec xs Hxs.
    apply (Hget spec xs (get_wav i) Hxs); [vm_compute|..]; reflexivity.
Defined.

(** The event of the recording, that the session is told of. *)
Lemma browser_hears_every_event_witness :
  exists e, sys_tasks (bk_system (si_backend (visits0 serve2 (visits0 [Visits open5] start0)))) !! 0%nat = Some (Done (Ok e)) /\
    json0 e ∈ se_socket (si_session (visits0 (replicate 1 (SessionNext 5%nat)) (visits0 serve2 (visits0 [Visits open5] start0))) 5%nat).
Proof.
  assert (match sys_tasks (bk_system (si_backend (visits0 serve2 (visits0 [Visits open5] start0)))) with
    [Done (Ok _)] => true | _ => false end = true) as Hb by (vm_compute; reflexivity).
  destruct (sys_tasks (bk_system (si_backend (visits0 serve2 (visits0 [Visits open5] start0))))) as [|[| | |[e|]] [|]] eqn:Htasks;
    try discriminate Hb. exists e. split; [reflexivity|].
  pose proof (browser_hears_every_event (AcceptError := ()) json0 HttpService.no_text HttpService.no_text HttpService.no_json hex16 HttpService.parse0
    refusal0 "wav" 3002 no_files EventFlow.stored42 no_sessions [] serve2 open5 5%nat 0%nat e) as H.
  assert (sys_tasks (bk_system (si_backend (visits0 serve2 (visits0 [Visits open5] start0)))) !! 0%nat = Some (Done (Ok e))) as Ht
    by (rewrite Htasks; reflexivity).
  destruct (fun h0 h1 h2 h3 => H h0 h1 eq_refl eq_refl eq_refl h2 Ht h3) as (_ & _ & Hs).
  - vm_compute. reflexivity.
  - vm_compute. reflexivity.
  - intros Hx%lookup_lt_Some. exact (Nat.nlt_0_r _ Hx).
  - vm_compute. reflexivity.
  - assert (length (se_mailbox (si_session (visits0 serve2 (visits0 [Visits open5] start0)) 5%nat)) = 1%nat) as Hl by (vm_compute; reflexivity).
    rewrite <- Hl. apply Hs. vm_compute. reflexivity.
Defined.
