(* ===== verification/Logger.v ===== *)
(** * The log level (backend/src/logger.rs) *)
From S2P Require Import Prelude.
From Stdlib Require Import Ascii.

Inductive Level : Type := Trace | Debug_ | Info_ | Warn | Error | Critical.

(** [slog::Level]. *)
Inductive SlogLevel : Type := SlogTrace | SlogDebug | SlogInfo | SlogWarning | SlogError | SlogCritical.

(** [str::to_ascii_lowercase]. *)
Definition to_ascii_lowercase_char (c : ascii) : ascii :=
  let n := nat_of_ascii c in
  if (65 <=? n)%nat && (n <=? 90)%nat then ascii_of_nat (n + 32) else c.
Fixpoint to_ascii_lowercase (s : string) : string :=
  match s with
  | EmptyString => EmptyString
  | String c s => String (to_ascii_lowercase_char c) (to_ascii_lowercase s)
  end.

(** [Level::from_str]. *)
Definition level_from_str (level : string) : result Level string :=
  let s := to_ascii_lowercase level in
  if String.eqb s "trace" then Ok Trace
  else if String.eqb s "debug" then Ok Debug_
  else if String.eqb s "info" then Ok Info_
  else if String.eqb s "warn" then Ok Warn
  else if String.eqb s "error" then Ok Error
  else if String.eqb s "critical" then Ok Error
  else Err ("log level " +:+ level +:+ " is not supported")%stdpp.

Definition level_to_slog (level : Level) : SlogLevel :=
  match level with
  | Trace => SlogTrace
  | Debug_ => SlogDebug
  | Info_ => SlogInfo
  | Warn => SlogWarning
  | Error => SlogError
  | Critical => SlogCritical
  end.

(** The level [Critical] exists but no text gives it: "critical" is read as
    [Error]. *)
Lemma no_text_is_critical (level : string) : level_from_str level <> Ok Critical.
Proof. unfold level_from_str. by repeat case_match. Qed.

Example level_from_str_critical : level_from_str "CRITICAL" = Ok Error.
Proof. reflexivity. Qed.

(** ** [Config::build]: what reaches the terminal *)

Record LogRecord : Type := mkLogRecord {
  lr_level : SlogLevel;
  lr_message : string;
}.

(** [slog::Level::as_usize], and [is_at_least]: as severe or more. *)
Definition level_number (l : SlogLevel) : nat :=
  match l with
  | SlogCritical => 1
  | SlogError => 2
  | SlogWarning => 3
  | SlogInfo => 4
  | SlogDebug => 5
  | SlogTrace => 6
  end.
Definition is_at_least (record filter : SlogLevel) : bool := (level_number record <=? level_number filter)%nat.

(** The drains, outermost last: [FullFormat] with the custom time stamp
    ([full_format]), [LevelFilter] with the level of the options, [Async], which
    hands the records on in their order. *)
Definition level_filter (level : SlogLevel) (rs : list LogRecord) : list LogRecord :=
  filter (fun r => is_at_least (lr_level r) level = true) rs.
Definition logger_build (full_format : LogRecord -> string) (log_level : Level) (rs : list LogRecord) : list string :=
  map full_format (level_filter (level_to_slog log_level) rs).

(** The levels a text can give: each shows what the ones before it show. *)
Lemma level_filter_mono (l m : SlogLevel) (rs : list LogRecord) :
  (level_number l <= level_number m)%nat -> level_filter l rs `sublist_of` level_filter m rs.
Proof.
  intros Hlm. induction rs as [|r rs IH]; [done|]. unfold level_filter in *. rewrite !filter_cons. unfold is_at_least in *.
  repeat case_decide; [by apply sublist_skip| |by apply sublist_cons|done].
  exfalso. rewrite Nat.leb_le in *. lia.
Qed.
