(* ===== verification/Lifecycle.v ===== *)
(** * The lives of the actors (backend/src/actor)

    What the [Actor] and [WriteHandler] implementations of the servers and
    handlers do when actix starts and stops them, or fails to write for them:
    they log, and say whether the actor goes on. The websocket session is in
    [Sessions]; what the audio handler does to its recordings as it stops is
    [AudioHandler.stopping]. *)
From S2P Require Import Prelude ParseInt Logger.
Open Scope Z_scope.

(** [actix::Running]. *)
Inductive Running : Type := Stop | Continue.

(** [started], [stopping], [stopped], and [WriteHandler::error], with the text
    of the error, for the actors that write to a socket. *)
Record Lifecycle : Type := mkLifecycle {
  started : LogRecord;
  stopping : LogRecord * Running;
  stopped : LogRecord;
  write_error : option (string -> LogRecord * Running);
}.

Definition info (message : string) : LogRecord := mkLogRecord SlogInfo message.
Definition error (message : string) : LogRecord := mkLogRecord SlogError message.

(** [WriteHandler::error]: the actors go on. *)
Definition audio_server_error (e : string) : LogRecord * Running :=
  (error ("failed to write audio response, error: " +:+ e)%stdpp, Continue).
Definition event_handler_error (e : string) : LogRecord * Running :=
  (error ("failed to write event response, error: " +:+ e)%stdpp, Continue).

(** The ports are [u16]. *)
Definition audio_server_life (port : Z) : Lifecycle := mkLifecycle
  (info ("audio server listen on port " +:+ decimal 5 port)%stdpp)
  (info "audio server is stopping", Stop)
  (info "audio server stopped")
  (Some audio_server_error).
Definition audio_handler_life : Lifecycle := mkLifecycle
  (info "audio handler started") (info "audio handler is stopping", Stop) (info "audio handler stopped") None.
Definition event_server_life (port : Z) : Lifecycle := mkLifecycle
  (info ("event server listen on port " +:+ decimal 5 port)%stdpp)
  (info "event server is stopping", Stop)
  (info "event server stopped") None.
Definition event_handler_life : Lifecycle := mkLifecycle
  (info "event handler started") (info "event handler is stopping", Stop) (info "event handler stopped")
  (Some event_handler_error).
Definition event_processor_life : Lifecycle := mkLifecycle
  (info "event processor started") (info "event processor is stopping", Stop) (info "event processor stopped") None.

Definition lives (port : Z) : list Lifecycle :=
  [audio_server_life port; audio_handler_life; event_server_life port; event_handler_life; event_processor_life].

(** ** actix: an actor runs until it is told to stop, and agrees *)

(** [ctx.stop()], the end of its stream, or the loss of its last address; a
    failed write. *)
Inductive Occurrence : Type := Stopping | WriteFails (e : string).

(** The actor runs, and what it has logged. *)
Definition stop (lc : Lifecycle) (log : list LogRecord) : bool * list LogRecord :=
  match stopping lc with
  | (r, Stop) => (false, log ++ [r; stopped lc])
  | (r, Continue) => (true, log ++ [r])
  end.
Definition occur (lc : Lifecycle) (s : bool * list LogRecord) (o : Occurrence) : bool * list LogRecord :=
  match s, o with
  | (true, log), Stopping => stop lc log
  | (true, log), WriteFails e =>
      match write_error lc with
      | Some f => match f e with
          | (r, Continue) => (true, log ++ [r])
          | (r, Stop) => stop lc (log ++ [r])
          end
      | None => s
      end
  | (false, _), _ => s
  end.
Definition life (lc : Lifecycle) (os : list Occurrence) : bool * list LogRecord := foldl (occur lc) (true, [started lc]) os.

(** The failures before the actor is told to stop. *)
Fixpoint failures (os : list Occurrence) : list string :=
  match os with
  | WriteFails e :: os => e :: failures os
  | _ => []
  end.
Definition told_to_stop (os : list Occurrence) : bool := existsb (fun o => match o with Stopping => true | _ => false end) os.

(** None of the actors refuses to stop, or stops for a failed write: each logs
    its start, the failures, and, the first time it is told, its stop. *)
Lemma lives_end (port : Z) (lc : Lifecycle) (os : list Occurrence) :
  lc ∈ lives port ->
  life lc os = (negb (told_to_stop os),
    started lc :: match write_error lc with Some f => map (fun e => fst (f e)) (failures os) | None => [] end ++
    if told_to_stop os then [fst (stopping lc); stopped lc] else []).
Proof.
  intros Hlc. unfold life.
  assert (Hdead : forall log os, foldl (occur lc) (false, log) os = (false, log)) by (intros log os'; by induction os').
  enough (Hgo : forall log, foldl (occur lc) (true, log) os = (negb (told_to_stop os),
    log ++ match write_error lc with Some f => map (fun e => fst (f e)) (failures os) | None => [] end ++
    if told_to_stop os then [fst (stopping lc); stopped lc] else [])) by apply Hgo.
  assert (Hstop : snd (stopping lc) = Stop /\ forall f e, write_error lc = Some f -> snd (f e) = Continue).
  { unfold lives in Hlc. rewrite !elem_of_cons in Hlc. repeat destruct Hlc as [->|Hlc];
      (split; [done|]; intros f e Hf; by simplify_eq/=) || by apply not_elem_of_nil in Hlc. }
  destruct Hstop as [Hs Hw]. induction os as [|o os IH]; intros log; [cbn; by destruct (write_error lc); rewrite app_nil_r|].
  destruct o as [|e]; cbn [foldl occur told_to_stop existsb failures negb orb].
  - unfold stop. destruct (stopping lc) as [r b]. cbn in Hs |- *. subst b. rewrite Hdead. by destruct (write_error lc).
  - destruct (write_error lc) as [f|] eqn:Ef; [|apply IH]. pose proof (Hw f e eq_refl) as Hc.
    destruct (f e) as [r b] eqn:Efe. cbn in Hc. subst b. rewrite IH. cbn. by rewrite Efe, <- app_assoc.
Qed.

(** At the default level, everything the actors log about their lives is on the
    terminal; at the level [Error], the failures only. *)
Lemma lives_shown (port : Z) (lc : Lifecycle) (os : list Occurrence) :
  lc ∈ lives port ->
  level_filter (level_to_slog Info_) (snd (life lc os)) = snd (life lc os) /\
  level_filter (level_to_slog Error) (snd (life lc os)) =
    match write_error lc with Some f => map (fun e => fst (f e)) (failures os) | None => [] end.
Proof.
  intros Hlc. rewrite (lives_end port lc os Hlc).
  assert (Hlev : lr_level (started lc) = SlogInfo /\ lr_level (fst (stopping lc)) = SlogInfo /\ lr_level (stopped lc) = SlogInfo /\
    forall f e, write_error lc = Some f -> lr_level (fst (f e)) = SlogError).
  { unfold lives in Hlc. rewrite !elem_of_cons in Hlc. repeat destruct Hlc as [->|Hlc];
      (split_and!; [done..|]; intros f e Hf; by simplify_eq/=) || by apply not_elem_of_nil in Hlc. }
  destruct Hlev as (H1 & H2 & H3 & Hf). cbn [snd]. unfold level_filter. split.
  - apply filter_all. intros r [->|[Hr|Hr]%elem_of_app]%elem_of_cons; [by rewrite H1| |].
    + destruct (write_error lc) as [f|]; [|by apply not_elem_of_nil in Hr]. apply list_elem_of_fmap in Hr as (e & -> & _).
      by rewrite (Hf f e eq_refl).
    + destruct (told_to_stop os); [|by apply not_elem_of_nil in Hr].
      rewrite !elem_of_cons in Hr. destruct Hr as [->|[->|?%not_elem_of_nil]]; [by rewrite H2|by rewrite H3|done].
  - rewrite filter_cons_False, filter_app by (by rewrite H1). rewrite (filter_all _ (match write_error lc with _ => _ end)).
    + destruct (told_to_stop os); [|by rewrite app_nil_r].
      rewrite !filter_cons_False by (by rewrite ?H2, ?H3). apply app_nil_r.
    + intros r Hr. destruct (write_error lc) as [f|]; [|by apply not_elem_of_nil in Hr].
      apply list_elem_of_fmap in Hr as (e & -> & _). by rewrite (Hf f e eq_refl).
Qed.
