(* ===== verification/Startup.v ===== *)
(** * Start-up of the backend (backend/src/main.rs and the builders it calls)

    [Config] of every service, read from the command line and the environment;
    [Config::build] of the database, the HTTP server, the audio server and the
    event server; and [main], which calls them in order, waits for the HTTP
    server and stops the system. The operating system and the connection pool
    are an interface. *)
From S2P Require Import Prelude MachineInt ParseInt Logger.
From S2P Require DbTypes.
Open Scope Z_scope.

(** ** Configuration *)

(** audio_server.rs, event_server.rs, http/server.rs; the others are
    [Logger.Level] for logger.rs and [DbTypes.Config] for db/mod.rs. *)
Record AudioConfig : Type := mkAudioConfig {
  audio_server_port : Z;
  audio_wav_directory : string;
}.
Record EventConfig : Type := mkEventConfig { event_server_port : Z }.
Record HttpConfig : Type := mkHttpConfig { server_port : Z }.

Record Config : Type := mkConfig {
  logger : Level;
  db : DbTypes.Config;
  audio_server : AudioConfig;
  event_server : EventConfig;
  http : HttpConfig;
}.

Definition parse_u16 (s : string) : option Z := res_ok (from_str_radix 10 16 s).

Section FromArgs.
(** [structopt]: the text of a long option on the command line, and of a
    variable of the environment. *)
Context (flag env : string -> option string).

(** The command line goes first, then the environment, then the default. *)
Definition arg (long variable default_value : string) : string :=
  match flag long with
  | Some v => v
  | None => default default_value (env variable)
  end.

Definition logger_config : option Level := res_ok (level_from_str (arg "log-level" "LOG_LEVEL" "info")).

Definition db_config : option DbTypes.Config :=
  port ← parse_u16 (arg "db-port" "DB_PORT" "5432");
  Some (DbTypes.mkConfig (arg "db-host" "DB_HOST" "localhost") port (arg "db-name" "DB_NAME" "bug")
    (arg "db-user" "DB_USER" "dev") (arg "db-password" "DB_PASSWORD" "dev")).

Definition audio_config : option AudioConfig :=
  port ← parse_u16 (arg "audio-server-port" "AUDIO_SERVER_PORT" "3003");
  Some (mkAudioConfig port (arg "audio-wav-directory" "AUDIO_WAV_DIRECTORY" "./wav")).

Definition event_config : option EventConfig :=
  port ← parse_u16 (arg "event-server-port" "EVENT_SERVER_PORT" "3002"); Some (mkEventConfig port).

Definition http_config : option HttpConfig :=
  port ← parse_u16 (arg "server-port" "SERVER_PORT" "3001"); Some (mkHttpConfig port).

(** [Config::from_args]; [None] is the exit with a message about a value that
    does not parse. *)
Definition from_args : option Config :=
  l ← logger_config; d ← db_config; a ← audio_config; e ← event_config; h ← http_config;
  Some (mkConfig l d a e h).
End FromArgs.

(** ** The operating system *)

Inductive Transport : Type := Tcp | Udp.
#[export] Instance Transport_eq_dec : EqDecision Transport.
Proof. solve_decision. Defined.

Class Os (W : Type) := {
  (** A socket bound to a port of every interface, and the directory. *)
  bound : W -> Transport -> Z -> bool;
  exists_ : string -> W -> bool;
  is_dir : string -> W -> bool;
  creatable : string -> W -> bool;
  bind_socket : Transport -> Z -> W -> result () string * W;
  create_dir_all : string -> W -> result () string * W;
  (** [Pool::builder().build(...)]: opens the connections to the database. *)
  pool_build : string -> W -> result () string * W;
}.

Definition same_files `{Os W} (w w' : W) : Prop :=
  forall p, exists_ p w' = exists_ p w /\ is_dir p w' = is_dir p w /\ creatable p w' = creatable p w.
Definition same_sockets `{Os W} (w w' : W) : Prop := forall t port, bound w' t port = bound w t port.

(** An address is bound once, except that port 0 stands for any free port; what
    an operation does not concern it leaves. *)
Class OsLaws (W : Type) `{Os W} : Prop := {
  bind_spec : forall t port w, let (r, w') := bind_socket t port w in
    same_files w w' /\
    match r with
    | Ok _ => (forall u p, bound w u p = true -> bound w' u p = true) /\
        (port <> 0 -> bound w t port = false /\
           forall u p, bound w' u p = bound w u p || bool_decide ((u, p) = (t, port)))
    | Err _ => same_sockets w w'
    end;
  create_dir_spec : forall p w, let (r, w') := create_dir_all p w in
    same_sockets w w' /\ (is_ok r = true -> is_dir p w' = true);
  pool_spec : forall dsn w, let (_, w') := pool_build dsn w in same_files w w' /\ same_sockets w w';
}.
(** What is free can be had. *)
Class OsTotal (W : Type) `{Os W} : Prop := {
  bind_free : forall t port w, bound w t port = false -> is_ok (fst (bind_socket t port w)) = true;
  create_dir_free : forall p w, is_ok (fst (create_dir_all p w)) = creatable p w;
}.

(** ** The builders *)

Inductive Service : Type :=
| Database (dsn : string) (threads : nat)
| WsManager
| HttpServer (port : Z) (audio_wav_directory : string)
| EventProcessor
| AudioServer (port : Z) (wav_directory : string)
| EventServer (port : Z).

Section Main.
Context {W : Type} `{Os W} (num_cpus : nat).

(** The machine, the services that run on it, and whether the actor system was
    told to stop. *)
Record Machine : Type := mkMachine { os : W; started : list Service; stopped : bool }.
Definition boot (A : Type) : Type := Machine -> result A string * Machine.
Definition ret {A} (a : A) : boot A := fun m => (Ok a, m).
Definition fail {A} (e : string) : boot A := fun m => (Err e, m).
Definition bind {A B} (c : boot A) (k : A -> boot B) : boot B := fun m =>
  match c m with
  | (Ok a, m) => k a m
  | (Err e, m) => (Err e, m)
  end.
Definition call {A} (op : W -> result A string * W) : boot A := fun m =>
  let (r, w) := op (os m) in (r, mkMachine w (started m) (stopped m)).
Definition start (s : Service) : boot () := fun m => (Ok tt, mkMachine (os m) (started m ++ [s]) (stopped m)).
Notation "'let!' x := c 'in' k" := (bind c (fun x => k)) (at level 10, x name, c at level 200, k at level 200).

Definition db_build (c : DbTypes.Config) : boot () :=
  let! _ := call (pool_build (DbTypes.build_dsn c)) in
  start (Database (DbTypes.build_dsn c) num_cpus).

Definition http_build (c : HttpConfig) (audio_server_config : AudioConfig) : boot () :=
  let! _ := start WsManager in
  let! _ := call (bind_socket Tcp (server_port c)) in
  start (HttpServer (server_port c) (audio_wav_directory audio_server_config)).

Definition processor_start : boot () := start EventProcessor.

Definition ensure_directory (path_str : string) : boot string := fun m =>
  (if exists_ path_str (os m) then
     if negb (is_dir path_str (os m)) then
       fail ("file with same name `" +:+ path_str +:+ "` already exists")%stdpp
     else ret path_str
   else
     let! _ := call (create_dir_all path_str) in ret path_str) m.

Definition bind_udp_socket (port : Z) : boot () := call (bind_socket Udp port).
Definition audio_build (c : AudioConfig) : boot () :=
  let! wav_directory := ensure_directory (audio_wav_directory c) in
  let! _ := bind_udp_socket (audio_server_port c) in
  start (AudioServer (audio_server_port c) wav_directory).

Definition bind_tcp_listener (port : Z) : boot () := call (bind_socket Tcp port).
Definition event_build (c : EventConfig) : boot () :=
  let! _ := bind_tcp_listener (event_server_port c) in
  start (EventServer (event_server_port c)).

(** [System::current().stop()]. *)
Definition system_stop : boot () := fun m => (Ok tt, mkMachine (os m) (started m) true).

(** [main], after the arguments; [served] is how the HTTP server ended. *)
Definition build_all (config : Config) : boot () :=
  let! _ := db_build (db config) in
  let! _ := http_build (http config) (audio_server config) in
  let! _ := processor_start in
  let! _ := audio_build (audio_server config) in
  event_build (event_server config).
Definition main (config : Config) (served : result () string) : boot () :=
  let! _ := build_all config in
  let! _ := (fun m => (served, m)) in
  system_stop.

(** ** Specification *)

Definition services (config : Config) : list Service :=
  [Database (DbTypes.build_dsn (db config)) num_cpus; WsManager;
   HttpServer (server_port (http config)) (audio_wav_directory (audio_server config)); EventProcessor;
   AudioServer (audio_server_port (audio_server config)) (audio_wav_directory (audio_server config));
   EventServer (event_server_port (event_server config))].

(** What has to succeed, in order: the connection to the database, the socket of
    the HTTP server, the directory, the sockets of the audio and of the event
    server. *)
Definition have_directory (p : string) (w : W) : result () string * W :=
  if exists_ p w then
    ((if is_dir p w then Ok tt else Err ("file with same name `" +:+ p +:+ "` already exists")%stdpp), w)
  else create_dir_all p w.
Definition obstacles (config : Config) : list (W -> result () string * W) :=
  [pool_build (DbTypes.build_dsn (db config)); bind_socket Tcp (server_port (http config));
   have_directory (audio_wav_directory (audio_server config));
   bind_socket Udp (audio_server_port (audio_server config));
   bind_socket Tcp (event_server_port (event_server config))].

(** How many of them succeed, the error of the first that does not, and the
    world they leave. *)
Fixpoint overcome (ops : list (W -> result () string * W)) (w : W) : nat * option string * W :=
  match ops with
  | [] => (0%nat, None, w)
  | op :: ops =>
      match op w with
      | (Ok _, w) => let '(k, e, w) := overcome ops w in (S k, e, w)
      | (Err e, w) => (0%nat, Some e, w)
      end
  end.
(** The number of services that run when [k] have succeeded: the manager of the
    websockets starts with the database, the event processor with the HTTP
    server. *)
Definition running (k : nat) : nat := nth k [0; 2; 4; 4; 5]%nat 6%nat.

(** The addresses the servers listen to and the directory they write in. *)
Definition listening (w : W) (t : Transport) (port : Z) : Prop := port = 0 \/ bound w t port = true.
Record ready (config : Config) (w : W) : Prop := {
  ready_http : listening w Tcp (server_port (http config));
  ready_audio : listening w Udp (audio_server_port (audio_server config));
  ready_event : listening w Tcp (event_server_port (event_server config));
  ready_directory : is_dir (audio_wav_directory (audio_server config)) w = true;
  ready_distinct : server_port (http config) = event_server_port (event_server config) -> server_port (http config) = 0;
}.

(** What the machine must offer before the start, when no port is 0: the
    database, the ports, and a directory or the place for one. *)
Definition available (config : Config) (w : W) : bool :=
  let dir := audio_wav_directory (audio_server config) in
  is_ok (fst (pool_build (DbTypes.build_dsn (db config)) w)) &&
  negb (bound w Tcp (server_port (http config))) &&
  (if exists_ dir w then is_dir dir w else creatable dir w) &&
  negb (bound w Udp (audio_server_port (audio_server config))) &&
  negb (bound w Tcp (event_server_port (event_server config))) &&
  negb (server_port (http config) =? event_server_port (event_server config)).

(** ** Lemmas *)

Context `{L : !OsLaws W}.

(** The next call to the operating system, with its law. *)
Ltac step_os :=
  cbn [os started stopped];
  match goal with
  | |- context [pool_build ?d ?w] =>
      let Hs := fresh "Hs" in pose proof (pool_spec d w) as Hs; destruct (pool_build d w) as [[[]|?] ?]
  | |- context [exists_ ?p ?w] => let E := fresh "E" in destruct (exists_ p w) eqn:E
  | |- context [is_dir ?p ?w] => let E := fresh "E" in destruct (is_dir p w) eqn:E
  | |- context [bind_socket ?t ?p ?w] =>
      let Hs := fresh "Hs" in pose proof (bind_spec t p w) as Hs; destruct (bind_socket t p w) as [[[]|?] ?]
  | |- context [create_dir_all ?p ?w] =>
      let Hs := fresh "Hs" in pose proof (create_dir_spec p w) as Hs; destruct (create_dir_all p w) as [[[]|?] ?]
  end; cbn [negb fail ret fst snd os started stopped].

Ltac unfold_build :=
  unfold build_all, db_build, http_build, processor_start, audio_build, event_build, ensure_directory,
    bind_udp_socket, bind_tcp_listener, bind, call, start.

(** The effect of a successful bind: [bind_spec]. *)
Definition bound_now (t : Transport) (port : Z) (w w' : W) : Prop :=
  (forall u p, bound w u p = true -> bound w' u p = true) /\
  (port <> 0 -> bound w t port = false /\
     forall u p, bound w' u p = bound w u p || bool_decide ((u, p) = (t, port))).

Lemma listening_keep t port w w' u p : bound_now t port w w' -> listening w u p -> listening w' u p.
Proof using Type. intros [Hk _] [->|Hb]; [by left|right; by apply Hk]. Qed.

Lemma listening_now t port w w' : bound_now t port w w' -> listening w' t port.
Proof using Type.
  intros [_ Hb]. destruct (decide (port = 0)) as [->|Hne]; [by left|right]. destruct (Hb Hne) as [_ ->].
  by rewrite bool_decide_eq_true_2, orb_true_r.
Qed.

Lemma listening_same w w' t port : same_sockets w w' -> listening w t port -> listening w' t port.
Proof using Type. intros Hs [->|Hb]; [by left|right]. by rewrite Hs. Qed.

(** The worlds after the bind of the HTTP server, the directory, and the binds
    of the audio and of the event server. *)
Lemma ready_after config w0 w1 w2 w3 w4 :
  bound_now Tcp (server_port (http config)) w0 w1 -> same_sockets w1 w2 ->
  is_dir (audio_wav_directory (audio_server config)) w2 = true ->
  bound_now Udp (audio_server_port (audio_server config)) w2 w3 -> same_files w2 w3 ->
  bound_now Tcp (event_server_port (event_server config)) w3 w4 -> same_files w3 w4 -> ready config w4.
Proof using Type.
  intros H1 H2 Hd H3 F3 H4 F4.
  assert (listening w3 Tcp (server_port (http config))) as Hh.
  { eapply listening_keep, listening_same; [done|done|]. by eapply listening_now. }
  split.
  - by eapply listening_keep.
  - eapply listening_keep; [done|]. by eapply listening_now.
  - by eapply listening_now.
  - destruct (F4 (audio_wav_directory (audio_server config))) as (_ & -> & _).
    by destruct (F3 (audio_wav_directory (audio_server config))) as (_ & -> & _).
  - intros Heq. destruct Hh as [?|Hb]; [done|]. destruct (decide (server_port (http config) = 0)) as [?|Hne]; [done|].
    destruct H4 as [_ H4]. rewrite <- Heq in H4. destruct (H4 Hne) as [Hf _]. congruence.
Qed.

Lemma build_all_spec config m :
  let (r, m') := build_all config m in
  let '(k, failure, w') := overcome (obstacles config) (os m) in
  r = match failure with Some e => Err e | None => Ok tt end /\
  m' = mkMachine w' (started m ++ take (running k) (services config)) (stopped m) /\
  match failure with Some _ => (k < 5)%nat | None => k = 5%nat /\ ready config w' end.
Proof using L.
  unfold_build. cbn [obstacles overcome]. unfold have_directory.
  step_os; [|split_and!; [done|cbn; by rewrite app_nil_r|lia]].
  step_os; [|split_and!; [done|cbn; by rewrite <- !app_assoc|lia]].
  assert (forall w', same_sockets w0 w' -> is_dir (audio_wav_directory (audio_server config)) w' = true ->
    forall w3, same_files w' w3 -> bound_now Udp (audio_server_port (audio_server config)) w' w3 ->
    forall w4, same_files w3 w4 -> bound_now Tcp (event_server_port (event_server config)) w3 w4 -> ready config w4) as Hready.
  { intros. by eapply (ready_after config w w0 w'); [apply Hs0|..]. }
  step_os; [step_os|step_os].
  all: try (split_and!; [done|cbn; by rewrite <- !app_assoc|lia]).
  all: step_os; [step_os|].
  all: try (split_and!; [done|cbn; by rewrite <- !app_assoc|lia]).
  all: split_and!; [done|cbn; by rewrite <- !app_assoc|done|].
  - eapply (Hready w0); [done|done|apply Hs1|apply Hs1|apply Hs2|apply Hs2].
  - destruct Hs1 as [? ?]. eapply (Hready w1); [done|auto|apply Hs2|apply Hs2|apply Hs3|apply Hs3].
Qed.

(** On a machine that gives what is free. *)
Lemma bind_iff `{T : !OsTotal W} t port w :
  port <> 0 -> is_ok (fst (bind_socket t port w)) = negb (bound w t port).
Proof using L.
  intros Hp. pose proof (bind_spec t port w) as Hs. pose proof (bind_free t port w) as Hf.
  destruct (bind_socket t port w) as [[[]|e] w']; cbn in *.
  - destruct Hs as (_ & _ & Hb). by destruct (Hb Hp) as [-> _].
  - destruct (bound w t port); [done|]. by specialize (Hf eq_refl).
Qed.

Lemma bind_assoc {A B D} (c : boot A) (k : A -> boot B) (k' : B -> boot D) m :
  bind (bind c k) k' m = bind c (fun a => bind (k a) k') m.
Proof using Type. unfold bind. by destruct (c m) as [[?|?] ?]. Qed.

Lemma ensure_directory_iff `{T : !OsTotal W} p m :
  let (r, m') := ensure_directory p m in
  same_sockets (os m) (os m') /\ r = (match r with Ok _ => Ok p | Err e => Err e end) /\
  is_ok r = (if exists_ p (os m) then is_dir p (os m) else creatable p (os m)).
Proof using L.
  unfold ensure_directory, bind, call. pose proof (create_dir_spec p (os m)) as Hs. pose proof (create_dir_free p (os m)) as Hf.
  destruct (exists_ p (os m)); [by destruct (is_dir p (os m))|].
  destruct (create_dir_all p (os m)) as [[[]|e] w]; cbn in *; (split; [apply Hs|done]).
Qed.

(** The sockets of the audio and of the event server, where the port of the
    HTTP server is bound. *)
Lemma binds_iff `{T : !OsTotal W} (http_port ap ep : Z) (s : Service) (w0 : W) (m : Machine) :
  ap <> 0 -> ep <> 0 ->
  (forall u p, bound (os m) u p = bound w0 u p || bool_decide ((u, p) = (Tcp, http_port))) ->
  is_ok (fst ((let! _ := bind_udp_socket ap in let! _ := start s in event_build (mkEventConfig ep)) m)) =
    negb (bound w0 Udp ap) && negb (bound w0 Tcp ep) && negb (http_port =? ep).
Proof using L.
  intros Ha He Hb. unfold bind_udp_socket, event_build, bind_tcp_listener, bind, call, start.
  cbn [event_server_port].
  pose proof (bind_iff Udp ap (os m) Ha) as Hu. pose proof (bind_spec Udp ap (os m)) as Hus.
  rewrite Hb, bool_decide_eq_false_2, orb_false_r in Hu by done.
  destruct (bind_socket Udp _ (os m)) as [[[]|err] w2]; cbn in Hu; rewrite <- Hu; [|done]. cbn [os andb].
  destruct Hus as (_ & _ & Hus). destruct (Hus Ha) as [_ Hw2].
  pose proof (bind_iff Tcp ep w2 He) as Ht.
  rewrite Hw2, Hb, (bool_decide_eq_false_2 (_ = (Udp, _))), orb_false_r, negb_orb in Ht by done.
  destruct (bind_socket Tcp _ w2) as [[[]|err] w3]; cbn in Ht |- *; rewrite Ht; f_equal;
    destruct (Z.eqb_spec http_port ep) as [->|Hne]; by rewrite ?bool_decide_eq_true_2, ?bool_decide_eq_false_2 by congruence.
Qed.

(** ** Properties *)

(** C30: what runs when [main] ends. The first of the five things that must
    succeed and does not, decides: [main] returns its error, the machine is as
    the operations until then leave it, and exactly the services before it run,
    in the order of the code: none without the database; the database and the
    manager of the websockets when the HTTP server can not bind its port; these,
    the HTTP server and the event processor when the directory can not be had or
    the audio server can not bind, so the HTTP server may already serve; and all
    but the event server when this can not bind. When all succeed, all six run,
    every port is bound, two servers of one transport are on different ports and
    the directory exists; [main] returns what the HTTP server ended with. The
    system is stopped exactly when [main] succeeds. *)
Theorem startup_order (config : Config) (served : result () string) (w : W) :
  let (r, m) := main config served (mkMachine w [] false) in
  let '(k, failure, w') := overcome (obstacles config) w in
  r = match failure with Some e => Err e | None => served end /\
  started m = take (running k) (services config) /\ os m = w' /\
  match failure with
  | Some _ => (k < 5)%nat
  | None => started m = services config /\ ready config (os m)
  end /\
  stopped m = is_ok r.
Proof using L.
  unfold main, bind. pose proof (build_all_spec config (mkMachine w [] false)) as Hb.
  destruct (build_all config _) as [r m]. cbn [os started stopped app] in Hb.
  destruct (overcome (obstacles config) w) as [[k [e|]] w']; destruct Hb as (-> & -> & Hk); [done|].
  destruct Hk as [-> Hr]. by destruct served as [[]|e].
Qed.

(** C31: when the backend starts. On a machine that gives what is free, and
    with no port 0: all builders succeed exactly when the database can be
    reached, the three ports are free, the TCP ports of the HTTP and of the
    event server differ, and the path of the recordings is a directory or can
    be made one. *)
Theorem startup_succeeds_iff `{T : !OsTotal W} (config : Config) (w : W) :
  server_port (http config) <> 0 -> audio_server_port (audio_server config) <> 0 ->
  event_server_port (event_server config) <> 0 ->
  is_ok (fst (main config (Ok tt) (mkMachine w [] false))) = available config w.
Proof using L.
  intros Hh Ha He. unfold main. assert (forall m, is_ok (fst (bind (build_all config)
    (fun _ => bind (fun m => (Ok tt, m)) (fun _ => system_stop)) m)) = is_ok (fst (build_all config m))) as ->.
  { intros m. unfold bind. by destruct (build_all config m) as [[[]|?] ?]. }
  unfold available, build_all, db_build, http_build, processor_start. unfold bind at 1, bind at 1, call at 1, start at 1.
  cbn [os]. pose proof (pool_spec (DbTypes.build_dsn (db config)) w) as Hp.
  destruct (pool_build (DbTypes.build_dsn (db config)) w) as [[[]|err] w0]; [|done]. destruct Hp as [F0 S0]. cbn [started stopped fst is_ok andb].
  rewrite !bind_assoc. unfold bind at 1, start at 1. cbn [os started stopped].
  rewrite !bind_assoc. unfold bind at 1, call at 1. cbn [os started stopped].
  pose proof (bind_iff Tcp (server_port (http config)) w0 Hh) as Hb. pose proof (bind_spec Tcp (server_port (http config)) w0) as Hbs.
  rewrite S0 in Hb. destruct (bind_socket Tcp _ w0) as [[[]|err] w1]; cbn in Hb; rewrite <- Hb; [|done].
  destruct Hbs as (F1 & _ & Hbs). destruct (Hbs Hh) as [_ Hw1].
  set (m1 := mkMachine w1 _ _). unfold bind at 1, start at 1. unfold bind at 1, start at 1. set (m2 := mkMachine _ _ _).
  assert (forall u p, bound (os m2) u p = bound w u p || bool_decide ((u, p) = (Tcp, server_port (http config)))) as Hm2
    by (intros u p; cbn; by rewrite Hw1, S0).
  assert (same_files w (os m2)) as Fm2 by (intros p; destruct (F0 p) as (<- & <- & <-); apply F1).
  clearbody m2. destruct (Fm2 (audio_wav_directory (audio_server config))) as (<- & <- & <-).
  unfold audio_build. rewrite bind_assoc. unfold bind at 1.
  pose proof (ensure_directory_iff (audio_wav_directory (audio_server config)) m2) as Hd.
  destruct (ensure_directory _ m2) as [[dir|err] m3]; destruct Hd as (Sd & Hr & <-); [|done]. injection Hr as ->.
  rewrite bind_assoc. cbn [is_ok andb]. rewrite <- (binds_iff (server_port (http config)) (audio_server_port (audio_server config))
    (event_server_port (event_server config)) (AudioServer (audio_server_port (audio_server config))
      (audio_wav_directory (audio_server config))) w m3); [|done|done|intros u p; by rewrite Sd].
  by destruct (event_server config).
Qed.
End Main.

(** ** Every configuration can be given by the environment *)

(** The text of each level that has one. *)
Definition level_text (l : Level) : string :=
  match l with
  | Trace => "trace" | Debug_ => "debug" | Info_ => "info" | Warn => "warn" | Error => "error" | Critical => "critical"
  end.

Fixpoint assoc (vars : list (string * string)) (variable : string) : option string :=
  match vars with
  | [] => None
  | (v, text) :: vars => if String.eqb v variable then Some text else assoc vars variable
  end.
Definition environment (c : Config) : string -> option string :=
  assoc [("LOG_LEVEL", level_text (logger c)); ("DB_HOST", DbTypes.db_host (db c));
    ("DB_PORT", DbTypes.port_to_string (DbTypes.db_port (db c))); ("DB_NAME", DbTypes.db_name (db c));
    ("DB_USER", DbTypes.db_user (db c)); ("DB_PASSWORD", DbTypes.db_password (db c));
    ("AUDIO_SERVER_PORT", DbTypes.port_to_string (audio_server_port (audio_server c)));
    ("AUDIO_WAV_DIRECTORY", audio_wav_directory (audio_server c));
    ("EVENT_SERVER_PORT", DbTypes.port_to_string (event_server_port (event_server c)));
    ("SERVER_PORT", DbTypes.port_to_string (server_port (http c)))].

Lemma parse_u16_port p : in_u 16 p = true -> parse_u16 (DbTypes.port_to_string p) = Some p.
Proof.
  intros Hp%in_u_iff. unfold parse_u16, DbTypes.port_to_string.
  rewrite parse_decimal; [done|lia|lia|change (2 ^ 16) with 65536 in Hp; cbn; lia|lia].
Qed.

(** Every configuration with ports of 16 bits, but for the log level
    [Critical], is what the program reads when the environment spells it and
    the command line is empty; the level [Critical] can be read from no command
    line and no environment. *)
Lemma config_roundtrip (c : Config) (flag env : string -> option string) :
  in_u 16 (DbTypes.db_port (db c)) = true -> in_u 16 (audio_server_port (audio_server c)) = true ->
  in_u 16 (event_server_port (event_server c)) = true -> in_u 16 (server_port (http c)) = true ->
  (logger c <> Critical -> from_args (fun _ => None) (environment c) = Some c) /\
  (logger c = Critical -> from_args flag env <> Some c).
Proof.
  intros Hd Ha He Hh. split.
  - intros Hl. unfold from_args, logger_config, db_config, audio_config, event_config, http_config, arg, environment.
    cbn [assoc String.eqb Ascii.eqb Bool.eqb default from_option]. change (id ?x) with x.
    rewrite !parse_u16_port by done. destruct c as [l [] [] [] []]. by destruct l.
  - intros Hl Hc. unfold from_args in Hc. apply bind_Some in Hc as (l & Hlv & Hc).
    assert (logger c = l) as Hcl by (repeat (apply bind_Some in Hc as (? & _ & Hc)); by injection Hc as <-).
    unfold logger_config in Hlv. destruct (level_from_str _) as [l'|] eqn:El; [|done]. injection Hlv as ->.
    apply (no_text_is_critical (arg flag env "log-level" "LOG_LEVEL" "info")). congruence.
Qed.

(** ** Witness: a machine with sets of ports, files and directories *)

Record machine : Type := mkWorld {
  ports_tcp : list Z;
  ports_udp : list Z;
  dirs : list string;
  files : list string;
  database_up : bool;
}.
Definition ports (w : machine) (t : Transport) : list Z := match t with Tcp => ports_tcp w | Udp => ports_udp w end.
Definition add_port (t : Transport) (port : Z) (w : machine) : machine :=
  match t with
  | Tcp => mkWorld (port :: ports_tcp w) (ports_udp w) (dirs w) (files w) (database_up w)
  | Udp => mkWorld (ports_tcp w) (port :: ports_udp w) (dirs w) (files w) (database_up w)
  end.
Definition is_port (w : machine) (t : Transport) (port : Z) : bool := bool_decide (port ∈ ports w t).
Definition is_file (p : string) (w : machine) : bool := bool_decide (p ∈ files w).
Definition is_directory (p : string) (w : machine) : bool := bool_decide (p ∈ dirs w).

#[local] Instance machine_os : Os machine := {
  bound := is_port;
  exists_ p w := is_directory p w || is_file p w;
  is_dir := is_directory;
  creatable p w := negb (is_file p w);
  bind_socket t port w :=
    if (port =? 0) then (Ok tt, w)
    else if is_port w t port then (Err "address in use"%string, w) else (Ok tt, add_port t port w);
  create_dir_all p w :=
    if is_file p w then (Err "file exists"%string, w)
    else (Ok tt, mkWorld (ports_tcp w) (ports_udp w) (p :: dirs w) (files w) (database_up w));
  pool_build _ w := (if database_up w then Ok tt else Err "timed out"%string, w);
}.

Lemma is_port_add t port w u p : is_port (add_port t port w) u p = is_port w u p || bool_decide ((u, p) = (t, port)).
Proof.
  unfold is_port. rewrite <- bool_decide_or. apply bool_decide_ext. destruct t, u; cbn; rewrite ?elem_of_cons; intuition congruence.
Qed.

#[local] Instance machine_laws : OsLaws machine.
Proof.
  split; cbn.
  - intros t port w. destruct (Z.eqb_spec port 0) as [->|Hne]; [done|].
    destruct (is_port w t port) eqn:Hp; [done|]. split; [by destruct t|]. split.
    + intros u p Hu. by rewrite is_port_add, Hu.
    + intros _. split; [done|]. apply is_port_add.
  - intros p w. destruct (is_file p w); [done|]. split; [by intros []|]. intros _.
    apply bool_decide_eq_true_2. cbn. apply elem_of_cons. by left.
  - done.
Qed.

#[local] Instance machine_total : OsTotal machine.
Proof.
  split; cbn.
  - intros t port w Hp. destruct (port =? 0); [done|]. by rewrite Hp.
  - intros p w. by destruct (is_file p w).
Qed.

Definition default_config : Config :=
  mkConfig Info_ (DbTypes.mkConfig "localhost" 5432 "bug" "dev" "dev") (mkAudioConfig 3003 "./wav")
    (mkEventConfig 3002) (mkHttpConfig 3001).
Example from_args_default : from_args (fun _ => None) (fun _ => None) = Some default_config.
Proof. vm_compute. reflexivity. Qed.

Definition machine0 : machine := mkWorld [22] [] ["."] ["passwd"] true.
(** The event server on the port of the HTTP server. *)
Definition clash : Config := mkConfig Info_ (db default_config) (audio_server default_config) (mkEventConfig 3001) (mkHttpConfig 3001).
Example clash_stops : length (started (snd (main 4 clash (Ok tt) (mkMachine machine0 [] false)))) = 5%nat.
Proof. vm_compute. reflexivity. Qed.

(** One configuration starts, the other one fails at its last step. *)
Lemma startup_order_witness :
  (let (r, m) := main 4 default_config (Ok tt) (mkMachine machine0 [] false) in
   started m = services 4 default_config /\ ready default_config (os m) /\ stopped m = true) /\
  (let (r, m) := main 4 clash (Ok tt) (mkMachine machine0 [] false) in
   r = Err "address in use"%string /\ started m = take 5 (services 4 clash) /\ stopped m = false).
Proof.
  split.
  - pose proof (startup_order 4 default_config (Ok tt) machine0) as H.
    destruct (main 4 default_config (Ok tt) (mkMachine machine0 [] false)) as [r m].
    destruct (overcome (obstacles default_config) machine0) as [[k failure] w'] eqn:E. vm_compute in E. injection E as <- <- <-.
    destruct H as (Hr & _ & _ & [Ha Hb] & Hst). split; [exact Ha|]. split; [exact Hb|]. rewrite Hst, Hr. reflexivity.
  - pose proof (startup_order 4 clash (Ok tt) machine0) as H.
    destruct (main 4 clash (Ok tt) (mkMachine machine0 [] false)) as [r m].
    destruct (overcome (obstacles clash) machine0) as [[k failure] w'] eqn:E. vm_compute in E. injection E as <- <- <-.
    destruct H as (Hr & Ha & _ & _ & Hst). split; [exact Hr|]. split; [exact Ha|]. rewrite Hst, Hr. reflexivity.
Defined.

Lemma startup_succeeds_iff_witness :
  is_ok (fst (main 4 default_config (Ok tt) (mkMachine machine0 [] false))) = available default_config machine0.
Proof. apply (startup_succeeds_iff 4 default_config machine0); discriminate. Defined.

Lemma config_roundtrip_witness :
  (logger clash <> Critical -> from_args (fun _ => None) (environment clash) = Some clash) /\
  (logger clash = Critical -> from_args (fun _ => None) (fun _ => None) <> Some clash).
Proof. by apply config_roundtrip. Defined.

